(* ===== verification/_CoqProject ===== *)
-Q . S2P
Prelude.v
RustStr.v
Floats.v
Extern.v
PolicyKeys.v
Error.v
Policy.v
Wire.v
SessionData.v
Session.v
Deadline.v
SessionStart.v
CommitmentHash.v
Concrete.v
ModeApi.v
Decision.v
Proposal.v
Task.v
Handoff.v
Quorum.v
MultiRound.v
Laws.v
Blind.v
Step.v
Replay.v
Live.v
Evaluator.v
Governance.v
Log.v
LogReplay.v
PolicyRegistry.v
PolicyAdmission.v
Runtime.v
Recovery.v
Durable.v
ModeRegistry.v
WhatIf.v
WhatIfLog.v
Auth.v
RateLimit.v
Base64.v
Pagination.v
Jcs.v
Json.v
ReceiptKeys.v
Receipt.v
ReceiptIssue.v
Stream.v
Accepted.v
Service.v
Access.v
Serving.v
StreamFrames.v
StreamTurns.v
WatchSessions.v
Responses.v
Files.v
FileStore.v
Sse.v
