(* ===== verification/Prelude.v ===== *)
(** * A verification development for the MACP runtime

    The repository implements the Multi-Agent Coordination Protocol: agents
    exchange envelopes inside bounded sessions, a coordination mode (decision,
    proposal, task, handoff, quorum, and the multi-round and passthrough
    extensions) judges every message, a governance policy judges the final
    commitment, and a server keeps every session in an append-only log that
    replay can rebuild it from. This development models the coordination
    kernel, the modes and their registry, the policy evaluator and registry,
    the server runtime with its log and recovery, its storage in files, what-if
    replay, decision receipts, the authentication layer, and the gRPC service
    with its session streams, and proves that they keep what they promise.

    ** How the parts interact, and where each is modelled

    A client's call reaches the service (src/server.rs), which checks its form,
    authenticates it, and applies rights, rate limits and the ingress policy
    engine. An envelope then goes to the runtime's [process] (src/runtime.rs), which
    takes the session from its registry and runs the kernel's phases:
    preconditions, admission, synthesis of what is already due, dispatch to
    the mode, durable append, commit. The mode consults the policy bound to
    the session through the evaluator. Lifecycle calls and background passes
    change the session too, and recovery rebuilds all of it from the log. What
    is accepted is published on the session's bus, which subscribers read after
    a snapshot of the log, and lifecycle events go to the watchers.

    - Prelude: results, the state-and-error monad of methods on [&mut self],
      machine integers with their wrap-around and saturation written out,
      ordered maps, the hint databases and tactics of the development.
    - RustStr, Floats: the parts of Rust's [str] and [f64] the program uses
      ([trim], case mapping, comparison, rounding, casts).
    - Extern: what is not in this repository, as type classes with laws:
      protobuf and JSON codecs, JSON values, UUIDs, SHA-256.
    - Wire: the protobuf messages as records.
    - Error (macp-core error.rs, policy/deny.rs): error codes, their transport
      rows, and structured policy refusals.
    - Policy (macp-core policy/mod.rs, rules.rs, decision.rs): rule structs,
      the effective quorum threshold, the evaluator interface.
    - SessionData, Session, Deadline (macp-core session.rs, mode.rs): the
      [Session] struct, its lifecycle methods, and the deadline walk over
      recorded suspensions.
    - SessionStart (macp-core session.rs): validation of starts and ids.
    - CommitmentHash (macp-core commitment_hash.rs): canonical JSON, hash and
      verification on the wire.
    - ModeApi (macp-modes mode/mod.rs, mode/util.rs): the [Mode] trait as a
      record, the shared helpers, and [ModeLaws], what the kernel relies on.
    - Decision, Proposal, Task, Handoff, Quorum, MultiRound (macp-modes mode/):
      one section per mode, with its state, every handler, and its invariant.
    - Laws, Blind: every mode satisfies [ModeLaws], and none looks at what
      replay fills in ([ReplayBlind]).
    - Step (macp-modes step.rs): the kernel over any lawful mode.
    - Replay (macp-modes replay.rs), Live: the library replay, and live
      sessions as sequences of operations.
    - Evaluator (macp-policy evaluator.rs, registry.rs), Governance: the default
      policy evaluator, and the modes composed with it.
    - Log (macp-storage log_store.rs, registry.rs): log entries, the in-memory
      log with the ordinals subscribers see, and session snapshots.
    - PolicyKeys (macp-core policy/keys.rs): the key namespaces of policy rules
      and the walk that holds rule objects closed.
    - PolicyRegistry (macp-policy registry.rs, defaults.rs), PolicyAdmission: the
      built-in policies, every admission check, registration, directory loads
      and dry runs; and what admission promises to the evaluator.
    - LogReplay (src/replay.rs): replay of the server's log, from its start or
      from its last checkpoint.
    - Runtime (src/runtime.rs, src/recovery.rs, storage/compaction.rs): the
      server's handlers over a registry, a log, and storage that may refuse
      any call.
    - Recovery, Durable: what makes a log rebuild a session, and that every
      handler keeps it so.
    - ModeRegistry (macp-modes mode_registry.rs): built-in modes, and extension
      modes registered, removed and promoted at run time.
    - WhatIf (macp-modes what_if.rs), WhatIfLog (src/runtime.rs, src/replay.rs):
      replay of a recorded session under a candidate policy, and over its log.
    - Auth, RateLimit (macp-auth): configuration, the resolver chain, opaque
      tokens and JWTs with their key cache, and the rate limiter.
    - Base64, Pagination (src/pagination.rs, registry.rs, server.rs): page
      tokens and the ListSessions handler.
    - Jcs (macp-core receipt/jcs.rs), Json: RFC 8785 canonical JSON, and JSON
      objects.
    - ReceiptKeys, Receipt (macp-core receipt/keys.rs, build.rs, verify.rs):
      signing keys and published key sets, issuing and verifying a receipt.
    - ReceiptIssue (src/receipts.rs, src/runtime.rs): receipt configuration, the
      call that serves a receipt, and what evictions, deletions and restarts do
      to receipts.
    - Stream (src/stream_bus.rs, the cursor of src/server.rs): the bus and one
      subscription as a system of interleaved steps over any broadcast channel.
      Accepted: the server's handlers as runs of that system.
    - Service (src/server.rs, src/policy_engine.rs): the unary handlers over the
      runtime, the receipts, the security layer and the two registries.
      Access: what a call must have passed. Serving: any sequence of calls and
      maintenance.
    - StreamFrames (src/server.rs): the StreamSession stream, frame by frame, and
      its loop. StreamTurns: that it always answers.
    - WatchSessions (src/watch_sync.rs, src/server.rs): the initial sync and the
      lifecycle events, interleaved with the runtime.
    - Sse (src/http/sse.rs): the event stream of the HTTP binding over the same bus
      and cursor, and a client that reconnects.
    - Responses (src/server.rs): discovery, and the wire form of a what-if replay.
    - Files: the calls of std::fs and tokio::fs, each of which can be refused or
      cut short, and power losses. FileStore (macp-storage storage/file.rs,
      storage/recovery.rs): the file backend over them, and its contract.
    - Concrete: codecs that satisfy the laws, for the witnesses.

    A struct is a record with the field names of the source behind a prefix
    ([ss_ttl_expiry] is [Session::ttl_expiry]); a method on [&mut self] that
    returns [Result] is a state transformer that keeps what it wrote before it
    failed; [HashMap], [BTreeMap] and [HashSet] are finite maps and sets; a
    formatted message is the list of its fragments.

    ** What the theorems show

    - The kernel (Step, Live): a rejected message leaves no trace, an accepted
      one is idempotent and passed every gate, a start binds a well-formed
      session, and whatever happens to a session it stays well-formed and on
      the lifecycle. The library replay rebuilds it exactly.
    - The server (Log, Durable): whatever the handlers do and whichever writes
      storage refuses, recovery brings back every session in memory; the
      ordinals subscribers see are dense and never change; a snapshot keeps
      the session.
    - Governance (Evaluator, Governance): the evaluation of a Decision
      commitment is its declarative contract; declines and unanimous
      approvals are backed by what is on record; a Quorum commitment is sealed
      exactly when the bar allows it.
    - The policy registry (PolicyKeys, PolicyAdmission): the closed-key walk
      decides closedness; reserved policies are permanent and canonical; a
      registration succeeds or is refused under the right code; the dry run
      predicts the load; and a policy a session can bind is one the evaluator
      can apply, whose positive outcomes need a decisive approval and whose
      approval bar the roster can meet.
    - The modes: state invariants, append-only records, irrevocable
      acceptances, and exact commitment conditions; implicit acceptance of a
      handoff fires exactly at its deadline, which the interval walk computes.
    - The mode registry: every mode it serves is lawful, and the standard modes
      are permanent.
    - What-if replay: the candidate half is the replay of what the report does
      not list as refused, no divergence means the recorded outcome, and the
      recorded half is the replay of the log.
    - Authentication: an identity is vouched for by a configured token or a
      verified JWT; keys are fresh; the limiter is a sliding-window count.
    - Session listing: following page tokens ends, in order, and misses nothing.
    - Receipts: canonical JSON is total and injective without doubles; what is
      issued verifies with the published keys, what is attested was issued, and
      a session's receipt does not change while it is kept.
    - Session streams (Stream, Accepted, StreamFrames, StreamTurns, Sse): a
      subscriber gets exactly what the server accepted, once, in order and under
      its ordinals, or learns that it fell behind; a stream speaks for its caller
      in one session and never hangs; an event stream keeps this over any number
      of reconnections and ends when its session has.
    - The service (Access, Serving): the first failed gate decides the refusal and
      a refused call leaves the sessions alone; every envelope of a session is
      accounted for by a caller who passed the gates or by its mode; sessions are
      shown to their readers, controlled by their controllers, and the registries
      answer to their managers.
    - Watching (WatchSessions): a watcher is told every event since it
      subscribed, in order, and each session of the snapshot once.
    - Storage in files (FileStore): through refusals, crashes and power losses the
      backend is an abstract store for each session; acknowledged log entries
      stay, snapshots and receipts are whole, a receipt is never replaced. The
      contract names its limits: what an unacknowledged append leaves, and a
      compacted log that is not durable yet.
    - SessionStart, CommitmentHash, Policy: exact validation contracts, unique
      session ids, collision resistance of the canonical form, exactness of
      the percentage threshold.
    - Flaws the models exhibit: a NaN confidence disables a Decision session,
      a defeated Quorum can seal a positive outcome without a policy
      threshold, a percentage quorum rounds down, replay keeps a leftover of
      an expired suspension, reusing an evicted session's id loses the new
      session, promotion frees the name of a built-in mode, a what-if run
      expires an overdue session, an issuer without usable keys leaves the
      server in dev mode, an eviction can forget a receipt that was never
      stored, malformed rules register as no rules, what the engine denies on a
      stream is not charged, a start that rolled back is reported to watchers,
      Cancelled can be sent before Created, an eviction can end an event stream
      early, a torn line of a log takes the next
      entry with it or hides the log, a refused append can be replayed, a power
      loss can empty a compacted log, and a log that cannot be looked up reads as
      empty.

    ** Bounds and fuel

    [advance] emits at most [MAX_SYNTHETIC_PER_STEP] envelopes, the source's
    own bound, and fails when one more is due. The search for the shortest
    digits of a double ends below half the least double. A scan of wire bytes
    has the length of its buffer as fuel, which every turn consumes. The receive
    loop of a subscription has one step more than the filter it skips by
    ([receive_fuel]), and the loop that drains a stream is given any fuel:
    StreamTurns proves that some fuel is enough and more changes nothing. All other
    recursion is structural. Clock readings and storage outcomes are streams, one element
    per call, and the theorems quantify over them.

    ** Not modelled

    The rest of the HTTP service transcodes the same calls to JSON; the CLI and the
    conformance runner are clients; telemetry and metrics observe. The watches
    of registries, roots and signals relay a notification. The RocksDB and Redis
    backends are databases behind the storage interface. Runtime takes a refused
    write to leave storage as it was; FileStore says when a file does not.
    Entries of directories are durable when made. Structured error
    details are modelled before their JSON encoding. Handlers are atomic: each
    holds the mutex of its session, and what runs between two handlers of one
    session does not touch it; where others see the middle of a handler, in
    Stream and WatchSessions, its steps are separate. Within one handler the
    registries do not change. Protobuf, JSON text, UUID, SHA-256, base64,
    Ed25519, JWT, calendar and broadcast-channel libraries are parameters with
    the laws their documentation states. *)

From stdpp Require Import prelude gmap strings sorting.

Open Scope Z_scope.

(** ** Fallible computations

    [Result<A, E>] of the source, with the error type first so that
    [result E] is a monad: the [?] operator is [x ← e; k]. *)
Inductive result (E A : Type) : Type :=
| Ok (a : A)
| Err (e : E).
Arguments Ok {E A} a.
Arguments Err {E A} e.

#[export] Instance result_ret {E} : MRet (result E) := λ A, Ok.
#[export] Instance result_bind {E} : MBind (result E) := λ A B f r,
  match r with
  | Ok a => f a
  | Err e => Err e
  end.

Definition is_ok {E A} (r : result E A) : bool :=
  match r with Ok _ => true | Err _ => false end.

(** [Option::ok_or]. *)
Definition ok_or {E A} (o : option A) (e : E) : result E A :=
  match o with Some a => Ok a | None => Err e end.

(** [Result::unwrap_or_default] on a result whose error is dropped. *)
Definition unwrap_or {E A} (d : A) (r : result E A) : A :=
  match r with Ok a => a | Err _ => d end.

#[export] Instance result_eq_dec {E A} `{EqDecision E, EqDecision A} :
  EqDecision (result E A).
Proof. solve_decision. Defined.

(** ** Computations on a mutable receiver

    A method on [&mut S] that returns [Result<A, E>] keeps whatever it wrote
    to the receiver before it failed, so the state is returned beside the
    result and not inside it. *)
Definition stm (S E A : Type) : Type := S → S * result E A.

Definition st_ret {S E A} (a : A) : stm S E A := λ s, (s, Ok a).
Definition st_fail {S E A} (e : E) : stm S E A := λ s, (s, Err e).
Definition st_bind {S E A B} (m : stm S E A) (f : A → stm S E B) : stm S E B :=
  λ s, match m s with
       | (s', Ok a) => f a s'
       | (s', Err e) => (s', Err e)
       end.
(** A fallible computation that only reads the receiver. *)
Definition st_read {S E A} (f : S → result E A) : stm S E A := λ s, (s, f s).
(** An infallible update of the receiver. *)
Definition st_mod {S E} (f : S → S) : stm S E unit := λ s, (f s, Ok ()).

Declare Scope stm_scope.
Delimit Scope stm_scope with stm.
Notation "'let!' x := m 'in' k" := (st_bind m (λ x, k))
  (at level 10, x name, m at level 100, k at level 200) : stm_scope.
Notation "'do!' m ; k" := (st_bind m (λ _, k))
  (at level 10, m at level 100, k at level 200) : stm_scope.

(** ** Machine integers

    Integers of the source are [Z] kept at their width: [i64_wrap], [u32_wrap]
    and the like write out wrap-around (plain operators in a release build),
    [i64_sat] the saturating operators. *)
Definition i64_min : Z := - 2 ^ 63.
Definition i64_max : Z := 2 ^ 63 - 1.
Definition is_i64 (z : Z) : Prop := i64_min ≤ z ≤ i64_max.
Definition i64_wrap (z : Z) : Z := (z + 2 ^ 63) mod 2 ^ 64 - 2 ^ 63.
Definition i64_sat (z : Z) : Z := Z.max i64_min (Z.min i64_max z).
Definition saturating_add (a b : Z) : Z := i64_sat (a + b).
Definition saturating_sub (a b : Z) : Z := i64_sat (a - b).

Definition u32_max : Z := 2 ^ 32 - 1.
Definition u32_wrap (z : Z) : Z := z mod 2 ^ 32.
Definition u64_max : Z := 2 ^ 64 - 1.
Definition u64_wrap (z : Z) : Z := z mod 2 ^ 64.
(** [u32::saturating_sub]. *)
Definition u32_saturating_sub (a b : Z) : Z := Z.max 0 (a - b).

(** [Vec::len], as the [usize] it is. *)
Definition len {A} (l : list A) : Z := Z.of_nat (length l).

Lemma len_nonneg {A} (l : list A) : 0 ≤ len l.
Proof. unfold len. lia. Qed.

Lemma len_nil {A} : len (A:=A) [] = 0.
Proof. done. Qed.

Lemma len_cons {A} (x : A) l : len (x :: l) = 1 + len l.
Proof. unfold len. simpl. lia. Qed.

Lemma len_app {A} (l k : list A) : len (l ++ k) = len l + len k.
Proof. unfold len. rewrite length_app. lia. Qed.

Lemma i64_wrap_id z : is_i64 z → i64_wrap z = z.
Proof.
  unfold is_i64, i64_min, i64_max, i64_wrap. intros.
  rewrite Z.mod_small; lia.
Qed.

Lemma i64_wrap_range z : is_i64 (i64_wrap z).
Proof.
  unfold is_i64, i64_min, i64_max, i64_wrap.
  pose proof (Z.mod_pos_bound (z + 2 ^ 63) (2 ^ 64)). lia.
Qed.

Lemma i64_sat_id z : is_i64 z → i64_sat z = z.
Proof. unfold is_i64, i64_sat. lia. Qed.

Lemma i64_sat_range z : is_i64 (i64_sat z).
Proof. unfold is_i64, i64_sat, i64_min, i64_max. lia. Qed.

Lemma i64_sat_mono a b : a ≤ b → i64_sat a ≤ i64_sat b.
Proof. unfold i64_sat. lia. Qed.

Lemma u32_wrap_id z : 0 ≤ z ≤ u32_max → u32_wrap z = z.
Proof. unfold u32_max, u32_wrap. intros. rewrite Z.mod_small; lia. Qed.

(** ** Ordered maps

    A [BTreeMap<String, V>] is a [gmap]; what iterates it walks [bt_entries],
    its entries in ascending (bytewise) key order. *)
Definition entry_le {V} (x y : string * V) : Prop := String.le x.1 y.1.

#[export] Instance entry_le_dec {V} : RelDecision (entry_le (V:=V)).
Proof. intros x y. unfold entry_le. apply _. Defined.

Definition bt_entries {V} (m : gmap string V) : list (string * V) :=
  merge_sort entry_le (map_to_list m).
Definition bt_values {V} (m : gmap string V) : list V := (bt_entries m).*2.
Definition bt_keys {V} (m : gmap string V) : list string := (bt_entries m).*1.

Lemma bt_entries_perm {V} (m : gmap string V) : bt_entries m ≡ₚ map_to_list m.
Proof. apply merge_sort_Permutation. Qed.

Lemma elem_of_bt_entries {V} (m : gmap string V) k v :
  (k, v) ∈ bt_entries m ↔ m !! k = Some v.
Proof. by rewrite bt_entries_perm, elem_of_map_to_list. Qed.

Lemma elem_of_bt_values {V} (m : gmap string V) v :
  v ∈ bt_values m ↔ ∃ k, m !! k = Some v.
Proof.
  unfold bt_values. rewrite list_elem_of_fmap. split.
  - intros ([k w] & -> & H). exists k. by apply elem_of_bt_entries.
  - intros [k H]. exists (k, v). by rewrite elem_of_bt_entries.
Qed.

Lemma elem_of_bt_keys {V} (m : gmap string V) k :
  k ∈ bt_keys m ↔ is_Some (m !! k).
Proof.
  unfold bt_keys. rewrite list_elem_of_fmap. split.
  - intros ([j w] & -> & H). exists w. by apply elem_of_bt_entries.
  - intros [v H]. exists (k, v). by rewrite elem_of_bt_entries.
Qed.

Lemma bt_values_empty {V} : bt_values (∅ : gmap string V) = [].
Proof. unfold bt_values, bt_entries. by rewrite map_to_list_empty. Qed.

Lemma length_bt_entries {V} (m : gmap string V) : length (bt_entries m) = size m.
Proof. by rewrite bt_entries_perm, length_map_to_list. Qed.

Lemma bt_values_insert {V} (m : gmap string V) k v :
  m !! k = None → bt_values (<[k := v]> m) ≡ₚ v :: bt_values m.
Proof.
  intros H. unfold bt_values. rewrite !bt_entries_perm.
  by rewrite map_to_list_insert.
Qed.

Lemma NoDup_bt_keys {V} (m : gmap string V) : NoDup (bt_keys m).
Proof.
  unfold bt_keys. rewrite bt_entries_perm. apply NoDup_fst_map_to_list.
Qed.

(** [m.values().any(f)]. *)
Definition bt_any {V} (f : V → bool) (m : gmap string V) : bool :=
  existsb f (bt_values m).
(** [m.values().filter(f).count()]. *)
Definition bt_count {V} (f : V → bool) (m : gmap string V) : Z :=
  len (List.filter f (bt_values m)).

Lemma bt_any_true {V} (f : V → bool) m :
  bt_any f m = true ↔ ∃ k v, m !! k = Some v ∧ f v = true.
Proof.
  unfold bt_any. rewrite existsb_exists. split.
  - intros (v & Hv%list_elem_of_In & Hf). apply elem_of_bt_values in Hv as [k Hk]. eauto.
  - intros (k & v & Hk & Hf). exists v. split; [|done].
    apply list_elem_of_In, elem_of_bt_values. eauto.
Qed.

Lemma bt_any_false {V} (f : V → bool) m :
  bt_any f m = false ↔ ∀ k v, m !! k = Some v → f v = false.
Proof.
  rewrite <- not_true_iff_false, bt_any_true. split.
  - intros H k v Hk. destruct (f v) eqn:Hf; [|done]. exfalso. eauto.
  - intros H (k & v & Hk & Hf). specialize (H k v Hk). congruence.
Qed.

#[export] Instance filter_perm_proper {A} (f : A → bool) :
  Proper ((≡ₚ) ==> (≡ₚ)) (List.filter f).
Proof.
  intros l k H. induction H; simpl; [done| | | by etrans].
  - destruct (f x); by rewrite ?IHPermutation.
  - destruct (f x), (f y); try done. constructor.
Qed.

Lemma bt_count_insert {V} (f : V → bool) (m : gmap string V) k v :
  m !! k = None →
  bt_count f (<[k := v]> m) = (if f v then 1 else 0) + bt_count f m.
Proof.
  intros H. unfold bt_count, len. rewrite (bt_values_insert _ _ _ H). simpl.
  destruct (f v); simpl; lia.
Qed.

Lemma bt_count_le_size {V} (f : V → bool) (m : gmap string V) :
  0 ≤ bt_count f m ≤ Z.of_nat (size m).
Proof.
  unfold bt_count, len. pose proof (List.filter_length_le f (bt_values m)) as H.
  unfold bt_values in H at 2. rewrite length_fmap, length_bt_entries in H. lia.
Qed.

(** ** Boolean tests

    [a == b] and [a != b] are the source's comparisons at a type with
    decidable equality. *)
Notation "a == b" := (bool_decide (a = b)) (at level 70, no associativity).
Notation "a != b" := (negb (bool_decide (a = b))) (at level 70, no associativity).

(** [s.is_empty()]. *)
Definition str_is_empty (s : string) : bool := s == "".
Definition is_empty {A} (l : list A) : bool :=
  match l with [] => true | _ => false end.

Lemma is_empty_true {A} (l : list A) : is_empty l = true ↔ l = [].
Proof. by destruct l. Qed.
Lemma is_empty_false {A} (l : list A) : is_empty l = false ↔ l ≠ [].
Proof. by destruct l. Qed.

(** [v.iter().any(|p| p == x)], also [v.contains(&x)]. *)
Definition str_elem (x : string) (l : list string) : bool := existsb (λ p, p == x) l.
#[global] Arguments str_elem : simpl never.

Lemma str_elem_true x l : str_elem x l = true ↔ x ∈ l.
Proof.
  unfold str_elem. rewrite existsb_exists. split.
  - intros (y & Hy%list_elem_of_In & ->%bool_decide_eq_true_1). done.
  - intros H. exists x. split; [by apply list_elem_of_In|].
    by apply bool_decide_eq_true_2.
Qed.

Lemma str_elem_false x l : str_elem x l = false ↔ x ∉ l.
Proof. rewrite <- not_true_iff_false, str_elem_true. done. Qed.

Lemma gtb_true x y : (x >? y) = true ↔ y < x.
Proof. lia. Qed.
Lemma gtb_false x y : (x >? y) = false ↔ x ≤ y.
Proof. lia. Qed.
Lemma geb_true x y : (x >=? y) = true ↔ y ≤ x.
Proof. lia. Qed.
Lemma geb_false x y : (x >=? y) = false ↔ x < y.
Proof. lia. Qed.

(** ** Inversion of results *)
Lemma bind_ok {E A B} (m : result E A) (f : A → result E B) b :
  m ≫= f = Ok b ↔ ∃ a, m = Ok a ∧ f a = Ok b.
Proof. destruct m; simpl; naive_solver. Qed.

Lemma ok_or_ok {E A} (o : option A) (e : E) a : ok_or o e = Ok a ↔ o = Some a.
Proof. destruct o; simpl; naive_solver. Qed.

Lemma st_bind_ok {S E A B} (m : stm S E A) (f : A → stm S E B) s s' b :
  st_bind m f s = (s', Ok b) ↔ ∃ a s1, m s = (s1, Ok a) ∧ f a s1 = (s', Ok b).
Proof. unfold st_bind. destruct (m s) as [s1 [a|e]]; naive_solver. Qed.

Create HintDb macp.
Create Rewrite HintDb macp.
#[export] Hint Rewrite @bool_decide_eq_true @bool_decide_eq_false
  @str_elem_true @str_elem_false @is_empty_true @is_empty_false
  negb_true_iff negb_false_iff orb_true_iff orb_false_iff
  andb_true_iff Z.ltb_lt Z.ltb_ge Z.leb_le Z.leb_gt gtb_true gtb_false geb_true geb_false Z.eqb_eq Z.eqb_neq
  @bt_any_true @bt_any_false : macp.

(** [bool_simp] turns boolean facts in the context into propositions. *)
Ltac bool_simp :=
  unfold str_is_empty in *;
  repeat match goal with
  | H : _ = true |- _ => progress autorewrite with macp in H
  | H : _ = false |- _ => progress autorewrite with macp in H
  | H : _ ∧ _ |- _ => destruct H
  end.

(** One step of evaluating a successful computation backwards: every early
    return and every [?] on the way becomes a fact of the context. *)
Ltac res_step :=
  match goal with
  | H : Ok _ = Ok _ |- _ => injection H as H; try subst
  | H : Ok _ = Err _ |- _ => discriminate H
  | H : Err _ = Ok _ |- _ => discriminate H
  | H : Err _ = Err _ |- _ => injection H as H; try subst
  | H : Some _ = Some _ |- _ => injection H as H; try subst
  | H : Some _ = None |- _ => discriminate H
  | H : None = Some _ |- _ => discriminate H
  | H : (_, _) = (_, _) |- _ => injection H as H; try subst
  | H : _ ≫= _ = Ok _ |- _ => apply bind_ok in H as (? & ? & ?)
  | H : ok_or _ _ = Ok _ |- _ => apply ok_or_ok in H
  | H : st_bind _ _ _ = (_, Ok _) |- _ => apply st_bind_ok in H as (? & ? & ? & ?)
  | H : (if ?b then _ else _) = _ |- _ => destruct b eqn:?
  | H : match ?x with _ => _ end = _ |- _ => destruct x eqn:?
  end.
Ltac res_inv := repeat (res_step; simpl in *; try discriminate).
