(* ===== verification/RustStr.v ===== *)
(** * The parts of Rust's [str] the runtime uses

    A [&str] is its UTF-8 encoding, a [string] of bytes, and [String] compares
    bytewise, which is [String.le]. [trim] is exact over the Unicode
    [White_Space] property. [to_uppercase] and [to_lowercase] are exact on every
    character whose image is ASCII and leave any other non-ASCII character as
    it is: the runtime only ever compares their results with ASCII literals,
    and such a character has no ASCII image, so no comparison can tell. *)

From S2P Require Import Prelude.
From Stdlib Require Import Ascii.
From stdpp Require Import prelude gmap strings.
Open Scope Z_scope.

Definition byte_of (c : ascii) : Z := Z.of_N (N_of_ascii c).

(** ** [str::trim] *)

(** White space encoded in one, two and three bytes. *)
Definition ws1 (c : ascii) : bool :=
  let b := byte_of c in (9 <=? b) && (b <=? 13) || (b =? 32).
Definition ws2 (c1 c2 : ascii) : bool :=
  (byte_of c1 =? 0xC2) && ((byte_of c2 =? 0x85) || (byte_of c2 =? 0xA0)).
Definition ws3 (c1 c2 c3 : ascii) : bool :=
  let b1 := byte_of c1 in let b2 := byte_of c2 in let b3 := byte_of c3 in
  (b1 =? 0xE1) && (b2 =? 0x9A) && (b3 =? 0x80)
  || (b1 =? 0xE2) && (b2 =? 0x80) && (0x80 <=? b3) && (b3 <=? 0x8A)
  || (b1 =? 0xE2) && (b2 =? 0x80) && ((b3 =? 0xA8) || (b3 =? 0xA9) || (b3 =? 0xAF))
  || (b1 =? 0xE2) && (b2 =? 0x81) && (b3 =? 0x9F)
  || (b1 =? 0xE3) && (b2 =? 0x80) && (b3 =? 0x80).

(** Drop white space at the front, given the tests on the first two and the
    first three bytes; [trim_end] runs it on the reversed bytes with the tests
    reversed. *)
Fixpoint drop_ws (t2 : ascii → ascii → bool) (t3 : ascii → ascii → ascii → bool)
    (s : string) : string :=
  match s with
  | "" => ""
  | String c1 s1 =>
      if ws1 c1 then drop_ws t2 t3 s1 else
      match s1 with
      | "" => s
      | String c2 s2 =>
          if t2 c1 c2 then drop_ws t2 t3 s2 else
          match s2 with
          | "" => s
          | String c3 s3 => if t3 c1 c2 c3 then drop_ws t2 t3 s3 else s
          end
      end
  end.

Definition trim_start (s : string) : string := drop_ws ws2 ws3 s.
Definition trim_end (s : string) : string :=
  String.rev (drop_ws (λ c2 c1, ws2 c1 c2) (λ c3 c2 c1, ws3 c1 c2 c3) (String.rev s)).
Definition trim (s : string) : string := trim_end (trim_start s).

(** [s.trim().is_empty()]. *)
Definition blank (s : string) : bool := str_is_empty (trim s).

(** ** Case mapping *)
Definition ascii_upper (c : ascii) : ascii :=
  let n := N_of_ascii c in
  if (97 <=? n)%N && (n <=? 122)%N then ascii_of_N (n - 32) else c.
Definition ascii_lower (c : ascii) : ascii :=
  let n := N_of_ascii c in
  if (65 <=? n)%N && (n <=? 90)%N then ascii_of_N (n + 32) else c.

(** The non-ASCII characters with an ASCII upper case: U+00DF, U+0131, U+017F
    and the ligatures U+FB00 to U+FB06. *)
Definition upper2 (c1 c2 : ascii) : option string :=
  let b1 := byte_of c1 in let b2 := byte_of c2 in
  if (b1 =? 0xC3) && (b2 =? 0x9F) then Some "SS"
  else if (b1 =? 0xC4) && (b2 =? 0xB1) then Some "I"
  else if (b1 =? 0xC5) && (b2 =? 0xBF) then Some "S"
  else None.
Definition upper3 (c1 c2 c3 : ascii) : option string :=
  if (byte_of c1 =? 0xEF) && (byte_of c2 =? 0xAC) then
    let b3 := byte_of c3 in
    if b3 =? 0x80 then Some "FF" else if b3 =? 0x81 then Some "FI"
    else if b3 =? 0x82 then Some "FL" else if b3 =? 0x83 then Some "FFI"
    else if b3 =? 0x84 then Some "FFL" else if b3 =? 0x85 then Some "ST"
    else if b3 =? 0x86 then Some "ST" else None
  else None.

Fixpoint to_uppercase (s : string) : string :=
  match s with
  | "" => ""
  | String c1 s1 =>
      match s1 with
      | "" => String (ascii_upper c1) ""
      | String c2 s2 =>
          match upper2 c1 c2 with
          | Some u => u +:+ to_uppercase s2
          | None =>
              match s2 with
              | "" => String (ascii_upper c1) (to_uppercase s1)
              | String c3 s3 =>
                  match upper3 c1 c2 c3 with
                  | Some u => u +:+ to_uppercase s3
                  | None => String (ascii_upper c1) (to_uppercase s1)
                  end
              end
          end
      end
  end.

(** U+212A (the Kelvin sign) is the one non-ASCII character with an ASCII lower
    case. *)
Definition lower3 (c1 c2 c3 : ascii) : option string :=
  if (byte_of c1 =? 0xE2) && (byte_of c2 =? 0x84) && (byte_of c3 =? 0xAA)
  then Some "k" else None.

Fixpoint to_lowercase (s : string) : string :=
  match s with
  | "" => ""
  | String c1 s1 =>
      match s1 with
      | String c2 (String c3 s3) =>
          match lower3 c1 c2 c3 with
          | Some u => u +:+ to_lowercase s3
          | None => String (ascii_lower c1) (to_lowercase s1)
          end
      | _ => String (ascii_lower c1) (to_lowercase s1)
      end
  end.

(** ** Prefixes, suffixes and character classes *)
Definition starts_with (p s : string) : bool := String.prefix p s.
Definition ends_with (p s : string) : bool :=
  String.prefix (String.rev p) (String.rev s).

(** [s.strip_prefix(p)]. *)
Fixpoint strip_prefix (p s : string) : option string :=
  match p, s with
  | "", _ => Some s
  | String a p', String b s' => if a == b then strip_prefix p' s' else None
  | _, _ => None
  end.

Fixpoint str_all (f : ascii → bool) (s : string) : bool :=
  match s with "" => true | String c s' => f c && str_all f s' end.
Fixpoint str_any (f : ascii → bool) (s : string) : bool :=
  match s with "" => false | String c s' => f c || str_any f s' end.

Definition str_len (s : string) : Z := Z.of_nat (String.length s).

Definition is_ascii_digit (c : ascii) : bool :=
  let b := byte_of c in (48 <=? b) && (b <=? 57).
Definition is_ascii_alphanumeric (c : ascii) : bool :=
  let b := byte_of c in
  (48 <=? b) && (b <=? 57) || (65 <=? b) && (b <=? 90) || (97 <=? b) && (b <=? 122).

Definition is_ascii_lowercase (c : ascii) : bool :=
  let b := byte_of c in (97 <=? b) && (b <=? 122).

(** [s.split(c)]: the pieces between the separators, at least one. *)
Fixpoint split_on (c : ascii) (s : string) : list string :=
  match s with
  | "" => [""]
  | String a s' =>
      if a == c then "" :: split_on c s'
      else match split_on c s' with
           | [] => [String a ""]
           | w :: ws => String a w :: ws
           end
  end.

(** ** Lemmas *)
Lemma str_app_cons a s t : String a s +:+ t = String a (s +:+ t).
Proof. reflexivity. Qed.
Lemma str_app_nil t : "" +:+ t = t.
Proof. reflexivity. Qed.

Lemma str_app_assoc s t u : (s +:+ t) +:+ u = s +:+ t +:+ u.
Proof. induction s as [|a s IH]; [done|]. by rewrite !str_app_cons, IH. Qed.
Lemma str_app_inj p s t : p +:+ s = p +:+ t → s = t.
Proof.
  induction p as [|a p IH]; [done|]. rewrite !str_app_cons.
  intros H. injection H. auto.
Qed.

Lemma strip_prefix_app p s : strip_prefix p (p +:+ s) = Some s.
Proof.
  induction p as [|a p IH]; [done|].
  rewrite str_app_cons. simpl. by rewrite bool_decide_eq_true_2.
Qed.

Lemma strip_prefix_Some p s r : strip_prefix p s = Some r → s = p +:+ r.
Proof.
  revert s; induction p as [|a p IH]; intros [|b s]; simpl; intros H;
    rewrite ?str_app_cons, ?str_app_nil; try congruence.
  case_bool_decide; [|done]. subst. f_equal. auto.
Qed.

Lemma starts_with_app p s : starts_with p (p +:+ s) = true.
Proof.
  unfold starts_with. induction p as [|a p IH]; [by destruct s|].
  rewrite str_app_cons. simpl. destruct (ascii_dec a a); [done|congruence].
Qed.

Lemma str_len_app s t : str_len (s +:+ t) = str_len s + str_len t.
Proof.
  unfold str_len. induction s as [|a s IH]; [done|].
  rewrite str_app_cons. simpl. lia.
Qed.

Example trim_ex : trim "  a b	" = "a b".
Proof. reflexivity. Qed.
Example upper_ex : to_uppercase "review" = "REVIEW".
Proof. reflexivity. Qed.

(** ** Byte order *)
(** [a < b] on strings, bytewise. *)
Definition str_lt (a b : string) : bool := negb (String.leb b a).

Definition key_le (a b : string) : Prop := String.leb a b = true.
Definition key_lt (a b : string) : Prop := str_lt a b = true.

Lemma key_le_trans a b c : key_le a b → key_le b c → key_le a c.
Proof.
  unfold key_le. intros Hab Hbc. apply Is_true_true. apply Is_true_true in Hab, Hbc.
  by transitivity b.
Qed.
Lemma key_lt_le a b : key_lt a b ↔ key_le a b ∧ a ≠ b.
Proof.
  unfold key_lt, key_le, str_lt. rewrite negb_true_iff. split.
  - intros Hn. destruct (String.leb_total a b) as [Hab|Hab]; [|congruence]. split; [done|].
    intros ->. congruence.
  - intros [Hab Hne]. destruct (String.leb b a) eqn:E; [|done].
    destruct Hne. by apply String.leb_antisym.
Qed.
Lemma key_lt_irrefl a : ¬ key_lt a a.
Proof. rewrite key_lt_le. naive_solver. Qed.
Lemma key_lt_trans a b c : key_lt a b → key_lt b c → key_lt a c.
Proof.
  rewrite !key_lt_le. intros [Hab Hne] [Hbc _]. split; [by eapply key_le_trans|]. intros ->.
  destruct Hne. by apply String.leb_antisym.
Qed.
