(* ===== verification/Floats.v ===== *)
(** * Binary64 arithmetic, as the runtime uses it

    An [f64] is a [spec_float], the Standard Library's specification of IEEE
    754, with the operations at binary64's precision and exponent range:
    comparisons are [false] on NaN, [usize as f64] rounds to nearest even, and
    float-to-integer casts truncate and saturate, as Rust's [as] does. *)

From Stdlib Require Import SpecFloat.
From stdpp Require Import prelude.
From S2P Require Import Prelude.
Open Scope Z_scope.

Abbreviation f64 := spec_float.

Definition f64_add : f64 → f64 → f64 := SFadd 53 1024.
Definition f64_sub : f64 → f64 → f64 := SFsub 53 1024.
Definition f64_mul : f64 → f64 → f64 := SFmul 53 1024.
Definition f64_div : f64 → f64 → f64 := SFdiv 53 1024.
Definition f64_lt (a b : f64) : bool := SFltb a b.
Definition f64_le (a b : f64) : bool := SFleb a b.
Definition f64_gt (a b : f64) : bool := SFltb b a.
Definition f64_ge (a b : f64) : bool := SFleb b a.
Definition f64_eq (a b : f64) : bool := SFeqb a b.

(** [n as f64] for an integer [n]. *)
Definition f64_of_Z (n : Z) : f64 := binary_normalize 53 1024 n 0 false.

Definition f64_0 : f64 := S754_zero false.
Definition f64_1 : f64 := f64_of_Z 1.
Definition f64_2 : f64 := f64_of_Z 2.
Definition f64_3 : f64 := f64_of_Z 3.
Definition f64_100 : f64 := f64_of_Z 100.
Definition f64_half : f64 := f64_div f64_1 f64_2.
Definition f64_nan : f64 := S754_nan.

Definition is_nan (x : f64) : bool :=
  match x with S754_nan => true | _ => false end.
Definition is_finite (x : f64) : bool :=
  match x with S754_zero _ | S754_finite _ _ _ => true | _ => false end.

(** The magnitude of a finite float truncated, and rounded up, to an integer. *)
Definition mag_floor (m : positive) (e : Z) : Z :=
  if 0 <=? e then Z.pos m * 2 ^ e else Z.pos m / 2 ^ (- e).
Definition mag_ceil (m : positive) (e : Z) : Z :=
  if 0 <=? e then Z.pos m * 2 ^ e else (Z.pos m + 2 ^ (- e) - 1) / 2 ^ (- e).

(** [x.trunc()] and [x.ceil()] for a finite [x], as the integers they are. *)
Definition trunc_Z (x : f64) : Z :=
  match x with
  | S754_finite false m e => mag_floor m e
  | S754_finite true m e => - mag_floor m e
  | _ => 0
  end.
Definition ceil_Z (x : f64) : Z :=
  match x with
  | S754_finite false m e => mag_ceil m e
  | S754_finite true m e => - mag_floor m e
  | _ => 0
  end.

(** A saturating cast to an unsigned type with maximum [top]: NaN is 0. *)
Definition sat_unsigned (top : Z) (conv : f64 → Z) (x : f64) : Z :=
  match x with
  | S754_nan => 0
  | S754_infinity false => top
  | S754_infinity true => 0
  | _ => Z.max 0 (Z.min top (conv x))
  end.

Definition u128_max : Z := 2 ^ 128 - 1.
(** [x as u128]. *)
Definition f64_as_u128 (x : f64) : Z := sat_unsigned u128_max trunc_Z x.
(** [x.ceil() as u32]. *)
Definition f64_ceil_as_u32 (x : f64) : Z := sat_unsigned u32_max ceil_Z x.

(** [x.fract() == 0.0]: false on infinities and NaN, whose fraction is NaN. *)
Definition fract_is_zero (x : f64) : bool :=
  match x with
  | S754_zero _ => true
  | S754_finite _ m e => (0 <=? e) || (Z.pos m mod 2 ^ (- e) =? 0)
  | _ => false
  end.

(** ** Lemmas *)
Lemma mag_ceil_spec m e :
  0 < mag_ceil m e ∧
  (e < 0 → (mag_ceil m e - 1) * 2 ^ (- e) < Z.pos m ≤ mag_ceil m e * 2 ^ (- e)).
Proof.
  unfold mag_ceil. destruct (Z.leb_spec 0 e) as [He|He].
  - split; [|lia]. pose proof (Z.pow_pos_nonneg 2 e). lia.
  - assert (0 < 2 ^ (- e)) as Hp by (apply Z.pow_pos_nonneg; lia).
    pose proof (Z.div_mod (Z.pos m + 2 ^ (- e) - 1) (2 ^ (- e))) as Hd.
    pose proof (Z.mod_pos_bound (Z.pos m + 2 ^ (- e) - 1) (2 ^ (- e)) Hp) as Hm.
    set (q := (Z.pos m + 2 ^ (- e) - 1) / 2 ^ (- e)) in *.
    assert (1 ≤ q) by (subst q; apply Z.div_le_lower_bound; lia).
    split; [lia|]. intros _. nia.
Qed.

Lemma f64_gt_0 (x : f64) :
  f64_gt x f64_0 = true ↔ x = S754_infinity false ∨ ∃ m e, x = S754_finite false m e.
Proof.
  unfold f64_gt, f64_0, SFltb. destruct x as [[]|[]| |[] m e]; simpl; naive_solver.
Qed.

Lemma f64_ceil_as_u32_pos x :
  f64_gt x f64_0 = true → 1 ≤ f64_ceil_as_u32 x ≤ u32_max.
Proof.
  intros [->|(m & e & ->)]%f64_gt_0; unfold f64_ceil_as_u32, u32_max; simpl; [lia|].
  pose proof (proj1 (mag_ceil_spec m e)). lia.
Qed.

(** On every whole number up to 100 the conversions are exact. *)
Lemma f64_small_int_exact v :
  1 ≤ v ≤ 100 →
  fract_is_zero (f64_of_Z v) = true ∧ f64_as_u128 (f64_of_Z v) = v ∧
  f64_ceil_as_u32 (f64_of_Z v) = v ∧ f64_gt (f64_of_Z v) f64_0 = true.
Proof.
  intros Hv.
  assert (forallb (λ n, let v := Z.of_nat n in
    fract_is_zero (f64_of_Z v) && (f64_as_u128 (f64_of_Z v) =? v) &&
    (f64_ceil_as_u32 (f64_of_Z v) =? v) && f64_gt (f64_of_Z v) f64_0) (seq 1 100) = true)
    as Hall by (vm_compute; reflexivity).
  rewrite forallb_forall in Hall. specialize (Hall (Z.to_nat v)).
  rewrite Z2Nat.id in Hall by lia.
  assert (In (Z.to_nat v) (seq 1 100)) as Hin by (apply in_seq; lia).
  specialize (Hall Hin). cbv zeta in Hall. bool_simp. eauto.
Qed.

(** ** Whole percentages *)

(** A value of the type [f64]: a normalized 53-bit significand. *)
Definition is_f64 (x : f64) : Prop := valid_binary 53 1024 x = true.

Lemma digits2_pos_bound m : Z.pos m < 2 ^ Z.pos (digits2_pos m).
Proof.
  induction m as [m IH|m IH|]; [| |done].
  all: cbn [digits2_pos]; rewrite Pos2Z.inj_succ, Z.pow_succ_r by lia; lia.
Qed.

Lemma significand_bound m e : is_f64 (S754_finite false m e) → Z.pos m < 2 ^ 53.
Proof.
  unfold is_f64, valid_binary, bounded, canonical_mantissa, fexp, emin.
  intros [Hc%Z.eqb_eq _]%andb_true_iff.
  pose proof (digits2_pos_bound m).
  assert (2 ^ Z.pos (digits2_pos m) ≤ 2 ^ 53) by (apply Z.pow_le_mono_r; lia). lia.
Qed.

(** The comparison with 100 is on the exponents first. *)
Lemma at_most_100 m e :
  f64_gt (S754_finite false m e) f64_100 = false →
  e < -46 ∨ (e = -46 ∧ Z.pos m ≤ 100 * 2 ^ 46).
Proof.
  change f64_100 with (S754_finite false (100 * 2 ^ 46) (-46)).
  unfold f64_gt, SFltb, SFcompare.
  destruct (Z.compare_spec (-46) e) as [<-|He|He]; [|done|by left].
  change (Pos.compare_cont Eq ?a ?b) with (Pos.compare a b).
  destruct (Pos.compare_spec (100 * 2 ^ 46) m); intros; [| done|]; right; lia.
Qed.

(** A positive whole number of type [f64] that is at most 100 converts to one
    between 1 and 100. *)
Lemma whole_percentage x :
  is_f64 x → fract_is_zero x = true → f64_gt x f64_0 = true → f64_gt x f64_100 = false →
  1 ≤ f64_as_u128 x ≤ 100.
Proof.
  intros Hv Hf [->|(m & e & ->)]%f64_gt_0 H100; [done|].
  apply significand_bound in Hv. apply at_most_100 in H100.
  assert (e < 0) as He by lia. unfold fract_is_zero in Hf.
  rewrite (proj2 (Z.leb_gt 0 e)) in Hf by done. apply Z.eqb_eq in Hf.
  unfold f64_as_u128, sat_unsigned, trunc_Z, mag_floor, u128_max.
  rewrite (proj2 (Z.leb_gt 0 e)) by done.
  assert (2 ^ 46 ≤ 2 ^ (- e)) as Hp by (apply Z.pow_le_mono_r; lia).
  pose proof (Z.div_mod (Z.pos m) (2 ^ (- e))) as Hd.
  set (q := Z.pos m / 2 ^ (- e)) in *.
  assert (Z.pos m ≤ 100 * 2 ^ (- e)) as Hm.
  { destruct H100 as [?|[-> ?]]; [|done].
    assert (2 ^ 47 ≤ 2 ^ (- e)) by (apply Z.pow_le_mono_r; lia). lia. }
  assert (1 ≤ q ≤ 100) by nia. lia.
Qed.
