(* ===== verification/Extern.v ===== *)
(** * What the runtime takes from outside its own sources

    [prost] decodes and encodes the generated protobuf messages, [serde_json]
    writes and reads mode state and reads policy rules, [uuid] parses session
    ids and [sha2] hashes. None of that code is part of the repository, so it
    enters as classes of operations, named after the traits the source calls
    through; what a theorem relies on is a separate class of laws. *)

From Stdlib Require Import Strings.Byte.
From stdpp Require Import prelude gmap strings.
From S2P Require Import Prelude Floats.
Open Scope Z_scope.

(** [Vec<u8>]. *)
Abbreviation bytes := (list Byte.byte).

#[export] Instance byte_eq_dec : EqDecision Byte.byte := Byte.byte_eq_dec.

(** ** Protobuf messages ([prost::Message]) *)
Class Message (P : Type) := {
  decode : bytes → option P;
  encode_to_vec : P → bytes;
}.

(** Decoding an encoded message gives it back. *)
Class MessageLaws (P : Type) `{Message P} : Prop := {
  decode_encode (p : P) : decode (encode_to_vec p) = Some p;
}.

(** ** Mode state in JSON ([serde_json::to_vec], [serde_json::from_slice]) *)
Class Serde (S : Type) := {
  to_vec : S → bytes;
  from_slice : bytes → option S;
}.

(** What reading back a written state gives is [reread]: the identity on the
    states of most modes, and a partial function on those that hold floats,
    because JSON has no literal for NaN and the infinities ([json_f64]
    below). A JSON document is never empty. *)
Class SerdeLaws (S : Type) `{Serde S} (reread : S → option S) : Prop := {
  from_slice_to_vec (s : S) : from_slice (to_vec s) = reread s;
  to_vec_nonempty (s : S) : to_vec s ≠ [];
}.

(** What an [f64] becomes when it is written to JSON and read back: the
    non-finite values are written as [null], which is not a number; a finite
    value stays finite (it may move in its last place, [serde_json] parses
    floats with best-effort precision by default). *)
Class JsonF64 := json_f64 : f64 → option f64.
Class JsonF64Laws `{JsonF64} : Prop := {
  json_f64_finite x : is_finite x = true → ∃ y, json_f64 x = Some y ∧ is_finite y = true;
  json_f64_non_finite x : is_finite x = false → json_f64 x = None;
}.

(** ** Policy rules ([serde_json::Value], [serde_json::from_value]) *)
Inductive Value : Type :=
| VNull
| VBool (b : bool)
| VUint (n : Z)
| VInt (n : Z)
| VFloat (x : f64)
| VString (s : string)
| VArray (l : list Value)
| VObject (o : list (string * Value)).

(** [Value::get] with a key. *)
Definition value_get (key : string) (v : Value) : option Value :=
  match v with
  | VObject o => snd <$> List.find (λ kv, kv.1 == key) o
  | _ => None
  end.

Definition as_str (v : Value) : option string := match v with VString s => Some s | _ => None end.
Definition as_bool (v : Value) : option bool := match v with VBool b => Some b | _ => None end.
Definition as_array (v : Value) : option (list Value) :=
  match v with VArray l => Some l | _ => None end.
Definition as_object (v : Value) : option (list (string * Value)) :=
  match v with VObject o => Some o | _ => None end.
(** [v.get(key).and_then(Value::as_str)]. *)
Definition str_field (key : string) (v : Value) : option string := value_get key v ≫= as_str.

(** [from_value] at the type [T]; the error is its message. *)
Class FromValue (T : Type) := from_value : Value → result string T.

(** ** UUIDs ([uuid::Uuid]) *)
Inductive UuidVersion := VRandom | VSortRand | VOther.
Class Uuids := {
  uuid : Type;
  parse_str : string → option uuid;
  as_hyphenated : uuid → string;
  get_version : uuid → option UuidVersion;
}.

(** ** SHA-256 ([sha2::Sha256::digest]) *)
Class Sha256 := sha256_digest : bytes → bytes.
Class Sha256Laws `{Sha256} : Prop := {
  sha256_length (b : bytes) : length (sha256_digest b) = 32%nat;
}.

(** ** Formatted text

    [format!] keeps its literal text and its arguments; the decimal rendering
    of an argument is left symbolic. [FPrec n x] is [{:.n}], and [FDebug] the
    argument of a [{:?}] or of a foreign error's [{}]. *)
Inductive frag : Type :=
| Lit (s : string)
| FInt (z : Z)
| FF64 (x : f64)
| FPrec (n : nat) (x : f64)
| FDebug (s : string).
Abbreviation text := (list frag).

#[export] Instance f64_eq_dec : EqDecision f64.
Proof. solve_decision. Defined.
#[export] Instance frag_eq_dec : EqDecision frag.
Proof. solve_decision. Defined.
