(* ===== verification/PolicyKeys.v ===== *)
(** * The key namespaces of policy rules (crates/macp-core/src/policy/keys.rs)

    Standards-track rule objects are closed: at every level only the keys of
    the rule schema, annotations, and at the top level vendor extensions. The
    walk that finds the first breach, the removal of annotations, and the
    equality of rules it induces. *)

From Stdlib Require Import Strings.Ascii.
From stdpp Require Import prelude gmap strings sorting.
From S2P Require Import Prelude RustStr Floats Extern.
Open Scope Z_scope.

(** A vendor extension ([RuleExtension::validate]). *)
Abbreviation RuleExtension := (Value → result string unit).

Definition VENDOR_EXTENSION_KEY_PATTERN : string := "^x-[a-z0-9]+(\.[a-z0-9-]+)+$".

Definition is_annotation_key (key : string) : bool :=
  starts_with "_" key || starts_with "$" key.

Definition is_vendor_extension_key (key : string) : bool :=
  match strip_prefix "x-" key with
  | None => false
  | Some rest =>
      match split_on "." rest with
      | [] => false
      | first :: tail =>
          forallb (λ s, negb (str_is_empty s)
            && str_all (λ b, is_ascii_lowercase b || is_ascii_digit b || (b == "-"%char)) s) tail
          && (negb (str_is_empty first)
              && str_all (λ b, is_ascii_lowercase b || is_ascii_digit b) first)
          && (len tail >=? 1)
      end
  end.

(** ** Rule shapes *)
Inductive RuleShape :=
| Closed (keys : list (string * RuleShape))
| Map
| Leaf.

Definition COMMITMENT_COMMON : RuleShape :=
  Closed [("authority", Leaf); ("designated_roles", Leaf)].
Definition DECISION_RULES : RuleShape := Closed
  [("voting", Closed
     [("algorithm", Leaf); ("threshold", Leaf);
      ("quorum", Closed [("type", Leaf); ("value", Leaf)]); ("weights", Map)]);
   ("objection_handling", Closed
     [("critical_objection_action", Leaf); ("critical_severity_vetoes", Leaf);
      ("veto_threshold", Leaf)]);
   ("evaluation", Closed [("minimum_confidence", Leaf); ("required_before_voting", Leaf)]);
   ("commitment", Closed
     [("allow_decline_over_approval", Leaf); ("authority", Leaf);
      ("designated_roles", Leaf); ("require_vote_quorum", Leaf)])].
Definition PROPOSAL_RULES : RuleShape := Closed
  [("acceptance", Closed [("criterion", Leaf)]);
   ("counter_proposal", Closed [("max_rounds", Leaf)]);
   ("rejection", Closed [("terminal_on_any_reject", Leaf)]);
   ("commitment", COMMITMENT_COMMON)].
Definition TASK_RULES : RuleShape := Closed
  [("assignment", Closed [("allow_reassignment_on_reject", Leaf)]);
   ("completion", Closed [("require_output", Leaf)]);
   ("commitment", COMMITMENT_COMMON)].
Definition HANDOFF_RULES : RuleShape := Closed
  [("acceptance", Closed [("implicit_accept_timeout_ms", Leaf)]);
   ("commitment", COMMITMENT_COMMON)].
Definition QUORUM_RULES : RuleShape := Closed
  [("threshold", Closed [("type", Leaf); ("value", Leaf)]);
   ("abstention", Closed [("counts_toward_quorum", Leaf); ("interpretation", Leaf)]);
   ("commitment", COMMITMENT_COMMON)].

Definition STANDARDS_TRACK_RULE_SHAPES : list (string * RuleShape) :=
  [("macp.mode.decision.v1", DECISION_RULES); ("macp.mode.proposal.v1", PROPOSAL_RULES);
   ("macp.mode.task.v1", TASK_RULES); ("macp.mode.handoff.v1", HANDOFF_RULES);
   ("macp.mode.quorum.v1", QUORUM_RULES)].

(** [None] for an extension mode, whose rules are opaque. *)
Definition rule_shape_for_mode (mode : string) : option (list RuleShape) :=
  if mode == "*" then Some STANDARDS_TRACK_RULE_SHAPES.*2
  else (λ ms, [ms.2]) <$> List.find (λ ms, ms.1 == mode) STANDARDS_TRACK_RULE_SHAPES.

(** ** The walk *)
Inductive KeyViolation :=
| Undefined (path : string)
| NestedVendorExtension (path : string)
| VendorExtensionNotObject (key : string).

(** [Display]. *)
Definition show_violation (v : KeyViolation) : text :=
  match v with
  | Undefined path =>
      [Lit "rules."; Lit path;
       Lit " is not a defined key (RFC-MACP-0012 §4: rule objects are closed; annotation keys must match ^[_$])"]
  | NestedVendorExtension path =>
      [Lit "rules."; Lit path;
       Lit ": vendor-extension keys are legal only at the top level of rules"]
  | VendorExtensionNotObject key =>
      [Lit "rules."; Lit key; Lit ": a vendor-extension value must be a JSON object"]
  end.

Definition is_object (v : Value) : bool := match v with VObject _ => true | _ => false end.

(** The key lists of the closed shapes. *)
Definition closed_keys (shapes : list RuleShape) : list (list (string * RuleShape)) :=
  omap (λ s, match s with Closed keys => Some keys | _ => None end) shapes.
(** The shapes [key] may have under the closed ones. *)
Definition children (closed : list (list (string * RuleShape))) (key : string)
    : list RuleShape :=
  (List.filter (λ ks, ks.1 == key) (concat closed)).*2.
Definition child_path (path key : string) : string :=
  if str_is_empty path then key else path +:+ "." +:+ key.

Definition key_le {V} (x y : string * V) : Prop := String.le x.1 y.1.
#[export] Instance key_le_dec {V} : RelDecision (key_le (V:=V)).
Proof. intros x y. unfold key_le. apply _. Defined.

(** The first [Some] in the order of the keys. *)
Definition first_by_key {A} (l : list (string * option A)) : option A :=
  head (omap snd (merge_sort key_le l)).

(** [walk]: what each entry reports, and the first report in key order. The
    recursion is on the value, so the reports are computed for the entries as
    they come. *)
Fixpoint walk (value : Value) (shapes : list RuleShape) (path : string) (top : bool)
    : option KeyViolation :=
  match value with
  | VObject map =>
      let closed := closed_keys shapes in
      if is_empty closed then None
      else
        let report (key : string) (v : Value)
            (descend : list RuleShape → option KeyViolation) : option KeyViolation :=
          if is_annotation_key key then None
          else if is_vendor_extension_key key then
            if negb top then Some (NestedVendorExtension (child_path path key))
            else if negb (is_object v) then Some (VendorExtensionNotObject key)
            else None
          else
            let kids := children closed key in
            if is_empty kids then Some (Undefined (child_path path key)) else descend kids in
        first_by_key
          ((fix reports (map : list (string * Value)) : list (string * option KeyViolation) :=
              match map with
              | [] => []
              | (key, v) :: map =>
                  (key, report key v (λ kids, walk v kids (child_path path key) false))
                  :: reports map
              end) map)
  | _ => None
  end.

Definition closed_key_violation (rules : Value) (shapes : list RuleShape)
    : option KeyViolation := walk rules shapes "" true.

Definition object_entries (v : Value) : list (string * Value) :=
  match v with VObject o => o | _ => [] end.

Definition vendor_extension_keys (rules : Value) : list string :=
  merge_sort String.le (List.filter is_vendor_extension_key (object_entries rules).*1).

(** ** Annotations *)
Fixpoint strip (value : Value) (shapes : list RuleShape) : Value :=
  match value with
  | VObject map =>
      let closed := closed_keys shapes in
      if is_empty closed then VObject map
      else
        VObject ((fix go (map : list (string * Value)) : list (string * Value) :=
          match map with
          | [] => []
          | (key, v) :: map =>
              if is_annotation_key key then go map
              else (key, strip v (children closed key)) :: go map
          end) map)
  | _ => value
  end.
Definition strip_annotations (rules : Value) (shapes : list RuleShape) : Value :=
  strip rules shapes.

(** [Value: PartialEq]; floats compare as [f64] do. *)
Fixpoint value_eq (a b : Value) : bool :=
  match a, b with
  | VNull, VNull => true
  | VBool x, VBool y => x == y
  | VUint x, VUint y | VInt x, VInt y => x =? y
  | VFloat x, VFloat y => f64_eq x y
  | VString x, VString y => x == y
  | VArray l, VArray k =>
      (fix go (l k : list Value) : bool :=
         match l, k with
         | [], [] => true
         | x :: l, y :: k => value_eq x y && go l k
         | _, _ => false
         end) l k
  | VObject l, VObject k =>
      (fix go (l k : list (string * Value)) : bool :=
         match l, k with
         | [], [] => true
         | (i, x) :: l, (j, y) :: k => (i == j) && value_eq x y && go l k
         | _, _ => false
         end) l k
  | _, _ => false
  end.

Definition rules_equal (mode : string) (a b : Value) : bool :=
  let shapes := default [] (rule_shape_for_mode mode) in
  value_eq (strip_annotations a shapes) (strip_annotations b shapes).

(** ** Induction on documents *)
Section value_ind.
Context (P : Value → Prop).
Context (P_leaf : ∀ v, is_object v = false → P v).
Context (P_object : ∀ o, Forall (λ kv, P kv.2) o → P (VObject o)).

Fixpoint value_nested_ind (v : Value) : P v.
Proof.
  destruct v as [| | | | | | |o]; [by apply P_leaf..|].
  apply P_object. induction o as [|kv o IH]; constructor; [apply value_nested_ind|exact IH].
Defined.
End value_ind.

(** ** What the walk decides *)
Lemma sorted_elem {V} (x : string * V) l : x ∈ merge_sort key_le l ↔ x ∈ l.
Proof. by rewrite merge_sort_Permutation. Qed.

Lemma first_by_key_some {A} (l : list (string * option A)) a :
  first_by_key l = Some a → ∃ k, (k, Some a) ∈ l.
Proof.
  unfold first_by_key. intros Ha.
  assert (a ∈ omap snd (merge_sort key_le l)) as Hin
    by (destruct (omap _ _); simplify_eq/=; left).
  apply list_elem_of_omap in Hin as ([k o] & Hin & Ho). simpl in Ho. subst.
  exists k. by apply sorted_elem.
Qed.

Lemma first_by_key_none {A} (l : list (string * option A)) :
  first_by_key l = None ↔ ∀ k o, (k, o) ∈ l → o = None.
Proof.
  split.
  - unfold first_by_key. intros Hn k [a|] Hin; [|done].
    apply sorted_elem in Hin.
    assert (a ∈ omap snd (merge_sort key_le l)) as Ha
      by (apply list_elem_of_omap; eauto).
    destruct (omap _ _); [by apply elem_of_nil in Ha|done].
  - intros Hl. destruct (first_by_key l) eqn:E; [|done].
    apply first_by_key_some in E as [k Hk]. by apply Hl in Hk.
Qed.

Lemma reports_none {A} (f : string * Value → option A) o :
  first_by_key ((λ kv, (kv.1, f kv)) <$> o) = None → ∀ kv, kv ∈ o → f kv = None.
Proof.
  intros Hn kv Hin. rewrite first_by_key_none in Hn.
  apply (Hn kv.1), list_elem_of_fmap. by exists kv.
Qed.

(** The positions of a document the rule shapes govern: the value and the
    shapes found by following defined keys. *)
Inductive reaches : Value → list RuleShape → list string → Value → list RuleShape → Prop :=
| reaches_here v shapes : reaches v shapes [] v shapes
| reaches_child v shapes key c path v' shapes' :
    (key, c) ∈ object_entries v →
    is_annotation_key key = false →
    is_vendor_extension_key key = false →
    children (closed_keys shapes) key ≠ [] →
    reaches c (children (closed_keys shapes) key) path v' shapes' →
    reaches v shapes (key :: path) v' shapes'.

(** A key at a closed position is an annotation, a vendor extension of the top
    level holding an object, or a key some candidate schema defines. *)
Definition legal_key (top : bool) (shapes : list RuleShape) (key : string) (c : Value) : Prop :=
  is_annotation_key key = true ∨
  (is_vendor_extension_key key = true ∧ top = true ∧ is_object c = true) ∨
  (is_vendor_extension_key key = false ∧ children (closed_keys shapes) key ≠ []).

(** How a key that is not legal is reported. *)
Definition breach (top : bool) (path key : string) : KeyViolation :=
  if is_vendor_extension_key key then
    if top then VendorExtensionNotObject key else NestedVendorExtension (child_path path key)
  else Undefined (child_path path key).

Definition at_top (top : bool) (path : list string) : bool := top && is_empty path.

(** The walk from any position, with [prefix] the path to it. *)
Definition walk_decides (v : Value) : Prop := ∀ shapes prefix top,
  match walk v shapes prefix top with
  | None => ∀ path v' shapes' key c,
      reaches v shapes path v' shapes' → closed_keys shapes' ≠ [] →
      (key, c) ∈ object_entries v' → legal_key (at_top top path) shapes' key c
  | Some violation => ∃ path v' shapes' key c,
      reaches v shapes path v' shapes' ∧ closed_keys shapes' ≠ [] ∧
      (key, c) ∈ object_entries v' ∧ ¬ legal_key (at_top top path) shapes' key c ∧
      violation = breach (at_top top path) (foldl child_path prefix path) key
  end.

(** The reports of an object's entries. *)
Definition entry_report (shapes : list RuleShape) (prefix : string) (top : bool)
    (kv : string * Value) : option KeyViolation :=
  if is_annotation_key kv.1 then None
  else if is_vendor_extension_key kv.1 then
    if negb top then Some (NestedVendorExtension (child_path prefix kv.1))
    else if negb (is_object kv.2) then Some (VendorExtensionNotObject kv.1)
    else None
  else
    let kids := children (closed_keys shapes) kv.1 in
    if is_empty kids then Some (Undefined (child_path prefix kv.1))
    else walk kv.2 kids (child_path prefix kv.1) false.

Lemma walk_object o shapes prefix top :
  closed_keys shapes ≠ [] →
  walk (VObject o) shapes prefix top =
  first_by_key ((λ kv, (kv.1, entry_report shapes prefix top kv)) <$> o).
Proof.
  intros Hc. simpl. destruct (closed_keys shapes) eqn:E; [done|]. simpl. f_equal.
  rewrite <- E. clear Hc. unfold entry_report. rewrite E.
  induction o as [|[k v] o IH]; [done|]. csimpl. by f_equal.
Qed.

Lemma walk_open v shapes prefix top :
  closed_keys shapes = [] ∨ object_entries v = [] → walk v shapes prefix top = None.
Proof. intros [Hc|Ho]; destruct v; simpl in *; subst; try done; rewrite ?Hc; [done|]. by destruct (is_empty _). Qed.

Lemma children_closed shapes key : children (closed_keys shapes) key ≠ [] → closed_keys shapes ≠ [].
Proof. by destruct (closed_keys shapes). Qed.

(** One entry: a report is a breach here or below, silence means the key is
    legal and nothing below is breached. *)
Lemma entry_report_some shapes prefix top key c violation :
  entry_report shapes prefix top (key, c) = Some violation →
  (¬ legal_key top shapes key c ∧ violation = breach top prefix key) ∨
  (is_annotation_key key = false ∧ is_vendor_extension_key key = false ∧
   children (closed_keys shapes) key ≠ [] ∧
   walk c (children (closed_keys shapes) key) (child_path prefix key) false = Some violation).
Proof.
  unfold entry_report, legal_key, breach; simpl.
  destruct (is_annotation_key key); [done|].
  destruct (is_vendor_extension_key key).
  - destruct top; simpl; [|intros [= <-]; left; naive_solver].
    destruct (is_object c) eqn:E; simpl; intros [= <-]. left; naive_solver.
  - destruct (children _ _) eqn:E; simpl; [intros [= <-]; left; naive_solver|].
    intros Hw. right. done.
Qed.

Lemma entry_report_none shapes prefix top key c :
  entry_report shapes prefix top (key, c) = None →
  legal_key top shapes key c ∧
  (is_annotation_key key = false → is_vendor_extension_key key = false →
   walk c (children (closed_keys shapes) key) (child_path prefix key) false = None).
Proof.
  unfold entry_report, legal_key; simpl.
  destruct (is_annotation_key key); [naive_solver|].
  destruct (is_vendor_extension_key key).
  - destruct top; simpl; [|done]. destruct (is_object c); naive_solver.
  - destruct (children _ _) eqn:E; simpl; naive_solver.
Qed.

Lemma walk_decides_leaf v shapes prefix top :
  closed_keys shapes = [] ∨ object_entries v = [] →
  walk v shapes prefix top = None ∧
  ∀ path v' shapes' key c, reaches v shapes path v' shapes' → closed_keys shapes' ≠ [] →
    (key, c) ∈ object_entries v' → legal_key (at_top top path) shapes' key c.
Proof.
  intros Hor. split; [by apply walk_open|]. intros path v' shapes' key c Hr Hc Hin.
  inversion Hr as [|? ? ? ? ? ? ? Hin' ? ? Hkids%children_closed]; subst.
  - destruct Hor as [?|He]; [done|]. rewrite He in Hin. by apply elem_of_nil in Hin.
  - destruct Hor as [?|He]; [done|]. rewrite He in Hin'. by apply elem_of_nil in Hin'.
Qed.

Lemma walk_decides_all v : walk_decides v.
Proof.
  induction v as [v Hv|o IH] using value_nested_ind; intros shapes prefix top.
  { destruct (walk_decides_leaf v shapes prefix top) as [-> ?]; [|done].
    right. by destruct v. }
  destruct (decide (closed_keys shapes = [])) as [Hn|Hc].
  { by destruct (walk_decides_leaf (VObject o) shapes prefix top) as [-> ?]; [left|]. }
  rewrite Forall_forall in IH. rewrite walk_object by done.
  destruct (first_by_key _) as [violation|] eqn:E.
  - apply first_by_key_some in E as [k Hk].
    apply list_elem_of_fmap in Hk as ([key c] & [= -> Hrep] & Hin). symmetry in Hrep.
    apply entry_report_some in Hrep as [[Hl ->]|(Ha & Hv & Hk & Hw)].
    + exists [], (VObject o), shapes, key, c. unfold at_top. rewrite andb_true_r.
      eauto using reaches.
    + pose proof (IH _ Hin (children (closed_keys shapes) key) (child_path prefix key) false)
        as Hsub. simpl in Hsub. rewrite Hw in Hsub.
      destruct Hsub as (path & v' & sh' & key' & c' & Hr & Hc' & Hin' & Hl & ->).
      exists (key :: path), v', sh', key', c'. unfold at_top in *; simpl in *.
      rewrite andb_false_r. eauto 10 using reaches.
  - intros path v' sh' key c Hr Hc' Hin. pose proof (reports_none _ _ E) as Hall.
    inversion Hr as [|? ? key0 c0 path0 ? ? Hin0 Ha Hv Hk Hr0]; subst.
    + unfold at_top. rewrite andb_true_r.
      by apply (entry_report_none _ prefix), (Hall (key, c)).
    + assert (entry_report shapes prefix top (key0, c0) = None) as [_ Hw]%entry_report_none
        by by apply Hall.
      pose proof (IH _ Hin0 (children (closed_keys shapes) key0) (child_path prefix key0) false)
        as Hsub. simpl in Hsub. rewrite Hw in Hsub by done.
      unfold at_top; simpl. rewrite andb_false_r. eapply Hsub; eauto.
Qed.

(** C24. The closed-key walk decides that rule objects are closed. With no violation, every key
    at every position the schemas govern is an annotation, a top-level vendor
    extension holding an object, or a key some candidate schema defines; a
    violation names a key that is none of these by its dotted path. *)
Theorem closed_key_violation_decides (rules : Value) (shapes : list RuleShape) :
  match closed_key_violation rules shapes with
  | None => ∀ path v shapes' key c,
      reaches rules shapes path v shapes' → closed_keys shapes' ≠ [] →
      (key, c) ∈ object_entries v → legal_key (is_empty path) shapes' key c
  | Some violation => ∃ path v shapes' key c,
      reaches rules shapes path v shapes' ∧ closed_keys shapes' ≠ [] ∧
      (key, c) ∈ object_entries v ∧ ¬ legal_key (is_empty path) shapes' key c ∧
      violation = breach (is_empty path) (foldl child_path "" path) key
  end.
Proof. exact (walk_decides_all rules shapes "" true). Qed.
