(* ===== verification/Error.v ===== *)
(** * The error vocabulary (crates/macp-core/src/error.rs, policy/deny.rs)

    [MacpError] with its RFC error codes and the registry that assigns each
    code a gRPC and an HTTP status, and the structured denial reasons a
    [PolicyDenied] carries. *)

From stdpp Require Import prelude gmap strings sorting.
From S2P Require Import Prelude Floats Extern.
Open Scope Z_scope.

(** ** Denial reasons *)
Definition DenyCode := string.
Definition UNSPECIFIED : DenyCode := "unspecified".
Definition VETO : DenyCode := "veto".
Definition VETO_HOLD : DenyCode := "veto_hold".
Definition QUORUM_NOT_MET : DenyCode := "quorum_not_met".
Definition THRESHOLD_NOT_MET : DenyCode := "threshold_not_met".
Definition CONFIDENCE_BELOW_MINIMUM : DenyCode := "confidence_below_minimum".
Definition EVALUATION_REQUIRED : DenyCode := "evaluation_required".
Definition NO_VOTES : DenyCode := "no_votes".
Definition DECLINE_OVER_APPROVAL : DenyCode := "decline_over_approval".
Definition DECLINE_NOT_BACKED : DenyCode := "decline_not_backed".
Definition CRITERION_NOT_MET : DenyCode := "criterion_not_met".
Definition OUTPUT_REQUIRED : DenyCode := "output_required".
Definition UNSUPPORTED_SCHEMA_VERSION : DenyCode := "unsupported_schema_version".
Definition INVALID_RULES : DenyCode := "invalid_rules".

Record DenyReason := MkDenyReason {
  dr_code : DenyCode;
  dr_message : text;
  dr_participants : list string;
}.

(** [DenyReason::new]. *)
Definition deny_new (code : DenyCode) (message : text) : DenyReason :=
  {| dr_code := code; dr_message := message; dr_participants := [] |}.

(** [Vec::dedup]: consecutive repetitions are dropped. *)
Fixpoint vec_dedup (l : list string) : list string :=
  match l with
  | [] => []
  | x :: l' =>
      match l' with
      | y :: _ => if x == y then vec_dedup l' else x :: vec_dedup l'
      | [] => [x]
      end
  end.

(** [DenyReason::with_participants]. *)
Definition with_participants (r : DenyReason) (participants : list string) : DenyReason :=
  {| dr_code := dr_code r; dr_message := dr_message r;
     dr_participants := vec_dedup (merge_sort String.le participants) |}.

(** [DenyReason::redacted]. *)
Definition redacted (r : DenyReason) : DenyReason :=
  {| dr_code := dr_code r; dr_message := dr_message r; dr_participants := [] |}.

(** [From<&str> for DenyReason]. *)
Definition deny_of_text (message : text) : DenyReason := deny_new UNSPECIFIED message.

(** ** Errors *)
Inductive MacpError : Type :=
| InvalidMacpVersion | InvalidEnvelope | SessionAlreadyExists | UnknownSession
| SessionNotOpen | TtlExpired | InvalidTtl | UnknownMode | InvalidModeState
| InvalidPayload | Forbidden | Unauthenticated | DuplicateMessage
| PayloadTooLarge | RateLimited | StorageFailed | InvalidSessionId
| UnknownPolicyVersion | PolicyDenied (reasons : list DenyReason)
| InvalidPolicyDefinition | RegistryReadOnly | InvalidRequest | StreamLagged
| AgentNotFound | HistoryUnavailable | ReceiptUnavailable.

Definition error_code (e : MacpError) : string :=
  match e with
  | InvalidMacpVersion => "UNSUPPORTED_PROTOCOL_VERSION"
  | InvalidEnvelope => "INVALID_ENVELOPE"
  | SessionAlreadyExists => "SESSION_ALREADY_EXISTS"
  | UnknownSession => "SESSION_NOT_FOUND"
  | SessionNotOpen => "SESSION_NOT_OPEN"
  | TtlExpired => "SESSION_NOT_OPEN"
  | InvalidTtl => "INVALID_ENVELOPE"
  | UnknownMode => "MODE_NOT_SUPPORTED"
  | InvalidModeState => "INVALID_ENVELOPE"
  | InvalidPayload => "INVALID_ENVELOPE"
  | Forbidden => "FORBIDDEN"
  | Unauthenticated => "UNAUTHENTICATED"
  | DuplicateMessage => "DUPLICATE_MESSAGE"
  | PayloadTooLarge => "PAYLOAD_TOO_LARGE"
  | RateLimited => "RATE_LIMITED"
  | StorageFailed => "INTERNAL_ERROR"
  | InvalidSessionId => "INVALID_SESSION_ID"
  | UnknownPolicyVersion => "UNKNOWN_POLICY_VERSION"
  | PolicyDenied _ => "POLICY_DENIED"
  | InvalidPolicyDefinition => "INVALID_POLICY_DEFINITION"
  | RegistryReadOnly => "REGISTRY_READ_ONLY"
  | InvalidRequest => "INVALID_REQUEST"
  | StreamLagged => "STREAM_LAGGED"
  | AgentNotFound => "AGENT_NOT_FOUND"
  | HistoryUnavailable => "HISTORY_UNAVAILABLE"
  | ReceiptUnavailable => "RECEIPT_UNAVAILABLE"
  end.

Inductive TransportStatus : Type :=
| TSInvalidArgument | TSNotFound | TSAlreadyExists | TSPermissionDenied
| TSResourceExhausted | TSFailedPrecondition | TSInternal | TSUnauthenticated.

Definition grpc_code (t : TransportStatus) : Z :=
  match t with
  | TSInvalidArgument => 3
  | TSNotFound => 5
  | TSAlreadyExists => 6
  | TSPermissionDenied => 7
  | TSResourceExhausted => 8
  | TSFailedPrecondition => 9
  | TSInternal => 13
  | TSUnauthenticated => 16
  end.

Definition grpc_name (t : TransportStatus) : string :=
  match t with
  | TSInvalidArgument => "INVALID_ARGUMENT"
  | TSNotFound => "NOT_FOUND"
  | TSAlreadyExists => "ALREADY_EXISTS"
  | TSPermissionDenied => "PERMISSION_DENIED"
  | TSResourceExhausted => "RESOURCE_EXHAUSTED"
  | TSFailedPrecondition => "FAILED_PRECONDITION"
  | TSInternal => "INTERNAL"
  | TSUnauthenticated => "UNAUTHENTICATED"
  end.

Record RegistryEntry := entry {
  re_code : string;
  re_grpc : TransportStatus;
  re_http : Z;
}.

Definition ERROR_CODE_REGISTRY : list RegistryEntry := [
  entry "UNAUTHENTICATED" TSUnauthenticated 401;
  entry "FORBIDDEN" TSPermissionDenied 403;
  entry "SESSION_NOT_FOUND" TSNotFound 404;
  entry "SESSION_NOT_OPEN" TSFailedPrecondition 409;
  entry "DUPLICATE_MESSAGE" TSAlreadyExists 409;
  entry "SESSION_ALREADY_EXISTS" TSAlreadyExists 409;
  entry "INVALID_ENVELOPE" TSInvalidArgument 400;
  entry "UNSUPPORTED_PROTOCOL_VERSION" TSInvalidArgument 400;
  entry "MODE_NOT_SUPPORTED" TSInvalidArgument 400;
  entry "PAYLOAD_TOO_LARGE" TSResourceExhausted 413;
  entry "RATE_LIMITED" TSResourceExhausted 429;
  entry "INVALID_SESSION_ID" TSInvalidArgument 400;
  entry "INTERNAL_ERROR" TSInternal 500;
  entry "UNKNOWN_POLICY_VERSION" TSNotFound 404;
  entry "POLICY_DENIED" TSPermissionDenied 403;
  entry "INVALID_POLICY_DEFINITION" TSInvalidArgument 400;
  entry "REGISTRY_READ_ONLY" TSFailedPrecondition 409;
  entry "INVALID_REQUEST" TSInvalidArgument 400;
  entry "STREAM_LAGGED" TSResourceExhausted 503;
  entry "AGENT_NOT_FOUND" TSNotFound 404;
  entry "HISTORY_UNAVAILABLE" TSFailedPrecondition 409;
  entry "RECEIPT_UNAVAILABLE" TSFailedPrecondition 409;
  entry "UNAUTHORIZED" TSPermissionDenied 403 ].

Definition registry_entry (code : string) : option RegistryEntry :=
  List.find (λ e, re_code e == code) ERROR_CODE_REGISTRY.

(** [None] where the source's [expect] would panic. *)
Definition registry_row (e : MacpError) : option RegistryEntry :=
  registry_entry (error_code e).
Definition transport_status (e : MacpError) : option TransportStatus :=
  re_grpc <$> registry_row e.
Definition http_status (e : MacpError) : option Z := re_http <$> registry_row e.

Definition deny_reasons (e : MacpError) : list DenyReason :=
  match e with PolicyDenied rs => rs | _ => [] end.

(** ** Properties *)

(** The HTTP statuses a gRPC status is refined into (the registry's HTTP
    column is finer than its gRPC column, and never crosses a class). *)
Definition http_refines (t : TransportStatus) : list Z :=
  match t with
  | TSInvalidArgument => [400]
  | TSNotFound => [404]
  | TSAlreadyExists => [409]
  | TSPermissionDenied => [403]
  | TSResourceExhausted => [413; 429; 503]
  | TSFailedPrecondition => [409]
  | TSInternal => [500]
  | TSUnauthenticated => [401]
  end.

(** Error mapping is total and coherent: for every error the registry
    lookup behind [transport_status] and [http_status] succeeds (the [expect]
    in [registry_row] is unreachable), the row found carries that error's own
    code, and its HTTP status is one of those refining its gRPC status. *)
Theorem error_mapping_total (e : MacpError) :
  ∃ row, registry_row e = Some row ∧ re_code row = error_code e ∧
    transport_status e = Some (re_grpc row) ∧ http_status e = Some (re_http row) ∧
    re_http row ∈ http_refines (re_grpc row).
Proof.
  unfold transport_status, http_status.
  destruct e; eexists; (split; [vm_compute; reflexivity|]); simpl;
    repeat split; set_solver.
Qed.
