(* ===== verification/Policy.v ===== *)
(** * Policy vocabulary (crates/macp-core/src/policy, decision.rs)

    The policy definition a session binds, the rule records of the five
    standard modes with their defaults, the Decision mode's accumulated state
    (which the evaluation trait names), the evaluator interface, and the one
    implementation of the Quorum threshold. *)

From stdpp Require Import prelude gmap strings.
From S2P Require Import Prelude Floats Extern Error.
Open Scope Z_scope.

(** ** Decision mode domain types (decision.rs) *)
Inductive DecisionPhase := PhProposal | PhEvaluation | PhVoting | PhCommitted.
#[export] Instance DecisionPhase_eq_dec : EqDecision DecisionPhase.
Proof. solve_decision. Defined.

Record Proposal := MkProposal {
  pr_proposal_id : string;
  pr_option : string;
  pr_rationale : string;
  pr_sender : string;
}.
Record Evaluation := MkEvaluation {
  ev_proposal_id : string;
  ev_recommendation : string;
  ev_confidence : f64;
  ev_reason : string;
  ev_sender : string;
}.
Record Objection := MkObjection {
  ob_proposal_id : string;
  ob_reason : string;
  ob_severity : string;
  ob_sender : string;
}.
Record Vote := MkVote {
  vt_proposal_id : string;
  vt_vote : string;
  vt_reason : string;
  vt_sender : string;
}.
Record DecisionState := MkDecisionState {
  ds_proposals : gmap string Proposal;
  ds_evaluations : list Evaluation;
  ds_objections : list Objection;
  ds_votes : gmap string (gmap string Vote);
  ds_phase : DecisionPhase;
}.

(** ** Definitions and decisions *)
Record PolicyDefinition := MkPolicyDefinition {
  policy_id : string;
  policy_mode : string;
  policy_description : string;
  policy_rules : Value;
  policy_schema_version : Z;
}.

Inductive PolicyDecision :=
| Allow (reasons : list text)
| Deny (reasons : list DenyReason).

(** ** Rule records (policy/rules.rs, policy/mod.rs) *)
Record CommitmentRules := MkCommitmentRules {
  cr_authority : string;
  cr_designated_roles : list string;
  cr_require_vote_quorum : bool;
  cr_allow_decline_over_approval : bool;
}.
Definition default_authority : string := "initiator_only".
Definition default_commitment_rules : CommitmentRules :=
  MkCommitmentRules default_authority [] false false.

Record QuorumRules := MkQuorumRules { qr_type : string; qr_value : f64 }.
Definition default_quorum_rules : QuorumRules := MkQuorumRules "count" f64_0.

Record VotingRules := MkVotingRules {
  vr_algorithm : string;
  vr_threshold : f64;
  vr_quorum : QuorumRules;
  vr_weights : gmap string f64;
}.
Definition default_voting_rules : VotingRules :=
  MkVotingRules "none" f64_half default_quorum_rules ∅.

Inductive CriticalObjectionAction := COADeny | COAFinalizeDecline | COAHold.
Record ObjectionHandlingRules := MkObjectionHandlingRules {
  oh_critical_severity_vetoes : bool;
  oh_veto_threshold : Z;
  oh_critical_objection_action : CriticalObjectionAction;
}.
Definition default_objection_handling : ObjectionHandlingRules :=
  MkObjectionHandlingRules false 1 COADeny.

Record EvaluationRules := MkEvaluationRules {
  er_required_before_voting : bool;
  er_minimum_confidence : f64;
}.
Definition default_evaluation_rules : EvaluationRules := MkEvaluationRules false f64_0.

Record DecisionPolicyRules := MkDecisionPolicyRules {
  dpr_voting : VotingRules;
  dpr_objection_handling : ObjectionHandlingRules;
  dpr_evaluation : EvaluationRules;
  dpr_commitment : CommitmentRules;
}.
Definition default_decision_rules : DecisionPolicyRules :=
  MkDecisionPolicyRules default_voting_rules default_objection_handling
    default_evaluation_rules default_commitment_rules.

(** [acceptance.criterion], [counter_proposal.max_rounds],
    [rejection.terminal_on_any_reject]. *)
Record ProposalPolicyRules := MkProposalPolicyRules {
  ppr_criterion : string;
  ppr_max_rounds : Z;
  ppr_terminal_on_any_reject : bool;
  ppr_commitment : CommitmentRules;
}.
Definition default_acceptance_criterion : string := "all_parties".
Definition default_proposal_rules : ProposalPolicyRules :=
  MkProposalPolicyRules default_acceptance_criterion 0 false default_commitment_rules.

(** [assignment.allow_reassignment_on_reject], [completion.require_output]. *)
Record TaskPolicyRules := MkTaskPolicyRules {
  tpr_allow_reassignment_on_reject : bool;
  tpr_require_output : bool;
  tpr_commitment : CommitmentRules;
}.
Definition default_task_rules : TaskPolicyRules :=
  MkTaskPolicyRules false false default_commitment_rules.

(** [acceptance.implicit_accept_timeout_ms], a [u64]. *)
Record HandoffPolicyRules := MkHandoffPolicyRules {
  hpr_implicit_accept_timeout_ms : Z;
  hpr_commitment : CommitmentRules;
}.
Definition default_handoff_rules : HandoffPolicyRules :=
  MkHandoffPolicyRules 0 default_commitment_rules.

Record QuorumThreshold := MkQuorumThreshold { qt_type : string; qt_value : f64 }.
Definition default_quorum_threshold : QuorumThreshold := MkQuorumThreshold "n_of_m" f64_0.
Record AbstentionRules := MkAbstentionRules {
  ab_counts_toward_quorum : bool;
  ab_interpretation : string;
}.
Definition default_abstention : AbstentionRules := MkAbstentionRules false "neutral".
Record QuorumPolicyRules := MkQuorumPolicyRules {
  qpr_threshold : QuorumThreshold;
  qpr_abstention : AbstentionRules;
  qpr_commitment : CommitmentRules;
}.
Definition default_quorum_policy_rules : QuorumPolicyRules :=
  MkQuorumPolicyRules default_quorum_threshold default_abstention default_commitment_rules.

(** [extract_commitment_rules]. *)
Definition extract_commitment_rules `{FromValue CommitmentRules} (rules : Value)
    : CommitmentRules :=
  match value_get "commitment" rules with
  | Some c => unwrap_or default_commitment_rules (from_value c)
  | None => default_commitment_rules
  end.

(** ** The Quorum threshold ([QuorumThreshold::effective]) *)
Inductive EffectiveThreshold :=
| Inert
| Approvals (n : Z)
| Unsatisfiable.

Definition effective (t : QuorumThreshold) (total_participants : Z) : EffectiveThreshold :=
  if negb (f64_gt (qt_value t) f64_0) then Inert
  else if qt_type t == "percentage" then
    if total_participants =? 0 then Unsatisfiable
    else if fract_is_zero (qt_value t) then
      let scaled :=
        (Z.min u128_max (f64_as_u128 (qt_value t) * total_participants) + 99) / 100 in
      Approvals (Z.max 1 (Z.min u32_max scaled))
    else
      let required :=
        f64_div (f64_mul (qt_value t) (f64_of_Z total_participants)) f64_100 in
      Approvals (Z.max (f64_ceil_as_u32 required) 1)
  else if (qt_type t == "n_of_m") || (qt_type t == "count") then
    Approvals (Z.max (f64_ceil_as_u32 (qt_value t)) 1)
  else Unsatisfiable.

(** ** The evaluator interface ([PolicyEvaluator]) *)
Inductive CommitmentMode :=
| CMDecision (state : DecisionState)
| CMProposal (counter_proposal_count : Z)
| CMTask (has_output : bool)
| CMHandoff
| CMQuorum (approve_count reject_count abstain_count : Z).

Record CommitmentContext := MkCommitmentContext {
  cc_policy : PolicyDefinition;
  cc_participants : list string;
  cc_outcome_positive : bool;
  cc_mode : CommitmentMode;
}.

Class PolicyEvaluator := evaluate_commitment : CommitmentContext → PolicyDecision.

(** ** Properties *)

(** The exact rule RFC-MACP-0012 §4.2 gives for a percentage. *)
Definition exact_percentage_bar (v n : Z) : Z := (v * n + 99) / 100.

(** A whole percentage between 1 and 100 over a non-empty roster resolves
    to the exact integer ceiling of [v% of n], never zero and never above the
    roster size, however the float that carries [v] rounds. *)
Theorem quorum_percentage_exact (v n : Z) :
  1 ≤ v ≤ 100 → 1 ≤ n ≤ u32_max →
  effective (MkQuorumThreshold "percentage" (f64_of_Z v)) n
    = Approvals (exact_percentage_bar v n) ∧
  1 ≤ exact_percentage_bar v n ≤ n ∧
  v * n ≤ 100 * exact_percentage_bar v n < v * n + 100.
Proof.
  intros Hv Hn. destruct (f64_small_int_exact v Hv) as (Hf & Hu & _ & Hg).
  unfold effective; simpl. rewrite Hg, Hf, Hu; simpl.
  rewrite (proj2 (Z.eqb_neq n 0)) by lia.
  unfold exact_percentage_bar, u128_max, u32_max in *.
  assert (v * n ≤ 100 * (2 ^ 32 - 1)) by (apply Z.mul_le_mono_nonneg; lia).
  rewrite (Z.min_r (2 ^ 128 - 1) (v * n)) by lia.
  pose proof (Z.div_mod (v * n + 99) 100).
  pose proof (Z.mod_pos_bound (v * n + 99) 100).
  set (q := (v * n + 99) / 100) in *.
  assert (1 ≤ q ≤ n) by nia.
  split; [f_equal; lia|]. split; lia.
Qed.

Lemma quorum_percentage_exact_witness :
  (1 ≤ 28 ≤ 100 ∧ 1 ≤ 25 ≤ u32_max) ∧
  effective (MkQuorumThreshold "percentage" (f64_of_Z 28)) 25 = Approvals 7.
Proof.
  split; [vm_compute; intuition congruence|].
  apply (quorum_percentage_exact 28 25); vm_compute; intuition congruence.
Defined.

(** The resolved bar is never zero: whatever the rule and the roster,
    [effective] yields either no bar, an unsatisfiable one, or between 1 and
    [u32::MAX] approvals, and it yields no bar exactly when the rule's value is
    not a positive number (NaN, zero and negatives). *)
Theorem effective_never_zero (t : QuorumThreshold) (n : Z) :
  (∀ k, effective t n = Approvals k → 1 ≤ k ≤ u32_max) ∧
  (effective t n = Inert ↔ f64_gt (qt_value t) f64_0 = false).
Proof.
  assert (∀ x, f64_ceil_as_u32 x ≤ u32_max) as Hc.
  { intros x. unfold f64_ceil_as_u32, sat_unsigned, u32_max.
    destruct x as [[]|[]| |[] m e]; lia. }
  unfold effective. destruct (f64_gt (qt_value t) f64_0); simpl; [|naive_solver].
  split.
  - intros k Hk. unfold u32_max in *. res_inv;
      simplify_eq; first [lia | match goal with |- context [f64_ceil_as_u32 ?x] => pose proof (Hc x) end; lia].
  - split; [|done]. intros H. res_inv.
Qed.
