(* ===== verification/Wire.v ===== *)
(** * Protobuf messages

    The generated message types ([macp_pb]), with the fields the runtime
    reads and writes. A missing scalar field of the wire decodes to its
    default, so no field is optional but [supersedes]. *)

From stdpp Require Import prelude gmap strings.
From S2P Require Import Prelude Floats Extern.
Open Scope Z_scope.

Record Envelope := MkEnvelope {
  env_macp_version : string;
  env_mode : string;
  env_message_type : string;
  env_message_id : string;
  env_session_id : string;
  env_sender : string;
  env_timestamp_unix_ms : Z;
  env_payload : bytes;
}.

Record Root := MkRoot { root_uri : string; root_name : string }.

Record SessionStartPayload := MkSessionStartPayload {
  sp_intent : string;
  sp_participants : list string;
  sp_mode_version : string;
  sp_configuration_version : string;
  sp_policy_version : string;
  sp_ttl_ms : Z;
  sp_context_id : string;
  sp_extensions : gmap string bytes;
  sp_roots : list Root;
  sp_max_suspend_ms : Z;
}.
(** [SessionStartPayload::default()]. *)
Definition default_start_payload : SessionStartPayload :=
  MkSessionStartPayload "" [] "" "" "" 0 "" ∅ [] 0.

Record CommitmentRef := MkCommitmentRef {
  ref_session_id : string;
  ref_commitment_hash : string;
}.
Record CommitmentPayload := MkCommitmentPayload {
  cp_commitment_id : string;
  cp_action : string;
  cp_authority_scope : string;
  cp_reason : string;
  cp_mode_version : string;
  cp_policy_version : string;
  cp_configuration_version : string;
  cp_outcome_positive : bool;
  cp_supersedes : option CommitmentRef;
}.

(** ** Decision *)
Record ProposalPayload := MkProposalPayload {
  pp_proposal_id : string; pp_option : string; pp_rationale : string }.
Record EvaluationPayload := MkEvaluationPayload {
  ep_proposal_id : string; ep_recommendation : string;
  ep_confidence : f64; ep_reason : string }.
Record ObjectionPayload := MkObjectionPayload {
  op_proposal_id : string; op_reason : string; op_severity : string }.
Record VotePayload := MkVotePayload {
  vp_proposal_id : string; vp_vote : string; vp_reason : string }.

(** ** Proposal *)
Record NegProposalPayload := MkNegProposalPayload {
  np_proposal_id : string; np_title : string; np_summary : string;
  np_details : bytes; np_tags : list string }.
Record CounterProposalPayload := MkCounterProposalPayload {
  cpp_proposal_id : string; cpp_supersedes_proposal_id : string;
  cpp_title : string; cpp_summary : string; cpp_details : bytes }.
Record AcceptPayload := MkAcceptPayload { ap_proposal_id : string; ap_reason : string }.
Record NegRejectPayload := MkNegRejectPayload {
  nr_proposal_id : string; nr_terminal : bool; nr_reason : string }.
Record WithdrawPayload := MkWithdrawPayload { wp_proposal_id : string; wp_reason : string }.

(** ** Task *)
Record TaskRequestPayload := MkTaskRequestPayload {
  tq_task_id : string; tq_title : string; tq_instructions : string;
  tq_requested_assignee : string; tq_input : bytes; tq_deadline_unix_ms : Z }.
Record TaskAcceptPayload := MkTaskAcceptPayload {
  ta_task_id : string; ta_assignee : string; ta_reason : string }.
Record TaskRejectPayload := MkTaskRejectPayload {
  tj_task_id : string; tj_assignee : string; tj_reason : string }.
Record TaskUpdatePayload := MkTaskUpdatePayload {
  tu_task_id : string; tu_status : string; tu_progress : f64;
  tu_message : string; tu_partial_output : bytes }.
Record TaskCompletePayload := MkTaskCompletePayload {
  tc_task_id : string; tc_assignee : string; tc_output : bytes; tc_summary : string }.
Record TaskFailPayload := MkTaskFailPayload {
  tf_task_id : string; tf_assignee : string; tf_error_code : string;
  tf_reason : string; tf_retryable : bool }.

(** ** Handoff *)
Record HandoffOfferPayload := MkHandoffOfferPayload {
  ho_handoff_id : string; ho_target_participant : string;
  ho_scope : string; ho_reason : string }.
Record HandoffContextPayload := MkHandoffContextPayload {
  hc_handoff_id : string; hc_content_type : string; hc_context : bytes }.
Record HandoffAcceptPayload := MkHandoffAcceptPayload {
  ha_handoff_id : string; ha_accepted_by : string; ha_reason : string; ha_implicit : bool }.
Record HandoffDeclinePayload := MkHandoffDeclinePayload {
  hd_handoff_id : string; hd_declined_by : string; hd_reason : string }.

(** ** Quorum *)
Record ApprovalRequestPayload := MkApprovalRequestPayload {
  aq_request_id : string; aq_action : string; aq_summary : string;
  aq_details : bytes; aq_required_approvals : Z }.
Record ApprovePayload := MkApprovePayload { qa_request_id : string; qa_reason : string }.
Record BallotRejectPayload := MkBallotRejectPayload {
  qj_request_id : string; qj_reason : string }.
Record AbstainPayload := MkAbstainPayload { qb_request_id : string; qb_reason : string }.

(** ** Multi-round *)
Record ContributePayload := MkContributePayload { ct_value : string }.
