(* ===== verification/SessionData.v ===== *)
(** * The session record (crates/macp-core/src/session.rs, mode.rs, clock.rs)

    [Session] with its lifecycle states, the field updates its methods and its
    builder make, and what a mode hands back to the kernel. *)

From stdpp Require Import prelude gmap strings.
From S2P Require Import Prelude Floats Extern Error Policy Wire.
Open Scope Z_scope.

Definition MACP_VERSION : string := "1.0".
Definition MAX_TTL_MS : Z := 24 * 60 * 60 * 1000.
Definition MAX_SUSPEND_MS : Z := 7 * 24 * 60 * 60 * 1000.
Definition MAX_SUSPENSION_CYCLES : Z := 1024.
Definition CURRENT_SEMANTICS_REV : Z := 4.
Definition MAX_SESSION_ID_BYTES : Z := 128.

Inductive SessionState := Open | Suspended | Resolved | Expired | Cancelled.
#[export] Instance SessionState_eq_dec : EqDecision SessionState.
Proof. solve_decision. Defined.

(** [SessionState::is_terminal]. *)
Definition is_terminal (st : SessionState) : bool :=
  match st with
  | Resolved | Expired | Cancelled => true
  | _ => false
  end.

Record Session := MkSession {
  ss_session_id : string;
  ss_state : SessionState;
  ss_ttl_expiry : Z;
  ss_ttl_ms : Z;
  ss_started_at_unix_ms : Z;
  ss_resolution : option bytes;
  ss_mode : string;
  ss_mode_state : bytes;
  ss_participants : list string;
  ss_seen_message_ids : gset string;
  ss_intent : string;
  ss_mode_version : string;
  ss_configuration_version : string;
  ss_policy_version : string;
  ss_context_id : string;
  ss_extensions : gmap string bytes;
  ss_roots : list Root;
  ss_initiator_sender : string;
  ss_participant_message_counts : gmap string Z;
  ss_participant_last_seen : gmap string Z;
  ss_policy_definition : option PolicyDefinition;
  ss_suspended_at_ms : option Z;
  ss_accumulated_suspended_ms : Z;
  ss_suspension_intervals : list (Z * Z);
  ss_semantics_rev : Z;
  ss_max_suspend_ms : Z;
}.

(** ** Field updates, also the setters of [SessionBuilder] *)
Definition set_session_id (v : string) (s : Session) : Session :=
  MkSession v (ss_state s) (ss_ttl_expiry s) (ss_ttl_ms s) (ss_started_at_unix_ms
    s) (ss_resolution s) (ss_mode s) (ss_mode_state s) (ss_participants s)
    (ss_seen_message_ids s) (ss_intent s) (ss_mode_version s)
    (ss_configuration_version s) (ss_policy_version s) (ss_context_id s)
    (ss_extensions s) (ss_roots s) (ss_initiator_sender s)
    (ss_participant_message_counts s) (ss_participant_last_seen s)
    (ss_policy_definition s) (ss_suspended_at_ms s) (ss_accumulated_suspended_ms s)
    (ss_suspension_intervals s) (ss_semantics_rev s) (ss_max_suspend_ms s).
Definition set_state (v : SessionState) (s : Session) : Session :=
  MkSession (ss_session_id s) v (ss_ttl_expiry s) (ss_ttl_ms s) (ss_started_at_unix_ms
    s) (ss_resolution s) (ss_mode s) (ss_mode_state s) (ss_participants s)
    (ss_seen_message_ids s) (ss_intent s) (ss_mode_version s)
    (ss_configuration_version s) (ss_policy_version s) (ss_context_id s)
    (ss_extensions s) (ss_roots s) (ss_initiator_sender s)
    (ss_participant_message_counts s) (ss_participant_last_seen s)
    (ss_policy_definition s) (ss_suspended_at_ms s) (ss_accumulated_suspended_ms s)
    (ss_suspension_intervals s) (ss_semantics_rev s) (ss_max_suspend_ms s).
Definition set_ttl_expiry (v : Z) (s : Session) : Session :=
  MkSession (ss_session_id s) (ss_state s) v (ss_ttl_ms s) (ss_started_at_unix_ms s)
    (ss_resolution s) (ss_mode s) (ss_mode_state s) (ss_participants s)
    (ss_seen_message_ids s) (ss_intent s) (ss_mode_version s)
    (ss_configuration_version s) (ss_policy_version s) (ss_context_id s)
    (ss_extensions s) (ss_roots s) (ss_initiator_sender s)
    (ss_participant_message_counts s) (ss_participant_last_seen s)
    (ss_policy_definition s) (ss_suspended_at_ms s) (ss_accumulated_suspended_ms s)
    (ss_suspension_intervals s) (ss_semantics_rev s) (ss_max_suspend_ms s).
Definition set_ttl_ms (v : Z) (s : Session) : Session :=
  MkSession (ss_session_id s) (ss_state s) (ss_ttl_expiry s) v (ss_started_at_unix_ms
    s) (ss_resolution s) (ss_mode s) (ss_mode_state s) (ss_participants s)
    (ss_seen_message_ids s) (ss_intent s) (ss_mode_version s)
    (ss_configuration_version s) (ss_policy_version s) (ss_context_id s)
    (ss_extensions s) (ss_roots s) (ss_initiator_sender s)
    (ss_participant_message_counts s) (ss_participant_last_seen s)
    (ss_policy_definition s) (ss_suspended_at_ms s) (ss_accumulated_suspended_ms s)
    (ss_suspension_intervals s) (ss_semantics_rev s) (ss_max_suspend_ms s).
Definition set_started_at_unix_ms (v : Z) (s : Session) : Session :=
  MkSession (ss_session_id s) (ss_state s) (ss_ttl_expiry s) (ss_ttl_ms s) v
    (ss_resolution s) (ss_mode s) (ss_mode_state s) (ss_participants s)
    (ss_seen_message_ids s) (ss_intent s) (ss_mode_version s)
    (ss_configuration_version s) (ss_policy_version s) (ss_context_id s)
    (ss_extensions s) (ss_roots s) (ss_initiator_sender s)
    (ss_participant_message_counts s) (ss_participant_last_seen s)
    (ss_policy_definition s) (ss_suspended_at_ms s) (ss_accumulated_suspended_ms s)
    (ss_suspension_intervals s) (ss_semantics_rev s) (ss_max_suspend_ms s).
Definition set_resolution (v : option bytes) (s : Session) : Session :=
  MkSession (ss_session_id s) (ss_state s) (ss_ttl_expiry s) (ss_ttl_ms s)
    (ss_started_at_unix_ms s) v (ss_mode s) (ss_mode_state s) (ss_participants s)
    (ss_seen_message_ids s) (ss_intent s) (ss_mode_version s)
    (ss_configuration_version s) (ss_policy_version s) (ss_context_id s)
    (ss_extensions s) (ss_roots s) (ss_initiator_sender s)
    (ss_participant_message_counts s) (ss_participant_last_seen s)
    (ss_policy_definition s) (ss_suspended_at_ms s) (ss_accumulated_suspended_ms s)
    (ss_suspension_intervals s) (ss_semantics_rev s) (ss_max_suspend_ms s).
Definition set_mode_state (v : bytes) (s : Session) : Session :=
  MkSession (ss_session_id s) (ss_state s) (ss_ttl_expiry s) (ss_ttl_ms s)
    (ss_started_at_unix_ms s) (ss_resolution s) (ss_mode s) v (ss_participants s)
    (ss_seen_message_ids s) (ss_intent s) (ss_mode_version s)
    (ss_configuration_version s) (ss_policy_version s) (ss_context_id s)
    (ss_extensions s) (ss_roots s) (ss_initiator_sender s)
    (ss_participant_message_counts s) (ss_participant_last_seen s)
    (ss_policy_definition s) (ss_suspended_at_ms s) (ss_accumulated_suspended_ms s)
    (ss_suspension_intervals s) (ss_semantics_rev s) (ss_max_suspend_ms s).
Definition set_participants (v : list string) (s : Session) : Session :=
  MkSession (ss_session_id s) (ss_state s) (ss_ttl_expiry s) (ss_ttl_ms s)
    (ss_started_at_unix_ms s) (ss_resolution s) (ss_mode s) (ss_mode_state s) v
    (ss_seen_message_ids s) (ss_intent s) (ss_mode_version s)
    (ss_configuration_version s) (ss_policy_version s) (ss_context_id s)
    (ss_extensions s) (ss_roots s) (ss_initiator_sender s)
    (ss_participant_message_counts s) (ss_participant_last_seen s)
    (ss_policy_definition s) (ss_suspended_at_ms s) (ss_accumulated_suspended_ms s)
    (ss_suspension_intervals s) (ss_semantics_rev s) (ss_max_suspend_ms s).
Definition set_seen_message_ids (v : gset string) (s : Session) : Session :=
  MkSession (ss_session_id s) (ss_state s) (ss_ttl_expiry s) (ss_ttl_ms s)
    (ss_started_at_unix_ms s) (ss_resolution s) (ss_mode s) (ss_mode_state s)
    (ss_participants s) v (ss_intent s) (ss_mode_version s) (ss_configuration_version
    s) (ss_policy_version s) (ss_context_id s) (ss_extensions s) (ss_roots s)
    (ss_initiator_sender s) (ss_participant_message_counts s)
    (ss_participant_last_seen s) (ss_policy_definition s) (ss_suspended_at_ms s)
    (ss_accumulated_suspended_ms s) (ss_suspension_intervals s) (ss_semantics_rev s)
    (ss_max_suspend_ms s).
Definition set_intent (v : string) (s : Session) : Session :=
  MkSession (ss_session_id s) (ss_state s) (ss_ttl_expiry s) (ss_ttl_ms s)
    (ss_started_at_unix_ms s) (ss_resolution s) (ss_mode s) (ss_mode_state s)
    (ss_participants s) (ss_seen_message_ids s) v (ss_mode_version s)
    (ss_configuration_version s) (ss_policy_version s) (ss_context_id s)
    (ss_extensions s) (ss_roots s) (ss_initiator_sender s)
    (ss_participant_message_counts s) (ss_participant_last_seen s)
    (ss_policy_definition s) (ss_suspended_at_ms s) (ss_accumulated_suspended_ms s)
    (ss_suspension_intervals s) (ss_semantics_rev s) (ss_max_suspend_ms s).
Definition set_mode_version (v : string) (s : Session) : Session :=
  MkSession (ss_session_id s) (ss_state s) (ss_ttl_expiry s) (ss_ttl_ms s)
    (ss_started_at_unix_ms s) (ss_resolution s) (ss_mode s) (ss_mode_state s)
    (ss_participants s) (ss_seen_message_ids s) (ss_intent s) v
    (ss_configuration_version s) (ss_policy_version s) (ss_context_id s)
    (ss_extensions s) (ss_roots s) (ss_initiator_sender s)
    (ss_participant_message_counts s) (ss_participant_last_seen s)
    (ss_policy_definition s) (ss_suspended_at_ms s) (ss_accumulated_suspended_ms s)
    (ss_suspension_intervals s) (ss_semantics_rev s) (ss_max_suspend_ms s).
Definition set_configuration_version (v : string) (s : Session) : Session :=
  MkSession (ss_session_id s) (ss_state s) (ss_ttl_expiry s) (ss_ttl_ms s)
    (ss_started_at_unix_ms s) (ss_resolution s) (ss_mode s) (ss_mode_state s)
    (ss_participants s) (ss_seen_message_ids s) (ss_intent s) (ss_mode_version s) v
    (ss_policy_version s) (ss_context_id s) (ss_extensions s) (ss_roots s)
    (ss_initiator_sender s) (ss_participant_message_counts s)
    (ss_participant_last_seen s) (ss_policy_definition s) (ss_suspended_at_ms s)
    (ss_accumulated_suspended_ms s) (ss_suspension_intervals s) (ss_semantics_rev s)
    (ss_max_suspend_ms s).
Definition set_policy_version (v : string) (s : Session) : Session :=
  MkSession (ss_session_id s) (ss_state s) (ss_ttl_expiry s) (ss_ttl_ms s)
    (ss_started_at_unix_ms s) (ss_resolution s) (ss_mode s) (ss_mode_state s)
    (ss_participants s) (ss_seen_message_ids s) (ss_intent s) (ss_mode_version s)
    (ss_configuration_version s) v (ss_context_id s) (ss_extensions s) (ss_roots s)
    (ss_initiator_sender s) (ss_participant_message_counts s)
    (ss_participant_last_seen s) (ss_policy_definition s) (ss_suspended_at_ms s)
    (ss_accumulated_suspended_ms s) (ss_suspension_intervals s) (ss_semantics_rev s)
    (ss_max_suspend_ms s).
Definition set_context_id (v : string) (s : Session) : Session :=
  MkSession (ss_session_id s) (ss_state s) (ss_ttl_expiry s) (ss_ttl_ms s)
    (ss_started_at_unix_ms s) (ss_resolution s) (ss_mode s) (ss_mode_state s)
    (ss_participants s) (ss_seen_message_ids s) (ss_intent s) (ss_mode_version s)
    (ss_configuration_version s) (ss_policy_version s) v (ss_extensions s) (ss_roots
    s) (ss_initiator_sender s) (ss_participant_message_counts s)
    (ss_participant_last_seen s) (ss_policy_definition s) (ss_suspended_at_ms s)
    (ss_accumulated_suspended_ms s) (ss_suspension_intervals s) (ss_semantics_rev s)
    (ss_max_suspend_ms s).
Definition set_extensions (v : gmap string bytes) (s : Session) : Session :=
  MkSession (ss_session_id s) (ss_state s) (ss_ttl_expiry s) (ss_ttl_ms s)
    (ss_started_at_unix_ms s) (ss_resolution s) (ss_mode s) (ss_mode_state s)
    (ss_participants s) (ss_seen_message_ids s) (ss_intent s) (ss_mode_version s)
    (ss_configuration_version s) (ss_policy_version s) (ss_context_id s) v (ss_roots
    s) (ss_initiator_sender s) (ss_participant_message_counts s)
    (ss_participant_last_seen s) (ss_policy_definition s) (ss_suspended_at_ms s)
    (ss_accumulated_suspended_ms s) (ss_suspension_intervals s) (ss_semantics_rev s)
    (ss_max_suspend_ms s).
Definition set_roots (v : list Root) (s : Session) : Session :=
  MkSession (ss_session_id s) (ss_state s) (ss_ttl_expiry s) (ss_ttl_ms s)
    (ss_started_at_unix_ms s) (ss_resolution s) (ss_mode s) (ss_mode_state s)
    (ss_participants s) (ss_seen_message_ids s) (ss_intent s) (ss_mode_version s)
    (ss_configuration_version s) (ss_policy_version s) (ss_context_id s)
    (ss_extensions s) v (ss_initiator_sender s) (ss_participant_message_counts s)
    (ss_participant_last_seen s) (ss_policy_definition s) (ss_suspended_at_ms s)
    (ss_accumulated_suspended_ms s) (ss_suspension_intervals s) (ss_semantics_rev s)
    (ss_max_suspend_ms s).
Definition set_participant_message_counts (v : gmap string Z) (s : Session) : Session :=
  MkSession (ss_session_id s) (ss_state s) (ss_ttl_expiry s) (ss_ttl_ms s)
    (ss_started_at_unix_ms s) (ss_resolution s) (ss_mode s) (ss_mode_state s)
    (ss_participants s) (ss_seen_message_ids s) (ss_intent s) (ss_mode_version s)
    (ss_configuration_version s) (ss_policy_version s) (ss_context_id s)
    (ss_extensions s) (ss_roots s) (ss_initiator_sender s) v (ss_participant_last_seen
    s) (ss_policy_definition s) (ss_suspended_at_ms s) (ss_accumulated_suspended_ms s)
    (ss_suspension_intervals s) (ss_semantics_rev s) (ss_max_suspend_ms s).
Definition set_participant_last_seen (v : gmap string Z) (s : Session) : Session :=
  MkSession (ss_session_id s) (ss_state s) (ss_ttl_expiry s) (ss_ttl_ms s)
    (ss_started_at_unix_ms s) (ss_resolution s) (ss_mode s) (ss_mode_state s)
    (ss_participants s) (ss_seen_message_ids s) (ss_intent s) (ss_mode_version s)
    (ss_configuration_version s) (ss_policy_version s) (ss_context_id s)
    (ss_extensions s) (ss_roots s) (ss_initiator_sender s)
    (ss_participant_message_counts s) v (ss_policy_definition s) (ss_suspended_at_ms
    s) (ss_accumulated_suspended_ms s) (ss_suspension_intervals s) (ss_semantics_rev
    s) (ss_max_suspend_ms s).
Definition set_policy_definition (v : option PolicyDefinition) (s : Session) : Session :=
  MkSession (ss_session_id s) (ss_state s) (ss_ttl_expiry s) (ss_ttl_ms s)
    (ss_started_at_unix_ms s) (ss_resolution s) (ss_mode s) (ss_mode_state s)
    (ss_participants s) (ss_seen_message_ids s) (ss_intent s) (ss_mode_version s)
    (ss_configuration_version s) (ss_policy_version s) (ss_context_id s)
    (ss_extensions s) (ss_roots s) (ss_initiator_sender s)
    (ss_participant_message_counts s) (ss_participant_last_seen s) v
    (ss_suspended_at_ms s) (ss_accumulated_suspended_ms s) (ss_suspension_intervals s)
    (ss_semantics_rev s) (ss_max_suspend_ms s).
Definition set_suspended_at_ms (v : option Z) (s : Session) : Session :=
  MkSession (ss_session_id s) (ss_state s) (ss_ttl_expiry s) (ss_ttl_ms s)
    (ss_started_at_unix_ms s) (ss_resolution s) (ss_mode s) (ss_mode_state s)
    (ss_participants s) (ss_seen_message_ids s) (ss_intent s) (ss_mode_version s)
    (ss_configuration_version s) (ss_policy_version s) (ss_context_id s)
    (ss_extensions s) (ss_roots s) (ss_initiator_sender s)
    (ss_participant_message_counts s) (ss_participant_last_seen s)
    (ss_policy_definition s) v (ss_accumulated_suspended_ms s)
    (ss_suspension_intervals s) (ss_semantics_rev s) (ss_max_suspend_ms s).
Definition set_accumulated_suspended_ms (v : Z) (s : Session) : Session :=
  MkSession (ss_session_id s) (ss_state s) (ss_ttl_expiry s) (ss_ttl_ms s)
    (ss_started_at_unix_ms s) (ss_resolution s) (ss_mode s) (ss_mode_state s)
    (ss_participants s) (ss_seen_message_ids s) (ss_intent s) (ss_mode_version s)
    (ss_configuration_version s) (ss_policy_version s) (ss_context_id s)
    (ss_extensions s) (ss_roots s) (ss_initiator_sender s)
    (ss_participant_message_counts s) (ss_participant_last_seen s)
    (ss_policy_definition s) (ss_suspended_at_ms s) v (ss_suspension_intervals s)
    (ss_semantics_rev s) (ss_max_suspend_ms s).
Definition set_suspension_intervals (v : list (Z * Z)) (s : Session) : Session :=
  MkSession (ss_session_id s) (ss_state s) (ss_ttl_expiry s) (ss_ttl_ms s)
    (ss_started_at_unix_ms s) (ss_resolution s) (ss_mode s) (ss_mode_state s)
    (ss_participants s) (ss_seen_message_ids s) (ss_intent s) (ss_mode_version s)
    (ss_configuration_version s) (ss_policy_version s) (ss_context_id s)
    (ss_extensions s) (ss_roots s) (ss_initiator_sender s)
    (ss_participant_message_counts s) (ss_participant_last_seen s)
    (ss_policy_definition s) (ss_suspended_at_ms s) (ss_accumulated_suspended_ms s) v
    (ss_semantics_rev s) (ss_max_suspend_ms s).
Definition set_semantics_rev (v : Z) (s : Session) : Session :=
  MkSession (ss_session_id s) (ss_state s) (ss_ttl_expiry s) (ss_ttl_ms s)
    (ss_started_at_unix_ms s) (ss_resolution s) (ss_mode s) (ss_mode_state s)
    (ss_participants s) (ss_seen_message_ids s) (ss_intent s) (ss_mode_version s)
    (ss_configuration_version s) (ss_policy_version s) (ss_context_id s)
    (ss_extensions s) (ss_roots s) (ss_initiator_sender s)
    (ss_participant_message_counts s) (ss_participant_last_seen s)
    (ss_policy_definition s) (ss_suspended_at_ms s) (ss_accumulated_suspended_ms s)
    (ss_suspension_intervals s) v (ss_max_suspend_ms s).
Definition set_max_suspend_ms (v : Z) (s : Session) : Session :=
  MkSession (ss_session_id s) (ss_state s) (ss_ttl_expiry s) (ss_ttl_ms s)
    (ss_started_at_unix_ms s) (ss_resolution s) (ss_mode s) (ss_mode_state s)
    (ss_participants s) (ss_seen_message_ids s) (ss_intent s) (ss_mode_version s)
    (ss_configuration_version s) (ss_policy_version s) (ss_context_id s)
    (ss_extensions s) (ss_roots s) (ss_initiator_sender s)
    (ss_participant_message_counts s) (ss_participant_last_seen s)
    (ss_policy_definition s) (ss_suspended_at_ms s) (ss_accumulated_suspended_ms s)
    (ss_suspension_intervals s) (ss_semantics_rev s) v.

(** [Session::builder]: every field at its documented default. *)
Definition session_builder (session_id mode initiator_sender : string) : Session :=
  {| ss_session_id := session_id;
     ss_state := Open;
     ss_ttl_expiry := i64_max;
     ss_ttl_ms := 0;
     ss_started_at_unix_ms := 0;
     ss_resolution := None;
     ss_mode := mode;
     ss_mode_state := [];
     ss_participants := [];
     ss_seen_message_ids := ∅;
     ss_intent := "";
     ss_mode_version := "";
     ss_configuration_version := "";
     ss_policy_version := "";
     ss_context_id := "";
     ss_extensions := ∅;
     ss_roots := [];
     ss_initiator_sender := initiator_sender;
     ss_participant_message_counts := ∅;
     ss_participant_last_seen := ∅;
     ss_policy_definition := None;
     ss_suspended_at_ms := None;
     ss_accumulated_suspended_ms := 0;
     ss_suspension_intervals := [];
     ss_semantics_rev := CURRENT_SEMANTICS_REV;
     ss_max_suspend_ms := 0 |}.

(** ** What a mode answers (mode.rs) *)
Inductive ModeResponse :=
| NoOp
| PersistState (state : bytes)
| Resolve (resolution : bytes)
| PersistAndResolve (state resolution : bytes).

(** [MessageContext]: the acceptance clock, and nothing else yet. *)
Record MessageContext := MkMessageContext { accepted_at_ms : Z }.
