(* ===== verification/Session.v ===== *)
(** * The session lifecycle (crates/macp-core/src/session.rs)

    The methods of [Session]: suspension and resumption with TTL banking, the
    suspension caps, cancellation and expiry, and the application of a mode's
    response. Then the lifecycle as an abstract automaton that every method
    refines, the invariants the methods keep, and TTL banking. *)

From stdpp Require Import prelude gmap strings.
From S2P Require Import Prelude Floats Extern Error Policy Wire SessionData.
Open Scope Z_scope.

Definition resolve_max_suspend_ms (payload_value : Z) : Z :=
  if payload_value >? 0 then payload_value else MAX_SUSPEND_MS.

(** [record_participant_activity]: the [u32] counter wraps. *)
Definition record_participant_activity (sender : string) (timestamp_ms : Z) (s : Session)
    : Session :=
  let n := default 0 (ss_participant_message_counts s !! sender) in
  set_participant_last_seen (<[sender := timestamp_ms]> (ss_participant_last_seen s))
    (set_participant_message_counts
      (<[sender := u32_wrap (n + 1)]> (ss_participant_message_counts s)) s).

Definition suspend (now_ms : Z) : stm Session MacpError unit := λ s,
  if ss_state s != Open then (s, Err SessionNotOpen)
  else (set_suspended_at_ms (Some now_ms) (set_state Suspended s), Ok ()).

Definition effective_max_suspend_ms (s : Session) : Z :=
  if ss_max_suspend_ms s >? 0 then ss_max_suspend_ms s else MAX_SUSPEND_MS.

(** The length of the pause that ends at [now_ms]: [(now_ms - at).max(0)], the
    subtraction being [i64]'s own. *)
Definition pause_ms (now_ms at_ms : Z) : Z := Z.max (i64_wrap (now_ms - at_ms)) 0.

Definition resume (now_ms : Z) : stm Session MacpError unit := λ s,
  if ss_state s != Suspended then (s, Err SessionNotOpen)
  else
    let suspended_at := default now_ms (ss_suspended_at_ms s) in
    let banked := pause_ms now_ms suspended_at in
    let s := set_accumulated_suspended_ms
      (saturating_add (ss_accumulated_suspended_ms s) banked) s in
    let s := set_suspended_at_ms None s in
    let s :=
      if (ss_semantics_rev s >=? 2)
         || (len (ss_suspension_intervals s) <? MAX_SUSPENSION_CYCLES)
      then set_suspension_intervals
             (ss_suspension_intervals s ++ [(suspended_at, now_ms)]) s
      else s in
    if (ss_semantics_rev s >=? 2)
       && (len (ss_suspension_intervals s) >? MAX_SUSPENSION_CYCLES)
    then (set_state Expired s, Err TtlExpired)
    else if ss_accumulated_suspended_ms s >? effective_max_suspend_ms s
    then (set_state Expired s, Err TtlExpired)
    else
      let s := set_ttl_expiry (saturating_add (ss_ttl_expiry s) banked) s in
      (set_state Open s, Ok ()).

Definition cancel : stm Session MacpError unit := λ s,
  if is_terminal (ss_state s) then (s, Err SessionNotOpen)
  else (set_suspended_at_ms None (set_state Cancelled s), Ok ()).

Definition suspend_cap_exceeded (now_ms : Z) (s : Session) : bool :=
  match ss_suspended_at_ms s with
  | Some at_ms =>
      saturating_add (ss_accumulated_suspended_ms s) (pause_ms now_ms at_ms)
        >? effective_max_suspend_ms s
  | None => ss_accumulated_suspended_ms s >? effective_max_suspend_ms s
  end.

Definition deadline_passed (now_ms : Z) (s : Session) : bool :=
  match ss_state s with
  | Open => now_ms >? ss_ttl_expiry s
  | Suspended => suspend_cap_exceeded now_ms s
  | _ => false
  end.

Definition expire : stm Session MacpError unit := λ s,
  if is_terminal (ss_state s) then (s, Err SessionNotOpen)
  else (set_suspended_at_ms None (set_state Expired s), Ok ()).

Definition apply_mode_response (response : ModeResponse) (s : Session) : Session :=
  match response with
  | NoOp => s
  | PersistState state => set_mode_state state s
  | Resolve resolution => set_resolution (Some resolution) (set_state Resolved s)
  | PersistAndResolve state resolution =>
      set_resolution (Some resolution) (set_state Resolved (set_mode_state state s))
  end.

(** ** The lifecycle as an abstract automaton (RFC-MACP-0001 section 7) *)
Inductive lifecycle : SessionState → SessionState → Prop :=
| lc_suspend : lifecycle Open Suspended
| lc_resume : lifecycle Suspended Open
| lc_resolve : lifecycle Open Resolved
| lc_expire st : is_terminal st = false → lifecycle st Expired
| lc_cancel st : is_terminal st = false → lifecycle st Cancelled.

Lemma terminal_final st st' : is_terminal st = true → rtc lifecycle st st' → st' = st.
Proof. intros Ht H. destruct H as [|? ? ? []]; simpl in *; congruence. Qed.

(** The facts every reachable session satisfies. *)
Record session_wf (s : Session) : Prop := {
  wf_suspended : is_Some (ss_suspended_at_ms s) ↔ ss_state s = Suspended;
  wf_resolution : is_Some (ss_resolution s) ↔ ss_state s = Resolved;
  wf_intervals : len (ss_suspension_intervals s)
    ≤ MAX_SUSPENSION_CYCLES + (if ss_state s == Expired then 1 else 0);
  wf_accumulated : 0 ≤ ss_accumulated_suspended_ms s ≤ i64_max;
  wf_cap : ss_state s ≠ Expired →
    ss_accumulated_suspended_ms s ≤ effective_max_suspend_ms s;
}.

(** What SessionStart binds: no method writes these fields afterwards. *)
Definition bound_fields (s : Session) :=
  (ss_session_id s, ss_mode s, ss_participants s, ss_initiator_sender s,
   (ss_ttl_ms s, ss_started_at_unix_ms s, ss_max_suspend_ms s, ss_semantics_rev s),
   (ss_intent s, ss_mode_version s, ss_configuration_version s, ss_policy_version s),
   (ss_context_id s, ss_extensions s, ss_roots s, ss_policy_definition s)).

(** ** One call of a lifecycle method *)
Inductive SessionCall :=
| CallSuspend (now_ms : Z)
| CallResume (now_ms : Z)
| CallCancel
| CallExpire.

Definition run_call (c : SessionCall) : stm Session MacpError unit :=
  match c with
  | CallSuspend now => suspend now
  | CallResume now => resume now
  | CallCancel => cancel
  | CallExpire => expire
  end.

Ltac session_cases H :=
  unfold suspend, resume, cancel, expire in H; cbv zeta in H; simpl in H;
  repeat case_match; simplify_eq; bool_simp.

Lemma run_call_lifecycle c s s' r :
  run_call c s = (s', r) → rtc lifecycle (ss_state s) (ss_state s').
Proof.
  intros H. destruct c; simpl in H; session_cases H; simpl;
    try reflexivity; apply rtc_once;
    repeat match goal with E : ss_state _ = _ |- _ => rewrite E end;
    by constructor.
Qed.

Lemma run_call_bound c s s' r :
  run_call c s = (s', r) → bound_fields s' = bound_fields s.
Proof. intros H. destruct c; simpl in H; session_cases H; reflexivity. Qed.

Lemma run_call_seen c s s' r :
  run_call c s = (s', r) →
  ss_seen_message_ids s' = ss_seen_message_ids s ∧ ss_mode_state s' = ss_mode_state s.
Proof. intros H. destruct c; simpl in H; session_cases H; done. Qed.

Lemma pause_ms_range now at_ms : 0 ≤ pause_ms now at_ms ≤ i64_max.
Proof.
  unfold pause_ms. pose proof (i64_wrap_range (now - at_ms)) as H.
  unfold is_i64, i64_max, i64_min in *. lia.
Qed.

Lemma saturating_add_range a b :
  0 ≤ a ≤ i64_max → 0 ≤ b → 0 ≤ saturating_add a b ≤ i64_max.
Proof. unfold saturating_add, i64_sat, i64_max, i64_min. lia. Qed.

Lemma suspend_wf now s : session_wf s → session_wf (suspend now s).1.
Proof.
  intros Hwf. unfold suspend. case_bool_decide as E; simpl; [|done].
  destruct Hwf as [Hs Hr Hi Ha Hc]. rewrite E in *. constructor; simpl; auto; [by eauto|].
  split; intros H; [|done]. by apply Hr in H.
Qed.

(** Both [cancel] and [expire]: a live session moves to a terminal state other
    than [Resolved], its suspension cleared. *)
Lemma terminate_wf st s :
  session_wf s → is_terminal (ss_state s) = false → st = Expired ∨ st = Cancelled →
  session_wf (set_suspended_at_ms None (set_state st s)).
Proof.
  intros [Hs Hr Hi Ha Hc] Ht Hst. pose proof (Hc ltac:(by intros E; rewrite E in Ht)).
  rewrite bool_decide_eq_false_2 in Hi by (by intros E; rewrite E in Ht).
  constructor; simpl; auto.
  - split; [by intros []|]. by destruct Hst; subst.
  - split; [|by destruct Hst; subst]. intros Hsome%Hr. by rewrite Hsome in Ht.
  - case_bool_decide; lia.
Qed.

Lemma resume_wf now s : session_wf s → session_wf (resume now s).1.
Proof.
  intros Hwf. unfold resume. case_bool_decide as E; simpl; [|done].
  destruct Hwf as [Hs Hr Hi Ha Hc].
  pose proof (saturating_add_range _ _ Ha
    (proj1 (pause_ms_range now (default now (ss_suspended_at_ms s))))) as Ha'.
  assert (¬ is_Some (ss_resolution s)) as Hr' by (rewrite Hr, E; done).
  rewrite E in Hi. simpl in Hi.
  destruct (_ || _) eqn:Hrec; simpl; repeat case_match; simpl in *; bool_simp;
    constructor; simpl; rewrite ?len_app, ?len_cons, ?len_nil in *; auto; try lia;
    try (split; [by intros []|done]); try (split; [intros Hx; by destruct Hr'|done]);
    try done.
  all: intros _; unfold effective_max_suspend_ms in *; simpl in *; lia.
Qed.

Lemma run_call_wf c s : session_wf s → session_wf (run_call c s).1.
Proof.
  intros H. destruct c; simpl; [by apply suspend_wf|by apply resume_wf| |].
  - unfold cancel. case_match; simpl; [done|]. apply terminate_wf; auto.
  - unfold expire. case_match; simpl; [done|]. apply terminate_wf; auto.
Qed.

(** ** Suspension is invisible to the TTL *)

Lemma pause_ms_forward t1 t2 : 0 ≤ t1 ≤ t2 → t2 ≤ i64_max → pause_ms t2 t1 = t2 - t1.
Proof.
  intros. unfold pause_ms. rewrite i64_wrap_id; [lia|].
  unfold is_i64, i64_max, i64_min in *. lia.
Qed.

Lemma saturating_add_id a b : is_i64 (a + b) → saturating_add a b = a + b.
Proof. apply i64_sat_id. Qed.

(** What a successful resume did. *)
Lemma resume_ok now s s' :
  resume now s = (s', Ok ()) →
  let at_ms := default now (ss_suspended_at_ms s) in
  ss_state s = Suspended ∧ ss_state s' = Open ∧ ss_suspended_at_ms s' = None ∧
  ss_accumulated_suspended_ms s'
    = saturating_add (ss_accumulated_suspended_ms s) (pause_ms now at_ms) ∧
  ss_ttl_expiry s' = saturating_add (ss_ttl_expiry s) (pause_ms now at_ms) ∧
  (ss_suspension_intervals s' = ss_suspension_intervals s ++ [(at_ms, now)] ∨
   ss_semantics_rev s < 2 ∧ ss_suspension_intervals s' = ss_suspension_intervals s).
Proof.
  unfold resume. intros H. simpl in *.
  destruct ((ss_semantics_rev s >=? 2) || _) eqn:E; res_inv; simplify_eq; simpl;
    bool_simp; split_and!; auto.
Qed.

(** A pause is invisible to the TTL. A session suspended at [t1] and
    resumed at [t2] is Open again, and [d] milliseconds after the resume its
    deadline has passed exactly when it had passed [d] milliseconds after the
    suspension; the pause is banked and recorded in full, and neither what
    SessionStart bound, nor the mode's state, nor the dedup set changes. *)
Theorem suspension_preserves_ttl s t1 t2 s1 s2 :
  0 ≤ t1 ≤ t2 → t2 ≤ i64_max →
  i64_min ≤ ss_ttl_expiry s → ss_ttl_expiry s + (t2 - t1) ≤ i64_max →
  0 ≤ ss_accumulated_suspended_ms s →
  ss_accumulated_suspended_ms s + (t2 - t1) ≤ i64_max →
  suspend t1 s = (s1, Ok ()) → resume t2 s1 = (s2, Ok ()) →
  ss_state s2 = Open ∧
  (∀ d, deadline_passed (t2 + d) s2 = deadline_passed (t1 + d) s) ∧
  ss_accumulated_suspended_ms s2 = ss_accumulated_suspended_ms s + (t2 - t1) ∧
  (2 ≤ ss_semantics_rev s →
   ss_suspension_intervals s2 = ss_suspension_intervals s ++ [(t1, t2)]) ∧
  bound_fields s2 = bound_fields s ∧ ss_mode_state s2 = ss_mode_state s ∧
  ss_seen_message_ids s2 = ss_seen_message_ids s.
Proof.
  intros Ht Ht2 Hlo Httl Hacc Hcap Hs Hr.
  pose proof (run_call_bound (CallSuspend t1) _ _ _ Hs) as B1.
  pose proof (run_call_bound (CallResume t2) _ _ _ Hr) as B2.
  destruct (run_call_seen (CallSuspend t1) _ _ _ Hs) as [S1 M1].
  destruct (run_call_seen (CallResume t2) _ _ _ Hr) as [S2 M2].
  apply resume_ok in Hr as (_ & Hst & _ & Hac & Htt & Hiv).
  rewrite B2, S2, M2, B1, S1, M1.
  unfold suspend in Hs. res_inv. simplify_eq. bool_simp. simpl in *.
  rewrite pause_ms_forward in Hac, Htt by done.
  rewrite saturating_add_id in Hac, Htt by (unfold is_i64, i64_min in *; lia).
  split_and!; try done.
  - intros d. unfold deadline_passed. rewrite Hst, Htt.
    match goal with E : ss_state s = _ |- _ => rewrite E end. lia.
  - intros Hrev. destruct Hiv as [?|[? _]]; [done|lia].
Qed.

(** The suspension caps decide the fate of a resume, and the sweeper
    agrees with it. Resuming a Suspended session succeeds exactly when its
    suspension cap has not been exceeded by then and (from semantics revision
    2 on) it has cycles left; otherwise the session is Expired and the call
    fails with [TtlExpired]. *)
Theorem resume_obeys_caps s now a :
  ss_state s = Suspended → ss_suspended_at_ms s = Some a →
  let in_cap := negb (deadline_passed now s)
    && ((ss_semantics_rev s <? 2)
        || (len (ss_suspension_intervals s) <? MAX_SUSPENSION_CYCLES)) in
  (resume now s).2 = (if in_cap then Ok () else Err TtlExpired) ∧
  ss_state (resume now s).1 = (if in_cap then Open else Expired).
Proof.
  intros Hst Ha. unfold deadline_passed, resume, suspend_cap_exceeded.
  rewrite Hst, Ha. simpl.
  rewrite (Z.ltb_antisym 2), <- Z.geb_leb. unfold effective_max_suspend_ms.
  destruct (ss_semantics_rev s >=? 2) eqn:E1; simpl.
  - rewrite E1, len_app, len_cons, len_nil. simpl.
    repeat case_match; simpl in *; bool_simp; split; (done || naive_solver lia).
  - destruct (len (ss_suspension_intervals s) <? _); simpl; rewrite E1; simpl;
      repeat case_match; simpl in *; bool_simp; split; (done || naive_solver lia).
Qed.

Lemma suspension_preserves_ttl_witness :
  let s := set_ttl_expiry 60000 (session_builder "s" "m" "alice") in
  let s2 := (resume 5000 (suspend 1000 s).1).1 in
  deadline_passed (5000 + 59001) s2 = true ∧ deadline_passed (5000 + 59000) s2 = false.
Proof.
  intros s s2.
  destruct (suspension_preserves_ttl s 1000 5000 (suspend 1000 s).1 s2)
    as (_ & H & _); [lia|done|done|done|done|done|by vm_compute|by vm_compute|].
  by rewrite !H.
Defined.

Lemma resume_obeys_caps_witness :
  let s := (suspend 1000 (set_max_suspend_ms 100 (session_builder "s" "m" "alice"))).1 in
  (resume 1101 s).2 = Err TtlExpired ∧ (resume 1100 s).2 = Ok ().
Proof.
  intros s. split.
  - destruct (resume_obeys_caps s 1101 1000) as [H _]; done.
  - destruct (resume_obeys_caps s 1100 1000) as [H _]; done.
Defined.
