(* ===== verification/Deadline.v ===== *)
(** * Deadlines in unsuspended time (Session::unsuspended_deadline)

    The walk over the recorded suspension intervals that dates a synthetic
    implicit accept, with its clamps and its saturating arithmetic; the time
    outside the pauses of a window, as a specification; and the theorem that
    connects them: whatever was recorded, the walk never returns an instant
    later than the least one with enough unsuspended time, and it returns that
    one when the pauses were recorded in the order they began. *)

From stdpp Require Import prelude gmap strings sorting.
From S2P Require Import Prelude Floats Extern Error Policy Wire SessionData Session.
Open Scope Z_scope.

(** The loop of [unsuspended_deadline], with its early return. *)
Fixpoint deadline_walk (intervals : list (Z * Z)) (cur remaining : Z) : Z :=
  match intervals with
  | [] => saturating_add cur remaining
  | (s, e) :: rest =>
      let run := Z.max (saturating_sub s cur) 0 in
      if run >=? remaining then saturating_add cur remaining
      else deadline_walk rest (Z.max (Z.max e s) cur) (saturating_sub remaining run)
  end.

Definition unsuspended_deadline (self : Session) (from_ms duration_ms : Z) : Z :=
  deadline_walk
    (List.filter (λ '(s, _), s >=? from_ms) (ss_suspension_intervals self))
    from_ms duration_ms.

(** ** Specification *)

(** The part of the pauses [l] that lies before [T]. *)
Fixpoint suspended_before (l : list (Z * Z)) (T : Z) : Z :=
  match l with
  | [] => 0
  | (s, e) :: rest => (Z.min e T - Z.min s T) + suspended_before rest T
  end.

(** The milliseconds of [a, T) that lie in no pause: a pair covers the instants
    from its first to before its second component, none when it is backwards. *)
Definition paused (l : list (Z * Z)) (t : Z) : bool :=
  existsb (λ '(s, e), (s <=? t) && (t <? e)) l.
Definition unsuspended_time (l : list (Z * Z)) (a T : Z) : Z :=
  len (filter (λ t, paused l t = false) (seqZ a (T - a))).

(** Total recorded width, a backwards pair counting as zero. *)
Fixpoint total_width (l : list (Z * Z)) : Z :=
  match l with
  | [] => 0
  | (s, e) :: rest => Z.max (e - s) 0 + total_width rest
  end.

(** An ordered timeline: the pauses follow each other, from [a] on. *)
Fixpoint ordered_from (a : Z) (l : list (Z * Z)) : Prop :=
  match l with
  | [] => True
  | (s, e) :: rest => a ≤ s ∧ s ≤ e ∧ ordered_from e rest
  end.

Definition nonneg_i64 (z : Z) : Prop := 0 ≤ z ≤ i64_max.

(** The walk without the saturation of the last addition. *)
Fixpoint ideal_walk (l : list (Z * Z)) (cur remaining : Z) : Z :=
  match l with
  | [] => cur + remaining
  | (s, e) :: rest =>
      let run := Z.max (s - cur) 0 in
      if run >=? remaining then cur + remaining
      else ideal_walk rest (Z.max (Z.max e s) cur) (remaining - run)
  end.

Lemma deadline_walk_ideal l cur rem :
  Forall (λ p, nonneg_i64 p.1 ∧ is_i64 p.2) l → nonneg_i64 cur → nonneg_i64 rem →
  deadline_walk l cur rem = i64_sat (ideal_walk l cur rem).
Proof.
  intros Hl. revert cur rem. induction Hl as [|[s e] l [Hs He] Hl IH]; intros cur rem Hc Hr;
    simpl in *; [done|].
  unfold saturating_sub. unfold nonneg_i64 in *.
  rewrite (i64_sat_id (s - cur)) by (unfold is_i64, i64_max, i64_min in *; lia).
  destruct (_ >=? rem) eqn:E; [done|]. bool_simp.
  rewrite i64_sat_id by (unfold is_i64, i64_max, i64_min in *; lia).
  unfold is_i64 in *. apply IH; lia.
Qed.

Lemma total_width_nonneg l : 0 ≤ total_width l.
Proof. induction l as [|[s e] l IH]; simpl; lia. Qed.

Lemma ideal_walk_lower l cur rem : cur + rem ≤ ideal_walk l cur rem.
Proof.
  revert cur rem. induction l as [|[s e] l IH]; intros cur rem; simpl; [lia|].
  destruct (_ >=? rem) eqn:E; [lia|]. etrans; [|apply IH]. lia.
Qed.

Lemma ideal_walk_upper l cur rem : ideal_walk l cur rem ≤ cur + rem + total_width l.
Proof.
  revert cur rem. induction l as [|[s e] l IH]; intros cur rem; simpl; [lia|].
  pose proof (total_width_nonneg l).
  destruct (_ >=? rem) eqn:E; [lia|]. etrans; [apply IH|]. lia.
Qed.

Lemma suspended_before_bounds a l T :
  ordered_from a l → 0 ≤ suspended_before l T ≤ Z.max 0 (T - a).
Proof.
  revert a. induction l as [|[s e] l IH]; intros a H; simpl in *; [lia|].
  destruct H as (? & ? & H). apply IH in H. lia.
Qed.

Lemma ideal_walk_least l cur rem T :
  ordered_from cur l → 0 ≤ rem → cur ≤ T →
  ideal_walk l cur rem ≤ T ↔ rem ≤ T - cur - suspended_before l T.
Proof.
  revert cur rem. induction l as [|[s e] l IH]; intros cur rem H Hr HT; simpl in *; [lia|].
  destruct H as (? & ? & H). pose proof (suspended_before_bounds e l T H).
  rewrite (Z.max_l (s - cur)) by lia. destruct (_ >=? rem) eqn:E; bool_simp; [lia|].
  rewrite (Z.max_l e s), (Z.max_l e cur) by lia.
  destruct (decide (e ≤ T)) as [He|He].
  - rewrite IH by (done || lia). lia.
  - pose proof (ideal_walk_lower l e (rem - (s - cur))). lia.
Qed.

(** *** Unsuspended time *)
Lemma paused_cons s e l t : paused ((s, e) :: l) t = (s <=? t) && (t <? e) || paused l t.
Proof. done. Qed.
Lemma unsuspended_time_split l a b c : a ≤ b → b ≤ c →
  unsuspended_time l a c = unsuspended_time l a b + unsuspended_time l b c.
Proof.
  intros Hab Hbc. unfold unsuspended_time, len.
  replace (c - a) with ((b - a) + (c - b)) by lia.
  rewrite seqZ_app, filter_app, length_app by lia.
  replace (a + (b - a)) with b by lia. lia.
Qed.
Lemma unsuspended_time_range l a b : 0 ≤ unsuspended_time l a b ≤ Z.max 0 (b - a).
Proof.
  unfold unsuspended_time, len. pose proof (length_filter (λ t, paused l t = false) (seqZ a (b - a))).
  rewrite length_seqZ in *. lia.
Qed.

Lemma window_instants a b : Forall (λ t, a ≤ t < b) (seqZ a (b - a)).
Proof. apply Forall_forall. intros t Ht%elem_of_seqZ. lia. Qed.

(** It depends on what is paused within the window only. *)
Lemma unsuspended_time_le l l' a b :
  (∀ t, a ≤ t < b → paused l t = false → paused l' t = false) →
  unsuspended_time l a b ≤ unsuspended_time l' a b.
Proof.
  intros H. unfold unsuspended_time, len.
  induction (window_instants a b) as [|t ts Ht _ IH]; [done|]. rewrite !filter_cons.
  repeat case_decide; cbn; try lia. exfalso. auto.
Qed.
Lemma unsuspended_time_none l a b :
  (∀ t, a ≤ t < b → paused l t = true) → unsuspended_time l a b = 0.
Proof.
  intros H. unfold unsuspended_time, len.
  induction (window_instants a b) as [|t ts Ht _ IH]; [done|]. rewrite filter_cons.
  case_decide; [|done]. rewrite H in *; done.
Qed.
Lemma unsuspended_time_all l a b : a ≤ b →
  (∀ t, a ≤ t < b → paused l t = false) → unsuspended_time l a b = b - a.
Proof.
  intros Hab H. transitivity (len (seqZ a (b - a)));
    [|unfold len; rewrite length_seqZ; lia].
  unfold unsuspended_time, len.
  induction (window_instants a b) as [|t ts Ht _ IH]; [done|]. rewrite filter_cons.
  rewrite decide_True by auto. cbn. lia.
Qed.

(** The window split at a pause: nothing of it elapses in the pause. *)
Lemma unsuspended_time_pause s e l cur T :
  let next := Z.max (Z.max e s) cur in
  cur ≤ T →
  unsuspended_time ((s, e) :: l) cur T
  = unsuspended_time ((s, e) :: l) cur (Z.min (Z.max s cur) T)
    + unsuspended_time l (Z.min next T) T.
Proof.
  intros next HT.
  rewrite (unsuspended_time_split _ cur (Z.min (Z.max s cur) T) T) by lia.
  rewrite (unsuspended_time_split _ (Z.min (Z.max s cur) T) (Z.min next T) T) by lia.
  rewrite (unsuspended_time_none _ (Z.min (Z.max s cur) T)).
  - f_equal. apply Z.le_antisymm; apply unsuspended_time_le; intros t Ht;
      rewrite paused_cons, orb_false_iff; [by intros [_ ?]|]. split; [|done]. lia.
  - intros t Ht. rewrite paused_cons. apply orb_true_iff. left. lia.
Qed.

(** No pause is counted for more than it covers. *)
Lemma ideal_walk_under l cur rem T :
  0 ≤ rem → cur ≤ T → rem ≤ unsuspended_time l cur T → ideal_walk l cur rem ≤ T.
Proof.
  revert cur rem. induction l as [|[s e] l IH]; intros cur rem Hr HT Hu; simpl.
  { pose proof (unsuspended_time_range [] cur T). lia. }
  pose proof (unsuspended_time_range ((s, e) :: l) cur T).
  destruct (_ >=? rem) eqn:E; bool_simp; [lia|].
  rewrite unsuspended_time_pause in Hu by done.
  pose proof (unsuspended_time_range ((s, e) :: l) cur (Z.min (Z.max s cur) T)).
  pose proof (unsuspended_time_range l (Z.min (Z.max (Z.max e s) cur) T) T).
  destruct (decide (Z.max (Z.max e s) cur ≤ T)); [|lia].
  rewrite (Z.min_l (Z.max (Z.max e s) cur)) in Hu by lia. apply IH; lia.
Qed.

(** Pauses in the order they began are counted in full. *)
Lemma ideal_walk_sorted l cur rem T :
  StronglySorted Z.le l.*1 → 0 ≤ rem → cur ≤ T →
  ideal_walk l cur rem ≤ T → rem ≤ unsuspended_time l cur T.
Proof.
  revert cur rem. induction l as [|[s e] l IH]; intros cur rem Hs Hr HT; simpl.
  { intros. rewrite unsuspended_time_all by (done || lia). lia. }
  change (((s, e) :: l).*1) with (s :: l.*1) in Hs.
  apply StronglySorted_inv in Hs as [Hs Hall]. rewrite Forall_fmap in Hall.
  assert (∀ t, t < s → paused ((s, e) :: l) t = false) as Hbefore.
  { intros t Ht. rewrite paused_cons. replace (s <=? t) with false by lia. cbn.
    apply not_true_iff_false. intros ([s' e'] & Hin & Hp)%existsb_exists.
    rewrite Forall_forall in Hall. apply list_elem_of_In, Hall in Hin. cbn in *. lia. }
  destruct (_ >=? rem) eqn:E; bool_simp; intros Hw.
  - rewrite (unsuspended_time_split _ cur (cur + rem) T) by lia.
    rewrite (unsuspended_time_all _ cur) by (lia || intros; apply Hbefore; lia).
    pose proof (unsuspended_time_range ((s, e) :: l) (cur + rem) T). lia.
  - pose proof (ideal_walk_lower l (Z.max (Z.max e s) cur) (rem - Z.max (s - cur) 0)).
    rewrite unsuspended_time_pause, !Z.min_l by lia. apply IH in Hw; [|done|lia..].
    rewrite (unsuspended_time_all _ cur (Z.max s cur)) by (lia || intros; apply Hbefore; lia).
    lia.
Qed.

(** The pauses the walk reads. *)
Definition pauses_since (self : Session) (from_ms : Z) : list (Z * Z) :=
  List.filter (λ '(s, _), s >=? from_ms) (ss_suspension_intervals self).

Definition recorded_ok (self : Session) : Prop :=
  Forall (λ p, is_i64 p.1 ∧ is_i64 p.2) (ss_suspension_intervals self).

Lemma unsuspended_deadline_ideal self from dur :
  recorded_ok self → nonneg_i64 from → nonneg_i64 dur →
  unsuspended_deadline self from dur
  = i64_sat (ideal_walk (pauses_since self from) from dur).
Proof.
  intros H Hf Hd. apply deadline_walk_ideal; [|done|done].
  unfold recorded_ok in H. rewrite !Forall_forall in *. intros [s e] Hp.
  apply list_elem_of_In, List.filter_In in Hp as [Hp%list_elem_of_In Hs].
  specialize (H _ Hp). cbn in *. unfold nonneg_i64, is_i64 in *. lia.
Qed.

(** Whatever was recorded, the deadline is never before the nominal one and
    never later than the nominal one plus the recorded pauses. *)
Lemma unsuspended_deadline_bounds self from dur :
  recorded_ok self → nonneg_i64 from → nonneg_i64 dur →
  i64_sat (from + dur) ≤ unsuspended_deadline self from dur
  ≤ i64_sat (from + dur + total_width (pauses_since self from)).
Proof.
  intros H Hf Hd. rewrite unsuspended_deadline_ideal by done.
  split; apply i64_sat_mono; [apply ideal_walk_lower|apply ideal_walk_upper].
Qed.


