(* ===== verification/SessionStart.v ===== *)
(** * SessionStart validation (crates/macp-core/src/session.rs)

    Parsing of the SessionStart payload, the canonical binding contract with
    its roster rule, and the acceptance policy for session ids. *)

From Stdlib Require Import Ascii.
From stdpp Require Import prelude gmap strings.
From S2P Require Import Prelude RustStr Floats Extern Error Policy Wire SessionData.
Open Scope Z_scope.

Definition requires_strict_session_start (mode : string) : bool :=
  str_elem mode
    ["macp.mode.decision.v1"; "macp.mode.proposal.v1"; "macp.mode.task.v1";
     "macp.mode.handoff.v1"; "macp.mode.quorum.v1"; "ext.multi_round.v1"].

Definition parse_session_start_payload `{Message SessionStartPayload} (payload : bytes)
    : result MacpError SessionStartPayload :=
  if is_empty payload then Err InvalidPayload
  else ok_or (decode payload) InvalidPayload.

Definition extract_ttl_ms (payload : SessionStartPayload) : result MacpError Z :=
  if negb ((1 <=? sp_ttl_ms payload) && (sp_ttl_ms payload <=? MAX_TTL_MS))
  then Err InvalidTtl
  else Ok (sp_ttl_ms payload).

Definition allows_empty_participants (mode : string) : bool :=
  mode == "macp.mode.decision.v1".

Definition MAX_PARTICIPANTS : Z := 1000.

(** The loop over the roster: [true] when it runs to its end. *)
Fixpoint participants_ok (seen : gset string) (participants : list string) : bool :=
  match participants with
  | [] => true
  | p :: rest =>
      let participant := trim p in
      if str_is_empty participant || bool_decide (participant ∈ seen) then false
      else participants_ok ({[participant]} ∪ seen) rest
  end.

Definition validate_canonical_start (payload : SessionStartPayload)
    (allow_empty_participants : bool) : result MacpError unit :=
  _ ← extract_ttl_ms payload;
  if blank (sp_mode_version payload) || blank (sp_configuration_version payload)
  then Err InvalidPayload
  else if is_empty (sp_participants payload) && negb allow_empty_participants
  then Err InvalidPayload
  else if len (sp_participants payload) >? MAX_PARTICIPANTS
  then Err InvalidPayload
  else if negb (participants_ok ∅ (sp_participants payload))
  then Err InvalidPayload
  else if sp_max_suspend_ms payload <? 0
  then Err InvalidPayload
  else Ok ().

Definition validate_canonical_session_start_payload (payload : SessionStartPayload)
    : result MacpError unit :=
  validate_canonical_start payload false.

Definition validate_canonical_session_start_payload_for_mode (mode : string)
    (payload : SessionStartPayload) : result MacpError unit :=
  validate_canonical_start payload (allows_empty_participants mode).

Definition validate_strict_session_start_payload (mode : string)
    (payload : SessionStartPayload) : result MacpError unit :=
  if negb (requires_strict_session_start mode) then Ok ()
  else validate_canonical_session_start_payload_for_mode mode payload.

Definition validate_session_id_for_acceptance `{Uuids} (session_id : string)
    : result MacpError unit :=
  if str_is_empty session_id || (str_len session_id >? MAX_SESSION_ID_BYTES)
  then Err InvalidSessionId
  else
    let base64url :=
      if (str_len session_id >=? 22)
         && str_all (λ c, is_ascii_alphanumeric c
                          || (c == "_"%char) || (c == "-"%char)) session_id
      then Ok () else Err InvalidSessionId in
    if (str_len session_id =? 36) && str_any (λ c, c == "-"%char) session_id then
      match parse_str session_id with
      | Some parsed =>
          if as_hyphenated parsed == session_id then
            match get_version parsed with
            | Some VRandom | Some VSortRand => Ok ()
            | _ => Err InvalidSessionId
            end
          else Err InvalidSessionId
      | None => base64url
      end
    else base64url.

(** ** The roster loop accepts exactly the distinct, non-blank rosters *)
Lemma participants_ok_spec seen l :
  participants_ok seen l = true ↔
  NoDup (trim <$> l) ∧ (∀ p, p ∈ l → blank p = false) ∧
  (∀ p, p ∈ l → trim p ∉ seen).
Proof.
  revert seen. induction l as [|p l IH]; intros seen; simpl.
  - split; [|done]. intros _. split_and!; [constructor|set_solver..].
  - unfold blank in *. destruct (str_is_empty (trim p)) eqn:E1; simpl.
    + split; [done|]. intros (_ & H & _). rewrite H in E1; [done|set_solver].
    + case_bool_decide as E2; [split; [done|intros (_ & _ & H)]; set_solver|].
      rewrite IH, NoDup_cons, list_elem_of_fmap. split.
      * intros (H1 & H2 & H3). split_and!; set_solver.
      * intros ((Hn & H1) & H2 & H3). split_and!; [done|set_solver|].
        intros q Hq. rewrite not_elem_of_union, not_elem_of_singleton.
        split; [|set_solver]. intros Heq. apply Hn. by exists q.
Qed.

(** The canonical SessionStart contract. The payload of a standards-track
    mode is accepted exactly when its TTL is between 1 ms and 24 h, both
    version fields are non-blank, its roster has at most 1000 names that are
    non-blank and pairwise distinct after trimming, the roster is non-empty
    unless the mode is Decision, and the suspension cap is not negative. *)
Theorem strict_start_contract mode p :
  requires_strict_session_start mode = true →
  validate_strict_session_start_payload mode p = Ok () ↔
  1 ≤ sp_ttl_ms p ≤ MAX_TTL_MS ∧
  blank (sp_mode_version p) = false ∧ blank (sp_configuration_version p) = false ∧
  (sp_participants p = [] → mode = "macp.mode.decision.v1") ∧
  len (sp_participants p) ≤ MAX_PARTICIPANTS ∧
  NoDup (trim <$> sp_participants p) ∧
  (∀ q, q ∈ sp_participants p → blank q = false) ∧
  0 ≤ sp_max_suspend_ms p.
Proof.
  intros Hm. unfold validate_strict_session_start_payload. rewrite Hm. simpl.
  unfold validate_canonical_session_start_payload_for_mode, validate_canonical_start,
    extract_ttl_ms, allows_empty_participants.
  split.
  - intros H. res_inv. bool_simp.
    match goal with E : participants_ok _ _ = true |- _ =>
      apply participants_ok_spec in E as (? & ? & _) end.
    match goal with E : is_empty _ && _ = false |- _ =>
      rewrite andb_false_iff in E; destruct E end; bool_simp; split_and!; try done; lia.
  - intros (Ht & Hv & Hc & He & Hl & Hd & Hb & Hs).
    rewrite (proj2 (Z.leb_le _ _)), (proj2 (Z.leb_le (sp_ttl_ms p) _)) by lia. simpl.
    rewrite Hv, Hc. simpl.
    assert (is_empty (sp_participants p) && (mode != "macp.mode.decision.v1") = false)
      as -> by (destruct (sp_participants p); simpl; [rewrite bool_decide_eq_true_2; auto|done]).
    rewrite (proj2 (gtb_false _ _)), (proj2 (participants_ok_spec ∅ _)),
      (proj2 (Z.ltb_ge _ _)); done || set_solver.
Qed.

Definition demo_start : SessionStartPayload :=
  MkSessionStartPayload "ship?" ["alice"; "bob"] "1.0" "cfg" "" 60000 "" ∅ [] 0.

Lemma strict_start_contract_witness :
  validate_strict_session_start_payload "macp.mode.task.v1" demo_start = Ok () ∧
  NoDup (trim <$> sp_participants demo_start).
Proof.
  split; [by vm_compute|].
  apply (strict_start_contract "macp.mode.task.v1"); by vm_compute.
Defined.

(** Session ids. An accepted id has 22 to 128 bytes, and one UUID has at
    most one accepted hyphenated spelling: two accepted 36-byte ids with a
    hyphen that parse to the same UUID are the same string, the canonical
    lower-case form of a version 4 or version 7 UUID. *)
Theorem session_id_unique `{Uuids} id1 id2 u :
  (∀ v : uuid, str_len (as_hyphenated v) = 36) →
  validate_session_id_for_acceptance id1 = Ok () →
  validate_session_id_for_acceptance id2 = Ok () →
  22 ≤ str_len id1 ≤ MAX_SESSION_ID_BYTES ∧
  (str_len id1 = 36 → str_len id2 = 36 →
   str_any (λ c, c == "-"%char) id1 = true → str_any (λ c, c == "-"%char) id2 = true →
   parse_str id1 = Some u → parse_str id2 = Some u →
   id1 = id2 ∧ id1 = as_hyphenated u ∧
   (get_version u = Some VRandom ∨ get_version u = Some VSortRand)).
Proof.
  intros Hlen H1 H2. unfold validate_session_id_for_acceptance in *.
  split.
  - clear H2. res_inv; bool_simp; subst; rewrite ?Hlen; lia.
  - intros L1 L2 A1 A2 P1 P2. rewrite L1, A1, P1 in H1. rewrite L2, A2, P2 in H2.
    simpl in *. res_inv; bool_simp; subst; auto.
Qed.

(** A UUID library that knows one UUID, in two spellings. *)
Definition demo_uuids : Uuids := {|
  uuid := unit;
  parse_str s := if str_elem s ["0190a5e0-0000-7000-8000-00000000000a";
                                "0190A5E0-0000-7000-8000-00000000000A"]
                 then Some () else None;
  as_hyphenated _ := "0190a5e0-0000-7000-8000-00000000000a";
  get_version _ := Some VSortRand |}.

Lemma session_id_unique_witness :
  let id := "0190a5e0-0000-7000-8000-00000000000a" in
  id = as_hyphenated (Uuids:=demo_uuids) () ∧
  validate_session_id_for_acceptance (H:=demo_uuids)
    "0190A5E0-0000-7000-8000-00000000000A" = Err InvalidSessionId.
Proof.
  intros id. split; [|by vm_compute].
  apply (session_id_unique (H:=demo_uuids) id id ()); done.
Defined.
