(* ===== verification/CommitmentHash.v ===== *)
(** * The canonical commitment hash (crates/macp-core/src/commitment_hash.rs)

    The projection of a [CommitmentPayload] to canonical JSON (RFC 8785), the
    domain-separated SHA-256 preimage, the canonical textual form, and
    verification against wire bytes with its scan for unknown fields. SHA-256
    and the protobuf decoder are parameters. *)

From Stdlib Require Import Ascii Strings.Byte.
From stdpp Require Import prelude gmap strings.
From S2P Require Import Prelude RustStr Floats Extern Wire.
Open Scope Z_scope.

Definition bytes_of (s : string) : bytes := String.list_byte_of_string s.
Definition byte_val (b : Byte.byte) : Z := Z.of_N (Byte.to_N b).

(** ** Canonical JSON *)
Definition quote : string := String "034"%char "".
Definition backslash : string := String "092"%char "".

Definition hex_digit (n : Z) : ascii :=
  ascii_of_N (Z.to_N (if n <? 10 then 48 + n else 87 + n)).
(** [{:02x}] of a value below 256. *)
Definition hex2 (n : Z) : string :=
  String (hex_digit (n / 16)) (String (hex_digit (n mod 16)) "").

(** The arms of the [match] in [push_json_string]; what is below 0x20 and has
    no short form is written with [{:04x}]. *)
Definition escape_char (c : ascii) : string :=
  let b := byte_of c in
  if b =? 34 then backslash +:+ quote
  else if b =? 92 then backslash +:+ backslash
  else if b =? 8 then backslash +:+ "b"
  else if b =? 9 then backslash +:+ "t"
  else if b =? 10 then backslash +:+ "n"
  else if b =? 12 then backslash +:+ "f"
  else if b =? 13 then backslash +:+ "r"
  else if b <? 32 then backslash +:+ "u00" +:+ hex2 b
  else String c "".

Fixpoint escape (s : string) : string :=
  match s with
  | "" => ""
  | String c s' => escape_char c +:+ escape s'
  end.

Definition push_json_string (out value : string) : string :=
  out +:+ quote +:+ escape value +:+ quote.

(** [out.push_str] of a literal member name, with its punctuation. *)
Definition push_key (out before name : string) : string :=
  out +:+ before +:+ quote +:+ name +:+ quote +:+ ":".

Definition canonicalize (payload : CommitmentPayload) : string :=
  let out := "{" in
  let out := push_json_string (push_key out "" "action") (cp_action payload) in
  let out := push_json_string (push_key out "," "authority_scope")
               (cp_authority_scope payload) in
  let out := push_json_string (push_key out "," "commitment_id")
               (cp_commitment_id payload) in
  let out := push_json_string (push_key out "," "configuration_version")
               (cp_configuration_version payload) in
  let out := push_json_string (push_key out "," "mode_version")
               (cp_mode_version payload) in
  let out := push_key out "," "outcome_positive" in
  let out := out +:+ (if cp_outcome_positive payload then "true" else "false") in
  let out := push_json_string (push_key out "," "policy_version")
               (cp_policy_version payload) in
  let out := push_json_string (push_key out "," "reason") (cp_reason payload) in
  let out :=
    match cp_supersedes payload with
    | Some sup =>
        let out := push_key out "," "supersedes" +:+ "{" in
        let out := push_json_string (push_key out "" "commitment_hash")
                     (ref_commitment_hash sup) in
        let out := push_json_string (push_key out "," "session_id")
                     (ref_session_id sup) in
        out +:+ "}"
    | None => out
    end in
  out +:+ "}".

(** ** The hash *)
Definition LABEL : string := "macp-commitment-hash/1".

Definition preimage (payload : CommitmentPayload) : bytes :=
  bytes_of LABEL ++ bytes_of ":" ++ bytes_of (canonicalize payload).

Fixpoint hex_of (digest : bytes) : string :=
  match digest with
  | [] => ""
  | b :: rest => hex2 (byte_val b) +:+ hex_of rest
  end.

Definition commitment_hash `{Sha256} (payload : CommitmentPayload) : string :=
  "sha256:" +:+ hex_of (sha256_digest (preimage payload)).

Definition is_lower_hex (c : ascii) : bool :=
  is_ascii_digit c || ((97 <=? byte_of c) && (byte_of c <=? 102)).

Definition is_canonical_commitment_hash (s : string) : bool :=
  match strip_prefix "sha256:" s with
  | Some rest => (str_len rest =? 64) && str_all is_lower_hex rest
  | None => false
  end.

(** ** Verification against the wire encoding *)
Inductive CannotVerify :=
| UnknownField (tag : Z) (in_supersedes : bool)
| Malformed (detail : text).
Inductive VerifyOutcome :=
| Match
| Mismatch (computed : string)
| CannotVerifyOutcome (reason : CannotVerify).

Definition is_match (o : VerifyOutcome) : bool :=
  match o with Match => true | _ => false end.

(** [read_varint]: at most ten bytes; [<<] on [u64] drops the bits it shifts
    out. The rest of the buffer is returned beside the value. *)
Fixpoint read_varint_from (fuel : nat) (i value : Z) (buf : bytes) : option (Z * bytes) :=
  match fuel, buf with
  | S fuel', b :: rest =>
      let value := Z.lor value (u64_wrap (Z.shiftl (Z.land (byte_val b) 0x7f) (7 * i))) in
      if Z.land (byte_val b) 0x80 =? 0 then Some (value, rest)
      else read_varint_from fuel' (i + 1) value rest
  | _, _ => None
  end.
Definition read_varint (buf : bytes) : option (Z * bytes) := read_varint_from 10 0 0 buf.

Definition malformed {A} (detail : string) : result CannotVerify A :=
  Err (Malformed [Lit detail]).

Definition PAYLOAD_TAGS : Z * Z := (1, 9).
Definition SUPERSEDES_TAG : Z := 9.
Definition COMMITMENT_REF_TAGS : Z * Z := (1, 2).

(** One turn of the [while] loop of [scan_known_fields]: the buffer that is
    left. [nested] is the recursive call on the body of [supersedes]. *)
Definition scan_field (known : Z * Z) (in_supersedes : bool)
    (nested : bytes → result CannotVerify unit) (buf : bytes)
    : result CannotVerify bytes :=
  '(key, buf) ← ok_or (read_varint buf) (Malformed [Lit "truncated field key"]);
  let wire_type := Z.land key 0x7 in
  let tag := Z.shiftr key 3 in
  if tag >? u32_max then malformed "field number overflows u32"
  else if tag =? 0 then malformed "field number 0"
  else if negb ((known.1 <=? tag) && (tag <=? known.2))
  then Err (UnknownField tag in_supersedes)
  else if wire_type =? 0 then
    '(_, buf) ← ok_or (read_varint buf) (Malformed [Lit "truncated varint"]);
    Ok buf
  else if wire_type =? 1 then
    if len buf <? 8 then malformed "truncated fixed64" else Ok (drop 8 buf)
  else if wire_type =? 5 then
    if len buf <? 4 then malformed "truncated fixed32" else Ok (drop 4 buf)
  else if wire_type =? 2 then
    '(n, buf) ← ok_or (read_varint buf) (Malformed [Lit "truncated length"]);
    if n >? len buf then malformed "length-delimited field runs past the end"
    else
      let body := take (Z.to_nat n) buf in
      let rest := drop (Z.to_nat n) buf in
      _ ← (if negb in_supersedes && (tag =? SUPERSEDES_TAG) then nested body else Ok ());
      Ok rest
  else malformed "unsupported wire type (group or reserved)".

(** The loop; every turn consumes at least the byte of a key, so the length
    of the buffer is fuel enough ([scan_loop_fuel]). *)
Fixpoint scan_loop (fuel : nat) (known : Z * Z) (in_supersedes : bool)
    (nested : bytes → result CannotVerify unit) (buf : bytes)
    : result CannotVerify unit :=
  if is_empty buf then Ok ()
  else
    match fuel with
    | O => malformed "fuel"
    | S fuel' =>
        buf ← scan_field known in_supersedes nested buf;
        scan_loop fuel' known in_supersedes nested buf
    end.

(** The two instances of [scan_known_fields]: inside [supersedes], where it
    does not recurse, and at the top level. *)
Definition scan_commitment_ref (buf : bytes) : result CannotVerify unit :=
  scan_loop (length buf) COMMITMENT_REF_TAGS true (λ _, Ok ()) buf.
Definition scan_known_fields (buf : bytes) : result CannotVerify unit :=
  scan_loop (length buf) PAYLOAD_TAGS false scan_commitment_ref buf.

Definition commitment_hash_of_wire `{Sha256, Message CommitmentPayload} (wire : bytes)
    : result CannotVerify string :=
  _ ← scan_known_fields wire;
  payload ← ok_or (decode wire) (Malformed [FDebug "prost::DecodeError"]);
  Ok (commitment_hash payload).

Definition verify_commitment_hash `{Sha256, Message CommitmentPayload} (wire : bytes)
    (claimed : string) : VerifyOutcome :=
  match commitment_hash_of_wire wire with
  | Err reason => CannotVerifyOutcome reason
  | Ok computed =>
      if is_canonical_commitment_hash claimed && (claimed == computed) then Match
      else Mismatch computed
  end.

(** ** Canonical JSON is injective *)

(** Reads back one character of an escaped string; [None] at its closing
    quote. *)
Definition unescape1 (s : string) : option (ascii * string) :=
  match s with
  | String c rest =>
      if byte_of c =? 34 then None
      else if negb (byte_of c =? 92) then Some (c, rest)
      else match rest with
           | String d rest =>
               let e := byte_of d in
               if e =? 34 then Some (d, rest)
               else if e =? 92 then Some (d, rest)
               else if e =? 98 then Some ("008"%char, rest)
               else if e =? 116 then Some ("009"%char, rest)
               else if e =? 110 then Some ("010"%char, rest)
               else if e =? 102 then Some ("012"%char, rest)
               else if e =? 114 then Some ("013"%char, rest)
               else match rest with
                    | String _ (String _ (String h1 (String h2 rest))) =>
                        let v h := if byte_of h <? 58 then byte_of h - 48
                                   else byte_of h - 87 in
                        Some (ascii_of_N (Z.to_N (16 * v h1 + v h2)), rest)
                    | _ => None
                    end
           | "" => None
           end
  | "" => None
  end.

Lemma unescape1_escape c x : unescape1 (escape_char c +:+ x) = Some (c, x).
Proof. destruct c as [[] [] [] [] [] [] [] []]; reflexivity. Qed.

Lemma unescape1_quote x : unescape1 (quote +:+ x) = None.
Proof. reflexivity. Qed.

Lemma escape_cancel s s' x x' :
  escape s +:+ quote +:+ x = escape s' +:+ quote +:+ x' → s = s' ∧ x = x'.
Proof.
  revert s'. induction s as [|c s IH]; intros [|c' s'] H; simpl in H;
    rewrite ?str_app_assoc, ?str_app_nil in H.
  - split; [done|]. by apply str_app_inj in H.
  - apply (f_equal unescape1) in H. by rewrite unescape1_escape in H.
  - apply (f_equal unescape1) in H. by rewrite unescape1_escape in H.
  - apply (f_equal unescape1) in H. rewrite !unescape1_escape in H.
    injection H as -> H. apply IH in H as [-> ->]. done.
Qed.

(** Peels the next literal or string off both sides of an equation between
    two right-nested documents. *)
Ltac peel H :=
  first
    [ apply escape_cancel in H; destruct H as [-> H]
    | apply str_app_inj in H ].

Lemma canonicalize_inj p q : canonicalize p = canonicalize q → p = q.
Proof.
  destruct p as [pi pa ps pr pm pp pc po pu], q as [qi qa qs qr qm qp qc qo qu].
  unfold canonicalize, push_json_string, push_key. simpl. intros H.
  destruct pu as [[]|], qu as [[]|]; simpl in H;
    rewrite !str_app_assoc in H;
    repeat peel H;
    (assert (po = qo) as -> by (by destruct po, qo));
    repeat peel H; try done.
Qed.

(** ** Hexadecimal *)
Definition unhex2 (s : string) : option (Byte.byte * string) :=
  match s with
  | String h1 (String h2 rest) =>
      let v h := if byte_of h <? 58 then byte_of h - 48 else byte_of h - 87 in
      (λ b, (b, rest)) <$> Byte.of_N (Z.to_N (16 * v h1 + v h2))
  | _ => None
  end.

Lemma unhex2_hex2 b x : unhex2 (hex2 (byte_val b) +:+ x) = Some (b, x).
Proof. destruct b; reflexivity. Qed.

Lemma hex_of_inj a b : hex_of a = hex_of b → a = b.
Proof.
  revert b. induction a as [|x a IH]; intros [|y b] H; simpl in H; try done.
  apply (f_equal unhex2) in H. rewrite !unhex2_hex2 in H.
  injection H as -> H. f_equal. auto.
Qed.

Lemma str_all_app f s t : str_all f (s +:+ t) = str_all f s && str_all f t.
Proof.
  induction s as [|c s IH]; [done|]. rewrite str_app_cons. simpl. rewrite IH.
  by rewrite andb_assoc.
Qed.

Lemma hex_of_spec d : str_all is_lower_hex (hex_of d) = true ∧ str_len (hex_of d) = 2 * len d.
Proof.
  induction d as [|b d [IH1 IH2]]; [done|]. simpl.
  rewrite str_all_app, str_len_app, IH1, IH2, len_cons.
  split; [by destruct b|]. unfold hex2, str_len. simpl. lia.
Qed.

Lemma bytes_of_inj s t : bytes_of s = bytes_of t → s = t.
Proof.
  intros H. rewrite <- (String.string_of_list_byte_of_string s),
    <- (String.string_of_list_byte_of_string t). unfold bytes_of in H. by rewrite H.
Qed.

Lemma preimage_inj p q : preimage p = preimage q → p = q.
Proof. unfold preimage. intros H%app_inv_head%app_inv_head. by apply canonicalize_inj, bytes_of_inj. Qed.

Lemma commitment_hash_canonical `{Sha256Laws} p :
  is_canonical_commitment_hash (commitment_hash p) = true.
Proof.
  unfold is_canonical_commitment_hash, commitment_hash. rewrite strip_prefix_app.
  destruct (hex_of_spec (sha256_digest (preimage p))) as [-> Hl].
  rewrite Hl. unfold len. by rewrite sha256_length.
Qed.

(** The commitment hash is as collision-resistant as SHA-256: two
    different payloads, which always have different canonical forms and so
    different preimages, get the same commitment hash exactly when SHA-256
    collides on those two preimages. *)
Theorem commitment_hash_collision `{Sha256} p q :
  p ≠ q →
  preimage p ≠ preimage q ∧
  (commitment_hash p = commitment_hash q ↔
   sha256_digest (preimage p) = sha256_digest (preimage q)).
Proof.
  intros Hpq. split; [by intros ?%preimage_inj|].
  unfold commitment_hash. split; [|by intros ->].
  intros E%str_app_inj. by apply hex_of_inj.
Qed.

Definition demo_commitment (action : string) : CommitmentPayload :=
  MkCommitmentPayload "c1" action "scope" "because" "1.0" "" "cfg" true None.

(** A digest of the right length that keeps the bytes it is given apart for
    short inputs: the 32 bytes after the label and the opening of the first
    member. *)
Definition demo_sha : Sha256 := λ b, take 32 (drop 34 b ++ replicate 32 Byte.x00).

Lemma commitment_hash_collision_witness :
  commitment_hash (H:=demo_sha) (demo_commitment "task.completed")
  ≠ commitment_hash (H:=demo_sha) (demo_commitment "task.failed").
Proof.
  intros H. eapply (commitment_hash_collision (H:=demo_sha)
    (demo_commitment "task.completed") (demo_commitment "task.failed")) in H;
    [by vm_compute in H|done].
Defined.

(** ** The wire format, as a specification *)
Definition byte_of_Z (z : Z) : Byte.byte := default Byte.x00 (Byte.of_N (Z.to_N z)).

Fixpoint encode_varint_fuel (fuel : nat) (v : Z) : bytes :=
  match fuel with
  | O => []
  | S fuel' =>
      if v <? 128 then [byte_of_Z v]
      else byte_of_Z (v mod 128 + 128) :: encode_varint_fuel fuel' (v / 128)
  end.
Definition encode_varint (v : Z) : bytes := encode_varint_fuel 10 v.

(** A field as a conformant encoder writes it. *)
Inductive wire_field :=
| WVarint (tag v : Z)
| WFixed64 (tag : Z) (b : bytes)
| WFixed32 (tag : Z) (b : bytes)
| WLen (tag : Z) (body : bytes).

Definition field_tag (f : wire_field) : Z :=
  match f with WVarint t _ | WFixed64 t _ | WFixed32 t _ | WLen t _ => t end.
Definition encode_field (f : wire_field) : bytes :=
  match f with
  | WVarint t v => encode_varint (8 * t) ++ encode_varint v
  | WFixed64 t b => encode_varint (8 * t + 1) ++ b
  | WFixed32 t b => encode_varint (8 * t + 5) ++ b
  | WLen t b => encode_varint (8 * t + 2) ++ encode_varint (len b) ++ b
  end.
Definition field_ok (f : wire_field) : Prop :=
  1 ≤ field_tag f ≤ u32_max ∧
  match f with
  | WVarint _ v => 0 ≤ v < 2 ^ 64
  | WFixed64 _ b => length b = 8%nat
  | WFixed32 _ b => length b = 4%nat
  | WLen _ b => len b < 2 ^ 64
  end.
Definition encode_fields (fs : list wire_field) : bytes := concat (encode_field <$> fs).

Lemma byte_val_of_Z z : 0 ≤ z < 256 → byte_val (byte_of_Z z) = z.
Proof.
  intros Hz. unfold byte_val, byte_of_Z.
  destruct (Byte.of_N (Z.to_N z)) as [b|] eqn:E; simpl.
  - apply Byte.to_of_N in E. lia.
  - apply Byte.of_N_None_iff in E. lia.
Qed.

Lemma byte_low_bits b : Z.land (byte_val b) 0x7f = byte_val b mod 128.
Proof. by destruct b. Qed.
Lemma byte_high_bit b : (Z.land (byte_val b) 0x80 =? 0) = (byte_val b <? 128).
Proof. by destruct b. Qed.

Lemma lor_disjoint a b n : 0 ≤ n → 0 ≤ a < 2 ^ n → Z.lor a (Z.shiftl b n) = a + b * 2 ^ n.
Proof.
  intros Hn Ha. assert (Z.land a (Z.shiftl b n) = 0) as H0.
  { apply Z.bits_inj'. intros m Hm. rewrite Z.land_spec, Z.shiftl_spec, Z.bits_0 by done.
    destruct (decide (m < n)); [rewrite (Z.testbit_neg_r b) by lia; apply andb_false_r|].
    rewrite <- (Z.mod_small a (2 ^ n)), Z.mod_pow2_bits_high by lia. done. }
  rewrite <- Z.lxor_lor, <- Z.add_nocarry_lxor, Z.shiftl_mul_pow2 by done. done.
Qed.

Lemma read_varint_step i acc c :
  0 ≤ i → 0 ≤ acc < 2 ^ (7 * i) → 0 ≤ c → c * 2 ^ (7 * i) < 2 ^ 64 →
  Z.lor acc (u64_wrap (Z.shiftl c (7 * i))) = acc + c * 2 ^ (7 * i).
Proof.
  intros. rewrite <- lor_disjoint by lia. unfold u64_wrap.
  rewrite Z.mod_small; [done|]. rewrite Z.shiftl_mul_pow2 by lia. lia.
Qed.

Lemma read_varint_from_encode fuel i acc v rest :
  0 ≤ i < 10 → i + Z.of_nat fuel = 10 → 0 ≤ acc < 2 ^ (7 * i) → 0 ≤ v →
  v * 2 ^ (7 * i) < 2 ^ 64 →
  read_varint_from fuel i acc (encode_varint_fuel fuel v ++ rest)
  = Some (acc + v * 2 ^ (7 * i), rest).
Proof.
  revert i acc v. induction fuel as [|fuel IH]; intros i acc v Hi Hf Ha Hv Hb; [lia|].
  cbn [encode_varint_fuel]. destruct (v <? 128) eqn:E; bool_simp;
    simpl app; cbn [read_varint_from]; rewrite byte_low_bits, byte_high_bit,
    byte_val_of_Z by (pose proof (Z.mod_pos_bound v 128); lia).
  - rewrite (proj2 (Z.ltb_lt v 128)), Z.mod_small by lia.
    by rewrite read_varint_step by lia.
  - pose proof (Z.mod_pos_bound v 128). pose proof (Z.div_mod v 128).
    rewrite (proj2 (Z.ltb_ge _ 128)) by lia.
    replace (v mod 128 + 128) with (v mod 128 + 1 * 128) by lia.
    rewrite Z.mod_add, Z.mod_mod by lia.
    assert (i ≠ 9) by (intros ->; simpl in Hb; lia).
    assert (2 ^ (7 * (i + 1)) = 128 * 2 ^ (7 * i)) as Hp.
    { replace (7 * (i + 1)) with (7 + 7 * i) by lia. by rewrite Z.pow_add_r by lia. }
    assert (0 < 2 ^ (7 * i)) by lia.
    rewrite read_varint_step by nia. rewrite IH by (rewrite ?Hp; nia).
    rewrite Hp. do 2 f_equal. nia.
Qed.

Lemma read_varint_encode v rest :
  0 ≤ v < 2 ^ 64 → read_varint (encode_varint v ++ rest) = Some (v, rest).
Proof.
  intros Hv. unfold read_varint, encode_varint.
  rewrite read_varint_from_encode by (simpl; lia). f_equal. f_equal. simpl. lia.
Qed.

(** ** The scan *)
Lemma read_varint_shrinks fuel i a buf v rest :
  read_varint_from fuel i a buf = Some (v, rest) → (length rest < length buf)%nat.
Proof.
  revert i a buf. induction fuel as [|fuel IH]; intros i a [|b buf] H; simpl in *; try done.
  destruct (_ =? 0); [by injection H as _ ->; lia|]. apply IH in H. lia.
Qed.

Lemma scan_field_shrinks known ins nested buf rest :
  scan_field known ins nested buf = Ok rest → (length rest < length buf)%nat.
Proof.
  unfold scan_field, malformed. intros H. res_inv; destruct_and?; simplify_eq;
    repeat match goal with H : read_varint _ = Some _ |- _ =>
      apply read_varint_shrinks in H end;
    rewrite ?length_drop; lia.
Qed.

(** The length of the buffer is fuel enough: more makes no difference. *)
Lemma scan_loop_fuel known ins nested n m buf :
  (length buf ≤ n)%nat → (length buf ≤ m)%nat →
  scan_loop n known ins nested buf = scan_loop m known ins nested buf.
Proof.
  revert m buf. induction n as [|n IH]; intros m buf Hn Hm.
  - destruct buf; simpl in *; [by destruct m|lia].
  - destruct buf as [|b buf]; [by destruct m|]. destruct m as [|m]; [simpl in *; lia|].
    simpl. destruct (scan_field known ins nested (b :: buf)) as [rest|] eqn:E; simpl; [|done].
    apply scan_field_shrinks in E. simpl in *. apply IH; lia.
Qed.

Lemma key_parts t w :
  0 ≤ w < 8 → Z.land (8 * t + w) 0x7 = w ∧ Z.shiftr (8 * t + w) 3 = t.
Proof.
  intros Hw. split.
  - change 7 with (Z.ones 3). rewrite Z.land_ones by lia. change (2 ^ 3) with 8.
    rewrite Z.add_comm, Z.mul_comm, Z.mod_add, Z.mod_small; lia.
  - rewrite Z.shiftr_div_pow2 by lia. change (2 ^ 3) with 8.
    rewrite Z.add_comm, Z.mul_comm, Z.div_add, Z.div_small; lia.
Qed.

Definition known_tag (known : Z * Z) (t : Z) : bool := (known.1 <=? t) && (t <=? known.2).

(** What the scan does with one well-formed field. *)
Definition field_verdict (known : Z * Z) (in_supersedes : bool)
    (nested : bytes → result CannotVerify unit) (f : wire_field) : result CannotVerify unit :=
  if negb (known_tag known (field_tag f)) then Err (UnknownField (field_tag f) in_supersedes)
  else match f with
       | WLen t body =>
           if negb in_supersedes && (t =? SUPERSEDES_TAG) then nested body else Ok ()
       | _ => Ok ()
       end.

Lemma scan_field_encode known ins nested f rest :
  field_ok f →
  scan_field known ins nested (encode_field f ++ rest)
  = (_ ← field_verdict known ins nested f; Ok rest).
Proof.
  intros [Ht Hf].
  assert (∀ w r, 0 ≤ w < 8 →
    read_varint (encode_varint (8 * field_tag f + w) ++ r) = Some (8 * field_tag f + w, r))
    as Hkey by (intros; apply read_varint_encode; unfold u32_max in *; lia).
  unfold scan_field, field_verdict, known_tag.
  destruct f as [t v|t b|t b|t b]; simpl in *; rewrite <- ?app_assoc;
    [rewrite <- (Z.add_0_r (8 * t))|..]; rewrite Hkey by lia; simpl.
  - destruct (key_parts t 0 ltac:(lia)) as [-> ->].
    rewrite (proj2 (gtb_false _ _)), (proj2 (Z.eqb_neq t 0)) by lia.
    destruct (negb _); simpl; [done|]. by rewrite read_varint_encode.
  - destruct (key_parts t 1 ltac:(lia)) as [-> ->].
    rewrite (proj2 (gtb_false _ _)), (proj2 (Z.eqb_neq t 0)) by lia.
    destruct (negb _); simpl; [done|]. unfold len. rewrite length_app, Hf.
    rewrite (proj2 (Z.ltb_ge _ _)) by lia. by rewrite drop_app_length'.
  - destruct (key_parts t 5 ltac:(lia)) as [-> ->].
    rewrite (proj2 (gtb_false _ _)), (proj2 (Z.eqb_neq t 0)) by lia.
    destruct (negb _); simpl; [done|]. unfold len. rewrite length_app, Hf.
    rewrite (proj2 (Z.ltb_ge _ _)) by lia. by rewrite drop_app_length'.
  - destruct (key_parts t 2 ltac:(lia)) as [-> ->].
    rewrite (proj2 (gtb_false _ _)), (proj2 (Z.eqb_neq t 0)) by lia.
    destruct (negb (_ && _)); simpl; [done|].
    rewrite read_varint_encode by (pose proof (len_nonneg b); lia). simpl.
    rewrite len_app, (proj2 (gtb_false _ _)) by (pose proof (len_nonneg rest); lia).
    unfold len. rewrite Nat2Z.id, take_app_length, drop_app_length. done.
Qed.

Fixpoint verdict (known : Z * Z) (ins : bool) (nested : bytes → result CannotVerify unit)
    (fs : list wire_field) : result CannotVerify unit :=
  match fs with
  | [] => Ok ()
  | f :: fs' => _ ← field_verdict known ins nested f; verdict known ins nested fs'
  end.

Lemma encode_field_nonempty f : ∃ b r, encode_field f = b :: r.
Proof.
  assert (∀ v r, ∃ b r', encode_varint v ++ r = b :: r') as H.
  { intros v r. unfold encode_varint. simpl. case_match; simpl; eauto. }
  destruct f; simpl; apply H.
Qed.

Lemma scan_loop_encode known ins nested fs fuel :
  Forall field_ok fs → (length (encode_fields fs) ≤ fuel)%nat →
  scan_loop fuel known ins nested (encode_fields fs) = verdict known ins nested fs.
Proof.
  intros Hfs. revert fuel. induction Hfs as [|f fs Hf Hfs IH]; intros fuel Hl.
  { by destruct fuel. }
  assert (encode_fields (f :: fs) = encode_field f ++ encode_fields fs) as E by done.
  rewrite E in *. pose proof (scan_field_encode known ins nested f (encode_fields fs) Hf) as Hs.
  destruct (encode_field_nonempty f) as (b & r & Hb). rewrite Hb in *.
  rewrite length_app in Hl. simpl in *. destruct fuel as [|fuel]; [lia|]. simpl.
  rewrite Hs. destruct (field_verdict _ _ _ _) as [[]|]; simpl; [|done]. apply IH. lia.
Qed.

(** A field of a commitment: [supersedes] holds the fields of a reference. *)
Inductive top_field :=
| TPlain (f : wire_field)
| TSupersedes (refs : list wire_field).
Definition as_wire (t : top_field) : wire_field :=
  match t with TPlain f => f | TSupersedes rs => WLen SUPERSEDES_TAG (encode_fields rs) end.
Definition top_ok (t : top_field) : Prop :=
  match t with
  | TPlain f => field_ok f ∧ field_tag f ≠ SUPERSEDES_TAG
  | TSupersedes rs => Forall field_ok rs ∧ len (encode_fields rs) < 2 ^ 64
  end.

(** The first field number outside the label's set, in wire order. *)
Definition unknown_ref (rs : list wire_field) : option Z :=
  field_tag <$> List.find (λ r, negb (known_tag COMMITMENT_REF_TAGS (field_tag r))) rs.
Fixpoint first_unknown (ts : list top_field) : option (Z * bool) :=
  match ts with
  | [] => None
  | TPlain f :: ts' =>
      if known_tag PAYLOAD_TAGS (field_tag f) then first_unknown ts'
      else Some (field_tag f, false)
  | TSupersedes rs :: ts' =>
      match unknown_ref rs with
      | Some t => Some (t, true)
      | None => first_unknown ts'
      end
  end.

Lemma scan_commitment_ref_encode rs :
  Forall field_ok rs →
  scan_commitment_ref (encode_fields rs)
  = match unknown_ref rs with Some t => Err (UnknownField t true) | None => Ok () end.
Proof.
  intros H. unfold scan_commitment_ref. rewrite scan_loop_encode by done. clear H.
  unfold unknown_ref. induction rs as [|r rs IH]; [done|]. simpl.
  unfold field_verdict. destruct (known_tag _ _); simpl; [|done].
  destruct r; simpl; apply IH.
Qed.

Lemma scan_known_fields_encode ts :
  Forall top_ok ts →
  scan_known_fields (encode_fields (as_wire <$> ts))
  = match first_unknown ts with Some (t, b) => Err (UnknownField t b) | None => Ok () end.
Proof.
  intros Hts. unfold scan_known_fields. rewrite scan_loop_encode; [|..|done].
  - induction Hts as [|t ts Ht Hts IH]; [done|]. simpl. destruct t as [f|rs]; simpl in *.
    + unfold field_verdict. destruct (known_tag _ _); simpl; [|done].
      destruct Ht as [_ Ht]. destruct f; simpl in *; try apply IH.
      rewrite (proj2 (Z.eqb_neq _ _)) by done. apply IH.
    + unfold field_verdict. simpl. rewrite scan_commitment_ref_encode by apply Ht.
      destruct (unknown_ref rs); simpl; [done|apply IH].
  - apply Forall_fmap. eapply Forall_impl; [done|]. intros [f|rs] Ht; simpl in *;
      [apply Ht|split; [by vm_compute|apply Ht]].
Qed.

(** Verification decides exactly on what the label covers. On any
    well-formed encoding, a field number outside 1-9 (or outside 1-2 within
    [supersedes]) is reported as [CannotVerify] with the first such number,
    never as a match; on every other encoding the outcome is [Match] exactly
    when the bytes decode and the claimed string is the payload's hash. *)
Theorem verify_outcome `{Sha256Laws, Message CommitmentPayload} ts claimed :
  Forall top_ok ts →
  let wire := encode_fields (as_wire <$> ts) in
  match first_unknown ts with
  | Some (tag, ins) =>
      verify_commitment_hash wire claimed = CannotVerifyOutcome (UnknownField tag ins)
  | None =>
      verify_commitment_hash wire claimed = Match ↔
      ∃ p, decode wire = Some p ∧ claimed = commitment_hash p
  end.
Proof.
  intros Hts wire. unfold verify_commitment_hash, commitment_hash_of_wire, wire.
  rewrite scan_known_fields_encode by done.
  destruct (first_unknown ts) as [[t b]|]; [done|]. simpl.
  destruct (decode _) as [p|]; simpl; [|naive_solver].
  split.
  - intros E. case_match eqn:Em; [|done]. apply andb_true_iff in Em as [_ Em].
    bool_simp. eauto.
  - intros (p' & [= <-] & ->). by rewrite commitment_hash_canonical, bool_decide_eq_true_2.
Qed.

Lemma demo_sha_laws : @Sha256Laws demo_sha.
Proof.
  constructor. intros b. unfold sha256_digest, demo_sha.
  rewrite length_take, length_app, length_replicate. lia.
Qed.

Definition demo_commitment_message : Message CommitmentPayload := {|
  decode _ := Some (demo_commitment "task.completed");
  encode_to_vec _ := [] |}.

Lemma verify_outcome_witness :
  let v := verify_commitment_hash (H:=demo_sha) (H0:=demo_commitment_message) in
  let h := commitment_hash (H:=demo_sha) (demo_commitment "task.completed") in
  v (encode_fields (as_wire <$> [TPlain (WLen 1 (bytes_of "c1"))])) h = Match ∧
  v (encode_fields (as_wire <$> [TPlain (WVarint 8 1); TPlain (WVarint 10 1)])) h
  = CannotVerifyOutcome (UnknownField 10 false).
Proof.
  intros v h. split.
  - apply (verify_outcome (H:=demo_sha) (H0:=demo_sha_laws) (H1:=demo_commitment_message)
      [TPlain (WLen 1 (bytes_of "c1"))] h); [|by exists (demo_commitment "task.completed")].
    repeat constructor; vm_compute; (done || discriminate).
  - apply (verify_outcome (H:=demo_sha) (H0:=demo_sha_laws) (H1:=demo_commitment_message)
      [TPlain (WVarint 8 1); TPlain (WVarint 10 1)] h).
    repeat constructor; vm_compute; (done || discriminate).
Defined.
