(* ===== verification/Concrete.v ===== *)
(** * Concrete codecs

    The theorems take the JSON and protobuf codecs as parameters with laws.
    This file exhibits codecs that satisfy the laws, so that the theorems can
    be applied to concrete sessions: any countable type is written as the bits
    of its code. It models nothing of the program. *)

From Stdlib Require Import Strings.Byte SpecFloat.
From stdpp Require Import prelude gmap strings countable.
From S2P Require Import Prelude Floats Extern Error Policy Wire.
Open Scope Z_scope.

Fixpoint pos_bytes (p : positive) : bytes :=
  match p with
  | xH => [Byte.x02]
  | xO q => Byte.x00 :: pos_bytes q
  | xI q => Byte.x01 :: pos_bytes q
  end.
Fixpoint bytes_pos (b : bytes) : option positive :=
  match b with
  | [Byte.x02] => Some xH
  | Byte.x00 :: b' => xO <$> bytes_pos b'
  | Byte.x01 :: b' => xI <$> bytes_pos b'
  | _ => None
  end.

Lemma bytes_pos_bytes p : bytes_pos (pos_bytes p) = Some p.
Proof. induction p; simpl; [by rewrite IHp..|done]. Qed.
Lemma pos_bytes_nonempty p : pos_bytes p ≠ [].
Proof. by destruct p. Qed.

Section codecs.
Context {S : Type} `{Countable S}.

Definition countable_message : Message S := {|
  decode b := bytes_pos b ≫= countable.decode;
  encode_to_vec s := pos_bytes (encode s) |}.
Lemma countable_message_laws : @MessageLaws S countable_message.
Proof. constructor. intros p. simpl. rewrite bytes_pos_bytes. simpl. apply countable.decode_encode. Qed.

Definition countable_serde (reread : S → option S) : Serde S := {|
  to_vec s := pos_bytes (encode s);
  from_slice b := bytes_pos b ≫= λ p, countable.decode p ≫= reread |}.
Lemma countable_serde_laws reread : @SerdeLaws S (countable_serde reread) reread.
Proof.
  constructor; intros s; simpl; [|apply pos_bytes_nonempty].
  rewrite bytes_pos_bytes. simpl. by rewrite countable.decode_encode.
Qed.
End codecs.

(** [serde_json] on floats: what is finite is kept. *)
Definition concrete_json_f64 : JsonF64 := λ x, if is_finite x then Some x else None.
Lemma concrete_json_f64_laws : @JsonF64Laws concrete_json_f64.
Proof.
  constructor; intros x Hx; unfold json_f64, concrete_json_f64; rewrite Hx; eauto.
Qed.

(** ** Codes for the records the codecs are used on *)
#[export] Instance f64_countable : Countable f64.
Proof.
  refine (inj_countable'
    (λ x : f64, match x with
     | S754_zero s => inl (inl s)
     | S754_infinity s => inl (inr s)
     | S754_nan => inr (inl ())
     | S754_finite s m e => inr (inr (s, (m, e)))
     end)
    (λ y, match y with
     | inl (inl s) => S754_zero s
     | inl (inr s) => S754_infinity s
     | inr (inl _) => S754_nan
     | inr (inr (s, (m, e))) => S754_finite s m e
     end) _).
  by intros [].
Defined.

#[export] Instance byte_countable : Countable Byte.byte.
Proof. refine (inj_countable Byte.to_N Byte.of_N Byte.of_to_N). Defined.

#[export] Instance Proposal_eq_dec : EqDecision Proposal.
Proof. solve_decision. Defined.
#[export] Instance Proposal_countable : Countable Proposal.
Proof.
  refine (inj_countable'
    (λ p, [pr_proposal_id p; pr_option p; pr_rationale p; pr_sender p])
    (λ l, match l with [a; b; c; d] => MkProposal a b c d | _ => MkProposal "" "" "" "" end) _).
  by intros [].
Defined.
#[export] Instance Objection_eq_dec : EqDecision Objection.
Proof. solve_decision. Defined.
#[export] Instance Objection_countable : Countable Objection.
Proof.
  refine (inj_countable'
    (λ p, [ob_proposal_id p; ob_reason p; ob_severity p; ob_sender p])
    (λ l, match l with [a; b; c; d] => MkObjection a b c d | _ => MkObjection "" "" "" "" end) _).
  by intros [].
Defined.
#[export] Instance Vote_eq_dec : EqDecision Vote.
Proof. solve_decision. Defined.
#[export] Instance Vote_countable : Countable Vote.
Proof.
  refine (inj_countable'
    (λ p, [vt_proposal_id p; vt_vote p; vt_reason p; vt_sender p])
    (λ l, match l with [a; b; c; d] => MkVote a b c d | _ => MkVote "" "" "" "" end) _).
  by intros [].
Defined.
#[export] Instance Evaluation_eq_dec : EqDecision Evaluation.
Proof. solve_decision. Defined.
#[export] Instance Evaluation_countable : Countable Evaluation.
Proof.
  refine (inj_countable'
    (λ p, (ev_confidence p,
           [ev_proposal_id p; ev_recommendation p; ev_reason p; ev_sender p]))
    (λ l, match l with
          | (x, [a; b; c; d]) => MkEvaluation a b x c d
          | _ => MkEvaluation "" "" f64_0 "" ""
          end) _).
  by intros [].
Defined.
#[export] Instance DecisionPhase_countable : Countable DecisionPhase.
Proof.
  refine (inj_countable'
    (λ p, match p with
          | PhProposal => 0 | PhEvaluation => 1 | PhVoting => 2 | PhCommitted => 3 end)
    (λ n, if n =? 0 then PhProposal else if n =? 1 then PhEvaluation
          else if n =? 2 then PhVoting else PhCommitted) _).
  by intros [].
Defined.
#[export] Instance DecisionState_eq_dec : EqDecision DecisionState.
Proof. solve_decision. Defined.
#[export] Instance DecisionState_countable : Countable DecisionState.
Proof.
  refine (inj_countable'
    (λ s, ((ds_proposals s, ds_evaluations s), (ds_objections s, (ds_votes s, ds_phase s))))
    (λ '((a, b), (c, (d, e))), MkDecisionState a b c d e) _).
  by intros [].
Defined.

(** A decoder that reads every payload as [p], and one that reads none. *)
Definition const_message {P} (p : option P) : Message P := {|
  decode _ := p;
  encode_to_vec _ := [] |}.
Definition const_from_value {T} (v : T) : FromValue T := λ _, Ok v.
Definition allow_all : PolicyEvaluator := λ _, Allow [].

(** An envelope of a demonstration session. *)
Definition demo_env (message_type message_id sender : string) (payload : bytes) : Envelope :=
  {| env_macp_version := "1.0"; env_mode := "m"; env_message_type := message_type;
     env_message_id := message_id; env_session_id := "s"; env_sender := sender;
     env_timestamp_unix_ms := 0; env_payload := payload |}.
