(* ===== verification/ModeApi.v ===== *)
(** * The mode interface and what the modes share
      (crates/macp-modes/src/mode/mod.rs, mode/util.rs)

    The [Mode] trait as a record of operations with its default methods, and
    the helpers of [util]: commitment validation, the commitment policy gate,
    the state codec, membership and commitment authority. *)

From stdpp Require Import prelude gmap strings.
From S2P Require Import Prelude RustStr Floats Extern Error Policy Wire SessionData.
From S2P Require Import Session CommitmentHash.
Open Scope Z_scope.

(** ** The trait *)
Record Mode := MkMode {
  on_session_start : Session → Envelope → result MacpError ModeResponse;
  on_message : Session → Envelope → result MacpError ModeResponse;
  on_message_at : Session → Envelope → MessageContext → result MacpError ModeResponse;
  validate_client_envelope : Session → Envelope → result MacpError unit;
  due_synthetic_envelope : Session → Z → option Envelope;
  authorize_sender : Session → Envelope → result MacpError unit;
}.

(** Default methods. *)
Definition default_on_message_at
    (on_message : Session → Envelope → result MacpError ModeResponse)
    (session : Session) (env : Envelope) (ctx : MessageContext)
    : result MacpError ModeResponse := on_message session env.
Definition default_validate_client_envelope (session : Session) (env : Envelope)
    : result MacpError unit := Ok ().
Definition default_due_synthetic_envelope (session : Session) (now_ms : Z)
    : option Envelope := None.
Definition default_authorize_sender (session : Session) (env : Envelope)
    : result MacpError unit :=
  if negb (is_empty (ss_participants session))
     && negb (str_elem (env_sender env) (ss_participants session))
  then Err Forbidden
  else Ok ().

Definition STANDARD_MODE_NAMES : list string :=
  ["macp.mode.decision.v1"; "macp.mode.proposal.v1"; "macp.mode.task.v1";
   "macp.mode.handoff.v1"; "macp.mode.quorum.v1"].
Definition EXTENSION_MODE_NAMES : list string := ["ext.multi_round.v1"].

(** ** The state codec *)
Definition encode_mode_state {S} `{Serde S} (state : S) : bytes := to_vec state.
Definition decode_mode_state {S} `{Serde S} (data : bytes) : result MacpError S :=
  ok_or (from_slice data) InvalidModeState.

(** What a mode's message handler made of its state, and the resolution of a
    commitment: [ModeResponse::PersistState] or [PersistAndResolve]. *)
Definition respond {S} `{Serde S} (out : S * option bytes) : ModeResponse :=
  match out with
  | (state, None) => PersistState (encode_mode_state state)
  | (state, Some resolution) => PersistAndResolve (encode_mode_state state) resolution
  end.

(** [P::decode(&*env.payload).map_err(|_| InvalidPayload)]. *)
Definition decode_payload (P : Type) `{Message P} (env : Envelope) : result MacpError P :=
  ok_or (decode (env_payload env)) InvalidPayload.

Definition is_declared_participant (participants : list string) (sender : string) : bool :=
  str_elem sender participants.

(** ** Commitments *)
Definition validate_outcome_positive (commitment : CommitmentPayload)
    : result MacpError unit :=
  let action := cp_action commitment in
  let is_negative :=
    existsb (λ suffix, ends_with suffix action) ["rejected"; "failed"; "declined"] in
  let is_positive :=
    existsb (λ suffix, ends_with suffix action)
      ["selected"; "accepted"; "completed"; "approved"] in
  if is_negative && cp_outcome_positive commitment then Err InvalidPayload
  else if is_positive && negb (cp_outcome_positive commitment) then Err InvalidPayload
  else Ok ().

Definition decode_commitment_payload `{Message CommitmentPayload} (payload : bytes)
    : result MacpError CommitmentPayload :=
  ok_or (decode payload) InvalidPayload.

Definition validate_supersedes (supersedes : option CommitmentRef) : result MacpError unit :=
  match supersedes with
  | Some sup =>
      if blank (ref_session_id sup) then Err InvalidPayload
      else if negb (is_canonical_commitment_hash (ref_commitment_hash sup))
      then Err InvalidPayload
      else Ok ()
  | None => Ok ()
  end.

Definition validate_commitment_payload_for_session `{Message CommitmentPayload}
    (session : Session) (payload : bytes) : result MacpError CommitmentPayload :=
  commitment ← decode_commitment_payload payload;
  if blank (cp_commitment_id commitment) || blank (cp_action commitment)
     || blank (cp_authority_scope commitment) || blank (cp_reason commitment)
  then Err InvalidPayload
  else if (cp_mode_version commitment != ss_mode_version session)
     || (cp_configuration_version commitment != ss_configuration_version session)
  then Err InvalidPayload
  else if negb (str_is_empty (cp_policy_version commitment))
     && negb (str_is_empty (ss_policy_version session))
     && (cp_policy_version commitment != ss_policy_version session)
  then Err InvalidPayload
  else
    _ ← validate_supersedes (cp_supersedes commitment);
    _ ← validate_outcome_positive commitment;
    Ok commitment.

(** The policy gate: only an [Allow] proceeds. *)
Definition enforce_commitment_policy `{PolicyEvaluator} (session : Session)
    (mode : CommitmentMode) (outcome_positive : bool) : result MacpError unit :=
  match ss_policy_definition session with
  | None => Ok ()
  | Some policy =>
      match evaluate_commitment {| cc_policy := policy;
                                   cc_participants := ss_participants session;
                                   cc_outcome_positive := outcome_positive;
                                   cc_mode := mode |} with
      | Allow _ => Ok ()
      | Deny reasons => Err (PolicyDenied reasons)
      end
  end.

Definition check_commitment_authority `{FromValue CommitmentRules} (session : Session)
    (sender : string) : result MacpError unit :=
  match ss_policy_definition session with
  | Some policy =>
      let rules := extract_commitment_rules (policy_rules policy) in
      if cr_authority rules == "any_participant" then
        if (sender == ss_initiator_sender session)
           || is_declared_participant (ss_participants session) sender
        then Ok () else Err Forbidden
      else if cr_authority rules == "designated_role" then
        if str_elem sender (cr_designated_roles rules) then Ok () else Err Forbidden
      else if sender == ss_initiator_sender session then Ok () else Err Forbidden
  | None => if sender == ss_initiator_sender session then Ok () else Err Forbidden
  end.

Definition participants_all_accept (participants : list string)
    (accepts : gmap string string) (proposal_id : string) : bool :=
  negb (is_empty participants)
  && forallb (λ participant, accepts !! participant == Some proposal_id) participants.

(** ** Lemmas *)
Lemma participants_all_accept_spec ps accepts pid :
  participants_all_accept ps accepts pid = true ↔
  ps ≠ [] ∧ ∀ p, p ∈ ps → accepts !! p = Some pid.
Proof.
  unfold participants_all_accept. rewrite andb_true_iff, negb_true_iff, is_empty_false.
  rewrite forallb_forall. setoid_rewrite bool_decide_eq_true.
  by setoid_rewrite list_elem_of_In.
Qed.

Section codec.
Context {S : Type} `{Serde S} (reread : S → option S) `{!SerdeLaws S reread}.

Lemma decode_encode_state s s' :
  reread s = Some s' → decode_mode_state (encode_mode_state s) = Ok s'.
Proof.
  intros Hr. unfold decode_mode_state, encode_mode_state.
  by rewrite from_slice_to_vec, Hr.
Qed.
Lemma decode_encode_state_err s :
  reread s = None → decode_mode_state (encode_mode_state s) = Err InvalidModeState.
Proof.
  intros Hr. unfold decode_mode_state, encode_mode_state.
  by rewrite from_slice_to_vec, Hr.
Qed.
Lemma encode_state_nonempty s : is_empty (encode_mode_state s) = false.
Proof. apply is_empty_false, (to_vec_nonempty (reread:=reread)). Qed.
End codec.

(** Every commitment a mode accepts passed these. *)
Record commitment_valid (session : Session) (c : CommitmentPayload) : Prop := {
  cv_mode_version : cp_mode_version c = ss_mode_version session;
  cv_configuration : cp_configuration_version c = ss_configuration_version session;
  cv_policy : cp_policy_version c = "" ∨ ss_policy_version session = "" ∨
    cp_policy_version c = ss_policy_version session;
  cv_supersedes r : cp_supersedes c = Some r →
    blank (ref_session_id r) = false ∧
    is_canonical_commitment_hash (ref_commitment_hash r) = true;
}.

Lemma validate_commitment_ok `{Message CommitmentPayload} session payload c :
  validate_commitment_payload_for_session session payload = Ok c →
  decode payload = Some c ∧ commitment_valid session c.
Proof.
  unfold validate_commitment_payload_for_session, decode_commitment_payload,
    validate_supersedes.
  intros H0. res_inv; bool_simp; (split; [done|]); constructor; try done;
    repeat match goal with
    | E : _ && _ = false |- _ => apply andb_false_iff in E as [E|E]
    end; bool_simp; auto; intros; simplify_eq; auto.
Qed.

Lemma enforce_policy_ok `{PolicyEvaluator} session mode outcome :
  enforce_commitment_policy session mode outcome = Ok () ↔
  ∀ policy, ss_policy_definition session = Some policy →
    ∃ reasons, evaluate_commitment {| cc_policy := policy;
      cc_participants := ss_participants session;
      cc_outcome_positive := outcome; cc_mode := mode |} = Allow reasons.
Proof.
  unfold enforce_commitment_policy. destruct (ss_policy_definition session) as [p|].
  - split; [intros Hx ? [= <-]; case_match; naive_solver|].
    intros Hx. destruct (Hx p eq_refl) as [r ->]. done.
  - naive_solver.
Qed.

(** ** What the kernel relies on in a mode

    The laws the trait's documentation states: authorization looks at what
    SessionStart bound, neither a start nor a synthetic envelope resolves the
    session, and a synthetic envelope is one of the session's, with an id that
    is non-empty and refused at the client boundary. *)
Class ModeLaws (mode : Mode) : Prop := {
  auth_bound s s' env : bound_fields s = bound_fields s' →
    authorize_sender mode s env = authorize_sender mode s' env;
  start_response s env r : on_session_start mode s env = Ok r →
    match r with NoOp | PersistState _ => True | _ => False end;
  synthetic_id s now e : due_synthetic_envelope mode s now = Some e → env_message_id e ≠ "";
  synthetic_session s now e : due_synthetic_envelope mode s now = Some e →
    env_session_id e = ss_session_id s;
  synthetic_reserved s s' now e env : bound_fields s = bound_fields s' →
    due_synthetic_envelope mode s' now = Some e →
    env_message_id env = env_message_id e → validate_client_envelope mode s env ≠ Ok ();
  synthetic_persists s now e ctx r : due_synthetic_envelope mode s now = Some e →
    on_message_at mode s e ctx = Ok r →
    match r with NoOp | PersistState _ => True | _ => False end;
}.
