(* ===== verification/Decision.v ===== *)
(** * Decision mode (crates/macp-modes/src/mode/decision.rs)

    Proposals, evaluations, objections, votes and the terminal commitment,
    with the wire enums read under the session's semantics revision. Then the
    invariant of the accumulated state, the order of its phases, and what a
    non-finite confidence does to a session. *)

From stdpp Require Import prelude gmap strings.
From S2P Require Import Prelude RustStr Floats Extern Error Policy Wire SessionData.
From S2P Require Import CommitmentHash ModeApi.
Open Scope Z_scope.

Definition STRICT_WIRE_ENUMS_REV : Z := 4.

Inductive Case := Upper | Lower.

Definition wire_enum (session : Session) (raw : string) (case : Case)
    (legacy_default : option string) : result MacpError string :=
  if ss_semantics_rev session >=? STRICT_WIRE_ENUMS_REV then
    if str_is_empty raw then Err InvalidPayload else Ok raw
  else
    let folded := match case with Upper => to_uppercase raw | Lower => to_lowercase raw end in
    if str_is_empty raw then
      match legacy_default with Some d => Ok d | None => Ok folded end
    else Ok folded.

Definition default_state : DecisionState := MkDecisionState ∅ [] [] ∅ PhProposal.

Definition ensure_not_committed (state : DecisionState) : result MacpError unit :=
  if ds_phase state == PhCommitted then Err SessionNotOpen else Ok ().
Definition ensure_known_proposal (state : DecisionState) (proposal_id : string)
    : result MacpError unit :=
  if negb (bool_decide (is_Some (ds_proposals state !! proposal_id)))
  then Err InvalidPayload else Ok ().
Definition ensure_can_propose (state : DecisionState) : result MacpError unit :=
  _ ← ensure_not_committed state;
  if ds_phase state == PhVoting then Err InvalidPayload else Ok ().
Definition ensure_can_deliberate (state : DecisionState) : result MacpError unit :=
  _ ← ensure_not_committed state;
  if ds_phase state != PhEvaluation then Err InvalidPayload else Ok ().
Definition ensure_can_vote (state : DecisionState) : result MacpError unit :=
  _ ← ensure_not_committed state;
  match ds_phase state with
  | PhProposal | PhCommitted => Err InvalidPayload
  | _ => Ok ()
  end.
Definition commitment_ready (state : DecisionState) : bool :=
  negb (ds_proposals state == ∅).

Definition RECOMMENDATIONS : list string := ["APPROVE"; "REVIEW"; "BLOCK"; "REJECT"].
Definition SEVERITIES : list string := ["critical"; "high"; "medium"; "low"].
Definition VOTES : list string := ["APPROVE"; "REJECT"; "ABSTAIN"].

Section mode.
Context `{Serde DecisionState} `{FromValue CommitmentRules} `{PolicyEvaluator}.
Context `{Message ProposalPayload} `{Message EvaluationPayload}.
Context `{Message ObjectionPayload} `{Message VotePayload} `{Message CommitmentPayload}.

Definition decision_authorize_sender (session : Session) (env : Envelope)
    : result MacpError unit :=
  if env_message_type env == "Commitment"
  then check_commitment_authority session (env_sender env)
  else if str_elem (env_message_type env) ["Proposal"; "Evaluation"; "Objection"; "Vote"]
       && is_declared_participant (ss_participants session) (env_sender env)
  then Ok ()
  else Err Forbidden.

Definition decision_on_session_start (session : Session) (env : Envelope)
    : result MacpError ModeResponse :=
  Ok (PersistState (encode_mode_state default_state)).

Definition handle_proposal (env : Envelope) (state : DecisionState)
    : result MacpError DecisionState :=
  _ ← ensure_can_propose state;
  payload ← decode_payload ProposalPayload env;
  if blank (pp_proposal_id payload) || blank (pp_option payload)
     || bool_decide (is_Some (ds_proposals state !! pp_proposal_id payload))
  then Err InvalidPayload
  else
    let proposal := {| pr_proposal_id := pp_proposal_id payload;
                       pr_option := pp_option payload;
                       pr_rationale := pp_rationale payload;
                       pr_sender := env_sender env |} in
    Ok (MkDecisionState (<[pp_proposal_id payload := proposal]> (ds_proposals state))
          (ds_evaluations state) (ds_objections state) (ds_votes state) PhEvaluation).

Definition handle_evaluation (session : Session) (env : Envelope) (state : DecisionState)
    : result MacpError DecisionState :=
  payload ← decode_payload EvaluationPayload env;
  recommendation ← wire_enum session (ep_recommendation payload) Upper None;
  if negb (str_elem recommendation RECOMMENDATIONS) then Err InvalidPayload
  else if f64_lt (ep_confidence payload) f64_0 || f64_gt (ep_confidence payload) f64_1
  then Err InvalidPayload
  else
    _ ← ensure_can_deliberate state;
    _ ← ensure_known_proposal state (ep_proposal_id payload);
    let evaluation := {| ev_proposal_id := ep_proposal_id payload;
                         ev_recommendation := recommendation;
                         ev_confidence := ep_confidence payload;
                         ev_reason := ep_reason payload;
                         ev_sender := env_sender env |} in
    Ok (MkDecisionState (ds_proposals state) (ds_evaluations state ++ [evaluation])
          (ds_objections state) (ds_votes state) (ds_phase state)).

Definition handle_objection (session : Session) (env : Envelope) (state : DecisionState)
    : result MacpError DecisionState :=
  payload ← decode_payload ObjectionPayload env;
  severity ← wire_enum session (op_severity payload) Lower (Some "medium");
  if negb (str_elem severity SEVERITIES) then Err InvalidPayload
  else
    _ ← ensure_can_deliberate state;
    _ ← ensure_known_proposal state (op_proposal_id payload);
    let objection := {| ob_proposal_id := op_proposal_id payload;
                        ob_reason := op_reason payload;
                        ob_severity := severity;
                        ob_sender := env_sender env |} in
    Ok (MkDecisionState (ds_proposals state) (ds_evaluations state)
          (ds_objections state ++ [objection]) (ds_votes state) (ds_phase state)).

Definition handle_vote (session : Session) (env : Envelope) (state : DecisionState)
    : result MacpError DecisionState :=
  payload ← decode_payload VotePayload env;
  normalized_vote ← wire_enum session (vp_vote payload) Upper None;
  if negb (str_elem normalized_vote VOTES) then Err InvalidPayload
  else
    _ ← ensure_can_vote state;
    _ ← ensure_known_proposal state (vp_proposal_id payload);
    let proposal_votes := default ∅ (ds_votes state !! vp_proposal_id payload) in
    if bool_decide (is_Some (proposal_votes !! env_sender env)) then Err InvalidPayload
    else
      let vote := {| vt_proposal_id := vp_proposal_id payload;
                     vt_vote := normalized_vote;
                     vt_reason := vp_reason payload;
                     vt_sender := env_sender env |} in
      Ok (MkDecisionState (ds_proposals state) (ds_evaluations state) (ds_objections state)
            (<[vp_proposal_id payload := <[env_sender env := vote]> proposal_votes]>
               (ds_votes state)) PhVoting).

Definition handle_commitment (session : Session) (env : Envelope) (state : DecisionState)
    : result MacpError DecisionState :=
  commitment ← validate_commitment_payload_for_session session (env_payload env);
  if negb (commitment_ready state) then Err InvalidPayload
  else
    _ ← enforce_commitment_policy session (CMDecision state) (cp_outcome_positive commitment);
    Ok (MkDecisionState (ds_proposals state) (ds_evaluations state) (ds_objections state)
          (ds_votes state) PhCommitted).

(** The [match] on the message type, on the decoded state. *)
Definition dispatch (session : Session) (env : Envelope) (state : DecisionState)
    : result MacpError (DecisionState * option bytes) :=
  _ ← ensure_not_committed state;
  let mt := env_message_type env in
  if mt == "Proposal" then st ← handle_proposal env state; Ok (st, None)
  else if mt == "Evaluation" then st ← handle_evaluation session env state; Ok (st, None)
  else if mt == "Objection" then st ← handle_objection session env state; Ok (st, None)
  else if mt == "Vote" then st ← handle_vote session env state; Ok (st, None)
  else if mt == "Commitment" then
    st ← handle_commitment session env state; Ok (st, Some (env_payload env))
  else Err InvalidPayload.

Definition load_state (session : Session) : result MacpError DecisionState :=
  if is_empty (ss_mode_state session) then Ok default_state
  else decode_mode_state (ss_mode_state session).

Definition decision_on_message (session : Session) (env : Envelope)
    : result MacpError ModeResponse :=
  state ← load_state session;
  out ← dispatch session env state;
  Ok (respond out).

Definition DecisionMode : Mode := {|
  on_session_start := decision_on_session_start;
  on_message := decision_on_message;
  on_message_at := default_on_message_at decision_on_message;
  validate_client_envelope := default_validate_client_envelope;
  due_synthetic_envelope := default_due_synthetic_envelope;
  authorize_sender := decision_authorize_sender |}.
End mode.

(** ** The invariant of the accumulated state *)
Record decision_inv (st : DecisionState) : Prop := {
  di_proposals k p : ds_proposals st !! k = Some p →
    pr_proposal_id p = k ∧ blank k = false ∧ blank (pr_option p) = false;
  di_evaluations e : e ∈ ds_evaluations st →
    is_Some (ds_proposals st !! ev_proposal_id e) ∧ ev_recommendation e ∈ RECOMMENDATIONS;
  di_objections o : o ∈ ds_objections st →
    is_Some (ds_proposals st !! ob_proposal_id o) ∧ ob_severity o ∈ SEVERITIES;
  di_votes pid votes : ds_votes st !! pid = Some votes →
    is_Some (ds_proposals st !! pid) ∧
    ∀ voter v, votes !! voter = Some v →
      vt_sender v = voter ∧ vt_proposal_id v = pid ∧ vt_vote v ∈ VOTES;
  di_phase : ds_phase st = PhProposal ↔ ds_proposals st = ∅;
}.

Definition phase_rank (p : DecisionPhase) : Z :=
  match p with PhProposal => 0 | PhEvaluation => 1 | PhVoting => 2 | PhCommitted => 3 end.

(** The vote [voter] cast on [pid]. *)
Definition vote_of (st : DecisionState) (pid voter : string) : option Vote :=
  ds_votes st !! pid ≫= λ m, m !! voter.

(** [st'] keeps everything [st] recorded. *)
Record extends (st st' : DecisionState) : Prop := {
  ex_proposals : ds_proposals st ⊆ ds_proposals st';
  ex_evaluations : ds_evaluations st `prefix_of` ds_evaluations st';
  ex_objections : ds_objections st `prefix_of` ds_objections st';
  ex_votes pid voter v : vote_of st pid voter = Some v → vote_of st' pid voter = Some v;
}.

Lemma extends_refl st : extends st st.
Proof. constructor; auto; reflexivity. Qed.

Lemma default_state_inv : decision_inv default_state.
Proof. constructor; simpl; set_solver. Qed.

(** What writing a state to JSON and reading it back gives: a confidence that
    is not finite is written as [null] and the state no longer reads back. *)
Definition reread_evaluation `{JsonF64} (e : Evaluation) : option Evaluation :=
  c ← json_f64 (ev_confidence e);
  Some (MkEvaluation (ev_proposal_id e) (ev_recommendation e) c (ev_reason e) (ev_sender e)).
Definition reread_decision `{JsonF64} (st : DecisionState) : option DecisionState :=
  evaluations ← mapM reread_evaluation (ds_evaluations st);
  Some (MkDecisionState (ds_proposals st) evaluations (ds_objections st) (ds_votes st)
          (ds_phase st)).

Section theorems.
Context `{Serde DecisionState} `{FromValue CommitmentRules} `{PolicyEvaluator}.
Context `{Message ProposalPayload} `{Message EvaluationPayload}.
Context `{Message ObjectionPayload} `{Message VotePayload} `{Message CommitmentPayload}.
Implicit Types (session : Session) (env : Envelope) (st : DecisionState).

(** What each handler did, when it succeeded. *)
Lemma handle_proposal_ok env st st' :
  handle_proposal env st = Ok st' →
  (ds_phase st = PhProposal ∨ ds_phase st = PhEvaluation) ∧
  ∃ p, ds_proposals st !! pr_proposal_id p = None ∧
    blank (pr_proposal_id p) = false ∧ blank (pr_option p) = false ∧
    pr_sender p = env_sender env ∧
    st' = MkDecisionState (<[pr_proposal_id p := p]> (ds_proposals st))
            (ds_evaluations st) (ds_objections st) (ds_votes st) PhEvaluation.
Proof.
  unfold handle_proposal, ensure_can_propose, ensure_not_committed. intros E.
  res_inv. bool_simp. split; [destruct (ds_phase st); naive_solver|].
  eexists (MkProposal _ _ _ _). split_and!; [..|reflexivity]; simpl; try done.
  by apply eq_None_not_Some.
Qed.

Lemma handle_evaluation_ok session env st st' :
  handle_evaluation session env st = Ok st' →
  ds_phase st = PhEvaluation ∧
  ∃ e, is_Some (ds_proposals st !! ev_proposal_id e) ∧
    ev_recommendation e ∈ RECOMMENDATIONS ∧ ev_sender e = env_sender env ∧
    st' = MkDecisionState (ds_proposals st) (ds_evaluations st ++ [e])
            (ds_objections st) (ds_votes st) (ds_phase st).
Proof.
  unfold handle_evaluation, ensure_can_deliberate, ensure_known_proposal. intros E.
  res_inv. bool_simp. split; [done|]. eexists (MkEvaluation _ _ _ _ _). split_and!; [..|reflexivity]; done.
Qed.

Lemma handle_objection_ok session env st st' :
  handle_objection session env st = Ok st' →
  ds_phase st = PhEvaluation ∧
  ∃ o, is_Some (ds_proposals st !! ob_proposal_id o) ∧
    ob_severity o ∈ SEVERITIES ∧ ob_sender o = env_sender env ∧
    st' = MkDecisionState (ds_proposals st) (ds_evaluations st)
            (ds_objections st ++ [o]) (ds_votes st) (ds_phase st).
Proof.
  unfold handle_objection, ensure_can_deliberate, ensure_known_proposal. intros E.
  res_inv. bool_simp. split; [done|]. eexists (MkObjection _ _ _ _). split_and!; [..|reflexivity]; done.
Qed.

Lemma handle_vote_ok session env st st' :
  handle_vote session env st = Ok st' →
  (ds_phase st = PhEvaluation ∨ ds_phase st = PhVoting) ∧
  ∃ v, let pid := vt_proposal_id v in
    is_Some (ds_proposals st !! pid) ∧
    vt_vote v ∈ VOTES ∧ vt_sender v = env_sender env ∧
    default ∅ (ds_votes st !! pid) !! vt_sender v = None ∧
    st' = MkDecisionState (ds_proposals st) (ds_evaluations st) (ds_objections st)
            (<[pid := <[vt_sender v := v]> (default ∅ (ds_votes st !! pid))]>
               (ds_votes st)) PhVoting.
Proof.
  unfold handle_vote, ensure_can_vote, ensure_known_proposal. intros E.
  res_inv; bool_simp; (split; [by auto|]); eexists (MkVote _ _ _ _);
    (split_and!; [..|reflexivity]); simpl; try done; by apply eq_None_not_Some.
Qed.

Lemma decision_handle_commitment_ok session env st st' :
  handle_commitment session env st = Ok st' →
  ds_proposals st ≠ ∅ ∧
  st' = MkDecisionState (ds_proposals st) (ds_evaluations st) (ds_objections st)
          (ds_votes st) PhCommitted.
Proof.
  unfold handle_commitment, commitment_ready. intros E. res_inv. bool_simp. done.
Qed.

(** What an accepted message makes of a well-formed state. *)
Record advances (st st' : DecisionState) : Prop := {
  ad_inv : decision_inv st';
  ad_extends : extends st st';
  ad_phase : phase_rank (ds_phase st) ≤ phase_rank (ds_phase st');
}.

Lemma lookup_insert_mono {V} (m : gmap string V) i j x :
  is_Some (m !! j) → is_Some (<[i := x]> m !! j).
Proof. intros. by apply lookup_insert_is_Some'; right. Qed.

Lemma decision_handle_proposal_inv env st st' :
  handle_proposal env st = Ok st' → decision_inv st → advances st st' ∧ ds_phase st' ≠ PhCommitted.
Proof.
  intros (Hph & p & Hnew & Hid & Hopt & _ & ->)%handle_proposal_ok [Ip Ie Io Iv If].
  split; [|done]. split; [|constructor; simpl; auto; by apply insert_subseteq
                          |by destruct Hph as [->| ->]].
  constructor; simpl.
  - intros k q [[<- <-]|[_ Hq]]%lookup_insert_Some; auto.
  - intros e [He ?]%Ie. split; auto using lookup_insert_mono.
  - intros o [Ho ?]%Io. split; auto using lookup_insert_mono.
  - intros pid m [Hm ?]%Iv. split; auto using lookup_insert_mono.
  - split; [done|]. intros E. by apply insert_non_empty in E.
Qed.

Lemma handle_evaluation_inv session env st st' :
  handle_evaluation session env st = Ok st' →
  decision_inv st → advances st st' ∧ ds_phase st' ≠ PhCommitted.
Proof.
  intros (Hph & e & Hp & Hr & _ & ->)%handle_evaluation_ok [Ip Ie Io Iv If].
  split; [|by simpl; rewrite Hph].
  split; [|constructor; simpl; auto; by apply prefix_app_r|done].
  constructor; simpl; auto. intros x [Hx| ->%list_elem_of_singleton]%elem_of_app; auto.
Qed.

Lemma handle_objection_inv session env st st' :
  handle_objection session env st = Ok st' →
  decision_inv st → advances st st' ∧ ds_phase st' ≠ PhCommitted.
Proof.
  intros (Hph & o & Hp & Hr & _ & ->)%handle_objection_ok [Ip Ie Io Iv If].
  split; [|by simpl; rewrite Hph].
  split; [|constructor; simpl; auto; by apply prefix_app_r|done].
  constructor; simpl; auto. intros x [Hx| ->%list_elem_of_singleton]%elem_of_app; auto.
Qed.

Lemma handle_vote_inv session env st st' :
  handle_vote session env st = Ok st' →
  decision_inv st → advances st st' ∧ ds_phase st' ≠ PhCommitted.
Proof.
  intros (Hph & v & Hp & Hr & _ & Hnew & ->)%handle_vote_ok [Ip Ie Io Iv If].
  split; [|done]. split; [| |by destruct Hph as [->| ->]].
  - constructor; simpl; auto.
    + intros pid m [[<- <-]|[_ Hm]]%lookup_insert_Some; [|by auto]. split; [done|].
      intros voter w [[<- <-]|[_ Hw]]%lookup_insert_Some; [done|].
      destruct (ds_votes st !! vt_proposal_id v) as [m|] eqn:Em; simpl in *; [|done].
      by apply (Iv _ m).
    + split; [done|]. intros E. rewrite E in Hp. by destruct Hp.
  - constructor; simpl; auto. intros pid voter w. unfold vote_of. simpl. intros Hw.
    destruct (decide (pid = vt_proposal_id v)) as [->|]; [|by rewrite lookup_insert_ne].
    rewrite lookup_insert_eq. simpl.
    destruct (ds_votes st !! vt_proposal_id v) as [m|]; simpl in *; [|done].
    rewrite lookup_insert_ne; [done|]. intros <-. congruence.
Qed.

Lemma decision_handle_commitment_inv session env st st' :
  handle_commitment session env st = Ok st' →
  decision_inv st → advances st st' ∧ ds_phase st' = PhCommitted.
Proof.
  intros [Hne ->]%decision_handle_commitment_ok [Ip Ie Io Iv If].
  split; [|done]. split; [constructor..|by destruct (ds_phase st)]; simpl; auto.
  split; [done|]. intros E. by destruct Hne.
Qed.

(** Inverts a successful [dispatch] into its five arms. *)
Ltac dispatch_cases E :=
  unfold dispatch in E; apply bind_ok in E as ([] & ? & E);
  repeat match type of E with
  | (if ?b then _ else _) = _ => destruct b; [apply bind_ok in E as (? & ? & E)|]
  end; simplify_eq.

(** The deliberation record of a Decision session is append-only and
    well-formed. Every accepted message preserves the invariant (evaluations,
    objections and votes refer to proposals that exist and carry a legal enum
    value, a vote is filed under the participant that sent it); nothing that
    was recorded is changed or lost, in particular no vote is overwritten; the
    phase never goes back; and a resolution is produced exactly when the phase
    becomes Committed. *)
Theorem decision_append_only session env st st' res :
  decision_inv st → dispatch session env st = Ok (st', res) →
  decision_inv st' ∧ extends st st' ∧
  phase_rank (ds_phase st) ≤ phase_rank (ds_phase st') ∧
  (is_Some res ↔ ds_phase st' = PhCommitted).
Proof.
  intros Hinv E. dispatch_cases E;
    [edestruct decision_handle_proposal_inv as [[] Hph]|edestruct handle_evaluation_inv as [[] Hph]
    |edestruct handle_objection_inv as [[] Hph]|edestruct handle_vote_inv as [[] Hph]
    |edestruct decision_handle_commitment_inv as [[] Hph]]; try eassumption;
    (split_and!; [done..|]); by rewrite ?is_Some_alt.
Qed.

(** A NaN confidence disables a Decision session. The range check of
    [Evaluation] compares with [<] and [>], which are both false on NaN, so an
    evaluation whose confidence is NaN is accepted; JSON has no NaN, so the
    state it is persisted in does not read back, and every later message of
    the session fails with [InvalidModeState]. *)
Theorem decision_nan_disables `{JsonF64Laws} `{!SerdeLaws DecisionState reread_decision}
    session env st payload rec :
  load_state session = Ok st → ds_phase st = PhEvaluation →
  env_message_type env = "Evaluation" → decode (env_payload env) = Some payload →
  wire_enum session (ep_recommendation payload) Upper None = Ok rec →
  rec ∈ RECOMMENDATIONS → is_Some (ds_proposals st !! ep_proposal_id payload) →
  ep_confidence payload = f64_nan →
  ∃ state, decision_on_message session env = Ok (PersistState state) ∧
    ∀ session' env', ss_mode_state session' = state →
      decision_on_message session' env' = Err InvalidModeState.
Proof.
  intros Hload Hph Hty Hdec Hwire Hrec Hknown Hnan.
  eexists. split.
  - unfold decision_on_message, dispatch, ensure_not_committed. rewrite Hload, Hty. simpl.
    rewrite Hph. simpl. unfold handle_evaluation, decode_payload.
    rewrite Hdec. simpl. rewrite Hwire. simpl.
    rewrite (proj2 (str_elem_true _ _) Hrec), Hnan. simpl.
    unfold ensure_can_deliberate, ensure_not_committed, ensure_known_proposal.
    rewrite Hph. simpl. rewrite bool_decide_eq_true_2 by done. simpl. reflexivity.
  - intros session' env' Hst. unfold decision_on_message, load_state. rewrite Hst.
    rewrite (encode_state_nonempty reread_decision).
    rewrite (decode_encode_state_err reread_decision); [done|].
    unfold reread_decision. simpl.
    destruct (mapM reread_evaluation (ds_evaluations st ++ _)) as [es|] eqn:Em; [|done].
    exfalso. apply mapM_Some_1, Forall2_app_inv_l in Em as (? & ? & _ & E2 & _).
    inversion E2 as [|? ? ? ? Hr]; subst. unfold reread_evaluation in Hr. simpl in Hr.
    by rewrite json_f64_non_finite in Hr.
Qed.
End theorems.

From S2P Require Import Concrete.

(** ** Demonstrations *)
Module Demo.
#[local] Instance json : JsonF64 := concrete_json_f64.
#[local] Instance json_laws : JsonF64Laws := concrete_json_f64_laws.
#[local] Instance serde : Serde DecisionState := countable_serde reread_decision.
#[local] Instance serde_laws : SerdeLaws DecisionState reread_decision :=
  countable_serde_laws reread_decision.
#[local] Instance evaluator : PolicyEvaluator := allow_all.
#[local] Instance m_proposal : Message ProposalPayload :=
  const_message (Some (MkProposalPayload "p1" "ship" "")).
#[local] Instance m_evaluation : Message EvaluationPayload :=
  const_message (Some (MkEvaluationPayload "p1" "APPROVE" f64_nan "")).
#[local] Instance m_objection : Message ObjectionPayload := const_message None.
#[local] Instance m_vote : Message VotePayload :=
  const_message (Some (MkVotePayload "p1" "APPROVE" "")).
#[local] Instance m_commitment : Message CommitmentPayload := const_message None.

Definition proposed : DecisionState :=
  MkDecisionState {["p1" := MkProposal "p1" "ship" "" "alice"]} [] [] ∅ PhEvaluation.
Definition session : Session :=
  set_mode_state (to_vec proposed)
    (set_participants ["alice"; "bob"]
      (session_builder "s" "macp.mode.decision.v1" "alice")).
Definition voted : DecisionState :=
  MkDecisionState (ds_proposals proposed) [] []
    {["p1" := {["bob" := MkVote "p1" "APPROVE" "" "bob"]}]} PhVoting.

Lemma decision_append_only_witness : decision_inv voted ∧ extends proposed voted.
Proof.
  destruct (decision_append_only session (demo_env "Proposal" "m1" "alice" [])
    default_state proposed None) as (H & _); [apply default_state_inv|by vm_compute|].
  destruct (decision_append_only session (demo_env "Vote" "m2" "bob" [])
    proposed voted None) as (? & ? & _); [done|by vm_compute|done].
Defined.

Lemma decision_nan_disables_witness :
  ∃ state, decision_on_message session (demo_env "Evaluation" "m2" "bob" [])
             = Ok (PersistState state) ∧
    decision_on_message (set_mode_state state session) (demo_env "Vote" "m3" "bob" [])
      = Err InvalidModeState.
Proof.
  destruct (decision_nan_disables session (demo_env "Evaluation" "m2" "bob" []) proposed
    (MkEvaluationPayload "p1" "APPROVE" f64_nan "") "APPROVE") as (state & H1 & H2);
    [by vm_compute|done|done|done|done|set_solver|by eexists|done|].
  exists state. split; [done|]. by apply H2.
Defined.
End Demo.
