(* ===== verification/Proposal.v ===== *)
(** * Proposal mode (crates/macp-modes/src/mode/proposal.rs)

    Negotiation: proposals and counterproposals, accepts, rejections,
    withdrawals and the terminal commitment under the policy's acceptance
    criterion. Then the invariant of the negotiation record and the exact
    condition under which a commitment is accepted. *)

From stdpp Require Import prelude gmap strings.
From S2P Require Import Prelude RustStr Floats Extern Error Policy Wire SessionData.
From S2P Require Import CommitmentHash ModeApi.
Open Scope Z_scope.

Inductive ProposalDisposition := Live | Withdrawn.
#[export] Instance ProposalDisposition_eq_dec : EqDecision ProposalDisposition.
Proof. solve_decision. Defined.
Inductive ProposalPhase := Negotiating | Converged | TerminalRejected | Committed.
#[export] Instance ProposalPhase_eq_dec : EqDecision ProposalPhase.
Proof. solve_decision. Defined.

Record ProposalRecord := MkProposalRecord {
  prr_proposal_id : string;
  prr_title : string;
  prr_summary : string;
  prr_details : bytes;
  prr_tags : list string;
  prr_proposer : string;
  prr_supersedes_proposal_id : option string;
  prr_disposition : ProposalDisposition;
}.
Record TerminalRejectRecord := MkTerminalRejectRecord {
  trr_proposal_id : string;
  trr_sender : string;
  trr_reason : string;
}.
Record RejectRecord := MkRejectRecord {
  rr_proposal_id : string;
  rr_sender : string;
  rr_reason : string;
  rr_terminal : bool;
}.
Record ProposalState := MkProposalState {
  ps_proposals : gmap string ProposalRecord;
  ps_accepts : gmap string string;
  ps_terminal_rejections : list TerminalRejectRecord;
  ps_rejections : list RejectRecord;
  ps_phase : ProposalPhase;
}.
Definition default_state : ProposalState := MkProposalState ∅ ∅ [] [] Negotiating.
Definition set_phase (ph : ProposalPhase) (st : ProposalState) : ProposalState :=
  MkProposalState (ps_proposals st) (ps_accepts st) (ps_terminal_rejections st)
    (ps_rejections st) ph.

Definition is_live (record : ProposalRecord) : bool := prr_disposition record == Live.
Definition is_counter (record : ProposalRecord) : bool :=
  bool_decide (is_Some (prr_supersedes_proposal_id record)).

Definition live_proposal (state : ProposalState) (proposal_id : string)
    : option ProposalRecord :=
  record ← ps_proposals state !! proposal_id;
  if is_live record then Some record else None.

Definition check_acceptance_criterion (criterion : string) (session : Session)
    (state : ProposalState) (proposal_id proposer : string) : bool :=
  if criterion == "counterparty" then
    forallb (λ p, ps_accepts state !! p == Some proposal_id)
      (List.filter (λ p, p != proposer) (ss_participants session))
  else if criterion == "initiator" then
    ps_accepts state !! ss_initiator_sender session == Some proposal_id
  else participants_all_accept (ss_participants session) (ps_accepts state) proposal_id.

Definition commitment_ready (state : ProposalState) : bool :=
  match ps_phase state with Converged | TerminalRejected => true | _ => false end.
Definition ensure_mutable (state : ProposalState) : result MacpError unit :=
  if ps_phase state == Committed then Err SessionNotOpen else Ok ().
Definition counter_proposal_count (state : ProposalState) : Z :=
  bt_count is_counter (ps_proposals state).

Section mode.
Context `{Serde ProposalState} `{FromValue CommitmentRules} `{FromValue ProposalPolicyRules}.
Context `{PolicyEvaluator} `{Message NegProposalPayload} `{Message CounterProposalPayload}.
Context `{Message AcceptPayload} `{Message NegRejectPayload} `{Message WithdrawPayload}.
Context `{Message CommitmentPayload}.

(** [from_value::<ProposalPolicyRules>(..).unwrap_or_default()] of the bound
    policy, when there is one. *)
Definition bound_rules (session : Session) : option ProposalPolicyRules :=
  (λ p, unwrap_or default_proposal_rules (from_value (policy_rules p)))
    <$> ss_policy_definition session.

Definition acceptance_criterion (session : Session) : string :=
  match bound_rules session with Some r => ppr_criterion r | None => "all_parties" end.

Definition refresh_phase (session : Session) (state : ProposalState) : ProposalState :=
  let criterion := acceptance_criterion session in
  set_phase
    (if negb (is_empty (ps_terminal_rejections state)) then TerminalRejected
     else if bt_any (λ proposal,
               is_live proposal
               && check_acceptance_criterion criterion session state
                    (prr_proposal_id proposal) (prr_proposer proposal))
             (ps_proposals state)
     then Converged
     else Negotiating) state.

Definition proposal_authorize_sender (session : Session) (env : Envelope)
    : result MacpError unit :=
  if env_message_type env == "Commitment"
  then check_commitment_authority session (env_sender env)
  else if is_declared_participant (ss_participants session) (env_sender env) then Ok ()
  else Err Forbidden.

Definition proposal_on_session_start (session : Session) (env : Envelope)
    : result MacpError ModeResponse :=
  if is_empty (ss_participants session) then Err InvalidPayload
  else Ok (PersistState (encode_mode_state default_state)).

Definition insert_proposal (record : ProposalRecord) (state : ProposalState) : ProposalState :=
  MkProposalState (<[prr_proposal_id record := record]> (ps_proposals state))
    (ps_accepts state) (ps_terminal_rejections state) (ps_rejections state) (ps_phase state).

Definition handle_proposal (session : Session) (env : Envelope) (state : ProposalState)
    : result MacpError ProposalState :=
  payload ← decode_payload NegProposalPayload env;
  if blank (np_proposal_id payload)
     || bool_decide (is_Some (ps_proposals state !! np_proposal_id payload))
  then Err InvalidPayload
  else Ok (refresh_phase session (insert_proposal
    {| prr_proposal_id := np_proposal_id payload;
       prr_title := np_title payload;
       prr_summary := np_summary payload;
       prr_details := np_details payload;
       prr_tags := np_tags payload;
       prr_proposer := env_sender env;
       prr_supersedes_proposal_id := None;
       prr_disposition := Live |} state)).

(** The [max_rounds] guard of CounterProposal. *)
Definition rounds_exhausted (session : Session) (state : ProposalState) : bool :=
  match bound_rules session with
  | Some rules =>
      (ppr_max_rounds rules >? 0) && (counter_proposal_count state >=? ppr_max_rounds rules)
  | None => false
  end.

Definition handle_counter_proposal (session : Session) (env : Envelope)
    (state : ProposalState) : result MacpError ProposalState :=
  payload ← decode_payload CounterProposalPayload env;
  if blank (cpp_proposal_id payload) || blank (cpp_supersedes_proposal_id payload)
     || bool_decide (is_Some (ps_proposals state !! cpp_proposal_id payload))
     || negb (bool_decide (is_Some (ps_proposals state !! cpp_supersedes_proposal_id payload)))
  then Err InvalidPayload
  else if rounds_exhausted session state then Err InvalidPayload
  else Ok (refresh_phase session (insert_proposal
    {| prr_proposal_id := cpp_proposal_id payload;
       prr_title := cpp_title payload;
       prr_summary := cpp_summary payload;
       prr_details := cpp_details payload;
       prr_tags := [];
       prr_proposer := env_sender env;
       prr_supersedes_proposal_id := Some (cpp_supersedes_proposal_id payload);
       prr_disposition := Live |} state)).

Definition handle_accept (session : Session) (env : Envelope) (state : ProposalState)
    : result MacpError ProposalState :=
  payload ← decode_payload AcceptPayload env;
  match live_proposal state (ap_proposal_id payload) with
  | None => Err InvalidPayload
  | Some _ =>
      Ok (refresh_phase session
        (MkProposalState (ps_proposals state)
           (<[env_sender env := ap_proposal_id payload]> (ps_accepts state))
           (ps_terminal_rejections state) (ps_rejections state) (ps_phase state)))
  end.

Definition handle_reject (session : Session) (env : Envelope) (state : ProposalState)
    : result MacpError ProposalState :=
  payload ← decode_payload NegRejectPayload env;
  match live_proposal state (nr_proposal_id payload) with
  | None => Err InvalidPayload
  | Some _ =>
      let is_terminal := nr_terminal payload
        || match bound_rules session with
           | Some rules => ppr_terminal_on_any_reject rules
           | None => false
           end in
      let rejections := ps_rejections state ++
        [MkRejectRecord (nr_proposal_id payload) (env_sender env) (nr_reason payload)
           is_terminal] in
      let terminal_rejections :=
        if is_terminal then
          ps_terminal_rejections state ++
            [MkTerminalRejectRecord (nr_proposal_id payload) (env_sender env)
               (nr_reason payload)]
        else ps_terminal_rejections state in
      Ok (refresh_phase session
        (MkProposalState (ps_proposals state) (ps_accepts state) terminal_rejections
           rejections (ps_phase state)))
  end.

Definition withdrawn (record : ProposalRecord) : ProposalRecord :=
  MkProposalRecord (prr_proposal_id record) (prr_title record) (prr_summary record)
    (prr_details record) (prr_tags record) (prr_proposer record)
    (prr_supersedes_proposal_id record) Withdrawn.

Definition handle_withdraw (session : Session) (env : Envelope) (state : ProposalState)
    : result MacpError ProposalState :=
  payload ← decode_payload WithdrawPayload env;
  let pid := wp_proposal_id payload in
  if blank pid then Err InvalidPayload
  else
    record ← ok_or (ps_proposals state !! pid) InvalidPayload;
    if prr_proposer record != env_sender env then Err Forbidden
    else if prr_disposition record == Withdrawn then Err InvalidPayload
    else Ok (refresh_phase session
      (MkProposalState (<[pid := withdrawn record]> (ps_proposals state))
         (filter (λ '(_, p), p ≠ pid) (ps_accepts state))
         (List.filter (λ r, trr_proposal_id r != pid) (ps_terminal_rejections state))
         (ps_rejections state) (ps_phase state))).

Definition handle_commitment (session : Session) (env : Envelope) (state : ProposalState)
    : result MacpError ProposalState :=
  commitment ← validate_commitment_payload_for_session session (env_payload env);
  let state := refresh_phase session state in
  if negb (commitment_ready state) then Err InvalidPayload
  else
    _ ← enforce_commitment_policy session (CMProposal (counter_proposal_count state))
          (cp_outcome_positive commitment);
    Ok (set_phase Committed state).

Definition dispatch (session : Session) (env : Envelope) (state : ProposalState)
    : result MacpError (ProposalState * option bytes) :=
  _ ← ensure_mutable state;
  let mt := env_message_type env in
  if mt == "Proposal" then st ← handle_proposal session env state; Ok (st, None)
  else if mt == "CounterProposal" then
    st ← handle_counter_proposal session env state; Ok (st, None)
  else if mt == "Accept" then st ← handle_accept session env state; Ok (st, None)
  else if mt == "Reject" then st ← handle_reject session env state; Ok (st, None)
  else if mt == "Withdraw" then st ← handle_withdraw session env state; Ok (st, None)
  else if mt == "Commitment" then
    st ← handle_commitment session env state; Ok (st, Some (env_payload env))
  else Err InvalidPayload.

Definition proposal_on_message (session : Session) (env : Envelope)
    : result MacpError ModeResponse :=
  state ← (if is_empty (ss_mode_state session) then Ok default_state
           else decode_mode_state (ss_mode_state session));
  out ← dispatch session env state;
  Ok (respond out).

Definition ProposalMode : Mode := {|
  on_session_start := proposal_on_session_start;
  on_message := proposal_on_message;
  on_message_at := default_on_message_at proposal_on_message;
  validate_client_envelope := default_validate_client_envelope;
  due_synthetic_envelope := default_due_synthetic_envelope;
  authorize_sender := proposal_authorize_sender |}.
End mode.

(** ** The invariant of the negotiation record *)
Section theorems.
Context `{Serde ProposalState} `{FromValue CommitmentRules} `{FromValue ProposalPolicyRules}.
Context `{PolicyEvaluator} `{Message NegProposalPayload} `{Message CounterProposalPayload}.
Context `{Message AcceptPayload} `{Message NegRejectPayload} `{Message WithdrawPayload}.
Context `{Message CommitmentPayload}.
Implicit Types (session : Session) (env : Envelope) (st : ProposalState).

(** Accepts and terminal rejections stand against live proposals only, a
    counterproposal supersedes a proposal that exists, the policy's cap on
    counterproposals is respected, and the phase is what the record says. *)
Record record_inv session st : Prop := {
  pi_key k r : ps_proposals st !! k = Some r → prr_proposal_id r = k ∧ blank k = false;
  pi_supersedes k r t : ps_proposals st !! k = Some r →
    prr_supersedes_proposal_id r = Some t → is_Some (ps_proposals st !! t);
  pi_accepts p pid : ps_accepts st !! p = Some pid → is_Some (live_proposal st pid);
  pi_terminal r : r ∈ ps_terminal_rejections st →
    is_Some (live_proposal st (trr_proposal_id r)) ∧
    MkRejectRecord (trr_proposal_id r) (trr_sender r) (trr_reason r) true
      ∈ ps_rejections st;
  pi_rounds rules : bound_rules session = Some rules → 0 < ppr_max_rounds rules →
    counter_proposal_count st ≤ ppr_max_rounds rules;
}.
Record proposal_inv session st : Prop := {
  pi_record : record_inv session st;
  pi_phase : ps_phase st ≠ Committed → st = refresh_phase session st;
}.

Lemma live_proposal_Some st pid r :
  live_proposal st pid = Some r ↔ ps_proposals st !! pid = Some r ∧ prr_disposition r = Live.
Proof.
  unfold live_proposal, is_live. destruct (ps_proposals st !! pid); simpl; [|naive_solver].
  case_bool_decide; naive_solver.
Qed.

(** The phase is a function of the rest of the record. *)
Lemma record_inv_phase session st ph :
  record_inv session st → record_inv session (set_phase ph st).
Proof. intros []. by constructor. Qed.

Lemma refresh_inv session st :
  record_inv session st → proposal_inv session (refresh_phase session st).
Proof. intros H'. split; [by apply record_inv_phase|]. reflexivity. Qed.

Lemma insert_proposal_inv session st r :
  ps_proposals st !! prr_proposal_id r = None → blank (prr_proposal_id r) = false →
  (∀ t, prr_supersedes_proposal_id r = Some t → is_Some (ps_proposals st !! t)) →
  (is_counter r = true → rounds_exhausted session st = false) →
  record_inv session st → record_inv session (insert_proposal r st).
Proof.
  intros Hnew Hid Hsup Hrounds [Ik Is Ia It Ir].
  assert (∀ pid, is_Some (live_proposal st pid) → is_Some (live_proposal (insert_proposal r st) pid))
    as Hlive.
  { intros pid [x [Hx Hd]%live_proposal_Some]. exists x. apply live_proposal_Some. split; [|done].
    simpl. rewrite lookup_insert_ne; [done|]. intros E. congruence. }
  constructor; simpl.
  - intros k x [[<- <-]|[_ Hx]]%lookup_insert_Some; auto.
  - intros k x t [[<- <-]|[_ Hx]]%lookup_insert_Some Ht; apply lookup_insert_is_Some';
      right; eauto.
  - eauto.
  - intros x [? ?]%It. auto.
  - intros rules Hr Hm. specialize (Ir rules Hr Hm).
    unfold counter_proposal_count in *. simpl. rewrite bt_count_insert by done.
    destruct (is_counter r) eqn:Ec; [|lia]. specialize (Hrounds eq_refl).
    unfold rounds_exhausted in Hrounds. rewrite Hr in Hrounds.
    apply andb_false_iff in Hrounds as [?|?]; bool_simp; unfold counter_proposal_count in *; lia.
Qed.

Lemma proposal_handle_proposal_inv session env st st' :
  handle_proposal session env st = Ok st' → record_inv session st → proposal_inv session st'.
Proof.
  unfold handle_proposal. intros E Hi. res_inv. bool_simp. apply refresh_inv.
  apply insert_proposal_inv; simpl; try done. by apply eq_None_not_Some.
Qed.

Lemma handle_counter_inv session env st st' :
  handle_counter_proposal session env st = Ok st' →
  record_inv session st → proposal_inv session st'.
Proof.
  unfold handle_counter_proposal. intros E Hi. res_inv. bool_simp. apply refresh_inv.
  apply insert_proposal_inv; simpl; try done; [by apply eq_None_not_Some|].
  by intros ? [= <-].
Qed.

Lemma proposal_handle_accept_inv session env st st' :
  handle_accept session env st = Ok st' → record_inv session st → proposal_inv session st'.
Proof.
  unfold handle_accept. intros E [Ik Is Ia It Ir]. res_inv. apply refresh_inv.
  constructor; simpl; auto. intros q pid [[<- <-]|[_ Hp]]%lookup_insert_Some; [|by eauto].
  unfold live_proposal in *. simpl. by eexists.
Qed.

Lemma proposal_handle_reject_inv session env st st' :
  handle_reject session env st = Ok st' → record_inv session st → proposal_inv session st'.
Proof.
  unfold handle_reject. intros E [Ik Is Ia It Ir]. res_inv. apply refresh_inv.
  constructor; simpl; auto. intros r Hr. rewrite elem_of_app.
  assert (r ∈ ps_terminal_rejections st → is_Some (live_proposal st (trr_proposal_id r)) ∧
    MkRejectRecord (trr_proposal_id r) (trr_sender r) (trr_reason r) true ∈ ps_rejections st)
    as Hold by apply It.
  destruct (nr_terminal _ || _) eqn:Et; [|naive_solver].
  apply elem_of_app in Hr as [Hr| ->%list_elem_of_singleton]; [naive_solver|]. simpl.
  split; [by eexists|right; by apply list_elem_of_singleton].
Qed.

Lemma handle_withdraw_inv session env st st' :
  handle_withdraw session env st = Ok st' → record_inv session st → proposal_inv session st'.
Proof.
  unfold handle_withdraw. intros E [Ik Is Ia It Ir]. res_inv. bool_simp. apply refresh_inv.
  rename x into payload, x0 into r. set (pid := wp_proposal_id payload) in *.
  assert (∀ q, q ≠ pid → is_Some (live_proposal st q) →
    is_Some (live_proposal (MkProposalState (<[pid := withdrawn r]> (ps_proposals st)) ∅ [] [] Negotiating) q))
    as Hlive.
  { intros q Hq [y [Hy Hd]%live_proposal_Some]. exists y. apply live_proposal_Some.
    simpl. by rewrite lookup_insert_ne. }
  constructor; simpl.
  - intros k y [[<- <-]|[_ Hy]]%lookup_insert_Some; [|by auto]. simpl. by apply Ik.
  - intros k y t [[<- <-]|[_ Hy]]%lookup_insert_Some Ht; apply lookup_insert_is_Some';
      right; eauto.
  - intros p q [Hp Hq]%map_lookup_filter_Some. apply Hlive; eauto.
  - intros y [Hy Hq]%list_elem_of_In%List.filter_In. bool_simp.
    apply list_elem_of_In, It in Hy as [? ?]. split; [|done]. by apply Hlive.
  - intros rules Hr Hm. specialize (Ir rules Hr Hm). etrans; [|exact Ir].
    unfold counter_proposal_count; simpl. rewrite <- (insert_delete_id (ps_proposals st) pid r) at 2
      by done. rewrite <- insert_delete_eq.
    rewrite !bt_count_insert by apply lookup_delete_eq. unfold is_counter. simpl. lia.
Qed.

Lemma proposal_handle_commitment_inv session env st st' :
  handle_commitment session env st = Ok st' → record_inv session st → proposal_inv session st'.
Proof.
  unfold handle_commitment. intros E Hi. res_inv.
  split; [by repeat apply record_inv_phase|]. done.
Qed.

(** The participants whose accept the policy's criterion asks for, and that
    they all stand behind [pid]. *)
Definition agreed session st (pid proposer : string) : Prop :=
  let accepts p := ps_accepts st !! p = Some pid in
  let criterion := acceptance_criterion session in
  if decide (criterion = "counterparty") then
    ∀ p, p ∈ ss_participants session → p ≠ proposer → accepts p
  else if decide (criterion = "initiator") then accepts (ss_initiator_sender session)
  else ss_participants session ≠ [] ∧ ∀ p, p ∈ ss_participants session → accepts p.

Lemma check_acceptance_criterion_spec session st pid proposer :
  check_acceptance_criterion (acceptance_criterion session) session st pid proposer = true
  ↔ agreed session st pid proposer.
Proof.
  unfold check_acceptance_criterion, agreed.
  destruct (decide (_ = "counterparty")) as [E|E];
    [rewrite (bool_decide_eq_true_2 _ E)|rewrite (bool_decide_eq_false_2 _ E)].
  { rewrite forallb_forall. setoid_rewrite List.filter_In.
    setoid_rewrite <- list_elem_of_In. setoid_rewrite bool_decide_eq_true.
    setoid_rewrite negb_true_iff. setoid_rewrite bool_decide_eq_false. naive_solver. }
  destruct (decide (_ = "initiator")) as [E'|E'];
    [rewrite (bool_decide_eq_true_2 _ E')|rewrite (bool_decide_eq_false_2 _ E')].
  - by rewrite bool_decide_eq_true.
  - apply participants_all_accept_spec.
Qed.

Lemma commitment_ready_spec session st :
  record_inv session st →
  commitment_ready (refresh_phase session st) = true ↔
  ps_terminal_rejections st ≠ [] ∨
  ∃ pid r, live_proposal st pid = Some r ∧ agreed session st pid (prr_proposer r).
Proof.
  intros [Ik _ _ _ _]. unfold commitment_ready, refresh_phase. simpl.
  destruct (is_empty (ps_terminal_rejections st)) eqn:Et; bool_simp; simpl; [|naive_solver].
  rewrite Et. destruct (bt_any _ _) eqn:Ea; simpl; bool_simp; split; try done.
  - destruct Ea as (pid & r & Hr & Hx). apply andb_true_iff in Hx as [Hl Hx].
    apply check_acceptance_criterion_spec in Hx. destruct (Ik _ _ Hr) as [Hid _].
    intros _. right. exists pid, r. rewrite live_proposal_Some. unfold is_live in Hl.
    bool_simp. rewrite Hid in Hx. done.
  - intros [?|(pid & r & [Hr Hd]%live_proposal_Some & Hx)]; [done|].
    specialize (Ea pid r Hr). destruct (Ik _ _ Hr) as [Hid _].
    apply check_acceptance_criterion_spec in Hx. unfold is_live in Ea.
    rewrite bool_decide_eq_true_2 in Ea by done. simpl in Ea. by rewrite Hid, Hx in Ea.
Qed.

(** Every accepted message keeps the negotiation record well-formed:
    accepts and terminal rejections only ever stand against live proposals
    (withdrawing a proposal takes them back), each terminal rejection is in
    the audit trail, counterproposals supersede proposals that exist and never
    exceed the policy's [max_rounds], and the stored phase is the one the
    record determines until the commitment. *)
Theorem proposal_inv_preserved session env st st' res :
  proposal_inv session st → dispatch session env st = Ok (st', res) →
  proposal_inv session st'.
Proof.
  intros [Hi _] E. unfold dispatch in E. res_inv;
    eauto using proposal_handle_proposal_inv, handle_counter_inv, proposal_handle_accept_inv,
      proposal_handle_reject_inv, handle_withdraw_inv, proposal_handle_commitment_inv.
Qed.

(** When a commitment is accepted in Proposal mode. On a well-formed
    record that is not yet committed, a commitment that validates and that
    the bound policy allows is accepted exactly when a terminal rejection
    stands, or some live proposal has the accepts the policy's criterion asks
    for: all participants by default, all but the proposer under
    [counterparty], the initiator under [initiator]. *)
Theorem proposal_commitment_iff session env st c :
  proposal_inv session st → ps_phase st ≠ Committed →
  env_message_type env = "Commitment" →
  validate_commitment_payload_for_session session (env_payload env) = Ok c →
  enforce_commitment_policy session (CMProposal (counter_proposal_count st))
    (cp_outcome_positive c) = Ok () →
  dispatch session env st
    = Ok (set_phase Committed (refresh_phase session st), Some (env_payload env)) ↔
  ps_terminal_rejections st ≠ [] ∨
  ∃ pid r, live_proposal st pid = Some r ∧ agreed session st pid (prr_proposer r).
Proof.
  intros [Hi _] Hph Hty Hval Hpol.
  rewrite <- commitment_ready_spec by done.
  unfold dispatch, ensure_mutable. rewrite (bool_decide_eq_false_2 _ Hph), Hty. simpl.
  unfold handle_commitment. rewrite Hval. simpl.
  destruct (commitment_ready _) eqn:Er; simpl; [|by split].
  replace (counter_proposal_count (refresh_phase session st))
    with (counter_proposal_count st) by done.
  by rewrite Hpol.
Qed.
End theorems.

From S2P Require Import Concrete.

(** ** Demonstrations *)
Module Demo.
#[local] Instance rules : FromValue ProposalPolicyRules :=
  const_from_value (MkProposalPolicyRules "counterparty" 1 false default_commitment_rules).
#[local] Instance evaluator : PolicyEvaluator := allow_all.
#[local] Instance m_proposal : Message NegProposalPayload :=
  const_message (Some (MkNegProposalPayload "p1" "price" "" [] [])).
#[local] Instance m_counter : Message CounterProposalPayload := const_message None.
#[local] Instance m_accept : Message AcceptPayload :=
  const_message (Some (MkAcceptPayload "p1" "")).
#[local] Instance m_reject : Message NegRejectPayload := const_message None.
#[local] Instance m_withdraw : Message WithdrawPayload := const_message None.
Definition commitment : CommitmentPayload :=
  MkCommitmentPayload "c1" "proposal.accepted" "deal" "agreed" "" "" "" true None.
#[local] Instance m_commitment : Message CommitmentPayload := const_message (Some commitment).

Definition session : Session :=
  set_policy_definition
    (Some (MkPolicyDefinition "pol" "macp.mode.proposal.v1" "" VNull 1))
    (set_participants ["buyer"; "seller"]
      (session_builder "s" "macp.mode.proposal.v1" "buyer")).
Definition after (st : ProposalState) (env : Envelope) : ProposalState :=
  match dispatch session env st with Ok (st', _) => st' | Err _ => st end.
Definition st1 : ProposalState := after default_state (demo_env "Proposal" "m1" "seller" []).
Definition st2 : ProposalState := after st1 (demo_env "Accept" "m2" "buyer" []).

Lemma proposal_default_inv : proposal_inv session default_state.
Proof.
  split; [|done]. constructor; simpl; try set_solver. intros r _ Hr.
  unfold counter_proposal_count, bt_count. simpl. rewrite bt_values_empty.
  unfold len. simpl. lia.
Qed.

Lemma st2_inv : proposal_inv session st2.
Proof.
  eapply (proposal_handle_accept_inv _ (demo_env "Accept" "m2" "buyer" []) st1); [by vm_compute|].
  eapply pi_record, (proposal_handle_proposal_inv _ (demo_env "Proposal" "m1" "seller" [])
    default_state); [by vm_compute|apply proposal_default_inv].
Qed.

Lemma proposal_inv_preserved_witness : proposal_inv session st2.
Proof.
  apply (proposal_inv_preserved session (demo_env "Accept" "m2" "buyer" []) st1 st2 None);
    [|by vm_compute].
  apply (proposal_inv_preserved session (demo_env "Proposal" "m1" "seller" [])
    default_state st1 None); [apply proposal_default_inv|by vm_compute].
Defined.

Lemma proposal_commitment_iff_witness :
  dispatch session (demo_env "Commitment" "m3" "buyer" []) st2
  = Ok (set_phase Committed (refresh_phase session st2), Some []).
Proof.
  apply (proposal_commitment_iff session (demo_env "Commitment" "m3" "buyer" []) st2 commitment);
    [apply st2_inv|done|done|by vm_compute|by vm_compute|].
  right. exists "p1", (MkProposalRecord "p1" "price" "" [] [] "seller" None Live).
  split; [by vm_compute|]. intros p Hp Hne. simpl in *. set_unfold in Hp.
  destruct Hp as [->|[->|[]]]; [by vm_compute|done].
Defined.
End Demo.
