(* ===== verification/Task.v ===== *)
(** * Task mode (crates/macp-modes/src/mode/task.rs)

    One delegated task: the request, acceptance and rejection by assignees,
    progress updates, the terminal report and the commitment. Then the
    invariant of the task record, the irrevocability of an acceptance, and
    the condition for a commitment. *)

From stdpp Require Import prelude gmap strings.
From S2P Require Import Prelude RustStr Floats Extern Error Policy Wire SessionData.
From S2P Require Import CommitmentHash ModeApi.
Open Scope Z_scope.

Record TaskRecord := MkTaskRecord {
  tk_task_id : string;
  tk_title : string;
  tk_instructions : string;
  tk_requested_assignee : string;
  tk_input : bytes;
  tk_deadline_unix_ms : Z;
  tk_requester : string;
}.
Record TaskRejectRecord := MkTaskRejectRecord {
  trj_task_id : string;
  trj_assignee : string;
  trj_reason : string;
  trj_while_assigned : bool;
}.
Record TaskUpdateRecord := MkTaskUpdateRecord {
  tup_task_id : string;
  tup_status : string;
  tup_progress : f64;
  tup_message : string;
  tup_partial_output : bytes;
  tup_sender : string;
}.
Record TaskCompleteRecord := MkTaskCompleteRecord {
  tcr_task_id : string;
  tcr_assignee : string;
  tcr_output : bytes;
  tcr_summary : string;
}.
Record TaskFailRecord := MkTaskFailRecord {
  tfr_task_id : string;
  tfr_assignee : string;
  tfr_error_code : string;
  tfr_reason : string;
  tfr_retryable : bool;
}.
Inductive TaskTerminalReport :=
| Complete (record : TaskCompleteRecord)
| TaskFailed (record : TaskFailRecord).
Record TaskState := MkTaskState {
  ts_task : option TaskRecord;
  ts_active_assignee : option string;
  ts_rejections : list TaskRejectRecord;
  ts_updates : list TaskUpdateRecord;
  ts_terminal_report : option TaskTerminalReport;
}.
Definition default_state : TaskState := MkTaskState None None [] [] None.

Definition PERSONAL_DECLINE_REV : Z := 4.

Definition ensure_task_matches (expected_task_id actual_task_id : string)
    : result MacpError unit :=
  if str_is_empty expected_task_id || (expected_task_id != actual_task_id)
  then Err InvalidPayload else Ok ().

Definition can_assignee_respond (session : Session) (task : TaskRecord) (sender : string)
    : bool :=
  if negb (str_is_empty (tk_requested_assignee task))
  then sender == tk_requested_assignee task
  else is_declared_participant (ss_participants session) sender
       && (sender != ss_initiator_sender session).

(** [state.rejections.iter().any(|r| r.assignee == sender)]. *)
Definition has_rejected (state : TaskState) (sender : string) : bool :=
  existsb (λ r, trj_assignee r == sender) (ts_rejections state).

(** The optional [assignee] field of a payload, when present, is the sender. *)
Definition assignee_mismatch (assignee sender : string) : bool :=
  negb (str_is_empty assignee) && (assignee != sender).

Section mode.
Context `{Serde TaskState} `{FromValue CommitmentRules} `{FromValue TaskPolicyRules}.
Context `{PolicyEvaluator} `{Message TaskRequestPayload} `{Message TaskAcceptPayload}.
Context `{Message TaskRejectPayload} `{Message TaskUpdatePayload}.
Context `{Message TaskCompletePayload} `{Message TaskFailPayload}.
Context `{Message CommitmentPayload}.

Definition allow_reassignment (session : Session) : bool :=
  match ss_policy_definition session with
  | Some p =>
      tpr_allow_reassignment_on_reject
        (unwrap_or default_task_rules (from_value (policy_rules p)))
  | None => false
  end.

Definition task_authorize_sender (session : Session) (env : Envelope)
    : result MacpError unit :=
  if env_message_type env == "TaskRequest" then
    if env_sender env == ss_initiator_sender session then Ok () else Err Forbidden
  else if env_message_type env == "Commitment" then
    check_commitment_authority session (env_sender env)
  else if is_declared_participant (ss_participants session) (env_sender env) then Ok ()
  else Err Forbidden.

Definition task_on_session_start (session : Session) (env : Envelope)
    : result MacpError ModeResponse :=
  if negb (existsb (λ p, p != ss_initiator_sender session) (ss_participants session))
  then Err InvalidPayload
  else Ok (PersistState (encode_mode_state default_state)).

Definition handle_request (session : Session) (env : Envelope) (state : TaskState)
    : result MacpError TaskState :=
  if env_sender env != ss_initiator_sender session then Err Forbidden
  else
    payload ← decode_payload TaskRequestPayload env;
    if bool_decide (is_Some (ts_task state)) || str_is_empty (tq_task_id payload)
    then Err InvalidPayload
    else if negb (str_is_empty (tq_requested_assignee payload))
         && negb (is_declared_participant (ss_participants session)
                    (tq_requested_assignee payload))
    then Err InvalidPayload
    else
      let task := {| tk_task_id := tq_task_id payload;
                     tk_title := tq_title payload;
                     tk_instructions := tq_instructions payload;
                     tk_requested_assignee := tq_requested_assignee payload;
                     tk_input := tq_input payload;
                     tk_deadline_unix_ms := tq_deadline_unix_ms payload;
                     tk_requester := env_sender env |} in
      Ok (MkTaskState (Some task) (ts_active_assignee state) (ts_rejections state)
            (ts_updates state) (ts_terminal_report state)).

Definition handle_accept (session : Session) (env : Envelope) (state : TaskState)
    : result MacpError TaskState :=
  payload ← decode_payload TaskAcceptPayload env;
  task ← ok_or (ts_task state) InvalidPayload;
  _ ← ensure_task_matches (ta_task_id payload) (tk_task_id task);
  if bool_decide (is_Some (ts_active_assignee state)) then Err InvalidPayload
  else
    let rule_2a := ss_semantics_rev session >=? PERSONAL_DECLINE_REV in
    if rule_2a && has_rejected state (env_sender env) then Err InvalidPayload
    else
      let reassigning :=
        if rule_2a then existsb trj_while_assigned (ts_rejections state)
        else negb (is_empty (ts_rejections state)) in
      if reassigning && negb (allow_reassignment session) then Err InvalidPayload
      else if assignee_mismatch (ta_assignee payload) (env_sender env)
      then Err InvalidPayload
      else if negb (can_assignee_respond session task (env_sender env)) then Err Forbidden
      else Ok (MkTaskState (ts_task state) (Some (env_sender env)) (ts_rejections state)
                 (ts_updates state) (ts_terminal_report state)).

(** The guard on the active assignee in TaskReject: nobody else may reject,
    and the active assignee only under [allow_reassignment_on_reject]. *)
Definition ensure_may_reject (session : Session) (state : TaskState) (sender : string)
    : result MacpError unit :=
  match ts_active_assignee state with
  | Some active =>
      if active == sender then
        if negb (allow_reassignment session) then Err InvalidPayload else Ok ()
      else Err InvalidPayload
  | None => Ok ()
  end.

Definition handle_reject (session : Session) (env : Envelope) (state : TaskState)
    : result MacpError TaskState :=
  payload ← decode_payload TaskRejectPayload env;
  task ← ok_or (ts_task state) InvalidPayload;
  _ ← ensure_task_matches (tj_task_id payload) (tk_task_id task);
  _ ← ensure_may_reject session state (env_sender env);
  if assignee_mismatch (tj_assignee payload) (env_sender env) then Err InvalidPayload
  else if bool_decide (ts_active_assignee state = None)
       && negb (can_assignee_respond session task (env_sender env))
  then Err Forbidden
  else if has_rejected state (env_sender env) then Err InvalidPayload
  else
    let while_assigned := ts_active_assignee state == Some (env_sender env) in
    let active_assignee := if while_assigned then None else ts_active_assignee state in
    let record := {| trj_task_id := tj_task_id payload;
                     trj_assignee := env_sender env;
                     trj_reason := tj_reason payload;
                     trj_while_assigned := while_assigned |} in
    Ok (MkTaskState (ts_task state) active_assignee (ts_rejections state ++ [record])
          (ts_updates state) (ts_terminal_report state)).

(** The guard TaskUpdate, TaskComplete and TaskFail share. *)
Definition ensure_reporter (state : TaskState) (sender : string) : result MacpError unit :=
  if bool_decide (is_Some (ts_terminal_report state))
     || (ts_active_assignee state != Some sender)
  then Err Forbidden else Ok ().

Definition handle_update (env : Envelope) (state : TaskState) : result MacpError TaskState :=
  payload ← decode_payload TaskUpdatePayload env;
  task ← ok_or (ts_task state) InvalidPayload;
  _ ← ensure_task_matches (tu_task_id payload) (tk_task_id task);
  _ ← ensure_reporter state (env_sender env);
  let record := {| tup_task_id := tu_task_id payload;
                   tup_status := tu_status payload;
                   tup_progress := tu_progress payload;
                   tup_message := tu_message payload;
                   tup_partial_output := tu_partial_output payload;
                   tup_sender := env_sender env |} in
  Ok (MkTaskState (ts_task state) (ts_active_assignee state) (ts_rejections state)
        (ts_updates state ++ [record]) (ts_terminal_report state)).

Definition handle_complete (env : Envelope) (state : TaskState) : result MacpError TaskState :=
  payload ← decode_payload TaskCompletePayload env;
  task ← ok_or (ts_task state) InvalidPayload;
  _ ← ensure_task_matches (tc_task_id payload) (tk_task_id task);
  _ ← ensure_reporter state (env_sender env);
  if assignee_mismatch (tc_assignee payload) (env_sender env) then Err InvalidPayload
  else
    let report := Complete {| tcr_task_id := tc_task_id payload;
                              tcr_assignee := env_sender env;
                              tcr_output := tc_output payload;
                              tcr_summary := tc_summary payload |} in
    Ok (MkTaskState (ts_task state) (ts_active_assignee state) (ts_rejections state)
          (ts_updates state) (Some report)).

Definition handle_fail (env : Envelope) (state : TaskState) : result MacpError TaskState :=
  payload ← decode_payload TaskFailPayload env;
  task ← ok_or (ts_task state) InvalidPayload;
  _ ← ensure_task_matches (tf_task_id payload) (tk_task_id task);
  _ ← ensure_reporter state (env_sender env);
  if assignee_mismatch (tf_assignee payload) (env_sender env) then Err InvalidPayload
  else
    let report := TaskFailed {| tfr_task_id := tf_task_id payload;
                           tfr_assignee := env_sender env;
                           tfr_error_code := tf_error_code payload;
                           tfr_reason := tf_reason payload;
                           tfr_retryable := tf_retryable payload |} in
    Ok (MkTaskState (ts_task state) (ts_active_assignee state) (ts_rejections state)
          (ts_updates state) (Some report)).

(** The named assignee declined before any assignment (rule 2a). *)
Definition no_eligible_assignee (session : Session) (state : TaskState) : bool :=
  (ss_semantics_rev session >=? PERSONAL_DECLINE_REV)
  && bool_decide (ts_active_assignee state = None)
  && match ts_task state with
     | Some t =>
         negb (str_is_empty (tk_requested_assignee t))
         && existsb (λ r, (trj_assignee r == tk_requested_assignee t)
                          && negb (trj_while_assigned r)) (ts_rejections state)
     | None => false
     end.

Definition has_output (state : TaskState) : bool :=
  match ts_terminal_report state with
  | Some (Complete record) => negb (is_empty (tcr_output record))
  | _ => false
  end.

Definition handle_commitment (session : Session) (env : Envelope) (state : TaskState)
    : result MacpError TaskState :=
  commitment ← validate_commitment_payload_for_session session (env_payload env);
  let declinable :=
    no_eligible_assignee session state && negb (cp_outcome_positive commitment) in
  if bool_decide (ts_terminal_report state = None) && negb declinable
  then Err InvalidPayload
  else
    _ ← enforce_commitment_policy session (CMTask (has_output state))
          (cp_outcome_positive commitment);
    Ok state.

Definition dispatch (session : Session) (env : Envelope) (state : TaskState)
    : result MacpError (TaskState * option bytes) :=
  let mt := env_message_type env in
  if mt == "TaskRequest" then st ← handle_request session env state; Ok (st, None)
  else if mt == "TaskAccept" then st ← handle_accept session env state; Ok (st, None)
  else if mt == "TaskReject" then st ← handle_reject session env state; Ok (st, None)
  else if mt == "TaskUpdate" then st ← handle_update env state; Ok (st, None)
  else if mt == "TaskComplete" then st ← handle_complete env state; Ok (st, None)
  else if mt == "TaskFail" then st ← handle_fail env state; Ok (st, None)
  else if mt == "Commitment" then
    st ← handle_commitment session env state; Ok (st, Some (env_payload env))
  else Err InvalidPayload.

Definition task_on_message (session : Session) (env : Envelope)
    : result MacpError ModeResponse :=
  state ← (if is_empty (ss_mode_state session) then Ok default_state
           else decode_mode_state (ss_mode_state session));
  out ← dispatch session env state;
  Ok (respond out).

Definition TaskMode : Mode := {|
  on_session_start := task_on_session_start;
  on_message := task_on_message;
  on_message_at := default_on_message_at task_on_message;
  validate_client_envelope := default_validate_client_envelope;
  due_synthetic_envelope := default_due_synthetic_envelope;
  authorize_sender := task_authorize_sender |}.
End mode.

(** ** The invariant of the task record *)
Definition reporter (r : TaskTerminalReport) : string :=
  match r with Complete c => tcr_assignee c | TaskFailed f => tfr_assignee f end.
Definition report_task (r : TaskTerminalReport) : string :=
  match r with Complete c => tcr_task_id c | TaskFailed f => tfr_task_id f end.

Record task_inv (session : Session) (st : TaskState) : Prop := {
  ti_no_task : ts_task st = None → st = default_state;
  ti_task t : ts_task st = Some t →
    tk_task_id t ≠ "" ∧ tk_requester t = ss_initiator_sender session ∧
    (tk_requested_assignee t = "" ∨ tk_requested_assignee t ∈ ss_participants session);
  ti_active t a : ts_task st = Some t → ts_active_assignee st = Some a →
    can_assignee_respond session t a = true;
  ti_declined a : PERSONAL_DECLINE_REV ≤ ss_semantics_rev session →
    ts_active_assignee st = Some a → has_rejected st a = false;
  ti_rejections t r : ts_task st = Some t → r ∈ ts_rejections st →
    trj_task_id r = tk_task_id t ∧ can_assignee_respond session t (trj_assignee r) = true;
  ti_once : NoDup (trj_assignee <$> ts_rejections st);
  ti_updates t u : ts_task st = Some t → u ∈ ts_updates st →
    tup_task_id u = tk_task_id t ∧ can_assignee_respond session t (tup_sender u) = true;
  ti_report t r : ts_task st = Some t → ts_terminal_report st = Some r →
    report_task r = tk_task_id t ∧ can_assignee_respond session t (reporter r) = true;
}.

(** What no message undoes: the task, the terminal report, and the entries of
    the rejection and update logs. *)
Record keeps (st st' : TaskState) : Prop := {
  kp_task t : ts_task st = Some t → ts_task st' = Some t;
  kp_report r : ts_terminal_report st = Some r → ts_terminal_report st' = Some r;
  kp_rejections : ts_rejections st `prefix_of` ts_rejections st';
  kp_updates : ts_updates st `prefix_of` ts_updates st';
}.

Lemma has_rejected_false st a :
  has_rejected st a = false ↔ a ∉ trj_assignee <$> ts_rejections st.
Proof.
  unfold has_rejected. rewrite <- not_true_iff_false, existsb_exists, list_elem_of_fmap.
  setoid_rewrite <- list_elem_of_In. setoid_rewrite bool_decide_eq_true. naive_solver.
Qed.

Lemma ensure_task_matches_ok e a u : ensure_task_matches e a = Ok u → e = a ∧ e ≠ "".
Proof. unfold ensure_task_matches. intros H. res_inv. bool_simp. done. Qed.

Section theorems.
Context `{Serde TaskState} `{FromValue CommitmentRules} `{FromValue TaskPolicyRules}.
Context `{PolicyEvaluator} `{Message TaskRequestPayload} `{Message TaskAcceptPayload}.
Context `{Message TaskRejectPayload} `{Message TaskUpdatePayload}.
Context `{Message TaskCompletePayload} `{Message TaskFailPayload}.
Context `{Message CommitmentPayload}.
Implicit Types (session : Session) (env : Envelope) (st : TaskState).

Lemma task_handle_request_inv session env st st' :
  handle_request session env st = Ok st' → task_inv session st →
  task_inv session st' ∧ keeps st st'.
Proof.
  unfold handle_request. intros E Hi. res_inv. bool_simp.
  assert (ts_task st = None) as Hn by (by apply eq_None_not_Some).
  pose proof (ti_no_task _ _ Hi Hn) as ->. simpl. split; [|by constructor].
  constructor; simpl; try done; try set_solver; try apply NoDup_nil_2.
  intros t' [= <-]. simpl. split_and!; [done..|].
  match goal with E : _ && _ = false |- _ => apply andb_false_iff in E as [E|E] end;
    bool_simp; [by left|right]. unfold is_declared_participant in *. bool_simp. done.
Qed.

Lemma task_handle_accept_inv session env st st' :
  handle_accept session env st = Ok st' → task_inv session st →
  task_inv session st' ∧ keeps st st'.
Proof.
  unfold handle_accept. intros E [In It Ia Id Ir Io Iu Ip]. res_inv. bool_simp.
  split; [|by constructor].
  constructor; simpl; auto; try congruence.
  intros a Hrev [= <-]. unfold has_rejected in *. simpl.
  by rewrite (proj2 (geb_true _ _) Hrev) in *.
Qed.

(** An active assignee that rejects was eligible when it accepted. *)
Lemma task_handle_reject_inv session env st st' :
  handle_reject session env st = Ok st' → task_inv session st →
  task_inv session st' ∧ keeps st st'.
Proof.
  unfold handle_reject. intros E [In It Ia Id Ir Io Iu Ip]. res_inv.
  rename x0 into t, x into payload.
  assert (can_assignee_respond session t (env_sender env) = true) as Hel.
  { unfold ensure_may_reject in *. destruct (ts_active_assignee st) as [a|] eqn:Ea.
    - res_inv. bool_simp. subst. by eapply Ia.
    - simpl in *. by destruct (can_assignee_respond _ _ _). }
  assert (ts_active_assignee st = None ∨ ts_active_assignee st = Some (env_sender env)) as Hact.
  { unfold ensure_may_reject in *. res_inv; bool_simp; subst; auto. }
  assert ((if ts_active_assignee st == Some (env_sender env) then None
           else ts_active_assignee st) = None) as Hnone.
  { destruct Hact as [-> | ->]; [by rewrite bool_decide_eq_false_2|].
    by rewrite bool_decide_eq_true_2. }
  destruct (ensure_task_matches_ok _ _ _ ltac:(eassumption)) as [Hid _].
  rewrite Hnone. split; [|constructor; simpl; auto; by apply prefix_app_r].
  constructor; simpl; auto; try done.
  - congruence.
  - intros t' r Ht' [Hr| ->%list_elem_of_singleton]%elem_of_app; [by eapply Ir|].
    simplify_eq. simpl. by rewrite Hid.
  - rewrite fmap_app. apply NoDup_app. split_and!; [done| |apply NoDup_singleton].
    intros a Ha ->%list_elem_of_singleton.
    match goal with E : has_rejected _ _ = false |- _ => by apply has_rejected_false in E end.
Qed.

(** The reporter is the active assignee, so it is eligible. *)
Lemma ensure_reporter_ok st sender u :
  ensure_reporter st sender = Ok u →
  ts_terminal_report st = None ∧ ts_active_assignee st = Some sender.
Proof.
  unfold ensure_reporter. intros E. res_inv. bool_simp. split; [|done].
  by apply eq_None_not_Some.
Qed.

Ltac report_step :=
  intros E [In It Ia Id Ir Io Iu Ip]; res_inv;
  repeat match goal with
  | E : ensure_task_matches _ _ = Ok _ |- _ => apply ensure_task_matches_ok in E as [? _]
  | E : ensure_reporter _ _ = Ok _ |- _ => apply ensure_reporter_ok in E as [? ?]
  end;
  (split; [|constructor; simpl; auto; try congruence; by apply prefix_app_r]);
  constructor; simpl; auto; try congruence; try done;
  intros ? ? ?; rewrite ?elem_of_app, ?list_elem_of_singleton;
  [intros [?| ->] || intros [= <-]]; simplify_eq; simpl; eauto.

Lemma handle_update_inv session env st st' :
  handle_update env st = Ok st' → task_inv session st →
  task_inv session st' ∧ keeps st st'.
Proof. unfold handle_update. report_step. Qed.

Lemma handle_complete_inv session env st st' :
  handle_complete env st = Ok st' → task_inv session st →
  task_inv session st' ∧ keeps st st'.
Proof. unfold handle_complete. report_step. Qed.

Lemma handle_fail_inv session env st st' :
  handle_fail env st = Ok st' → task_inv session st →
  task_inv session st' ∧ keeps st st'.
Proof. unfold handle_fail. report_step. Qed.

Lemma task_handle_commitment_ok session env st st' :
  handle_commitment session env st = Ok st' → st' = st.
Proof. unfold handle_commitment. intros E. res_inv. done. Qed.

Lemma keeps_refl st : keeps st st.
Proof. constructor; auto; reflexivity. Qed.

(** Every accepted message keeps the task record well-formed and loses
    nothing: there is one task, requested by the initiator; only an eligible
    participant accepts, rejects, updates or reports, each rejects at most
    once, and from semantics revision 4 on nobody who declined is the active
    assignee; the task and the terminal report are never replaced, and the
    rejection and update logs only grow. *)
Theorem task_inv_preserved session env st st' res :
  task_inv session st → dispatch session env st = Ok (st', res) →
  task_inv session st' ∧ keeps st st'.
Proof.
  intros Hi E. unfold dispatch in E. res_inv;
    eauto using task_handle_request_inv, task_handle_accept_inv, task_handle_reject_inv,
      handle_update_inv, handle_complete_inv, handle_fail_inv.
  match goal with E : handle_commitment _ _ _ = Ok _ |- _ =>
    apply task_handle_commitment_ok in E as -> end.
  auto using keeps_refl.
Qed.

(** An acceptance is irrevocable unless the policy allows reassignment:
    without [allow_reassignment_on_reject], no message of any sender changes
    or clears the active assignee (RFC-MACP-0009 section 5, rule 3b). *)
Theorem task_accept_irrevocable session env st st' res a :
  allow_reassignment session = false →
  ts_active_assignee st = Some a → dispatch session env st = Ok (st', res) →
  ts_active_assignee st' = Some a.
Proof.
  intros Hno Ha E. unfold dispatch in E. res_inv;
    match goal with
    | E : handle_request _ _ _ = Ok _ |- _ => unfold handle_request in E
    | E : handle_accept _ _ _ = Ok _ |- _ => unfold handle_accept in E; rewrite Ha in E
    | E : handle_reject _ _ _ = Ok _ |- _ =>
        unfold handle_reject, ensure_may_reject in E; rewrite Ha, Hno in E
    | E : handle_update _ _ = Ok _ |- _ => unfold handle_update in E
    | E : handle_complete _ _ = Ok _ |- _ => unfold handle_complete in E
    | E : handle_fail _ _ = Ok _ |- _ => unfold handle_fail in E
    | E : handle_commitment _ _ _ = Ok _ |- _ => apply task_handle_commitment_ok in E as ->
    end; res_inv; done.
Qed.

(** The named assignee declined the task before it was ever assigned. *)
Definition named_assignee_declined session st : Prop :=
  PERSONAL_DECLINE_REV ≤ ss_semantics_rev session ∧ ts_active_assignee st = None ∧
  ∃ t r, ts_task st = Some t ∧ tk_requested_assignee t ≠ "" ∧ r ∈ ts_rejections st ∧
    trj_assignee r = tk_requested_assignee t ∧ trj_while_assigned r = false.

Lemma no_eligible_assignee_spec session st :
  no_eligible_assignee session st = true ↔ named_assignee_declined session st.
Proof.
  unfold no_eligible_assignee, named_assignee_declined.
  rewrite !andb_true_iff, geb_true, bool_decide_eq_true.
  destruct (ts_task st) as [t|]; [|naive_solver].
  rewrite andb_true_iff, negb_true_iff, existsb_exists.
  setoid_rewrite <- list_elem_of_In. setoid_rewrite andb_true_iff.
  setoid_rewrite bool_decide_eq_true. setoid_rewrite negb_true_iff.
  unfold str_is_empty. rewrite bool_decide_eq_false. naive_solver.
Qed.

(** When a commitment is accepted in Task mode: a commitment that
    validates and that the bound policy allows is accepted exactly when a
    terminal report exists, or the outcome is negative and the named assignee
    declined the task before it was assigned. Accepting it changes nothing in
    the task record. *)
Theorem task_commitment_iff session env st c :
  env_message_type env = "Commitment" →
  validate_commitment_payload_for_session session (env_payload env) = Ok c →
  enforce_commitment_policy session (CMTask (has_output st)) (cp_outcome_positive c) = Ok () →
  dispatch session env st = Ok (st, Some (env_payload env)) ↔
  is_Some (ts_terminal_report st) ∨
  cp_outcome_positive c = false ∧ named_assignee_declined session st.
Proof.
  intros Hty Hval Hpol. rewrite <- no_eligible_assignee_spec.
  unfold dispatch. rewrite Hty. simpl. unfold handle_commitment. rewrite Hval. simpl.
  destruct (ts_terminal_report st) as [r|] eqn:Er; simpl.
  - rewrite Hpol. simpl. naive_solver.
  - destruct (no_eligible_assignee session st), (cp_outcome_positive c); simpl;
      rewrite ?Hpol; simpl; split; try done; naive_solver.
Qed.
End theorems.

From S2P Require Import Concrete.

(** ** Demonstrations *)
Module Demo.
#[local] Instance rules : FromValue TaskPolicyRules := const_from_value default_task_rules.
#[local] Instance evaluator : PolicyEvaluator := allow_all.
#[local] Instance m_request : Message TaskRequestPayload :=
  const_message (Some (MkTaskRequestPayload "t1" "build" "" "worker" [] 0)).
#[local] Instance m_accept : Message TaskAcceptPayload :=
  const_message (Some (MkTaskAcceptPayload "t1" "" "")).
#[local] Instance m_reject : Message TaskRejectPayload :=
  const_message (Some (MkTaskRejectPayload "t1" "" "busy")).
#[local] Instance m_update : Message TaskUpdatePayload :=
  const_message (Some (MkTaskUpdatePayload "t1" "half" f64_half "" [])).
#[local] Instance m_complete : Message TaskCompletePayload := const_message None.
#[local] Instance m_fail : Message TaskFailPayload := const_message None.
Definition commitment : CommitmentPayload :=
  MkCommitmentPayload "c1" "task.declined" "work" "declined" "" "" "" false None.
#[local] Instance m_commitment : Message CommitmentPayload := const_message (Some commitment).

Definition session : Session :=
  set_participants ["boss"; "worker"] (session_builder "s" "macp.mode.task.v1" "boss").
Definition after (st : TaskState) (env : Envelope) : TaskState :=
  match dispatch session env st with Ok (st', _) => st' | Err _ => st end.
Definition requested : TaskState := after default_state (demo_env "TaskRequest" "m1" "boss" []).
Definition accepted : TaskState := after requested (demo_env "TaskAccept" "m2" "worker" []).
Definition declined : TaskState := after requested (demo_env "TaskReject" "m2" "worker" []).

Lemma task_default_inv : task_inv session default_state.
Proof. constructor; simpl; try done; try set_solver. apply NoDup_nil_2. Qed.
Lemma task_inv_preserved_witness : task_inv session requested ∧ task_inv session accepted.
Proof.
  destruct (task_inv_preserved session (demo_env "TaskRequest" "m1" "boss" [])
    default_state requested None) as [Hi _]; [apply task_default_inv|by vm_compute|].
  split; [done|].
  apply (task_inv_preserved session (demo_env "TaskAccept" "m2" "worker" [])
    requested accepted None); [done|by vm_compute].
Defined.

Lemma task_accept_irrevocable_witness :
  ts_active_assignee (after accepted (demo_env "TaskUpdate" "m3" "worker" []))
  = Some "worker".
Proof.
  apply (task_accept_irrevocable session (demo_env "TaskUpdate" "m3" "worker" []) accepted
    (after accepted (demo_env "TaskUpdate" "m3" "worker" [])) None);
    by vm_compute.
Defined.

Lemma task_commitment_iff_witness :
  dispatch session (demo_env "Commitment" "m3" "boss" []) declined = Ok (declined, Some []).
Proof.
  apply (task_commitment_iff session (demo_env "Commitment" "m3" "boss" []) declined commitment);
    [done|by vm_compute|by vm_compute|].
  right. split; [done|]. split; [by vm_compute|]. split; [by vm_compute|].
  exists (MkTaskRecord "t1" "build" "" "worker" [] 0 "boss"),
    (MkTaskRejectRecord "t1" "worker" "busy" false).
  split_and!; [by vm_compute|done| |done|done].
  apply list_elem_of_singleton. by vm_compute.
Defined.
End Demo.
