(* ===== verification/Handoff.v ===== *)
(** * Handoff mode (crates/macp-modes/src/mode/handoff.rs)

    Offers, context, accepts and declines, the commitment, and the implicit
    accept: decided in unsuspended time, synthesized by the runtime from
    semantics revision 2 on, and applied inside the commitment before that. *)

From stdpp Require Import prelude gmap strings.
From S2P Require Import Prelude RustStr Floats Extern Error Policy Wire SessionData.
From S2P Require Import Session Deadline CommitmentHash ModeApi.
Open Scope Z_scope.

Definition IMPLICIT_ACCEPT_MESSAGE_ID_PREFIX : string := "implicit-accept:".
Definition IMPLICIT_ACCEPT_REASON : string := "implicit accept (timeout)".

Inductive HandoffDisposition := Offered | Accepted | Declined.
#[export] Instance HandoffDisposition_eq_dec : EqDecision HandoffDisposition.
Proof. solve_decision. Defined.

Record HandoffOfferRecord := MkHandoffOfferRecord {
  hof_handoff_id : string;
  hof_target_participant : string;
  hof_scope : string;
  hof_reason : string;
  hof_offered_by : string;
  hof_disposition : HandoffDisposition;
  hof_accepted_by : option string;
  hof_declined_by : option string;
  hof_outcome_reason : option string;
  hof_offered_at_ms : Z;
  hof_suspended_ms_at_offer : Z;
}.
Record HandoffContextRecord := MkHandoffContextRecord {
  hcr_content_type : string;
  hcr_context : bytes;
  hcr_sender : string;
}.
Record HandoffState := MkHandoffState {
  hs_offers : gmap string HandoffOfferRecord;
  hs_contexts : gmap string (list HandoffContextRecord);
}.
Definition default_state : HandoffState := MkHandoffState ∅ ∅.

Definition DECLINED_TARGET_BAR_REV : Z := 4.

Definition has_disposition (d : HandoffDisposition) (offer : HandoffOfferRecord) : bool :=
  hof_disposition offer == d.

(** The assignments that record an outcome on an offer. *)
Definition mark_accepted (by_ reason : string) (o : HandoffOfferRecord) : HandoffOfferRecord :=
  MkHandoffOfferRecord (hof_handoff_id o) (hof_target_participant o) (hof_scope o)
    (hof_reason o) (hof_offered_by o) Accepted (Some by_) (hof_declined_by o)
    (Some reason) (hof_offered_at_ms o) (hof_suspended_ms_at_offer o).
Definition mark_declined (by_ reason : string) (o : HandoffOfferRecord) : HandoffOfferRecord :=
  MkHandoffOfferRecord (hof_handoff_id o) (hof_target_participant o) (hof_scope o)
    (hof_reason o) (hof_offered_by o) Declined (hof_accepted_by o) (Some by_)
    (Some reason) (hof_offered_at_ms o) (hof_suspended_ms_at_offer o).

(** ** Implicit-accept arithmetic *)
Definition rev2_elapsed_ms (session : Session) (offer : HandoffOfferRecord) (now_ms : Z) : Z :=
  let suspended_since_offer :=
    Z.max (saturating_sub (ss_accumulated_suspended_ms session)
             (hof_suspended_ms_at_offer offer)) 0 in
  saturating_sub (saturating_sub now_ms (hof_offered_at_ms offer)) suspended_since_offer.

Definition implicit_accept_elapsed_ms (session : Session) (offer : HandoffOfferRecord)
    (now_ms : Z) : Z :=
  if ss_semantics_rev session >=? 2 then rev2_elapsed_ms session offer now_ms
  else i64_wrap (now_ms - hof_offered_at_ms offer).

Definition commitment_ready (state : HandoffState) : bool :=
  bt_any (λ offer, has_disposition Accepted offer || has_disposition Declined offer)
    (hs_offers state).

Section mode.
Context `{Serde HandoffState} `{FromValue CommitmentRules} `{FromValue HandoffPolicyRules}.
Context `{PolicyEvaluator} `{Message HandoffOfferPayload} `{Message HandoffContextPayload}.
Context `{Message HandoffAcceptPayload} `{Message HandoffDeclinePayload}.
Context `{Message CommitmentPayload}.

(** The policy's [u64] timeout, cast with [as i64]. *)
Definition implicit_accept_timeout_ms (session : Session) : Z :=
  match ss_policy_definition session with
  | None => 0
  | Some policy =>
      i64_wrap (hpr_implicit_accept_timeout_ms
        (unwrap_or default_handoff_rules (from_value (policy_rules policy))))
  end.

Definition handoff_validate_client_envelope (session : Session) (env : Envelope)
    : result MacpError unit :=
  if ss_semantics_rev session <? 2 then Ok ()
  else if starts_with IMPLICIT_ACCEPT_MESSAGE_ID_PREFIX (env_message_id env)
  then Err InvalidEnvelope
  else if env_message_type env == "HandoffAccept" then
    match decode (env_payload env) with
    | Some payload => if ha_implicit payload then Err InvalidPayload else Ok ()
    | None => Ok ()
    end
  else Ok ().

Definition handoff_authorize_sender (session : Session) (env : Envelope)
    : result MacpError unit :=
  if env_message_type env == "Commitment"
  then check_commitment_authority session (env_sender env)
  else if env_message_type env == "HandoffOffer" then
    if env_sender env == ss_initiator_sender session then Ok () else Err Forbidden
  else if is_declared_participant (ss_participants session) (env_sender env) then Ok ()
  else Err Forbidden.

Definition handoff_on_session_start (session : Session) (env : Envelope)
    : result MacpError ModeResponse :=
  if len (ss_participants session) <? 2 then Err InvalidPayload
  else if negb (str_elem (ss_initiator_sender session) (ss_participants session))
  then Err InvalidPayload
  else Ok (PersistState (encode_mode_state default_state)).

Definition handle_offer (session : Session) (env : Envelope) (clock_ms : Z)
    (state : HandoffState) : result MacpError HandoffState :=
  payload ← decode_payload HandoffOfferPayload env;
  if str_is_empty (ho_handoff_id payload)
     || str_is_empty (ho_target_participant payload)
     || bool_decide (is_Some (hs_offers state !! ho_handoff_id payload))
     || negb (is_declared_participant (ss_participants session)
                (ho_target_participant payload))
     || (ho_target_participant payload == env_sender env)
     || bt_any (has_disposition Offered) (hs_offers state)
     || bt_any (has_disposition Accepted) (hs_offers state)
  then Err InvalidPayload
  else if (ss_semantics_rev session >=? DECLINED_TARGET_BAR_REV)
     && bt_any (λ o, has_disposition Declined o
                     && (hof_target_participant o == ho_target_participant payload))
          (hs_offers state)
  then Err InvalidPayload
  else
    let offer := {| hof_handoff_id := ho_handoff_id payload;
                    hof_target_participant := ho_target_participant payload;
                    hof_scope := ho_scope payload;
                    hof_reason := ho_reason payload;
                    hof_offered_by := env_sender env;
                    hof_disposition := Offered;
                    hof_accepted_by := None;
                    hof_declined_by := None;
                    hof_outcome_reason := None;
                    hof_offered_at_ms :=
                      if ss_semantics_rev session >=? 1 then clock_ms
                      else env_timestamp_unix_ms env;
                    hof_suspended_ms_at_offer := ss_accumulated_suspended_ms session |} in
    Ok (MkHandoffState (<[ho_handoff_id payload := offer]> (hs_offers state))
          (hs_contexts state)).

Definition handle_context (env : Envelope) (state : HandoffState)
    : result MacpError HandoffState :=
  payload ← decode_payload HandoffContextPayload env;
  offer ← ok_or (hs_offers state !! hc_handoff_id payload) InvalidPayload;
  if hof_offered_by offer != env_sender env then Err Forbidden
  else
    let record := {| hcr_content_type := hc_content_type payload;
                     hcr_context := hc_context payload;
                     hcr_sender := env_sender env |} in
    let old := default [] (hs_contexts state !! hc_handoff_id payload) in
    Ok (MkHandoffState (hs_offers state)
          (<[hc_handoff_id payload := old ++ [record]]> (hs_contexts state))).

Definition dispatch_implicit_accept (session : Session) (env : Envelope)
    (payload : HandoffAcceptPayload) (state : HandoffState)
    : result MacpError HandoffState :=
  if ss_semantics_rev session <? 2 then Err InvalidPayload
  else
    offer ← ok_or (hs_offers state !! ha_handoff_id payload) InvalidPayload;
    if hof_target_participant offer != env_sender env then Err Forbidden
    else if ha_accepted_by payload != hof_target_participant offer then Err InvalidPayload
    else if env_message_id env
            != IMPLICIT_ACCEPT_MESSAGE_ID_PREFIX +:+ hof_handoff_id offer
    then Err InvalidPayload
    else if hof_disposition offer != Offered then Err InvalidPayload
    else Ok (MkHandoffState
      (<[ha_handoff_id payload :=
          mark_accepted (hof_target_participant offer) (ha_reason payload) offer]>
         (hs_offers state)) (hs_contexts state)).

Definition handle_accept (session : Session) (env : Envelope) (state : HandoffState)
    : result MacpError HandoffState :=
  payload ← decode_payload HandoffAcceptPayload env;
  if ha_implicit payload then dispatch_implicit_accept session env payload state
  else
    offer ← ok_or (hs_offers state !! ha_handoff_id payload) InvalidPayload;
    if hof_target_participant offer != env_sender env then Err Forbidden
    else if negb (str_is_empty (ha_accepted_by payload))
            && (ha_accepted_by payload != env_sender env)
    then Err InvalidPayload
    else if hof_disposition offer != Offered then Err InvalidPayload
    else Ok (MkHandoffState
      (<[ha_handoff_id payload := mark_accepted (env_sender env) (ha_reason payload) offer]>
         (hs_offers state)) (hs_contexts state)).

Definition handle_decline (env : Envelope) (state : HandoffState)
    : result MacpError HandoffState :=
  payload ← decode_payload HandoffDeclinePayload env;
  offer ← ok_or (hs_offers state !! hd_handoff_id payload) InvalidPayload;
  if hof_target_participant offer != env_sender env then Err Forbidden
  else if negb (str_is_empty (hd_declined_by payload))
          && (hd_declined_by payload != env_sender env)
  then Err InvalidPayload
  else if hof_disposition offer != Offered then Err InvalidPayload
  else Ok (MkHandoffState
    (<[hd_handoff_id payload := mark_declined (env_sender env) (hd_reason payload) offer]>
       (hs_offers state)) (hs_contexts state)).

(** The interim path of a Commitment, below revision 2: every outstanding
    offer whose timeout has elapsed is accepted in place. *)
Definition interim_accept (session : Session) (now_ms timeout : Z)
    (offer : HandoffOfferRecord) : HandoffOfferRecord :=
  if has_disposition Offered offer && (hof_offered_at_ms offer >? 0)
     && (implicit_accept_elapsed_ms session offer now_ms >=? timeout)
  then mark_accepted (hof_target_participant offer) IMPLICIT_ACCEPT_REASON offer
  else offer.

Definition interim_accepts (session : Session) (clock_ms : Z) (state : HandoffState)
    : HandoffState :=
  match ss_policy_definition session with
  | None => state
  | Some policy =>
      let rules := unwrap_or default_handoff_rules (from_value (policy_rules policy)) in
      if hpr_implicit_accept_timeout_ms rules >? 0 then
        let timeout := i64_wrap (hpr_implicit_accept_timeout_ms rules) in
        if ss_semantics_rev session <? 2 then
          MkHandoffState (interim_accept session clock_ms timeout <$> hs_offers state)
            (hs_contexts state)
        else state
      else state
  end.

Definition handle_commitment (session : Session) (env : Envelope) (clock_ms : Z)
    (state : HandoffState) : result MacpError HandoffState :=
  commitment ← validate_commitment_payload_for_session session (env_payload env);
  let state := interim_accepts session clock_ms state in
  if negb (commitment_ready state) then Err InvalidPayload
  else
    _ ← enforce_commitment_policy session CMHandoff (cp_outcome_positive commitment);
    Ok state.

Definition dispatch (session : Session) (env : Envelope) (clock_ms : Z)
    (state : HandoffState) : result MacpError (HandoffState * option bytes) :=
  let mt := env_message_type env in
  if mt == "HandoffOffer" then
    st ← handle_offer session env clock_ms state; Ok (st, None)
  else if mt == "HandoffContext" then st ← handle_context env state; Ok (st, None)
  else if mt == "HandoffAccept" then st ← handle_accept session env state; Ok (st, None)
  else if mt == "HandoffDecline" then st ← handle_decline env state; Ok (st, None)
  else if mt == "Commitment" then
    st ← handle_commitment session env clock_ms state; Ok (st, Some (env_payload env))
  else Err InvalidPayload.

Definition handle_message (session : Session) (env : Envelope) (clock_ms : Z)
    : result MacpError ModeResponse :=
  state ← (if is_empty (ss_mode_state session) then Ok default_state
           else decode_mode_state (ss_mode_state session));
  out ← dispatch session env clock_ms state;
  Ok (respond out).

Definition handoff_on_message (session : Session) (env : Envelope)
    : result MacpError ModeResponse :=
  handle_message session env (env_timestamp_unix_ms env).

Definition handoff_on_message_at (session : Session) (env : Envelope) (ctx : MessageContext)
    : result MacpError ModeResponse :=
  let clock_ms :=
    if ss_semantics_rev session >=? 1 then accepted_at_ms ctx
    else env_timestamp_unix_ms env in
  handle_message session env clock_ms.

(** The envelope an elapsed offer is accepted with. *)
Definition implicit_accept_envelope (session : Session) (offer : HandoffOfferRecord)
    (timeout : Z) : Envelope :=
  {| env_macp_version := MACP_VERSION;
     env_mode := ss_mode session;
     env_message_type := "HandoffAccept";
     env_message_id := IMPLICIT_ACCEPT_MESSAGE_ID_PREFIX +:+ hof_handoff_id offer;
     env_session_id := ss_session_id session;
     env_sender := hof_target_participant offer;
     env_timestamp_unix_ms := unsuspended_deadline session (hof_offered_at_ms offer) timeout;
     env_payload := encode_to_vec {| ha_handoff_id := hof_handoff_id offer;
                                     ha_accepted_by := hof_target_participant offer;
                                     ha_reason := IMPLICIT_ACCEPT_REASON;
                                     ha_implicit := true |} |}.

Definition handoff_due_synthetic_envelope (session : Session) (now_ms : Z)
    : option Envelope :=
  if ss_semantics_rev session <? 2 then None
  else
    let timeout := implicit_accept_timeout_ms session in
    if timeout <=? 0 then None
    else if is_empty (ss_mode_state session) then None
    else
      state ← from_slice (S:=HandoffState) (ss_mode_state session);
      offer ← List.find (has_disposition Offered) (bt_values (hs_offers state));
      if hof_offered_at_ms offer <=? 0 then None
      else if implicit_accept_elapsed_ms session offer now_ms <? timeout then None
      else Some (implicit_accept_envelope session offer timeout).

Definition HandoffMode : Mode := {|
  on_session_start := handoff_on_session_start;
  on_message := handoff_on_message;
  on_message_at := handoff_on_message_at;
  validate_client_envelope := handoff_validate_client_envelope;
  due_synthetic_envelope := handoff_due_synthetic_envelope;
  authorize_sender := handoff_authorize_sender |}.
End mode.

(** ** The invariant of the offers *)
Definition outcome_ok (o : HandoffOfferRecord) : Prop :=
  match hof_disposition o with
  | Offered => hof_accepted_by o = None ∧ hof_declined_by o = None ∧ hof_outcome_reason o = None
  | Accepted => hof_accepted_by o = Some (hof_target_participant o) ∧ hof_declined_by o = None
  | Declined => hof_declined_by o = Some (hof_target_participant o) ∧ hof_accepted_by o = None
  end.

Record handoff_inv (session : Session) (st : HandoffState) : Prop := {
  hi_offer k o : hs_offers st !! k = Some o →
    hof_handoff_id o = k ∧ k ≠ "" ∧ hof_target_participant o ∈ ss_participants session ∧
    hof_target_participant o ≠ hof_offered_by o ∧ outcome_ok o;
  hi_one k1 k2 o1 o2 : hs_offers st !! k1 = Some o1 → hs_offers st !! k2 = Some o2 →
    hof_disposition o1 ≠ Declined → hof_disposition o2 ≠ Declined → k1 = k2;
  hi_target k1 k2 o1 o2 : DECLINED_TARGET_BAR_REV ≤ ss_semantics_rev session →
    hs_offers st !! k1 = Some o1 → hs_offers st !! k2 = Some o2 →
    hof_target_participant o1 = hof_target_participant o2 → k1 = k2;
  hi_context k l : hs_contexts st !! k = Some l →
    ∃ o, hs_offers st !! k = Some o ∧ ∀ c, c ∈ l → hcr_sender c = hof_offered_by o;
}.

(** What identifies an offer never changes, and an outcome is final. *)
Definition offer_terms (o : HandoffOfferRecord) :=
  (hof_handoff_id o, hof_target_participant o, hof_scope o, hof_reason o,
   hof_offered_by o, hof_offered_at_ms o, hof_suspended_ms_at_offer o).
Definition offers_final (st st' : HandoffState) : Prop :=
  ∀ k o, hs_offers st !! k = Some o →
  ∃ o', hs_offers st' !! k = Some o' ∧ offer_terms o' = offer_terms o ∧
    (hof_disposition o ≠ Offered → o' = o).

Lemma offers_final_refl st : offers_final st st.
Proof. intros k o Ho. eauto. Qed.

(** Recording an outcome on the one outstanding offer keeps the invariant. *)
Lemma settle_inv session st k o o' :
  hs_offers st !! k = Some o → hof_disposition o = Offered →
  offer_terms o' = offer_terms o → hof_disposition o' ≠ Offered → outcome_ok o' →
  handoff_inv session st →
  handoff_inv session (MkHandoffState (<[k := o']> (hs_offers st)) (hs_contexts st)) ∧
  offers_final st (MkHandoffState (<[k := o']> (hs_offers st)) (hs_contexts st)).
Proof.
  intros Ho Hd Ht Hd' Hout [Io I1 It Ic].
  assert (∀ k2 o2, <[k := o']> (hs_offers st) !! k2 = Some o2 →
    ∃ o2', hs_offers st !! k2 = Some o2' ∧ offer_terms o2 = offer_terms o2' ∧
      (hof_disposition o2 ≠ Declined → hof_disposition o2' ≠ Declined)) as Hback.
  { intros k2 o2 [[<- <-]|[_ H2]]%lookup_insert_Some; [|by eauto].
    exists o. split_and!; [done..|]. by rewrite Hd. }
  split.
  - constructor; simpl.
    + intros k2 o2 [[<- <-]|[_ H2]]%lookup_insert_Some; [|by eauto].
      unfold offer_terms in Ht. simplify_eq. destruct (Io k o Ho) as (? & ? & ? & ? & _).
      split_and!; congruence.
    + intros k1 k2 o1 o2 (o1' & ? & ? & ?)%Hback (o2' & ? & ? & ?)%Hback ? ?. eauto.
    + intros k1 k2 o1 o2 Hrev (o1' & ? & E1 & ?)%Hback (o2' & ? & E2 & ?)%Hback E.
      unfold offer_terms in E1, E2. simplify_eq. eapply It; eauto. congruence.
    + intros k2 l Hl. destruct (Ic k2 l Hl) as (o2 & H2 & Hs).
      destruct (decide (k2 = k)) as [->|]; [|exists o2; by rewrite lookup_insert_ne].
      exists o'. rewrite lookup_insert_eq. unfold offer_terms in Ht. simplify_eq.
      split; [done|]. intros c Hc. rewrite Hs by done. congruence.
  - intros k2 o2 H2. simpl. destruct (decide (k2 = k)) as [->|].
    + rewrite lookup_insert_eq. rewrite Ho in H2. injection H2 as <-. exists o'. split; [done|].
      split; [done|]. intros Hx. by destruct Hx.
    + rewrite lookup_insert_ne by done. eauto.
Qed.

Lemma has_disposition_false st d :
  bt_any (has_disposition d) (hs_offers st) = false ↔
  ∀ k o, hs_offers st !! k = Some o → hof_disposition o ≠ d.
Proof.
  rewrite bt_any_false. unfold has_disposition. by setoid_rewrite bool_decide_eq_false.
Qed.

Section theorems.
Context `{Serde HandoffState} `{FromValue CommitmentRules} `{FromValue HandoffPolicyRules}.
Context `{PolicyEvaluator} `{Message HandoffOfferPayload} `{Message HandoffContextPayload}.
Context `{Message HandoffAcceptPayload} `{Message HandoffDeclinePayload}.
Context `{Message CommitmentPayload}.
Implicit Types (session : Session) (env : Envelope) (st : HandoffState).

Lemma handle_offer_inv session env clock st st' :
  handle_offer session env clock st = Ok st' → handoff_inv session st →
  handoff_inv session st' ∧ offers_final st st'.
Proof.
  unfold handle_offer. intros E [Io I1 It Ic]. res_inv.
  repeat match goal with E : _ || _ = false |- _ => apply orb_false_iff in E as [E ?] end.
  match goal with E : bt_any (has_disposition Offered) _ = false |- _ =>
    rewrite has_disposition_false in E; rename E into Hoff end.
  match goal with E : bt_any (has_disposition Accepted) _ = false |- _ =>
    rewrite has_disposition_false in E; rename E into Hacc end.
  unfold is_declared_participant in *. bool_simp.
  assert (∀ k o, hs_offers st !! k = Some o → hof_disposition o = Declined) as Hdec.
  { intros k o Ho. specialize (Hoff k o Ho). specialize (Hacc k o Ho).
    by destruct (hof_disposition o). }
  assert (hs_offers st !! ho_handoff_id x = None) as Hnew by (by apply eq_None_not_Some).
  split.
  - constructor; simpl.
    + intros k o [[<- <-]|[_ Ho]]%lookup_insert_Some; [|by eauto]. simpl.
      unfold outcome_ok. simpl. split_and!; done.
    + intros k1 k2 o1 o2 [[<- <-]|[_ H1']]%lookup_insert_Some
        [[<- <-]|[_ H2']]%lookup_insert_Some ? ?; naive_solver.
    + intros k1 k2 o1 o2 Hrev.
      match goal with E : _ && bt_any _ _ = false |- _ =>
        rewrite (proj2 (geb_true _ _) Hrev) in E; simpl in E; rewrite bt_any_false in E;
        rename E into Hbar end.
      assert (∀ k o, hs_offers st !! k = Some o →
        hof_target_participant o ≠ ho_target_participant x) as Hbar'.
      { intros k o Ho. specialize (Hbar k o Ho). unfold has_disposition in Hbar.
        rewrite (Hdec k o Ho) in Hbar. simpl in Hbar. by bool_simp. }
      intros [[<- <-]|[_ H1']]%lookup_insert_Some [[<- <-]|[_ H2']]%lookup_insert_Some E;
        simpl in *; naive_solver.
    + intros k l Hl. destruct (Ic k l Hl) as (o & Ho & Hs). exists o.
      rewrite lookup_insert_ne; [done|]. intros <-. congruence.
  - intros k o Ho. exists o. simpl. rewrite lookup_insert_ne; [done|]. intros <-. congruence.
Qed.

Lemma handle_context_inv session env st st' :
  handle_context env st = Ok st' → handoff_inv session st →
  handoff_inv session st' ∧ offers_final st st'.
Proof.
  unfold handle_context. intros E [Io I1 It Ic]. res_inv. bool_simp.
  split; [|intros k o Ho; by exists o]. constructor; simpl; auto.
  intros k l [[<- <-]|[_ Hl]]%lookup_insert_Some; [|by auto]. exists x0. split; [done|].
  intros c [Hc| ->%list_elem_of_singleton]%elem_of_app; [|done].
  destruct (hs_contexts st !! hc_handoff_id x) as [l|] eqn:El; simpl in Hc; [|set_solver].
  destruct (Ic _ _ El) as (o & Ho & Hs). simplify_eq. auto.
Qed.

Lemma handoff_handle_accept_inv session env st st' :
  handle_accept session env st = Ok st' → handoff_inv session st →
  handoff_inv session st' ∧ offers_final st st'.
Proof.
  unfold handle_accept, dispatch_implicit_accept. intros E Hi.
  res_inv; bool_simp;
    match goal with Ho : hs_offers st !! _ = Some _ |- _ =>
      eapply settle_inv; [exact Ho|done|done|done| |done];
      destruct (hi_offer _ _ Hi _ _ Ho) as (_ & _ & _ & _ & Hout) end;
    unfold outcome_ok in *;
    match goal with E : hof_disposition _ = Offered |- _ => rewrite E in Hout end;
    destruct Hout as (? & ? & ?); simpl; split; congruence.
Qed.

Lemma handle_decline_inv session env st st' :
  handle_decline env st = Ok st' → handoff_inv session st →
  handoff_inv session st' ∧ offers_final st st'.
Proof.
  unfold handle_decline. intros E Hi.
  res_inv; bool_simp;
    match goal with Ho : hs_offers st !! _ = Some _ |- _ =>
      eapply settle_inv; [exact Ho|done|done|done| |done];
      destruct (hi_offer _ _ Hi _ _ Ho) as (_ & _ & _ & _ & Hout) end;
    unfold outcome_ok in *;
    match goal with E : hof_disposition _ = Offered |- _ => rewrite E in Hout end;
    destruct Hout as (? & ? & ?); simpl; split; congruence.
Qed.

Lemma interim_accept_cases session now timeout o :
  interim_accept session now timeout o = o ∨
  hof_disposition o = Offered ∧
  interim_accept session now timeout o
    = mark_accepted (hof_target_participant o) IMPLICIT_ACCEPT_REASON o.
Proof.
  unfold interim_accept. destruct (has_disposition Offered o) eqn:Ed; simpl; [|by left].
  unfold has_disposition in Ed. bool_simp. case_match; auto.
Qed.

Lemma interim_accept_offer session now timeout o :
  let o' := interim_accept session now timeout o in
  offer_terms o' = offer_terms o ∧ (outcome_ok o → outcome_ok o') ∧
  (hof_disposition o' ≠ Declined → hof_disposition o ≠ Declined) ∧
  (hof_disposition o ≠ Offered → o' = o).
Proof.
  intros o'. unfold o'. destruct (interim_accept_cases session now timeout o) as [->|[Hd ->]].
  - done.
  - unfold outcome_ok. rewrite Hd. simpl. split_and!; naive_solver.
Qed.

Lemma interim_accepts_inv session clock st :
  handoff_inv session st →
  handoff_inv session (interim_accepts session clock st) ∧
  offers_final st (interim_accepts session clock st).
Proof.
  intros Hi. unfold interim_accepts. repeat case_match; auto using offers_final_refl.
  destruct Hi as [Io I1 It Ic].
  match goal with |- context [interim_accept session clock ?t] =>
    pose proof (interim_accept_offer session clock t) as Hf;
    set (f := interim_accept session clock t) in *; simpl in Hf end.
  assert (∀ k o', (f <$> hs_offers st) !! k = Some o' →
    ∃ o, hs_offers st !! k = Some o ∧ o' = f o ∧ offer_terms o' = offer_terms o ∧
      (outcome_ok o → outcome_ok o') ∧ (hof_disposition o' ≠ Declined → hof_disposition o ≠ Declined))
    as Hback.
  { intros k o' (o & <- & Ho)%lookup_fmap_Some. exists o.
    destruct (Hf o) as (? & ? & ? & ?). by split_and!. }
  split.
  - constructor; simpl.
    + intros k o' (o & Ho & _ & Ht & Hout & _)%Hback.
      destruct (Io k o Ho) as (? & ? & ? & ? & ?). unfold offer_terms in Ht. simplify_eq.
      split_and!; try congruence. auto.
    + intros k1 k2 o1 o2 (? & ? & _ & _ & _ & ?)%Hback (? & ? & _ & _ & _ & ?)%Hback ? ?. eauto.
    + intros k1 k2 o1 o2 Hrev (? & ? & _ & E1 & _)%Hback (? & ? & _ & E2 & _)%Hback E.
      unfold offer_terms in E1, E2. simplify_eq. eapply It; eauto. congruence.
    + intros k l Hl. destruct (Ic k l Hl) as (o & Ho & Hs). exists (f o).
      rewrite lookup_fmap, Ho. split; [done|]. intros c Hc. rewrite Hs by done.
      destruct (Hf o) as (Ht & _). unfold offer_terms in Ht. by simplify_eq.
  - intros k o Ho. exists (f o). simpl. rewrite lookup_fmap, Ho.
    destruct (Hf o) as (? & ? & ? & ?). by split_and!.
Qed.

Lemma handoff_handle_commitment_inv session env clock st st' :
  handle_commitment session env clock st = Ok st' → handoff_inv session st →
  handoff_inv session st' ∧ offers_final st st'.
Proof. unfold handle_commitment. intros E Hi. res_inv. by apply interim_accepts_inv. Qed.

(** Responsibility has at most one prospective owner. Every accepted
    message of a Handoff session keeps: at most one offer is outstanding or
    accepted, its target is a declared participant other than the offerer, an
    outcome is recorded in the target's name, context is attached to an
    existing offer by its offerer, and from revision 4 on no participant is
    offered twice. What an offer says never changes, and an accepted or
    declined offer is final. *)
Theorem handoff_inv_preserved session env clock st st' res :
  handoff_inv session st → dispatch session env clock st = Ok (st', res) →
  handoff_inv session st' ∧ offers_final st st'.
Proof.
  intros Hi E. unfold dispatch in E. res_inv;
    eauto using handle_offer_inv, handle_context_inv, handoff_handle_accept_inv,
      handle_decline_inv, handoff_handle_commitment_inv.
Qed.

(** ** The synthetic implicit accept *)
Lemma find_offered st o :
  List.find (has_disposition Offered) (bt_values (hs_offers st)) = Some o →
  (∃ k, hs_offers st !! k = Some o) ∧ hof_disposition o = Offered.
Proof.
  intros [Hin Hd]%List.find_some. unfold has_disposition in Hd. bool_simp.
  split; [|done]. by apply elem_of_bt_values, list_elem_of_In.
Qed.

Section synthesis.
Context `{!SerdeLaws HandoffState Some} `{!MessageLaws HandoffAcceptPayload}.

Lemma load_encoded session st :
  ss_mode_state session = encode_mode_state st →
  is_empty (ss_mode_state session) = false ∧
  from_slice (S:=HandoffState) (ss_mode_state session) = Some st.
Proof.
  intros ->. split; [apply (encode_state_nonempty Some)|].
  unfold encode_mode_state. by rewrite from_slice_to_vec.
Qed.

(** When the synthesis is due, and with what. *)
Lemma due_ok session st now env :
  ss_mode_state session = encode_mode_state st →
  handoff_due_synthetic_envelope session now = Some env →
  2 ≤ ss_semantics_rev session ∧ 0 < implicit_accept_timeout_ms session ∧
  ∃ k o, hs_offers st !! k = Some o ∧ hof_disposition o = Offered ∧
    0 < hof_offered_at_ms o ∧
    implicit_accept_timeout_ms session ≤ rev2_elapsed_ms session o now ∧
    env = implicit_accept_envelope session o (implicit_accept_timeout_ms session).
Proof.
  intros [He Hl]%load_encoded. unfold handoff_due_synthetic_envelope. rewrite He, Hl.
  simpl. intros E. res_inv. simpl in E.
  destruct (List.find _ _) as [o|] eqn:Ef; simpl in E; [|done].
  apply find_offered in Ef as [[k Hk] Hd]. res_inv. bool_simp.
  split_and!; [lia..|]. exists k, o. split_and!; try done.
  unfold implicit_accept_elapsed_ms in *. rewrite (proj2 (geb_true _ _)) in * by lia. done.
Qed.

Lemma dispatch_implicit_accept_ok session env payload st o :
  2 ≤ ss_semantics_rev session → hs_offers st !! ha_handoff_id payload = Some o →
  env_sender env = hof_target_participant o →
  ha_accepted_by payload = hof_target_participant o →
  env_message_id env = IMPLICIT_ACCEPT_MESSAGE_ID_PREFIX +:+ hof_handoff_id o →
  hof_disposition o = Offered →
  dispatch_implicit_accept session env payload st
  = Ok (MkHandoffState
      (<[ha_handoff_id payload :=
          mark_accepted (hof_target_participant o) (ha_reason payload) o]>
         (hs_offers st)) (hs_contexts st)).
Proof.
  intros Hrev Ho Hs Ha Hm Hd. unfold dispatch_implicit_accept.
  rewrite (proj2 (Z.ltb_ge _ 2) Hrev), Ho. cbn [ok_or mbind result_bind].
  rewrite Hs, Ha, Hm, Hd. by rewrite !bool_decide_eq_true_2.
Qed.

(** C40. A due implicit accept enters history exactly once and cannot be
    forged. Whatever envelope [due_synthetic_envelope] returns, dispatching it
    at its own timestamp is accepted and marks the one outstanding offer
    accepted by its target with the fixed reason, its sender is authorized,
    a client that submits it is refused, and once it has been applied nothing
    is due any more at any later time. *)
Theorem implicit_accept_applies session st now env :
  ss_mode_state session = encode_mode_state st → handoff_inv session st →
  handoff_due_synthetic_envelope session now = Some env →
  ∃ k o, hs_offers st !! k = Some o ∧ hof_disposition o = Offered ∧
    let st' := MkHandoffState
      (<[k := mark_accepted (hof_target_participant o) IMPLICIT_ACCEPT_REASON o]>
         (hs_offers st)) (hs_contexts st) in
    handoff_on_message_at session env (MkMessageContext (env_timestamp_unix_ms env))
      = Ok (PersistState (encode_mode_state st')) ∧
    handoff_authorize_sender session env = Ok () ∧
    handoff_validate_client_envelope session env = Err InvalidEnvelope ∧
    ∀ session' now', ss_mode_state session' = encode_mode_state st' →
      handoff_due_synthetic_envelope session' now' = None.
Proof.
  intros Hst Hi Hdue. pose proof (load_encoded _ _ Hst) as [He Hl].
  destruct (due_ok _ _ _ _ Hst Hdue) as (Hrev & _ & k & o & Ho & Hd & _ & _ & ->).
  destruct (hi_offer _ _ Hi k o Ho) as (Hid & _ & Hpart & _).
  exists k, o. split; [done|]. split; [done|]. intros st'. split_and!.
  - unfold handoff_on_message_at, handle_message. rewrite He.
    unfold decode_mode_state. rewrite Hl. simpl.
    unfold dispatch. simpl. unfold handle_accept, decode_payload. simpl.
    rewrite decode_encode. simpl.
    rewrite (dispatch_implicit_accept_ok _ _ _ _ o); simpl; try done; [|by rewrite Hid].
    by rewrite Hid.
  - unfold handoff_authorize_sender, is_declared_participant. simpl.
    by rewrite (proj2 (str_elem_true _ _) Hpart).
  - unfold handoff_validate_client_envelope. rewrite (proj2 (Z.ltb_ge _ _)) by lia.
    simpl. by rewrite starts_with_app.
  - intros session' now' Hst'. destruct (handoff_due_synthetic_envelope session' now') eqn:Ed;
      [|done]. exfalso.
    destruct (due_ok _ _ _ _ Hst' Ed) as (_ & _ & k2 & o2 & Ho2 & Hd2 & _).
    simpl in Ho2. apply lookup_insert_Some in Ho2 as [[_ <-]|[Hne Ho2]]; [done|].
    apply Hne. by eapply (hi_one _ _ Hi); eauto; rewrite ?Hd, ?Hd2.
Qed.
End synthesis.

(** ** When the implicit accept is due *)

(** The clocks of an offer and of its session are those of a run: times are
    non-negative, and the offer took its snapshot of a counter that only
    grows. *)
Record offer_clocks session (o : HandoffOfferRecord) (now : Z) : Prop := {
  oc_recorded : recorded_ok session;
  oc_offered : 0 < hof_offered_at_ms o ≤ i64_max;
  oc_now : 0 ≤ now ≤ i64_max;
  oc_snapshot : 0 ≤ hof_suspended_ms_at_offer o ≤ ss_accumulated_suspended_ms session;
  oc_accumulated : ss_accumulated_suspended_ms session ≤ i64_max;
}.

(** The pauses since the offer, as recorded and as banked. *)
Definition recorded_since session (o : HandoffOfferRecord) : Z :=
  total_width (pauses_since session (hof_offered_at_ms o)).
Definition banked_since session (o : HandoffOfferRecord) : Z :=
  ss_accumulated_suspended_ms session - hof_suspended_ms_at_offer o.

Lemma timeout_range session : is_i64 (implicit_accept_timeout_ms session).
Proof.
  unfold implicit_accept_timeout_ms. case_match; [apply i64_wrap_range|].
  unfold is_i64, i64_min, i64_max. lia.
Qed.

Lemma elapsed_spec session o now timeout :
  offer_clocks session o now → 0 < timeout ≤ i64_max →
  timeout ≤ rev2_elapsed_ms session o now ↔
  hof_offered_at_ms o + timeout + banked_since session o ≤ now.
Proof.
  intros [_ ? ? ? ?] Ht. unfold rev2_elapsed_ms, banked_since, saturating_sub.
  rewrite (i64_sat_id (ss_accumulated_suspended_ms session - _))
    by (unfold is_i64, i64_min, i64_max in *; lia).
  rewrite (i64_sat_id (now - _)) by (unfold is_i64, i64_min, i64_max in *; lia).
  unfold i64_sat, i64_min, i64_max in *. lia.
Qed.

Lemma suspended_before_all a l T :
  ordered_from a l → Forall (λ p, p.2 ≤ T) l → suspended_before l T = total_width l.
Proof.
  intros Ho Hl. revert a Ho. induction Hl as [|[s e] l He Hl IH]; intros a Ho; simpl in *; [done|].
  destruct Ho as (? & ? & Ho). rewrite (IH e Ho). lia.
Qed.

Lemma find_unique st k o :
  hs_offers st !! k = Some o → hof_disposition o = Offered →
  (∀ k2 o2, hs_offers st !! k2 = Some o2 → hof_disposition o2 = Offered → k2 = k) →
  List.find (has_disposition Offered) (bt_values (hs_offers st)) = Some o.
Proof.
  intros Ho Hd Hu. destruct (List.find _ _) as [o2|] eqn:Ef.
  - apply find_offered in Ef as [[k2 Hk2] Hd2]. assert (k2 = k) as -> by eauto. congruence.
  - assert (o ∈ bt_values (hs_offers st)) as Hin by (apply elem_of_bt_values; eauto).
    apply list_elem_of_In in Hin. eapply List.find_none in Ef; [|done].
    unfold has_disposition in Ef. by bool_simp.
Qed.

Section timing.
Context `{!SerdeLaws HandoffState Some}.

(** A synthetic accept is never dated into the future, nor before the
    timeout. If the recorded intervals do not over-count the banked suspension
    (they may under-count it, as old snapshots do), the envelope that is due
    at [now] carries a timestamp between the nominal deadline, offer time plus
    timeout, and [now]: the condition the source checks with a
    [debug_assert]. *)
Theorem implicit_accept_not_future session st now env k o :
  ss_mode_state session = encode_mode_state st →
  handoff_due_synthetic_envelope session now = Some env →
  hs_offers st !! k = Some o → env_message_id env
    = IMPLICIT_ACCEPT_MESSAGE_ID_PREFIX +:+ hof_handoff_id o →
  handoff_inv session st → offer_clocks session o now →
  recorded_since session o ≤ banked_since session o →
  hof_offered_at_ms o + implicit_accept_timeout_ms session
  ≤ env_timestamp_unix_ms env ≤ now.
Proof.
  intros Hst Hdue Ho Hid Hi Hc Hu.
  destruct (due_ok _ _ _ _ Hst Hdue) as (_ & Hpos & k2 & o2 & Ho2 & Hd & _ & Hel & ->).
  apply str_app_inj in Hid.
  destruct (hi_offer _ _ Hi _ _ Ho) as [Hk _], (hi_offer _ _ Hi _ _ Ho2) as [Hk2 _].
  assert (o2 = o) as -> by congruence. clear Ho2 Hk2.
  pose proof (timeout_range session) as [_ Htop]. rewrite elapsed_spec in Hel by done.
  pose proof Hc as [? ? ? ? ?].
  destruct (unsuspended_deadline_bounds session (hof_offered_at_ms o)
    (implicit_accept_timeout_ms session)) as [Hlo Hhi];
    [done|unfold nonneg_i64; lia|unfold nonneg_i64; lia|].
  pose proof (total_width_nonneg (pauses_since session (hof_offered_at_ms o))).
  unfold recorded_since in Hu. simpl.
  rewrite i64_sat_id in Hlo, Hhi by (unfold is_i64, i64_min in *; lia). lia.
Qed.

(** The scalar test decides the deadline exactly. On a fully recorded
    ordered timeline, the accept of the outstanding offer is due at [now]
    exactly when the unsuspended deadline has been reached: the elapsed-time
    subtraction and the interval walk agree. *)
Theorem implicit_accept_exact session st now k o :
  ss_mode_state session = encode_mode_state st → handoff_inv session st →
  2 ≤ ss_semantics_rev session → 0 < implicit_accept_timeout_ms session →
  hs_offers st !! k = Some o → hof_disposition o = Offered →
  offer_clocks session o now → hof_offered_at_ms o ≤ now < i64_max →
  ordered_from (hof_offered_at_ms o) (pauses_since session (hof_offered_at_ms o)) →
  Forall (λ p, p.2 ≤ now) (pauses_since session (hof_offered_at_ms o)) →
  recorded_since session o = banked_since session o →
  is_Some (handoff_due_synthetic_envelope session now) ↔
  unsuspended_deadline session (hof_offered_at_ms o) (implicit_accept_timeout_ms session) ≤ now.
Proof.
  intros Hst Hi Hrev Hpos Ho Hd Hc Hnow Hord Hend Hu.
  pose proof (timeout_range session) as [_ Htop]. pose proof Hc as [? ? ? ? ?].
  rewrite unsuspended_deadline_ideal by (done || (unfold nonneg_i64; lia)).
  assert (∀ w, hof_offered_at_ms o ≤ w → i64_sat w ≤ now ↔ w ≤ now) as Hsat
    by (unfold i64_sat, i64_min, i64_max in *; lia).
  rewrite Hsat by (etrans; [|apply ideal_walk_lower]; lia).
  rewrite ideal_walk_least by (done || lia).
  rewrite (suspended_before_all _ _ _ Hord Hend). unfold recorded_since in Hu. rewrite Hu.
  trans (implicit_accept_timeout_ms session ≤ rev2_elapsed_ms session o now);
    [|rewrite elapsed_spec by done; lia].
  destruct (load_encoded _ _ Hst) as [He Hl].
  unfold handoff_due_synthetic_envelope, implicit_accept_elapsed_ms.
  rewrite (proj2 (Z.ltb_ge _ 2)), (proj2 (Z.leb_gt _ 0)), (proj2 (geb_true _ _)) by done.
  rewrite He, Hl. simpl. rewrite (find_unique st k o); [|done..|].
  - simpl. rewrite (proj2 (Z.leb_gt _ 0)) by lia. case_match; bool_simp.
    + split; [by intros []|lia].
    + split; [done|by eauto].
  - intros k2 o2 Hk2 Hd2. eapply (hi_one _ _ Hi); eauto; by rewrite ?Hd, ?Hd2.
Qed.
End timing.
End theorems.

From stdpp Require Import countable.
From S2P Require Import Concrete.

(** ** Demonstrations *)
Module Demo.
#[local] Instance disposition_countable : Countable HandoffDisposition.
Proof.
  refine (inj_countable'
    (λ d, match d with Offered => 0 | Accepted => 1 | Declined => 2 end)
    (λ n, if n =? 0 then Offered else if n =? 1 then Accepted else Declined) _).
  by intros [].
Defined.
#[local] Instance offer_eq_dec : EqDecision HandoffOfferRecord.
Proof. solve_decision. Defined.
#[local] Instance offer_countable : Countable HandoffOfferRecord.
Proof.
  refine (inj_countable'
    (λ o, (([hof_handoff_id o; hof_target_participant o; hof_scope o; hof_reason o;
             hof_offered_by o], hof_disposition o),
           ([hof_accepted_by o; hof_declined_by o; hof_outcome_reason o],
            (hof_offered_at_ms o, hof_suspended_ms_at_offer o))))
    (λ x, match x with
     | (([a; b; c; d; e], f), ([g; h; i], (j, k))) => MkHandoffOfferRecord a b c d e f g h i j k
     | _ => MkHandoffOfferRecord "" "" "" "" "" Offered None None None 0 0
     end) _).
  by intros [].
Defined.
#[local] Instance context_eq_dec : EqDecision HandoffContextRecord.
Proof. solve_decision. Defined.
#[local] Instance byte_countable : Countable Byte.byte.
Proof.
  refine (inj_countable Byte.to_N Byte.of_N _). apply Byte.of_to_N.
Defined.
#[local] Instance context_countable : Countable HandoffContextRecord.
Proof.
  refine (inj_countable'
    (λ c, (hcr_content_type c, (hcr_context c, hcr_sender c)))
    (λ '(a, (b, c)), MkHandoffContextRecord a b c) _).
  by intros [].
Defined.
#[local] Instance state_eq_dec : EqDecision HandoffState.
Proof. solve_decision. Defined.
#[local] Instance state_countable : Countable HandoffState.
Proof.
  refine (inj_countable' (λ s, (hs_offers s, hs_contexts s))
    (λ '(a, b), MkHandoffState a b) _).
  by intros [].
Defined.
#[local] Instance accept_eq_dec : EqDecision HandoffAcceptPayload.
Proof. solve_decision. Defined.
#[local] Instance accept_countable : Countable HandoffAcceptPayload.
Proof.
  refine (inj_countable'
    (λ p, ([ha_handoff_id p; ha_accepted_by p; ha_reason p], ha_implicit p))
    (λ x, match x with
     | ([a; b; c], d) => MkHandoffAcceptPayload a b c d
     | _ => MkHandoffAcceptPayload "" "" "" false
     end) _).
  by intros [].
Defined.

#[local] Instance serde : Serde HandoffState := countable_serde Some.
#[local] Instance serde_laws : SerdeLaws HandoffState Some := countable_serde_laws Some.
#[local] Instance m_accept : Message HandoffAcceptPayload := countable_message.
#[local] Instance m_accept_laws : MessageLaws HandoffAcceptPayload := countable_message_laws.
#[local] Instance m_offer : Message HandoffOfferPayload :=
  const_message (Some (MkHandoffOfferPayload "h1" "target" "scope" "")).
#[local] Instance m_context : Message HandoffContextPayload := const_message None.
#[local] Instance m_decline : Message HandoffDeclinePayload := const_message None.
#[local] Instance m_commitment : Message CommitmentPayload := const_message None.
#[local] Instance rules : FromValue HandoffPolicyRules :=
  const_from_value (MkHandoffPolicyRules 1000 default_commitment_rules).
#[local] Instance commitment_rules : FromValue CommitmentRules :=
  const_from_value default_commitment_rules.
#[local] Instance evaluator : PolicyEvaluator := allow_all.

(** An offer made at 5000, and a pause from 5200 to 5500 since. *)
Definition offer : HandoffOfferRecord :=
  MkHandoffOfferRecord "h1" "target" "scope" "" "owner" Offered None None None 5000 0.
Definition offered : HandoffState := MkHandoffState {["h1" := offer]} ∅.
Definition session : Session :=
  set_accumulated_suspended_ms 300
  (set_suspension_intervals [(5200, 5500)]
  (set_policy_definition (Some (MkPolicyDefinition "pol" "macp.mode.handoff.v1" "" VNull 1))
  (set_mode_state (encode_mode_state offered)
  (set_participants ["owner"; "target"]
    (session_builder "s" "macp.mode.handoff.v1" "owner"))))).

Definition base : Session := set_accumulated_suspended_ms 0 session.

Lemma handoff_default_inv : handoff_inv base default_state.
Proof. constructor; simpl; set_solver. Qed.
Lemma offered_inv : handoff_inv session offered.
Proof.
  constructor; simpl.
  - intros k o [<- <-]%lookup_singleton_Some.
    split; [reflexivity|split; [discriminate|split; [|split; [discriminate|by split_and!]]]].
    right. left.
  - intros k1 k2 o1 o2 [<- _]%lookup_singleton_Some [<- _]%lookup_singleton_Some. done.
  - intros k1 k2 o1 o2 _ [<- _]%lookup_singleton_Some [<- _]%lookup_singleton_Some. done.
  - set_solver.
Qed.
Lemma offer_clocks_6300 : offer_clocks session offer 6300.
Proof.
  constructor; cbn [ss_accumulated_suspended_ms session offer hof_offered_at_ms
    hof_suspended_ms_at_offer set_accumulated_suspended_ms]; [|unfold i64_max; lia..].
  apply Forall_singleton. unfold is_i64, i64_min, i64_max. simpl. lia.
Qed.

Lemma handoff_inv_preserved_witness : handoff_inv base offered.
Proof.
  apply (handoff_inv_preserved base (demo_env "HandoffOffer" "m1" "owner" []) 5000
    default_state offered None); [apply handoff_default_inv|by vm_compute].
Defined.

Definition synthetic : Envelope := implicit_accept_envelope session offer 1000.
Lemma due_synthetic : handoff_due_synthetic_envelope session 6300 = Some synthetic.
Proof. by vm_compute. Qed.

Lemma implicit_accept_applies_witness :
  handoff_validate_client_envelope session synthetic = Err InvalidEnvelope.
Proof.
  destruct (implicit_accept_applies session offered 6300 synthetic)
    as (k & o & _ & _ & _ & _ & H & _); [done|apply offered_inv|apply due_synthetic|done].
Defined.

Lemma implicit_accept_not_future_witness :
  hof_offered_at_ms offer + implicit_accept_timeout_ms session
  ≤ env_timestamp_unix_ms synthetic ≤ 6300.
Proof.
  apply (implicit_accept_not_future session offered 6300 synthetic "h1" offer);
    [done|apply due_synthetic|done|done|apply offered_inv|apply offer_clocks_6300
    |vm_compute; discriminate].
Defined.

Lemma implicit_accept_exact_witness :
  is_Some (handoff_due_synthetic_envelope session 6300) ↔
  unsuspended_deadline session (hof_offered_at_ms offer) (implicit_accept_timeout_ms session)
  ≤ 6300.
Proof.
  apply (implicit_accept_exact session offered 6300 "h1" offer);
    [done|apply offered_inv|vm_compute; discriminate|by vm_compute|done|done
    |apply offer_clocks_6300|split; vm_compute; (done || discriminate)
    |vm_compute; repeat split; discriminate
    |repeat constructor; vm_compute; discriminate|by vm_compute].
Defined.
End Demo.
