(* ===== verification/Quorum.v ===== *)
(** * Quorum mode (crates/macp-modes/src/mode/quorum.rs)

    One approval request, one ballot per participant, and a commitment that is
    eligible when the approval bar is met or can no longer be met. *)

From stdpp Require Import prelude gmap strings.
From S2P Require Import Prelude RustStr Floats Extern Error Policy Wire SessionData.
From S2P Require Import CommitmentHash ModeApi.
Open Scope Z_scope.

Inductive BallotChoice := Approve | Reject | Abstain.
#[export] Instance BallotChoice_eq_dec : EqDecision BallotChoice.
Proof. solve_decision. Defined.

Record ApprovalRequestRecord := MkApprovalRequestRecord {
  arr_request_id : string;
  arr_action : string;
  arr_summary : string;
  arr_details : bytes;
  arr_required_approvals : Z;
  arr_requested_by : string;
}.
(** [ApprovalRequestRecord::new]. *)
Definition approval_request_new (request_id : string) (required_approvals : Z)
    : ApprovalRequestRecord :=
  MkApprovalRequestRecord request_id "" "" [] required_approvals "".

Record BallotRecord := MkBallotRecord {
  bal_request_id : string;
  bal_choice : BallotChoice;
  bal_sender : string;
  bal_reason : string;
}.
Record QuorumState := MkQuorumState {
  qs_request : option ApprovalRequestRecord;
  qs_ballots : gmap string BallotRecord;
}.
Definition default_state : QuorumState := MkQuorumState None ∅.

Inductive ApprovalThreshold :=
| ThresholdApprovals (n : Z)
| ThresholdUnsatisfiable.

Definition is_choice (c : BallotChoice) (b : BallotRecord) : bool := bal_choice b == c.
(** [ballots.values().filter(|b| b.choice == c).count()]. *)
Definition ballot_count (c : BallotChoice) (ballots : gmap string BallotRecord) : Z :=
  bt_count (is_choice c) ballots.

Section mode.
Context `{Serde QuorumState} `{FromValue CommitmentRules} `{FromValue QuorumPolicyRules}.
Context `{PolicyEvaluator} `{Message ApprovalRequestPayload} `{Message ApprovePayload}.
Context `{Message BallotRejectPayload} `{Message AbstainPayload} `{Message CommitmentPayload}.

Definition effective_threshold (session : Session) (request : ApprovalRequestRecord)
    : ApprovalThreshold :=
  match ss_policy_definition session with
  | None => ThresholdApprovals (arr_required_approvals request)
  | Some policy =>
      let rules := unwrap_or default_quorum_policy_rules (from_value (policy_rules policy)) in
      match effective (qpr_threshold rules) (len (ss_participants session)) with
      | Inert => ThresholdApprovals (arr_required_approvals request)
      | Approvals required => ThresholdApprovals required
      | Unsatisfiable => ThresholdUnsatisfiable
      end
  end.

Definition effective_threshold_for_session (session : Session)
    : result MacpError (option ApprovalThreshold) :=
  if is_empty (ss_mode_state session) then Ok None
  else
    state ← decode_mode_state (S:=QuorumState) (ss_mode_state session);
    Ok (effective_threshold session <$> qs_request state).

Definition commitment_ready (session : Session) (state : QuorumState) : bool :=
  match qs_request state with
  | None => false
  | Some request =>
      match effective_threshold session request with
      | ThresholdUnsatisfiable => false
      | ThresholdApprovals required =>
          let approvals := u32_wrap (ballot_count Approve (qs_ballots state)) in
          let total_eligible := u32_wrap (len (ss_participants session)) in
          let counted := u32_wrap (Z.of_nat (size (qs_ballots state))) in
          let remaining := u32_saturating_sub total_eligible counted in
          (approvals >=? required) || (u32_wrap (approvals + remaining) <? required)
      end
  end.

Definition quorum_authorize_sender (session : Session) (env : Envelope)
    : result MacpError unit :=
  if env_message_type env == "ApprovalRequest" then
    if env_sender env == ss_initiator_sender session then Ok () else Err Forbidden
  else if env_message_type env == "Commitment" then
    check_commitment_authority session (env_sender env)
  else if is_declared_participant (ss_participants session) (env_sender env) then Ok ()
  else Err Forbidden.

Definition quorum_on_session_start (session : Session) (env : Envelope)
    : result MacpError ModeResponse :=
  if is_empty (ss_participants session) then Err InvalidPayload
  else Ok (PersistState (encode_mode_state default_state)).

Definition handle_request (session : Session) (env : Envelope) (state : QuorumState)
    : result MacpError QuorumState :=
  if env_sender env != ss_initiator_sender session then Err Forbidden
  else
    payload ← decode_payload ApprovalRequestPayload env;
    if bool_decide (is_Some (qs_request state))
       || str_is_empty (aq_request_id payload)
       || (aq_required_approvals payload =? 0)
       || (aq_required_approvals payload >? u32_wrap (len (ss_participants session)))
    then Err InvalidPayload
    else
      let record := {| arr_request_id := aq_request_id payload;
                       arr_action := aq_action payload;
                       arr_summary := aq_summary payload;
                       arr_details := aq_details payload;
                       arr_required_approvals := aq_required_approvals payload;
                       arr_requested_by := env_sender env |} in
      match effective_threshold session record with
      | ThresholdApprovals _ => Ok (MkQuorumState (Some record) (qs_ballots state))
      | ThresholdUnsatisfiable => Err InvalidPayload
      end.

(** The body the three ballot arms share. *)
Definition cast_ballot (env : Envelope) (state : QuorumState) (choice : BallotChoice)
    (request_id reason : string) : result MacpError QuorumState :=
  request ← ok_or (qs_request state) InvalidPayload;
  if (request_id != arr_request_id request)
     || bool_decide (is_Some (qs_ballots state !! env_sender env))
  then Err InvalidPayload
  else
    let ballot := {| bal_request_id := request_id;
                     bal_choice := choice;
                     bal_sender := env_sender env;
                     bal_reason := reason |} in
    Ok (MkQuorumState (qs_request state) (<[env_sender env := ballot]> (qs_ballots state))).

Definition handle_approve (env : Envelope) (state : QuorumState)
    : result MacpError QuorumState :=
  payload ← decode_payload ApprovePayload env;
  cast_ballot env state Approve (qa_request_id payload) (qa_reason payload).
Definition handle_reject (env : Envelope) (state : QuorumState)
    : result MacpError QuorumState :=
  payload ← decode_payload BallotRejectPayload env;
  cast_ballot env state Reject (qj_request_id payload) (qj_reason payload).
Definition handle_abstain (env : Envelope) (state : QuorumState)
    : result MacpError QuorumState :=
  payload ← decode_payload AbstainPayload env;
  cast_ballot env state Abstain (qb_request_id payload) (qb_reason payload).

Definition handle_commitment (session : Session) (env : Envelope) (state : QuorumState)
    : result MacpError QuorumState :=
  commitment ← validate_commitment_payload_for_session session (env_payload env);
  if negb (commitment_ready session state) then Err InvalidPayload
  else
    _ ← enforce_commitment_policy session
          (CMQuorum (ballot_count Approve (qs_ballots state))
                    (ballot_count Reject (qs_ballots state))
                    (ballot_count Abstain (qs_ballots state)))
          (cp_outcome_positive commitment);
    Ok state.

Definition dispatch (session : Session) (env : Envelope) (state : QuorumState)
    : result MacpError (QuorumState * option bytes) :=
  let mt := env_message_type env in
  if mt == "ApprovalRequest" then st ← handle_request session env state; Ok (st, None)
  else if mt == "Approve" then st ← handle_approve env state; Ok (st, None)
  else if mt == "Reject" then st ← handle_reject env state; Ok (st, None)
  else if mt == "Abstain" then st ← handle_abstain env state; Ok (st, None)
  else if mt == "Commitment" then
    st ← handle_commitment session env state; Ok (st, Some (env_payload env))
  else Err InvalidPayload.

Definition quorum_on_message (session : Session) (env : Envelope)
    : result MacpError ModeResponse :=
  state ← (if is_empty (ss_mode_state session) then Ok default_state
           else decode_mode_state (ss_mode_state session));
  out ← dispatch session env state;
  Ok (respond out).

Definition QuorumMode : Mode := {|
  on_session_start := quorum_on_session_start;
  on_message := quorum_on_message;
  on_message_at := default_on_message_at quorum_on_message;
  validate_client_envelope := default_validate_client_envelope;
  due_synthetic_envelope := default_due_synthetic_envelope;
  authorize_sender := quorum_authorize_sender |}.
End mode.

(** ** Counting ballots *)
Lemma bt_count_size {V} (f : V → bool) (m : gmap string V) :
  bt_count f m = Z.of_nat (size (filter (λ '(_, v), f v = true) m)).
Proof.
  induction m as [|k v m Hk IH] using map_ind.
  - unfold bt_count. rewrite bt_values_empty, map_filter_empty, map_size_empty. done.
  - rewrite bt_count_insert by done. destruct (f v) eqn:Ef.
    + rewrite map_filter_insert_True by done. rewrite map_size_insert_None, IH; [lia|].
      by apply map_lookup_filter_None; left.
    + rewrite map_filter_insert_not' by naive_solver congruence. rewrite IH. lia.
Qed.

Lemma bt_count_union {V} (f : V → bool) (m1 m2 : gmap string V) :
  m1 ##ₘ m2 → bt_count f (m1 ∪ m2) = bt_count f m1 + bt_count f m2.
Proof.
  intros Hd. rewrite !bt_count_size, map_filter_union by done.
  rewrite map_size_disj_union by (by apply map_disjoint_filter). lia.
Qed.

(** ** The invariant of the ballot box *)
Section theorems.
Context `{Serde QuorumState} `{FromValue CommitmentRules} `{FromValue QuorumPolicyRules}.
Context `{PolicyEvaluator} `{Message ApprovalRequestPayload} `{Message ApprovePayload}.
Context `{Message BallotRejectPayload} `{Message AbstainPayload} `{Message CommitmentPayload}.
Implicit Types (session : Session) (env : Envelope) (st : QuorumState).

Record quorum_inv session st : Prop := {
  qi_none : qs_request st = None → qs_ballots st = ∅;
  qi_request r : qs_request st = Some r →
    arr_request_id r ≠ "" ∧ arr_requested_by r = ss_initiator_sender session ∧
    1 ≤ arr_required_approvals r ≤ len (ss_participants session) ∧
    effective_threshold session r ≠ ThresholdUnsatisfiable;
  qi_ballots p b : qs_ballots st !! p = Some b →
    bal_sender b = p ∧ p ∈ ss_participants session ∧
    ∃ r, qs_request st = Some r ∧ bal_request_id b = arr_request_id r;
}.

Lemma cast_ballot_inv session env st st' choice id reason :
  env_sender env ∈ ss_participants session →
  cast_ballot env st choice id reason = Ok st' → quorum_inv session st →
  quorum_inv session st' ∧ qs_request st' = qs_request st ∧ qs_ballots st ⊆ qs_ballots st'.
Proof.
  unfold cast_ballot. intros Hs E [In Ir Ib]. res_inv. bool_simp.
  split; [|split; [done|]].
  - constructor; simpl; auto; [congruence|].
    intros p b [[<- <-]|[_ Hb]]%lookup_insert_Some; [|by auto]. simpl. eauto.
  - simpl. apply insert_subseteq. by apply eq_None_not_Some.
Qed.

Section request.
(** [required_approvals] is a [uint32] of the protobuf schema. *)
Hypothesis required_approvals_u32 : ∀ b p,
  decode (P:=ApprovalRequestPayload) b = Some p → 0 ≤ aq_required_approvals p ≤ u32_max.

Lemma quorum_handle_request_inv session env st st' :
  handle_request session env st = Ok st' → quorum_inv session st →
  len (ss_participants session) ≤ u32_max →
  quorum_inv session st' ∧ qs_request st = None ∧ qs_ballots st' = ∅.
Proof.
  unfold handle_request, decode_payload. intros E [In Ir Ib] Hlen. res_inv. bool_simp.
  assert (qs_request st = None) as Hn by (by apply eq_None_not_Some).
  rewrite (In Hn). split; [|done]. constructor; simpl; [done| |set_solver].
  intros r' [= <-]. simpl.
  match goal with E : decode _ = Some _ |- _ => apply required_approvals_u32 in E end.
  rewrite u32_wrap_id in * by (pose proof (len_nonneg (ss_participants session)); lia).
  split_and!; try done; try lia. congruence.
Qed.

(** One participant, one ballot. On a session whose roster fits [u32],
    every accepted message keeps the ballot box well-formed: there is at most
    one request, made by the initiator and asking for between one and all of
    the participants, ballots are only cast after it and for it, each under
    the participant that cast it; and a ballot, once cast, is never changed or
    removed. *)
Theorem quorum_inv_preserved session env st st' res :
  len (ss_participants session) ≤ u32_max →
  quorum_authorize_sender session env = Ok () →
  quorum_inv session st → dispatch session env st = Ok (st', res) →
  quorum_inv session st' ∧ qs_ballots st ⊆ qs_ballots st' ∧
  (∀ r, qs_request st = Some r → qs_request st' = Some r).
Proof.
  intros Hlen Hauth Hi E. unfold dispatch in E. unfold quorum_authorize_sender in Hauth.
  destruct (env_message_type env == "ApprovalRequest") eqn:E1.
  { res_inv. edestruct quorum_handle_request_inv as (? & Hn & Hb); try eassumption.
    rewrite Hb, Hn, (qi_none _ _ Hi Hn). split_and!; done. }
  destruct (env_message_type env == "Commitment") eqn:E2.
  { unfold handle_commitment in E. repeat case_bool_decide; try congruence. res_inv. done. }
  unfold is_declared_participant in Hauth. res_inv; bool_simp;
    unfold handle_approve, handle_reject, handle_abstain in *; res_inv;
    match goal with E : cast_ballot _ _ _ _ _ = Ok _ |- _ =>
      eapply (cast_ballot_inv session) in E as (? & Hr & ?); [|done|done] end;
    split_and!; try done; congruence.
Qed.
End request.

(** ** When a commitment is eligible *)

(** A ballot box the session could still reach: the request is the same, no
    ballot has been withdrawn, and the ballots are those of participants. *)
Definition completion session st (ballots' : gmap string BallotRecord) : Prop :=
  qs_ballots st ⊆ ballots' ∧ quorum_inv session (MkQuorumState (qs_request st) ballots').

Lemma filter_split_len {A} (P : A → Prop) `{∀ x, Decision (P x)} (l : list A) :
  len (filter P l) + len (filter (λ x, ¬ P x) l) = len l.
Proof.
  induction l as [|x l IH]; [done|]. rewrite !filter_cons, len_cons.
  destruct (decide (P x)), (decide (¬ P x)); try done; rewrite ?len_cons; lia.
Qed.

Lemma voted_participants session (ballots : gmap string BallotRecord) :
  NoDup (ss_participants session) →
  (∀ p, is_Some (ballots !! p) → p ∈ ss_participants session) →
  len (filter (λ p, is_Some (ballots !! p)) (ss_participants session))
  = Z.of_nat (size ballots).
Proof.
  intros Hnd Hin. unfold len. f_equal.
  rewrite <- (length_map_to_list ballots), <- (length_fmap fst (map_to_list ballots)).
  apply Permutation_length, NoDup_Permutation;
    [by apply NoDup_filter|apply NoDup_fst_map_to_list|].
  intros p. rewrite list_elem_of_filter, list_elem_of_fmap. split.
  - intros [[b Hb] _]. exists (p, b). by rewrite elem_of_map_to_list.
  - intros ([q b] & -> & Hb%elem_of_map_to_list). simpl. split; [by eexists|].
    apply Hin. by eexists.
Qed.

Lemma completion_bound session st ballots' :
  NoDup (ss_participants session) → completion session st ballots' →
  ballot_count Approve ballots'
  ≤ ballot_count Approve (qs_ballots st)
    + (len (ss_participants session) - Z.of_nat (size (qs_ballots st))).
Proof.
  intros Hnd [Hsub Hi']. unfold ballot_count.
  assert (Z.of_nat (size ballots') ≤ len (ss_participants session)) as Hsz.
  { rewrite <- (voted_participants session ballots') by
      (done || (intros p [b Hb]; by apply (qi_ballots _ _ Hi' p b))).
    rewrite <- (filter_split_len (λ p, is_Some (ballots' !! p)) (ss_participants session)).
    pose proof (len_nonneg (filter (λ p, ¬ is_Some (ballots' !! p)) (ss_participants session))).
    lia. }
  rewrite <- (map_difference_union (qs_ballots st) ballots') by done.
  rewrite <- (map_difference_union (qs_ballots st) ballots') in Hsz by done.
  rewrite bt_count_union by (by apply map_disjoint_difference_r1).
  rewrite map_size_disj_union in Hsz by (by apply map_disjoint_difference_r1).
  pose proof (bt_count_le_size (is_choice Approve) (ballots' ∖ qs_ballots st)). lia.
Qed.

Lemma cast_all session r l ballots :
  quorum_inv session (MkQuorumState (Some r) ballots) → NoDup l →
  (∀ p, p ∈ l → ballots !! p = None ∧ p ∈ ss_participants session) →
  ∃ ballots', completion session (MkQuorumState (Some r) ballots) ballots' ∧
    ballot_count Approve ballots' = ballot_count Approve ballots + len l.
Proof.
  intros Hi Hnd. revert ballots Hi. induction Hnd as [|p l Hp Hnd IH]; intros ballots Hi Hl.
  { exists ballots. split; [by split|]. rewrite len_nil. lia. }
  destruct (Hl p) as [Hn Hpart]; [set_solver|].
  set (b := MkBallotRecord (arr_request_id r) Approve p "").
  destruct (IH (<[p := b]> ballots)) as (ballots' & [Hsub Hi'] & Hc).
  - destruct Hi as [In Ir Ib]. constructor; simpl in *; [done|done|].
    intros q c [[<- <-]|[_ Hc]]%lookup_insert_Some; [|by auto]. simpl. eauto.
  - intros q Hq. rewrite lookup_insert_ne by set_solver. apply Hl. set_solver.
  - exists ballots'. split; [split; [|done]|].
    + etrans; [|exact Hsub]. simpl. by apply insert_subseteq.
    + rewrite Hc, len_cons. unfold ballot_count. rewrite bt_count_insert by done. simpl. lia.
Qed.

(** The participants yet to vote. *)
Lemma outstanding_participants session st :
  NoDup (ss_participants session) → quorum_inv session st →
  len (filter (λ p, ¬ is_Some (qs_ballots st !! p)) (ss_participants session))
  = len (ss_participants session) - Z.of_nat (size (qs_ballots st)).
Proof.
  intros Hnd Hi.
  pose proof (voted_participants session (qs_ballots st) Hnd
    (λ p '(ex_intro _ b Hb), proj1 (proj2 (qi_ballots _ _ Hi p b Hb)))) as Hv.
  pose proof (filter_split_len (λ p, is_Some (qs_ballots st !! p)) (ss_participants session)) as Hs.
  cbv beta in Hs. lia.
Qed.

(** [commitment_ready] in numbers, none of which wraps. *)
Lemma commitment_ready_num session st r n :
  NoDup (ss_participants session) → len (ss_participants session) ≤ u32_max →
  quorum_inv session st → qs_request st = Some r →
  effective_threshold session r = ThresholdApprovals n →
  commitment_ready session st = true ↔
  n ≤ ballot_count Approve (qs_ballots st) ∨
  ballot_count Approve (qs_ballots st)
    + len (filter (λ p, ¬ is_Some (qs_ballots st !! p)) (ss_participants session)) < n.
Proof.
  intros Hnd Hlen Hi Hr Hn. unfold commitment_ready. rewrite Hr, Hn.
  pose proof (outstanding_participants session st Hnd Hi).
  pose proof (len_nonneg (filter (λ p, ¬ is_Some (qs_ballots st !! p)) (ss_participants session))).
  pose proof (bt_count_le_size (is_choice Approve) (qs_ballots st)).
  unfold ballot_count, u32_saturating_sub.
  rewrite (u32_wrap_id (bt_count _ _)), (u32_wrap_id (len _)),
    (u32_wrap_id (Z.of_nat _)), u32_wrap_id by lia.
  rewrite orb_true_iff, geb_true, Z.ltb_lt. lia.
Qed.

(** A quorum commitment is eligible exactly when the vote is decided. With
    a request accepted and an approval bar of [n] in force (the policy's, or
    else the request's), [commitment_ready] holds exactly when [n] approvals
    have been cast, or no way of casting the remaining ballots can bring them
    to [n]. *)
Theorem quorum_ready_iff session st r n :
  NoDup (ss_participants session) → len (ss_participants session) ≤ u32_max →
  quorum_inv session st → qs_request st = Some r →
  effective_threshold session r = ThresholdApprovals n →
  commitment_ready session st = true ↔
  n ≤ ballot_count Approve (qs_ballots st) ∨
  ¬ ∃ ballots', completion session st ballots' ∧ n ≤ ballot_count Approve ballots'.
Proof.
  intros Hnd Hlen Hi Hr Hn. rewrite (commitment_ready_num session st r n) by done.
  assert (∃ ballots', completion session st ballots' ∧
    ballot_count Approve ballots' = ballot_count Approve (qs_ballots st)
      + len (filter (λ p, ¬ is_Some (qs_ballots st !! p)) (ss_participants session)))
    as (best & Hbest & Hcount).
  { destruct st as [rq ballots]. simpl in *. subst rq.
    apply cast_all; [done|by apply NoDup_filter|].
    intros p [Hp ?]%list_elem_of_filter. split; [by apply eq_None_not_Some|done]. }
  split; (intros [?|Hno]; [by left|right]).
  - intros (b' & Hc & Hb'). pose proof (completion_bound _ _ _ Hnd Hc).
    pose proof (outstanding_participants session st Hnd Hi). lia.
  - apply Z.nle_gt. intros Hge. apply Hno. exists best. split; [done|]. lia.
Qed.
End theorems.

From S2P Require Import Concrete.

(** ** Demonstrations *)
Module Demo.
#[local] Instance commitment_rules : FromValue CommitmentRules :=
  const_from_value default_commitment_rules.
#[local] Instance rules : FromValue QuorumPolicyRules :=
  const_from_value default_quorum_policy_rules.
#[local] Instance evaluator : PolicyEvaluator := allow_all.
#[local] Instance m_request : Message ApprovalRequestPayload :=
  const_message (Some (MkApprovalRequestPayload "r1" "deploy" "" [] 2)).
#[local] Instance m_approve : Message ApprovePayload :=
  const_message (Some (MkApprovePayload "r1" "")).
#[local] Instance m_reject : Message BallotRejectPayload :=
  const_message (Some (MkBallotRejectPayload "r1" "")).
#[local] Instance m_abstain : Message AbstainPayload := const_message None.
#[local] Instance m_commitment : Message CommitmentPayload := const_message None.

Definition session : Session :=
  set_participants ["a"; "b"; "c"] (session_builder "s" "macp.mode.quorum.v1" "lead").
Definition request : ApprovalRequestRecord :=
  MkApprovalRequestRecord "r1" "deploy" "" [] 2 "lead".
Definition requested : QuorumState := MkQuorumState (Some request) ∅.
Definition ballot (c : BallotChoice) (p : string) : BallotRecord := MkBallotRecord "r1" c p "".
Definition rejected : QuorumState :=
  MkQuorumState (Some request) {["b" := ballot Reject "b"]}.
Definition rejected2 : QuorumState :=
  MkQuorumState (Some request) (<["c" := ballot Reject "c"]> {["b" := ballot Reject "b"]}).

Lemma u32_field b p :
  decode (P:=ApprovalRequestPayload) b = Some p → 0 ≤ aq_required_approvals p ≤ u32_max.
Proof. intros [= <-]. by vm_compute. Qed.
Lemma quorum_default_inv : quorum_inv session default_state.
Proof. constructor; simpl; set_solver. Qed.
Lemma requested_inv : quorum_inv session requested.
Proof.
  eapply (quorum_handle_request_inv u32_field session
    (demo_env "ApprovalRequest" "m1" "lead" []) default_state);
    [by vm_compute|apply quorum_default_inv|by vm_compute].
Qed.
Lemma rejected2_inv : quorum_inv session rejected2.
Proof.
  eapply (cast_ballot_inv session (demo_env "Reject" "m3" "c" []) rejected rejected2
    Reject "r1" ""); [set_solver|by vm_compute|].
  eapply (cast_ballot_inv session (demo_env "Reject" "m2" "b" []) requested rejected
    Reject "r1" ""); [set_solver|by vm_compute|apply requested_inv].
Qed.

Lemma quorum_inv_preserved_witness : quorum_inv session rejected.
Proof.
  apply (quorum_inv_preserved u32_field session (demo_env "Reject" "m2" "b" [])
    requested rejected None); [by vm_compute|by vm_compute|apply requested_inv|by vm_compute].
Defined.

(** Two of three rejected: two approvals are out of reach. *)
Lemma quorum_ready_iff_witness :
  ¬ ∃ ballots', completion session rejected2 ballots' ∧ 2 ≤ ballot_count Approve ballots'.
Proof.
  destruct (proj1 (quorum_ready_iff session rejected2 request 2
    ltac:(apply (bool_decide_unpack _); by vm_compute) ltac:(by vm_compute)
    rejected2_inv eq_refl ltac:(by vm_compute)) ltac:(by vm_compute)) as [H|H];
    [by vm_compute in H|exact H].
Defined.
End Demo.
