(* ===== verification/MultiRound.v ===== *)
(** * Multi-round mode and the passthrough mode
      (crates/macp-modes/src/mode/multi_round.rs, mode/passthrough.rs)

    Contributions until all participants agree, read as JSON or as protobuf,
    and the generic handler of dynamically registered extension modes. *)

From stdpp Require Import prelude gmap strings.
From S2P Require Import Prelude RustStr Floats Extern Error Policy Wire SessionData.
From S2P Require Import CommitmentHash ModeApi.
Open Scope Z_scope.

Record MultiRoundState := MkMultiRoundState {
  mr_round : Z;
  mr_participants : list string;
  mr_contributions : gmap string string;
  mr_convergence_type : string;
  mr_converged : bool;
}.

(** [serde_json::from_str::<ContributeJson>] on a payload that is UTF-8, and
    [None] on one that is not. *)
Class ContributeJson := contribute_json : bytes → option string.

Record ResolutionPayload := MkResolutionPayload {
  rp_converged_value : string;
  rp_round : Z;
  rp_final_values : gmap string string;
}.
(** [serde_json::to_vec] at a type that is only written. *)
Class ToJson (T : Type) := to_json : T → bytes.

Definition parse_contribute_value `{ContributeJson, Message ContributePayload}
    (payload : bytes) (semantics_rev : Z) : result MacpError string :=
  if is_empty payload then Err InvalidPayload
  else
    let proto_decoded := decode (P:=ContributePayload) payload in
    let from_proto := ok_or (ct_value <$> proto_decoded) InvalidPayload in
    match contribute_json payload with
    | Some value =>
        let trust_proto :=
          (semantics_rev >=? 3)
          && match proto_decoded with
             | Some m => encode_to_vec m == payload
             | None => false
             end in
        if negb trust_proto then Ok value else from_proto
    | None => from_proto
    end.

(** [values.windows(2).all(|w| w[0] == w[1])]. *)
Fixpoint windows_all_equal (values : list string) : bool :=
  match values with
  | a :: rest =>
      match rest with
      | b :: _ => (a == b) && windows_all_equal rest
      | [] => true
      end
  | [] => true
  end.

Definition check_convergence (state : MultiRoundState) : bool :=
  if negb (forallb (λ p, bool_decide (is_Some (mr_contributions state !! p)))
             (mr_participants state))
  then false
  else windows_all_equal (bt_values (mr_contributions state)).

Section mode.
Context `{Serde MultiRoundState} `{ContributeJson} `{Message ContributePayload}.
Context `{Message CommitmentPayload} `{ToJson ResolutionPayload}.

Definition multi_round_on_session_start (session : Session) (env : Envelope)
    : result MacpError ModeResponse :=
  if is_empty (ss_participants session) then Err InvalidPayload
  else Ok (PersistState (encode_mode_state
    {| mr_round := 0;
       mr_participants := ss_participants session;
       mr_contributions := ∅;
       mr_convergence_type := "all_equal";
       mr_converged := false |})).

Definition multi_round_authorize_sender (session : Session) (env : Envelope)
    : result MacpError unit :=
  if env_message_type env == "Commitment" then
    if env_sender env != ss_initiator_sender session then Err Forbidden else Ok ()
  else if negb (is_empty (ss_participants session))
          && negb (str_elem (env_sender env) (ss_participants session))
  then Err Forbidden
  else Ok ().

(** [handle_contribute] on the decoded state. *)
Definition contribute (session : Session) (env : Envelope) (state : MultiRoundState)
    : result MacpError MultiRoundState :=
  if mr_converged state then Err InvalidPayload
  else
    value ← parse_contribute_value (env_payload env) (ss_semantics_rev session);
    let value_changed :=
      match mr_contributions state !! env_sender env with
      | None => true
      | Some prev => prev != value
      end in
    let state :=
      if value_changed then
        MkMultiRoundState (u64_wrap (mr_round state + 1)) (mr_participants state)
          (<[env_sender env := value]> (mr_contributions state))
          (mr_convergence_type state) (mr_converged state)
      else state in
    Ok (if check_convergence state then
          MkMultiRoundState (mr_round state) (mr_participants state)
            (mr_contributions state) (mr_convergence_type state) true
        else state).

Definition handle_contribute (session : Session) (env : Envelope)
    : result MacpError ModeResponse :=
  state ← decode_mode_state (ss_mode_state session);
  state ← contribute session env state;
  Ok (PersistState (encode_mode_state state)).

(** The resolution [handle_commitment] writes. *)
Definition resolution_of (state : MultiRoundState) : ResolutionPayload :=
  {| rp_converged_value := default "" (head (bt_values (mr_contributions state)));
     rp_round := mr_round state;
     rp_final_values := mr_contributions state |}.

Definition handle_commitment (session : Session) (env : Envelope)
    : result MacpError ModeResponse :=
  state ← decode_mode_state (S:=MultiRoundState) (ss_mode_state session);
  if negb (mr_converged state) then Err InvalidPayload
  else
    _ ← validate_commitment_payload_for_session session (env_payload env);
    Ok (PersistAndResolve (encode_mode_state state) (to_json (resolution_of state))).

Definition multi_round_on_message (session : Session) (env : Envelope)
    : result MacpError ModeResponse :=
  if env_message_type env == "Contribute" then handle_contribute session env
  else if env_message_type env == "Commitment" then handle_commitment session env
  else Err InvalidPayload.

Definition MultiRoundMode : Mode := {|
  on_session_start := multi_round_on_session_start;
  on_message := multi_round_on_message;
  on_message_at := default_on_message_at multi_round_on_message;
  validate_client_envelope := default_validate_client_envelope;
  due_synthetic_envelope := default_due_synthetic_envelope;
  authorize_sender := multi_round_authorize_sender |}.
End mode.

(** ** Passthrough *)
Record PassthroughResolution := MkPassthroughResolution {
  ptr_action : string;
  ptr_commitment_id : string;
}.

Section passthrough.
Context `{Message CommitmentPayload} `{ToJson PassthroughResolution}.
Context (allowed_message_types : list string).

Definition passthrough_on_session_start (session : Session) (env : Envelope)
    : result MacpError ModeResponse := Ok NoOp.

Definition passthrough_on_message (session : Session) (env : Envelope)
    : result MacpError ModeResponse :=
  if negb (is_empty allowed_message_types)
     && negb (str_elem (env_message_type env) allowed_message_types)
  then Err InvalidPayload
  else if env_message_type env == "Commitment" then
    commitment ← validate_commitment_payload_for_session session (env_payload env);
    Ok (Resolve (to_json {| ptr_action := cp_action commitment;
                            ptr_commitment_id := cp_commitment_id commitment |}))
  else Ok (PersistState (env_payload env)).

Definition passthrough_authorize_sender (session : Session) (env : Envelope)
    : result MacpError unit :=
  if env_message_type env == "Commitment" then
    if env_sender env != ss_initiator_sender session then Err Forbidden else Ok ()
  else if negb (is_empty (ss_participants session))
          && negb (str_elem (env_sender env) (ss_participants session))
  then Err Forbidden
  else Ok ().

Definition PassthroughMode : Mode := {|
  on_session_start := passthrough_on_session_start;
  on_message := passthrough_on_message;
  on_message_at := default_on_message_at passthrough_on_message;
  validate_client_envelope := default_validate_client_envelope;
  due_synthetic_envelope := default_due_synthetic_envelope;
  authorize_sender := passthrough_authorize_sender |}.
End passthrough.

(** ** Convergence *)
Lemma windows_all_equal_spec l :
  windows_all_equal l = true ↔ ∀ x y, x ∈ l → y ∈ l → x = y.
Proof.
  induction l as [|a l IH]; [set_solver|]. destruct l as [|b l]; [set_solver|].
  change (windows_all_equal (a :: b :: l)) with ((a == b) && windows_all_equal (b :: l)).
  rewrite andb_true_iff, bool_decide_eq_true, IH. split.
  - intros [-> Hl] x y Hx Hy. apply Hl; set_solver.
  - intros Hl. split; [apply Hl; set_solver|]. intros x y Hx Hy. apply Hl; set_solver.
Qed.

(** The reachable states of a session with a non-empty roster: contributions
    come from participants, and the flag says that all of them agree. *)
Definition agreed_on (st : MultiRoundState) (v : string) : Prop :=
  ∀ p, p ∈ mr_participants st → mr_contributions st !! p = Some v.
Record multi_round_inv (session : Session) (st : MultiRoundState) : Prop := {
  mi_roster : mr_participants st = ss_participants session;
  mi_nonempty : ss_participants session ≠ [];
  mi_senders p : is_Some (mr_contributions st !! p) → p ∈ ss_participants session;
  mi_converged : mr_converged st = true ↔ ∃ v, agreed_on st v;
}.

Lemma check_convergence_spec session st :
  mr_participants st = ss_participants session → ss_participants session ≠ [] →
  (∀ p, is_Some (mr_contributions st !! p) → p ∈ ss_participants session) →
  check_convergence st = true ↔ ∃ v, agreed_on st v.
Proof.
  intros Hp Hne Hs. unfold check_convergence, agreed_on. rewrite Hp.
  destruct (forallb _ _) eqn:Ef; simpl.
  - rewrite forallb_forall in Ef. setoid_rewrite bool_decide_eq_true in Ef.
    setoid_rewrite <- list_elem_of_In in Ef. rewrite windows_all_equal_spec.
    setoid_rewrite elem_of_bt_values. split.
    + intros Heq. destruct (ss_participants session) as [|q ps] eqn:Eps; [done|].
      destruct (Ef q) as [v Hv]; [set_solver|]. exists v. intros p Hpin.
      destruct (Ef p Hpin) as [w Hw]. rewrite Hw. f_equal. eauto.
    + intros [v Hv] x y [p Hx] [q Hy]. assert (p ∈ ss_participants session) by eauto.
      assert (q ∈ ss_participants session) by eauto.
      rewrite Hv in Hx, Hy by done. congruence.
  - split; [done|]. intros [v Hv]. assert (forallb (λ p,
      bool_decide (is_Some (mr_contributions st !! p))) (ss_participants session) = true) as Et;
      [|congruence].
    apply forallb_forall. intros p Hpin%list_elem_of_In.
    apply bool_decide_eq_true. by rewrite Hv.
Qed.

Section theorems.
Context `{Serde MultiRoundState} `{ContributeJson} `{Message ContributePayload}.
Context `{Message CommitmentPayload} `{ToJson ResolutionPayload}.

Lemma contribute_inv session env st st' :
  env_sender env ∈ ss_participants session →
  contribute session env st = Ok st' → multi_round_inv session st →
  multi_round_inv session st'.
Proof.
  intros Hs. unfold contribute. intros E [Ir In Is Ic]. res_inv.
  match goal with |- context [if check_convergence ?s then _ else _] => set (st1 := s) end.
  assert (mr_participants st1 = ss_participants session) as R1
    by (unfold st1; by case_match; case_match).
  assert (mr_converged st1 = false) as R2 by (unfold st1; by case_match; case_match).
  assert (∀ p, is_Some (mr_contributions st1 !! p) → p ∈ ss_participants session) as R3.
  { intros p. unfold st1. repeat case_match; simpl; auto;
      intros [?| ?]%lookup_insert_is_Some'; subst; auto. }
  pose proof (check_convergence_spec session st1 R1 In R3) as Hspec.
  destruct (check_convergence st1); constructor; simpl; auto.
  rewrite R2. exact Hspec.
Qed.

(** A multi-round session resolves to what everybody said. A contribution
    of a participant keeps the invariant, in particular the [converged] flag is
    set exactly when every participant's current contribution is the same
    value, and no contribution is accepted afterwards; and a commitment is
    answered only in a converged session, with a resolution that names the
    value every participant contributed. *)
Theorem multi_round_agreement `{!SerdeLaws MultiRoundState Some} session env st :
  multi_round_inv session st → ss_mode_state session = encode_mode_state st →
  (env_sender env ∈ ss_participants session → ∀ st',
    contribute session env st = Ok st' →
    mr_converged st = false ∧ multi_round_inv session st') ∧
  (env_message_type env = "Commitment" → ∀ response,
    multi_round_on_message session env = Ok response →
    ∃ v, agreed_on st v ∧
      response = PersistAndResolve (encode_mode_state st)
        (to_json {| rp_converged_value := v; rp_round := mr_round st;
                    rp_final_values := mr_contributions st |})).
Proof.
  intros Hi Hst. split.
  - intros Hs st' E. split; [|by eapply contribute_inv].
    unfold contribute in E. by destruct (mr_converged st).
  - intros Hty response E. unfold multi_round_on_message in E. rewrite Hty in E. simpl in E.
    unfold handle_commitment in E. rewrite Hst in E.
    rewrite (decode_encode_state Some st st eq_refl) in E. simpl in E.
    res_inv. bool_simp. destruct Hi as [Ir In Is Ic].
    destruct (proj1 Ic) as [v Hv]; [done|]. exists v. split; [done|].
    unfold resolution_of. do 3 f_equal.
    destruct (bt_values (mr_contributions st)) as [|w ws] eqn:Eb; simpl.
    + exfalso. destruct (ss_participants session) as [|p ps] eqn:Eps; [done|].
      assert (v ∈ bt_values (mr_contributions st)) as Hin.
      { apply elem_of_bt_values. exists p. apply Hv. rewrite Ir. set_solver. }
      rewrite Eb in Hin. set_solver.
    + assert (w ∈ bt_values (mr_contributions st)) as [p Hp]%elem_of_bt_values
        by (rewrite Eb; set_solver).
      assert (p ∈ ss_participants session) as Hpin by eauto.
      rewrite Hv in Hp by (by rewrite Ir). congruence.
Qed.
End theorems.

From stdpp Require Import countable.
From S2P Require Import Concrete.

(** ** Demonstrations *)
Module Demo.
#[local] Instance state_eq_dec : EqDecision MultiRoundState.
Proof. solve_decision. Defined.
#[local] Instance state_countable : Countable MultiRoundState.
Proof.
  refine (inj_countable'
    (λ s, ((mr_round s, mr_participants s),
           (mr_contributions s, (mr_convergence_type s, mr_converged s))))
    (λ '((a, b), (c, (d, e))), MkMultiRoundState a b c d e) _).
  by intros [].
Defined.
#[local] Instance serde : Serde MultiRoundState := countable_serde Some.
#[local] Instance serde_laws : SerdeLaws MultiRoundState Some := countable_serde_laws Some.
#[local] Instance json : ContributeJson := λ _, Some "42".
#[local] Instance m_contribute : Message ContributePayload := const_message None.
Definition commitment : CommitmentPayload :=
  MkCommitmentPayload "c1" "round.completed" "scope" "done" "" "" "" true None.
#[local] Instance m_commitment : Message CommitmentPayload := const_message (Some commitment).
#[local] Instance resolution_json : ToJson ResolutionPayload := λ _, [Byte.x01].

Definition agreed : MultiRoundState :=
  MkMultiRoundState 1 ["a"] {["a" := "42"]} "all_equal" true.
Definition session : Session :=
  set_mode_state (encode_mode_state agreed)
    (set_participants ["a"] (session_builder "s" "ext.multi_round.v1" "a")).

Lemma agreed_inv : multi_round_inv session agreed.
Proof.
  constructor; [done|done| |].
  - simpl. intros p [v [<- _]%lookup_singleton_Some]. left.
  - split; [|done]. intros _. exists "42". by intros p ->%list_elem_of_singleton.
Qed.

Lemma multi_round_agreement_witness :
  ∃ v, agreed_on agreed v ∧
    PersistAndResolve (encode_mode_state agreed) [Byte.x01]
    = PersistAndResolve (encode_mode_state agreed)
        (to_json {| rp_converged_value := v; rp_round := 1;
                    rp_final_values := {["a" := "42"]} |}).
Proof.
  apply (multi_round_agreement session (demo_env "Commitment" "m2" "a" []) agreed);
    [apply agreed_inv|reflexivity|reflexivity|by vm_compute].
Defined.
End Demo.
