(* ===== verification/Laws.v ===== *)
(** * The modes keep the kernel's laws (crates/macp-modes/src/mode/)

    The instances of [ModeLaws] for every built-in mode, whatever their codecs
    and their policy evaluator: what the kernel's theorems assume of a mode
    holds of each one that is registered. *)

From stdpp Require Import prelude gmap strings.
From S2P Require Import Prelude RustStr Floats Extern Error Policy Wire SessionData.
From S2P Require Import Session CommitmentHash ModeApi Decision Proposal Task Handoff Quorum MultiRound.
Open Scope Z_scope.

(** What authorization reads of a session. *)
Lemma bound_fields_eq s s' :
  bound_fields s = bound_fields s' →
  ss_initiator_sender s = ss_initiator_sender s' ∧ ss_participants s = ss_participants s' ∧
  ss_policy_definition s = ss_policy_definition s' ∧ ss_semantics_rev s = ss_semantics_rev s'.
Proof. unfold bound_fields. intros E. by simplify_eq. Qed.

Lemma authority_bound `{FromValue CommitmentRules} s s' sender :
  bound_fields s = bound_fields s' →
  check_commitment_authority s sender = check_commitment_authority s' sender.
Proof.
  intros (E1 & E2 & E3 & _)%bound_fields_eq. unfold check_commitment_authority.
  by rewrite E1, E2, E3.
Qed.

(** A mode that never synthesizes owes the kernel only the first two laws. *)
Lemma passive_laws mode :
  due_synthetic_envelope mode = default_due_synthetic_envelope →
  (∀ s s' env, bound_fields s = bound_fields s' →
     authorize_sender mode s env = authorize_sender mode s' env) →
  (∀ s env r, on_session_start mode s env = Ok r →
     match r with NoOp | PersistState _ => True | _ => False end) →
  ModeLaws mode.
Proof. intros Hd Ha Hs. constructor; try done; intros; by rewrite Hd in *. Qed.

Ltac solve_auth :=
  intros s s' env Hb; pose proof (bound_fields_eq _ _ Hb) as (E1 & E2 & _);
  cbn; rewrite ?(authority_bound _ _ _ Hb), ?E1, ?E2; done.
Ltac solve_start := intros s env r E; cbn in E; res_inv; by simplify_eq.

Section instances.
Context `{FromValue CommitmentRules} `{PolicyEvaluator} `{Message CommitmentPayload}.

#[export] Instance decision_laws `{Serde DecisionState}
  `{Message ProposalPayload} `{Message EvaluationPayload}
  `{Message ObjectionPayload} `{Message VotePayload} : ModeLaws DecisionMode.
Proof.
  apply passive_laws; [done| |].
  - unfold DecisionMode, decision_authorize_sender. solve_auth.
  - unfold DecisionMode, decision_on_session_start. solve_start.
Qed.

#[export] Instance proposal_laws `{Serde ProposalState} `{FromValue ProposalPolicyRules}
  `{Message NegProposalPayload} `{Message CounterProposalPayload} `{Message AcceptPayload}
  `{Message NegRejectPayload} `{Message WithdrawPayload} : ModeLaws ProposalMode.
Proof.
  apply passive_laws; [done| |].
  - unfold ProposalMode, proposal_authorize_sender. solve_auth.
  - unfold ProposalMode, proposal_on_session_start. solve_start.
Qed.

#[export] Instance task_laws `{Serde TaskState} `{FromValue TaskPolicyRules}
  `{Message TaskRequestPayload} `{Message TaskAcceptPayload} `{Message TaskRejectPayload}
  `{Message TaskUpdatePayload} `{Message TaskCompletePayload} `{Message TaskFailPayload}
  : ModeLaws TaskMode.
Proof.
  apply passive_laws; [done| |].
  - unfold TaskMode, task_authorize_sender. solve_auth.
  - unfold TaskMode, task_on_session_start. solve_start.
Qed.

#[export] Instance quorum_laws `{Serde QuorumState} `{FromValue QuorumPolicyRules}
  `{Message ApprovalRequestPayload} `{Message ApprovePayload}
  `{Message BallotRejectPayload} `{Message AbstainPayload} : ModeLaws QuorumMode.
Proof.
  apply passive_laws; [done| |].
  - unfold QuorumMode, quorum_authorize_sender. solve_auth.
  - unfold QuorumMode, quorum_on_session_start. solve_start.
Qed.

#[export] Instance multi_round_laws `{Serde MultiRoundState} `{ContributeJson}
  `{Message ContributePayload} `{ToJson ResolutionPayload} : ModeLaws MultiRoundMode.
Proof.
  apply passive_laws; [done| |].
  - unfold MultiRoundMode, multi_round_authorize_sender. solve_auth.
  - unfold MultiRoundMode, multi_round_on_session_start. solve_start.
Qed.

#[export] Instance passthrough_laws `{ToJson PassthroughResolution} allowed
  : ModeLaws (PassthroughMode allowed).
Proof.
  apply passive_laws; [done| |].
  - unfold PassthroughMode, passthrough_authorize_sender. solve_auth.
  - unfold PassthroughMode, passthrough_on_session_start. solve_start.
Qed.

(** The handoff mode synthesizes, at revision 2 and up, where the reserved
    prefix is refused at the client boundary. *)
Lemma handoff_due_shape `{Serde HandoffState} `{FromValue HandoffPolicyRules}
    `{Message HandoffAcceptPayload} s now e :
  handoff_due_synthetic_envelope s now = Some e →
  2 ≤ ss_semantics_rev s ∧ env_message_type e = "HandoffAccept" ∧
  env_session_id e = ss_session_id s ∧ ∃ hid, env_message_id e = IMPLICIT_ACCEPT_MESSAGE_ID_PREFIX +:+ hid.
Proof.
  unfold handoff_due_synthetic_envelope. intros E.
  destruct (_ <? 2) eqn:Hr in E; [done|]. bool_simp. split; [lia|].
  destruct (_ <=? 0) in E; [done|]. destruct (is_empty _) in E; [done|].
  apply bind_Some in E as (st & _ & E). apply bind_Some in E as (o & _ & E).
  destruct (_ <=? 0) in E; [done|]. destruct (_ <? _) in E; [done|].
  injection E as <-. split_and!; [done..|]. by eexists.
Qed.

#[export] Instance handoff_laws `{Serde HandoffState} `{FromValue HandoffPolicyRules}
  `{Message HandoffOfferPayload} `{Message HandoffContextPayload}
  `{Message HandoffAcceptPayload} `{Message HandoffDeclinePayload} : ModeLaws HandoffMode.
Proof.
  constructor.
  - unfold HandoffMode, handoff_authorize_sender. solve_auth.
  - unfold HandoffMode, handoff_on_session_start. solve_start.
  - intros s now e (_ & _ & _ & hid & ->)%handoff_due_shape. done.
  - by intros s now e (_ & _ & -> & _)%handoff_due_shape.
  - intros s s' now e env (_ & _ & _ & Hrev)%bound_fields_eq
      (Hr & _ & _ & hid & He)%handoff_due_shape Hid. rewrite He in Hid.
    cbn. unfold handoff_validate_client_envelope. rewrite Hrev, Hid.
    rewrite (proj2 (Z.ltb_ge _ _) Hr). rewrite starts_with_app. done.
  - intros s now e ctx r (_ & Hty & _)%handoff_due_shape E. cbn in E.
    unfold handoff_on_message_at, handle_message, Handoff.dispatch in E.
    rewrite Hty in E. apply bind_ok in E as (st & _ & E).
    apply bind_ok in E as (out & Hd & [= <-]). cbn in Hd.
    by apply bind_ok in Hd as (st' & _ & [= <-]).
Qed.
End instances.
