(* ===== verification/Blind.v ===== *)
(** * What the modes do not look at

    The server's log keeps neither participant activity nor, for old entries,
    every field of the envelope, and replay fills them in. No built-in mode
    reads them: its answers are the same whatever the activity counters and
    the version, addressing and timestamp of the envelope, from semantics
    revision 1 on (below it the handoff mode took the envelope's timestamp for
    the acceptance clock). *)

From stdpp Require Import prelude gmap strings.
From S2P Require Import Prelude RustStr Floats Extern Error Policy Wire SessionData.
From S2P Require Import CommitmentHash ModeApi Decision Proposal Task Handoff Quorum MultiRound.
Open Scope Z_scope.

Definition readdress (version mode id : string) (ts : Z) (env : Envelope) : Envelope := {|
  env_macp_version := version;
  env_mode := mode;
  env_message_type := env_message_type env;
  env_message_id := env_message_id env;
  env_session_id := id;
  env_sender := env_sender env;
  env_timestamp_unix_ms := ts;
  env_payload := env_payload env |}.

Definition with_activity (counts last_seen : gmap string Z) (s : Session) : Session :=
  set_participant_message_counts counts (set_participant_last_seen last_seen s).

Class ReplayBlind (mode : Mode) : Prop := {
  blind_authorize s counts last env v m id ts :
    authorize_sender mode (with_activity counts last s) (readdress v m id ts env)
    = authorize_sender mode s env;
  blind_message s counts last env v m id ts ctx :
    1 ≤ ss_semantics_rev s →
    on_message_at mode (with_activity counts last s) (readdress v m id ts env) ctx
    = on_message_at mode s env ctx;
  blind_start s counts last env v m id ts :
    on_session_start mode (with_activity counts last s) (readdress v m id ts env)
    = on_session_start mode s env;
}.

Section instances.
Context `{FromValue CommitmentRules} `{PolicyEvaluator} `{Message CommitmentPayload}.

#[export] Instance decision_blind `{Serde DecisionState}
  `{Message ProposalPayload} `{Message EvaluationPayload}
  `{Message ObjectionPayload} `{Message VotePayload} : ReplayBlind DecisionMode.
Proof. by constructor. Qed.

#[export] Instance proposal_blind `{Serde ProposalState} `{FromValue ProposalPolicyRules}
  `{Message NegProposalPayload} `{Message CounterProposalPayload} `{Message AcceptPayload}
  `{Message NegRejectPayload} `{Message WithdrawPayload} : ReplayBlind ProposalMode.
Proof. by constructor. Qed.

#[export] Instance task_blind `{Serde TaskState} `{FromValue TaskPolicyRules}
  `{Message TaskRequestPayload} `{Message TaskAcceptPayload} `{Message TaskRejectPayload}
  `{Message TaskUpdatePayload} `{Message TaskCompletePayload} `{Message TaskFailPayload}
  : ReplayBlind TaskMode.
Proof. by constructor. Qed.

#[export] Instance quorum_blind `{Serde QuorumState} `{FromValue QuorumPolicyRules}
  `{Message ApprovalRequestPayload} `{Message ApprovePayload}
  `{Message BallotRejectPayload} `{Message AbstainPayload} : ReplayBlind QuorumMode.
Proof. by constructor. Qed.

#[export] Instance multi_round_blind `{Serde MultiRoundState} `{ContributeJson}
  `{Message ContributePayload} `{ToJson ResolutionPayload} : ReplayBlind MultiRoundMode.
Proof. by constructor. Qed.

#[export] Instance passthrough_blind `{ToJson PassthroughResolution} allowed
  : ReplayBlind (PassthroughMode allowed).
Proof. by constructor. Qed.

#[export] Instance handoff_blind `{Serde HandoffState} `{FromValue HandoffPolicyRules}
  `{Message HandoffOfferPayload} `{Message HandoffContextPayload}
  `{Message HandoffAcceptPayload} `{Message HandoffDeclinePayload} : ReplayBlind HandoffMode.
Proof.
  constructor; [done| |done]. intros s c l env v m id ts ctx Hr.
  assert (ss_semantics_rev s >=? 1 = true) as Hg by (by apply geb_true).
  simpl. unfold handoff_on_message_at. simpl. rewrite Hg.
  unfold handle_message. simpl.
  assert (∀ st, Handoff.dispatch (with_activity c l s) (readdress v m id ts env)
    (accepted_at_ms ctx) st = Handoff.dispatch s env (accepted_at_ms ctx) st) as Hd.
  { intros st. unfold Handoff.dispatch, handle_offer. simpl. by rewrite Hg. }
  destruct (if is_empty _ then _ else _); simpl; [|done]. by rewrite Hd.
Qed.
End instances.
