(* ===== verification/Step.v ===== *)
(** * The per-message step and session start (crates/macp-modes/src/step.rs)

    The kernel's order for one message (preconditions, admission, synthesis,
    dispatch, commit) and for a SessionStart, over any [Mode]. Then what the
    kernel guarantees for every mode: rejection leaves no trace, duplicates
    are idempotent, nothing is accepted outside an open session in time, and
    every operation follows the session lifecycle. *)

From stdpp Require Import prelude gmap strings.
From S2P Require Import Prelude RustStr Floats Extern Error Policy Wire SessionData.
From S2P Require Import Session SessionStart CommitmentHash ModeApi.
Open Scope Z_scope.

Definition MAX_SYNTHETIC_PER_STEP : nat := 64.

Inductive Precheck := Duplicate | PrecheckExpired | Proceed.

Definition check_envelope_shape (env : Envelope) : result MacpError unit :=
  if env_macp_version env != MACP_VERSION then Err InvalidMacpVersion
  else if str_is_empty (env_message_type env) || str_is_empty (env_message_id env)
          || str_is_empty (env_sender env)
  then Err InvalidEnvelope
  else Ok ().

Definition check_preconditions (session : Session) (env : Envelope) (now_ms : Z)
    : result MacpError Precheck :=
  _ ← check_envelope_shape env;
  if bool_decide (env_message_id env ∈ ss_seen_message_ids session) then Ok Duplicate
  else if (env_mode env != ss_mode session) || (env_session_id env != ss_session_id session)
  then Err InvalidEnvelope
  else if deadline_passed now_ms session then Ok PrecheckExpired
  else if ss_state session != Open then Err SessionNotOpen
  else Ok Proceed.

Definition admit_envelope (mode : Mode) (session : Session) (env : Envelope)
    : result MacpError unit :=
  _ ← authorize_sender mode session env;
  validate_client_envelope mode session env.

Definition dispatch (mode : Mode) (session : Session) (env : Envelope) (now_ms : Z)
    : result MacpError ModeResponse :=
  on_message_at mode session env {| accepted_at_ms := now_ms |}.

Definition validate_message (mode : Mode) (session : Session) (env : Envelope) (now_ms : Z)
    : result MacpError ModeResponse :=
  _ ← admit_envelope mode session env;
  dispatch mode session env now_ms.

(** [seen_message_ids.insert]. *)
Definition insert_seen (message_id : string) (s : Session) : Session :=
  set_seen_message_ids ({[message_id]} ∪ ss_seen_message_ids s) s.

(** [commit]; the state it returns is that of the session. *)
Definition commit (env : Envelope) (response : ModeResponse) (now_ms : Z) (s : Session)
    : Session :=
  apply_mode_response response
    (record_participant_activity (env_sender env) now_ms
      (insert_seen (env_message_id env) s)).

Record Synthetic := MkSynthetic {
  syn_envelope : Envelope;
  syn_response : ModeResponse;
}.

Definition next_synthetic (mode : Mode) (session : Session) (now_ms : Z)
    : result MacpError (option Synthetic) :=
  if ss_state session != Open then Ok None
  else
    match due_synthetic_envelope mode session now_ms with
    | None => Ok None
    | Some envelope =>
        if bool_decide (env_message_id envelope ∈ ss_seen_message_ids session) then Ok None
        else
          _ ← authorize_sender mode session envelope;
          response ← on_message_at mode session envelope
                       {| accepted_at_ms := env_timestamp_unix_ms envelope |};
          Ok (Some {| syn_envelope := envelope; syn_response := response |})
    end.

Definition commit_synthetic (syn : Synthetic) (s : Session) : Session :=
  apply_mode_response (syn_response syn) (insert_seen (env_message_id (syn_envelope syn)) s).

(** The [while let] of [advance]; [room] is how many envelopes may still be
    emitted, and the loop fails when one more is due than the bound allows. *)
Fixpoint advance_loop (room : nat) (mode : Mode) (now_ms : Z) (emitted : list Envelope)
    (s : Session) : Session * result MacpError (list Envelope) :=
  match next_synthetic mode s now_ms with
  | Err e => (s, Err e)
  | Ok None => (s, Ok emitted)
  | Ok (Some syn) =>
      match room with
      | O => (s, Err InvalidModeState)
      | S room' =>
          advance_loop room' mode now_ms (emitted ++ [syn_envelope syn]) (commit_synthetic syn s)
      end
  end.
Definition advance (mode : Mode) (now_ms : Z) : stm Session MacpError (list Envelope) :=
  advance_loop MAX_SYNTHETIC_PER_STEP mode now_ms [].

Inductive StepOutcome :=
| StepDuplicate
| StepAccepted (state : SessionState) (synthesized : list Envelope).

Definition step (mode : Mode) (env : Envelope) (now_ms : Z)
    : stm Session MacpError StepOutcome :=
  (let! precheck := st_read (λ s, check_preconditions s env now_ms) in
   match precheck with
   | Duplicate => st_ret StepDuplicate
   | PrecheckExpired => do! expire; st_fail TtlExpired
   | Proceed =>
       do! st_read (λ s, admit_envelope mode s env);
       let! synthesized := advance mode now_ms in
       let! response := st_read (λ s, dispatch mode s env now_ms) in
       do! st_mod (commit env response now_ms);
       let! s := st_read Ok in
       st_ret (StepAccepted (ss_state s) synthesized)
   end)%stm.

(** ** SessionStart *)
Record StartOptions := MkStartOptions {
  so_strict : option bool;
  so_descriptor_mode_version : option string;
  so_default_max_suspend_ms : option Z;
  so_session_id_validator : option (string → result MacpError unit);
  so_max_ttl_ms : option Z;
}.
Definition default_start_options : StartOptions := MkStartOptions None None None None None.
Definition with_strict (strict : bool) (o : StartOptions) : StartOptions :=
  MkStartOptions (Some strict) (so_descriptor_mode_version o) (so_default_max_suspend_ms o)
    (so_session_id_validator o) (so_max_ttl_ms o).
Definition with_descriptor_mode_version (v : string) (o : StartOptions) : StartOptions :=
  MkStartOptions (so_strict o) (Some v) (so_default_max_suspend_ms o)
    (so_session_id_validator o) (so_max_ttl_ms o).
Definition with_default_max_suspend_ms (ms : Z) (o : StartOptions) : StartOptions :=
  MkStartOptions (so_strict o) (so_descriptor_mode_version o) (Some ms)
    (so_session_id_validator o) (so_max_ttl_ms o).
Definition with_max_ttl_ms (ms : Z) (o : StartOptions) : StartOptions :=
  MkStartOptions (so_strict o) (so_descriptor_mode_version o) (so_default_max_suspend_ms o)
    (so_session_id_validator o) (Some ms).
Definition with_session_id_validator (v : string → result MacpError unit)
    (o : StartOptions) : StartOptions :=
  MkStartOptions (so_strict o) (so_descriptor_mode_version o) (so_default_max_suspend_ms o)
    (Some v) (so_max_ttl_ms o).

Record ValidatedStart := MkValidatedStart {
  vs_payload : SessionStartPayload;
  vs_bound_mode_version : option string;
  vs_ttl_ms : Z;
  vs_ttl_expiry : Z;
  vs_max_suspend_ms : Z;
  vs_accepted_at_ms : Z;
}.

(** The deadline's base: the envelope's timestamp when it carries one. *)
Definition ttl_base (env : Envelope) (now_ms : Z) : Z :=
  if env_timestamp_unix_ms env >? 0 then env_timestamp_unix_ms env else now_ms.

Section start.
Context `{Uuids} `{Message SessionStartPayload}.

Definition validate_session_start (env : Envelope) (now_ms : Z) (opts : StartOptions)
    : result MacpError ValidatedStart :=
  _ ← check_envelope_shape env;
  if (env_message_type env != "SessionStart") || blank (env_mode env)
  then Err InvalidEnvelope
  else
    _ ← match so_session_id_validator opts with
        | Some validate => validate (env_session_id env)
        | None => validate_session_id_for_acceptance (env_session_id env)
        end;
    payload ← parse_session_start_payload (env_payload env);
    _ ← (if default (requires_strict_session_start (env_mode env)) (so_strict opts)
         then validate_canonical_session_start_payload_for_mode (env_mode env) payload
         else Ok ());
    _ ← match so_descriptor_mode_version opts with
        | Some descriptor =>
            if negb (str_is_empty (sp_mode_version payload))
               && (sp_mode_version payload != descriptor)
            then Err InvalidEnvelope else Ok ()
        | None => Ok ()
        end;
    let bound_mode_version :=
      if str_is_empty (sp_mode_version payload) then so_descriptor_mode_version opts
      else None in
    ttl_ms ← extract_ttl_ms payload;
    if match so_max_ttl_ms opts with Some cap => ttl_ms >? cap | None => false end
    then Err InvalidTtl
    else
      let max_suspend_ms :=
        match so_default_max_suspend_ms opts with
        | Some d =>
            if (sp_max_suspend_ms payload <=? 0) && (d >? 0) then d
            else resolve_max_suspend_ms (sp_max_suspend_ms payload)
        | None => resolve_max_suspend_ms (sp_max_suspend_ms payload)
        end in
      Ok {| vs_payload := payload;
            vs_bound_mode_version := bound_mode_version;
            vs_ttl_ms := ttl_ms;
            vs_ttl_expiry := saturating_add (ttl_base env now_ms) ttl_ms;
            vs_max_suspend_ms := max_suspend_ms;
            vs_accepted_at_ms := now_ms |}.

(** The [match] on the resolved policy and the requested version. *)
Definition bind_policy_version (policy : option PolicyDefinition) (requested : string)
    : result MacpError string :=
  match policy with
  | None => if str_is_empty requested then Ok requested else Err UnknownPolicyVersion
  | Some p =>
      if str_is_empty requested then Ok (policy_id p)
      else if policy_id p != requested then Err UnknownPolicyVersion
      else Ok requested
  end.

(** The session the builder call of [accept] makes. *)
Definition start_session (v : ValidatedStart) (env : Envelope)
    (policy : option PolicyDefinition) (policy_version : string) : Session :=
  let p := vs_payload v in
  set_semantics_rev CURRENT_SEMANTICS_REV
  (set_policy_definition policy
  (set_roots (sp_roots p)
  (set_extensions (sp_extensions p)
  (set_context_id (sp_context_id p)
  (set_policy_version policy_version
  (set_configuration_version (sp_configuration_version p)
  (set_mode_version (default (sp_mode_version p) (vs_bound_mode_version v))
  (set_intent (sp_intent p)
  (set_participants (sp_participants p)
  (set_started_at_unix_ms (vs_accepted_at_ms v)
  (set_max_suspend_ms (vs_max_suspend_ms v)
  (set_ttl_ms (vs_ttl_ms v)
  (set_ttl_expiry (vs_ttl_expiry v)
  (session_builder (env_session_id env) (env_mode env) (env_sender env))))))))))))))).

Definition accept (v : ValidatedStart) (env : Envelope) (mode : Mode)
    (policy : option PolicyDefinition) : result MacpError Session :=
  policy_version ← bind_policy_version policy (sp_policy_version (vs_payload v));
  if match policy with
     | Some p => (policy_mode p != "*") && (policy_mode p != env_mode env)
     | None => false
     end
  then Err InvalidPolicyDefinition
  else
    let session := start_session v env policy policy_version in
    response ← on_session_start mode session env;
    _ ← validate_client_envelope mode session env;
    Ok (apply_mode_response response (insert_seen (env_message_id env) session)).

Definition accept_session_start (env : Envelope) (now_ms : Z) (mode : Mode)
    (policy : option PolicyDefinition) (opts : StartOptions) : result MacpError Session :=
  v ← validate_session_start env now_ms opts;
  accept v env mode policy.
End start.

(** ** Commits *)
Lemma apply_mode_response_fields r s :
  let s' := apply_mode_response r s in
  bound_fields s' = bound_fields s ∧ ss_seen_message_ids s' = ss_seen_message_ids s ∧
  ss_participant_message_counts s' = ss_participant_message_counts s ∧
  ss_participant_last_seen s' = ss_participant_last_seen s ∧
  ss_ttl_expiry s' = ss_ttl_expiry s ∧ ss_suspended_at_ms s' = ss_suspended_at_ms s ∧
  ss_accumulated_suspended_ms s' = ss_accumulated_suspended_ms s ∧
  ss_suspension_intervals s' = ss_suspension_intervals s ∧
  (ss_state s' = ss_state s ∧ ss_resolution s' = ss_resolution s ∨
   ss_state s' = Resolved ∧ is_Some (ss_resolution s')).
Proof. destruct r; simpl; split_and!; auto; right; split; eauto. Qed.

Lemma next_synthetic_ok mode s now syn :
  next_synthetic mode s now = Ok (Some syn) →
  ss_state s = Open ∧ due_synthetic_envelope mode s now = Some (syn_envelope syn) ∧
  env_message_id (syn_envelope syn) ∉ ss_seen_message_ids s ∧
  authorize_sender mode s (syn_envelope syn) = Ok () ∧
  on_message_at mode s (syn_envelope syn)
    (MkMessageContext (env_timestamp_unix_ms (syn_envelope syn))) = Ok (syn_response syn).
Proof.
  unfold next_synthetic. intros E. res_inv. destruct x. simplify_eq. bool_simp. done.
Qed.

(** Induction over [advance]: what holds at the start and after each emission
    holds where it stops, and when it returns nothing more is due. *)
Lemma advance_ind mode now (P : Session → list Envelope → Prop) :
  (∀ s l syn, P s l → next_synthetic mode s now = Ok (Some syn) →
     P (commit_synthetic syn s) (l ++ [syn_envelope syn])) →
  ∀ room l s s' r, P s l → advance_loop room mode now l s = (s', r) →
  ∃ l', P s' l' ∧ (∀ out, r = Ok out → out = l' ∧ next_synthetic mode s' now = Ok None).
Proof.
  intros Hstep room. induction room as [|room IH]; intros l s s' r HP E; simpl in E;
    destruct (next_synthetic mode s now) as [[syn|]|e] eqn:En; simplify_eq;
    try (by exists l; split; [|intros out [= <-]]).
  eapply IH; [|exact E]. auto.
Qed.

(** What [advance] leaves alone. *)
Record advanced (s s' : Session) : Prop := {
  adv_bound : bound_fields s' = bound_fields s;
  adv_counts : ss_participant_message_counts s' = ss_participant_message_counts s;
  adv_last_seen : ss_participant_last_seen s' = ss_participant_last_seen s;
  adv_seen : ss_seen_message_ids s ⊆ ss_seen_message_ids s';
}.

Lemma commit_synthetic_advanced syn s : advanced s (commit_synthetic syn s).
Proof.
  unfold commit_synthetic.
  destruct (apply_mode_response_fields (syn_response syn)
    (insert_seen (env_message_id (syn_envelope syn)) s)) as (E1 & E2 & E3 & E4 & _).
  constructor; rewrite ?E1, ?E2, ?E3, ?E4; simpl; try done. set_solver.
Qed.

Lemma advanced_trans s1 s2 s3 : advanced s1 s2 → advanced s2 s3 → advanced s1 s3.
Proof. intros [] []. constructor; try congruence. set_solver. Qed.

Lemma advance_advanced mode now s s' r : advance mode now s = (s', r) → advanced s s'.
Proof.
  intros E. destruct (advance_ind mode now (λ t _, advanced s t)
    ltac:(intros t l syn H _; eapply advanced_trans, commit_synthetic_advanced; done)
    _ _ _ _ _ ltac:(by constructor) E) as (? & ? & _). done.
Qed.

Lemma advance_none mode now s :
  next_synthetic mode s now = Ok None → advance mode now s = (s, Ok []).
Proof. intros E. unfold advance. simpl. by rewrite E. Qed.

(** ** Inversion of [step] *)
Lemma check_preconditions_proceed s env now :
  check_preconditions s env now = Ok Proceed →
  check_envelope_shape env = Ok () ∧ env_message_id env ∉ ss_seen_message_ids s ∧
  env_mode env = ss_mode s ∧ env_session_id env = ss_session_id s ∧
  deadline_passed now s = false ∧ ss_state s = Open.
Proof.
  unfold check_preconditions. intros E. res_inv. bool_simp. destruct x. done.
Qed.

Lemma check_preconditions_expired s env now :
  check_preconditions s env now = Ok PrecheckExpired →
  deadline_passed now s = true ∧ is_terminal (ss_state s) = false.
Proof.
  unfold check_preconditions. intros E.
  assert (deadline_passed now s = true) as Hd by (res_inv; done). split; [done|].
  unfold deadline_passed in Hd. by destruct (ss_state s).
Qed.

Lemma step_accepted mode env now s s' st syn :
  step mode env now s = (s', Ok (StepAccepted st syn)) →
  check_preconditions s env now = Ok Proceed ∧ admit_envelope mode s env = Ok () ∧
  ∃ s1 response, advance mode now s = (s1, Ok syn) ∧
    dispatch mode s1 env now = Ok response ∧
    s' = commit env response now s1 ∧ st = ss_state s'.
Proof.
  unfold step. intros E. apply st_bind_ok in E as (pre & s0 & Hpre & E).
  unfold st_read in Hpre. injection Hpre as <- Hpre.
  destruct pre; [done| |].
  - apply st_bind_ok in E as (? & ? & _ & E). done.
  - apply st_bind_ok in E as ([] & s0 & Hadm & E). injection Hadm as <- Hadm.
    apply st_bind_ok in E as (l & s1 & Hadv & E).
    apply st_bind_ok in E as (response & s2 & Hdis & E). injection Hdis as <- Hdis.
    injection E as <- <- <-. split; [done|]. split; [done|]. exists s1, response. done.
Qed.

Lemma step_rejected mode env now s s' e :
  step mode env now s = (s', Err e) →
  (s' = s ∧ (check_preconditions s env now = Err e ∨ admit_envelope mode s env = Err e)) ∨
  (e = TtlExpired ∧ deadline_passed now s = true ∧
   s' = set_suspended_at_ms None (set_state Expired s)) ∨
  (admit_envelope mode s env = Ok () ∧ ∃ r, advance mode now s = (s', r)).
Proof.
  unfold step, st_bind, st_read. intros E.
  destruct (check_preconditions s env now) as [pre|e0] eqn:Hpre; [|simplify_eq; auto].
  destruct pre; [done| |].
  - right. left. apply check_preconditions_expired in Hpre as [Hd Ht].
    unfold expire in E. rewrite Ht in E. unfold st_fail in E. by simplify_eq.
  - destruct (admit_envelope mode s env) as [[]|e0] eqn:Hadm; [|simplify_eq; auto].
    right. right. split; [done|].
    destruct (advance mode now s) as [s1 [l|e1]]; [|simplify_eq; eauto].
    destruct (dispatch mode s1 env now); simplify_eq; eauto.
Qed.

(** A message id that passed the client boundary is not consumed by synthesis. *)
Lemma advance_keeps_id mode `{!ModeLaws mode} env now s s' r :
  validate_client_envelope mode s env = Ok () → advance mode now s = (s', r) →
  env_message_id env ∈ ss_seen_message_ids s' → env_message_id env ∈ ss_seen_message_ids s.
Proof.
  intros Hv E. unfold advance in E.
  set (P := λ (t : Session) (_ : list Envelope), bound_fields t = bound_fields s ∧
    (env_message_id env ∈ ss_seen_message_ids t →
     env_message_id env ∈ ss_seen_message_ids s)).
  assert (∀ t l syn, P t l → next_synthetic mode t now = Ok (Some syn) →
    P (commit_synthetic syn t) (l ++ [syn_envelope syn])) as Hstep.
  { intros t l syn [Hb Hin] (_ & Hdue & _)%next_synthetic_ok.
    destruct (commit_synthetic_advanced syn t) as [Hb' _ _ _]. split; [congruence|].
    unfold commit_synthetic.
    destruct (apply_mode_response_fields (syn_response syn)
      (insert_seen (env_message_id (syn_envelope syn)) t)) as (_ & -> & _). simpl.
    intros [Heq%elem_of_singleton|?]%elem_of_union; [|auto].
    exfalso. by eapply (synthetic_reserved s t). }
  by destruct (advance_ind mode now P Hstep _ _ _ _ _ (conj eq_refl (λ x, x)) E)
    as (? & [_ ?] & _).
Qed.

(** C1. A rejected message leaves no trace. When [step] refuses an envelope,
    the envelope's id is not consumed and no participant is credited; and
    unless a synthetic envelope was due anyway, the session is unchanged, or
    its deadline had passed and it is now Expired and nothing else. *)
Theorem step_rejection_atomic mode `{!ModeLaws mode} env now s s' e :
  step mode env now s = (s', Err e) →
  (env_message_id env ∈ ss_seen_message_ids s' →
   env_message_id env ∈ ss_seen_message_ids s) ∧
  ss_participant_message_counts s' = ss_participant_message_counts s ∧
  ss_participant_last_seen s' = ss_participant_last_seen s ∧
  (next_synthetic mode s now = Ok None →
   s' = s ∨
   e = TtlExpired ∧ deadline_passed now s = true ∧
   s' = set_suspended_at_ms None (set_state Expired s)).
Proof.
  intros [[-> _]|[(-> & Hd & ->)|[Hadm [r Hadv]]]]%step_rejected; [by auto|by split_and!; auto|].
  pose proof (advance_advanced _ _ _ _ _ Hadv) as [_ Hc Hl _].
  split_and!; [|done|done|].
  - unfold admit_envelope in Hadm. res_inv. by eapply advance_keeps_id.
  - intros Hn. rewrite (advance_none _ _ _ Hn) in Hadv. simplify_eq. auto.
Qed.

(** C2. Accepted messages are idempotent. Accepting an envelope consumes its
    id, so submitting the same envelope again, at any later time and in
    whatever state the session is in by then, is answered [Duplicate] and
    changes nothing. *)
Theorem step_idempotent mode env now s s' st syn :
  step mode env now s = (s', Ok (StepAccepted st syn)) →
  env_message_id env ∉ ss_seen_message_ids s ∧
  ∀ s2 now2, ss_seen_message_ids s' ⊆ ss_seen_message_ids s2 →
    step mode env now2 s2 = (s2, Ok StepDuplicate).
Proof.
  intros (Hpre & _ & s1 & response & _ & _ & -> & _)%step_accepted.
  apply check_preconditions_proceed in Hpre as (Hshape & Hnew & _).
  split; [done|]. intros s2 now2 Hsub. unfold step, st_bind, st_read, check_preconditions.
  rewrite Hshape. simpl. rewrite bool_decide_eq_true_2; [done|]. apply Hsub.
  unfold commit. match goal with |- context [apply_mode_response ?r ?t] =>
    destruct (apply_mode_response_fields r t) as (_ & -> & _) end. simpl. set_solver.
Qed.

(** C3. What a message must satisfy to be accepted. The session was Open and
    its deadline had not passed, the envelope was addressed to it and new, its
    sender was authorized and it passed the client boundary; everything due by
    then entered history first, in the session the message was evaluated
    against nothing more was due, and the mode accepted it there at the
    acceptance clock. *)
Theorem step_accept_gate mode env now s s' st syn :
  step mode env now s = (s', Ok (StepAccepted st syn)) →
  ss_state s = Open ∧ now ≤ ss_ttl_expiry s ∧
  env_mode env = ss_mode s ∧ env_session_id env = ss_session_id s ∧
  env_message_id env ∉ ss_seen_message_ids s ∧
  authorize_sender mode s env = Ok () ∧ validate_client_envelope mode s env = Ok () ∧
  ∃ s1 response, advance mode now s = (s1, Ok syn) ∧
    next_synthetic mode s1 now = Ok None ∧ (length syn ≤ MAX_SYNTHETIC_PER_STEP)%nat ∧
    on_message_at mode s1 env (MkMessageContext now) = Ok response ∧
    s' = commit env response now s1.
Proof.
  intros (Hpre & Hadm & s1 & response & Hadv & Hdis & -> & _)%step_accepted.
  apply check_preconditions_proceed in Hpre as (_ & Hnew & Hm & Hsid & Hd & Hopen).
  unfold deadline_passed in Hd. rewrite Hopen in Hd. bool_simp.
  unfold admit_envelope in Hadm. apply bind_ok in Hadm as ([] & Hauth & Hval).
  split_and!; try done. exists s1, response. split; [done|]. split_and!; try done.
  - destruct (advance_ind mode now (λ _ _, True) ltac:(done) _ _ _ _ _ I Hadv)
      as (? & _ & Hn). by apply (Hn syn).
  - assert (∀ room l t t' out, advance_loop room mode now l t = (t', Ok out) →
      (length out ≤ length l + room)%nat) as Hlen.
    { induction room as [|room IH]; intros l t t' out E; simpl in E;
        destruct (next_synthetic mode t now) as [[]|]; simplify_eq; try lia.
      apply IH in E. rewrite length_app in E. simpl in E. lia. }
    apply (Hlen _ [] _ _ _ Hadv).
Qed.

(** ** What an accepted SessionStart binds *)
Section start_theorems.
Context `{Uuids} `{Message SessionStartPayload}.

Lemma validate_session_start_ok env now opts v :
  validate_session_start env now opts = Ok v →
  check_envelope_shape env = Ok () ∧ env_message_type env = "SessionStart" ∧
  env_payload env ≠ [] ∧ decode (env_payload env) = Some (vs_payload v) ∧
  (default (requires_strict_session_start (env_mode env)) (so_strict opts) = true →
   validate_canonical_session_start_payload_for_mode (env_mode env) (vs_payload v) = Ok ()) ∧
  extract_ttl_ms (vs_payload v) = Ok (vs_ttl_ms v) ∧
  vs_ttl_ms v = sp_ttl_ms (vs_payload v) ∧ 1 ≤ vs_ttl_ms v ≤ MAX_TTL_MS ∧
  (∀ cap, so_max_ttl_ms opts = Some cap → vs_ttl_ms v ≤ cap) ∧
  vs_ttl_expiry v = saturating_add (ttl_base env now) (vs_ttl_ms v) ∧
  vs_accepted_at_ms v = now ∧ 0 < vs_max_suspend_ms v.
Proof.
  unfold validate_session_start, parse_session_start_payload. intros E.
  apply bind_ok in E as ([] & Hshape & E).
  destruct (_ || _) eqn:Ety in E; [done|]. bool_simp.
  apply bind_ok in E as (? & _ & E). apply bind_ok in E as (payload & Hp & E).
  apply bind_ok in E as ([] & Hstrict & E). apply bind_ok in E as (? & _ & E).
  assert (default (requires_strict_session_start (env_mode env)) (so_strict opts) = true →
    validate_canonical_session_start_payload_for_mode (env_mode env) payload = Ok ()) as Hs
    by (intros Hs; by rewrite Hs in Hstrict). clear Hstrict.
  apply bind_ok in E as (ttl & Httl & E).
  assert (∀ cap, so_max_ttl_ms opts = Some cap → ttl ≤ cap) as Hcap.
  { intros cap Hc. rewrite Hc in E. destruct (ttl >? cap) eqn:Ht; [done|]. lia. }
  match type of E with (if ?b then _ else _) = _ =>
    set (over := b) in E; clearbody over; destruct over; [done|] end.
  injection E as <-. simpl.
  destruct (is_empty (env_payload env)) eqn:Hne in Hp; [done|]. bool_simp.
  apply ok_or_ok in Hp. pose proof Httl as Httl'. unfold extract_ttl_ms in Httl'. res_inv.
  bool_simp. unfold resolve_max_suspend_ms, MAX_SUSPEND_MS.
  split_and!; try done; try lia;
    repeat case_match; bool_simp; lia.
Qed.

Lemma accept_ok v env mode policy s :
  accept v env mode policy = Ok s →
  ∃ pv response, bind_policy_version policy (sp_policy_version (vs_payload v)) = Ok pv ∧
    (∀ p, policy = Some p → policy_mode p = "*" ∨ policy_mode p = env_mode env) ∧
    on_session_start mode (start_session v env policy pv) env = Ok response ∧
    validate_client_envelope mode (start_session v env policy pv) env = Ok () ∧
    s = apply_mode_response response
          (insert_seen (env_message_id env) (start_session v env policy pv)).
Proof.
  unfold accept. intros E. apply bind_ok in E as (pv & Hpv & E).
  assert (∀ p, policy = Some p → policy_mode p = "*" ∨ policy_mode p = env_mode env) as Hm.
  { intros p ->. destruct (_ && _) eqn:Hm in E; [done|].
    apply andb_false_iff in Hm as [Hm|Hm]; bool_simp; auto. }
  match type of E with (if ?b then _ else _) = _ =>
    set (other := b) in E; clearbody other; destruct other; [done|] end.
  apply bind_ok in E as (response & Hr & E). apply bind_ok in E as ([] & Hv & E).
  injection E as <-. exists pv, response. by split_and!.
Qed.

Lemma accept_wf mode `{!ModeLaws mode} env now policy opts s :
  accept_session_start env now mode policy opts = Ok s →
  session_wf s ∧ ss_state s = Open.
Proof.
  unfold accept_session_start. intros E. apply bind_ok in E as (v & Hv & E).
  apply validate_session_start_ok in Hv as (_ & _ & _ & _ & _ & _ & _ & _ & _ & _ & _ & Hmax).
  apply accept_ok in E as (pv & response & _ & _ & Hr & _ & ->). apply start_response in Hr.
  assert (∀ st, session_wf (set_mode_state st (insert_seen (env_message_id env)
    (start_session v env policy pv)))) as Hwf.
  { intros st. constructor; simpl; try done; [by split; [intros []|]..|].
    intros _. unfold effective_max_suspend_ms. simpl. destruct (_ >? 0); [lia|done]. }
  destruct response; try done; split; try done; apply Hwf.
Qed.

(** C4. What an accepted SessionStart guarantees. The new session is
    well-formed, Open, never suspended, and holds the dedup slot of its start;
    it runs at the current semantics revision; its TTL is between 1 ms and
    24 h (and within the deployment's cap), counted from the envelope's own
    timestamp when it has one; and it is bound to a policy coherently: the
    bound version names the bound definition, which is for this mode or for
    all, and without a definition there is no version. *)
Theorem accept_start_contract mode `{!ModeLaws mode} env now policy opts s :
  accept_session_start env now mode policy opts = Ok s →
  session_wf s ∧ ss_state s = Open ∧ ss_suspension_intervals s = [] ∧
  ss_accumulated_suspended_ms s = 0 ∧
  ss_seen_message_ids s = {[env_message_id env]} ∧
  ss_semantics_rev s = CURRENT_SEMANTICS_REV ∧
  (ss_mode s, ss_session_id s, ss_initiator_sender s)
    = (env_mode env, env_session_id env, env_sender env) ∧
  1 ≤ ss_ttl_ms s ≤ MAX_TTL_MS ∧
  (∀ cap, so_max_ttl_ms opts = Some cap → ss_ttl_ms s ≤ cap) ∧
  ss_ttl_expiry s = saturating_add (ttl_base env now) (ss_ttl_ms s) ∧
  ss_policy_definition s = policy ∧
  match policy with
  | Some p => ss_policy_version s = policy_id p ∧
              (policy_mode p = "*" ∨ policy_mode p = env_mode env)
  | None => ss_policy_version s = ""
  end.
Proof.
  intros E. pose proof (accept_wf _ _ _ _ _ _ E) as [Hwf Hopen].
  unfold accept_session_start in E. apply bind_ok in E as (v & Hv & E).
  apply validate_session_start_ok in Hv
    as (_ & _ & _ & _ & _ & _ & _ & Httl & Hcap & Hexp & Hat & Hmax).
  apply accept_ok in E as (pv & response & Hpv & Hpm & Hr & _ & ->).
  apply start_response in Hr.
  assert (match policy with
    | Some p => pv = policy_id p ∧ (policy_mode p = "*" ∨ policy_mode p = env_mode env)
    | None => pv = ""
    end) as Hpol.
  { unfold bind_policy_version in Hpv. destruct policy as [p|].
    - split; [res_inv; by bool_simp|by apply Hpm].
    - res_inv. by bool_simp. }
  destruct response; try done; simpl; split_and!; try done; set_solver.
Qed.
End start_theorems.

From S2P Require Import MultiRound Laws Concrete.

Module Demo.
#[local] Existing Instance demo_uuids.
#[local] Instance m_start : Message SessionStartPayload := const_message (Some demo_start).
#[local] Instance m_commitment : Message CommitmentPayload := const_message None.
#[local] Instance to_json_resolution : ToJson PassthroughResolution := λ _, [Byte.x01].
Definition mode : Mode := PassthroughMode ["Note"].

Definition id := "0190a5e0-0000-7000-8000-00000000000a".
Definition env (message_type message_id sender : string) : Envelope :=
  MkEnvelope "1.0" "ext.notes.v1" message_type message_id id sender 1000 [Byte.x02].
Definition start : Envelope := env "SessionStart" "m0" "alice".
Definition started : Session :=
  unwrap_or (session_builder "" "" "") (accept_session_start start 2000 mode None
    default_start_options).
Definition session : Session :=
  set_seen_message_ids {["m0"]} (set_participants ["alice"; "bob"]
    (set_ttl_expiry 61000 (session_builder id "ext.notes.v1" "alice"))).
Definition note : Envelope := env "Note" "m1" "bob".

Lemma accept_start_contract_witness :
  session_wf started ∧ ss_seen_message_ids started = {["m0"]}.
Proof.
  destruct (accept_start_contract mode start 2000 None default_start_options started)
    as (Hwf & _ & _ & _ & Hseen & _); [by vm_compute|].
  split; [exact Hwf|exact Hseen].
Defined.

Lemma step_rejection_atomic_witness :
  step mode (env "Note" "m1" "mallory") 3000 session = (session, Err Forbidden) ∧
  "m1" ∉ ss_seen_message_ids session.
Proof.
  assert (step mode (env "Note" "m1" "mallory") 3000 session = (session, Err Forbidden))
    as Hstep by by vm_compute.
  split; [exact Hstep|]. intros Hin.
  destruct (step_rejection_atomic mode _ _ _ _ _ Hstep) as (Hid & _).
  assert ("m1" ∈@{gset string} {["m0"]}) as Hs by exact (Hid Hin).
  apply elem_of_singleton in Hs. discriminate Hs.
Defined.

Lemma step_idempotent_witness :
  let s' := commit note (PersistState [Byte.x02]) 3000 session in
  step mode note 99999999 s' = (s', Ok StepDuplicate).
Proof.
  apply (step_idempotent mode note 3000 session
    (commit note (PersistState [Byte.x02]) 3000 session) Open [] ltac:(by vm_compute)).
  intros x Hx. exact Hx.
Defined.

Lemma step_accept_gate_witness :
  ss_state session = Open ∧ 3000 ≤ ss_ttl_expiry session ∧
  authorize_sender mode session note = Ok ().
Proof.
  destruct (step_accept_gate mode note 3000 session
    (commit note (PersistState [Byte.x02]) 3000 session) Open [] ltac:(by vm_compute))
    as (Hopen & Httl & _ & _ & _ & Hauth & _).
  split; [exact Hopen|]. split; [exact Httl|exact Hauth].
Defined.
End Demo.
