(* ===== verification/Replay.v ===== *)
(** * Replay of recorded history (crates/macp-modes/src/replay.rs)

    [RecordedStart], [ReplayEvent] and the functions that rebuild a session
    from them, with the replay/snapshot divergence check of src/replay.rs. A
    recorded start rebuilds the session it began. *)

From stdpp Require Import prelude gmap strings.
From S2P Require Import Prelude RustStr Floats Extern Error Policy Wire SessionData.
From S2P Require Import Session SessionStart CommitmentHash ModeApi Step.
Open Scope Z_scope.

Definition LEGACY_EXTENSION_TTL_MS : Z := 60000.

Record RecordedStart := MkRecordedStart {
  rs_envelope : Envelope;
  rs_accepted_at_ms : Z;
  rs_semantics_rev : Z;
  rs_max_suspend_ms : Z;
  rs_bound_mode_version : option string;
  rs_policy : option PolicyDefinition;
  rs_strict : option bool;
}.

Definition recorded_start_new (envelope : Envelope) (accepted_at_ms : Z) : RecordedStart :=
  {| rs_envelope := envelope;
     rs_accepted_at_ms := accepted_at_ms;
     rs_semantics_rev := 0;
     rs_max_suspend_ms := 0;
     rs_bound_mode_version := None;
     rs_policy := None;
     rs_strict := None |}.

Definition from_session (envelope : Envelope) (session : Session)
    (bound_mode_version : option string) : RecordedStart :=
  {| rs_envelope := envelope;
     rs_accepted_at_ms := ss_started_at_unix_ms session;
     rs_semantics_rev := ss_semantics_rev session;
     rs_max_suspend_ms := ss_max_suspend_ms session;
     rs_bound_mode_version := bound_mode_version;
     rs_policy := ss_policy_definition session;
     rs_strict := None |}.

Definition with_semantics_rev (rev : Z) (r : RecordedStart) : RecordedStart :=
  MkRecordedStart (rs_envelope r) (rs_accepted_at_ms r) rev
    (rs_max_suspend_ms r) (rs_bound_mode_version r) (rs_policy r) (rs_strict r).
Definition with_max_suspend_ms (ms : Z) (r : RecordedStart) : RecordedStart :=
  MkRecordedStart (rs_envelope r) (rs_accepted_at_ms r) (rs_semantics_rev r)
    ms (rs_bound_mode_version r) (rs_policy r) (rs_strict r).
Definition with_bound_mode_version (version : option string) (r : RecordedStart)
    : RecordedStart :=
  MkRecordedStart (rs_envelope r) (rs_accepted_at_ms r) (rs_semantics_rev r)
    (rs_max_suspend_ms r) version (rs_policy r) (rs_strict r).
Definition with_policy (policy : option PolicyDefinition) (r : RecordedStart)
    : RecordedStart :=
  MkRecordedStart (rs_envelope r) (rs_accepted_at_ms r) (rs_semantics_rev r)
    (rs_max_suspend_ms r) (rs_bound_mode_version r) policy (rs_strict r).
Definition recorded_with_strict (strict : bool) (r : RecordedStart) : RecordedStart :=
  MkRecordedStart (rs_envelope r) (rs_accepted_at_ms r) (rs_semantics_rev r)
    (rs_max_suspend_ms r) (rs_bound_mode_version r) (rs_policy r) (Some strict).

Inductive ReplayEvent :=
| REMessage (envelope : Envelope) (accepted_at_ms : Z)
| RESynthetic (envelope : Envelope)
| RESuspended (at_ms : Z)
| REResumed (at_ms : Z)
| RECancelled
| REExpired.

Record ReplayOptions := MkReplayOptions { credit_participant_activity : bool }.
Definition default_replay_options : ReplayOptions :=
  {| credit_participant_activity := true |}.
Definition with_credit_participant_activity (credit : bool) (_ : ReplayOptions)
    : ReplayOptions := {| credit_participant_activity := credit |}.

Section replay.
Context `{Message SessionStartPayload}.

Definition replay_payload (env : Envelope) (strict : bool)
    : result MacpError SessionStartPayload :=
  if is_empty (env_payload env) && negb strict then Ok default_start_payload
  else parse_session_start_payload (env_payload env).

(** The builder call of [replay_start]. *)
Definition replay_session (start : RecordedStart) (payload : SessionStartPayload) (ttl_ms : Z)
    : Session :=
  let env := rs_envelope start in
  let policy_version :=
    match rs_policy start with
    | Some p => if str_is_empty (sp_policy_version payload) then policy_id p
                else sp_policy_version payload
    | None => sp_policy_version payload
    end in
  set_policy_definition (rs_policy start)
  (set_roots (sp_roots payload)
  (set_extensions (sp_extensions payload)
  (set_context_id (sp_context_id payload)
  (set_policy_version policy_version
  (set_configuration_version (sp_configuration_version payload)
  (set_mode_version (default (sp_mode_version payload) (rs_bound_mode_version start))
  (set_intent (sp_intent payload)
  (set_participants (sp_participants payload)
  (set_started_at_unix_ms (rs_accepted_at_ms start)
  (set_ttl_ms ttl_ms
  (set_ttl_expiry (saturating_add (ttl_base env (rs_accepted_at_ms start)) ttl_ms)
  (set_max_suspend_ms (rs_max_suspend_ms start)
  (set_semantics_rev (rs_semantics_rev start)
  (session_builder (env_session_id env) (env_mode env) (env_sender env))))))))))))))).

Definition replay_start (start : RecordedStart) (mode : Mode) : result MacpError Session :=
  let env := rs_envelope start in
  let strict := default (requires_strict_session_start (env_mode env)) (rs_strict start) in
  payload ← replay_payload env strict;
  _ ← (if strict then validate_canonical_session_start_payload_for_mode (env_mode env) payload
       else Ok ());
  ttl_ms ← (if negb strict && (sp_ttl_ms payload =? 0) then Ok LEGACY_EXTENSION_TTL_MS
            else extract_ttl_ms payload);
  let session := replay_session start payload ttl_ms in
  response ← on_session_start mode session env;
  Ok (apply_mode_response response (insert_seen (env_message_id env) session)).
End replay.

(** [seen_message_ids.insert] behind the non-empty check. *)
Definition insert_seen_nonempty (message_id : string) (s : Session) : Session :=
  if str_is_empty message_id then s else insert_seen message_id s.

(** The part of [apply_event] an accepted envelope takes. *)
Definition apply_envelope (envelope : Envelope) (accepted_at : Z) (credit : bool) (mode : Mode)
    : stm Session MacpError unit := λ session,
  if ss_state session != Open then
    (insert_seen_nonempty (env_message_id envelope) session, Ok ())
  else
    match
      _ ← authorize_sender mode session envelope;
      on_message_at mode session envelope {| accepted_at_ms := accepted_at |}
    with
    | Err e => (session, Err e)
    | Ok response =>
        let session := apply_mode_response response session in
        let session :=
          if credit then record_participant_activity (env_sender envelope) accepted_at session
          else session in
        (insert_seen_nonempty (env_message_id envelope) session, Ok ())
    end.

Definition apply_event (event : ReplayEvent) (mode : Mode) (opts : ReplayOptions)
    : stm Session MacpError unit := λ session,
  match event with
  | REMessage envelope accepted_at =>
      apply_envelope envelope accepted_at (credit_participant_activity opts) mode session
  | RESynthetic envelope =>
      apply_envelope envelope (env_timestamp_unix_ms envelope) false mode session
  | RESuspended at_ms => ((suspend at_ms session).1, Ok ())
  | REResumed at_ms => ((resume at_ms session).1, Ok ())
  | RECancelled => ((cancel session).1, Ok ())
  | REExpired => (set_state Expired session, Ok ())
  end.

(** The [for] loop of [replay]. *)
Fixpoint apply_events (events : list ReplayEvent) (mode : Mode) (opts : ReplayOptions)
    (session : Session) : result MacpError Session :=
  match events with
  | [] => Ok session
  | event :: events =>
      match apply_event event mode opts session with
      | (session, Ok ()) => apply_events events mode opts session
      | (_, Err e) => Err e
      end
  end.

Definition replay `{Message SessionStartPayload} (start : RecordedStart)
    (events : list ReplayEvent) (mode : Mode) (opts : ReplayOptions)
    : result MacpError Session :=
  session ← replay_start start mode;
  apply_events events mode opts session.

(** The number of fields of a rebuilt session that differ from a snapshot. *)
Definition validate_replay_consistency (replayed snapshot : Session) : Z :=
  let mismatch (b : bool) : Z := if b then 1 else 0 in
  mismatch (ss_state replayed != ss_state snapshot)
  + mismatch (size (ss_seen_message_ids replayed) != size (ss_seen_message_ids snapshot))
  + mismatch (ss_participants replayed != ss_participants snapshot)
  + mismatch ((ss_mode_version replayed != ss_mode_version snapshot)
       || (ss_configuration_version replayed != ss_configuration_version snapshot)
       || (ss_policy_version replayed != ss_policy_version snapshot))
  + mismatch (ss_mode_state replayed != ss_mode_state snapshot)
  + mismatch (ss_accumulated_suspended_ms replayed != ss_accumulated_suspended_ms snapshot)
  + mismatch (ss_suspended_at_ms replayed != ss_suspended_at_ms snapshot)
  + mismatch (ss_ttl_expiry replayed != ss_ttl_expiry snapshot)
  + mismatch (ss_suspension_intervals replayed != ss_suspension_intervals snapshot).

(** The record of a started session, with the start options' strictness. *)
Definition record_of (env : Envelope) (opts : StartOptions) (v : ValidatedStart) (s : Session)
    : RecordedStart :=
  let r := from_session env s (vs_bound_mode_version v) in
  match so_strict opts with Some strict => recorded_with_strict strict r | None => r end.

Section start.
Context `{Uuids} `{Message SessionStartPayload}.

Lemma apply_response_bound r id t :
  bound_fields (apply_mode_response r (insert_seen id t)) = bound_fields t.
Proof. by destruct r. Qed.

(** The sessions the two builder calls make are the same. *)
Lemma replay_session_eq env now policy opts v pv s :
  validate_session_start env now opts = Ok v →
  bind_policy_version policy (sp_policy_version (vs_payload v)) = Ok pv →
  bound_fields s = bound_fields (start_session v env policy pv) →
  replay_session (record_of env opts v s) (vs_payload v) (vs_ttl_ms v)
    = start_session v env policy pv.
Proof.
  intros Hv Hpv Hb.
  apply validate_session_start_ok in Hv
    as (_ & _ & _ & _ & _ & _ & _ & _ & _ & Hexp & Hat & _).
  assert (match policy with
    | Some p => if str_is_empty (sp_policy_version (vs_payload v)) then policy_id p
                else sp_policy_version (vs_payload v)
    | None => sp_policy_version (vs_payload v)
    end = pv) as Hpv'.
  { unfold bind_policy_version in Hpv. by repeat case_match; simplify_eq. }
  unfold bound_fields in Hb. injection Hb as ? ? ? ? ? Hat' Hms Hrev ? ? ? ? ? ? ? Hpol.
  simpl in Hat', Hms, Hrev, Hpol.
  assert (record_of env opts v s = MkRecordedStart env (vs_accepted_at_ms v)
    CURRENT_SEMANTICS_REV (vs_max_suspend_ms v) (vs_bound_mode_version v) policy
    (so_strict opts)) as ->.
  { unfold record_of, from_session, recorded_with_strict.
    rewrite Hat', Hms, Hrev, Hpol. by destruct (so_strict opts). }
  unfold replay_session, start_session. cbn [rs_envelope rs_accepted_at_ms rs_semantics_rev
    rs_max_suspend_ms rs_bound_mode_version rs_policy].
  rewrite Hpv', Hexp, Hat. reflexivity.
Qed.

Lemma replay_start_run start mode payload ttl_ms response :
  let env := rs_envelope start in
  let strict := default (requires_strict_session_start (env_mode env)) (rs_strict start) in
  replay_payload env strict = Ok payload →
  (if strict then validate_canonical_session_start_payload_for_mode (env_mode env) payload
   else Ok ()) = Ok () →
  (if negb strict && (sp_ttl_ms payload =? 0) then Ok LEGACY_EXTENSION_TTL_MS
   else extract_ttl_ms payload) = Ok ttl_ms →
  on_session_start mode (replay_session start payload ttl_ms) env = Ok response →
  replay_start start mode = Ok (apply_mode_response response
    (insert_seen (env_message_id env) (replay_session start payload ttl_ms))).
Proof.
  intros env strict Hp Hs Ht Hr. unfold replay_start. fold env. fold strict.
  apply bind_ok. exists payload. split; [exact Hp|].
  apply bind_ok. exists (). split; [exact Hs|].
  apply bind_ok. exists ttl_ms. split; [exact Ht|].
  apply bind_ok. exists response. split; [exact Hr|reflexivity].
Qed.

Lemma replay_start_eq mode `{!ModeLaws mode} env now policy opts v s :
  validate_session_start env now opts = Ok v → accept v env mode policy = Ok s →
  replay_start (record_of env opts v s) mode = Ok s.
Proof.
  intros Hv Ha. pose proof (accept_ok _ _ _ _ _ Ha) as (pv & response & Hpv & _ & Hr & _ & Hs).
  assert (bound_fields s = bound_fields (start_session v env policy pv)) as Hb.
  { rewrite Hs. exact (apply_response_bound _ _ _). }
  pose proof (replay_session_eq _ _ _ _ _ _ _ Hv Hpv Hb) as Hsess.
  apply validate_session_start_ok in Hv
    as (_ & _ & Hne & Hdec & Hstrict & Hext & Httl & Hrange & _).
  assert (rs_envelope (record_of env opts v s) = env ∧
    rs_strict (record_of env opts v s) = so_strict opts) as [He Hst].
  { unfold record_of. by destruct (so_strict opts). }
  rewrite (replay_start_run _ mode (vs_payload v) (vs_ttl_ms v) response);
    rewrite ?Hsess, He, ?Hst; [exact (f_equal Ok (eq_sym Hs))| | | |exact Hr].
  - unfold replay_payload, parse_session_start_payload. rewrite Hdec.
    by destruct (env_payload env).
  - destruct (default _ _); auto.
  - rewrite (proj2 (Z.eqb_neq (sp_ttl_ms (vs_payload v)) 0)) by (clear -Httl Hrange; lia).
    rewrite andb_false_r. exact Hext.
Qed.
End start.
