(* ===== verification/Live.v ===== *)
(** * Live sessions (crates/macp-modes/src/step.rs and replay.rs together)

    The durable consumer the step module documents: its phases, recording
    each accepted envelope before it is committed, and the lifecycle calls.
    It is [step] plus a log; whatever sequence of operations it runs keeps
    the session well-formed and on the lifecycle; and replaying the log
    rebuilds the session. *)

From stdpp Require Import prelude gmap strings.
From S2P Require Import Prelude RustStr Floats Extern Error Policy Wire SessionData.
From S2P Require Import Session SessionStart CommitmentHash ModeApi Step Replay.
Open Scope Z_scope.

#[local] Opaque MAX_SYNTHETIC_PER_STEP.

(** loop [next_synthetic] - append - [commit_synthetic], under the bound of
    [advance]. *)
Fixpoint durable_advance (room : nat) (mode : Mode) (now_ms : Z) (s : Session)
    : Session * list ReplayEvent * result MacpError unit :=
  match next_synthetic mode s now_ms with
  | Err e => (s, [], Err e)
  | Ok None => (s, [], Ok ())
  | Ok (Some syn) =>
      match room with
      | O => (s, [], Err InvalidModeState)
      | S room' =>
          let '(s', log, r) := durable_advance room' mode now_ms (commit_synthetic syn s) in
          (s', RESynthetic (syn_envelope syn) :: log, r)
      end
  end.

(** [check_preconditions] - [admit] - synthesis - [dispatch] - append - [commit]. *)
Definition durable_step (mode : Mode) (env : Envelope) (now_ms : Z) (s : Session)
    : Session * list ReplayEvent * result MacpError unit :=
  match check_preconditions s env now_ms with
  | Err e => (s, [], Err e)
  | Ok Duplicate => (s, [], Ok ())
  | Ok PrecheckExpired => ((expire s).1, [REExpired], Err TtlExpired)
  | Ok Proceed =>
      match admit_envelope mode s env with
      | Err e => (s, [], Err e)
      | Ok () =>
          match durable_advance MAX_SYNTHETIC_PER_STEP mode now_ms s with
          | (s1, log, Err e) => (s1, log, Err e)
          | (s1, log, Ok ()) =>
              match dispatch mode s1 env now_ms with
              | Err e => (s1, log, Err e)
              | Ok response =>
                  (commit env response now_ms s1, log ++ [REMessage env now_ms], Ok ())
              end
          end
      end
  end.

(** What happens to a live session: a message arrives, a timer ticks, or a
    lifecycle call is made. A call is recorded when it takes effect, which for
    a resume includes force-expiring the session. *)
Inductive LiveOp :=
| OpMessage (env : Envelope) (now_ms : Z)
| OpTick (now_ms : Z)
| OpCall (c : SessionCall).

Definition call_event (c : SessionCall) : ReplayEvent :=
  match c with
  | CallSuspend now => RESuspended now
  | CallResume now => REResumed now
  | CallCancel => RECancelled
  | CallExpire => REExpired
  end.

Definition live_op (mode : Mode) (op : LiveOp) (s : Session) : Session * list ReplayEvent :=
  match op with
  | OpMessage env now => (durable_step mode env now s).1
  | OpTick now => (durable_advance MAX_SYNTHETIC_PER_STEP mode now s).1
  | OpCall c =>
      match run_call c s with
      | (s', Ok ()) => (s', [call_event c])
      | (s', Err TtlExpired) => (s', [call_event c])
      | (s', Err _) => (s', [])
      end
  end.

Fixpoint live_run (mode : Mode) (ops : list LiveOp) (s : Session)
    : Session * list ReplayEvent :=
  match ops with
  | [] => (s, [])
  | op :: ops =>
      let '(s1, log1) := live_op mode op s in
      let '(s2, log2) := live_run mode ops s1 in
      (s2, log1 ++ log2)
  end.

(** ** The durable consumer is [step] with a log *)
Lemma durable_advance_loop mode now room s s' log r l :
  durable_advance room mode now s = (s', log, r) →
  (advance_loop room mode now l s).1 = s' ∧
  match r with
  | Ok () => ∃ out, (advance_loop room mode now l s).2 = Ok (l ++ out) ∧ log = RESynthetic <$> out
  | Err e => (advance_loop room mode now l s).2 = Err e
  end.
Proof.
  revert s s' log r l. induction room as [|room IH]; intros s s' log r l E; simpl in *;
    destruct (next_synthetic mode s now) as [[syn|]|e]; simplify_eq; simpl; try done.
  - split; [done|]. exists []. by rewrite app_nil_r.
  - destruct (durable_advance room mode now (commit_synthetic syn s)) as [[s1 log1] r1] eqn:E1.
    simplify_eq. destruct (IH _ _ _ _ (l ++ [syn_envelope syn]) E1) as [H1 H2].
    split; [done|]. destruct r as [[]|e]; [|done]. destruct H2 as (out & -> & ->).
    exists (syn_envelope syn :: out). by rewrite <- app_assoc.
  - split; [done|]. exists []. by rewrite app_nil_r.
Qed.

(** The documented durable consumer is [step] with a log. Driving the
    phases one by one, each accepted envelope recorded before it is committed,
    leaves exactly the session that [step] leaves and succeeds exactly when it
    does; and when [step] accepts, the log is what it reports: the synthesized
    envelopes in order, then the message. *)
Theorem durable_step_refines mode env now s :
  let '(s', log, r) := durable_step mode env now s in
  (step mode env now s).1 = s' ∧
  match (step mode env now s).2 with
  | Ok StepDuplicate => r = Ok () ∧ log = []
  | Ok (StepAccepted st synthesized) =>
      r = Ok () ∧ log = (RESynthetic <$> synthesized) ++ [REMessage env now]
  | Err e => r = Err e
  end.
Proof.
  unfold durable_step, step, st_bind, st_read.
  destruct (check_preconditions s env now) as [[| |]|e] eqn:Hpre; simpl; try done.
  - apply check_preconditions_expired in Hpre as [_ Ht].
    unfold expire, st_fail. by rewrite Ht.
  - destruct (admit_envelope mode s env) as [[]|e]; simpl; [|done].
    destruct (durable_advance MAX_SYNTHETIC_PER_STEP mode now s) as [[s1 log] r] eqn:E.
    apply (durable_advance_loop _ _ _ _ _ _ _ []) in E as [E1 E2]. unfold advance.
    destruct (advance_loop MAX_SYNTHETIC_PER_STEP mode now [] s) as [s1' r']. simpl in *. subst s1'.
    destruct r as [[]|e]; [|by subst r'].
    destruct E2 as (out & -> & ->). simpl.
    by destruct (dispatch mode s1 env now).
Qed.

(** ** Safety of live runs *)
Record safe (s s' : Session) : Prop := {
  safe_bound : bound_fields s' = bound_fields s;
  safe_seen : ss_seen_message_ids s ⊆ ss_seen_message_ids s';
  safe_lifecycle : rtc lifecycle (ss_state s) (ss_state s');
  safe_wf : session_wf s → session_wf s';
  safe_final : is_terminal (ss_state s) = true → s' = s;
}.

#[export] Instance safe_preorder : PreOrder safe.
Proof.
  split; [by intros s; constructor|]. intros s1 s2 s3 [B1 S1 L1 W1 F1] [B2 S2 L2 W2 F2].
  constructor; [congruence|set_solver|by etrans|auto|].
  intros Ht. pose proof (F1 Ht) as ->. auto.
Qed.

(** Bookkeeping that [session_wf] does not look at. *)
Lemma bookkeeping_wf ids counts last s :
  session_wf s → session_wf (set_seen_message_ids ids
    (set_participant_message_counts counts (set_participant_last_seen last s))).
Proof. intros []. by constructor. Qed.

Lemma apply_mode_response_safe r s s' :
  ss_state s = Open → safe s s' → ss_state s' = Open → safe s (apply_mode_response r s').
Proof.
  intros Ho [B S L W _] Ho'.
  destruct (apply_mode_response_fields r s') as (E1 & E2 & _ & _ & _ & E5 & E6 & E7 & E8).
  constructor; [congruence|by rewrite E2| | |by rewrite Ho].
  - destruct E8 as [[-> _]|[-> _]]; [done|].
    rewrite Ho' in L. eapply rtc_r; [done|constructor].
  - intros [Ws Wr Wi Wa Wc]%W. rewrite Ho' in *.
    assert (effective_max_suspend_ms (apply_mode_response r s') = effective_max_suspend_ms s')
      as Em by (by destruct r).
    destruct E8 as [[E8 E9]|[E8 E9]]; constructor; rewrite ?E5, ?E6, ?E7, ?E8, ?E9, ?Em; auto.
    + split; [|done]. by intros Hs%Ws.
    + by split.
Qed.

Lemma commit_safe env r now s : ss_state s = Open → safe s (commit env r now s).
Proof.
  intros Ho. apply apply_mode_response_safe; [done| |done].
  constructor; [done|simpl; set_solver|done| |by rewrite Ho].
  intros Hwf. apply (bookkeeping_wf _ _ _ _ Hwf).
Qed.

Lemma commit_synthetic_safe mode `{!ModeLaws mode} now syn s :
  next_synthetic mode s now = Ok (Some syn) →
  safe s (commit_synthetic syn s) ∧ ss_state (commit_synthetic syn s) = Open.
Proof.
  intros (Ho & Hdue & _ & _ & Hr)%next_synthetic_ok. split.
  - apply apply_mode_response_safe; [done| |done].
    constructor; [done|simpl; set_solver|done| |by rewrite Ho].
    intros [Ws Wr Wi Wa Wc]. by constructor.
  - pose proof (synthetic_persists _ _ _ _ _ Hdue Hr) as Hp. unfold commit_synthetic.
    by destruct (syn_response syn).
Qed.

Lemma durable_advance_safe mode `{!ModeLaws mode} room now s s' log r :
  durable_advance room mode now s = (s', log, r) →
  safe s s' ∧ (ss_state s = Open → ss_state s' = Open).
Proof.
  revert s s' log r. induction room as [|room IH]; intros s s' log r E; simpl in E;
    destruct (next_synthetic mode s now) as [[syn|]|e] eqn:En; simplify_eq; try done.
  destruct (durable_advance room mode now (commit_synthetic syn s)) as [[s1 log1] r1] eqn:E1.
  simplify_eq. apply IH in E1 as [E1 E2].
  apply (commit_synthetic_safe mode) in En as [En Eo]. split; [by etrans|auto].
Qed.

Lemma run_call_safe c s s' r : run_call c s = (s', r) → safe s s'.
Proof.
  intros E. constructor.
  - by apply (run_call_bound c _ _ r).
  - by destruct (run_call_seen c _ _ _ E) as [-> _].
  - by apply (run_call_lifecycle c _ _ r).
  - intros Hwf. apply (run_call_wf c) in Hwf. by rewrite E in Hwf.
  - intros Ht. destruct c; simpl in E; unfold suspend, resume, cancel, expire in E;
      destruct (ss_state s) eqn:Hs; try done; simpl in E; by simplify_eq.
Qed.

Lemma durable_step_safe mode `{!ModeLaws mode} env now s s' log r :
  durable_step mode env now s = (s', log, r) → safe s s'.
Proof.
  unfold durable_step.
  destruct (check_preconditions s env now) as [[| |]|e] eqn:Hpre; try (by intros; simplify_eq).
  - intros. simplify_eq. destruct (expire s) as [s1 r1] eqn:E.
    by apply (run_call_safe CallExpire _ _ r1).
  - apply check_preconditions_proceed in Hpre as (_ & _ & _ & _ & _ & Ho).
    destruct (admit_envelope mode s env) as [[]|e]; [|by intros; simplify_eq].
    destruct (durable_advance MAX_SYNTHETIC_PER_STEP mode now s) as [[s1 log1] r1] eqn:E.
    apply durable_advance_safe in E as [E Eo]; [|done].
    destruct r1 as [[]|e]; [|by intros; simplify_eq].
    destruct (dispatch mode s1 env now) as [resp|e]; [|by intros; simplify_eq].
    intros. simplify_eq. etrans; [done|]. by apply commit_safe, Eo.
Qed.

Lemma live_op_safe mode `{!ModeLaws mode} op s s' log :
  live_op mode op s = (s', log) → safe s s'.
Proof.
  destruct op as [env now|now|c]; simpl; intros E.
  - destruct (durable_step mode env now s) as [[s1 log1] r] eqn:E1.
    injection E as <- <-. by eapply durable_step_safe.
  - destruct (durable_advance MAX_SYNTHETIC_PER_STEP mode now s) as [[s1 log1] r] eqn:E1.
    injection E as <- <-. by eapply durable_advance_safe.
  - destruct (run_call c s) as [s1 r] eqn:E1. apply run_call_safe in E1.
    destruct r as [[]|[]]; by simplify_eq.
Qed.

Lemma live_run_safe mode `{!ModeLaws mode} ops s s' log :
  live_run mode ops s = (s', log) → safe s s'.
Proof.
  revert s s' log. induction ops as [|op ops IH]; intros s s' log E; simpl in E;
    [by simplify_eq|].
  destruct (live_op mode op s) as [s1 log1] eqn:E1.
  destruct (live_run mode ops s1) as [s2 log2] eqn:E2. simplify_eq.
  etrans; [by eapply live_op_safe|by eapply IH].
Qed.

(** ** Replaying the log *)

(** A rebuilt session is the live one, except that a replayed expiry leaves
    the start of a pending suspension in place. *)
Definition rebuilt (live rep : Session) : Prop :=
  rep = live ∨
  ss_state live = Expired ∧ ss_state rep = Expired ∧ live = set_suspended_at_ms None rep.

Lemma apply_events_app l1 l2 mode opts s s1 :
  apply_events l1 mode opts s = Ok s1 →
  apply_events (l1 ++ l2) mode opts s = apply_events l2 mode opts s1.
Proof.
  revert s. induction l1 as [|e l1 IH]; intros s E; simpl in *; [by simplify_eq|].
  destruct (apply_event e mode opts s) as [s2 [[]|e2]]; [by apply IH|done].
Qed.

(** One accepted envelope, applied live and on replay. *)
Lemma apply_message_eq mode env now s r :
  ss_state s = Open → env_message_id env ≠ "" →
  authorize_sender mode s env = Ok () → dispatch mode s env now = Ok r →
  apply_event (REMessage env now) mode default_replay_options s
    = (commit env r now s, Ok ()).
Proof.
  intros Ho Hid Ha Hd. unfold apply_event, apply_envelope.
  rewrite (bool_decide_eq_true_2 _ Ho). cbn [negb]. rewrite Ha. cbn [mbind result_bind].
  unfold dispatch in Hd. rewrite Hd. unfold insert_seen_nonempty, str_is_empty.
  rewrite (bool_decide_eq_false_2 _ Hid). by destruct r.
Qed.

Lemma apply_synthetic_eq mode `{!ModeLaws mode} now s syn opts :
  next_synthetic mode s now = Ok (Some syn) →
  apply_event (RESynthetic (syn_envelope syn)) mode opts s = (commit_synthetic syn s, Ok ()).
Proof.
  intros (Ho & Hdue & _ & Ha & Hr)%next_synthetic_ok. unfold apply_event, apply_envelope.
  rewrite (bool_decide_eq_true_2 _ Ho). cbn [negb]. rewrite Ha. cbn [mbind result_bind].
  rewrite Hr. unfold insert_seen_nonempty, str_is_empty.
  rewrite (bool_decide_eq_false_2 _ (synthetic_id _ _ _ Hdue)).
  unfold commit_synthetic. by destruct (syn_response syn).
Qed.

Lemma durable_advance_replay mode `{!ModeLaws mode} room now s s' log r opts :
  durable_advance room mode now s = (s', log, r) → apply_events log mode opts s = Ok s'.
Proof.
  revert s s' log r. induction room as [|room IH]; intros s s' log r E; simpl in E;
    destruct (next_synthetic mode s now) as [[syn|]|e] eqn:En; simplify_eq; try done.
  destruct (durable_advance room mode now (commit_synthetic syn s)) as [[s1 log1] r1] eqn:E1.
  simplify_eq. cbn [apply_events]. rewrite (apply_synthetic_eq mode now) by done. by eapply IH.
Qed.

Lemma call_replay c s s' r :
  run_call c s = (s', r) → r = Ok () ∨ r = Err TtlExpired →
  ∃ t, (∀ mode opts, apply_event (call_event c) mode opts s = (t, Ok ())) ∧ rebuilt s' t.
Proof.
  intros E Hr. destruct c; simpl in *; try (eexists; split; [done|]; left; by rewrite E).
  exists (set_state Expired s). split; [done|]. right. unfold expire in E.
  destruct (is_terminal (ss_state s)); simplify_eq; [|done]. naive_solver.
Qed.

(** A call that is refused for its state changes nothing. *)
Lemma run_call_err c s s' r :
  run_call c s = (s', r) → (r = Ok () ∨ r = Err TtlExpired) ∨ r = Err SessionNotOpen ∧ s' = s.
Proof.
  intros E. destruct c; simpl in E; unfold suspend, resume, cancel, expire in E; cbv zeta in E;
    repeat case_match; simplify_eq; auto.
Qed.

Lemma durable_step_replay mode `{!ModeLaws mode} env now s s' log r :
  durable_step mode env now s = (s', log, r) →
  ∃ t, apply_events log mode default_replay_options s = Ok t ∧ rebuilt s' t.
Proof.
  assert (∀ u, ∃ t, apply_events [] mode default_replay_options u = Ok t ∧ rebuilt u t) as Hnil
    by (intros u; exists u; split; [done|by left]).
  unfold durable_step.
  destruct (check_preconditions s env now) as [[| |]|e] eqn:Hpre;
    try (intros; simplify_eq; apply Hnil).
  - apply check_preconditions_expired in Hpre as [_ Ht]. intros [= <- <- <-].
    exists (set_state Expired s). split; [done|]. right. unfold expire. by rewrite Ht.
  - apply check_preconditions_proceed in Hpre as (Hshape & _ & _ & _ & _ & Ho).
    destruct (admit_envelope mode s env) as [[]|e] eqn:Hadm; [|intros; simplify_eq; apply Hnil].
    unfold admit_envelope in Hadm. apply bind_ok in Hadm as ([] & Hauth & _).
    destruct (durable_advance MAX_SYNTHETIC_PER_STEP mode now s) as [[s1 log1] r1] eqn:E.
    pose proof (durable_advance_replay _ _ _ _ _ _ _ default_replay_options E) as Hlog.
    apply durable_advance_safe in E as [[Hb _ _ _ _] Eo]; [|done].
    assert (∃ t, apply_events log1 mode default_replay_options s = Ok t ∧ rebuilt s1 t) as Hrej
      by (exists s1; split; [done|by left]).
    destruct r1 as [[]|e]; [|by intros; simplify_eq].
    destruct (dispatch mode s1 env now) as [resp|e] eqn:Hd; [|by intros; simplify_eq].
    intros [= <- <- <-]. exists (commit env resp now s1). split; [|by left].
    rewrite (apply_events_app _ _ _ _ _ _ Hlog). cbn [apply_events].
    rewrite (apply_message_eq _ _ _ _ resp); auto.
    + unfold check_envelope_shape, str_is_empty in Hshape. res_inv. by bool_simp.
    + by rewrite (auth_bound _ _ _ Hb).
Qed.

(** An expired session is left alone and nothing more is recorded. *)
Lemma live_op_expired mode op s : ss_state s = Expired → live_op mode op s = (s, []).
Proof.
  intros Hs. destruct op as [env now|now|c]; simpl.
  - unfold durable_step.
    destruct (check_preconditions s env now) as [[| |]|e] eqn:Hpre; try done.
    + by apply check_preconditions_expired in Hpre as [_ Ht]; rewrite Hs in Ht.
    + apply check_preconditions_proceed in Hpre as (_ & _ & _ & _ & _ & Ho). congruence.
  - assert (next_synthetic mode s now = Ok None) as Hn
      by (unfold next_synthetic; by rewrite Hs).
    destruct MAX_SYNTHETIC_PER_STEP; simpl; by rewrite Hn.
  - destruct c; simpl; unfold suspend, resume, cancel, expire; by rewrite Hs.
Qed.

Lemma live_op_replay mode `{!ModeLaws mode} op s t s' log :
  rebuilt s t → live_op mode op s = (s', log) →
  ∃ t', apply_events log mode default_replay_options t = Ok t' ∧ rebuilt s' t'.
Proof.
  intros [->|(Hs & Ht & Heq)] E.
  - destruct op as [env now|now|c]; simpl in E.
    + destruct (durable_step mode env now s) as [[s1 log1] r] eqn:E1. injection E as <- <-.
      by eapply durable_step_replay.
    + destruct (durable_advance MAX_SYNTHETIC_PER_STEP mode now s) as [[s1 log1] r] eqn:E1.
      injection E as <- <-. exists s1. split; [by eapply durable_advance_replay|by left].
    + destruct (run_call c s) as [s1 r] eqn:E1.
      assert (r = Ok () ∨ r = Err TtlExpired → ∃ t',
        apply_events [call_event c] mode default_replay_options s = Ok t' ∧ rebuilt s1 t') as Hc.
      { intros Hr. destruct (call_replay _ _ _ _ E1 Hr) as (t' & Ht & ?).
        exists t'. split; [|done]. cbn [apply_events]. by rewrite Ht. }
      destruct (run_call_err _ _ _ _ E1) as [Hr|[-> ->]].
      * destruct (Hc Hr) as (t' & ? & ?), Hr as [-> | ->]; injection E as <- <-; eauto.
      * injection E as <- <-. exists s. split; [done|by left].
  - rewrite (live_op_expired _ _ _ Hs) in E. injection E as <- <-.
    exists t. split; [done|]. by right.
Qed.

Lemma live_run_replay mode `{!ModeLaws mode} ops s t s' log :
  rebuilt s t → live_run mode ops s = (s', log) →
  ∃ t', apply_events log mode default_replay_options t = Ok t' ∧ rebuilt s' t'.
Proof.
  revert s t s' log. induction ops as [|op ops IH]; intros s t s' log Hst E; simpl in E.
  { simplify_eq. eauto. }
  destruct (live_op mode op s) as [s1 log1] eqn:E1.
  destruct (live_run mode ops s1) as [s2 log2] eqn:E2. simplify_eq.
  destruct (live_op_replay _ _ _ _ _ _ Hst E1) as (t1 & H1 & Hr1).
  destruct (IH _ _ _ _ Hr1 E2) as (t2 & H2 & Hr2).
  exists t2. split; [|done]. by rewrite (apply_events_app _ _ _ _ _ _ H1).
Qed.

Section theorems.
Context `{Uuids} `{Message SessionStartPayload}.

(** C6. What holds of every live session. Start any session of a lawful mode
    and let anything happen to it (messages of any content at any time, timer
    ticks, lifecycle calls): it stays well-formed (a resolution exists exactly
    when Resolved, a pending suspension exactly when Suspended, the suspension
    budget is respected), follows the lifecycle, and keeps what SessionStart
    bound and every consumed message id; and once it is terminal nothing
    changes it and nothing more is recorded. *)
Theorem live_invariant mode `{!ModeLaws mode} env now policy opts s0 ops s log :
  accept_session_start env now mode policy opts = Ok s0 →
  live_run mode ops s0 = (s, log) →
  session_wf s ∧ rtc lifecycle Open (ss_state s) ∧ bound_fields s = bound_fields s0 ∧
  ss_seen_message_ids s0 ⊆ ss_seen_message_ids s ∧
  (is_terminal (ss_state s) = true → ∀ ops', (live_run mode ops' s).1 = s).
Proof.
  intros Hacc Hrun. destruct (accept_wf _ _ _ _ _ _ Hacc) as [Hwf Hopen].
  destruct (live_run_safe _ _ _ _ _ Hrun) as [Hb Hseen Hlc Hw _]. rewrite Hopen in Hlc.
  split_and!; auto. intros Ht ops'. destruct (live_run mode ops' s) as [s' log'] eqn:E.
  by apply (live_run_safe _ _ _ _ _ E).
Qed.

(** C5. Replay is deterministic reconstruction. For every session of a lawful
    mode and everything that happens to it, replaying the recorded start and
    the recorded events succeeds and rebuilds the live session exactly, dedup
    set, mode state, resolution, deadline, suspension history and participant
    activity included; the one difference there can be is a leftover
    [suspended_at_ms] in a session that was force-expired while suspended. *)
Theorem replay_rebuilds_live mode `{!ModeLaws mode} env now policy opts v s0 ops s log :
  validate_session_start env now opts = Ok v → accept v env mode policy = Ok s0 →
  live_run mode ops s0 = (s, log) →
  ∃ t, replay (record_of env opts v s0) log mode default_replay_options = Ok t ∧
    (t = s ∨ ss_state s = Expired ∧ s = set_suspended_at_ms None t) ∧
    (ss_state s ≠ Expired → t = s).
Proof.
  intros Hv Hacc Hrun.
  destruct (live_run_replay _ _ _ s0 _ _ (or_introl eq_refl) Hrun) as (t & Ht & Hr).
  exists t. split.
  - unfold replay. rewrite (replay_start_eq _ _ _ _ _ _ _ Hv Hacc). exact Ht.
  - destruct Hr as [->|(? & ? & ?)]; auto. by split; [right|].
Qed.
End theorems.

(** The leftover of a replayed expiry. The live kernel clears
    [suspended_at_ms] when it force-expires a suspended session; replaying the
    recorded expiry does not, and the server's replay/snapshot check counts it
    as a divergence. *)
Theorem replay_expiry_leftover mode opts s a :
  ss_state s = Suspended → ss_suspended_at_ms s = Some a →
  let live := (expire s).1 in
  let rep := (apply_event REExpired mode opts s).1 in
  ss_suspended_at_ms live = None ∧ ss_suspended_at_ms rep = Some a ∧
  validate_replay_consistency rep live = 1 ∧ ¬ session_wf rep.
Proof.
  intros Hs Ha live rep. unfold live, rep, expire. rewrite Hs. cbn [is_terminal fst apply_event].
  split_and!; [done|done| |].
  - unfold validate_replay_consistency. simpl. rewrite Ha.
    repeat case_bool_decide; done.
  - intros [Hw _ _ _ _]. simpl in Hw. rewrite Ha in Hw. destruct Hw as [Hw _].
    pose proof (Hw (ex_intro _ _ eq_refl)) as Hx. discriminate Hx.
Qed.

From S2P Require Import MultiRound Laws Concrete.

Module Demo.
#[local] Existing Instance demo_uuids.
#[local] Existing Instance Step.Demo.m_start.
#[local] Existing Instance Step.Demo.m_commitment.
#[local] Existing Instance Step.Demo.to_json_resolution.

Definition ops : list LiveOp :=
  [OpMessage Step.Demo.note 3000; OpCall (CallSuspend 4000); OpCall (CallResume 5000); OpTick 6000].
Definition last : Session := (live_run Step.Demo.mode ops Step.Demo.started).1.
Definition log : list ReplayEvent := (live_run Step.Demo.mode ops Step.Demo.started).2.
Definition validated : ValidatedStart :=
  unwrap_or (MkValidatedStart demo_start None 0 0 0 0)
    (validate_session_start Step.Demo.start 2000 default_start_options).

Lemma live_invariant_witness :
  session_wf last ∧ bound_fields last = bound_fields Step.Demo.started.
Proof.
  destruct (live_invariant Step.Demo.mode Step.Demo.start 2000 None default_start_options
    Step.Demo.started ops last log) as (Hwf & _ & Hb & _);
    [by vm_compute|apply surjective_pairing|].
  split; [exact Hwf|exact Hb].
Defined.

Lemma replay_rebuilds_live_witness :
  ∃ t, replay (record_of Step.Demo.start default_start_options validated Step.Demo.started) log
         Step.Demo.mode default_replay_options = Ok t ∧ (ss_state last ≠ Expired → t = last).
Proof.
  destruct (replay_rebuilds_live Step.Demo.mode Step.Demo.start 2000 None default_start_options
    validated Step.Demo.started ops last log) as (t & Ht & _ & Heq);
    [by vm_compute|by vm_compute|apply surjective_pairing|].
  exists t. split; [exact Ht|exact Heq].
Defined.

Lemma replay_expiry_leftover_witness :
  let s := (suspend 1000 (session_builder "s" "m" "alice")).1 in
  validate_replay_consistency
    (apply_event REExpired Step.Demo.mode default_replay_options s).1 (expire s).1 = 1.
Proof.
  intros s.
  destruct (replay_expiry_leftover Step.Demo.mode default_replay_options s 1000)
    as (_ & _ & H & _); [reflexivity|reflexivity|exact H].
Defined.
End Demo.
