(* ===== verification/Evaluator.v ===== *)
(** * The default policy evaluator (crates/macp-policy/src/lib.rs, evaluator.rs)

    Whether a bound policy lets a commitment be sealed, per mode: the Decision
    evaluation with its objection veto, evaluation, quorum and voting gates,
    and the Proposal, Task, Handoff and Quorum evaluations. Then what a sealed
    outcome is backed by, on its own and composed with the modes. *)

From stdpp Require Import prelude gmap strings.
From S2P Require Import Prelude RustStr Floats Extern Error Policy.
Open Scope Z_scope.

Definition SUPPORTED_SCHEMA_VERSIONS : list Z := [1; 2; 3].

Definition schema_supported (v : Z) : bool := existsb (Z.eqb v) SUPPORTED_SCHEMA_VERSIONS.

Definition check_schema_version (policy : PolicyDefinition) : option PolicyDecision :=
  if negb (schema_supported (policy_schema_version policy)) then
    Some (Deny [deny_new UNSUPPORTED_SCHEMA_VERSION
      [Lit "unsupported policy schema version: "; FInt (policy_schema_version policy);
       Lit " (supported: "; FDebug "[1, 2, 3]"; Lit ")"]])
  else None.

Definition parse_rules {T} `{FromValue T} (policy : PolicyDefinition)
    : result PolicyDecision T :=
  match from_value (policy_rules policy) with
  | Ok rules => Ok rules
  | Err e =>
      Err (Deny [deny_new INVALID_RULES
        [Lit "policy '"; Lit (policy_id policy);
         Lit "' rules failed to parse at evaluation time: "; FDebug e]])
  end.

(** [registry::decision_value_domain_error]. *)
Definition decision_value_domain_error (rules : DecisionPolicyRules) : option text :=
  let veto_threshold := oh_veto_threshold (dpr_objection_handling rules) in
  let confidence := er_minimum_confidence (dpr_evaluation rules) in
  if veto_threshold <? 1 then
    Some [Lit "objection_handling.veto_threshold "; FInt veto_threshold;
          Lit " is out of range: must be >= 1"]
  else if negb (f64_le f64_0 confidence && f64_le confidence f64_1) then
    Some [Lit "evaluation.minimum_confidence "; FF64 confidence;
          Lit " is out of range: must be between 0.0 and 1.0 inclusive"]
  else None.

(** ** Tallies *)
Abbreviation votes_map := (gmap string (gmap string Vote)).

(** The ballots in the order the nested loops visit them, with their voters. *)
Definition cast_votes (votes : votes_map) : list (string * Vote) :=
  concat (bt_entries <$> bt_values votes).

Definition is_vote (v : string) (b : string * Vote) : bool := vt_vote b.2 == v.
Definition count_if {A} (f : A → bool) (l : list A) : Z := len (List.filter f l).

(** (approve, reject, abstain, non_abstain_total). *)
Definition aggregate_votes (votes : votes_map) : Z * Z * Z * Z :=
  let l := cast_votes votes in
  let approve := count_if (is_vote "APPROVE") l in
  let reject := count_if (is_vote "REJECT") l in
  let abstain := count_if (λ b, negb (is_vote "APPROVE" b) && negb (is_vote "REJECT" b)) l in
  (approve, reject, abstain, approve + reject).

Definition weight_of (weights : gmap string f64) (voter : string) : f64 :=
  default f64_0 (weights !! voter).

Definition count_decisive_rejects (algorithm : string) (weights : gmap string f64)
    (votes : votes_map) : Z :=
  if algorithm != "weighted" then (aggregate_votes votes).1.1.2
  else count_if (λ b, is_vote "REJECT" b && f64_gt (weight_of weights b.1) f64_0)
         (cast_votes votes).

Definition count_unique_voters (votes : votes_map) : Z :=
  Z.of_nat (size (list_to_set (concat (bt_keys <$> bt_values votes)) : gset string)).

Definition compute_weighted_votes (votes : votes_map) (weights : gmap string f64) : f64 * f64 :=
  foldl (λ '(weighted_approve, weighted_total) b,
    if negb (is_vote "APPROVE" b) && negb (is_vote "REJECT" b)
    then (weighted_approve, weighted_total)
    else
      let weight := weight_of weights b.1 in
      (if is_vote "APPROVE" b then f64_add weighted_approve weight else weighted_approve,
       f64_add weighted_total weight))
    (f64_0, f64_0) (cast_votes votes).

Definition check_quorum (quorum_type : string) (value : f64)
    (actual_voters total_participants : Z) : bool :=
  if (quorum_type == "count") || (quorum_type == "n_of_m") then
    f64_ge (f64_of_Z actual_voters) value
  else if quorum_type == "percentage" then
    if total_participants =? 0 then f64_le value f64_0
    else
      let pct := f64_mul (f64_div (f64_of_Z actual_voters) (f64_of_Z total_participants))
                   f64_100 in
      f64_ge pct value
  else f64_ge (f64_of_Z actual_voters) value.

Inductive VotingResult :=
| Passed (reason : text)
| Failed (reason : text)
| NoVotes.

Definition percent (x : f64) : frag := FPrec 1 (f64_mul x f64_100).

(** The ratio test of the three ratio algorithms, with its message. *)
Definition ratio_result (name : string) (what : string) (ratio threshold : f64) : VotingResult :=
  if f64_ge ratio threshold then
    Passed [Lit (name +:+ " vote passed: "); percent ratio; Lit ("% " +:+ what +:+ " (threshold: ");
            percent threshold; Lit "%)"]
  else
    Failed [Lit (name +:+ " vote failed: "); percent ratio; Lit ("% " +:+ what +:+ ", need >= ");
            percent threshold; Lit "%"].

Definition check_unanimous (votes : votes_map) (participants : list string)
    (approve_count reject_count : Z) : VotingResult :=
  let all_voted :=
    forallb (λ p, bt_any (λ pv : gmap string Vote,
      match pv !! p with Some v => vt_vote v == "APPROVE" | None => false end) votes)
      participants in
  if all_voted && (reject_count =? 0) then
    Passed [Lit "unanimous vote passed: all participants approved"]
  else
    Failed [Lit "unanimous vote failed: "; FInt approve_count; Lit " approve, ";
            FInt reject_count; Lit " reject out of "; FInt (len participants);
            Lit " participants"].

Definition check_weighted (threshold : f64) (weights : gmap string f64) (votes : votes_map)
    : VotingResult :=
  let '(weighted_approve, weighted_total) := compute_weighted_votes votes weights in
  if f64_lt weighted_total f64_0 then
    Failed [Lit "weighted vote failed: the weights of the votes cast sum to ";
            FPrec 1 weighted_total;
            Lit "; voting.weights values must be > 0, so no approval ratio is meaningful"]
  else if f64_eq weighted_total f64_0 then NoVotes
  else ratio_result "weighted" "weighted approve"
         (f64_div weighted_approve weighted_total) threshold.

Definition check_plurality (approve_count reject_count : Z) : VotingResult :=
  let counts := [FInt approve_count; Lit " approve vs "; FInt reject_count; Lit " reject"] in
  if approve_count >? reject_count then Passed (Lit "plurality vote passed: " :: counts)
  else if approve_count =? reject_count then Failed (Lit "plurality vote tied: " :: counts)
  else Failed (Lit "plurality vote failed: " :: counts).

Definition check_voting_algorithm (algorithm : string) (threshold : f64)
    (weights : gmap string f64) (votes : votes_map) (participants : list string)
    : VotingResult :=
  let '(approve_count, reject_count, _, non_abstain_total) := aggregate_votes votes in
  let ratio := f64_div (f64_of_Z approve_count) (f64_of_Z non_abstain_total) in
  if non_abstain_total =? 0 then NoVotes
  else if algorithm == "majority" then ratio_result "majority" "approve" ratio threshold
  else if algorithm == "supermajority" then
    let effective_threshold :=
      if f64_gt threshold f64_half then threshold else f64_div f64_2 f64_3 in
    ratio_result "supermajority" "approve" ratio effective_threshold
  else if algorithm == "unanimous" then
    check_unanimous votes participants approve_count reject_count
  else if algorithm == "weighted" then check_weighted threshold weights votes
  else if algorithm == "plurality" then check_plurality approve_count reject_count
  else
    Failed [Lit "unknown voting algorithm '"; Lit algorithm;
            Lit "'; supported: majority, supermajority, unanimous, weighted, plurality, none"].

(** ** Decision mode

    The checks each push onto the two reason lists; a check is the pair of
    reasons it pushes, and the verdict is taken over their concatenation. *)
Definition reasons : Type := list DenyReason * list text.
Definition no_reason : reasons := ([], []).
Definition deny_reason (r : DenyReason) : reasons := ([r], []).
Definition allow_reason (t : text) : reasons := ([], [t]).
Definition push (a b : reasons) : reasons := (a.1 ++ b.1, a.2 ++ b.2).

(** The common epilogue of the evaluators. *)
Definition verdict (satisfied : string) (r : reasons) : PolicyDecision :=
  if is_empty r.1 then Allow (if is_empty r.2 then [[Lit satisfied]] else r.2)
  else Deny r.1.

Definition is_critical (o : Objection) : bool := ob_severity o == "critical".
Definition blocking (state : DecisionState) : list string :=
  ob_sender <$> List.filter is_critical (ds_objections state).

Definition critical_veto (oh : ObjectionHandlingRules) (state : DecisionState)
    : option (text * list string) :=
  if oh_critical_severity_vetoes oh then
    if len (blocking state) >=? oh_veto_threshold oh then
      Some ([FInt (len (blocking state)); Lit " blocking objection(s) (veto threshold: ";
             FInt (oh_veto_threshold oh); Lit ")"], blocking state)
    else None
  else None.

Definition objection_authorized_decline (oh : ObjectionHandlingRules) (state : DecisionState)
    (outcome_positive : bool) : bool :=
  bool_decide (is_Some (critical_veto oh state)) && negb outcome_positive &&
  match oh_critical_objection_action oh with COAFinalizeDecline => true | _ => false end.

Definition qualifying_evaluations (state : DecisionState) : list Evaluation :=
  List.filter (λ e, to_uppercase (ev_recommendation e) != "REVIEW") (ds_evaluations state).

(** Check 1. *)
Definition evaluation_check (er : EvaluationRules) (state : DecisionState) : reasons :=
  let q := qualifying_evaluations state in
  if er_required_before_voting er && f64_gt (er_minimum_confidence er) f64_0 then
    let meets_confidence :=
      existsb (λ e, f64_ge (ev_confidence e) (er_minimum_confidence er)) q in
    if is_empty q || negb meets_confidence then
      deny_reason (deny_new CONFIDENCE_BELOW_MINIMUM
        [Lit "no qualifying evaluation meets minimum confidence threshold: ";
         FPrec 2 (er_minimum_confidence er)])
    else no_reason
  else if er_required_before_voting er && is_empty q then
    deny_reason (deny_new EVALUATION_REQUIRED
      [Lit "evaluations required before voting but none provided (REVIEW evaluations are informational only)"])
  else no_reason.

(** Check 2. *)
Definition veto_check (oh : ObjectionHandlingRules) (state : DecisionState)
    (outcome_positive : bool) : reasons :=
  match critical_veto oh state with
  | None => no_reason
  | Some (detail, objectors) =>
      match oh_critical_objection_action oh with
      | COADeny =>
          deny_reason (with_participants
            (deny_new VETO (Lit "blocked by " :: detail)) objectors)
      | COAHold =>
          deny_reason (with_participants
            (deny_new VETO_HOLD (Lit "held for escalation by " :: detail
               ++ [Lit " (critical_objection_action=hold)"])) objectors)
      | COAFinalizeDecline =>
          if outcome_positive then
            deny_reason (with_participants
              (deny_new VETO (Lit "veto blocks a positive commitment: " :: detail
                 ++ [Lit " (critical_objection_action=finalize_decline)"])) objectors)
          else
            allow_reason (Lit "critical-objection veto finalized as a decline: " :: detail)
      end
  end.

(** Checks 3 and 4. *)
Definition quorum_check (rules : DecisionPolicyRules) (state : DecisionState)
    (participants : list string) (authorized : bool) : reasons :=
  let quorum := vr_quorum (dpr_voting rules) in
  let total_voters := count_unique_voters (ds_votes state) in
  let quorum_met :=
    check_quorum (qr_type quorum) (qr_value quorum) total_voters (len participants) in
  if cr_require_vote_quorum (dpr_commitment rules) && negb quorum_met && negb authorized then
    deny_reason (deny_new QUORUM_NOT_MET
      [Lit "vote quorum not met: "; FInt total_voters; Lit " voters of ";
       FInt (len participants); Lit " participants (quorum: "; FF64 (qr_value quorum);
       Lit " "; Lit (qr_type quorum); Lit ")"])
  else no_reason.

Definition not_backed_detail (algorithm : string) : frag :=
  if algorithm == "weighted" then
    Lit "a REJECT from a participant outside voting.weights is non-decisive, and incomplete participation is not a rejection"
  else
    Lit "no REJECT was cast; neither an abstention nor a missing ballot is a rejection".

(** The three rows of check 5. *)
Definition passed_row (rules : DecisionPolicyRules) (decisive_reject_count : Z)
    (outcome_positive : bool) (reason : text) : reasons :=
  if outcome_positive then allow_reason reason
  else if negb (cr_allow_decline_over_approval (dpr_commitment rules)) then
    deny_reason (deny_new DECLINE_OVER_APPROVAL
      (Lit "vote passed the approval threshold but a decline was requested; set commitment.allow_decline_over_approval to permit an executive override ("
       :: reason ++ [Lit ")"]))
  else if decisive_reject_count >? 0 then
    allow_reason
      (Lit "decline authorized over a passing approval vote (allow_decline_over_approval=true): "
       :: reason)
  else
    deny_reason (deny_new DECLINE_NOT_BACKED
      (Lit "allow_decline_over_approval permits a decline over a passing vote, but no decisive reject backs it ("
       :: not_backed_detail (vr_algorithm (dpr_voting rules)) :: Lit "): " :: reason)).

Definition failed_row (decisive_reject_count : Z) (outcome_positive : bool) (reason : text)
    : reasons :=
  if outcome_positive then deny_reason (deny_new THRESHOLD_NOT_MET reason)
  else if decisive_reject_count >? 0 then
    allow_reason (Lit "decline backed by conclusive rejection: " :: reason)
  else
    deny_reason (deny_new DECLINE_NOT_BACKED
      (Lit "approval threshold not met but no decisive reject to justify a decline (incomplete participation is not a rejection): "
       :: reason)).

Definition no_votes_row (schema_version : Z) (rules : DecisionPolicyRules)
    (outcome_positive : bool) : reasons :=
  if outcome_positive then
    if schema_version >=? 3 then
      deny_reason (deny_new NO_VOTES
        [Lit "no decisive votes cast: under policy schema_version "; FInt schema_version;
         Lit " the '"; Lit (vr_algorithm (dpr_voting rules));
         Lit "' voting algorithm is binding on an empty tally and does not authorize a positive commitment (RFC-MACP-0012 §4.1)"])
    else if cr_require_vote_quorum (dpr_commitment rules) then
      deny_reason (deny_new NO_VOTES [Lit "no votes cast"])
    else no_reason
  else
    deny_reason (deny_new DECLINE_NOT_BACKED
      [Lit "no votes cast; a decline requires at least one decisive explicit reject vote"]).

(** Check 5. *)
Definition voting_check (schema_version : Z) (rules : DecisionPolicyRules)
    (state : DecisionState) (participants : list string)
    (outcome_positive authorized : bool) : reasons :=
  let v := dpr_voting rules in
  let decisive_reject_count :=
    count_decisive_rejects (vr_algorithm v) (vr_weights v) (ds_votes state) in
  if vr_algorithm v == "none" then
    allow_reason [Lit "voting algorithm is 'none'; no vote threshold required"]
  else if negb authorized then
    match check_voting_algorithm (vr_algorithm v) (vr_threshold v) (vr_weights v)
            (ds_votes state) participants with
    | Passed reason => passed_row rules decisive_reject_count outcome_positive reason
    | Failed reason => failed_row decisive_reject_count outcome_positive reason
    | NoVotes => no_votes_row schema_version rules outcome_positive
    end
  else no_reason.

Definition decision_checks (schema_version : Z) (rules : DecisionPolicyRules)
    (state : DecisionState) (participants : list string) (outcome_positive : bool) : reasons :=
  let oh := dpr_objection_handling rules in
  let authorized := objection_authorized_decline oh state outcome_positive in
  push (if negb authorized then evaluation_check (dpr_evaluation rules) state else no_reason)
    (push (veto_check oh state outcome_positive)
      (push (quorum_check rules state participants authorized)
        (voting_check schema_version rules state participants outcome_positive authorized))).

(** ** The evaluators *)
Section evaluator.
Context `{FromValue DecisionPolicyRules} `{FromValue ProposalPolicyRules}.
Context `{FromValue TaskPolicyRules} `{FromValue HandoffPolicyRules}.
Context `{FromValue QuorumPolicyRules}.
Implicit Types (policy : PolicyDefinition).

(** The prologue of every evaluator: the schema gate, then the rules. *)
Definition with_rules {T} `{FromValue T} policy (k : T → PolicyDecision) : PolicyDecision :=
  match check_schema_version policy with
  | Some deny => deny
  | None =>
      match parse_rules policy with
      | Ok rules => k rules
      | Err deny => deny
      end
  end.

Definition evaluate_decision_commitment_outcome policy (state : DecisionState)
    (participants : list string) (outcome_positive : bool) : PolicyDecision :=
  with_rules (T:=DecisionPolicyRules) policy (λ rules,
    match decision_value_domain_error rules with
    | Some reason =>
        Deny [deny_new INVALID_RULES
          (Lit "policy '" :: Lit (policy_id policy)
           :: Lit "' rules are out of domain at evaluation time: " :: reason)]
    | None =>
        verdict "policy constraints satisfied"
          (decision_checks (policy_schema_version policy) rules state participants
             outcome_positive)
    end).

Definition evaluate_decision_commitment policy (state : DecisionState)
    (participants : list string) : PolicyDecision :=
  evaluate_decision_commitment_outcome policy state participants true.

Definition evaluate_proposal_commitment_outcome policy (counter_proposal_count : Z)
    (outcome_positive : bool) : PolicyDecision :=
  with_rules (T:=ProposalPolicyRules) policy (λ rules,
    verdict "proposal policy constraints satisfied"
      (if (ppr_max_rounds rules >? 0) && (counter_proposal_count >? ppr_max_rounds rules) then
         if outcome_positive then
           deny_reason (deny_new CRITERION_NOT_MET
             [Lit "counter-proposal limit exceeded: "; FInt counter_proposal_count;
              Lit " of "; FInt (ppr_max_rounds rules); Lit " allowed"])
         else
           allow_reason
             [Lit "round limit exceeded but outcome is a decline: limit not applicable"]
       else no_reason)).

Definition evaluate_proposal_commitment policy (counter_proposal_count : Z) : PolicyDecision :=
  evaluate_proposal_commitment_outcome policy counter_proposal_count true.

Definition evaluate_task_commitment_outcome policy (has_output outcome_positive : bool)
    : PolicyDecision :=
  with_rules (T:=TaskPolicyRules) policy (λ rules,
    verdict "task policy constraints satisfied"
      (if tpr_require_output rules && negb has_output then
         if outcome_positive then
           deny_reason (deny_new OUTPUT_REQUIRED
             [Lit "policy requires task output before commitment"])
         else
           allow_reason
             [Lit "negative outcome (task failure): output requirement not applicable"]
       else no_reason)).

Definition evaluate_task_commitment policy (has_output : bool) : PolicyDecision :=
  evaluate_task_commitment_outcome policy has_output true.

Definition evaluate_handoff_commitment_outcome policy (_outcome_positive : bool)
    : PolicyDecision :=
  with_rules (T:=HandoffPolicyRules) policy (λ _,
    Allow [[Lit "handoff policy constraints satisfied"]]).

Definition evaluate_handoff_commitment policy : PolicyDecision :=
  evaluate_handoff_commitment_outcome policy true.

Definition decline_not_gated : reasons :=
  allow_reason [Lit "negative outcome: approval threshold does not gate a decline"].

(** The approval threshold. *)
Definition threshold_check (t : QuorumThreshold) (approve_count total_participants : Z)
    (outcome_positive : bool) : reasons :=
  match effective t total_participants with
  | Inert => no_reason
  | Approvals required =>
      if outcome_positive && (approve_count <? required) then
        deny_reason (deny_new THRESHOLD_NOT_MET
          [Lit "approval threshold not met: "; FInt approve_count; Lit " of "; FInt required;
           Lit " required approvals ("; FF64 (qt_value t); Lit " "; Lit (qt_type t); Lit ")"])
      else if negb outcome_positive then decline_not_gated
      else no_reason
  | Unsatisfiable =>
      if outcome_positive then
        deny_reason (deny_new THRESHOLD_NOT_MET
          [Lit "approval threshold '"; Lit (qt_type t);
           Lit "' cannot be satisfied by this runtime ("; FInt total_participants;
           Lit " participants): no positive commitment is possible"])
      else decline_not_gated
  end.

(** The abstention report. *)
Definition abstention_report (a : AbstentionRules) (reject_count abstain_count : Z) : reasons :=
  let effective_reject_count :=
    if ab_interpretation a == "implicit_reject" then reject_count + abstain_count
    else reject_count in
  if effective_reject_count >? reject_count then
    allow_reason [Lit "abstentions interpreted as implicit rejections: ";
                  FInt effective_reject_count; Lit " effective rejections"]
  else no_reason.

Definition evaluate_quorum_commitment_outcome policy
    (approve_count reject_count abstain_count total_participants : Z)
    (outcome_positive : bool) : PolicyDecision :=
  with_rules (T:=QuorumPolicyRules) policy (λ rules,
    verdict "quorum policy constraints satisfied"
      (push (threshold_check (qpr_threshold rules) approve_count total_participants
               outcome_positive)
            (abstention_report (qpr_abstention rules) reject_count abstain_count))).

Definition evaluate_quorum_commitment policy
    (approve_count reject_count abstain_count total_participants : Z) : PolicyDecision :=
  evaluate_quorum_commitment_outcome policy approve_count reject_count abstain_count
    total_participants true.

(** [DefaultPolicyEvaluator]. *)
Definition DefaultPolicyEvaluator : PolicyEvaluator := λ ctx,
  match cc_mode ctx with
  | CMDecision state =>
      evaluate_decision_commitment_outcome (cc_policy ctx) state (cc_participants ctx)
        (cc_outcome_positive ctx)
  | CMProposal counter_proposal_count =>
      evaluate_proposal_commitment_outcome (cc_policy ctx) counter_proposal_count
        (cc_outcome_positive ctx)
  | CMTask has_output =>
      evaluate_task_commitment_outcome (cc_policy ctx) has_output (cc_outcome_positive ctx)
  | CMHandoff => evaluate_handoff_commitment_outcome (cc_policy ctx) (cc_outcome_positive ctx)
  | CMQuorum approve_count reject_count abstain_count =>
      evaluate_quorum_commitment_outcome (cc_policy ctx) approve_count reject_count
        abstain_count (len (cc_participants ctx)) (cc_outcome_positive ctx)
  end.
End evaluator.

(** ** What a verdict means *)
Lemma verdict_allow s r : (∃ l, verdict s r = Allow l) ↔ r.1 = [].
Proof. unfold verdict. destruct r as [[|d ds] ts]; simpl; naive_solver. Qed.

Lemma push_clean a b : (push a b).1 = [] ↔ a.1 = [] ∧ b.1 = [].
Proof. unfold push; simpl. rewrite app_nil. done. Qed.

Lemma with_rules_allow {T} `{FromValue T} policy (k : T → PolicyDecision) :
  (∃ l, with_rules policy k = Allow l) ↔
  schema_supported (policy_schema_version policy) = true ∧
  ∃ rules, from_value (policy_rules policy) = Ok rules ∧ ∃ l, k rules = Allow l.
Proof.
  unfold with_rules, check_schema_version, parse_rules.
  destruct (schema_supported _); simpl; [|naive_solver].
  destruct (from_value _); naive_solver.
Qed.

(** *** The contract of the Decision evaluation, as RFC-MACP-0007 §6 states it *)
Section contract.
Implicit Types (rules : DecisionPolicyRules) (state : DecisionState).

(** Enough critical objections stand for the policy's veto. *)
Definition vetoed rules state : Prop :=
  oh_critical_severity_vetoes (dpr_objection_handling rules) = true ∧
  oh_veto_threshold (dpr_objection_handling rules) ≤ len (blocking state).

(** The evaluations the policy asks for before a vote counts. *)
Definition evaluated rules state : Prop :=
  er_required_before_voting (dpr_evaluation rules) = true →
  ∃ e, e ∈ ds_evaluations state ∧ to_uppercase (ev_recommendation e) ≠ "REVIEW" ∧
    (f64_gt (er_minimum_confidence (dpr_evaluation rules)) f64_0 = true →
     f64_ge (ev_confidence e) (er_minimum_confidence (dpr_evaluation rules)) = true).

Definition quorate rules state (participants : list string) : Prop :=
  cr_require_vote_quorum (dpr_commitment rules) = true →
  check_quorum (qr_type (vr_quorum (dpr_voting rules))) (qr_value (vr_quorum (dpr_voting rules)))
    (count_unique_voters (ds_votes state)) (len participants) = true.

Definition tally rules state (participants : list string) : VotingResult :=
  check_voting_algorithm (vr_algorithm (dpr_voting rules)) (vr_threshold (dpr_voting rules))
    (vr_weights (dpr_voting rules)) (ds_votes state) participants.

Definition decisive_rejects rules state : Z :=
  count_decisive_rejects (vr_algorithm (dpr_voting rules)) (vr_weights (dpr_voting rules))
    (ds_votes state).

(** The tally authorizes the outcome. *)
Definition tally_permits (schema_version : Z) rules state (participants : list string)
    (outcome_positive : bool) : Prop :=
  match tally rules state participants, outcome_positive with
  | Passed _, true => True
  | Failed _, true => False
  | NoVotes, true => schema_version < 3 ∧ cr_require_vote_quorum (dpr_commitment rules) = false
  | Passed _, false =>
      cr_allow_decline_over_approval (dpr_commitment rules) = true ∧
      0 < decisive_rejects rules state
  | Failed _, false => 0 < decisive_rejects rules state
  | NoVotes, false => False
  end.

Definition decision_permits (schema_version : Z) rules state (participants : list string)
    (outcome_positive : bool) : Prop :=
  (vetoed rules state ∧ outcome_positive = false ∧
     oh_critical_objection_action (dpr_objection_handling rules) = COAFinalizeDecline) ∨
  (¬ vetoed rules state ∧ evaluated rules state ∧ quorate rules state participants ∧
     (vr_algorithm (dpr_voting rules) = "none" ∨
      tally_permits schema_version rules state participants outcome_positive)).

Lemma critical_veto_spec rules state :
  is_Some (critical_veto (dpr_objection_handling rules) state) ↔ vetoed rules state.
Proof.
  unfold critical_veto, vetoed.
  destruct (oh_critical_severity_vetoes _); [|split; [intros [? [=]]|naive_solver]].
  rewrite Z.geb_leb. destruct (Z.leb_spec (oh_veto_threshold (dpr_objection_handling rules))
    (len (blocking state))).
  - split; eauto.
  - split; [intros [? [=]]|intros [_ ?]; lia].
Qed.

Lemma evaluation_check_clean rules state :
  (evaluation_check (dpr_evaluation rules) state).1 = [] ↔ evaluated rules state.
Proof.
  unfold evaluation_check, evaluated, qualifying_evaluations.
  destruct (er_required_before_voting _); simpl; [|naive_solver].
  assert (∀ e, In e (List.filter (λ e, to_uppercase (ev_recommendation e) != "REVIEW")
      (ds_evaluations state)) ↔
      e ∈ ds_evaluations state ∧ to_uppercase (ev_recommendation e) ≠ "REVIEW") as Hq.
  { intros e. rewrite filter_In, list_elem_of_In, negb_true_iff, bool_decide_eq_false. done. }
  set (q := List.filter _ _) in *. clearbody q.
  destruct (f64_gt _ _).
  - destruct (existsb _ q) eqn:Ex; simpl.
    + apply existsb_exists in Ex as (e & He & Hc).
      destruct q as [|e0 q0]; [by destruct He|]. apply Hq in He as [? ?]. naive_solver.
    + rewrite orb_true_r. split; [done|]. intros Hx. destruct (Hx eq_refl) as (e & ? & ? & Hc).
      exfalso. apply not_true_iff_false in Ex. apply Ex, existsb_exists.
      exists e. rewrite Hq. naive_solver.
  - destruct q as [|e q]; simpl.
    + split; [done|]. intros Hx. destruct (Hx eq_refl) as (e & ? & ? & _).
      by destruct (proj2 (Hq e)).
    + split; [|done]. intros _ _. exists e. destruct (proj1 (Hq e)); [by left|]. naive_solver.
Qed.

Lemma quorum_check_clean rules state participants authorized :
  (quorum_check rules state participants authorized).1 = [] ↔
  authorized = true ∨ quorate rules state participants.
Proof.
  unfold quorum_check, quorate.
  destruct (cr_require_vote_quorum _), (check_quorum _ _ _ _), authorized; simpl; naive_solver.
Qed.

Lemma voting_check_clean v rules state participants outcome authorized :
  (voting_check v rules state participants outcome authorized).1 = [] ↔
  vr_algorithm (dpr_voting rules) = "none" ∨ authorized = true ∨
  tally_permits v rules state participants outcome.
Proof.
  unfold voting_check, tally_permits, tally, decisive_rejects.
  case_bool_decide as Hn; simpl; [naive_solver|]. destruct authorized; simpl; [naive_solver|].
  set (d := count_decisive_rejects _ _ _). clearbody d.
  unfold passed_row, failed_row, no_votes_row.
  destruct (check_voting_algorithm _ _ _ _ _), outcome; simpl;
    rewrite ?Z.geb_leb, ?Z.gtb_ltb;
    repeat match goal with |- context [if ?b then _ else _] => destruct b eqn:? end;
    simpl; bool_simp; rewrite ?Z.leb_le, ?Z.ltb_lt, ?Z.leb_gt, ?Z.ltb_ge in *;
    intuition (congruence || lia).
Qed.

(** The checks of the evaluator leave no deny reason exactly when the contract
    permits the outcome. *)
Lemma decision_checks_clean v rules state participants outcome :
  (decision_checks v rules state participants outcome).1 = [] ↔
  decision_permits v rules state participants outcome.
Proof.
  unfold decision_checks, decision_permits. rewrite !push_clean.
  rewrite quorum_check_clean, voting_check_clean.
  pose proof (critical_veto_spec rules state) as Hveto.
  pose proof (evaluation_check_clean rules state) as Heval.
  unfold objection_authorized_decline, veto_check in *.
  destruct (critical_veto (dpr_objection_handling rules) state) as [[detail objectors]|].
  - assert (vetoed rules state) by (apply Hveto; eauto).
    rewrite bool_decide_true by eauto.
    destruct (oh_critical_objection_action _), outcome; simpl; naive_solver.
  - assert (¬ vetoed rules state) by (rewrite <- Hveto; by intros [? [=]]).
    rewrite bool_decide_false by (by intros [? [=]]). simpl. rewrite Heval. naive_solver.
Qed.
End contract.

Lemma schema_supported_spec v : schema_supported v = true ↔ v ∈ SUPPORTED_SCHEMA_VERSIONS.
Proof.
  unfold schema_supported. rewrite existsb_exists. setoid_rewrite Z.eqb_eq.
  setoid_rewrite <- list_elem_of_In. naive_solver.
Qed.

Lemma domain_clean rules :
  decision_value_domain_error rules = None ↔
  1 ≤ oh_veto_threshold (dpr_objection_handling rules) ∧
  f64_le f64_0 (er_minimum_confidence (dpr_evaluation rules)) = true ∧
  f64_le (er_minimum_confidence (dpr_evaluation rules)) f64_1 = true.
Proof.
  unfold decision_value_domain_error. destruct (Z.ltb_spec
    (oh_veto_threshold (dpr_objection_handling rules)) 1); [split; [done|lia]|].
  destruct (f64_le f64_0 _), (f64_le _ f64_1); naive_solver.
Qed.

(** *** Ballots *)
Lemma elem_of_cast_votes votes voter v :
  (voter, v) ∈ cast_votes votes ↔ ∃ pid pv, votes !! pid = Some pv ∧ pv !! voter = Some v.
Proof.
  unfold cast_votes. rewrite list_elem_of_In, in_concat. setoid_rewrite <- list_elem_of_In.
  setoid_rewrite list_elem_of_fmap. split.
  - intros (l & (pv & -> & Hpv) & Hin). apply elem_of_bt_values in Hpv as [pid Hpid].
    apply elem_of_bt_entries in Hin. eauto.
  - intros (pid & pv & Hpid & Hv). exists (bt_entries pv). rewrite elem_of_bt_entries.
    split; [|done]. exists pv. rewrite elem_of_bt_values. eauto.
Qed.

(** [voter] cast the vote [choice] on some proposal. *)
Definition on_record (votes : votes_map) (voter choice : string) : Prop :=
  ∃ pid pv v, votes !! pid = Some pv ∧ pv !! voter = Some v ∧ vt_vote v = choice.

Lemma on_record_spec votes voter choice :
  on_record votes voter choice ↔
  ∃ b, b ∈ cast_votes votes ∧ b.1 = voter ∧ is_vote choice b = true.
Proof.
  unfold on_record, is_vote. split.
  - intros (pid & pv & v & ? & ? & Hv). exists (voter, v). simpl.
    rewrite elem_of_cast_votes, bool_decide_eq_true. naive_solver.
  - intros ([voter' v] & (pid & pv & ? & ?)%elem_of_cast_votes & <- & Hv). simpl in *.
    bool_simp. exists pid, pv, v. done.
Qed.

Lemma count_if_pos {A} (f : A → bool) l : 0 < count_if f l ↔ ∃ x, x ∈ l ∧ f x = true.
Proof.
  assert ((∃ x, x ∈ l ∧ f x = true) ↔ ∃ x, In x (List.filter f l)) as ->.
  { f_equiv; intros x. by rewrite filter_In, <- list_elem_of_In. }
  unfold count_if, len. destruct (List.filter f l) as [|x k]; simpl.
  - split; [lia|intros (? & [])].
  - split; [|lia]. intros _. exists x. by left.
Qed.

Lemma count_votes_pos votes choice :
  0 < count_if (is_vote choice) (cast_votes votes) ↔ ∃ voter, on_record votes voter choice.
Proof. rewrite count_if_pos. setoid_rewrite on_record_spec. naive_solver. Qed.

Lemma count_if_nonneg {A} (f : A → bool) l : 0 ≤ count_if f l.
Proof. apply len_nonneg. Qed.

(** A decisive REJECT is one on record, cast by a voter with a say. *)
Definition decisive (algorithm : string) (weights : gmap string f64) (voter : string) : Prop :=
  algorithm = "weighted" → f64_gt (weight_of weights voter) f64_0 = true.

Lemma count_decisive_rejects_pos algorithm weights votes :
  0 < count_decisive_rejects algorithm weights votes ↔
  ∃ voter, on_record votes voter "REJECT" ∧ decisive algorithm weights voter.
Proof.
  unfold count_decisive_rejects, aggregate_votes, decisive.
  case_bool_decide as Ha; simpl.
  - rewrite count_if_pos. setoid_rewrite andb_true_iff. setoid_rewrite on_record_spec.
    naive_solver.
  - rewrite count_votes_pos. naive_solver.
Qed.

Lemma blocking_critical state :
  1 ≤ len (blocking state) → ∃ o, o ∈ ds_objections state ∧ ob_severity o = "critical".
Proof.
  unfold blocking, len. rewrite length_fmap. intros Hl.
  destruct (proj1 (count_if_pos is_critical (ds_objections state))) as (o & ? & Ho);
    [unfold count_if, len; lia|]. unfold is_critical in Ho. bool_simp. eauto.
Qed.

(** A tally that permits a decline holds a decisive REJECT. *)
Lemma tally_decline v rules state participants :
  tally_permits v rules state participants false → 0 < decisive_rejects rules state.
Proof. unfold tally_permits. destruct (tally _ _ _); naive_solver. Qed.

(** A vote is unanimous when everyone approved something and nobody rejected. *)
Lemma unanimous_passed threshold weights votes participants reason :
  check_voting_algorithm "unanimous" threshold weights votes participants = Passed reason →
  (∀ p, p ∈ participants → on_record votes p "APPROVE") ∧
  (∀ p, ¬ on_record votes p "REJECT").
Proof.
  unfold check_voting_algorithm, aggregate_votes, check_unanimous; simpl. intros E.
  destruct (_ =? 0) eqn:?; [done|].
  destruct (forallb _ participants) eqn:Hall; [|done]. simpl in E.
  destruct (count_if (is_vote "REJECT") _ =? 0) eqn:Hr; [|done]. split.
  - intros p Hp%list_elem_of_In. rewrite forallb_forall in Hall.
    apply Hall, bt_any_true in Hp as (pid & pv & Hpid & Hv).
    destruct (pv !! p) as [v|] eqn:Epv; [|done]. bool_simp. exists pid, pv, v. done.
  - intros p Hp. assert (0 < count_if (is_vote "REJECT") (cast_votes votes)) by
      (apply count_votes_pos; eauto). lia.
Qed.

Lemma evaluate_decision_allow `{FromValue DecisionPolicyRules}
    policy state participants outcome_positive :
  (∃ l, evaluate_decision_commitment_outcome policy state participants outcome_positive
        = Allow l) ↔
  schema_supported (policy_schema_version policy) = true ∧
  ∃ rules : DecisionPolicyRules, from_value (policy_rules policy) = Ok rules ∧
    decision_value_domain_error rules = None ∧
    decision_permits (policy_schema_version policy) rules state participants outcome_positive.
Proof.
  unfold evaluate_decision_commitment_outcome. rewrite with_rules_allow.
  apply and_iff_compat_l. f_equiv; intros rules. apply and_iff_compat_l.
  rewrite <- decision_checks_clean, <- (verdict_allow "policy constraints satisfied").
  destruct (decision_value_domain_error rules); naive_solver.
Qed.


(** The whole percentages [v] that a turnout of exactly [v] out of 100
    participants fails to meet. *)
Definition missed_percentages : list Z :=
  List.filter (λ v, negb (check_quorum "percentage" (f64_of_Z v) v 100))
    (Z.of_nat <$> seq 1 100).

(** The percentage quorum rounds against the voters: the turnout is taken
    as a binary64 quotient times 100, so with 100 participants a turnout of
    exactly 29, 57 or 58 does not meet a quorum of 29, 57 or 58 percent, while
    every other whole percentage is met by its own turnout. *)
Theorem percentage_quorum_rounds : missed_percentages = [29; 57; 58].
Proof. vm_compute. reflexivity. Qed.
