(* ===== verification/Governance.v ===== *)
(** * Modes under the default policy evaluator

    The Decision and Quorum modes composed with [DefaultPolicyEvaluator]: what
    the record shows whenever a commitment was sealed, and where the two layers
    of the Quorum mode leave a gap. *)

From stdpp Require Import prelude gmap strings.
From S2P Require Import Prelude RustStr Floats Extern Error Policy Wire SessionData.
From S2P Require Import CommitmentHash ModeApi Decision Quorum Evaluator.
Open Scope Z_scope.

Section rules.
Context `{FromValue DecisionPolicyRules} `{FromValue ProposalPolicyRules}.
Context `{FromValue TaskPolicyRules} `{FromValue HandoffPolicyRules}.
Context `{FromValue QuorumPolicyRules} `{FromValue CommitmentRules}.
#[local] Existing Instance DefaultPolicyEvaluator.

(** ** Decision *)
Section decision.
Context `{Message ProposalPayload} `{Message EvaluationPayload}.
Context `{Message ObjectionPayload} `{Message VotePayload} `{Message CommitmentPayload}.
Implicit Types (session : Session) (env : Envelope) (st : DecisionState).

(** What a sealed Decision commitment says of the state it was sealed on. *)
Lemma decision_sealed session env st st' payload c policy rules :
  Decision.dispatch session env st = Ok (st', Some payload) →
  decode payload = Some c → ss_policy_definition session = Some policy →
  from_value (policy_rules policy) = Ok rules →
  decision_value_domain_error rules = None ∧
  decision_permits (policy_schema_version policy) rules st (ss_participants session)
    (cp_outcome_positive c).
Proof.
  unfold Decision.dispatch, Decision.handle_commitment. intros E Hc Hp Hr.
  res_inv. bool_simp. unfold Decision.commitment_ready in *. bool_simp.
  match goal with E : validate_commitment_payload_for_session _ _ = _ |- _ =>
    apply validate_commitment_ok in E as [? _] end. simplify_eq.
  match goal with E : enforce_commitment_policy _ _ _ = Ok ?u |- _ =>
    destruct u; rename E into En end.
  apply enforce_policy_ok with (policy := policy) in En; [|done].
  apply evaluate_decision_allow in En as (_ & rules' & Hr' & ? & ?).
  simpl in *. by replace rules with rules' by congruence.
Qed.

(** No adverse decline without dissent. Whatever the bound policy, if a
    Decision session accepted a negative commitment and the policy's voting
    algorithm is not [none], then dissent is on record: either an objection of
    critical severity, or a REJECT ballot by a voter the algorithm counts. A
    silent, abstaining or all-approving electorate cannot be turned into a
    finalized decline. *)
Theorem decision_decline_backed session env st st' payload c policy rules :
  Decision.dispatch session env st = Ok (st', Some payload) →
  decode payload = Some c → ss_policy_definition session = Some policy →
  from_value (policy_rules policy) = Ok rules →
  vr_algorithm (dpr_voting rules) ≠ "none" → cp_outcome_positive c = false →
  (∃ o, o ∈ ds_objections st ∧ ob_severity o = "critical") ∨
  (∃ voter, on_record (ds_votes st) voter "REJECT" ∧
    decisive (vr_algorithm (dpr_voting rules)) (vr_weights (dpr_voting rules)) voter).
Proof.
  intros E Hc Hp Hr Halg Hneg.
  destruct (decision_sealed _ _ _ _ _ _ _ _ E Hc Hp Hr) as (Hdom & Hperm).
  apply domain_clean in Hdom as [Hveto _]. rewrite Hneg in Hperm.
  destruct Hperm as [[[_ Hlen] _]|(_ & _ & _ & [?|Ht])]; [left|done|right].
  - apply blocking_critical. lia.
  - apply tally_decline, count_decisive_rejects_pos in Ht. done.
Qed.

(** Unanimity means unanimity. If a Decision session whose policy (schema
    version 3) votes by [unanimous] accepted a positive commitment, then every
    declared participant approved some proposal, nobody rejected any, and the
    critical objections stayed below the policy's veto threshold. *)
Theorem decision_unanimous_backed session env st st' payload c policy rules :
  Decision.dispatch session env st = Ok (st', Some payload) →
  decode payload = Some c → ss_policy_definition session = Some policy →
  from_value (policy_rules policy) = Ok rules → 3 ≤ policy_schema_version policy →
  vr_algorithm (dpr_voting rules) = "unanimous" → cp_outcome_positive c = true →
  (∀ p, p ∈ ss_participants session → on_record (ds_votes st) p "APPROVE") ∧
  (∀ p, ¬ on_record (ds_votes st) p "REJECT") ∧
  ¬ vetoed rules st.
Proof.
  intros E Hc Hp Hr Hv Halg Hpos.
  destruct (decision_sealed _ _ _ _ _ _ _ _ E Hc Hp Hr) as (_ & Hperm).
  rewrite Hpos in Hperm.
  destruct Hperm as [(_ & [=] & _)|(Hnv & _ & _ & [?|Ht])]; [congruence|].
  unfold tally_permits, tally in Ht. rewrite Halg in Ht.
  destruct (check_voting_algorithm _ _ _ _ _) eqn:Et; [|done|lia].
  destruct (unanimous_passed _ _ _ _ _ Et). done.
Qed.
End decision.

(** ** Quorum *)
Section quorum.
Context `{Message ApprovalRequestPayload} `{Message ApprovePayload}.
Context `{Message BallotRejectPayload} `{Message AbstainPayload} `{Message CommitmentPayload}.
Implicit Types (session : Session) (env : Envelope) (st : QuorumState).

(** The policy's own approval bar, where it sets one, is met. *)
Definition policy_bar_met (rules : QuorumPolicyRules) (approvals participants : Z) : Prop :=
  match effective (qpr_threshold rules) participants with
  | Inert => True
  | Approvals n => n ≤ approvals
  | Unsatisfiable => False
  end.

Lemma evaluate_quorum_allow policy a r b n outcome :
  (∃ l, evaluate_quorum_commitment_outcome policy a r b n outcome = Allow l) ↔
  schema_supported (policy_schema_version policy) = true ∧
  ∃ rules : QuorumPolicyRules, from_value (policy_rules policy) = Ok rules ∧
    (outcome = true → policy_bar_met rules a n).
Proof.
  unfold evaluate_quorum_commitment_outcome. rewrite with_rules_allow.
  apply and_iff_compat_l. f_equiv; intros rules. apply and_iff_compat_l.
  rewrite verdict_allow, push_clean. unfold policy_bar_met, threshold_check, abstention_report.
  destruct (effective _ _), outcome; simpl;
    repeat match goal with |- context [if ?b then _ else _] => destruct b eqn:? end;
    simpl; rewrite ?Z.ltb_lt, ?Z.ltb_ge in *; intuition (congruence || lia).
Qed.

Lemma quorum_sealed_iff session env st c :
  env_message_type env = "Commitment" →
  validate_commitment_payload_for_session session (env_payload env) = Ok c →
  Quorum.dispatch session env st = Ok (st, Some (env_payload env)) ↔
  Quorum.commitment_ready session st = true ∧
  ∀ policy, ss_policy_definition session = Some policy →
    schema_supported (policy_schema_version policy) = true ∧
    ∃ rules : QuorumPolicyRules, from_value (policy_rules policy) = Ok rules ∧
      (cp_outcome_positive c = true →
       policy_bar_met rules (ballot_count Approve (qs_ballots st))
         (len (ss_participants session))).
Proof.
  intros Hty Hv. unfold Quorum.dispatch, Quorum.handle_commitment. rewrite Hty, Hv. simpl.
  destruct (Quorum.commitment_ready session st); simpl; [|naive_solver].
  setoid_rewrite <- (evaluate_quorum_allow _ _ (ballot_count Reject (qs_ballots st))
    (ballot_count Abstain (qs_ballots st))).
  pose proof (enforce_policy_ok session (CMQuorum (ballot_count Approve (qs_ballots st))
    (ballot_count Reject (qs_ballots st)) (ballot_count Abstain (qs_ballots st)))
    (cp_outcome_positive c)) as He.
  destruct (enforce_commitment_policy _ _ _) as [[]|]; naive_solver.
Qed.

(** The participants that have not voted. *)
Definition outstanding session st : Z :=
  len (filter (λ p, ¬ is_Some (qs_ballots st !! p)) (ss_participants session)).

(** C20. When a Quorum session seals a commitment. With a request accepted, the
    bar in force at [n] approvals and a policy bound whose rules read back, a
    valid Commitment is accepted exactly when [n] approvals were cast, or they
    are out of reach and either the outcome is negative or the policy sets no
    threshold of its own. So a policy's threshold is never bypassed: a positive
    commitment under it has its [n] approvals. *)
Theorem quorum_commitment_iff session env st c r n policy rules :
  NoDup (ss_participants session) → len (ss_participants session) ≤ u32_max →
  quorum_inv session st → qs_request st = Some r →
  effective_threshold session r = ThresholdApprovals n →
  ss_policy_definition session = Some policy →
  policy_schema_version policy ∈ SUPPORTED_SCHEMA_VERSIONS →
  from_value (policy_rules policy) = Ok rules →
  env_message_type env = "Commitment" →
  validate_commitment_payload_for_session session (env_payload env) = Ok c →
  Quorum.dispatch session env st = Ok (st, Some (env_payload env)) ↔
  n ≤ ballot_count Approve (qs_ballots st) ∨
  (ballot_count Approve (qs_ballots st) + outstanding session st < n ∧
   (cp_outcome_positive c = false ∨
    effective (qpr_threshold rules) (len (ss_participants session)) = Inert)).
Proof.
  intros Hnd Hlen Hi Hr Hn Hp Hs%schema_supported_spec Hrules Hty Hv.
  rewrite (quorum_sealed_iff _ _ _ _ Hty Hv), Hp.
  rewrite (commitment_ready_num session st r n) by done. fold (outstanding session st).
  assert (0 ≤ outstanding session st) as Hout by apply len_nonneg.
  assert ((∀ p, Some policy = Some p → schema_supported (policy_schema_version p) = true ∧
    ∃ rs : QuorumPolicyRules, from_value (policy_rules p) = Ok rs ∧
      (cp_outcome_positive c = true → policy_bar_met rs
        (ballot_count Approve (qs_ballots st)) (len (ss_participants session)))) ↔
    (cp_outcome_positive c = true → policy_bar_met rules
        (ballot_count Approve (qs_ballots st)) (len (ss_participants session)))) as ->.
  { split.
    - intros Hx. destruct (Hx policy eq_refl) as (_ & rs & Hrs & ?).
      by replace rules with rs by congruence.
    - intros Hx p [= <-]. eauto. }
  unfold effective_threshold in Hn. rewrite Hp, Hrules in Hn. simpl in Hn.
  unfold policy_bar_met.
  destruct (effective _ _), (cp_outcome_positive c); simplify_eq; naive_solver lia.
Qed.

(** A positive commitment without its approvals. When the bound policy
    sets no threshold ([policy.default] is one such), the bar is the request's
    [required_approvals], which only the mode knows; and the mode accepts a
    commitment of either sign once that bar is out of reach. So a positive
    commitment is sealed exactly where the request has been defeated. *)
Theorem quorum_defeated_positive session env st c r policy rules :
  NoDup (ss_participants session) → len (ss_participants session) ≤ u32_max →
  quorum_inv session st → qs_request st = Some r →
  ss_policy_definition session = Some policy →
  policy_schema_version policy ∈ SUPPORTED_SCHEMA_VERSIONS →
  from_value (policy_rules policy) = Ok rules →
  effective (qpr_threshold rules) (len (ss_participants session)) = Inert →
  env_message_type env = "Commitment" →
  validate_commitment_payload_for_session session (env_payload env) = Ok c →
  cp_outcome_positive c = true →
  ballot_count Approve (qs_ballots st) + outstanding session st < arr_required_approvals r →
  Quorum.dispatch session env st = Ok (st, Some (env_payload env)).
Proof.
  intros Hnd Hlen Hi Hr Hp Hs%schema_supported_spec Hrules Hin Hty Hv Hpos Hout.
  assert (effective_threshold session r = ThresholdApprovals (arr_required_approvals r)) as Hn.
  { unfold effective_threshold. rewrite Hp, Hrules. simpl. by rewrite Hin. }
  apply (quorum_sealed_iff _ _ _ c Hty Hv). split.
  - apply (commitment_ready_num session st r (arr_required_approvals r)); auto.
  - intros p ?. simplify_eq. split; [done|]. exists rules. split; [done|].
    intros _. unfold policy_bar_met. by rewrite Hin.
Qed.
End quorum.
End rules.

From S2P Require Import Concrete.

(** ** Demonstrations *)
Module DecisionDemo.
Definition majority : DecisionPolicyRules :=
  MkDecisionPolicyRules (MkVotingRules "majority" f64_1 default_quorum_rules ∅)
    default_objection_handling default_evaluation_rules default_commitment_rules.
Definition unanimous : DecisionPolicyRules :=
  MkDecisionPolicyRules (MkVotingRules "unanimous" f64_half default_quorum_rules ∅)
    default_objection_handling default_evaluation_rules default_commitment_rules.
(** The rules are [unanimous] where the JSON says so, and [majority] elsewhere. *)
#[local] Instance decision_rules : FromValue DecisionPolicyRules :=
  λ v, Ok (match v with VString _ => unanimous | _ => majority end).
#[local] Instance proposal_rules : FromValue ProposalPolicyRules :=
  const_from_value default_proposal_rules.
#[local] Instance task_rules : FromValue TaskPolicyRules := const_from_value default_task_rules.
#[local] Instance handoff_rules : FromValue HandoffPolicyRules :=
  const_from_value default_handoff_rules.
#[local] Instance quorum_rules : FromValue QuorumPolicyRules :=
  const_from_value default_quorum_policy_rules.
#[local] Instance m_proposal : Message ProposalPayload := const_message None.
#[local] Instance m_evaluation : Message EvaluationPayload := const_message None.
#[local] Instance m_objection : Message ObjectionPayload := const_message None.
#[local] Instance m_vote : Message VotePayload := const_message None.
Definition declined : CommitmentPayload :=
  MkCommitmentPayload "c1" "decision.declined" "ship" "no" "" "" "" false None.
Definition selected : CommitmentPayload :=
  MkCommitmentPayload "c1" "decision.selected" "ship" "yes" "" "" "" true None.
#[local] Instance m_commitment : Message CommitmentPayload := {|
  decode b := Some (if is_empty b then declined else selected);
  encode_to_vec _ := [] |}.

Definition policy (v : Value) : PolicyDefinition := MkPolicyDefinition "p" "*" "" v 3.
Definition session (v : Value) : Session :=
  set_policy_definition (Some (policy v))
    (set_participants ["a"; "b"] (session_builder "s" "macp.mode.decision.v1" "lead")).
Definition state (b_votes : string) : DecisionState :=
  MkDecisionState {["p1" := MkProposal "p1" "ship" "" "a"]} [] []
    {["p1" := <["a" := MkVote "p1" "APPROVE" "" "a"]>
              {["b" := MkVote "p1" b_votes "" "b"]}]} PhVoting.
Definition committed (b_votes : string) : DecisionState :=
  MkDecisionState (ds_proposals (state b_votes)) [] [] (ds_votes (state b_votes)) PhCommitted.
Definition decline_env : Envelope := demo_env "Commitment" "m9" "lead" [].
Definition select_env : Envelope := demo_env "Commitment" "m9" "lead" [Byte.x00].

Lemma decision_decline_backed_witness :
  ∃ voter, on_record (ds_votes (state "REJECT")) voter "REJECT".
Proof.
  destruct (decision_decline_backed (session VNull) decline_env (state "REJECT")
    (committed "REJECT") [] declined (policy VNull) majority) as [(o & Ho & _)|(v & ? & _)];
    [by vm_compute|done..| |by exists v].
  by apply not_elem_of_nil in Ho.
Defined.

Lemma decision_unanimous_backed_witness : on_record (ds_votes (state "APPROVE")) "b" "APPROVE".
Proof.
  apply (decision_unanimous_backed (session (VString "")) select_env (state "APPROVE")
    (committed "APPROVE") [Byte.x00] selected (policy (VString "")) unanimous);
    [by vm_compute|done..|set_solver].
Defined.
End DecisionDemo.

Module QuorumDemo.
Import DecisionDemo.
#[local] Existing Instance DefaultPolicyEvaluator.
(** Two approvals where the JSON sets a threshold, none elsewhere. *)
Definition two_of : QuorumPolicyRules :=
  MkQuorumPolicyRules (MkQuorumThreshold "n_of_m" f64_2) default_abstention
    default_commitment_rules.
#[local] Instance decision_rules : FromValue DecisionPolicyRules :=
  const_from_value default_decision_rules.
#[local] Instance proposal_rules : FromValue ProposalPolicyRules :=
  const_from_value default_proposal_rules.
#[local] Instance task_rules : FromValue TaskPolicyRules := const_from_value default_task_rules.
#[local] Instance handoff_rules : FromValue HandoffPolicyRules :=
  const_from_value default_handoff_rules.
#[local] Instance quorum_rules : FromValue QuorumPolicyRules :=
  λ v, Ok (match v with VString _ => two_of | _ => default_quorum_policy_rules end).
#[local] Instance m_request : Message ApprovalRequestPayload := const_message None.
#[local] Instance m_approve : Message ApprovePayload := const_message None.
#[local] Instance m_reject : Message BallotRejectPayload := const_message None.
#[local] Instance m_abstain : Message AbstainPayload := const_message None.
Definition rejected : CommitmentPayload :=
  MkCommitmentPayload "c1" "quorum.rejected" "deploy" "no" "" "" "" false None.
Definition approved : CommitmentPayload :=
  MkCommitmentPayload "c1" "quorum.approved" "deploy" "yes" "" "" "" true None.
#[local] Instance m_commitment : Message CommitmentPayload := {|
  decode b := Some (if is_empty b then rejected else approved);
  encode_to_vec _ := [] |}.

Definition session (v : Value) : Session :=
  set_policy_definition (Some (policy v))
    (set_participants ["a"; "b"; "c"] (session_builder "s" "macp.mode.quorum.v1" "lead")).
Definition st : QuorumState := Quorum.Demo.rejected2.
Definition reject_env : Envelope := demo_env "Commitment" "m9" "lead" [].
Definition approve_env : Envelope := demo_env "Commitment" "m9" "lead" [Byte.x00].

Lemma rejected2_wf v : quorum_inv (session v) st.
Proof.
  constructor; [done| |].
  - intros r [= <-]. split_and!; [done..| |]; [by vm_compute|].
    unfold effective_threshold. simpl. by destruct v.
  - intros p b. unfold st, Quorum.Demo.rejected2; simpl.
    rewrite lookup_insert_Some, lookup_singleton_Some.
    intros [[<- <-]|[_ [<- <-]]]; (split_and!; [done|set_solver|by eexists]).
Qed.

(** All three could still not reach two approvals: the decline is sealed. *)
Lemma quorum_commitment_iff_witness :
  Quorum.dispatch (session (VString "")) reject_env st
  = Ok (st, Some []).
Proof.
  apply (quorum_commitment_iff (session (VString "")) reject_env st rejected
    Quorum.Demo.request 2 (policy (VString "")) two_of);
    [apply (bool_decide_unpack _); by vm_compute|by vm_compute|apply rejected2_wf|done
    |by vm_compute|done|set_solver|done|done|by vm_compute|].
  right. split; [by vm_compute|by left].
Defined.

(** Two of three rejected, two approvals required, none given: approved. *)
Lemma quorum_defeated_positive_witness :
  ballot_count Approve (qs_ballots st) = 0 ∧ cp_outcome_positive approved = true ∧
  Quorum.dispatch (session VNull) approve_env st
  = Ok (st, Some [Byte.x00]).
Proof.
  split; [by vm_compute|]. split; [done|].
  apply (quorum_defeated_positive (session VNull) approve_env st approved
    Quorum.Demo.request (policy VNull) default_quorum_policy_rules);
    [apply (bool_decide_unpack _); by vm_compute|by vm_compute|apply rejected2_wf|done
    |done|set_solver|done|by vm_compute|done|by vm_compute|done|by vm_compute].
Defined.
End QuorumDemo.
