(* ===== verification/Log.v ===== *)
(** * The session log (crates/macp-storage/src/log_store.rs, registry.rs)

    Log entries with the entries the runtime writes, the in-memory log store
    with the ordinals of accepted envelopes a subscriber sees, and the session
    snapshot that checkpoints carry. *)

From stdpp Require Import prelude gmap strings.
From S2P Require Import Prelude RustStr Floats Extern Error Policy Wire SessionData.
Open Scope Z_scope.

Inductive EntryKind := Incoming | Internal | Checkpoint.
#[export] Instance EntryKind_eq_dec : EqDecision EntryKind.
Proof. solve_decision. Defined.

Record LogEntry := MkLogEntry {
  le_message_id : string;
  le_received_at_ms : Z;
  le_sender : string;
  le_message_type : string;
  le_raw_payload : bytes;
  le_entry_kind : EntryKind;
  le_session_id : string;
  le_mode : string;
  le_macp_version : string;
  le_timestamp_unix_ms : Z;
  le_bound_mode_version : option string;
  le_semantics_rev : Z;
  le_bound_max_suspend_ms : option Z;
  le_compacted_incoming_ordinals : Z;
}.

(** ** The in-memory log store ([LogStore]) *)
Abbreviation LogStore := (gmap string (list LogEntry)).

Definition create_session_log (id : string) (logs : LogStore) : LogStore :=
  <[id := default [] (logs !! id)]> logs.
Definition log_append (id : string) (entry : LogEntry) (logs : LogStore) : LogStore :=
  <[id := default [] (logs !! id) ++ [entry]]> logs.
Definition get_log (id : string) (logs : LogStore) : option (list LogEntry) := logs !! id.
Definition remove_session_log (id : string) (logs : LogStore) : LogStore := delete id logs.
Definition replace_session_log (id : string) (entries : list LogEntry) (logs : LogStore)
    : LogStore := <[id := entries]> logs.

Definition is_kind (k : EntryKind) (e : LogEntry) : bool := le_entry_kind e == k.
Definition incoming (entries : list LogEntry) : list LogEntry :=
  List.filter (is_kind Incoming) entries.

(** The ordinals compaction discarded: [max().unwrap_or(0)] over the checkpoints. *)
Definition compaction_base (entries : list LogEntry) : Z :=
  foldr Z.max 0
    (le_compacted_incoming_ordinals <$> List.filter (is_kind Checkpoint) entries).

(** The loop of [get_incoming_after_with_high_water]. *)
Fixpoint number_after (after_sequence high_water : Z) (entries : list LogEntry)
    : list (Z * LogEntry) * Z :=
  match entries with
  | [] => ([], high_water)
  | e :: entries =>
      let high_water := high_water + 1 in
      let '(out, last) := number_after after_sequence high_water entries in
      (if high_water >? after_sequence then (high_water, e) :: out else out, last)
  end.

(** [Err base] when the range was discarded by compaction. *)
Definition get_incoming_after_with_high_water (id : string) (after_sequence : Z)
    (logs : LogStore) : result Z (list (Z * LogEntry) * Z) :=
  match logs !! id with
  | None => Ok ([], 0)
  | Some entries =>
      let base := compaction_base entries in
      if after_sequence <? base then Err base
      else Ok (number_after after_sequence base (incoming entries))
  end.

Definition get_incoming_after (id : string) (after_sequence : Z) (logs : LogStore)
    : result Z (list (Z * LogEntry)) :=
  out ← get_incoming_after_with_high_water id after_sequence logs; Ok (out.1).

(** ** Entries the runtime writes (src/runtime.rs) *)
Definition make_incoming_entry (env : Envelope) (received_at_ms : Z) : LogEntry := {|
  le_message_id := env_message_id env;
  le_received_at_ms := received_at_ms;
  le_sender := env_sender env;
  le_message_type := env_message_type env;
  le_raw_payload := env_payload env;
  le_entry_kind := Incoming;
  le_session_id := env_session_id env;
  le_mode := env_mode env;
  le_macp_version := env_macp_version env;
  le_timestamp_unix_ms := env_timestamp_unix_ms env;
  le_bound_mode_version := None;
  le_semantics_rev := 0;
  le_bound_max_suspend_ms := None;
  le_compacted_incoming_ordinals := 0 |}.

Definition make_internal_entry (message_type : string) (payload : bytes)
    (session_id mode : string) (at_ms : Z) : LogEntry := {|
  le_message_id := "";
  le_received_at_ms := at_ms;
  le_sender := "_runtime";
  le_message_type := message_type;
  le_raw_payload := payload;
  le_entry_kind := Internal;
  le_session_id := session_id;
  le_mode := mode;
  le_macp_version := MACP_VERSION;
  le_timestamp_unix_ms := at_ms;
  le_bound_mode_version := None;
  le_semantics_rev := 0;
  le_bound_max_suspend_ms := None;
  le_compacted_incoming_ordinals := 0 |}.

(** The SessionStart entry also records what acceptance bound. *)
Definition make_start_entry (env : Envelope) (received_at_ms : Z)
    (bound_mode_version : option string) (semantics_rev max_suspend_ms : Z) : LogEntry := {|
  le_message_id := env_message_id env;
  le_received_at_ms := received_at_ms;
  le_sender := env_sender env;
  le_message_type := env_message_type env;
  le_raw_payload := env_payload env;
  le_entry_kind := Incoming;
  le_session_id := env_session_id env;
  le_mode := env_mode env;
  le_macp_version := env_macp_version env;
  le_timestamp_unix_ms := env_timestamp_unix_ms env;
  le_bound_mode_version := bound_mode_version;
  le_semantics_rev := semantics_rev;
  le_bound_max_suspend_ms := Some max_suspend_ms;
  le_compacted_incoming_ordinals := 0 |}.

(** The entry [force_insert_checkpoint] and [compact_session_log] build. *)
Definition make_checkpoint_entry (raw_payload : bytes) (session_id mode : string)
    (now discarded : Z) : LogEntry := {|
  le_message_id := "";
  le_received_at_ms := now;
  le_sender := "_runtime";
  le_message_type := "Checkpoint";
  le_raw_payload := raw_payload;
  le_entry_kind := Checkpoint;
  le_session_id := session_id;
  le_mode := mode;
  le_macp_version := "";
  le_timestamp_unix_ms := now;
  le_bound_mode_version := None;
  le_semantics_rev := 0;
  le_bound_max_suspend_ms := None;
  le_compacted_incoming_ordinals := discarded |}.

(** The Envelope a subscriber sees ([envelope_from_log_entry]). *)
Definition envelope_from_log_entry (entry : LogEntry) : Envelope := {|
  env_macp_version :=
    if str_is_empty (le_macp_version entry) then MACP_VERSION else le_macp_version entry;
  env_mode := le_mode entry;
  env_message_type := le_message_type entry;
  env_message_id := le_message_id entry;
  env_session_id := le_session_id entry;
  env_sender := le_sender entry;
  env_timestamp_unix_ms :=
    if le_timestamp_unix_ms entry =? 0 then le_received_at_ms entry
    else le_timestamp_unix_ms entry;
  env_payload := le_raw_payload entry |}.

(** What a subscriber gets: accepted envelopes with their ordinals, and the
    high-water mark; [Err base] below the compaction base. *)
Definition subscribe_snapshot (id : string) (after_sequence : Z) (logs : LogStore)
    : result Z (list (Z * Envelope) * Z) :=
  match get_incoming_after_with_high_water id after_sequence logs with
  | Ok (entries, high_water) =>
      Ok ((λ oe : Z * LogEntry, (oe.1, envelope_from_log_entry oe.2)) <$> entries, high_water)
  | Err base => Err base
  end.
Definition get_session_envelopes_after (id : string) (after_sequence : Z) (logs : LogStore)
    : result Z (list Envelope) :=
  match subscribe_snapshot id after_sequence logs with
  | Ok (envelopes, _) => Ok envelopes.*2
  | Err base => Err base
  end.

(** ** Snapshots ([PersistedSession]) *)
Record PersistedRoot := MkPersistedRoot { pr_uri : string; pr_name : string }.

Record PersistedSession := MkPersistedSession {
  ps_schema_version : Z;
  ps_session_id : string;
  ps_state : SessionState;
  ps_ttl_expiry : Z;
  ps_ttl_ms : Z;
  ps_started_at_unix_ms : Z;
  ps_resolution : option bytes;
  ps_mode : string;
  ps_mode_state : bytes;
  ps_participants : list string;
  ps_seen_message_ids : list string;
  ps_intent : string;
  ps_mode_version : string;
  ps_configuration_version : string;
  ps_policy_version : string;
  ps_context_id : string;
  ps_extensions : gmap string bytes;
  ps_roots : list PersistedRoot;
  ps_initiator_sender : string;
  ps_policy_definition : option PolicyDefinition;
  ps_suspended_at_ms : option Z;
  ps_accumulated_suspended_ms : Z;
  ps_suspension_intervals : list (Z * Z);
  ps_semantics_rev : Z;
  ps_max_suspend_ms : Z;
}.

(** [From<&Session> for PersistedSession]; the order of the id set is the
    hash set's own. *)
Definition persist (s : Session) : PersistedSession := {|
  ps_schema_version := 2;
  ps_session_id := ss_session_id s;
  ps_state := ss_state s;
  ps_ttl_expiry := ss_ttl_expiry s;
  ps_ttl_ms := ss_ttl_ms s;
  ps_started_at_unix_ms := ss_started_at_unix_ms s;
  ps_resolution := ss_resolution s;
  ps_mode := ss_mode s;
  ps_mode_state := ss_mode_state s;
  ps_participants := ss_participants s;
  ps_seen_message_ids := elements (ss_seen_message_ids s);
  ps_intent := ss_intent s;
  ps_mode_version := ss_mode_version s;
  ps_configuration_version := ss_configuration_version s;
  ps_policy_version := ss_policy_version s;
  ps_context_id := ss_context_id s;
  ps_extensions := ss_extensions s;
  ps_roots := (λ root, MkPersistedRoot (root_uri root) (root_name root)) <$> ss_roots s;
  ps_initiator_sender := ss_initiator_sender s;
  ps_policy_definition := ss_policy_definition s;
  ps_suspended_at_ms := ss_suspended_at_ms s;
  ps_accumulated_suspended_ms := ss_accumulated_suspended_ms s;
  ps_suspension_intervals := ss_suspension_intervals s;
  ps_semantics_rev := ss_semantics_rev s;
  ps_max_suspend_ms := ss_max_suspend_ms s |}.

(** [From<PersistedSession> for Session]: the builder starts with no
    participant activity. *)
Definition unpersist (p : PersistedSession) : Session := {|
  ss_session_id := ps_session_id p;
  ss_state := ps_state p;
  ss_ttl_expiry := ps_ttl_expiry p;
  ss_ttl_ms :=
    if ps_ttl_ms p >? 0 then ps_ttl_ms p
    else saturating_sub (ps_ttl_expiry p) (ps_started_at_unix_ms p);
  ss_started_at_unix_ms := ps_started_at_unix_ms p;
  ss_resolution := ps_resolution p;
  ss_mode := ps_mode p;
  ss_mode_state := ps_mode_state p;
  ss_participants := ps_participants p;
  ss_seen_message_ids := list_to_set (ps_seen_message_ids p);
  ss_intent := ps_intent p;
  ss_mode_version := ps_mode_version p;
  ss_configuration_version := ps_configuration_version p;
  ss_policy_version := ps_policy_version p;
  ss_context_id := ps_context_id p;
  ss_extensions := ps_extensions p;
  ss_roots := (λ root, MkRoot (pr_uri root) (pr_name root)) <$> ps_roots p;
  ss_initiator_sender := ps_initiator_sender p;
  ss_participant_message_counts := ∅;
  ss_participant_last_seen := ∅;
  ss_policy_definition := ps_policy_definition p;
  ss_suspended_at_ms := ps_suspended_at_ms p;
  ss_accumulated_suspended_ms := ps_accumulated_suspended_ms p;
  ss_suspension_intervals := ps_suspension_intervals p;
  ss_semantics_rev := ps_semantics_rev p;
  ss_max_suspend_ms := ps_max_suspend_ms p |}.

(** The part of a session its log determines: all but participant activity. *)
Definition core (s : Session) : Session :=
  set_participant_message_counts ∅ (set_participant_last_seen ∅ s).

Lemma unpersist_persist s : 0 < ss_ttl_ms s → unpersist (persist s) = core s.
Proof.
  intros Httl. destruct s. unfold unpersist, persist, core,
    set_participant_message_counts, set_participant_last_seen. simpl in *.
  rewrite (proj2 (Z.gtb_lt _ _) Httl), list_to_set_elements_L, <- list_fmap_compose.
  f_equal. rewrite <- (list_fmap_id ss_roots) at 2. apply list_fmap_ext. by intros ? [].
Qed.

(** ** Ordinals *)
Lemma imap_shift {A} (b : Z) (l : list A) :
  imap ((λ i e, (b + Z.of_nat i, e)) ∘ S) l = imap (λ i e, (b + 1 + Z.of_nat i, e)) l.
Proof. apply imap_ext. intros i x _. simpl. f_equal. lia. Qed.

Lemma number_all after base l :
  after ≤ base →
  number_after after base l = (imap (λ i e, (base + 1 + Z.of_nat i, e)) l, base + len l).
Proof.
  revert base. induction l as [|e l IH]; intros base Hb; simpl; [f_equal; unfold len; simpl; lia|].
  rewrite IH, imap_shift, len_cons, (proj2 (Z.gtb_lt _ _)), Z.add_0_r by lia. f_equal. lia.
Qed.

(** The ordinals past [after] are those of the entries past it. *)
Lemma number_after_drop after base l :
  base ≤ after → number_after after base l
  = (imap (λ i e, (after + 1 + Z.of_nat i, e)) (drop (Z.to_nat (after - base)) l), base + len l).
Proof.
  revert base. induction l as [|e l IH]; intros base Hb.
  { simpl. rewrite drop_nil. f_equal. unfold len. simpl. lia. }
  destruct (decide (base = after)) as [->|Hne]; [rewrite Z.sub_diag; by apply number_all|].
  simpl. rewrite IH, (proj2 (gtb_false _ _)), len_cons by lia. f_equal; [|lia].
  by replace (Z.to_nat (after - base)) with (S (Z.to_nat (after - (base + 1)))) by lia.
Qed.

Lemma is_kind_other k k' e : is_kind k e = true → k ≠ k' → is_kind k' e = false.
Proof. unfold is_kind. intros ->%bool_decide_eq_true Hk. by apply bool_decide_eq_false. Qed.

Lemma incoming_app l k : incoming (l ++ k) = incoming l ++ incoming k.
Proof. apply List.filter_app. Qed.

Lemma compaction_base_app l e :
  is_kind Checkpoint e = false → compaction_base (l ++ [e]) = compaction_base l.
Proof.
  intros He. unfold compaction_base. rewrite List.filter_app. simpl. rewrite He.
  by rewrite app_nil_r.
Qed.

Lemma compaction_base_nonneg l : 0 ≤ compaction_base l.
Proof. unfold compaction_base. induction (_ <$> _); simpl; lia. Qed.

(** The accepted envelopes of a session so far. *)
Definition high_water (entries : list LogEntry) : Z :=
  compaction_base entries + len (incoming entries).

Lemma imap_ordinals {A} b (l : list A) :
  (imap (λ i e, (b + Z.of_nat i, e)) l).*1 = seqZ b (len l) ∧
  (imap (λ i e, (b + Z.of_nat i, e)) l).*2 = l.
Proof.
  revert b. induction l as [|e l IH]; intros b; [done|].
  rewrite imap_cons, imap_shift, !fmap_cons, len_cons. destruct (IH (b + 1)) as [-> ->].
  rewrite (seqZ_cons b (1 + len l)) by (pose proof (len_nonneg l); lia).
  split; [|done]. cbn [fst]. f_equal; [lia|]. f_equal; lia.
Qed.

(** C18. Ordinals are dense and stable. A subscriber who has seen the accepted
    envelopes up to [after] gets the rest in order under the consecutive
    ordinals [after + 1 .. high_water]; a newly accepted envelope gets the
    next ordinal and moves none of the others, and the runtime's own entries
    take none; and once the log is compacted, a subscriber who missed part of
    it is told so rather than given other ordinals. *)
Theorem ordinals_dense id after logs l :
  logs !! id = Some l → compaction_base l ≤ after ≤ high_water l →
  ∃ out, get_incoming_after_with_high_water id after logs = Ok (out, high_water l) ∧
    out.*1 = seqZ (after + 1) (high_water l - after) ∧
    out.*2 = drop (Z.to_nat (after - compaction_base l)) (incoming l) ∧
    (∀ e, is_kind Incoming e = true →
       get_incoming_after_with_high_water id after (log_append id e logs)
       = Ok (out ++ [(high_water l + 1, e)], high_water l + 1)) ∧
    (∀ e, is_kind Internal e = true →
       get_incoming_after_with_high_water id after (log_append id e logs)
       = Ok (out, high_water l)) ∧
    (∀ payload mode now,
       let c := make_checkpoint_entry payload id mode now (high_water l) in
       get_incoming_after_with_high_water id after (replace_session_log id [c] logs)
       = if after <? high_water l then Err (high_water l) else Ok ([], high_water l)).
Proof.
  intros Hl [Hb Hh]. pose proof (compaction_base_nonneg l) as Hn.
  unfold get_incoming_after_with_high_water, log_append, replace_session_log.
  rewrite Hl, (proj2 (Z.ltb_ge _ _)) by done.
  set (k := Z.to_nat (after - compaction_base l)).
  assert (k ≤ length (incoming l))%nat as Hk.
  { unfold k, high_water, len in *. lia. }
  assert (len (drop k (incoming l)) = high_water l - after) as Hlen.
  { unfold len, high_water in *. rewrite length_drop. unfold k, len in *. lia. }
  rewrite number_after_drop by done. fold k.
  eexists. split; [done|]. destruct (imap_ordinals (after + 1) (drop k (incoming l))) as [E1 E2].
  rewrite E1, E2, Hlen. split; [done|]. split; [done|].
  split; [intros e H|split; [intros e H|intros payload mode now]].
  - rewrite lookup_insert_eq. simpl.
    rewrite compaction_base_app, (proj2 (Z.ltb_ge _ _)), number_after_drop, incoming_app
      by (done || by eapply is_kind_other).
    assert (incoming [e] = [e]) as -> by (unfold incoming; simpl; by rewrite H).
    rewrite drop_app_le, imap_app, len_app by done. f_equal. f_equal; 
      [|unfold high_water, len; simpl; lia].
    f_equal. simpl. f_equal. f_equal. fold k. unfold len in Hlen. lia.
  - rewrite lookup_insert_eq. simpl.
    rewrite compaction_base_app, (proj2 (Z.ltb_ge _ _)), number_after_drop, incoming_app
      by (done || by eapply is_kind_other).
    assert (incoming [e] = []) as -> by (unfold incoming; simpl; by rewrite (is_kind_other Internal)).
    by rewrite app_nil_r.
  - rewrite lookup_insert_eq. set (c := make_checkpoint_entry _ _ _ _ _).
    assert (compaction_base [c] = high_water l) as ->.
    { unfold compaction_base. simpl. pose proof (len_nonneg (incoming l)).
      unfold high_water. lia. }
    done.
Qed.

(** A snapshot keeps the session. Writing a session as a snapshot and
    reading it back gives the session without its participant activity, its
    dedup set, roots, policy and suspension history included, whenever its TTL
    is positive (as for every accepted session); so two sessions with the same
    snapshot differ in nothing but activity, and writing what was read gives
    the snapshot again. *)
Theorem snapshot_roundtrip s :
  0 < ss_ttl_ms s →
  unpersist (persist s) = core s ∧ persist (unpersist (persist s)) = persist s ∧
  (∀ s', persist s' = persist s → core s' = core s).
Proof.
  intros Httl. rewrite unpersist_persist by done. split_and!; [done|done|].
  intros s' E. rewrite <- (unpersist_persist s), <- E, unpersist_persist; [done| |done].
  assert (ps_ttl_ms (persist s') = ps_ttl_ms (persist s)) as Et by congruence.
  simpl in Et. lia.
Qed.

Module Demo.
Definition session : Session :=
  set_participant_message_counts {["alice" := 2]}
    (set_ttl_ms 60000 (session_builder "s" "m" "alice")).
Lemma snapshot_roundtrip_witness :
  unpersist (persist session) = set_ttl_ms 60000 (session_builder "s" "m" "alice").
Proof. destruct (snapshot_roundtrip session) as [E _]; [done|exact E]. Defined.

Definition note (id : string) : LogEntry :=
  make_incoming_entry (MkEnvelope "1.0" "m" "Note" id "s" "alice" 1000 []) 1000.
Definition entries : list LogEntry :=
  [note "a"; make_internal_entry "SessionSuspend" [] "s" "m" 1500; note "b"].
Lemma ordinals_dense_witness :
  get_incoming_after_with_high_water "s" 1 {["s" := entries]} = Ok ([(2, note "b")], 2).
Proof.
  destruct (ordinals_dense "s" 1 {["s" := entries]} entries)
    as (out & E & E1 & E2 & _); [done|by vm_compute|].
  rewrite E. destruct out as [|[n e] [|]]; try discriminate E1.
  injection E1 as ->. injection E2 as ->. reflexivity.
Defined.
End Demo.
