(* ===== verification/LogReplay.v ===== *)
(** * Replay of the server's log (src/replay.rs)

    From log entries to the library's replay: a recorded envelope for each
    accepted entry, an event for each runtime entry, the start's recorded
    bindings, and the fast path from the last checkpoint. The replay/snapshot
    divergence check is with the library replay. *)

From stdpp Require Import prelude gmap strings.
From S2P Require Import Prelude RustStr Floats Extern Error Policy Wire SessionData.
From S2P Require Import Session SessionStart CommitmentHash ModeApi Step Replay Live Log.
Open Scope Z_scope.

(** What the server asks of the mode registry. *)
Class ModeSource := {
  get_mode : string → option Mode;
  requires_strict : string → bool;
  get_mode_version : string → option string;
}.

(** The policy registry's [resolve], [None] for an unknown policy. *)
Abbreviation PolicySource := (string → option PolicyDefinition).
Definition DEFAULT_POLICY_ID : string := "policy.default".

Definition recorded_at (entry : LogEntry) : Z :=
  if le_received_at_ms entry =? 0 then le_timestamp_unix_ms entry else le_received_at_ms entry.

Definition recorded_envelope (entry : LogEntry) (session_id session_mode : string)
    : Envelope := {|
  env_macp_version :=
    if str_is_empty (le_macp_version entry) then MACP_VERSION else le_macp_version entry;
  env_mode := if str_is_empty (le_mode entry) then session_mode else le_mode entry;
  env_message_type := le_message_type entry;
  env_message_id := le_message_id entry;
  env_session_id := session_id;
  env_sender := le_sender entry;
  env_timestamp_unix_ms :=
    if le_timestamp_unix_ms entry =? 0 then le_received_at_ms entry
    else le_timestamp_unix_ms entry;
  env_payload := le_raw_payload entry |}.

Definition replay_event (session_mode session_id : string) (entry : LogEntry)
    : option ReplayEvent :=
  match le_entry_kind entry with
  | Incoming =>
      Some (REMessage (recorded_envelope entry session_id session_mode) (recorded_at entry))
  | Internal =>
      let mt := le_message_type entry in
      if mt == "TtlExpired" then Some REExpired
      else if mt == "SessionCancel" then Some RECancelled
      else if mt == "SessionSuspend" then Some (RESuspended (recorded_at entry))
      else if mt == "SessionResume" then Some (REResumed (recorded_at entry))
      else None
  | Checkpoint => None
  end.

Definition log_replay_options : ReplayOptions :=
  with_credit_participant_activity false default_replay_options.

Definition replay_entry (session_id : string) (entry : LogEntry) (mode : Mode)
    : stm Session MacpError unit := λ session,
  match replay_event (ss_mode session) session_id entry with
  | Some event => apply_event event mode log_replay_options session
  | None => (session, Ok ())
  end.

(** The [for] loops over the entries. *)
Fixpoint replay_entries (session_id : string) (entries : list LogEntry) (mode : Mode)
    (session : Session) : result MacpError Session :=
  match entries with
  | [] => Ok session
  | e :: entries =>
      match replay_entry session_id e mode session with
      | (session, Ok ()) => replay_entries session_id entries mode session
      | (_, Err err) => Err err
      end
  end.

(** [position]: the first entry that is a SessionStart. *)
Definition is_start_entry (e : LogEntry) : bool :=
  is_kind Incoming e && (le_message_type e == "SessionStart").

(** [rposition] of the checkpoints: the last one and what follows it. *)
Fixpoint last_checkpoint (entries : list LogEntry) : option (LogEntry * list LogEntry) :=
  match entries with
  | [] => None
  | e :: rest =>
      match last_checkpoint rest with
      | Some found => Some found
      | None => if is_kind Checkpoint e then Some (e, rest) else None
      end
  end.

Section log_replay.
Context `{Message SessionStartPayload} `{Serde PersistedSession} {source : ModeSource}.

Definition recorded_start (session_id : string) (log_entries : list LogEntry)
    : result MacpError (LogEntry * RecordedStart * Mode) :=
  start_entry ← ok_or (List.find is_start_entry log_entries) InvalidPayload;
  if str_is_empty (le_mode start_entry) then Err InvalidPayload
  else
    mode ← ok_or (get_mode (le_mode start_entry)) UnknownMode;
    Ok (start_entry,
        recorded_with_strict (requires_strict (le_mode start_entry))
          (with_bound_mode_version (le_bound_mode_version start_entry)
            (with_max_suspend_ms (default 0 (le_bound_max_suspend_ms start_entry))
              (with_semantics_rev (le_semantics_rev start_entry)
                (recorded_start_new
                   (recorded_envelope start_entry session_id (le_mode start_entry))
                   (le_received_at_ms start_entry))))),
        mode).

(** The id the full replay resolves the policy by. *)
Definition requested_policy (start_entry : LogEntry) : string :=
  let requested :=
    match parse_session_start_payload (le_raw_payload start_entry) with
    | Ok p => sp_policy_version p
    | Err _ => ""
    end in
  if str_is_empty requested then DEFAULT_POLICY_ID else requested.

Definition replay_from_start (session_id : string) (log_entries : list LogEntry)
    (policy_registry : option PolicySource) : result MacpError Session :=
  found ← recorded_start session_id log_entries;
  let '(start_entry, start, mode) := found in
  let policy := policy_registry ≫= λ resolve, resolve (requested_policy start_entry) in
  session ← replay_start (with_policy policy start) mode;
  replay_entries session_id (tail log_entries) mode session.

Definition try_replay_from_checkpoint (session_id : string) (log_entries : list LogEntry)
    : result MacpError (option Session) :=
  match last_checkpoint log_entries with
  | None => Ok None
  | Some (checkpoint, rest) =>
      persisted ← ok_or (from_slice (S:=PersistedSession) (le_raw_payload checkpoint))
                    InvalidPayload;
      let session := set_session_id session_id (unpersist persisted) in
      if negb (str_is_empty (ss_policy_version session))
         && bool_decide (ss_policy_definition session = None)
      then Ok None
      else
        mode ← ok_or (get_mode (ss_mode session)) UnknownMode;
        session ← replay_entries session_id rest mode session;
        Ok (Some session)
  end.

Definition log_replay_session (session_id : string) (log_entries : list LogEntry)
    (policy_registry : option PolicySource) : result MacpError Session :=
  fast ← try_replay_from_checkpoint session_id log_entries;
  match fast with
  | Some session => Ok session
  | None => replay_from_start session_id log_entries policy_registry
  end.
End log_replay.
