(* ===== verification/PolicyRegistry.v ===== *)
(** * The policy registry (crates/macp-policy/src/registry.rs, defaults.rs)

    The built-in policies, the admission checks a definition passes before it
    is registered, registration and lookup, and loading a directory of policy
    files with its dry run. Reading files and parsing JSON are outside: a
    directory is the list of its files with what reading and parsing each one
    gave. *)

From Stdlib Require Import SpecFloat.
From stdpp Require Import prelude gmap strings sorting.
From S2P Require Import Prelude RustStr Floats Extern PolicyKeys Error Policy Evaluator LogReplay.
Open Scope Z_scope.

(** ** Built-in policies *)
Definition default_policy : PolicyDefinition := MkPolicyDefinition
  "policy.default" "*"
  "Default policy — mode built-in rules apply with no additional governance constraints"
  (VObject
    [("commitment", VObject [("authority", VString "initiator_only");
        ("designated_roles", VArray []); ("require_vote_quorum", VBool false)]);
     ("evaluation", VObject [("minimum_confidence", VFloat f64_0);
        ("required_before_voting", VBool false)]);
     ("objection_handling", VObject [("critical_severity_vetoes", VBool false);
        ("veto_threshold", VUint 1)]);
     ("voting", VObject [("algorithm", VString "none");
        ("quorum", VObject [("type", VString "count"); ("value", VUint 0)])])])
  1.

Definition STD_POLICY_PREFIX : string := "policy.std.".
Definition STD_MAJORITY_POLICY_ID : string := "policy.std.majority".
Definition STD_SUPERMAJORITY_POLICY_ID : string := "policy.std.supermajority".
Definition STD_UNANIMOUS_POLICY_ID : string := "policy.std.unanimous".

Definition std_majority_policy : PolicyDefinition := MkPolicyDefinition
  STD_MAJORITY_POLICY_ID "macp.mode.decision.v1"
  "Simple majority — at least half of the decisive votes approve"
  (VObject
    [("commitment", VObject [("require_vote_quorum", VBool true)]);
     ("voting", VObject [("algorithm", VString "majority");
        ("quorum", VObject [("type", VString "count"); ("value", VUint 1)]);
        ("threshold", VFloat f64_half)])])
  1.

(** The binary64 value nearest 0.666_666_666_666_666_6. *)
Definition f64_two_thirds : f64 := S754_finite false 6004799503160661 (-53).
Definition std_supermajority_policy : PolicyDefinition := MkPolicyDefinition
  STD_SUPERMAJORITY_POLICY_ID "macp.mode.decision.v1"
  "Two-thirds supermajority with a minimum of two voters"
  (VObject
    [("commitment", VObject [("require_vote_quorum", VBool true)]);
     ("voting", VObject [("algorithm", VString "supermajority");
        ("quorum", VObject [("type", VString "count"); ("value", VUint 2)]);
        ("threshold", VFloat f64_two_thirds)])])
  1.

Definition std_unanimous_policy : PolicyDefinition := MkPolicyDefinition
  STD_UNANIMOUS_POLICY_ID "macp.mode.decision.v1"
  "Unanimous — every declared participant approves and no reject is cast"
  (VObject
    [("commitment", VObject [("require_vote_quorum", VBool true)]);
     ("voting", VObject [("algorithm", VString "unanimous");
        ("quorum", VObject [("type", VString "count"); ("value", VUint 1)])])])
  1.

Definition std_policies : list PolicyDefinition :=
  [std_majority_policy; std_supermajority_policy; std_unanimous_policy].
Definition canonical_std_policy (id : string) : option PolicyDefinition :=
  if id == STD_MAJORITY_POLICY_ID then Some std_majority_policy
  else if id == STD_SUPERMAJORITY_POLICY_ID then Some std_supermajority_policy
  else if id == STD_UNANIMOUS_POLICY_ID then Some std_unanimous_policy
  else None.

(** ** Value domains *)
Definition DECISION_VOTING_ALGORITHMS : list string :=
  ["none"; "majority"; "supermajority"; "unanimous"; "weighted"; "plurality"].
Definition DECISION_VOTING_QUORUM_TYPES : list string := ["count"; "percentage"].
Definition QUORUM_THRESHOLD_TYPES : list string := ["n_of_m"; "percentage"; "count"].
Definition COMMITMENT_AUTHORITIES : list string :=
  ["initiator_only"; "any_participant"; "designated_role"].
Definition PROPOSAL_ACCEPTANCE_CRITERIA : list string :=
  ["all_parties"; "counterparty"; "initiator"].
Definition QUORUM_ABSTENTION_INTERPRETATIONS : list string :=
  ["neutral"; "implicit_reject"; "ignored"].

Definition UNIT_ENUM_POSITIONS : list (string * string) :=
  [("macp.mode.decision.v1", "voting.algorithm");
   ("macp.mode.decision.v1", "voting.quorum.type");
   ("macp.mode.decision.v1", "objection_handling.critical_objection_action");
   ("macp.mode.decision.v1", "commitment.authority");
   ("macp.mode.proposal.v1", "acceptance.criterion");
   ("macp.mode.proposal.v1", "commitment.authority");
   ("macp.mode.task.v1", "commitment.authority");
   ("macp.mode.handoff.v1", "commitment.authority");
   ("macp.mode.quorum.v1", "threshold.type");
   ("macp.mode.quorum.v1", "abstention.interpretation");
   ("macp.mode.quorum.v1", "commitment.authority")].

Definition STANDARDS_TRACK_POLICY_MODES : list string :=
  ["macp.mode.decision.v1"; "macp.mode.proposal.v1"; "macp.mode.task.v1";
   "macp.mode.handoff.v1"; "macp.mode.quorum.v1"].

(** [join]. *)
Fixpoint join (sep : string) (l : list string) : string :=
  match l with
  | [] => ""
  | [x] => x
  | x :: l => x +:+ sep +:+ join sep l
  end.

(** The refusal of a definition, which leads with its code. *)
Definition INVALID : frag := Lit "INVALID_POLICY_DEFINITION: ".
Definition invalid {A} (reason : text) : result text A := Err (INVALID :: reason).

Definition json_kind (value : Value) : string :=
  match value with
  | VNull => "null"
  | VBool _ => "a boolean"
  | VUint _ | VInt _ | VFloat _ => "a number"
  | VString _ => "a string"
  | VArray _ => "an array"
  | VObject _ => "an object"
  end.

(** [Value::as_f64]. *)
Definition as_f64 (v : Value) : option f64 :=
  match v with
  | VUint n | VInt n => Some (f64_of_Z n)
  | VFloat x => Some x
  | _ => None
  end.

(** ** Reading what is present in the rules *)

(** The loop of [present_at]; [seen] are the segments walked so far. *)
Fixpoint present_walk (node : Value) (seen path : list string) : result text (option Value) :=
  match path with
  | [] => Ok (Some node)
  | segment :: path =>
      match node with
      | VObject map =>
          match value_get segment (VObject map) with
          | Some child => present_walk child (seen ++ [segment]) path
          | None => Ok None
          end
      | _ =>
          invalid [Lit "rules."; Lit (join "." seen); Lit " must be a JSON object, not ";
                   Lit (json_kind node)]
      end
  end.
Definition present_at (rules : Value) (path : list string) : result text (option Value) :=
  present_walk rules [] path.

Definition present_object (rules : Value) (path : list string)
    : result text (option (list (string * Value))) :=
  v ← present_at rules path;
  match v with
  | None => Ok None
  | Some (VObject map) => Ok (Some map)
  | Some v =>
      invalid [Lit "rules."; Lit (join "." path); Lit " must be a JSON object, not ";
               Lit (json_kind v)]
  end.

Definition present_number (rules : Value) (path : list string) : result text (option f64) :=
  v ← present_at rules path;
  match v with
  | None => Ok None
  | Some v =>
      match as_f64 v with
      | Some x => Ok (Some x)
      | None =>
          invalid [Lit "rules."; Lit (join "." path); Lit " must be a number, not ";
                   Lit (json_kind v)]
      end
  end.

(** ** The shape of the rules *)

(** [walk_rule_shapes]; like the key walk, each entry's report is computed as
    the entries come and the first in key order is returned. *)
Fixpoint walk_rule_shapes (value : Value) (shapes : list RuleShape) (path : string)
    (enums : list string) : option text :=
  let shown := if str_is_empty path then [Lit "rules"] else [Lit "rules."; Lit path] in
  let object_position :=
    negb (is_empty shapes)
    && forallb (λ s, match s with Leaf => false | _ => true end) shapes in
  if negb object_position then
    if str_elem path enums && negb (match value with VString _ => true | _ => false end) then
      Some (shown ++ [Lit " must be a string (a value of the schema's enum), not ";
                      Lit (json_kind value)])
    else None
  else
    match value with
    | VObject map =>
        let closed := closed_keys shapes in
        first_by_key
          ((fix reports (map : list (string * Value)) : list (string * option text) :=
              match map with
              | [] => []
              | (key, v) :: map =>
                  (key,
                   let kids := children closed key in
                   if is_empty kids then None
                   else walk_rule_shapes v kids (child_path path key) enums)
                  :: reports map
              end) map)
    | _ => Some (shown ++ [Lit " must be a JSON object, not "; Lit (json_kind value)])
    end.

Definition rule_shape_violation (mode : string) (rules : Value) : option text :=
  match rule_shape_for_mode mode with
  | None => None
  | Some shapes =>
      let enums :=
        (List.filter (λ mp, (mode == "*") || (mp.1 == mode)) UNIT_ENUM_POSITIONS).*2 in
      walk_rule_shapes rules shapes "" enums
  end.

(** ** The registry *)
Record PolicyRegistry := MkPolicyRegistry {
  reg_entries : gmap string PolicyDefinition;
  (** How many times [change_tx] was sent on. *)
  reg_changes : Z;
  reg_rule_extensions : gmap string RuleExtension;
}.

Definition builtin_policies : list PolicyDefinition := default_policy :: std_policies.
Definition registry_new : PolicyRegistry := MkPolicyRegistry
  (foldl (λ m p, <[policy_id p := p]> m) ∅ builtin_policies) 0 ∅.

Definition set_entries (f : gmap string PolicyDefinition → gmap string PolicyDefinition)
    (r : PolicyRegistry) : PolicyRegistry :=
  MkPolicyRegistry (f (reg_entries r)) (reg_changes r) (reg_rule_extensions r).
Definition notify_change (r : PolicyRegistry) : PolicyRegistry :=
  MkPolicyRegistry (reg_entries r) (reg_changes r + 1) (reg_rule_extensions r).
Definition set_rule_extensions (m : gmap string RuleExtension) (r : PolicyRegistry)
    : PolicyRegistry := MkPolicyRegistry (reg_entries r) (reg_changes r) m.

Fixpoint with_rule_extensions (self : PolicyRegistry)
    (extensions : list (string * RuleExtension)) : result text PolicyRegistry :=
  match extensions with
  | [] => Ok self
  | (key, extension) :: extensions =>
      if negb (is_vendor_extension_key key) then
        Err [Lit "rule extension key '"; Lit key; Lit "' does not match ";
             Lit VENDOR_EXTENSION_KEY_PATTERN]
      else if bool_decide (is_Some (reg_rule_extensions self !! key)) then
        Err [Lit "rule extension key '"; Lit key; Lit "' supplied twice"]
      else
        with_rule_extensions
          (set_rule_extensions (<[key := extension]> (reg_rule_extensions self)) self)
          extensions
  end.

Definition rule_extension_names (self : PolicyRegistry) : list string :=
  bt_keys (reg_rule_extensions self).

Definition scratch (self : PolicyRegistry) : PolicyRegistry :=
  set_rule_extensions (reg_rule_extensions self) registry_new.

(** [PolicyError]. *)
Inductive PolicyError :=
| UnknownPolicy (id : string)
| InvalidDefinition (message : string)
| PolicyErrorDenied (reason : string).

Definition get (self : PolicyRegistry) (policy_id : string) : option PolicyDefinition :=
  reg_entries self !! policy_id.

Definition resolve (self : PolicyRegistry) (policy_version : string)
    : result PolicyError PolicyDefinition :=
  if str_is_empty policy_version then
    ok_or (get self DEFAULT_POLICY_ID) (UnknownPolicy DEFAULT_POLICY_ID)
  else ok_or (get self policy_version) (UnknownPolicy policy_version).

Definition policy_le (a b : PolicyDefinition) : Prop := String.le (policy_id a) (policy_id b).
#[export] Instance policy_le_dec : RelDecision policy_le.
Proof. intros x y. unfold policy_le. apply _. Defined.
Definition list_policies (self : PolicyRegistry) (mode_filter : option string)
    : list PolicyDefinition :=
  merge_sort policy_le (List.filter (λ p,
    match mode_filter with
    | Some mode => (policy_mode p == mode) || (policy_mode p == "*")
    | None => true
    end) (bt_values (reg_entries self))).

(** ** Admission *)

(** [{:?}] of a list of strings. *)
Definition debug_strings (l : list string) : text :=
  Lit "[" :: (match l with
              | [] => []
              | x :: l => FDebug x :: concat ((λ y, [Lit ", "; FDebug y]) <$> l)
              end) ++ [Lit "]"].

Definition rule_at (key : string) (rules : Value) : Value :=
  default VNull (value_get key rules).

(** The loop of [validate_rule_keys] over the vendor keys. *)
Fixpoint validate_extensions (self : PolicyRegistry) (rules : Value) (keys : list string)
    : result text unit :=
  match keys with
  | [] => Ok ()
  | key :: keys =>
      match reg_rule_extensions self !! key with
      | None =>
          invalid (show_violation (Undefined key)
            ++ [Lit "; this runtime implements no vendor extension '"; Lit key;
                Lit "' (implemented: "]
            ++ debug_strings (rule_extension_names self) ++ [Lit ")"])
      | Some extension =>
          match extension (rule_at key rules) with
          | Err reason =>
              invalid [Lit "rules."; Lit key; Lit " rejected by its extension: "; Lit reason]
          | Ok _ => validate_extensions self rules keys
          end
      end
  end.

Definition validate_rule_keys (self : PolicyRegistry) (mode : string) (rules : Value)
    : result text unit :=
  match rule_shape_for_mode mode with
  | None => Ok ()
  | Some shapes =>
      match closed_key_violation rules shapes with
      | Some violation => invalid (show_violation violation)
      | None => validate_extensions self rules (vendor_extension_keys rules)
      end
  end.

Definition validate_decision_voting (voting : VotingRules) : result text unit :=
  let negative :=
    (List.filter (λ pw, f64_le pw.2 f64_0 || is_nan pw.2) (bt_entries (vr_weights voting))).*1 in
  let quorum := vr_quorum voting in
  if negb (str_elem (vr_algorithm voting) DECISION_VOTING_ALGORITHMS) then
    invalid [Lit "voting.algorithm '"; Lit (vr_algorithm voting); Lit "' is not one of: ";
             Lit (join ", " DECISION_VOTING_ALGORITHMS)]
  else if negb (f64_gt (vr_threshold voting) f64_0 && f64_le (vr_threshold voting) f64_1) then
    invalid [Lit "voting.threshold "; FF64 (vr_threshold voting);
             Lit " is out of range: must be greater than 0.0 and at most 1.0"]
  else if negb (is_empty negative) then
    invalid [Lit "voting.weights has non-positive values for: ";
             Lit (join ", " ((λ k, "'" +:+ k +:+ "'") <$> negative));
             Lit " — every weight must be > 0"]
  else if negb (str_elem (qr_type quorum) DECISION_VOTING_QUORUM_TYPES) then
    invalid [Lit "voting.quorum.type '"; Lit (qr_type quorum); Lit "' is not one of: ";
             Lit (join ", " DECISION_VOTING_QUORUM_TYPES)]
  else if f64_lt (qr_value quorum) f64_0 || is_nan (qr_value quorum) then
    invalid [Lit "voting.quorum.value "; FF64 (qr_value quorum);
             Lit " is out of range: must be >= 0"]
  else Ok ().

Definition validate_quorum_threshold (threshold : QuorumThreshold) : result text unit :=
  let kind := qt_type threshold in
  if negb (str_elem kind QUORUM_THRESHOLD_TYPES) then
    invalid [Lit "threshold.type '"; Lit kind; Lit "' is not one of: ";
             Lit (join ", " QUORUM_THRESHOLD_TYPES)]
  else if negb (fract_is_zero (qt_value threshold)) then
    invalid [Lit "threshold.value "; FF64 (qt_value threshold); Lit " must be an integer"]
  else if (kind == "percentage") && f64_gt (qt_value threshold) f64_100 then
    invalid [Lit "threshold.value "; FF64 (qt_value threshold);
             Lit " is out of range: must be <= 100 when threshold.type is 'percentage'"]
  else Ok ().

(** ** Policy directories *)

(** A directory entry: its file name, the path as displayed, and what reading
    the file gives. *)
Record PolicyFile := MkPolicyFile {
  pf_name : string;
  pf_path : string;
  pf_read : result string string;
}.
(** [read_dir]: the entries as they are enumerated, each possibly an error. *)
Abbreviation Directory := (result string (list (result string PolicyFile))).

Definition has_json_extension (f : PolicyFile) : bool :=
  ends_with ".json" (pf_name f) && (pf_name f != ".json").
Definition file_le (a b : PolicyFile) : Prop := String.le (pf_name a) (pf_name b).
#[export] Instance file_le_dec : RelDecision file_le.
Proof. intros x y. unfold file_le. apply _. Defined.

Definition policy_files_in (shown : string) (dir : Directory) : result text (list PolicyFile) :=
  match dir with
  | Err e => Err [Lit "cannot read policies dir "; Lit shown; Lit ": "; FDebug e]
  | Ok listing =>
      Ok (merge_sort file_le (List.filter has_json_extension
        (omap (λ r, match r with Ok f => Some f | Err _ => None end) listing)))
  end.

(** [serde_json::to_value] at [T], and [serde_json::from_str] of a policy
    document; the errors are their messages. *)
Class ToValue (T : Type) := to_value : T → result string Value.
Class PolicyDocuments := policy_from_str : string → result string PolicyDefinition.

(** [matches!(mode, m | "*")]. *)
Definition mode_or_wildcard (m mode : string) : bool := (mode == m) || (mode == "*").

Section registry.
Context `{FromValue DecisionPolicyRules} `{FromValue ProposalPolicyRules}.
Context `{FromValue TaskPolicyRules} `{FromValue HandoffPolicyRules}.
Context `{FromValue QuorumPolicyRules} `{FromValue CommitmentRules}.
Context `{ToValue DecisionPolicyRules} `{PolicyDocuments}.

(** The parse of one arm of [validate_rules_for_mode]. *)
Definition parses_as {T} `{FromValue T} (mode : string) (rules : Value) : result text unit :=
  match from_value (T:=T) rules with
  | Ok _ => Ok ()
  | Err e =>
      invalid [Lit "rules do not match schema for mode '"; Lit mode; Lit "': "; FDebug e]
  end.
Definition validate_rules_for_one_mode (mode : string) (rules : Value) : result text unit :=
  if mode == "macp.mode.decision.v1" then parses_as (T:=DecisionPolicyRules) mode rules
  else if mode == "macp.mode.proposal.v1" then parses_as (T:=ProposalPolicyRules) mode rules
  else if mode == "macp.mode.task.v1" then parses_as (T:=TaskPolicyRules) mode rules
  else if mode == "macp.mode.handoff.v1" then parses_as (T:=HandoffPolicyRules) mode rules
  else if mode == "macp.mode.quorum.v1" then parses_as (T:=QuorumPolicyRules) mode rules
  else Ok ().
(** [try_for_each]. *)
Fixpoint try_for_each {A} (f : A → result text unit) (l : list A) : result text unit :=
  match l with
  | [] => Ok ()
  | x :: l => _ ← f x; try_for_each f l
  end.
Definition validate_rules_for_mode (mode : string) (rules : Value) : result text unit :=
  if mode == "*" then
    try_for_each (λ m, validate_rules_for_one_mode m rules) STANDARDS_TRACK_POLICY_MODES
  else validate_rules_for_one_mode mode rules.

(** The blocks of [validate_conditional_constraints], in its order. *)
Definition decision_constraints (rules : Value) : result text unit :=
  match from_value (T:=DecisionPolicyRules) rules with
  | Err _ => Ok ()
  | Ok decision =>
      let voting := dpr_voting decision in
      _ ← validate_decision_voting voting;
      match decision_value_domain_error decision with
      | Some reason => invalid reason
      | None =>
          if (vr_algorithm voting == "weighted") && bool_decide (vr_weights voting = ∅) then
            invalid [Lit "voting.algorithm 'weighted' requires non-empty voting.weights"]
          else
            weights ← present_object rules ["voting"; "weights"];
            if match weights with Some w => is_empty w | None => false end then
              invalid [Lit "voting.weights must be non-empty when supplied"]
            else if (vr_algorithm voting == "supermajority")
                    && f64_le (vr_threshold voting) f64_half then
              invalid [Lit "voting.algorithm 'supermajority' requires voting.threshold > 0.5"]
            else if (vr_algorithm voting == "majority")
                    && f64_lt (vr_threshold voting) f64_half then
              invalid [Lit "voting.algorithm 'majority' requires voting.threshold >= 0.5"]
            else Ok ()
      end
  end.
Definition quorum_threshold_constraints (rules : Value) : result text unit :=
  match from_value (T:=QuorumPolicyRules) rules with
  | Err _ => Ok ()
  | Ok quorum =>
      _ ← validate_quorum_threshold (qpr_threshold quorum);
      value ← present_number rules ["threshold"; "value"];
      if match value with Some v => negb (f64_gt v f64_0) | None => false end then
        invalid [Lit "threshold.value "; FF64 (qt_value (qpr_threshold quorum));
                 Lit " is out of range: must be greater than 0 (RFC-MACP-0011 §5 rule 2)"]
      else Ok ()
  end.
Definition proposal_constraints (rules : Value) : result text unit :=
  match from_value (T:=ProposalPolicyRules) rules with
  | Err _ => Ok ()
  | Ok proposal =>
      if negb (str_elem (ppr_criterion proposal) PROPOSAL_ACCEPTANCE_CRITERIA) then
        invalid [Lit "acceptance.criterion '"; Lit (ppr_criterion proposal);
                 Lit "' is not one of: "; Lit (join ", " PROPOSAL_ACCEPTANCE_CRITERIA)]
      else Ok ()
  end.
Definition quorum_abstention_constraints (rules : Value) : result text unit :=
  match from_value (T:=QuorumPolicyRules) rules with
  | Err _ => Ok ()
  | Ok quorum =>
      let interpretation := ab_interpretation (qpr_abstention quorum) in
      if negb (str_elem interpretation QUORUM_ABSTENTION_INTERPRETATIONS) then
        invalid [Lit "abstention.interpretation '"; Lit interpretation;
                 Lit "' is not one of: "; Lit (join ", " QUORUM_ABSTENTION_INTERPRETATIONS)]
      else Ok ()
  end.
Definition commitment_constraints (rules : Value) : result text unit :=
  match value_get "commitment" rules with
  | None => Ok ()
  | Some commitment =>
      match from_value (T:=CommitmentRules) commitment with
      | Err _ => Ok ()
      | Ok cr =>
          if negb (str_elem (cr_authority cr) COMMITMENT_AUTHORITIES) then
            invalid [Lit "commitment.authority '"; Lit (cr_authority cr);
                     Lit "' is not one of: "; Lit (join ", " COMMITMENT_AUTHORITIES)]
          else if (cr_authority cr == "designated_role") && is_empty (cr_designated_roles cr) then
            invalid [Lit "commitment.authority 'designated_role' requires non-empty commitment.designated_roles"]
          else Ok ()
      end
  end.
Definition validate_conditional_constraints (mode : string) (rules : Value)
    : result text unit :=
  _ ← (if mode_or_wildcard "macp.mode.decision.v1" mode then decision_constraints rules
       else Ok ());
  _ ← (if mode_or_wildcard "macp.mode.quorum.v1" mode then quorum_threshold_constraints rules
       else Ok ());
  _ ← (if mode_or_wildcard "macp.mode.proposal.v1" mode then proposal_constraints rules
       else Ok ());
  _ ← (if mode_or_wildcard "macp.mode.quorum.v1" mode then quorum_abstention_constraints rules
       else Ok ());
  commitment_constraints rules.

(** ** The reserved namespace *)
Definition extension_values (rules : Value) : list (string * Value) :=
  (λ k, (k, rule_at k rules)) <$> vendor_extension_keys rules.
Definition resolved_rules (rules : Value) : option Value :=
  match from_value (T:=DecisionPolicyRules) rules with
  | Ok parsed => match to_value parsed with Ok v => Some v | Err _ => None end
  | Err _ => None
  end.
Definition resolves_to_same_rules (candidate canonical : PolicyDefinition) : bool :=
  if (policy_mode candidate != policy_mode canonical)
     || negb (policy_schema_version candidate =? policy_schema_version canonical)
  then false
  else if negb (value_eq (VObject (extension_values (policy_rules candidate)))
                         (VObject (extension_values (policy_rules canonical))))
  then false
  else
    match resolved_rules (policy_rules candidate), resolved_rules (policy_rules canonical) with
    | Some a, Some b => value_eq a b
    | _, _ => false
    end.

Definition validate_reserved_namespace (definition : PolicyDefinition) : result text unit :=
  let id := policy_id definition in
  if negb (starts_with STD_POLICY_PREFIX id) then Ok ()
  else
    match canonical_std_policy id with
    | None =>
        invalid [Lit "policy_id '"; Lit id; Lit "' is in the reserved '";
                 Lit STD_POLICY_PREFIX;
                 Lit "' namespace but is not a governance profile assigned by RFC-MACP-0012 §5.2"]
    | Some canonical =>
        if negb (resolves_to_same_rules definition canonical) then
          invalid [Lit "policy_id '"; Lit id;
                   Lit "' is reserved by RFC-MACP-0012 §2.2; a registration under it must be the canonical §5.2 definition verbatim"]
        else Ok ()
    end.

(** ** Validation and registration *)
Definition validate_content (self : PolicyRegistry) (definition : PolicyDefinition)
    (reserved_namespace : bool) : result text unit :=
  let version := policy_schema_version definition in
  let mode := policy_mode definition in
  let rules := policy_rules definition in
  if version =? 0 then invalid [Lit "schema_version must be > 0"]
  else if negb (schema_supported version) then
    invalid [Lit "schema_version "; FInt version; Lit " is not supported (supported: ";
             FDebug "[1, 2, 3]"; Lit ")"]
  else if negb (is_object rules) then invalid [Lit "rules must be a JSON object"]
  else
    _ ← validate_rule_keys self mode rules;
    match rule_shape_violation mode rules with
    | Some violation => invalid violation
    | None =>
        _ ← (if reserved_namespace then validate_reserved_namespace definition else Ok ());
        _ ← validate_rules_for_mode mode rules;
        validate_conditional_constraints mode rules
    end.

Definition validate_definition (self : PolicyRegistry) (definition : PolicyDefinition)
    : result text unit :=
  if blank (policy_id definition) then invalid [Lit "policy_id must not be empty"]
  else if policy_id definition == DEFAULT_POLICY_ID then
    invalid [Lit "cannot register with reserved policy_id '"; Lit DEFAULT_POLICY_ID; Lit "'"]
  else validate_content self definition true.

Definition validate_candidate (self : PolicyRegistry) (definition : PolicyDefinition)
    : result text unit := validate_content self definition false.

Definition register (definition : PolicyDefinition) : stm PolicyRegistry text unit :=
  (do! st_read (λ self, validate_definition self definition);
   do! st_read (λ self,
     if bool_decide (is_Some (reg_entries self !! policy_id definition)) then
       Err [Lit "policy '"; Lit (policy_id definition); Lit "' is already registered"]
     else Ok ());
   do! st_mod (set_entries <[policy_id definition := definition]>);
   st_mod notify_change)%stm.

Definition unregister (id : string) : stm PolicyRegistry text unit :=
  (do! st_read (λ self,
     if id == DEFAULT_POLICY_ID then
       Err [Lit "cannot unregister the built-in default policy"]
     else if starts_with STD_POLICY_PREFIX id && bool_decide (is_Some (reg_entries self !! id))
     then
       Err [Lit "cannot unregister the built-in reserved policy '"; Lit id;
            Lit "' (RFC-MACP-0012 §2.2)"]
     else if negb (bool_decide (is_Some (reg_entries self !! id))) then
       Err [Lit "policy '"; Lit id; Lit "' not found"]
     else Ok ());
   do! st_mod (set_entries (delete id));
   st_mod notify_change)%stm.

(** ** Loading a directory *)
Definition load_file (f : PolicyFile) : stm PolicyRegistry text unit := λ self,
  match pf_read f with
  | Err e => (self, Err [Lit "cannot read "; Lit (pf_path f); Lit ": "; FDebug e])
  | Ok raw =>
      match policy_from_str raw with
      | Err e => (self, Err [Lit "invalid policy file "; Lit (pf_path f); Lit ": "; FDebug e])
      | Ok definition =>
          match register definition self with
          | (self, Ok _) => (self, Ok ())
          | (self, Err e) =>
              (self, Err (Lit "policy file " :: Lit (pf_path f) :: Lit " rejected: " :: e))
          end
      end
  end.
Fixpoint load_files (files : list PolicyFile) (loaded : Z) : stm PolicyRegistry text Z :=
  match files with
  | [] => st_ret loaded
  | f :: files => (do! load_file f; load_files files (loaded + 1))%stm
  end.
Definition load_from_dir (shown : string) (dir : Directory) : stm PolicyRegistry text Z :=
  (let! files := st_read (λ _, policy_files_in shown dir) in load_files files 0)%stm.

(** ** The dry run *)
Record PolicyFileOutcome := MkPolicyFileOutcome {
  po_path : string;
  po_result : result text string;
}.

(** One file of the loop, on the scratch registry. *)
Definition validate_file (f : PolicyFile) (scratch : PolicyRegistry)
    : PolicyRegistry * PolicyFileOutcome :=
  let outcome := MkPolicyFileOutcome (pf_path f) in
  match pf_read f with
  | Err e => (scratch, outcome (Err [Lit "cannot read file: "; FDebug e]))
  | Ok raw =>
      match policy_from_str raw with
      | Err e => (scratch, outcome (Err [Lit "not a valid policy document: "; FDebug e]))
      | Ok definition =>
          match register definition scratch with
          | (scratch, Ok _) => (scratch, outcome (Ok (policy_id definition)))
          | (scratch, Err e) => (scratch, outcome (Err e))
          end
      end
  end.
Fixpoint validate_files (files : list PolicyFile) (scratch : PolicyRegistry)
    : PolicyRegistry * list PolicyFileOutcome :=
  match files with
  | [] => (scratch, [])
  | f :: files =>
      let '(scratch, o) := validate_file f scratch in
      let '(scratch, os) := validate_files files scratch in
      (scratch, o :: os)
  end.
Definition validate_dir_with (self : PolicyRegistry) (shown : string) (dir : Directory)
    : result text (list PolicyFileOutcome) :=
  files ← policy_files_in shown dir;
  Ok (validate_files files (scratch self)).2.
Definition validate_dir (shown : string) (dir : Directory)
    : result text (list PolicyFileOutcome) := validate_dir_with registry_new shown dir.
End registry.
