(* ===== verification/PolicyAdmission.v ===== *)
(** * What the policy registry guarantees

    The registry's invariant over any sequence of registrations, removals and
    directory loads, the agreement of the dry run with the load, and what
    admission promises to the evaluator: a policy a session can bind is one
    the evaluator can apply. *)

From Stdlib Require Import SpecFloat.
From stdpp Require Import prelude gmap strings relations.
From S2P Require Import Prelude RustStr Floats Extern PolicyKeys Error Policy Evaluator LogReplay PolicyRegistry.
Open Scope Z_scope.

Section admission.
Context `{FromValue DecisionPolicyRules} `{FromValue ProposalPolicyRules}.
Context `{FromValue TaskPolicyRules} `{FromValue HandoffPolicyRules}.
Context `{FromValue QuorumPolicyRules} `{FromValue CommitmentRules}.
Context `{ToValue DecisionPolicyRules} `{PolicyDocuments}.
Implicit Types (r : PolicyRegistry) (p : PolicyDefinition).

(** ** Registration *)

(** Admission reads the registry's extensions and nothing else of it. *)
Lemma validate_extensions_ext r r' rules keys :
  reg_rule_extensions r = reg_rule_extensions r' →
  validate_extensions r rules keys = validate_extensions r' rules keys.
Proof.
  intros He. induction keys as [|key keys IH]; [done|]. simpl.
  unfold rule_extension_names. rewrite He, IH. done.
Qed.

Lemma validate_definition_ext r r' p :
  reg_rule_extensions r = reg_rule_extensions r' →
  validate_definition r p = validate_definition r' p.
Proof.
  intros He. unfold validate_definition, validate_content.
  replace (validate_rule_keys r' (policy_mode p) (policy_rules p))
    with (validate_rule_keys r (policy_mode p) (policy_rules p)); [done|].
  unfold validate_rule_keys. destruct (rule_shape_for_mode _); [|done].
  destruct (closed_key_violation _ _); [done|]. by apply validate_extensions_ext.
Qed.

(** The registry after a successful registration or removal. *)
Definition added p r : PolicyRegistry := notify_change (set_entries <[policy_id p := p]> r).
Definition removed (id : string) r : PolicyRegistry := notify_change (set_entries (delete id) r).

Definition conflict p : text :=
  [Lit "policy '"; Lit (policy_id p); Lit "' is already registered"].

Lemma register_cases p r :
  register p r =
  match validate_definition r p with
  | Err e => (r, Err e)
  | Ok _ =>
      match get r (policy_id p) with
      | Some _ => (r, Err (conflict p))
      | None => (added p r, Ok ())
      end
  end.
Proof.
  unfold register, st_bind, st_read, get. destruct (validate_definition r p) as [[]|e]; [|done].
  by destruct (reg_entries r !! policy_id p).
Qed.

Lemma unregister_cases id r r' :
  unregister id r = (r', Ok ()) →
  r' = removed id r ∧ id ≠ DEFAULT_POLICY_ID ∧ starts_with STD_POLICY_PREFIX id = false ∧
  is_Some (get r id).
Proof.
  unfold unregister, st_bind, st_read, get. case_bool_decide as Hd; simpl; [done|].
  destruct (reg_entries r !! id) eqn:E, (starts_with _ _) eqn:Hs; simpl; try done.
  intros [= <-]. eauto.
Qed.

Lemma unregister_refused id r r' e : unregister id r = (r', Err e) → r' = r.
Proof.
  unfold unregister, st_bind, st_read. intros Hu.
  match type of Hu with context [match ?c with Ok _ => _ | Err _ => _ end] => destruct c end;
    by simplify_eq/=.
Qed.

(** *** The steps of a running registry *)
Inductive registry_step : relation PolicyRegistry :=
| step_register p r : registry_step r (register p r).1
| step_unregister id r : registry_step r (unregister id r).1
| step_load shown dir r : registry_step r (load_from_dir shown dir r).1.

(** A registry as a runtime holds it: built with its extensions, then used. *)
Definition registry_reachable r : Prop :=
  ∃ extensions r0, with_rule_extensions registry_new extensions = Ok r0 ∧
    rtc registry_step r0 r.

Record registry_ok r : Prop := {
  ok_builtin p : p ∈ builtin_policies → get r (policy_id p) = Some p;
  ok_entry id p : get r id = Some p →
    policy_id p = id ∧ (p ∈ builtin_policies ∨ validate_definition r p = Ok ());
}.

Lemma with_rule_extensions_entries l r r' :
  with_rule_extensions r l = Ok r' → reg_entries r' = reg_entries r.
Proof.
  revert r. induction l as [|[k e] l IH]; intros r; simpl; [naive_solver|].
  destruct (negb _); [done|]. case_bool_decide; [done|]. intros ->%IH. done.
Qed.

Lemma new_entries r id p :
  reg_entries r = reg_entries registry_new →
  get r id = Some p ↔ p ∈ builtin_policies ∧ policy_id p = id.
Proof.
  unfold get. intros ->. unfold registry_new, builtin_policies, std_policies.
  cbn [reg_entries foldl]. rewrite !lookup_insert_Some, lookup_empty, !elem_of_cons, elem_of_nil.
  simpl. split.
  - naive_solver.
  - intros [[->|[->|[->|[->|[]]]]] <-]; simpl; naive_solver congruence.
Qed.

Lemma registry_ok_new r : reg_entries r = reg_entries registry_new → registry_ok r.
Proof. intros Hr. split; intros *; rewrite new_entries by done; naive_solver. Qed.

Lemma builtin_reserved p :
  p ∈ builtin_policies →
  policy_id p = DEFAULT_POLICY_ID ∨ starts_with STD_POLICY_PREFIX (policy_id p) = true.
Proof.
  unfold builtin_policies, std_policies. rewrite !elem_of_cons, elem_of_nil.
  intros [->|[->|[->|[->|[]]]]]; [by left|by right..].
Qed.

Lemma registry_ok_register p r : registry_ok r → registry_ok (register p r).1.
Proof.
  intros Hr. rewrite register_cases. destruct (validate_definition r p) as [[]|e] eqn:Hv; [|done].
  destruct (get r (policy_id p)) eqn:Hg; [done|]. simpl. split; unfold get in *; simpl.
  - intros q Hq. pose proof (ok_builtin _ Hr q Hq) as Hq'. unfold get in Hq'.
    rewrite lookup_insert_ne; [done|congruence].
  - intros id q. rewrite lookup_insert_Some.
    rewrite (validate_definition_ext (added p r) r) by done.
    intros [[<- <-]|[_ Hq]]; [by auto|]. by apply (ok_entry _ Hr).
Qed.

Lemma registry_ok_unregister id r : registry_ok r → registry_ok (unregister id r).1.
Proof.
  intros Hr. destruct (unregister id r) as [r' [[]|e]] eqn:E; simpl.
  - apply unregister_cases in E as (-> & Hd & Hs & _). split; unfold get; simpl.
    + intros q Hq. rewrite lookup_delete_ne; [by apply (ok_builtin _ Hr)|].
      intros ->. apply builtin_reserved in Hq as []; congruence.
    + intros k q. rewrite lookup_delete_Some, (validate_definition_ext (removed id r) r) by done.
      intros [_ Hq]. by apply (ok_entry _ Hr).
  - by apply unregister_refused in E as ->.
Qed.

(** What holds of registrations holds of a directory load. *)
Lemma load_files_ind (P : PolicyRegistry → Prop) files n r :
  (∀ p r, P r → P (register p r).1) → P r → P (load_files files n r).1.
Proof.
  intros Hreg. revert n r. induction files as [|f files IH]; intros n r Hr; [done|].
  simpl. unfold st_bind. enough (P (load_file f r).1) as Hf.
  { destruct (load_file f r) as [r' [[]|e]]; [by apply IH|done]. }
  unfold load_file. destruct (pf_read f); [|done]. destruct (policy_from_str _) as [p|]; [|done].
  specialize (Hreg p r Hr). destruct (register p r) as [r' [[]|e]]; done.
Qed.

Lemma load_ind (P : PolicyRegistry → Prop) shown dir r :
  (∀ p r, P r → P (register p r).1) → P r → P (load_from_dir shown dir r).1.
Proof.
  intros Hreg Hr. unfold load_from_dir, st_bind, st_read.
  destruct (policy_files_in shown dir); [by apply load_files_ind|done].
Qed.

Lemma registry_ok_reachable r : registry_reachable r → registry_ok r.
Proof.
  intros (l & r0 & Hl%with_rule_extensions_entries & Hs).
  apply registry_ok_new in Hl. induction Hs as [|r0 r1 r2 Hstep _ IH]; [done|]. apply IH.
  destruct Hstep; auto using registry_ok_register, registry_ok_unregister.
  by apply load_ind; [apply registry_ok_register|].
Qed.

(** ** The reserved policies *)
Lemma canonical_builtin id p :
  canonical_std_policy id = Some p ↔
  p ∈ builtin_policies ∧ policy_id p = id ∧ starts_with STD_POLICY_PREFIX id = true.
Proof.
  unfold canonical_std_policy, builtin_policies, std_policies.
  rewrite !elem_of_cons, elem_of_nil. split.
  - repeat case_bool_decide; intros [= <-]; subst; simpl; naive_solver.
  - intros ([->|[->|[->|[->|[]]]]] & <- & Hs); done.
Qed.

Lemma admitted_not_reserved r p :
  validate_definition r p = Ok () →
  policy_id p ≠ DEFAULT_POLICY_ID ∧ blank (policy_id p) = false ∧
  (starts_with STD_POLICY_PREFIX (policy_id p) = true →
   is_Some (canonical_std_policy (policy_id p))).
Proof.
  unfold validate_definition, validate_content. intros Hv.
  destruct (blank _); [done|]. case_bool_decide; [done|]. split_and!; [done..|].
  destruct (_ =? 0); [done|]. destruct (negb (schema_supported _)); [done|].
  destruct (negb (is_object _)); [done|]. apply bind_ok in Hv as (? & ? & Hv).
  destruct (rule_shape_violation _ _); [done|]. apply bind_ok in Hv as ([] & Hv & ?).
  unfold validate_reserved_namespace in Hv. intros Hs. rewrite Hs in Hv.
  by destruct (canonical_std_policy _).
Qed.

(** In every registry a runtime can hold, whatever was registered,
    removed or loaded: the empty policy version resolves to the default policy;
    an identifier of the reserved namespace resolves to its canonical profile
    if the RFC assigns it one and to nothing otherwise; and every other entry
    is stored under its own identifier and passed admission. *)
Theorem builtins_permanent r :
  registry_reachable r →
  resolve r "" = Ok default_policy ∧ resolve r DEFAULT_POLICY_ID = Ok default_policy ∧
  (∀ id, starts_with STD_POLICY_PREFIX id = true → get r id = canonical_std_policy id) ∧
  (∀ id p, get r id = Some p → id ≠ DEFAULT_POLICY_ID →
     starts_with STD_POLICY_PREFIX id = false →
     policy_id p = id ∧ validate_definition r p = Ok ()).
Proof.
  intros Hr%registry_ok_reachable.
  assert (get r DEFAULT_POLICY_ID = Some default_policy) as Hd
    by (apply (ok_builtin _ Hr default_policy); left).
  split_and!.
  - unfold resolve; simpl. by rewrite Hd.
  - unfold resolve; simpl. by rewrite Hd.
  - intros id Hs. apply option_eq. intros p. split.
    + intros Hp. destruct (ok_entry _ Hr _ _ Hp) as [<- [Hb|(_ & _ & Hc)%admitted_not_reserved]].
      * by apply canonical_builtin.
      * destruct (Hc Hs) as [q Hq]. rewrite Hq.
        apply canonical_builtin in Hq as (Hb & Hid & _).
        apply (ok_builtin _ Hr) in Hb. congruence.
    + intros (Hb & <- & _)%canonical_builtin. by apply (ok_builtin _ Hr).
  - intros id p Hp Hnd Hns. destruct (ok_entry _ Hr _ _ Hp) as [<- [Hb|Hv]]; [|done].
    apply builtin_reserved in Hb as []; congruence.
Qed.

(** ** Errors *)

(** An error leads with the code of a definition that is itself at fault. *)
Definition coded (e : text) : bool := bool_decide (head e = Some INVALID).
Definition all_coded {A} (m : result text A) : Prop := ∀ e, m = Err e → coded e = true.

Lemma coded_ok {A} (a : A) : all_coded (Ok a).
Proof. done. Qed.
Lemma coded_invalid {A} t : all_coded (invalid (A:=A) t).
Proof. by intros e [= <-]. Qed.
Lemma coded_bind {A B} (m : result text A) (f : A → result text B) :
  all_coded m → (∀ a, all_coded (f a)) → all_coded (m ≫= f).
Proof. intros Hm Hf e. destruct m; simpl; [apply Hf|]. intros [= <-]. by apply Hm. Qed.

Create HintDb coded.
Ltac coded :=
  repeat first
    [ solve [auto 2 with coded nocore] | apply coded_ok | apply coded_invalid | apply coded_bind; [|intros ?] | assumption
    | match goal with
      | |- all_coded (if ?b then _ else _) => destruct b
      | |- all_coded (match ?x with _ => _ end) => destruct x
      end ].

Lemma present_walk_coded node seen path : all_coded (present_walk node seen path).
Proof.
  revert node seen. induction path as [|k path IH]; intros node seen; simpl; [done|].
  destruct node; coded.
Qed.
Hint Resolve present_walk_coded : coded.

Lemma validate_extensions_coded r rules keys : all_coded (validate_extensions r rules keys).
Proof. induction keys as [|k keys IH]; simpl; coded. Qed.
Hint Resolve validate_extensions_coded : coded.

Lemma validate_rules_for_mode_coded mode rules : all_coded (validate_rules_for_mode mode rules).
Proof.
  assert (∀ m, all_coded (validate_rules_for_one_mode m rules)) as Hone
    by (intros m; unfold validate_rules_for_one_mode, parses_as; coded).
  unfold validate_rules_for_mode. case_bool_decide; [|apply Hone].
  generalize STANDARDS_TRACK_POLICY_MODES as l. induction l; simpl; coded.
Qed.
Hint Resolve validate_rules_for_mode_coded : coded.

Lemma constraints_coded mode rules : all_coded (validate_conditional_constraints mode rules).
Proof.
  unfold validate_conditional_constraints, decision_constraints, quorum_threshold_constraints,
    proposal_constraints, quorum_abstention_constraints, commitment_constraints,
    validate_decision_voting, validate_quorum_threshold, present_object, present_number, present_at.
  cbv zeta. coded.
Qed.
Hint Resolve constraints_coded : coded.

Lemma validate_definition_coded r p : all_coded (validate_definition r p).
Proof.
  unfold validate_definition, validate_content, validate_rule_keys, validate_reserved_namespace.
  cbv zeta. coded.
Qed.

(** What [register] reports. It succeeds exactly on a valid definition
    whose identifier is free, and then resolves that identifier to it, leaves
    every other entry and notifies once; a refusal changes nothing, and leads
    with [INVALID_POLICY_DEFINITION] exactly when the definition itself is at
    fault, never when only its identifier is taken. *)
Theorem register_contract p r r' res :
  register p r = (r', res) →
  match res with
  | Ok _ =>
      validate_definition r p = Ok () ∧ get r (policy_id p) = None ∧
      (∀ id, get r' id = if policy_id p == id then Some p else get r id) ∧
      reg_changes r' = reg_changes r + 1
  | Err e =>
      r' = r ∧
      (coded e = true ↔ validate_definition r p = Err e) ∧
      (coded e = false ↔ validate_definition r p = Ok () ∧ is_Some (get r (policy_id p)))
  end.
Proof.
  rewrite register_cases. pose proof (validate_definition_coded r p) as Hc.
  destruct (validate_definition r p) as [[]|e] eqn:Hv.
  - destruct (get r (policy_id p)) eqn:Hg; intros [= <- <-].
    + split; [done|]. split; [done|]. split; [eauto|done].
    + split_and!; [done..| |done]. intros id. unfold get; simpl. case_bool_decide; subst.
      * by rewrite lookup_insert_eq.
      * by rewrite lookup_insert_ne.
  - intros [= <- <-]. rewrite (Hc e eq_refl). naive_solver.
Qed.

(** ** The dry run *)

(** Registries that admit and hold the same. *)
Definition same_policies r r' : Prop :=
  reg_entries r = reg_entries r' ∧ reg_rule_extensions r = reg_rule_extensions r'.

Lemma register_same p r r' :
  same_policies r r' →
  (register p r).2 = (register p r').2 ∧ same_policies (register p r).1 (register p r').1.
Proof.
  intros [He Hx]. rewrite !register_cases, (validate_definition_ext r r') by done.
  unfold get. rewrite He. unfold same_policies.
  destruct (validate_definition r' p), (reg_entries r' !! policy_id p); simpl; rewrite ?He; done.
Qed.

Definition would_load (o : PolicyFileOutcome) : bool := is_ok (po_result o).

(** One file: the dry run reports success exactly when the load succeeds, with
    the identifier loaded; a rejected file is named by the load. *)
Lemma file_agrees f r scratch scratch' o :
  same_policies r scratch → validate_file f scratch = (scratch', o) →
  ∃ r', same_policies r' scratch' ∧
    match po_result o with
    | Ok id => load_file f r = (r', Ok ()) ∧
               ∀ k, is_Some (get r' k) ↔ k = id ∨ is_Some (get r k)
    | Err _ => ∃ e, load_file f r = (r', Err e) ∧ Lit (po_path o) ∈ e
    end.
Proof.
  intros Hs. unfold validate_file, load_file.
  destruct (pf_read f) as [raw|e0]; [|intros [= <- <-]; exists r; split; [done|];
    eexists; split; [done|]; set_solver].
  destruct (policy_from_str raw) as [p|e0]; [|intros [= <- <-]; exists r; split; [done|];
    eexists; split; [done|]; set_solver].
  destruct (register_same p r scratch Hs) as [Hres Hreg].
  pose proof (register_cases p r) as Hc.
  destruct (register p r) as [r' res], (register p scratch) as [sc' res']; simpl in *. subst res'.
  destruct res as [[]|e]; intros [= <- <-]; exists r'; split; [done| |done|]; simpl.
  - split; [done|]. destruct (validate_definition r p), (get r (policy_id p)); simplify_eq.
    intros k. unfold get; simpl. rewrite lookup_insert_is_Some'. naive_solver.
  - eexists; split; [done|]. set_solver.
Qed.

Lemma files_agree files r scratch scratch' outcomes n :
  same_policies r scratch → validate_files files scratch = (scratch', outcomes) →
  (Forall would_load outcomes ∧ ∃ r', load_files files n r = (r', Ok (n + len outcomes)) ∧
     ∀ k, is_Some (get r' k) ↔
       is_Some (get r k) ∨ ∃ o, o ∈ outcomes ∧ po_result o = Ok k) ∨
  (∃ before o after r' e, outcomes = before ++ o :: after ∧ Forall would_load before ∧
     ¬ would_load o ∧ load_files files n r = (r', Err e) ∧ Lit (po_path o) ∈ e).
Proof.
  revert r scratch outcomes n. induction files as [|f files IH]; intros r scratch outcomes n Hs; simpl.
  { intros [= <- <-]. left. split; [done|]. exists r. rewrite len_nil, Z.add_0_r.
    split; [done|]. set_solver. }
  destruct (validate_file f scratch) as [sc1 o] eqn:Hf.
  destruct (validate_files files sc1) as [sc2 os] eqn:Hfs. intros [= <- <-].
  destruct (file_agrees f r scratch sc1 o Hs Hf) as (r1 & Hs1 & Hres).
  unfold st_bind. destruct (po_result o) as [id|e0] eqn:Ho.
  - destruct Hres as [-> Hids].
    destruct (IH r1 sc1 os (n + 1) Hs1 Hfs) as
      [(Hall & r' & Hl & Hk)|(before & o' & after & r' & e & -> & Hb & Ho' & Hl & Hin)].
    + left. split; [constructor; [by unfold would_load; rewrite Ho|done]|].
      exists r'. rewrite len_cons. split; [by rewrite Hl; do 2 f_equal; lia|].
      intros k. rewrite Hk, Hids. setoid_rewrite elem_of_cons. split.
      * intros [[->|?]|(o' & ? & ?)]; eauto.
      * intros [?|(o' & [->|?] & Ho')]; [by eauto| |by eauto]. left. left. congruence.
    + right. exists (o :: before), o', after, r', e. split_and!; [done| |done..].
      constructor; [by unfold would_load; rewrite Ho|done].
  - destruct Hres as (e & -> & Hin). right. exists [], o, os, r1, e.
    split; [done|]. split; [by apply Forall_nil|].
    split; [unfold would_load; rewrite Ho; by intros []|done].
Qed.

(** The dry run of a directory predicts its load into a registry that
    holds only the built-in policies: an unreadable directory fails both the
    same way; if every file is reported loadable, the load succeeds, counts
    them all, and adds exactly the reported identifiers; otherwise the load
    fails at the first file the dry run rejects, naming it. *)
Theorem dry_run_predicts_load r shown dir :
  reg_entries r = reg_entries registry_new →
  match validate_dir_with r shown dir with
  | Err e => load_from_dir shown dir r = (r, Err e)
  | Ok outcomes =>
      (Forall would_load outcomes ∧
         ∃ r', load_from_dir shown dir r = (r', Ok (len outcomes)) ∧
         ∀ id, is_Some (get r' id) ↔
           is_Some (get r id) ∨ ∃ o, o ∈ outcomes ∧ po_result o = Ok id) ∨
      (∃ before o after r' e, outcomes = before ++ o :: after ∧ Forall would_load before ∧
         ¬ would_load o ∧ load_from_dir shown dir r = (r', Err e) ∧ Lit (po_path o) ∈ e)
  end.
Proof.
  intros Hr. unfold validate_dir_with, load_from_dir, st_bind, st_read.
  destruct (policy_files_in shown dir) as [files|e]; simpl; [|done].
  destruct (validate_files files (scratch r)) as [sc os] eqn:E.
  by apply (files_agree files r (scratch r) sc os 0).
Qed.

(** ** What admission promises to the evaluator *)

(** A session of [mode] may bind the policy. *)
Definition targets p (mode : string) : Prop := policy_mode p = "*" ∨ policy_mode p = mode.

(** The domain of the Decision rules. *)
Definition decision_in_domain (rules : DecisionPolicyRules) : Prop :=
  let v := dpr_voting rules in
  decision_value_domain_error rules = None ∧
  vr_algorithm v ∈ DECISION_VOTING_ALGORITHMS ∧
  f64_gt (vr_threshold v) f64_0 = true ∧ f64_le (vr_threshold v) f64_1 = true ∧
  (∀ voter w, vr_weights v !! voter = Some w → f64_gt w f64_0 = true) ∧
  (vr_algorithm v = "weighted" → vr_weights v ≠ ∅) ∧
  (vr_algorithm v = "majority" → f64_lt (vr_threshold v) f64_half = false) ∧
  (vr_algorithm v = "supermajority" → f64_le (vr_threshold v) f64_half = false).

(** The domain of the Quorum threshold. *)
Definition threshold_in_domain (t : QuorumThreshold) : Prop :=
  qt_type t ∈ QUORUM_THRESHOLD_TYPES ∧ fract_is_zero (qt_value t) = true ∧
  (qt_type t = "percentage" → f64_gt (qt_value t) f64_100 = false).

Lemma positive_weight w : f64_le w f64_0 = false → is_nan w = false → f64_gt w f64_0 = true.
Proof. by destruct w as [|[]| |[] ? ?]. Qed.

Lemma validate_decision_voting_ok v :
  validate_decision_voting v = Ok () →
  vr_algorithm v ∈ DECISION_VOTING_ALGORITHMS ∧
  f64_gt (vr_threshold v) f64_0 = true ∧ f64_le (vr_threshold v) f64_1 = true ∧
  (∀ voter w, vr_weights v !! voter = Some w → f64_gt w f64_0 = true).
Proof.
  unfold validate_decision_voting. intros Hv.
  destruct (negb (str_elem _ _)) eqn:Ha; [done|].
  destruct (negb (f64_gt _ _ && _)) eqn:Ht; [done|].
  destruct (negb (is_empty _)) eqn:Hw; [done|]. bool_simp.
  split_and!; [done..|]. intros voter w Hlw. apply fmap_nil_inv in Hw.
  apply elem_of_bt_entries in Hlw.
  destruct (f64_le w f64_0 || is_nan w) eqn:E.
  - exfalso. assert (In (voter, w) (List.filter (λ pw, f64_le pw.2 f64_0 || is_nan pw.2)
      (bt_entries (vr_weights v)))) as Hin by (apply filter_In; by rewrite <- list_elem_of_In).
    by rewrite Hw in Hin.
  - apply orb_false_iff in E as []. by apply positive_weight.
Qed.

Lemma decision_constraints_ok rules parsed :
  from_value rules = Ok parsed → decision_constraints rules = Ok () → decision_in_domain parsed.
Proof.
  unfold decision_constraints. intros ->. intros Hc. unfold decision_in_domain.
  apply bind_ok in Hc as ([] & (Ha & Ht0 & Ht1 & Hw)%validate_decision_voting_ok & Hc).
  destruct (decision_value_domain_error parsed); [done|].
  destruct (_ && bool_decide (_ = ∅)) eqn:Hwt; [done|].
  apply bind_ok in Hc as (w & _ & Hc). destruct (match w with Some _ => _ | None => _ end); [done|].
  destruct (_ && f64_le _ f64_half) eqn:Hs; [done|].
  destruct (_ && f64_lt _ f64_half) eqn:Hm; [done|].
  apply andb_false_iff in Hwt, Hs, Hm. rewrite bool_decide_eq_false in Hs, Hm. rewrite !bool_decide_eq_false in Hwt.
  split_and!; [done..| | |]; intros Heq; [destruct Hwt|destruct Hm|destruct Hs]; done.
Qed.

Lemma quorum_constraints_ok rules parsed :
  from_value rules = Ok parsed → quorum_threshold_constraints rules = Ok () →
  threshold_in_domain (qpr_threshold parsed).
Proof.
  unfold quorum_threshold_constraints. intros ->. intros ([] & Hv & _)%bind_ok.
  unfold validate_quorum_threshold in Hv. unfold threshold_in_domain.
  destruct (negb (str_elem _ _)) eqn:Ht; [done|].
  destruct (negb (fract_is_zero _)) eqn:Hf; [done|].
  destruct (_ && f64_gt _ _) eqn:Hp; [done|]. bool_simp.
  apply andb_false_iff in Hp. rewrite bool_decide_eq_false in Hp. naive_solver.
Qed.

(** What [serde_json::from_value] makes of the built-in documents: the fields
    they spell out, the derived defaults for the others, and the sections of
    another mode's schema ignored. *)
Definition std_rules (algorithm : string) (threshold : f64) (voters : Z) : DecisionPolicyRules :=
  MkDecisionPolicyRules
    (MkVotingRules algorithm threshold (MkQuorumRules "count" (f64_of_Z voters)) ∅)
    default_objection_handling default_evaluation_rules
    (MkCommitmentRules default_authority [] true false).

Class BuiltinRules : Prop := {
  default_decision : from_value (policy_rules default_policy) = Ok default_decision_rules;
  default_proposal : from_value (policy_rules default_policy) = Ok default_proposal_rules;
  default_task : from_value (policy_rules default_policy) = Ok default_task_rules;
  default_handoff : from_value (policy_rules default_policy) = Ok default_handoff_rules;
  default_quorum : from_value (policy_rules default_policy) = Ok default_quorum_policy_rules;
  majority_rules :
    from_value (policy_rules std_majority_policy) = Ok (std_rules "majority" f64_half 1);
  supermajority_rules :
    from_value (policy_rules std_supermajority_policy)
    = Ok (std_rules "supermajority" f64_two_thirds 2);
  unanimous_rules :
    from_value (policy_rules std_unanimous_policy) = Ok (std_rules "unanimous" f64_half 1);
}.

(** The facts about a definition's content that admission establishes. *)
Lemma admitted_content r p :
  validate_definition r p = Ok () →
  schema_supported (policy_schema_version p) = true ∧
  validate_rules_for_mode (policy_mode p) (policy_rules p) = Ok () ∧
  validate_conditional_constraints (policy_mode p) (policy_rules p) = Ok ().
Proof.
  unfold validate_definition, validate_content. intros Hv.
  destruct (blank _); [done|]. case_bool_decide; [done|].
  destruct (_ =? 0); [done|]. destruct (negb (schema_supported _)) eqn:Hs; [done|].
  destruct (negb (is_object _)); [done|]. apply bind_ok in Hv as (? & ? & Hv).
  destruct (rule_shape_violation _ _); [done|]. apply bind_ok in Hv as ([] & ? & Hv).
  apply bind_ok in Hv as ([] & ? & ?). by apply negb_false_iff in Hs.
Qed.

Lemma try_for_each_ok {A} (f : A → result text unit) l :
  try_for_each f l = Ok () → ∀ x, x ∈ l → f x = Ok ().
Proof.
  induction l as [|y l IH]; simpl; intros Ht x Hx; [by apply elem_of_nil in Hx|].
  apply bind_ok in Ht as ([] & Hy & Ht). apply elem_of_cons in Hx as [->|Hx]; [done|by apply IH].
Qed.

Lemma rules_for_target p mode :
  validate_rules_for_mode (policy_mode p) (policy_rules p) = Ok () →
  targets p mode → mode ∈ STANDARDS_TRACK_POLICY_MODES →
  validate_rules_for_one_mode mode (policy_rules p) = Ok ().
Proof.
  unfold validate_rules_for_mode, targets. intros Hv Ht Hm. case_bool_decide as Hw.
  - by apply (try_for_each_ok _ _ Hv).
  - destruct Ht as [?|<-]; done.
Qed.

Lemma parses_as_ok {T} `{FromValue T} mode rules :
  parses_as (T:=T) mode rules = Ok () → ∃ parsed : T, from_value rules = Ok parsed.
Proof. unfold parses_as. destruct (from_value rules); naive_solver. Qed.

(** The mode a commitment context is of. *)
Definition commitment_mode_name (m : CommitmentMode) : string :=
  match m with
  | CMDecision _ => "macp.mode.decision.v1"
  | CMProposal _ => "macp.mode.proposal.v1"
  | CMTask _ => "macp.mode.task.v1"
  | CMHandoff => "macp.mode.handoff.v1"
  | CMQuorum _ _ _ => "macp.mode.quorum.v1"
  end.

(** The rules read back at the mode's own schema, in their domain. *)
Definition evaluable p (m : CommitmentMode) : Prop :=
  schema_supported (policy_schema_version p) = true ∧
  match m with
  | CMDecision _ => ∃ rules, from_value (policy_rules p) = Ok rules ∧ decision_in_domain rules
  | CMProposal _ => ∃ rules : ProposalPolicyRules, from_value (policy_rules p) = Ok rules
  | CMTask _ => ∃ rules : TaskPolicyRules, from_value (policy_rules p) = Ok rules
  | CMHandoff => ∃ rules : HandoffPolicyRules, from_value (policy_rules p) = Ok rules
  | CMQuorum _ _ _ => ∃ rules : QuorumPolicyRules,
      from_value (policy_rules p) = Ok rules ∧ threshold_in_domain (qpr_threshold rules)
  end.

Lemma admitted_evaluable r p m :
  validate_definition r p = Ok () → targets p (commitment_mode_name m) → evaluable p m.
Proof.
  intros (Hs & Hp & Hc)%admitted_content Ht. split; [done|].
  apply (rules_for_target p (commitment_mode_name m)) in Hp; [|done|by destruct m; repeat constructor].
  unfold validate_conditional_constraints in Hc.
  apply bind_ok in Hc as ([] & Hd & Hc). apply bind_ok in Hc as ([] & Hq & _).
  destruct m; simpl in *; apply parses_as_ok in Hp as [rules Hr]; eauto.
  - exists rules. split; [done|]. apply (decision_constraints_ok _ _ Hr).
    unfold mode_or_wildcard in Hd. destruct Ht as [Ht|Ht]; by rewrite Ht in Hd.
  - exists rules. split; [done|]. apply (quorum_constraints_ok _ _ Hr).
    unfold mode_or_wildcard in Hq. destruct Ht as [Ht|Ht]; by rewrite Ht in Hq.
Qed.

Lemma std_in_domain algorithm threshold voters :
  algorithm ∈ DECISION_VOTING_ALGORITHMS → algorithm ≠ "weighted" →
  f64_gt threshold f64_0 = true → f64_le threshold f64_1 = true →
  (algorithm = "majority" → f64_lt threshold f64_half = false) →
  (algorithm = "supermajority" → f64_le threshold f64_half = false) →
  decision_in_domain (std_rules algorithm threshold voters).
Proof. intros. unfold decision_in_domain; simpl. split_and!; done. Qed.

Lemma builtin_evaluable `{!BuiltinRules} p m :
  p ∈ builtin_policies → targets p (commitment_mode_name m) → evaluable p m.
Proof.
  unfold builtin_policies, std_policies. rewrite !elem_of_cons, elem_of_nil.
  intros [->|[->|[->|[->|[]]]]] Ht; (split; [done|]).
  - destruct m; simpl.
    + exists default_decision_rules. split; [apply default_decision|].
      unfold decision_in_domain; simpl. split_and!; try done. by apply str_elem_true.
    + eexists. apply default_proposal.
    + eexists. apply default_task.
    + eexists. apply default_handoff.
    + eexists. split; [apply default_quorum|]. split; [by apply str_elem_true|done].
  - destruct Ht as [?|?]; [done|]. destruct m; try done. eexists. split; [apply majority_rules|].
    apply std_in_domain; [by apply str_elem_true|done..].
  - destruct Ht as [?|?]; [done|]. destruct m; try done. eexists. split; [apply supermajority_rules|].
    apply std_in_domain; [by apply str_elem_true|done..].
  - destruct Ht as [?|?]; [done|]. destruct m; try done. eexists. split; [apply unanimous_rules|].
    apply std_in_domain; [by apply str_elem_true|done..].
Qed.

Lemma resolve_ok r version p :
  resolve r version = Ok p → ∃ id, get r id = Some p.
Proof. unfold resolve. destruct (str_is_empty version); intros ?%ok_or_ok; eauto. Qed.

Lemma resolved_evaluable `{!BuiltinRules} r version p m :
  registry_reachable r → resolve r version = Ok p → targets p (commitment_mode_name m) →
  evaluable p m.
Proof.
  intros Hr%registry_ok_reachable [id Hg]%resolve_ok Ht.
  destruct (ok_entry _ Hr _ _ Hg) as [_ [Hb|Hv]];
    eauto using builtin_evaluable, admitted_evaluable.
Qed.

(** *** Denials *)

(** A denial over the session's record, not over the policy itself. *)
Definition over_record (d : DenyReason) : Prop :=
  dr_code d ≠ INVALID_RULES ∧ dr_code d ≠ UNSUPPORTED_SCHEMA_VERSION.

Lemma push_over_record a b :
  Forall over_record a.1 → Forall over_record b.1 → Forall over_record (push a b).1.
Proof. apply Forall_app_2. Qed.

Lemma verdict_over_record msg (rs : reasons) l :
  Forall over_record rs.1 → verdict msg rs = Deny l → Forall over_record l.
Proof. unfold verdict. destruct (is_empty _); [done|]. by intros ? [= <-]. Qed.

Ltac over_record :=
  repeat match goal with
  | |- Forall over_record (if ?b then _ else _).1 => destruct b
  | |- Forall over_record (match ?x with _ => _ end).1 => destruct x
  end; simpl; repeat (apply Forall_nil_2 || apply Forall_cons_2); try (by split).

Lemma decision_checks_over_record v rules state participants outcome :
  Forall over_record (decision_checks v rules state participants outcome).1.
Proof.
  unfold decision_checks. repeat apply push_over_record.
  - unfold evaluation_check. over_record.
  - unfold veto_check. over_record.
  - unfold quorum_check. over_record.
  - unfold voting_check, passed_row, failed_row, no_votes_row. over_record.
Qed.

(** C21. A policy that a session can bind is one the evaluator can apply:
    whatever the registry went through, a commitment of a mode the policy
    targets is never denied because the policy's rules do not read back, are
    out of their domain, or are of an unsupported schema version. *)
Theorem bound_policy_evaluable `{!BuiltinRules} r version ctx denials :
  registry_reachable r → resolve r version = Ok (cc_policy ctx) →
  targets (cc_policy ctx) (commitment_mode_name (cc_mode ctx)) →
  DefaultPolicyEvaluator ctx = Deny denials →
  ∀ d, d ∈ denials → dr_code d ≠ INVALID_RULES ∧ dr_code d ≠ UNSUPPORTED_SCHEMA_VERSION.
Proof.
  intros Hr Hres Ht Hd. apply Forall_forall. revert Hd.
  destruct (resolved_evaluable r version _ _ Hr Hres Ht) as [Hs Hm].
  unfold DefaultPolicyEvaluator, evaluate_decision_commitment_outcome,
    evaluate_proposal_commitment_outcome, evaluate_task_commitment_outcome,
    evaluate_handoff_commitment_outcome, evaluate_quorum_commitment_outcome,
    with_rules, check_schema_version, parse_rules. rewrite Hs; simpl.
  destruct (cc_mode ctx).
  - destruct Hm as (rules & -> & Hdom & _). rewrite Hdom.
    apply verdict_over_record, decision_checks_over_record.
  - destruct Hm as (rules & ->). apply verdict_over_record. over_record.
  - destruct Hm as (rules & ->). apply verdict_over_record. over_record.
  - by destruct Hm as (rules & ->).
  - destruct Hm as (rules & -> & _). apply verdict_over_record, push_over_record.
    + unfold threshold_check. over_record.
    + unfold abstention_report. over_record.
Qed.

(** *** Approval *)
Lemma zero_ratio x t : f64_gt t f64_0 = true → f64_ge (f64_div f64_0 x) t = false.
Proof. by destruct t as [[]|[]| |[] ? ?], x as [[]|[]| |[] ? ?]. Qed.

Lemma ratio_passed name what ratio t reason :
  ratio_result name what ratio t = Passed reason → f64_ge ratio t = true.
Proof. unfold ratio_result. by destruct (f64_ge ratio t). Qed.

Lemma ratio_approved t votes total :
  f64_gt t f64_0 = true →
  f64_ge (f64_div (f64_of_Z (count_if (is_vote "APPROVE") (cast_votes votes))) total) t = true →
  ∃ voter, on_record votes voter "APPROVE".
Proof.
  intros Ht Hge. apply count_votes_pos.
  pose proof (count_if_nonneg (is_vote "APPROVE") (cast_votes votes)).
  destruct (decide (count_if (is_vote "APPROVE") (cast_votes votes) = 0)) as [E|]; [|lia].
  rewrite E in Hge. change (f64_of_Z 0) with f64_0 in Hge. by rewrite zero_ratio in Hge.
Qed.

(** The approving weight is zero when no voter of positive weight approves. *)
Lemma no_approving_weight votes weights :
  (∀ voter w, weights !! voter = Some w → f64_gt w f64_0 = true) →
  (∀ voter, on_record votes voter "APPROVE" → f64_gt (weight_of weights voter) f64_0 = false) →
  (compute_weighted_votes votes weights).1 = f64_0.
Proof.
  intros Hw Hn. unfold compute_weighted_votes.
  assert (∀ b, b ∈ cast_votes votes → is_vote "APPROVE" b = true → weight_of weights b.1 = f64_0)
    as Hz.
  { intros b Hb Ha. assert (f64_gt (weight_of weights b.1) f64_0 = false) as Hf
      by (apply Hn, on_record_spec; eauto).
    unfold weight_of in *. destruct (weights !! b.1) eqn:E; simpl in *; [|done].
    apply Hw in E. congruence. }
  generalize f64_0 at 2 as total. induction (cast_votes votes) as [|b l IH]; intros total; [done|].
  assert (∀ b, b ∈ l → is_vote "APPROVE" b = true → weight_of weights b.1 = f64_0) as Hz'
    by (intros; apply Hz; [by right|done]).
  simpl. destruct (is_vote "APPROVE" b) eqn:Ha; simpl.
  - rewrite (Hz b) by (done || left). by apply IH.
  - destruct (is_vote "REJECT" b); by apply IH.
Qed.

Lemma weighted_approved threshold weights votes reason :
  f64_gt threshold f64_0 = true →
  (∀ voter w, weights !! voter = Some w → f64_gt w f64_0 = true) →
  check_weighted threshold weights votes = Passed reason →
  ∃ voter, on_record votes voter "APPROVE" ∧ f64_gt (weight_of weights voter) f64_0 = true.
Proof.
  intros Ht Hw Hp.
  destruct (count_if (λ b, is_vote "APPROVE" b && f64_gt (weight_of weights b.1) f64_0)
    (cast_votes votes) =? 0) eqn:E.
  - exfalso. apply Z.eqb_eq in E.
    pose proof (no_approving_weight votes weights Hw) as Hz. revert Hp. unfold check_weighted.
    destruct (compute_weighted_votes votes weights) as [a t]; simpl in Hz. rewrite Hz.
    + destruct (f64_lt t _); [done|]. destruct (f64_eq t _); [done|].
      intros Hp%ratio_passed. by rewrite zero_ratio in Hp.
    + intros voter (b & Hb & <- & Ha)%on_record_spec. apply not_true_iff_false. intros Hg.
      enough (0 < 0) by lia. rewrite <- E at 2. apply count_if_pos. exists b. by rewrite Ha, Hg.
  - apply Z.eqb_neq in E.
    pose proof (count_if_nonneg (λ b, is_vote "APPROVE" b && f64_gt (weight_of weights b.1) f64_0)
      (cast_votes votes)).
    destruct (proj1 (count_if_pos _ (cast_votes votes))
      ltac:(instantiate (1 := λ b, is_vote "APPROVE" b && f64_gt (weight_of weights b.1) f64_0); lia))
      as (b & Hb & [Ha Hg]%andb_true_iff).
    exists b.1. split; [|done]. apply on_record_spec. eauto.
Qed.

(** A vote that passes under rules in their domain holds a decisive approval. *)
Lemma passed_approved rules state participants reason :
  decision_in_domain rules → vr_algorithm (dpr_voting rules) ≠ "none" →
  tally rules state participants = Passed reason →
  ∃ voter, on_record (ds_votes state) voter "APPROVE" ∧
    decisive (vr_algorithm (dpr_voting rules)) (vr_weights (dpr_voting rules)) voter.
Proof.
  intros (_ & _ & Ht & _ & Hw & _ & _ & _) _. unfold tally, decisive.
  generalize dependent (vr_weights (dpr_voting rules)).
  generalize dependent (vr_threshold (dpr_voting rules)).
  generalize (vr_algorithm (dpr_voting rules)) as alg. intros alg t Ht weights Hw.
  unfold check_voting_algorithm, aggregate_votes.
  set (votes := ds_votes state). set (a := count_if (is_vote "APPROVE") (cast_votes votes)).
  assert (0 ≤ count_if (is_vote "REJECT") (cast_votes votes)) as Hrej by apply count_if_nonneg.
  assert (0 ≤ a) as Happ by apply count_if_nonneg.
  assert (0 < a → alg ≠ "weighted" → ∃ voter, on_record votes voter "APPROVE" ∧
    (alg = "weighted" → f64_gt (weight_of weights voter) f64_0 = true)) as Hcount
    by (intros [voter ?]%count_votes_pos ?; exists voter; done).
  destruct (_ =? 0) eqn:Hz; [done|]. apply Z.eqb_neq in Hz.
  case_bool_decide; [|case_bool_decide; [|case_bool_decide; [|case_bool_decide; [|case_bool_decide; [|done]]]]];
    subst alg.
  - intros [voter ?]%ratio_passed%ratio_approved; [|done]. by exists voter.
  - intros [voter ?]%ratio_passed%ratio_approved; [by exists voter|].
    by destruct (f64_gt t f64_half).
  - unfold check_unanimous. destruct (forallb _ _); [|done]. simpl.
    destruct (Z.eqb_spec (count_if (is_vote "REJECT") (cast_votes votes)) 0); [|done].
    intros _. apply Hcount; [lia|done].
  - intros (voter & ? & ?)%weighted_approved; [|done..]. by exists voter.
  - unfold check_plurality. destruct (Z.gtb_spec a (count_if (is_vote "REJECT") (cast_votes votes))).
    + intros _. apply Hcount; [lia|done].
    + by destruct (_ =? _).
Qed.


(** *** The approval bar *)

(** C23. The bar a Quorum session with [n] participants gets from a policy
    the registry resolves is never unsatisfiable; it is at least one approval,
    and a percentage bar is the exact ceiling of that share of the roster, so
    the roster can always meet it. *)
Theorem quorum_bar_attainable `{!BuiltinRules} r version p rules n :
  registry_reachable r → resolve r version = Ok p → targets p "macp.mode.quorum.v1" →
  from_value (policy_rules p) = Ok rules → is_f64 (qt_value (qpr_threshold rules)) →
  1 ≤ n ≤ u32_max →
  match effective (qpr_threshold rules) n with
  | Inert => f64_gt (qt_value (qpr_threshold rules)) f64_0 = false
  | Approvals k =>
      1 ≤ k ≤ u32_max ∧
      (qt_type (qpr_threshold rules) = "percentage" →
       k = exact_percentage_bar (f64_as_u128 (qt_value (qpr_threshold rules))) n ∧ k ≤ n)
  | Unsatisfiable => False
  end.
Proof.
  intros Hr Hres Ht Hp Hf Hn.
  destruct (resolved_evaluable r version p (CMQuorum 0 0 0) Hr Hres Ht)
    as (_ & rules' & Hp' & Hkind & Hfract & Hmax). rewrite Hp in Hp'. injection Hp' as <-.
  unfold effective. destruct (f64_gt (qt_value _) f64_0) eqn:Hpos; [|done]. simpl.
  case_bool_decide as Hpct.
  - rewrite (proj2 (Z.eqb_neq n 0)), Hfract by lia.
    pose proof (whole_percentage _ Hf Hfract Hpos (Hmax Hpct)) as Hv.
    set (v := f64_as_u128 _) in *. unfold exact_percentage_bar, u128_max, u32_max in *.
    rewrite (Z.min_r (2 ^ 128 - 1) (v * n)) by nia.
    pose proof (Z.div_mod (v * n + 99) 100). pose proof (Z.mod_pos_bound (v * n + 99) 100).
    set (q := (v * n + 99) / 100) in *. assert (1 ≤ q ≤ n) by nia. lia.
  - pose proof (f64_ceil_as_u32_pos _ Hpos) as Hc.
    unfold QUORUM_THRESHOLD_TYPES in Hkind. rewrite !elem_of_cons, elem_of_nil in Hkind.
    destruct Hkind as [->|[?|[->|[]]]]; simpl; [|done|]; (split; [lia|done]).
Qed.
End admission.

(** ** Concrete registries *)
Module Demo.

(** A decoder of the rule documents: a field that is absent has its default,
    and other keys are skipped. *)
Definition field {T} (key : string) (d : T) (decode : Value → result string T) (v : Value)
    : result string T :=
  match v with
  | VObject _ => match value_get key v with Some x => decode x | None => Ok d end
  | _ => Err "invalid type"
  end.
Definition string_of (v : Value) : result string string :=
  match v with VString s => Ok s | _ => Err "invalid type" end.
Definition bool_of (v : Value) : result string bool :=
  match v with VBool b => Ok b | _ => Err "invalid type" end.
Definition f64_of (v : Value) : result string f64 := ok_or (as_f64 v) "invalid type".
Definition uint_of (v : Value) : result string Z :=
  match v with VUint n => Ok n | _ => Err "invalid type" end.
Definition strings_of (v : Value) : result string (list string) :=
  match v with
  | VArray l => Ok (omap (λ x, match x with VString s => Some s | _ => None end) l)
  | _ => Err "invalid type"
  end.
Definition weights_of (v : Value) : result string (gmap string f64) :=
  match v with
  | VObject o => Ok (list_to_map (omap (λ kv, (kv.1,.) <$> as_f64 kv.2) o))
  | _ => Err "invalid type"
  end.
Definition action_of (v : Value) : result string CriticalObjectionAction :=
  match v with
  | VString "deny" => Ok COADeny
  | VString "finalize_decline" => Ok COAFinalizeDecline
  | VString "hold" => Ok COAHold
  | _ => Err "unknown variant"
  end.

#[local] Instance commitment_doc : FromValue CommitmentRules := λ v,
  authority ← field "authority" default_authority string_of v;
  roles ← field "designated_roles" [] strings_of v;
  quorum ← field "require_vote_quorum" false bool_of v;
  decline ← field "allow_decline_over_approval" false bool_of v;
  Ok (MkCommitmentRules authority roles quorum decline).
Definition commitment_of (v : Value) : result string CommitmentRules :=
  field "commitment" default_commitment_rules from_value v.
Definition quorum_of (v : Value) : result string QuorumRules :=
  kind ← field "type" "count" string_of v; value ← field "value" f64_0 f64_of v;
  Ok (MkQuorumRules kind value).
Definition voting_of (v : Value) : result string VotingRules :=
  algorithm ← field "algorithm" "none" string_of v;
  threshold ← field "threshold" f64_half f64_of v;
  quorum ← field "quorum" default_quorum_rules quorum_of v;
  weights ← field "weights" ∅ weights_of v;
  Ok (MkVotingRules algorithm threshold quorum weights).
Definition objection_of (v : Value) : result string ObjectionHandlingRules :=
  vetoes ← field "critical_severity_vetoes" false bool_of v;
  threshold ← field "veto_threshold" 1 uint_of v;
  action ← field "critical_objection_action" COADeny action_of v;
  Ok (MkObjectionHandlingRules vetoes threshold action).
Definition evaluation_of (v : Value) : result string EvaluationRules :=
  required ← field "required_before_voting" false bool_of v;
  confidence ← field "minimum_confidence" f64_0 f64_of v;
  Ok (MkEvaluationRules required confidence).
#[local] Instance decision_doc : FromValue DecisionPolicyRules := λ v,
  voting ← field "voting" default_voting_rules voting_of v;
  objection ← field "objection_handling" default_objection_handling objection_of v;
  evaluation ← field "evaluation" default_evaluation_rules evaluation_of v;
  commitment ← commitment_of v;
  Ok (MkDecisionPolicyRules voting objection evaluation commitment).
#[local] Instance proposal_doc : FromValue ProposalPolicyRules := λ v,
  criterion ← field "acceptance" "all_parties" (field "criterion" "all_parties" string_of) v;
  rounds ← field "counter_proposal" 0 (field "max_rounds" 0 uint_of) v;
  terminal ← field "rejection" false (field "terminal_on_any_reject" false bool_of) v;
  commitment ← commitment_of v;
  Ok (MkProposalPolicyRules criterion rounds terminal commitment).
#[local] Instance task_doc : FromValue TaskPolicyRules := λ v,
  reassign ← field "assignment" false (field "allow_reassignment_on_reject" false bool_of) v;
  output ← field "completion" false (field "require_output" false bool_of) v;
  commitment ← commitment_of v;
  Ok (MkTaskPolicyRules reassign output commitment).
#[local] Instance handoff_doc : FromValue HandoffPolicyRules := λ v,
  timeout ← field "acceptance" 0 (field "implicit_accept_timeout_ms" 0 uint_of) v;
  commitment ← commitment_of v;
  Ok (MkHandoffPolicyRules timeout commitment).
Definition threshold_of (v : Value) : result string QuorumThreshold :=
  kind ← field "type" "n_of_m" string_of v; value ← field "value" f64_0 f64_of v;
  Ok (MkQuorumThreshold kind value).
Definition abstention_of (v : Value) : result string AbstentionRules :=
  counts ← field "counts_toward_quorum" false bool_of v;
  reading ← field "interpretation" "neutral" string_of v;
  Ok (MkAbstentionRules counts reading).
#[local] Instance quorum_doc : FromValue QuorumPolicyRules := λ v,
  threshold ← field "threshold" default_quorum_threshold threshold_of v;
  abstention ← field "abstention" default_abstention abstention_of v;
  commitment ← commitment_of v;
  Ok (MkQuorumPolicyRules threshold abstention commitment).
#[local] Instance decision_value : ToValue DecisionPolicyRules := λ _, Err "not written".

#[local] Instance builtin_docs : BuiltinRules.
Proof. split; vm_compute; reflexivity. Qed.

(** Three fifths of the roster must approve. *)
Definition three_fifths : PolicyDefinition := MkPolicyDefinition "org.three-fifths"
  "macp.mode.quorum.v1" "three fifths approve"
  (VObject [("threshold", VObject [("type", VString "percentage"); ("value", VUint 60)])]) 3.
#[local] Instance documents : PolicyDocuments := λ raw,
  if raw == "three fifths" then Ok three_fifths
  else if raw == "reserved" then Ok std_majority_policy
  else Err "expected value at line 1 column 1".

Definition registered : PolicyRegistry := (register three_fifths registry_new).1.

Lemma new_reachable : registry_reachable registry_new.
Proof. exists [], registry_new. by split; [|apply rtc_refl]. Qed.
Lemma registered_reachable : registry_reachable registered.
Proof.
  exists [], registry_new. split; [done|]. eapply rtc_l; [apply (step_register three_fifths)|].
  apply rtc_refl.
Qed.
Lemma registered_resolves : resolve registered "org.three-fifths" = Ok three_fifths.
Proof. vm_compute. reflexivity. Qed.

Lemma builtins_permanent_witness :
  registry_reachable registered ∧ resolve registered "" = Ok default_policy ∧
  get registered "policy.std.majority" = Some std_majority_policy ∧
  get registered "policy.std.nonesuch" = None.
Proof.
  destruct (builtins_permanent registered registered_reachable) as (Hd & _ & Hstd & _).
  split_and!; [apply registered_reachable|exact Hd| |]; by rewrite Hstd.
Defined.

Lemma register_contract_witness :
  ∃ e, register default_policy registry_new = (registry_new, Err e) ∧ coded e = true ∧
    validate_definition registry_new default_policy = Err e.
Proof.
  assert (register default_policy registry_new = (registry_new, Err
    [INVALID; Lit "cannot register with reserved policy_id '"; Lit DEFAULT_POLICY_ID; Lit "'"]))
    as Hr by (vm_compute; reflexivity).
  eexists. split; [exact Hr|]. split; [reflexivity|].
  by apply (register_contract _ _ _ _ Hr).
Defined.

Lemma rejection_listed (o1 o : PolicyFileOutcome) before rest after :
  o1 :: rest = before ++ o :: after → o = o1 ∨ o ∈ rest.
Proof. destruct before as [|o2 before]; intros [= <- ->]; [by left|right; set_solver]. Qed.

(** Listed out of order, with a file of another kind. *)
Definition one_policy : Directory := Ok
  [Ok (MkPolicyFile "notes.txt" "policies/notes.txt" (Ok "")); Err "gone";
   Ok (MkPolicyFile "quorum.json" "policies/quorum.json" (Ok "three fifths"))].
(** The second file in name order claims a reserved identifier. *)
Definition two_policies : Directory := Ok
  [Ok (MkPolicyFile "std.json" "policies/std.json" (Ok "reserved"));
   Ok (MkPolicyFile "quorum.json" "policies/quorum.json" (Ok "three fifths"))].

Lemma dry_run_predicts_load_witness :
  (∃ r, load_from_dir "policies" one_policy registry_new = (r, Ok 1) ∧
     is_Some (get r "org.three-fifths")) ∧
  (∃ r e, load_from_dir "policies" two_policies registry_new = (r, Err e) ∧
     Lit "policies/std.json" ∈ e).
Proof.
  split.
  - pose proof (dry_run_predicts_load registry_new "policies" one_policy eq_refl) as Hd.
    assert (validate_dir_with registry_new "policies" one_policy
      = Ok [MkPolicyFileOutcome "policies/quorum.json" (Ok "org.three-fifths")]) as Hv
      by (vm_compute; reflexivity). rewrite Hv in Hd.
    destruct Hd as [(_ & r & Hl & Hids)|(before & o & after & r & e & Ho & _ & Hno & _)].
    + exists r. split; [exact Hl|]. apply Hids. right. eexists. split; [left|reflexivity].
    + exfalso. apply Hno. by destruct (rejection_listed _ _ _ _ _ Ho) as [->|[]%elem_of_nil].
  - pose proof (dry_run_predicts_load registry_new "policies" two_policies eq_refl) as Hd.
    assert (∃ e, validate_dir_with registry_new "policies" two_policies
      = Ok [MkPolicyFileOutcome "policies/quorum.json" (Ok "org.three-fifths");
            MkPolicyFileOutcome "policies/std.json" (Err e)]) as [e0 Hv]
      by (eexists; vm_compute; reflexivity). rewrite Hv in Hd.
    destruct Hd as [(Hall & _)|(before & o & after & r & e & Ho & Hb & Hno & Hl & Hin)].
    + rewrite !Forall_cons in Hall. by destruct Hall as (_ & [] & _).
    + exists r, e. split; [exact Hl|]. clear Hl Hv.
      destruct (rejection_listed _ _ _ _ _ Ho) as [->|Ho2%list_elem_of_singleton]; [by destruct Hno|].
      rewrite Ho2 in Hin. exact Hin.
Defined.

(** *** A Decision session under the majority profile *)
Definition ballot : Vote := MkVote "p1" "APPROVE" "" "alice".
Definition voted : DecisionState := MkDecisionState ∅ [] []
  {["p1" := {["alice" := ballot]}]} PhVoting.
Definition no_vote : DecisionState := MkDecisionState ∅ [] [] ∅ PhVoting.
Definition empty_round : CommitmentContext := MkCommitmentContext std_majority_policy
  ["alice"; "bob"] true (CMDecision no_vote).

Lemma majority_resolves : resolve registry_new "policy.std.majority" = Ok std_majority_policy.
Proof. vm_compute. reflexivity. Qed.

Lemma bound_policy_evaluable_witness :
  ∃ denials, DefaultPolicyEvaluator empty_round = Deny denials ∧
    ∀ d, d ∈ denials → dr_code d ≠ INVALID_RULES ∧ dr_code d ≠ UNSUPPORTED_SCHEMA_VERSION.
Proof.
  eexists. split; [vm_compute; reflexivity|].
  eapply (bound_policy_evaluable registry_new "policy.std.majority" empty_round);
    [apply new_reachable|apply majority_resolves|by right|vm_compute; reflexivity].
Defined.


Lemma quorum_bar_attainable_witness :
  effective (MkQuorumThreshold "percentage" (f64_of_Z 60)) 7 = Approvals 5 ∧ 5 ≤ 7.
Proof.
  assert (from_value (policy_rules three_fifths) = Ok (MkQuorumPolicyRules
    (MkQuorumThreshold "percentage" (f64_of_Z 60)) default_abstention default_commitment_rules))
    as Hp by (vm_compute; reflexivity).
  pose proof (quorum_bar_attainable registered "org.three-fifths" three_fifths _ 7
    registered_reachable registered_resolves (or_intror eq_refl) Hp eq_refl
    ltac:(unfold u32_max; lia)) as Hbar.
  assert (effective (MkQuorumThreshold "percentage" (f64_of_Z 60)) 7 = Approvals 5) as He
    by (vm_compute; reflexivity).
  cbn [qpr_threshold] in Hbar. rewrite He in Hbar. split; [exact He|].
  by apply (proj2 (proj2 Hbar eq_refl)).
Defined.
End Demo.
