(* ===== verification/Runtime.v ===== *)
(** * The server runtime (src/runtime.rs, storage/compaction.rs, recovery.rs)

    The runtime around the step kernel: a registry of sessions, the in-memory
    log, durable storage that may refuse any write, and the stream of accepted
    envelopes. Every handler appends to the durable log before it changes the
    session. A handler holds the mutex of its session throughout, so handlers
    are atomic; the clock and the storage answer from streams of readings and
    outcomes, one per call. A refused write leaves storage as it was, and a
    write that is reported as done is on disk (the in-memory backend, which
    keeps nothing, is not durable storage). Metrics,
    traces and lifecycle notifications have no part in the model. *)

From stdpp Require Import prelude gmap strings.
From S2P Require Import Prelude RustStr Floats Extern Error Policy Wire SessionData.
From S2P Require Import Session SessionStart CommitmentHash ModeApi Step Replay Live.
From S2P Require Import Log LogReplay.
Open Scope Z_scope.

Record Server := MkServer {
  sv_sessions : gmap string Session;
  sv_log : LogStore;
  sv_disk : gmap string (list LogEntry);
  sv_snapshots : gmap string PersistedSession;
  sv_published : list Envelope;
  sv_clock : nat → Z;
  sv_io : nat → bool;
}.

Definition upd_sessions (f : gmap string Session → gmap string Session) (sv : Server) : Server :=
  MkServer (f (sv_sessions sv)) (sv_log sv) (sv_disk sv) (sv_snapshots sv) (sv_published sv)
    (sv_clock sv) (sv_io sv).
Definition upd_log (f : LogStore → LogStore) (sv : Server) : Server :=
  MkServer (sv_sessions sv) (f (sv_log sv)) (sv_disk sv) (sv_snapshots sv) (sv_published sv)
    (sv_clock sv) (sv_io sv).
Definition upd_disk (f : gmap string (list LogEntry) → gmap string (list LogEntry))
    (sv : Server) : Server :=
  MkServer (sv_sessions sv) (sv_log sv) (f (sv_disk sv)) (sv_snapshots sv) (sv_published sv)
    (sv_clock sv) (sv_io sv).
Definition upd_snapshots (f : gmap string PersistedSession → gmap string PersistedSession)
    (sv : Server) : Server :=
  MkServer (sv_sessions sv) (sv_log sv) (sv_disk sv) (f (sv_snapshots sv)) (sv_published sv)
    (sv_clock sv) (sv_io sv).
Definition upd_published (f : list Envelope → list Envelope) (sv : Server) : Server :=
  MkServer (sv_sessions sv) (sv_log sv) (sv_disk sv) (sv_snapshots sv) (f (sv_published sv))
    (sv_clock sv) (sv_io sv).

Record ProcessResult := MkProcessResult {
  pr_session_state : SessionState;
  pr_duplicate : bool;
}.

Record RuntimeConfig := MkRuntimeConfig {
  checkpoint_interval : Z;
  compact_terminal_logs : bool;
}.

(** The payloads of Signal and Progress envelopes: the [signal_type] of one,
    and whether the other decodes. *)
Class SignalCodec := {
  decode_signal : bytes → option string;
  decode_progress : bytes → option unit;
}.

(** The payloads of the runtime's own entries; replay does not read them. *)
Class AnnotationCodec := {
  encode_cancel : string → string → bytes;
  encode_suspend : string → string → bytes;
  encode_resume : string → string → Z → bytes;
}.

Abbreviation srv A := (stm Server MacpError A).

(** ** The environment *)
Definition now_ms : srv Z := λ sv,
  (MkServer (sv_sessions sv) (sv_log sv) (sv_disk sv) (sv_snapshots sv) (sv_published sv)
     (λ n, sv_clock sv (S n)) (sv_io sv), Ok (sv_clock sv O)).
Definition io_outcome {E} : stm Server E bool := λ sv,
  (MkServer (sv_sessions sv) (sv_log sv) (sv_disk sv) (sv_snapshots sv) (sv_published sv)
     (sv_clock sv) (λ n, sv_io sv (S n)), Ok (sv_io sv O)).

(** The outcome of [m], or [d] when it fails. *)
Definition st_catch {A} (m : srv A) (d : A) : srv A := λ sv,
  match m sv with
  | (sv', Ok a) => (sv', Ok a)
  | (sv', Err _) => (sv', Ok d)
  end.

Section runtime.
Context `{Uuids} `{Message SessionStartPayload} `{Serde PersistedSession}.
Context {source : ModeSource} `{SignalCodec} `{AnnotationCodec}.
Context (policies : PolicySource) (config : RuntimeConfig).

(** ** Storage ([StorageBackend]) *)
Definition append_log_entry (id : string) (e : LogEntry) : srv bool :=
  (let! ok := io_outcome in
   if ok then do! st_mod (upd_disk (log_append id e)); st_ret true else st_ret false)%stm.
Definition create_session_storage (id : string) : srv bool :=
  (let! ok := io_outcome in
   if ok then do! st_mod (upd_disk (create_session_log id)); st_ret true else st_ret false)%stm.
Definition replace_log (id : string) (entries : list LogEntry) : srv bool :=
  (let! ok := io_outcome in
   if ok then do! st_mod (upd_disk (replace_session_log id entries)); st_ret true
   else st_ret false)%stm.
Definition save_session {E} (session : Session) : stm Server E bool :=
  (let! ok := io_outcome in
   if ok then
     do! st_mod (upd_snapshots (<[ss_session_id session := persist session]>)); st_ret true
   else st_ret false)%stm.

(** Reads; [None] when storage does not answer. *)
Definition load_session {E} (id : string) : stm Server E (option (option Session)) :=
  (let! ok := io_outcome in
   if ok then st_read (λ sv, Ok (Some (unpersist <$> sv_snapshots sv !! id)))
   else st_ret None)%stm.
Definition load_log {E} (id : string) : stm Server E (option (list LogEntry)) :=
  (let! ok := io_outcome in
   if ok then st_read (λ sv, Ok (Some (default [] (sv_disk sv !! id)))) else st_ret None)%stm.
Definition list_session_ids {E} : stm Server E (option (list string)) :=
  (let! ok := io_outcome in
   if ok then st_read (λ sv, Ok (Some (map_to_list (sv_disk sv)).*1)) else st_ret None)%stm.
Definition delete_session (id : string) : srv bool :=
  (let! ok := io_outcome in
   if ok then
     do! st_mod (upd_disk (delete id)); do! st_mod (upd_snapshots (delete id)); st_ret true
   else st_ret false)%stm.

(** An append whose failure is [StorageFailed], followed by the in-memory one. *)
Definition record_entry (id : string) (e : LogEntry) : srv unit :=
  (let! ok := append_log_entry id e in
   if ok then st_mod (upd_log (log_append id e)) else st_fail StorageFailed)%stm.

Definition save_session_to_storage (session : Session) : srv unit :=
  (do! save_session session; st_ret ())%stm.

(** The mutation of a session behind its mutex. *)
Definition put_session (id : string) (session : Session) : srv unit :=
  st_mod (upd_sessions (<[id := session]>)).
Definition get_shared (id : string) : srv Session :=
  st_read (λ sv, ok_or (sv_sessions sv !! id) UnknownSession).

Definition publish_accepted_envelope (env : Envelope) : srv unit :=
  if str_is_empty (env_session_id env) then st_ret ()
  else st_mod (upd_published (λ l, l ++ [env])).

(** ** Checkpoints and compaction *)
Definition force_insert_checkpoint (id : string) (session : Session) : srv unit :=
  (let! now := now_ms in
   let checkpoint :=
     make_checkpoint_entry (to_vec (persist session)) id (ss_mode session) now 0 in
   let! ok := append_log_entry id checkpoint in
   if ok then st_mod (upd_log (log_append id checkpoint)) else st_ret ())%stm.

Definition maybe_insert_checkpoint (id : string) (session : Session) : srv unit :=
  if checkpoint_interval config =? 0 then st_ret ()
  else
    (let! log_len := st_read (λ sv, Ok (len (default [] (sv_log sv !! id)))) in
     if (log_len <? checkpoint_interval config)
        || negb (log_len mod checkpoint_interval config =? 0)
     then st_ret ()
     else force_insert_checkpoint id session)%stm.

(** [compact_session_log]. *)
Definition compact_session_log (id : string) (session : Session) (discarded : Z)
    : srv (option LogEntry) :=
  (let! now := now_ms in
   let checkpoint :=
     make_checkpoint_entry (to_vec (persist session)) id (ss_mode session) now discarded in
   let! ok := replace_log id [checkpoint] in
   st_ret (if ok then Some checkpoint else None))%stm.

Definition maybe_compact_log (id : string) (session : Session) : srv bool :=
  if negb (compact_terminal_logs config) then st_ret false
  else
    (let! discarded := st_read (λ sv, Ok
       match sv_log sv !! id with
       | Some entries => compaction_base entries + len (incoming entries)
       | None => 0
       end) in
     let! compacted := compact_session_log id session discarded in
     match compacted with
     | Some checkpoint =>
         do! st_mod (upd_log (replace_session_log id [checkpoint])); st_ret true
     | None => st_ret false
     end)%stm.

(** The log of a session that has ended is compacted, or gets a checkpoint. *)
Definition close_log (id : string) (session : Session) : srv unit :=
  (let! compacted := maybe_compact_log id session in
   if compacted then st_ret () else force_insert_checkpoint id session)%stm.

(** ** Expiry and synthesis *)

(** The session as it is left, and whether it expired. *)
Definition maybe_expire_session (id : string) (session : Session) : srv (Session * bool) :=
  (let! now := now_ms in
   if deadline_passed now session then
     do! record_entry id (make_internal_entry "TtlExpired" [] id (ss_mode session) now);
     let '(session, r) := expire session in
     do! put_session id session;
     match r with
     | Ok () => st_ret (session, true)
     | Err e => st_fail e
     end
   else st_ret (session, false))%stm.

(** The session as it is left, and whether an envelope was appended. *)
Definition synthesize_due_accept (id : string) (session : Session) (now : Z)
    : srv (Session * bool) :=
  match get_mode (ss_mode session) with
  | None => st_ret (session, false)
  | Some mode =>
      (let! next := st_read (λ _, next_synthetic mode session now) in
       match next with
       | None => st_ret (session, false)
       | Some syn =>
           let env := syn_envelope syn in
           do! record_entry id (make_incoming_entry env (env_timestamp_unix_ms env));
           let session := commit_synthetic syn session in
           do! put_session id session;
           do! save_session_to_storage session;
           do! maybe_insert_checkpoint id session;
           do! publish_accepted_envelope env;
           st_ret (session, true)
       end)%stm
  end.

(** ** Messages *)
Definition process_message (env : Envelope) : srv ProcessResult :=
  let id := env_session_id env in
  (let! session := get_shared id in
   let! now := now_ms in
   let! precheck := st_read (λ _, check_preconditions session env now) in
   match precheck with
   | Duplicate => st_ret (MkProcessResult (ss_state session) true)
   | PrecheckExpired =>
       let! expired := maybe_expire_session id session in
       do! save_session_to_storage expired.1;
       st_fail TtlExpired
   | Proceed =>
       let! mode := st_read (λ _, ok_or (get_mode (ss_mode session)) UnknownMode) in
       do! st_read (λ _, admit_envelope mode session env);
       let! synthesized := synthesize_due_accept id session now in
       let session := synthesized.1 in
       let! response := st_read (λ _, dispatch mode session env now) in
       do! record_entry id (make_incoming_entry env now);
       let session := commit env response now session in
       do! put_session id session;
       do! save_session_to_storage session;
       do! (if ss_state session == Resolved then close_log id session
            else maybe_insert_checkpoint id session);
       do! publish_accepted_envelope env;
       st_ret (MkProcessResult (ss_state session) false)
   end)%stm.

Definition process_signal (env : Envelope) : srv ProcessResult :=
  (do! st_read (λ _,
     if (env_message_type env == "Signal") && negb (is_empty (env_payload env)) then
       signal_type ← ok_or (decode_signal (env_payload env)) InvalidPayload;
       if blank signal_type then Err InvalidPayload else Ok ()
     else Ok ());
   do! st_read (λ _,
     if (env_message_type env == "Progress") && negb (is_empty (env_payload env)) then
       ok_or (decode_progress (env_payload env)) InvalidPayload
     else Ok ());
   st_ret (MkProcessResult Open false))%stm.

(** ** Session start *)
Definition start_options (mode_name : string) : StartOptions :=
  let opts := with_strict (requires_strict mode_name) default_start_options in
  match get_mode_version mode_name with
  | Some descriptor_version => with_descriptor_mode_version descriptor_version opts
  | None => opts
  end.

(** The sessions that count against [sender]'s limit; [busy] are the ones whose
    mutex another handler holds. *)
Definition counts_as_open (busy : string → bool) (sender : string) (now : Z)
    (kv : string * Session) : bool :=
  busy kv.1
  || ((ss_initiator_sender kv.2 == sender) && (ss_state kv.2 == Open)
      && (now <=? ss_ttl_expiry kv.2)).
Definition open_count (busy : string → bool) (sender : string) (now : Z)
    (sessions : gmap string Session) : Z :=
  len (List.filter (counts_as_open busy sender now) (map_to_list sessions)).

(** The reservation of the id in the registry. *)
Definition reserve (busy : string → bool) (max_open_sessions : option Z) (env : Envelope)
    (session : Session) : srv unit :=
  let id := env_session_id env in
  (do! st_read (λ sv,
     if bool_decide (is_Some (sv_sessions sv !! id)) then Err SessionAlreadyExists else Ok ());
   do! match max_open_sessions with
       | None => st_ret ()
       | Some max_open =>
           let! now := now_ms in
           st_read (λ sv,
             if open_count busy (env_sender env) now (sv_sessions sv) >=? max_open
             then Err RateLimited else Ok ())
       end;
   put_session id session)%stm.

Definition rollback (id : string) : srv unit := st_mod (upd_sessions (delete id)).

(** Creating the storage and writing the SessionStart entry. *)
Definition commit_start (env : Envelope) (accepted_at : Z) (v : ValidatedStart)
    (session : Session) : srv unit :=
  let id := env_session_id env in
  let start_entry :=
    make_start_entry env accepted_at (vs_bound_mode_version v) (ss_semantics_rev session)
      (vs_max_suspend_ms v) in
  (let! created := create_session_storage id in
   if negb created then do! rollback id; st_fail StorageFailed
   else
     let! appended := append_log_entry id start_entry in
     if negb appended then do! rollback id; st_fail StorageFailed
     else
       do! st_mod (upd_log (create_session_log id));
       do! st_mod (upd_log (log_append id start_entry));
       do! save_session session;
       publish_accepted_envelope env)%stm.

Definition process_session_start (busy : string → bool) (max_open_sessions : option Z)
    (env : Envelope) : srv ProcessResult :=
  let id := env_session_id env in
  (do! st_read (λ _, if blank (env_mode env) then Err InvalidEnvelope else Ok ());
   do! st_read (λ _, validate_session_id_for_acceptance id);
   let! mode := st_read (λ _, ok_or (get_mode (env_mode env)) UnknownMode) in
   let! accepted_at := now_ms in
   let! v := st_read (λ _, validate_session_start env accepted_at (start_options (env_mode env))) in
   let! existing := st_read (λ sv, Ok (sv_sessions sv !! id)) in
   match existing with
   | Some session =>
       if bool_decide (env_message_id env ∈ ss_seen_message_ids session)
       then st_ret (MkProcessResult (ss_state session) true)
       else st_fail SessionAlreadyExists
   | None =>
       let requested := sp_policy_version (vs_payload v) in
       let! policy := st_read (λ _, ok_or
         (policies (if str_is_empty requested then DEFAULT_POLICY_ID else requested))
         UnknownPolicyVersion) in
       let! session := st_read (λ _, accept v env mode (Some policy)) in
       do! reserve busy max_open_sessions env session;
       do! commit_start env accepted_at v session;
       st_ret (MkProcessResult (ss_state session) false)
   end)%stm.

Definition process (busy : string → bool) (max_open_sessions : option Z) (env : Envelope)
    : srv ProcessResult :=
  let mt := env_message_type env in
  if mt == "SessionStart" then process_session_start busy max_open_sessions env
  else if (mt == "Signal") || (mt == "Progress") then process_signal env
  else process_message env.

(** ** Reads and lifecycle calls *)
Definition get_session_checked (id : string) : srv (option Session) :=
  (let! shared := st_read (λ sv, Ok (sv_sessions sv !! id)) in
   match shared with
   | None => st_ret None
   | Some session =>
       let! checked := st_catch (maybe_expire_session id session) (session, false) in
       do! (if checked.2 : bool then save_session_to_storage checked.1 else st_ret ());
       st_ret (Some checked.1)
   end)%stm.

Definition cancel_session (id reason cancelled_by : string) : srv ProcessResult :=
  (let! session := get_shared id in
   let! expired := maybe_expire_session id session in
   let session := expired.1 in
   if is_terminal (ss_state session) then
     do! save_session_to_storage session;
     st_ret (MkProcessResult (ss_state session) false)
   else
     let! now := now_ms in
     do! record_entry id
           (make_internal_entry "SessionCancel" (encode_cancel reason cancelled_by) id
              (ss_mode session) now);
     let session := (cancel session).1 in
     do! put_session id session;
     do! save_session_to_storage session;
     do! close_log id session;
     st_ret (MkProcessResult Cancelled false))%stm.

Definition suspend_session (id reason suspended_by : string) : srv ProcessResult :=
  (let! session := get_shared id in
   let! expired := maybe_expire_session id session in
   let session := expired.1 in
   if ss_state session != Open then st_fail SessionNotOpen
   else
     let! now := now_ms in
     do! record_entry id
           (make_internal_entry "SessionSuspend" (encode_suspend reason suspended_by) id
              (ss_mode session) now);
     let '(session, r) := suspend now session in
     do! put_session id session;
     do! st_read (λ _, r);
     do! save_session_to_storage session;
     st_ret (MkProcessResult Suspended false))%stm.

(** The informational [banked_ms] of a resume entry. *)
Definition banked_ms (session : Session) : Z :=
  match ss_suspended_at_ms session with
  | Some suspended_at => Z.max (saturating_sub (ss_ttl_expiry session) suspended_at) 0
  | None => 0
  end.

Definition resume_session (id reason resumed_by : string) : srv ProcessResult :=
  (let! session := get_shared id in
   if ss_state session != Suspended then st_fail SessionNotOpen
   else
     let! now := now_ms in
     do! record_entry id
           (make_internal_entry "SessionResume"
              (encode_resume reason resumed_by (banked_ms session)) id (ss_mode session) now);
     let '(session, r) := resume now session in
     do! put_session id session;
     do! save_session_to_storage session;
     match r with
     | Ok () => st_ret (MkProcessResult Open false)
     | Err _ => st_fail TtlExpired
     end)%stm.

(** ** Background maintenance *)

(** [for] over the handles taken at the start, in the order of the hash map. *)
Definition for_sessions (body : string → Session → srv unit) : srv unit :=
  (let! ids := st_read (λ sv, Ok (map_to_list (sv_sessions sv)).*1) in
   foldr (λ id rest,
     let! shared := st_read (λ sv, Ok (sv_sessions sv !! id)) in
     do! match shared with Some session => body id session | None => st_ret () end;
     rest) (st_ret ()) ids)%stm.

Definition cleanup_one (now : Z) (id : string) (session : Session) : srv unit :=
  if (ss_state session != Open) || (now <=? ss_ttl_expiry session) then st_ret ()
  else
    (let entry := make_internal_entry "TtlExpired" [] id (ss_mode session) now in
     let! ok := append_log_entry id entry in
     if negb ok then st_ret ()
     else
       do! st_mod (upd_log (log_append id entry));
       let session := set_state Expired session in
       do! put_session id session;
       do! save_session_to_storage session;
       close_log id session)%stm.
Definition cleanup_expired_sessions : srv unit :=
  (let! now := now_ms in for_sessions (cleanup_one now))%stm.

(** A synthesis that fails is retried at the next tick. *)
Definition sweep_one (now : Z) (id : string) (session : Session) : srv unit :=
  if ss_state session != Open then st_ret ()
  else (do! st_catch (synthesize_due_accept id session now) (session, false); st_ret ())%stm.
Definition sweep_due_synthetic_accepts : srv unit :=
  (let! now := now_ms in for_sessions (sweep_one now))%stm.

(** A terminal session past its retention. *)
Definition is_stale (cutoff : Z) (session : Session) : bool :=
  is_terminal (ss_state session) && (ss_started_at_unix_ms session <? cutoff).

Definition retention_cutoff (now retention_secs : Z) : Z :=
  i64_wrap (now - i64_wrap (i64_wrap retention_secs * 1000)).

(** The sessions to evict, their removal from the registry, and from the log
    cache. *)
Definition stale_ids (cutoff : Z) : srv (list string) :=
  st_read (λ sv, Ok (List.filter (λ kv, is_stale cutoff kv.2) (map_to_list (sv_sessions sv))).*1).
Definition evict_registry (ids : list string) : srv unit :=
  st_mod (upd_sessions (λ m, foldr delete m ids)).
Definition evict_logs (ids : list string) : srv unit :=
  st_mod (upd_log (λ logs, foldr remove_session_log logs ids)).

Definition evict_stale_sessions (retention_secs : Z) : srv unit :=
  (let! now := now_ms in
   let! ids := stale_ids (retention_cutoff now retention_secs) in
   if is_empty ids then st_ret ()
   else do! evict_registry ids; evict_logs ids)%stm.

(** The registry's session decides when there is one, else the stored snapshot.
    Whether the session was deleted. *)
Definition gc_eligible (cutoff : Z) (id : string) : srv bool :=
  (let! shared := st_read (λ sv, Ok (sv_sessions sv !! id)) in
   match shared with
   | Some session => st_ret (is_stale cutoff session)
   | None =>
       let! loaded := load_session id in
       st_ret match loaded with Some (Some session) => is_stale cutoff session | _ => false end
   end)%stm.
Definition gc_delete (id : string) : srv bool :=
  (let! deleted := delete_session id in
   if deleted then
     do! st_mod (upd_sessions (delete id));
     do! st_mod (upd_log (remove_session_log id));
     st_ret true
   else st_ret false)%stm.
Definition gc_one (cutoff : Z) (id : string) : srv bool :=
  (let! eligible := gc_eligible cutoff id in
   if negb eligible then st_ret false else gc_delete id)%stm.

Fixpoint gc_loop (cutoff : Z) (ids : list string) (removed : Z) : srv Z :=
  match ids with
  | [] => st_ret removed
  | id :: ids =>
      (let! deleted := gc_one cutoff id in
       gc_loop cutoff ids (if deleted : bool then removed + 1 else removed))%stm
  end.
Definition gc_disk_sessions (retention_secs : Z) : srv Z :=
  (let! now := now_ms in
   let! ids := list_session_ids in
   match ids with
   | None => st_ret 0
   | Some ids => gc_loop (retention_cutoff now retention_secs) ids 0
   end)%stm.

(** ** Recovery at startup (src/recovery.rs) *)
Inductive IoErrorKind := InvalidData | Other.

Record RecoveryReport := MkRecoveryReport {
  rr_recovered : Z;
  rr_replay_mismatches : Z;
}.

(** The loop body of [recover_sessions]. *)
Definition recover_one (strict : bool) (id : string) (report : RecoveryReport)
    : stm Server IoErrorKind RecoveryReport :=
  (let! loaded := load_log id in
   match loaded with
   | None => if strict then st_fail InvalidData else st_ret report
   | Some log_entries =>
       if is_empty log_entries then st_ret report
       else
         match log_replay_session id log_entries (Some policies) with
         | Ok session =>
             let! stored := load_session id in
             let mismatches :=
               match stored with
               | Some (Some snapshot) => validate_replay_consistency session snapshot
               | _ => 0
               end in
             let! saved := save_session session in
             if negb saved && strict then st_fail Other
             else
               do! st_mod (upd_log (create_session_log id));
               do! st_mod (upd_log (λ logs, foldl (λ m e, log_append id e m) logs log_entries));
               do! st_mod (upd_sessions (<[id := session]>));
               st_ret (MkRecoveryReport (rr_recovered report + 1)
                 (rr_replay_mismatches report + mismatches))
         | Err _ => if strict then st_fail InvalidData else st_ret report
         end
   end)%stm.
Fixpoint recover_loop (strict : bool) (ids : list string) (report : RecoveryReport)
    : stm Server IoErrorKind RecoveryReport :=
  match ids with
  | [] => st_ret report
  | id :: ids => (let! report := recover_one strict id report in recover_loop strict ids report)%stm
  end.
Definition recover_sessions (strict : bool) : stm Server IoErrorKind RecoveryReport :=
  (let! ids := list_session_ids in
   match ids with
   | None => st_fail Other
   | Some ids => recover_loop strict ids (MkRecoveryReport 0 0)
   end)%stm.

(** A process that starts on the storage of [sv]. *)
Definition boot (io : nat → bool) (sv : Server) : Server :=
  MkServer ∅ ∅ (sv_disk sv) (sv_snapshots sv) [] (sv_clock sv) io.
End runtime.
