(* ===== verification/Recovery.v ===== *)
(** * Logs that rebuild a session (src/runtime.rs, src/replay.rs together)

    What it takes for a log to rebuild the session the runtime holds, under
    the registries of a later process: the entries the runtime appends and the
    checkpoints it writes keep it so. *)

From stdpp Require Import prelude gmap strings.
From S2P Require Import Prelude RustStr Floats Extern Error Policy Wire SessionData.
From S2P Require Import Session SessionStart CommitmentHash ModeApi Blind Step Replay Live.
From S2P Require Import Log LogReplay Runtime.
Open Scope Z_scope.

(** What the kernel and replay rely on in every registered mode. *)
Class ModeSourceLaws `{ModeSource} : Prop := {
  source_laws name mode : get_mode name = Some mode → ModeLaws mode;
  source_blind name mode : get_mode name = Some mode → ReplayBlind mode;
}.

(** ** Sessions that agree on all but activity *)

(** [t] is what replay makes of [s]: the same but for participant activity and,
    once expired, the start of a pending suspension. *)
Definition same_history (s t : Session) : Prop :=
  ∃ counts last at_ms, t = with_activity counts last (set_suspended_at_ms at_ms s) ∧
    (at_ms = ss_suspended_at_ms s ∨ ss_state s = Expired).

Lemma with_activity_self s :
  with_activity (ss_participant_message_counts s) (ss_participant_last_seen s) s = s.
Proof. by destruct s. Qed.
Lemma set_suspended_self s : set_suspended_at_ms (ss_suspended_at_ms s) s = s.
Proof. by destruct s. Qed.

Lemma same_history_refl s counts last : same_history s (with_activity counts last s).
Proof. exists counts, last, (ss_suspended_at_ms s). rewrite set_suspended_self. auto. Qed.

Lemma same_history_live s t :
  same_history s t → ss_state s ≠ Expired → ∃ counts last, t = with_activity counts last s.
Proof.
  intros (c & l & a & -> & [->|?]) Hs; [|done]. rewrite set_suspended_self. eauto.
Qed.

Lemma same_history_fields s t :
  same_history s t → ss_mode t = ss_mode s ∧ ss_session_id t = ss_session_id s ∧
  ss_state t = ss_state s.
Proof. by intros (c & l & a & -> & _). Qed.

Definition no_checkpoint (e : LogEntry) : Prop := is_kind Checkpoint e = false.

Lemma replay_entries_app id l1 l2 mode s s1 :
  replay_entries id l1 mode s = Ok s1 →
  replay_entries id (l1 ++ l2) mode s = replay_entries id l2 mode s1.
Proof.
  revert s. induction l1 as [|e l1 IH]; intros s E; simpl in *; [by simplify_eq|].
  destruct (replay_entry id e mode s) as [s2 [[]|e2]]; [by apply IH|done].
Qed.

(** Lifecycle calls do not look at activity. *)
Lemma run_call_activity c counts last s :
  run_call c (with_activity counts last s)
  = (with_activity counts last (run_call c s).1, (run_call c s).2).
Proof.
  destruct c; unfold run_call, suspend, resume, cancel, expire, effective_max_suspend_ms;
    cbv zeta;
    repeat (simpl; match goal with
      | |- context [if ?b then _ else _] =>
          lazymatch b with context [if _ then _ else _] => fail | _ => destruct b end
      end);
    reflexivity.
Qed.

(** ** Logs that rebuild a session *)
Section backing.
Context `{Message SessionStartPayload} `{Serde PersistedSession}.

(** What the names of policies and modes stand for, over the life of the storage;
    a process has only some of them registered at a time. *)
Context (defined : PolicySource) (known : ModeSource) `{!ModeSourceLaws}.

(** These registries have the policy the session is bound to, and its mode. *)
Record serves (policies : PolicySource) (modes : ModeSource) (s : Session) : Prop := {
  sv_policy : policies (ss_policy_version s) = ss_policy_definition s;
  sv_mode : get_mode (ModeSource := modes) (ss_mode s) = get_mode (ModeSource := known) (ss_mode s);
  sv_strict : requires_strict (ModeSource := modes) (ss_mode s)
    = requires_strict (ModeSource := known) (ss_mode s);
}.

(** What a process has registered: names stand for what they always do, and a
    policy is registered under its own id. *)
Record offered (policies : PolicySource) (modes : ModeSource) : Prop := {
  of_policy k p : policies k = Some p → defined k = Some p ∧ policy_id p = k;
  of_mode name mode : get_mode (ModeSource := modes) name = Some mode →
    get_mode (ModeSource := known) name = Some mode ∧
    requires_strict (ModeSource := modes) name = requires_strict (ModeSource := known) name;
}.

Lemma serves_bound policies modes s t :
  bound_fields t = bound_fields s → serves policies modes s → serves policies modes t.
Proof. unfold bound_fields. intros Hb [Hp Hm Hs]. constructor; congruence. Qed.

(** [l] is a log that rebuilds [s] wherever it is served, and whatever the runtime
    appends to it is replayed on top of what it rebuilt. *)
Record backs (id : string) (l : list LogEntry) (s : Session) : Prop := {
  bk_id : ss_session_id s = id;
  bk_ttl : 0 < ss_ttl_ms s;
  bk_rev : 1 ≤ ss_semantics_rev s;
  bk_policy : ∃ p, defined (ss_policy_version s) = Some p ∧ ss_policy_definition s = Some p;
  bk_replay : ∃ mode t, get_mode (ss_mode s) = Some mode ∧ same_history s t ∧
    ∀ policies modes, serves policies modes s → ∀ l', Forall no_checkpoint l' →
      log_replay_session (source := modes) id (l ++ l') (Some policies) = replay_entries id l' mode t;
}.

Lemma same_history_bound s t : same_history s t → bound_fields t = bound_fields s.
Proof. by intros (c & l & a & -> & _). Qed.

Lemma backs_served id l s : backs id l s → serves defined known s.
Proof. intros [_ _ _ (p & Hp & Hd) _]. constructor; [congruence|done..]. Qed.

Lemma backs_replays id l s policies modes :
  backs id l s → serves policies modes s →
  ∃ t, log_replay_session (source := modes) id l (Some policies) = Ok t ∧ same_history s t ∧ backs id l t.
Proof.
  intros [Hid Httl Hrev Hp (mode & t & Hm & Hs & Hl)] Hsv. exists t.
  pose proof (Hl _ _ Hsv [] (Forall_nil_2 _)) as E. rewrite app_nil_r in E. split_and!; [done|done|].
  pose proof (same_history_bound _ _ Hs) as Hb. destruct Hs as (c & last & a & -> & _).
  constructor; [done..|]. exists mode, (with_activity c last (set_suspended_at_ms a s)).
  split; [done|]. split.
  - rewrite <- (with_activity_self (with_activity _ _ _)) at 2. apply same_history_refl.
  - intros policies' modes' Hsv'. apply Hl. by eapply serves_bound; [symmetry|].
Qed.

Lemma backs_nonempty id l s : backs id l s → l ≠ [].
Proof.
  intros Hb ->. pose proof (backs_served _ _ _ Hb) as Hs.
  by destruct (backs_replays _ _ _ _ _ Hb Hs) as (t & E & _).
Qed.

(** [s'] is [s] after the entry [e], also on replay. *)
Record entry_step (id : string) (e : LogEntry) (s s' : Session) : Prop := {
  es_kind : no_checkpoint e;
  es_bound : bound_fields s' = bound_fields s;
  es_live : ss_state s ≠ Expired;
  es_replay mode counts last : get_mode (ss_mode s) = Some mode → ∃ t,
    replay_entry id e mode (with_activity counts last s) = (t, Ok ()) ∧ same_history s' t;
}.

Lemma backs_append id l e s s' :
  backs id l s → entry_step id e s s' → backs id (l ++ [e]) s'.
Proof.
  intros [Hid Httl Hrev Hpol (mode & t & Hm & Hs & Hl)] [Hk Hb Hlive Hr].
  apply same_history_live in Hs as (counts & last & ->); [|done].
  destruct (Hr mode counts last Hm) as (t' & Ht & Hs').
  assert (∀ policies modes, serves policies modes s' → serves policies modes s) as Hsv
    by (intros policies modes; by apply serves_bound).
  unfold bound_fields in Hb. simplify_eq.
  constructor; [congruence|congruence|congruence| |].
  { destruct Hpol as (p & Hk' & Hp). exists p. split; congruence. }
  exists mode, t'. split; [congruence|]. split; [done|]. intros policies modes Hs l' Hl'.
  rewrite <- app_assoc, Hl by (by auto || by constructor). simpl. by rewrite Ht.
Qed.

(** Checkpoints of a session bound to a registered policy read back. *)
Class SnapshotCodec : Prop :=
  snapshot_reread s k p : defined k = Some p → ss_policy_definition s = Some p →
    from_slice (to_vec (persist s)) = Some (persist s).
Context `{!SnapshotCodec}.

Lemma last_checkpoint_none l : Forall no_checkpoint l → last_checkpoint l = None.
Proof. induction 1 as [|e l He _ IH]; simpl; [done|]. by rewrite IH, He. Qed.

Lemma last_checkpoint_app l0 c l :
  is_kind Checkpoint c = true → Forall no_checkpoint l →
  last_checkpoint (l0 ++ c :: l) = Some (c, l).
Proof.
  intros Hc Hl. induction l0 as [|e l0 IH]; simpl; [|by rewrite IH].
  by rewrite last_checkpoint_none, Hc.
Qed.

(** Whatever precedes it, a checkpoint rebuilds the session it was taken of. *)
Lemma backs_checkpoint id l l0 s mode_name now discarded :
  backs id l s →
  backs id (l0 ++ [make_checkpoint_entry (to_vec (persist s)) id mode_name now discarded]) s.
Proof.
  intros [Hid Httl Hrev (p & Hk & Hp) (mode & t & Hm & _)].
  constructor; [done..|by exists p|]. exists mode, (with_activity ∅ ∅ s).
  split; [done|]. split; [apply same_history_refl|]. intros policies modes Hsv l' Hl'.
  unfold log_replay_session, try_replay_from_checkpoint.
  rewrite <- app_assoc. simpl app. rewrite last_checkpoint_app by done.
  cbn [le_raw_payload make_checkpoint_entry].
  rewrite (snapshot_reread s _ p) by done. cbn [mbind result_bind ok_or].
  rewrite unpersist_persist by done.
  replace (set_session_id id (core s)) with (with_activity ∅ ∅ s)
    by (by subst id; destruct s).
  simpl. rewrite Hp, andb_false_r, (sv_mode _ _ _ Hsv), Hm. simpl.
  by destruct (replay_entries id l' mode _).
Qed.

(** ** The entries the runtime writes *)

(** A logged envelope is the accepted one up to what no mode looks at. *)
Lemma recorded_envelope_readdress env at_ms id m :
  ∃ v m' ts, recorded_envelope (make_incoming_entry env at_ms) id m = readdress v m' id ts env.
Proof. repeat eexists. Qed.

(** Replaying a logged envelope on a session whose activity differs. *)
Lemma replay_envelope id env at_ms s mode counts last r :
  ReplayBlind mode → 1 ≤ ss_semantics_rev s → ss_state s = Open → env_message_id env ≠ "" →
  recorded_at (make_incoming_entry env at_ms) = at_ms →
  authorize_sender mode s env = Ok () →
  on_message_at mode s env (MkMessageContext at_ms) = Ok r →
  replay_entry id (make_incoming_entry env at_ms) mode (with_activity counts last s)
  = (with_activity counts last
       (apply_mode_response r (insert_seen (env_message_id env) s)), Ok ()).
Proof.
  intros Hblind Hrev Ho Hid Hat Ha Hr.
  change (apply_envelope (recorded_envelope (make_incoming_entry env at_ms) id (ss_mode s))
    (recorded_at (make_incoming_entry env at_ms)) false mode (with_activity counts last s)
    = (with_activity counts last
         (apply_mode_response r (insert_seen (env_message_id env) s)), Ok ())).
  destruct (recorded_envelope_readdress env at_ms id (ss_mode s)) as (v & m & ts & ->).
  rewrite Hat. unfold apply_envelope.
  rewrite bool_decide_eq_true_2 by done. cbn [negb].
  rewrite blind_authorize, Ha. cbn [mbind result_bind].
  rewrite blind_message by done. rewrite Hr. unfold insert_seen_nonempty, str_is_empty.
  cbn [env_message_id readdress]. rewrite bool_decide_eq_false_2 by done. by destruct r.
Qed.

Lemma entry_step_message id env now r s mode :
  get_mode (ss_mode s) = Some mode → 1 ≤ ss_semantics_rev s → ss_state s = Open →
  env_message_id env ≠ "" → now ≠ 0 → authorize_sender mode s env = Ok () →
  dispatch mode s env now = Ok r →
  entry_step id (make_incoming_entry env now) s (commit env r now s).
Proof.
  intros Hm Hrev Ho Hid Hnow Ha Hr. constructor; [done|by destruct r|congruence|].
  intros mode' counts last Hm'. simplify_eq.
  eexists. split; [apply replay_envelope with (r:=r); try done|].
  - by eapply source_blind.
  - unfold recorded_at. simpl. by rewrite (proj2 (Z.eqb_neq now 0)).
  - exists counts, last, (ss_suspended_at_ms s). split; [by destruct s, r|left; by destruct r].
Qed.

Lemma entry_step_synthetic id now syn s mode :
  get_mode (ss_mode s) = Some mode → 1 ≤ ss_semantics_rev s →
  next_synthetic mode s now = Ok (Some syn) →
  entry_step id (make_incoming_entry (syn_envelope syn)
    (env_timestamp_unix_ms (syn_envelope syn))) s (commit_synthetic syn s).
Proof.
  intros Hm Hrev Hn. pose proof (source_laws _ _ Hm) as Hlaws.
  apply next_synthetic_ok in Hn as (Ho & Hdue & _ & Ha & Hr).
  destruct syn as [env r]. simpl in *.
  constructor; [done|by destruct r|congruence|].
  intros mode' counts last Hm'. simplify_eq.
  eexists. split; [apply replay_envelope with (r:=r); try done|apply same_history_refl].
  - by eapply source_blind.
  - by eapply synthetic_id.
  - unfold recorded_at. simpl. by destruct (_ =? 0).
Qed.

(** The message type of the entry that records a call. *)
Definition call_type (c : SessionCall) : string :=
  match c with
  | CallSuspend _ => "SessionSuspend"
  | CallResume _ => "SessionResume"
  | CallCancel => "SessionCancel"
  | CallExpire => "TtlExpired"
  end.
Definition call_at (c : SessionCall) (now : Z) : Prop :=
  match c with CallSuspend at_ms | CallResume at_ms => at_ms = now | _ => True end.

Lemma entry_step_call c id payload id' mode_name now s :
  call_at c now → is_terminal (ss_state s) = false →
  entry_step id (make_internal_entry (call_type c) payload id' mode_name now) s (run_call c s).1.
Proof.
  intros Hat Ht. destruct (run_call c s) as [s' r] eqn:E. cbn [fst].
  assert (ss_state s ≠ Expired) as Hlive by (by intros Hs; rewrite Hs in Ht).
  constructor; [done|by eapply run_call_bound|done|].
  intros mode counts last _.
  assert (replay_event (ss_mode (with_activity counts last s)) id
    (make_internal_entry (call_type c) payload id' mode_name now) = Some (call_event c)) as He.
  { assert (recorded_at (make_internal_entry (call_type c) payload id' mode_name now) = now)
      as Hnow by (unfold recorded_at; simpl; by destruct (now =? 0)).
    destruct c; simpl in Hat; subst; cbn -[recorded_at] in *; by rewrite ?Hnow. }
  unfold replay_entry. rewrite He.
  assert (c = CallExpire ∨ c ≠ CallExpire) as [->|Hc] by (destruct c; auto).
  - eexists. split; [done|]. simpl in E. unfold expire in E. rewrite Ht in E. simplify_eq.
    exists counts, last, (ss_suspended_at_ms s). split; [by destruct s|by right].
  - pose proof (run_call_activity c counts last s) as Hrun. rewrite E in Hrun.
    exists (with_activity counts last s'). split; [|apply same_history_refl].
    destruct c; simpl in *; by rewrite ?Hrun.
Qed.

(** The janitor expires a session without clearing its suspension. *)
Lemma entry_step_janitor id id' mode_name now s :
  ss_state s = Open →
  entry_step id (make_internal_entry "TtlExpired" [] id' mode_name now) s (set_state Expired s).
Proof.
  intros Ho. constructor; [done|done|congruence|]. intros mode counts last _.
  exists (with_activity counts last (set_state Expired s)). split; [done|].
  apply same_history_refl.
Qed.

(** ** The SessionStart entry *)

(** Replay of a start whose envelope was restamped. *)
Lemma replay_start_restamp env ts now rev susp bmv policy strict mode :
  ReplayBlind mode →
  let env' := readdress (env_macp_version env) (env_mode env) (env_session_id env) ts env in
  ttl_base env' now = ttl_base env now →
  replay_start (MkRecordedStart env' now rev susp bmv policy strict) mode
  = replay_start (MkRecordedStart env now rev susp bmv policy strict) mode.
Proof.
  intros Hblind env' Hb. unfold replay_start. cbn [rs_envelope rs_strict].
  change (env_mode env') with (env_mode env). set (b := default _ _).
  change (replay_payload env' b) with (replay_payload env b).
  destruct (replay_payload env b) as [payload|e]; [|done]. cbn [mbind result_bind].
  destruct (if b then _ else _) as [[]|e]; [|done].
  destruct (if negb b && _ then _ else _) as [ttl|e]; [|done].
  cbn [mbind result_bind].
  assert (replay_session (MkRecordedStart env' now rev susp bmv policy strict) payload ttl
    = replay_session (MkRecordedStart env now rev susp bmv policy strict) payload ttl) as ->.
  { unfold replay_session. cbn [rs_envelope rs_accepted_at_ms rs_semantics_rev
      rs_max_suspend_ms rs_bound_mode_version rs_policy]. rewrite Hb. reflexivity. }
  generalize (replay_session (MkRecordedStart env now rev susp bmv policy strict) payload ttl).
  intros s. rewrite <- (with_activity_self s) at 1. unfold env'. by rewrite blind_start.
Qed.

Lemma recorded_envelope_start env at_ms bmv rev susp id m :
  env_macp_version env = MACP_VERSION → env_mode env ≠ "" → env_session_id env = id →
  recorded_envelope (make_start_entry env at_ms bmv rev susp) id m
  = readdress (env_macp_version env) (env_mode env) (env_session_id env)
      (if env_timestamp_unix_ms env =? 0 then at_ms else env_timestamp_unix_ms env) env.
Proof.
  intros Hv Hm <-. unfold recorded_envelope, readdress. simpl. unfold str_is_empty.
  by rewrite Hv, (bool_decide_eq_false_2 _ Hm).
Qed.

Lemma restamp_base env v m id now :
  ttl_base (readdress v m id
    (if env_timestamp_unix_ms env =? 0 then now else env_timestamp_unix_ms env) env) now
  = ttl_base env now.
Proof.
  unfold ttl_base. simpl. destruct (env_timestamp_unix_ms env =? 0) eqn:E; [|done].
  apply Z.eqb_eq in E. rewrite E. simpl. by destruct (now >? 0).
Qed.

End backing.

Section starting.
Context `{Message SessionStartPayload} `{Serde PersistedSession} `{Uuids} (at_start modes : ModeSource).

Lemma accept_bound v env mode policy s :
  accept v env mode policy = Ok s →
  ∃ pv, bind_policy_version policy (sp_policy_version (vs_payload v)) = Ok pv ∧
    bound_fields s = bound_fields (start_session v env policy pv).
Proof.
  intros (pv & r & Hpv & _ & _ & _ & ->)%accept_ok. exists pv. split; [done|]. apply apply_response_bound.
Qed.

Lemma recorded_start_head env now bmv rev susp mode l :
  env_macp_version env = MACP_VERSION → env_mode env ≠ "" →
  env_message_type env = "SessionStart" → get_mode (env_mode env) = Some mode →
  let e := make_start_entry env now bmv rev susp in
  recorded_start (env_session_id env) (e :: l)
  = Ok (e, MkRecordedStart (readdress (env_macp_version env) (env_mode env) (env_session_id env)
             (if env_timestamp_unix_ms env =? 0 then now else env_timestamp_unix_ms env) env)
             now rev susp bmv None (Some (requires_strict (env_mode env))), mode).
Proof.
  intros Hv Hne Hmt Hm e. unfold recorded_start.
  assert (List.find is_start_entry (e :: l) = Some e) as ->.
  { simpl. unfold is_start_entry. simpl. by rewrite Hmt. }
  cbn [ok_or mbind result_bind]. change (le_mode e) with (env_mode env).
  unfold str_is_empty. rewrite (bool_decide_eq_false_2 _ Hne), Hm.
  cbn [ok_or mbind result_bind]. subst e. by rewrite recorded_envelope_start.
Qed.

(** The start entry alone rebuilds the accepted session, in a process with the
    registries [policies] and [modes], whichever modes the session was accepted
    with. *)
Lemma start_replays policies env now mode v policy s :
  ModeLaws mode → ReplayBlind mode → get_mode (env_mode env) = Some mode →
  requires_strict (env_mode env) = requires_strict (ModeSource := at_start) (env_mode env) →
  blank (env_mode env) = false →
  validate_session_start env now (start_options (source := at_start) (env_mode env)) = Ok v →
  policies (if str_is_empty (sp_policy_version (vs_payload v)) then DEFAULT_POLICY_ID
            else sp_policy_version (vs_payload v)) = Some policy →
  accept v env mode (Some policy) = Ok s →
  let e := make_start_entry env now (vs_bound_mode_version v) (ss_semantics_rev s)
             (vs_max_suspend_ms v) in
  ∀ l, Forall no_checkpoint l →
  log_replay_session (env_session_id env) (e :: l) (Some policies)
  = replay_entries (env_session_id env) l mode s.
Proof.
  intros Hlaws Hblind Hm Hstrict Hblank Hv Hp Ha e l Hl.
  pose proof (replay_start_eq mode env now _ _ v s Hv Ha) as Hr.
  apply accept_bound in Ha as (pv & _ & Hb).
  assert (env_mode env ≠ "") as Hne by (intros E; by rewrite E in Hblank).
  apply validate_session_start_ok in Hv
    as (Hshape & Hmt & Hpay & Hdec & _ & _ & _ & _ & _ & _ & Hat & _).
  assert (env_macp_version env = MACP_VERSION) as Hver.
  { unfold check_envelope_shape in Hshape. res_inv. by bool_simp. }
  unfold log_replay_session, try_replay_from_checkpoint.
  rewrite last_checkpoint_none by (by constructor). cbn [mbind result_bind].
  unfold replay_from_start, e. rewrite recorded_start_head with (mode := mode) by done. fold e.
  cbn [mbind result_bind option_bind]. unfold requested_policy, parse_session_start_payload.
  cbn [le_raw_payload e make_start_entry]. rewrite Hdec.
  rewrite (proj2 (is_empty_false _) Hpay). cbn [ok_or]. rewrite Hp. unfold with_policy.
  cbn [rs_envelope rs_accepted_at_ms rs_semantics_rev rs_max_suspend_ms rs_bound_mode_version
    rs_strict].
  assert (record_of env (start_options (source := at_start) (env_mode env)) v s = MkRecordedStart env now
    (ss_semantics_rev s) (vs_max_suspend_ms v) (vs_bound_mode_version v) (Some policy)
    (Some (requires_strict (env_mode env)))) as Hrec.
  { unfold bound_fields in Hb. injection Hb as ? ? ? ? ? Hat' Hms ? ? ? ? ? ? ? ? Hpol.
    simpl in Hat', Hms, Hpol. unfold record_of, start_options. rewrite Hstrict.
    destruct (get_mode_version (ModeSource := at_start) (env_mode env)); simpl; unfold recorded_with_strict, from_session;
      simpl; by rewrite Hat', Hms, Hpol, Hat. }
  rewrite Hrec in Hr. rewrite (replay_start_restamp env), Hr; [done|done|].
  apply restamp_base.
Qed.

End starting.

Section accepted.
Context `{Message SessionStartPayload} `{Serde PersistedSession} `{Uuids}.
Context (defined : PolicySource) (known : ModeSource) `{!ModeSourceLaws}.

Lemma backs_start policies modes env now mode v policy s :
  offered defined known policies modes → get_mode (ModeSource := modes) (env_mode env) = Some mode →
  blank (env_mode env) = false →
  validate_session_start env now (start_options (source := modes) (env_mode env)) = Ok v →
  policies (if str_is_empty (sp_policy_version (vs_payload v)) then DEFAULT_POLICY_ID
            else sp_policy_version (vs_payload v)) = Some policy →
  accept v env mode (Some policy) = Ok s →
  backs defined known (env_session_id env)
    [make_start_entry env now (vs_bound_mode_version v) (ss_semantics_rev s) (vs_max_suspend_ms v)] s.
Proof.
  intros [Hpols Hmodes] Hm Hblank Hv Hp Ha.
  destruct (Hpols _ _ Hp) as [Hdef Hname]. destruct (Hmodes _ _ Hm) as [Hknown Hstrict].
  pose proof (@source_laws known _ _ _ Hknown) as Hlaws.
  pose proof (@source_blind known _ _ _ Hknown) as Hblind.
  pose proof (λ P M HM HS HP, start_replays modes M P env now mode v policy s
    Hlaws Hblind HM HS Hblank Hv HP Ha) as Hr. cbv zeta in Hr.
  apply accept_bound in Ha as (pv & Hpv & Hb).
  apply validate_session_start_ok in Hv as (_ & _ & _ & _ & _ & _ & _ & Httl & _).
  set (key := if str_is_empty _ then _ else _) in *.
  assert (pv = key) as ->.
  { unfold bind_policy_version in Hpv. subst key. destruct (str_is_empty _) in *; [congruence|].
    destruct (_ != _) in Hpv; congruence. }
  unfold bound_fields in Hb.
  injection Hb as Hid Hmode ? ? Httl' ? ? Hrev ? ? ? Hkey ? ? ? Hpol. simpl in *.
  constructor; [done|lia|by rewrite Hrev|exists policy; by rewrite Hkey|].
  exists mode, s. split; [by rewrite Hmode|]. split.
  - rewrite <- (with_activity_self s) at 2. apply same_history_refl.
  - intros P M [HP HM HS]. rewrite Hmode in *. apply Hr; congruence.
Qed.
End accepted.
