(* ===== verification/Durable.v ===== *)
(** * Durability of the server runtime (src/runtime.rs, src/recovery.rs)

    Whatever the runtime does, whatever is registered with it meanwhile, and
    whichever of its writes storage refuses, the durable log of every session
    it holds rebuilds that session, so a restart that still has the session's
    policy and mode recovers it. A crash inside a handler leaves on disk what a
    run leaves in which storage refuses every write from that point on. Left
    out are sessions on whose log a refused write left something, or whose id
    was used again after an eviction. *)

From stdpp Require Import prelude gmap strings.
From S2P Require Import Prelude RustStr Floats Extern Error Policy Wire SessionData.
From S2P Require Import Session SessionStart CommitmentHash ModeApi Blind Step Replay Live.
From S2P Require Import Log LogReplay Runtime Recovery.
Open Scope Z_scope.

Section durable.
Context `{Uuids} `{Message SessionStartPayload} `{Serde PersistedSession}.
Context `{SignalCodec} `{AnnotationCodec}.
Context (defined : PolicySource) (known : ModeSource) `{!ModeSourceLaws} `{!SnapshotCodec defined}.

(** The sessions nothing is claimed of. *)
Context (exempt : string → Prop).

(** ** The invariant *)

(** Every session of the registry is rebuilt by its log, and so is some session
    by every log that is not empty. *)
Definition kept (id : string) (l : list LogEntry) (s : Session) : Prop :=
  ¬ exempt id → backs defined known id l s.
Definition backed (m : gmap string Session) (d : gmap string (list LogEntry)) : Prop :=
  (∀ id s, m !! id = Some s → kept id (default [] (d !! id)) s) ∧
  (∀ id l, d !! id = Some l → ¬ exempt id → l = [] ∨ ∃ s, backs defined known id l s).

(** ... and the clock does not read 0, which the log uses for a missing time. *)
Definition durable (sv : Server) : Prop :=
  backed (sv_sessions sv) (sv_disk sv) ∧ ∀ n, sv_clock sv n ≠ 0.

Lemma backed_write m d id l s :
  backed m d → kept id l s → backed (<[id := s]> m) (<[id := l]> d).
Proof.
  intros [Hm Hd] Hb. split; intros id' x.
  - intros [[<- <-]|[Hne Hx]]%lookup_insert_Some.
    + by rewrite lookup_insert_eq.
    + rewrite lookup_insert_ne by done. by apply Hm.
  - intros [[<- <-]|[Hne Hx]]%lookup_insert_Some; [right; by eauto|by eapply Hd].
Qed.

Lemma backed_delete m d id : backed m d → backed (delete id m) d.
Proof. intros [Hm Hd]. split; [|done]. intros id' s [_ ?]%lookup_delete_Some. auto. Qed.

Lemma backed_create m d id : backed m d → backed m (create_session_log id d).
Proof.
  intros [Hm Hd]. unfold create_session_log. split; intros id' x.
  - intros Hx%Hm. by destruct (decide (id = id')) as [->|];
      [rewrite lookup_insert_eq|rewrite lookup_insert_ne].
  - intros [[<- <-]|[_ ?]]%lookup_insert_Some; [|by eapply Hd].
    destruct (d !! id) as [l|] eqn:E; [by eapply Hd|by left].
Qed.

(** The session [s] of the registry, in a durable state. *)
Definition held (id : string) (s : Session) (sv : Server) : Prop :=
  durable sv ∧ sv_sessions sv !! id = Some s.
(** The log is ahead of the registry, which still has to move to [s]. *)
Definition pending (id : string) (s : Session) (sv : Server) : Prop :=
  durable (upd_sessions (<[id := s]>) sv).

Lemma held_backs id s sv : held id s sv → kept id (default [] (sv_disk sv !! id)) s.
Proof. intros [[[Hm _] _] ?]. auto. Qed.

(** ** Triples: a handler that fails leaves a durable state *)
Definition triple {A} (P : Server → Prop) (m : srv A) (Q : A → Server → Prop) : Prop :=
  ∀ sv, P sv → match m sv with
               | (sv', Ok a) => Q a sv'
               | (sv', Err _) => durable sv'
               end.

Lemma triple_bind {A B} P (m : srv A) (f : A → srv B) Q R :
  triple P m Q → (∀ a, triple (Q a) (f a) R) → triple P (st_bind m f) R.
Proof.
  intros Hm Hf sv HP. unfold st_bind. specialize (Hm sv HP).
  destruct (m sv) as [sv' [a|e]]; [|done]. exact (Hf a sv' Hm).
Qed.

Lemma triple_ret {A} (P : Server → Prop) (a : A) Q : (∀ sv, P sv → Q a sv) → triple P (st_ret a) Q.
Proof. intros HPQ sv HP. by apply HPQ. Qed.

Lemma triple_fail {A} (P : Server → Prop) e (Q : A → Server → Prop) :
  (∀ sv, P sv → durable sv) → triple P (st_fail e) Q.
Proof. intros HP sv Hsv. by apply HP. Qed.

Lemma triple_mod P f (Q : unit → Server → Prop) :
  (∀ sv, P sv → Q () (f sv)) → triple P (st_mod f) Q.
Proof. intros HPQ sv HP. by apply HPQ. Qed.

(** A read hands on its own equation. *)
Lemma triple_read {A} P (f : Server → result MacpError A) :
  (∀ sv, P sv → durable sv) → triple P (st_read f) (λ a sv, P sv ∧ f sv = Ok a).
Proof. intros HP sv Hsv. unfold st_read. destruct (f sv) eqn:E; [done|by apply HP]. Qed.

Lemma triple_weaken {A} (P P' : Server → Prop) (m : srv A) Q Q' :
  triple P m Q → (∀ sv, P' sv → P sv) → (∀ a sv, Q a sv → Q' a sv) → triple P' m Q'.
Proof.
  intros Hm HP HQ sv Hsv. specialize (Hm sv (HP _ Hsv)).
  destruct (m sv) as [sv' [a|e]]; auto.
Qed.

Lemma triple_pre {A} (P P' : Server → Prop) (m : srv A) Q :
  triple P m Q → (∀ sv, P' sv → P sv) → triple P' m Q.
Proof. intros Hm HP. by eapply triple_weaken. Qed.

Lemma triple_pure {A} (φ : Prop) P (m : srv A) Q :
  (φ → triple P m Q) → triple (λ sv, P sv ∧ φ) m Q.
Proof. intros Hm sv [HP Hφ]. by apply Hm. Qed.

(** ** What leaves registry, disk and clock alone *)

(** [P] looks at nothing else. *)
Definition stable (P : Server → Prop) : Prop :=
  ∀ sv logs snaps published clock io,
    (∀ n, ∃ k, clock n = sv_clock sv k) → P sv →
    P (MkServer (sv_sessions sv) logs (sv_disk sv) snaps published clock io).

Lemma durable_stable : stable durable.
Proof.
  intros sv logs snaps pub clock io Hc [Hb Hn]. split; [done|]. intros n. simpl.
  destruct (Hc n) as [k ->]. apply Hn.
Qed.
Lemma held_stable id s : stable (held id s).
Proof. intros sv logs snaps pub clock io Hc [Hd Hs]. split; [by apply durable_stable|done]. Qed.
Lemma pending_stable id s : stable (pending id s).
Proof.
  intros sv logs snaps pub clock io Hc Hp.
  by apply (durable_stable (upd_sessions (<[id := s]>) sv) logs snaps pub clock io).
Qed.

Lemma triple_now P :
  stable P → (∀ sv, P sv → durable sv) → triple P now_ms (λ now sv, P sv ∧ now ≠ 0).
Proof.
  intros HP Hd sv Hsv. split; [|by apply (Hd sv Hsv)]. apply HP; [|done]. intros n. by eexists.
Qed.

Lemma triple_io P : stable P → triple P io_outcome (λ _, P).
Proof. intros HP sv Hsv. apply HP; [|done]. intros n. by eexists. Qed.

Lemma triple_log P f : stable P → triple P (st_mod (upd_log f)) (λ _, P).
Proof. intros HP. apply triple_mod. intros sv Hsv. apply HP; [|done]. intros n. by eexists. Qed.

Lemma triple_save_session P s : stable P → triple P (save_session s) (λ _, P).
Proof.
  intros HP. eapply triple_bind; [by apply triple_io|]. intros [].
  - eapply triple_bind with (Q := λ _, P); [|intros []; by apply triple_ret].
    apply triple_mod. intros sv Hsv. apply HP; [|done]. intros n. by eexists.
  - by apply triple_ret.
Qed.

Lemma triple_save P s : stable P → triple P (save_session_to_storage s) (λ _, P).
Proof.
  intros HP. eapply triple_bind; [by apply triple_save_session|]. intros ?. by apply triple_ret.
Qed.

Lemma triple_publish P env : stable P → triple P (publish_accepted_envelope env) (λ _, P).
Proof.
  intros HP. unfold publish_accepted_envelope. destruct (str_is_empty _); [by apply triple_ret|].
  apply triple_mod. intros sv Hsv. apply HP; [|done]. intros n. by eexists.
Qed.

(** ** Writes to the log *)
Lemma durable_write id l s sv :
  durable sv → kept id l s →
  durable (upd_sessions (<[id := s]>) (upd_disk (<[id := l]>) sv)).
Proof. intros [Hb Hc] Hl. split; [|done]. by apply backed_write. Qed.

(** Rewriting the session's log to one that still rebuilds it. *)
Lemma held_write id l s sv :
  held id s sv → kept id l s → held id s (upd_disk (<[id := l]>) sv).
Proof.
  intros [Hd Hs] Hl. split; [|done].
  pose proof (durable_write id l s sv Hd Hl) as [Hb Hc]. split; [|done].
  unfold upd_sessions in Hb. simpl in *. by rewrite insert_id in Hb.
Qed.

(** The entry [e] takes [s] to [s'], also on replay. *)
Definition moves (id : string) (e : LogEntry) (s s' : Session) : Prop :=
  ¬ exempt id → entry_step known id e s s'.

Lemma triple_append id e s s' :
  moves id e s s' →
  triple (held id s) (append_log_entry id e) (λ ok, if ok then pending id s' else held id s).
Proof.
  intros He. eapply triple_bind; [apply triple_io, held_stable|]. intros [].
  - eapply triple_bind with (Q := λ _, pending id s'); [|intros []; by apply triple_ret].
    apply triple_mod. intros sv Hh. pose proof (held_backs _ _ _ Hh) as Hb. destruct Hh as [Hd _].
    refine (durable_write id _ s' sv Hd (λ Hx, _)). by eapply backs_append; [apply Hb|apply He].
  - by apply triple_ret.
Qed.

Lemma triple_record id e s s' :
  moves id e s s' → triple (held id s) (record_entry id e) (λ _, pending id s').
Proof.
  intros He. eapply triple_bind; [by eapply triple_append|]. intros [].
  - apply triple_log, pending_stable.
  - apply triple_fail. by intros sv [].
Qed.

Lemma triple_put id s : triple (pending id s) (put_session id s) (λ _, held id s).
Proof. apply triple_mod. intros sv Hp. split; [done|]. apply lookup_insert_eq. Qed.

Lemma triple_checkpoint id s :
  triple (held id s) (force_insert_checkpoint id s) (λ _, held id s).
Proof.
  eapply triple_bind; [apply triple_now; [apply held_stable|by intros sv []]|]. intros now.
  apply triple_pure. intros _. cbv zeta.
  eapply triple_bind with (Q := λ _, held id s);
    [|intros []; [apply triple_log, held_stable|by apply triple_ret]].
  eapply triple_bind; [apply triple_io, held_stable|]. intros [].
  - eapply triple_bind with (Q := λ _, held id s); [|intros []; by apply triple_ret].
    apply triple_mod. intros sv Hh. apply held_write; [done|].
    intros Hx. exact (backs_checkpoint _ _ _ _ _ _ _ _ _ (held_backs _ _ _ Hh Hx)).
  - by apply triple_ret.
Qed.

(** ** Handlers, with what the process has registered *)
Section handlers.
Context (policies : PolicySource) (modes : ModeSource) (config : RuntimeConfig).
Hypothesis Hoffered : offered defined known policies modes.

Lemma triple_maybe_checkpoint id s :
  triple (held id s) (maybe_insert_checkpoint config id s) (λ _, held id s).
Proof.
  unfold maybe_insert_checkpoint. destruct (_ =? 0); [by apply triple_ret|].
  eapply triple_bind; [apply triple_read; by intros sv []|]. intros n.
  eapply triple_pre with (P := held id s); [|by intros sv []].
  destruct (_ || _); [by apply triple_ret|apply triple_checkpoint].
Qed.

Lemma triple_close id s : triple (held id s) (close_log config id s) (λ _, held id s).
Proof.
  eapply triple_bind with (Q := λ _, held id s);
    [|intros []; [by apply triple_ret|apply triple_checkpoint]].
  unfold maybe_compact_log. destruct (negb _); [by apply triple_ret|].
  eapply triple_bind; [apply triple_read; by intros sv []|]. intros discarded.
  eapply triple_bind with (Q := λ _, held id s).
  - eapply triple_bind; [eapply triple_pre with (P := held id s);
      [apply triple_now; [apply held_stable|by intros sv []]|by intros sv []]|].
    intros now. apply triple_pure. intros _. cbv zeta.
    eapply triple_bind with (Q := λ _, held id s); [|intros []; by apply triple_ret].
    eapply triple_bind; [apply triple_io, held_stable|]. intros [].
    + eapply triple_bind with (Q := λ _, held id s); [|intros []; by apply triple_ret].
      apply triple_mod. intros sv Hh. apply held_write; [done|].
      intros Hx. exact (backs_checkpoint _ _ _ _ [] _ _ _ _ (held_backs _ _ _ Hh Hx)).
    + by apply triple_ret.
  - intros [c|]; [|by apply triple_ret].
    eapply triple_bind; [apply triple_log, held_stable|]. intros []. by apply triple_ret.
Qed.

(** ** Expiry and synthesis *)
Lemma held_durable id s sv : held id s sv → durable sv.
Proof. by intros []. Qed.
Lemma held_rev {A} id s (m : srv A) Q :
  ((¬ exempt id → 1 ≤ ss_semantics_rev s) → triple (held id s) m Q) → triple (held id s) m Q.
Proof. intros Hm sv Hh. apply Hm; [|done]. intros Hx. exact (bk_rev _ _ _ _ _ (held_backs _ _ _ Hh Hx)). Qed.

Lemma triple_shared id : triple durable (get_shared id) (λ s, held id s).
Proof.
  intros sv Hd. unfold get_shared, st_read. by destruct (sv_sessions sv !! id) eqn:E.
Qed.

(** A read of what is not server state, in a state that holds [s]. *)
Lemma triple_ask {A B} id s (r : result MacpError A) (k : A → srv B) Q :
  (∀ a, r = Ok a → triple (held id s) (k a) Q) →
  triple (held id s) (st_bind (st_read (λ _, r)) k) Q.
Proof.
  intros Hk. eapply triple_bind; [apply triple_read, held_durable|]. intros a.
  apply (triple_pure (r = Ok a)). auto.
Qed.

Lemma triple_now_held {B} id s (k : Z → srv B) Q :
  (∀ now, now ≠ 0 → triple (held id s) (k now) Q) →
  triple (held id s) (st_bind now_ms k) Q.
Proof.
  intros Hk. eapply triple_bind; [apply triple_now; [apply held_stable|apply held_durable]|].
  intros now. apply (triple_pure (now ≠ 0)). auto.
Qed.

(** Append, then move the registry. *)
Lemma triple_advance {B} id e s s' (k : srv B) Q :
  moves id e s s' → triple (held id s') k Q →
  triple (held id s) (st_bind (record_entry id e) (λ _, st_bind (put_session id s') (λ _, k))) Q.
Proof.
  intros He Hk. eapply triple_bind; [by eapply triple_record|]. intros [].
  eapply triple_bind; [apply triple_put|]. by intros [].
Qed.

Lemma triple_expire id s :
  triple (held id s) (maybe_expire_session id s) (λ r, held id r.1).
Proof.
  apply triple_now_held. intros now _. destruct (deadline_passed now s) eqn:Hd;
    [|by apply triple_ret].
  assert (is_terminal (ss_state s) = false) as Ht.
  { unfold deadline_passed in Hd. by destruct (ss_state s). }
  destruct (expire s) as [s' r] eqn:E.
  assert (r = Ok ()) as ->.
  { unfold expire in E. rewrite Ht in E. by simplify_eq. }
  pose proof (entry_step_call known CallExpire id [] id (ss_mode s) now s I Ht) as He.
  simpl in He. rewrite E in He.
  eapply triple_advance; [by intros _; exact He|]. by apply triple_ret.
Qed.

Lemma triple_synthesize id s now :
  triple (held id s) (synthesize_due_accept config id s now)
    (λ r sv, held id r.1 sv ∧ (bound_fields r.1 = bound_fields s ∧ ss_state r.1 = ss_state s)).
Proof.
  unfold synthesize_due_accept. destruct (get_mode (ss_mode s)) as [mode|] eqn:Hm;
    [|by apply triple_ret].
  apply held_rev. intros Hrev. apply triple_ask. intros [syn|] Hn; [|by apply triple_ret].
  apply (of_mode _ _ _ _ Hoffered) in Hm as [Hm _].
  pose proof (λ Hx, entry_step_synthetic known id now syn s mode Hm (Hrev Hx) Hn) as He.
  pose proof (@source_laws known _ _ _ Hm) as Hlaws.
  pose proof (commit_synthetic_safe mode now syn s Hn) as [[Hb _ _ _ _] Ho].
  pose proof (next_synthetic_ok _ _ _ _ Hn) as (Hs & _).
  cbv zeta. eapply triple_advance; [exact He|].
  set (s' := commit_synthetic syn s) in *. clearbody s'.
  eapply triple_bind; [apply triple_save, held_stable|]. intros [].
  eapply triple_bind; [apply triple_maybe_checkpoint|]. intros [].
  eapply triple_bind; [apply triple_publish, held_stable|]. intros [].
  apply triple_ret. intros sv Hh. simpl. split_and!; [done|done|congruence].
Qed.

(** ** Messages *)
Lemma triple_process_message env :
  triple durable (process_message config env) (λ _, durable).
Proof.
  eapply triple_bind; [apply triple_shared|]. intros s.
  apply triple_now_held. intros now Hnow. apply triple_ask. intros [| |] Hpre.
  - apply triple_ret, held_durable.
  - eapply triple_bind; [apply triple_expire|]. intros r.
    eapply triple_bind; [apply triple_save, held_stable|]. intros [].
    apply triple_fail, held_durable.
  - apply triple_ask. intros mode Hm%ok_or_ok. apply triple_ask. intros [] Hadm.
    apply check_preconditions_proceed in Hpre as (Hshape & _ & _ & _ & _ & Ho).
    eapply triple_bind; [apply triple_synthesize|]. intros r. apply triple_pure. intros [Hb Ho'].
    cbv zeta. generalize dependent (r.1). clear r. intros s1 Hb Ho'.
    apply held_rev. intros Hrev. apply triple_ask. intros response Hr.
    assert (ss_mode s1 = ss_mode s) as Hmode by (unfold bound_fields in Hb; congruence).
    apply (of_mode _ _ _ _ Hoffered) in Hm as [Hm _]. pose proof (@source_laws known _ _ _ Hm) as Hlaws.
    eapply triple_advance; [intros Hx; specialize (Hrev Hx);
      eapply entry_step_message with (mode := mode); try congruence|].
    { unfold check_envelope_shape in Hshape. res_inv. by bool_simp. }
    { rewrite (auth_bound s1 s) by done.
      unfold admit_envelope in Hadm. by apply bind_ok in Hadm as ([] & ? & _). }
    set (s' := commit env response now s1). clearbody s'.
    eapply triple_bind; [apply triple_save, held_stable|]. intros [].
    eapply triple_bind with (Q := λ _, held (env_session_id env) s').
    { destruct (_ == _); [apply triple_close|apply triple_maybe_checkpoint]. }
    intros []. eapply triple_bind; [apply triple_publish, held_stable|]. intros [].
    apply triple_ret, held_durable.
Qed.

(** ** Lifecycle calls *)
Lemma triple_catch {A} P (m : srv A) d Q :
  triple P m Q → triple P (st_catch m d) (λ a sv, Q a sv ∨ a = d ∧ durable sv).
Proof.
  intros Hm sv HP. specialize (Hm sv HP). unfold st_catch.
  destruct (m sv) as [sv' [a|e]]; auto.
Qed.

Lemma triple_get_session id :
  triple durable (get_session_checked id) (λ _, durable).
Proof.
  eapply triple_bind with (Q := λ o sv,
    match o with Some s => held id s sv | None => durable sv end).
  { intros sv Hd. unfold st_read. by destruct (sv_sessions sv !! id) eqn:E. }
  intros [s|]; [|by apply triple_ret].
  eapply triple_bind; [eapply triple_catch, triple_expire|]. intros [s' b]. simpl.
  eapply triple_bind with (Q := λ _, durable); [|intros []; by apply triple_ret].
  destruct b; [|apply triple_ret; intros sv [[]|[_ ?]]; done].
  eapply triple_weaken with (P := held id s'); [apply triple_save, held_stable| |].
  - by intros sv [|[? _]].
  - by intros [] sv [].
Qed.

Lemma triple_cancel id reason by_ :
  triple durable (cancel_session config id reason by_) (λ _, durable).
Proof.
  eapply triple_bind; [apply triple_shared|]. intros s0.
  eapply triple_bind; [apply triple_expire|]. intros [s b]. cbv zeta. cbn [fst]. clear s0 b.
  destruct (is_terminal (ss_state s)) eqn:Ht.
  - eapply triple_bind; [apply triple_save, held_stable|]. intros [].
    apply triple_ret, held_durable.
  - apply triple_now_held. intros now _. eapply triple_advance.
    { intros _. exact (entry_step_call known CallCancel id _ id (ss_mode s) now s I Ht). }
    change (run_call CallCancel s).1 with (cancel s).1.
    set (s' := (cancel s).1). clearbody s'.
    eapply triple_bind; [apply triple_save, held_stable|]. intros [].
    eapply triple_bind; [apply triple_close|]. intros []. apply triple_ret, held_durable.
Qed.

Lemma triple_suspend id reason by_ :
  triple durable (suspend_session id reason by_) (λ _, durable).
Proof.
  eapply triple_bind; [apply triple_shared|]. intros s0.
  eapply triple_bind; [apply triple_expire|]. intros [s b]. cbv zeta. cbn [fst]. clear s0 b.
  case_bool_decide as Ho; simpl; [|apply triple_fail, held_durable].
  apply triple_now_held. intros now _.
  assert (is_terminal (ss_state s) = false) as Ht by (by rewrite Ho).
  pose proof (entry_step_call known (CallSuspend now) id (encode_suspend reason by_) id
    (ss_mode s) now s eq_refl Ht) as He. simpl in He.
  destruct (suspend now s) as [s' r] eqn:E. simpl in He.
  eapply triple_advance; [by intros _; exact He|]. apply triple_ask. intros [] _.
  eapply triple_bind; [apply triple_save, held_stable|]. intros [].
  apply triple_ret, held_durable.
Qed.

Lemma triple_resume id reason by_ :
  triple durable (resume_session id reason by_) (λ _, durable).
Proof.
  eapply triple_bind; [apply triple_shared|]. intros s.
  case_bool_decide as Ho; simpl; [|apply triple_fail, held_durable].
  apply triple_now_held. intros now _.
  assert (is_terminal (ss_state s) = false) as Ht by (by rewrite Ho).
  pose proof (entry_step_call known (CallResume now) id (encode_resume reason by_ (banked_ms s)) id
    (ss_mode s) now s eq_refl Ht) as He. simpl in He.
  destruct (resume now s) as [s' r] eqn:E. simpl in He.
  eapply triple_advance; [by intros _; exact He|].
  eapply triple_bind; [apply triple_save, held_stable|]. intros [].
  destruct r as [[]|e]; [apply triple_ret, held_durable|apply triple_fail, held_durable].
Qed.

(** ** Background maintenance *)
Lemma triple_for_sessions body :
  (∀ id s, triple (held id s) (body id s) (λ _, durable)) →
  triple durable (for_sessions body) (λ _, durable).
Proof.
  intros Hbody. eapply triple_bind; [by apply triple_read|]. intros ids.
  eapply triple_pre with (P := durable); [|by intros sv []].
  induction ids as [|id ids IH]; simpl; [by apply triple_ret|].
  eapply triple_bind with (Q := λ o sv,
    match o with Some s => held id s sv | None => durable sv end).
  { intros sv Hd. unfold st_read. by destruct (sv_sessions sv !! id) eqn:E. }
  intros o. eapply triple_bind with (Q := λ _, durable); [|by intros []].
  destruct o; [apply Hbody|by apply triple_ret].
Qed.

Lemma triple_now_durable {B} (k : Z → srv B) Q :
  (∀ now, triple durable (k now) Q) → triple durable (st_bind now_ms k) Q.
Proof.
  intros Hk. eapply triple_bind; [apply triple_now; [apply durable_stable|done]|].
  intros now. apply (triple_pure (now ≠ 0)). auto.
Qed.

Lemma triple_cleanup : triple durable (cleanup_expired_sessions config) (λ _, durable).
Proof.
  apply triple_now_durable. intros now. apply triple_for_sessions. intros id s.
  unfold cleanup_one. destruct (_ || _) eqn:E; [apply triple_ret, held_durable|].
  bool_simp. cbv zeta.
  eapply triple_bind; [eapply triple_append; intros _; by apply entry_step_janitor|].
  intros []; simpl; [|apply triple_ret, held_durable].
  eapply triple_bind; [apply triple_log, pending_stable|]. intros [].
  eapply triple_bind; [apply triple_put|]. intros [].
  set (s' := set_state Expired s). clearbody s'.
  eapply triple_bind; [apply triple_save, held_stable|]. intros [].
  eapply triple_weaken; [apply triple_close|done|intros []; apply held_durable].
Qed.

Lemma triple_sweep : triple durable (sweep_due_synthetic_accepts config) (λ _, durable).
Proof.
  apply triple_now_durable. intros now. apply triple_for_sessions. intros id s.
  unfold sweep_one. destruct (_ != _); [apply triple_ret, held_durable|].
  eapply triple_bind; [eapply triple_catch, triple_synthesize|]. intros r.
  apply triple_ret. intros sv [[[? _] _]|[_ ?]]; done.
Qed.

Lemma durable_delete id sv : durable sv → durable (upd_sessions (delete id) sv).
Proof. intros [Hb Hc]. split; [by apply backed_delete|done]. Qed.

Lemma durable_delete_all ids sv :
  durable sv → durable (upd_sessions (λ m, foldr delete m ids) sv).
Proof.
  intros Hd. induction ids as [|id ids IH]; [by destruct sv|]. apply (durable_delete id) in IH.
  by destruct sv.
Qed.

Lemma triple_evict secs : triple durable (evict_stale_sessions secs) (λ _, durable).
Proof.
  apply triple_now_durable. intros now.
  eapply triple_bind; [by apply triple_read|]. intros ids.
  eapply triple_pre with (P := durable); [|by intros sv []].
  destruct (is_empty ids); [by apply triple_ret|].
  eapply triple_bind with (Q := λ _, durable); [|intros []; apply triple_log, durable_stable].
  apply triple_mod. intros sv Hd. by apply durable_delete_all.
Qed.

Lemma backed_remove m d id : backed m d → backed (delete id m) (delete id d).
Proof.
  intros [Hm Hd]. split; intros id' x [Hne Hx]%lookup_delete_Some; [|by eapply Hd].
  rewrite lookup_delete_ne by done. by apply Hm.
Qed.

Lemma triple_delete id : triple durable (delete_session id) (λ ok sv,
  if ok then durable (upd_sessions (delete id) sv) else durable sv).
Proof.
  eapply triple_bind; [apply triple_io, durable_stable|]. intros []; [|by apply triple_ret].
  set (Q sv := durable (upd_sessions (delete id) sv)).
  eapply triple_bind with (Q := λ _, Q).
  - apply triple_mod. intros sv [Hb Hc]. split; [by apply backed_remove|done].
  - intros []. eapply triple_bind with (Q := λ _, Q); [|intros []; by apply triple_ret].
    apply triple_mod. by intros sv [].
Qed.

Lemma triple_ask_durable {A B} (f : Server → result MacpError A) (k : A → srv B) Q :
  (∀ a, triple durable (k a) Q) → triple durable (st_bind (st_read f) k) Q.
Proof.
  intros Hk. eapply triple_bind; [by apply triple_read|]. intros a.
  eapply triple_pre; [apply Hk|]. by intros sv [].
Qed.

Lemma triple_io_read {A} (f : Server → A) :
  triple durable (st_bind io_outcome (λ ok : bool,
    if ok then st_read (λ sv, Ok (Some (f sv))) else st_ret None)) (λ _, durable).
Proof.
  eapply triple_bind; [apply triple_io, durable_stable|]. intros []; [|by apply triple_ret].
  eapply triple_weaken; [by apply triple_read|done|]. by intros a sv [].
Qed.

Lemma triple_gc_one cutoff id : triple durable (gc_one cutoff id) (λ _, durable).
Proof.
  eapply triple_bind with (Q := λ _, durable).
  { apply triple_ask_durable. intros [s|]; [by apply triple_ret|].
    eapply triple_bind; [apply triple_io_read|]. intros o. by apply triple_ret. }
  intros [|]; cbn [negb]; [|by apply triple_ret].
  eapply triple_bind; [apply triple_delete|]. intros []; [|by apply triple_ret].
  eapply triple_bind with (Q := λ _, durable); [by apply triple_mod|]. intros [].
  eapply triple_bind with (Q := λ _, durable); [apply triple_log, durable_stable|].
  intros []. by apply triple_ret.
Qed.

Lemma triple_gc secs : triple durable (gc_disk_sessions secs) (λ _, durable).
Proof.
  apply triple_now_durable. intros now.
  eapply triple_bind; [apply triple_io_read|]. intros [ids|]; [|by apply triple_ret].
  generalize 0. induction ids as [|id ids IH]; intros n; [by apply triple_ret|].
  eapply triple_bind; [apply triple_gc_one|]. intros deleted. apply IH.
Qed.

(** ** Session start *)

(** The id is taken in the registry, and nothing is logged for it yet. *)
Definition reserved (id : string) (s : Session) (sv : Server) : Prop :=
  durable (upd_sessions (delete id) sv) ∧ (¬ exempt id → default [] (sv_disk sv !! id) = []) ∧
  sv_sessions sv !! id = Some s.

Lemma reserved_stable id s : stable (reserved id s).
Proof.
  intros sv logs snaps pub clock io Hc [Hd Hf]. split; [|done].
  by apply (durable_stable (upd_sessions (delete id) sv) logs snaps pub clock io).
Qed.

(** Nothing is stored under an id that is not in the registry. *)
Definition fresh_id (id : string) (sv : Server) : Prop :=
  sv_sessions sv !! id = None → default [] (sv_disk sv !! id) = [].
Definition startable (id : string) (sv : Server) : Prop :=
  durable sv ∧ (exempt id ∨ fresh_id id sv).

Lemma startable_stable id : stable (startable id).
Proof. intros sv logs snaps pub clock io Hc [Hd Hf]. split; [by apply durable_stable|done]. Qed.

Lemma triple_reserve busy max_open env s :
  triple (startable (env_session_id env)) (reserve busy max_open env s)
    (λ _, reserved (env_session_id env) s).
Proof.
  set (P sv := startable (env_session_id env) sv ∧ sv_sessions sv !! env_session_id env = None).
  assert (∀ sv, P sv → durable sv) as HPd by (by intros sv [[] _]).
  eapply triple_bind with (Q := λ _, P).
  { intros sv Hs. unfold st_read. case_bool_decide as E; [by destruct Hs|].
    split; [done|]. by apply eq_None_not_Some. }
  intros []. eapply triple_bind with (Q := λ _, P).
  - destruct max_open as [n|]; [|by apply triple_ret].
    eapply triple_bind; [apply (triple_now P); [|done]|].
    { intros sv logs snaps pub clock io Hc [Hs Hn]. split; [by apply startable_stable|done]. }
    intros now. eapply triple_weaken; [by apply triple_read|by intros sv []|by intros [] sv []].
  - intros []. apply triple_mod. intros sv [[[Hb Hc] Hf] Hn]. split_and!.
    + split; [|done]. simpl. by rewrite delete_insert_id.
    + intros Hx. destruct Hf as [?|Hf]; [done|by apply Hf].
    + apply lookup_insert_eq.
Qed.

Lemma triple_rollback {A} id s e (Q : A → Server → Prop) :
  triple (reserved id s) (st_bind (rollback id) (λ _, st_fail e)) Q.
Proof.
  eapply triple_bind with (Q := λ _, durable); [|intros []; by apply triple_fail].
  apply triple_mod. by intros sv [].
Qed.

Lemma reserved_write id l s sv :
  reserved id s sv → kept id l s → durable (upd_disk (<[id := l]>) sv).
Proof.
  intros ([Hb Hc] & _ & Hs) Hl. split; [|done].
  pose proof (backed_write _ _ id l s Hb Hl) as Hw. simpl in Hw.
  by rewrite insert_delete_id in Hw.
Qed.

Lemma triple_commit_start env now v s :
  let e := make_start_entry env now (vs_bound_mode_version v) (ss_semantics_rev s)
    (vs_max_suspend_ms v) in
  kept (env_session_id env) [e] s →
  triple (reserved (env_session_id env) s) (commit_start env now v s) (λ _, durable).
Proof.
  intros e Hb. unfold commit_start. set (id := env_session_id env) in *. cbv zeta. fold e.
  eapply triple_bind with (Q := λ _, reserved id s).
  { eapply triple_bind; [apply triple_io, reserved_stable|]. intros []; [|by apply triple_ret].
    eapply triple_bind with (Q := λ _, reserved id s); [|intros []; by apply triple_ret].
    apply triple_mod. intros sv ([Hd Hc] & Hf & Hs). split_and!; [|simpl|done].
    - split; [by apply backed_create|done].
    - intros Hx. unfold create_session_log. by rewrite lookup_insert_eq, Hf. }
  intros []; simpl; [|apply triple_rollback].
  eapply triple_bind with (Q := λ ok : bool, if ok then durable else reserved id s).
  { eapply triple_bind; [apply triple_io, reserved_stable|]. intros []; [|by apply triple_ret].
    eapply triple_bind with (Q := λ _, durable); [|intros []; by apply triple_ret].
    apply triple_mod. intros sv Hr. eapply reserved_write; [exact Hr|].
    destruct Hr as (_ & Hf & _). intros Hx. rewrite Hf by done. by apply Hb. }
  intros []; simpl; [|apply triple_rollback].
  eapply triple_bind; [apply triple_log, durable_stable|]. intros [].
  eapply triple_bind; [apply triple_log, durable_stable|]. intros [].
  eapply triple_bind; [apply triple_save_session, durable_stable|]. intros ?.
  apply triple_publish, durable_stable.
Qed.

Lemma triple_start busy max_open env :
  triple (startable (env_session_id env)) (process_session_start policies busy max_open env)
    (λ _, durable).
Proof.
  set (P := startable (env_session_id env)).
  assert (∀ sv, P sv → durable sv) as HPd by (by intros sv []).
  assert (∀ A B (r : result MacpError A) (k : A → srv B) Q,
    (∀ a, r = Ok a → triple P (k a) Q) → triple P (st_bind (st_read (λ _, r)) k) Q) as Hask.
  { intros A B r k Q Hk. eapply triple_bind; [by apply triple_read|]. intros a.
    apply (triple_pure (r = Ok a)). auto. }
  unfold process_session_start. cbv zeta.
  apply Hask. intros [] Hblank. apply Hask. intros [] _. apply Hask. intros mode Hm%ok_or_ok.
  eapply triple_bind; [apply triple_now; [apply startable_stable|done]|].
  intros now. eapply triple_pre with (P := P); [|by intros sv []].
  apply Hask. intros v Hv.
  eapply triple_bind; [by apply triple_read|]. intros existing.
  eapply triple_pre with (P := P); [|by intros sv []].
  destruct existing as [s|].
  { destruct (bool_decide _); [by apply triple_ret|by apply triple_fail]. }
  apply Hask. intros policy Hp%ok_or_ok. apply Hask. intros s Ha.
  eapply triple_bind; [apply triple_reserve|]. intros [].
  eapply triple_bind; [apply triple_commit_start|intros []; by apply triple_ret].
  intros _. eapply backs_start; try done. by destruct (blank (env_mode env)).
Qed.

Lemma triple_process busy max_open env :
  triple (λ sv, durable sv ∧
      (env_message_type env = "SessionStart" →
        exempt (env_session_id env) ∨ fresh_id (env_session_id env) sv))
    (process policies config busy max_open env) (λ _, durable).
Proof.
  unfold process. cbv zeta. case_bool_decide as Hmt.
  { eapply triple_pre; [apply triple_start|]. intros sv [? Hf]. split; auto. }
  eapply triple_pre with (P := durable); [|by intros sv []].
  destruct (_ || _); [|apply triple_process_message].
  do 2 (eapply triple_bind; [by apply triple_read|]; intros [];
    eapply triple_pre with (P := durable); [|by intros sv []]).
  by apply triple_ret.
Qed.

(** ** Restart *)
Definition recovered (id : string) (l : list LogEntry) : option Session :=
  match log_replay_session id l (Some policies) with Ok s => Some s | Err _ => None end.

(** Storage answers every call. *)
Definition answers (sv : Server) : Prop := ∀ n, sv_io sv n = true.
(** What replay makes of the stored log of [id]. *)
Definition stored (id : string) (sv : Server) : option Session :=
  recovered id (default [] (sv_disk sv !! id)).
Definition sound_log (id : string) (sv : Server) : Prop :=
  default [] (sv_disk sv !! id) = [] ∨ is_Some (stored id sv).

(** Nothing but the registry and the log cache changes, and storage calls are
    consumed. *)
Definition booting (sv sv' : Server) : Prop :=
  sv_disk sv' = sv_disk sv ∧ sv_clock sv' = sv_clock sv ∧ (answers sv → answers sv').

#[export] Instance booting_trans : Transitive booting.
Proof. intros sv1 sv2 sv3 (? & ? & ?) (? & ? & ?). unfold booting. split_and!; naive_solver congruence. Qed.

(** Storage calls during recovery. *)
Lemma load_log_run {E} id sv : ∃ sv',
  load_log (E:=E) id sv
    = (sv', Ok (if sv_io sv 0 then Some (default [] (sv_disk sv !! id)) else None)) ∧
  booting sv sv' ∧ sv_sessions sv' = sv_sessions sv.
Proof.
  unfold load_log, io_outcome, st_bind. destruct (sv_io sv 0); eexists;
    (split; [reflexivity|]); (split; [|done]); (split; [done|]); (split; [done|]);
    intros Ha n; apply Ha.
Qed.
Lemma load_session_run {E} id sv : ∃ sv' o,
  load_session (E:=E) id sv = (sv', Ok o) ∧ booting sv sv' ∧ sv_sessions sv' = sv_sessions sv.
Proof.
  unfold load_session, io_outcome, st_bind. destruct (sv_io sv 0); do 2 eexists;
    (split; [reflexivity|]); (split; [|done]); (split; [done|]); (split; [done|]);
    intros Ha n; apply Ha.
Qed.
Lemma save_session_run {E} s sv : ∃ sv',
  save_session (E:=E) s sv = (sv', Ok (sv_io sv 0)) ∧ booting sv sv' ∧
  sv_sessions sv' = sv_sessions sv.
Proof.
  unfold save_session, io_outcome, st_bind. destruct (sv_io sv 0) eqn:E0; eexists;
    (split; [reflexivity|]); (split; [|done]); (split; [done|]); (split; [done|]);
    intros Ha n; apply Ha.
Qed.

(** The loop body recovers the session or skips it. *)
Lemma recover_one_run strict id report sv sv' r :
  recover_one policies strict id report sv = (sv', r) →
  booting sv sv' ∧
  ((sv_sessions sv' = sv_sessions sv ∧
    (is_ok r = true → strict = true ∨ answers sv → stored id sv = None) ∧
    (answers sv → strict = false ∨ sound_log id sv → is_ok r = true)) ∨
   ∃ s, stored id sv = Some s ∧ sv_sessions sv' = <[id := s]> (sv_sessions sv) ∧
     is_ok r = true).
Proof.
  unfold recover_one. unfold st_bind at 1. unfold sound_log, stored, recovered.
  destruct (load_log_run (E:=IoErrorKind) id sv) as (sv1 & -> & Hb1 & Hs1).
  destruct (sv_io sv 0) eqn:E0.
  2:{ destruct strict; intros [= <- <-]; (split; [done|]); left; (split; [done|]); split;
      [done|intros Ha; by rewrite Ha in E0| |done]. intros _ [?|Ha]; [done|by rewrite Ha in E0]. }
  destruct (default [] (sv_disk sv !! id)) as [|e l].
  { intros [= <- <-]. split; [done|]. by left. }
  cbn [is_empty]. destruct (log_replay_session id (e :: l) (Some policies)) as [s|err].
  2:{ destruct strict; intros [= <- <-]; (split; [done|]); left; (split; [done|]); (split; [done|]);
      [intros _ [?|[?|[? ?]]]; done|done]. }
  unfold st_bind at 1.
  destruct (load_session_run (E:=IoErrorKind) id sv1) as (sv2 & o & -> & Hb2 & Hs2).
  unfold st_bind at 1.
  destruct (save_session_run (E:=IoErrorKind) s sv2) as (sv3 & -> & Hb3 & Hs3).
  assert (booting sv sv3) as Hb by (by do 2 (etrans; [done|])).
  destruct (negb (sv_io sv2 0) && strict) eqn:Ef.
  - intros [= <- <-]. split; [done|]. left. split; [congruence|]. split; [done|].
    intros Ha. destruct Hb1 as (_ & _ & Ha1), Hb2 as (_ & _ & Ha2).
    by rewrite (Ha2 (Ha1 Ha)) in Ef.
  - intros [= <- <-]. split; [exact Hb|]. right. exists s. split; [done|]. simpl.
    split; [congruence|done].
Qed.

(** A stretch of recovery over [ids] that ended in [r]. *)
Record recovery (strict : bool) (ids : list string) {A} (r : result IoErrorKind A)
    (sv sv' : Server) : Prop := {
  rc_booting : booting sv sv';
  rc_sound id s : sv_sessions sv' !! id = Some s →
    sv_sessions sv !! id = Some s ∨ stored id sv = Some s;
  rc_complete id t : is_ok r = true → strict = true ∨ answers sv → stored id sv = Some t →
    id ∈ ids ∨ sv_sessions sv !! id = Some t → sv_sessions sv' !! id = Some t;
  rc_total : answers sv → strict = false ∨ Forall (λ id, sound_log id sv) ids → is_ok r = true;
}.

Lemma recover_one_recovery strict id report sv sv' r :
  recover_one policies strict id report sv = (sv', r) → recovery strict [id] r sv sv'.
Proof.
  intros [Hb [(Hs & Hn & Ht)|(s & Hst & Hs & Hok)]]%recover_one_run;
    (constructor; [done|rewrite Hs| |]).
  - auto.
  - intros k t Hr Ha Hk. rewrite Hs. intros [->%list_elem_of_singleton|?]; [|done].
    by rewrite Hn in Hk.
  - intros Ha Hl. apply Ht; [done|]. destruct Hl as [?|Hl]; [by left|right; by inversion Hl].
  - intros k s' [[<- <-]|[_ ?]]%lookup_insert_Some; auto.
  - intros k t Hr Ha Hk. rewrite Hs. destruct (decide (id = k)) as [<-|Hne].
    + rewrite lookup_insert_eq. congruence.
    + rewrite lookup_insert_ne by done. intros [?%list_elem_of_singleton|?]; [by subst|done].
  - done.
Qed.

Lemma recover_loop_recovery strict ids report sv sv' r :
  recover_loop policies strict ids report sv = (sv', r) → recovery strict ids r sv sv'.
Proof.
  revert report sv. induction ids as [|k ids IH]; intros report sv; simpl.
  { intros [= <- <-]. constructor; [by split_and!|auto| |done].
    intros id t _ _ _ [?%elem_of_nil|?]; done. }
  unfold st_bind. destruct (recover_one policies strict k report sv) as [sv1 r1] eqn:E1.
  apply recover_one_recovery in E1 as [Hb1 Hs1 Hc1 Ht1].
  assert (∀ id, stored id sv1 = stored id sv ∧ (sound_log id sv → sound_log id sv1)) as Hst.
  { intros id. unfold stored, sound_log, stored. destruct Hb1 as (-> & _). done. }
  destruct r1 as [report'|err].
  - intros [Hb2 Hs2 Hc2 Ht2]%IH. constructor; [by etrans| | |].
    + intros id s [Hs|Hs]%Hs2; [auto|right; by rewrite (proj1 (Hst id)) in Hs].
    + intros id t Hr Ha Hid Hin. apply Hc2; [done| |by rewrite (proj1 (Hst id))|].
      { destruct Ha as [?|?]; [by left|right; by apply Hb1]. }
      rewrite elem_of_cons in Hin. destruct Hin as [[->|?]|?]; [|by left|]; right;
        (apply Hc1; [done|done|done|]); [left; by apply list_elem_of_singleton|by right].
    + intros Ha Hl. apply Ht2; [by apply Hb1|]. destruct Hl as [?|[_ Hl]%Forall_cons]; [by left|right].
      eapply Forall_impl; [exact Hl|]. intros id. apply Hst.
  - intros [= <- <-]. constructor; [done|done|done|].
    intros Ha Hl. apply Ht1; [done|]. destruct Hl as [?|[Hk _]%Forall_cons]; [by left|right].
    by apply Forall_singleton.
Qed.

Lemma recover_sessions_recovery strict sv sv' r :
  recover_sessions policies strict sv = (sv', r) →
  recovery strict (map_to_list (sv_disk sv)).*1 r sv sv'.
Proof.
  unfold recover_sessions, list_session_ids, io_outcome, st_bind.
  set (sv1 := MkServer _ _ _ _ _ _ _).
  assert (booting sv sv1) as Hb by (split_and!; [done|done|intros Ha n; apply Ha]).
  destruct (sv_io sv 0) eqn:E0; cbn.
  - intros [Hb2 Hs2 Hc2 Ht2]%recover_loop_recovery. constructor; [by etrans|done| |].
    + intros id t Hr Ha. apply Hc2; [done|]. destruct Ha; [by left|right; by apply Hb].
    + intros Ha. apply Ht2. by apply Hb.
  - intros [= <- <-]. constructor; [done|auto|done|]. intros Ha. by rewrite Ha in E0.
Qed.

(** Every stored session still finds its policy and its mode. *)
Definition still_served (sv : Server) : Prop :=
  ∀ id l s, ¬ exempt id → sv_disk sv !! id = Some l →
    log_replay_session (source := known) id l (Some defined) = Ok s → serves known policies modes s.

Lemma backs_still_served id l s sv :
  still_served sv → ¬ exempt id → sv_disk sv !! id = Some l → backs defined known id l s →
  serves known policies modes s.
Proof.
  intros Hsv Hx Hl Hb.
  destruct (backs_replays _ _ _ _ _ _ _ Hb (backs_served _ _ _ _ _ Hb)) as (t & Et & Hh & _).
  eapply serves_bound; [symmetry; by apply same_history_bound|]. by eapply Hsv.
Qed.

Lemma boot_durable strict io sv sv' r :
  still_served sv → durable sv → recover_sessions policies strict (boot io sv) = (sv', r) → durable sv'.
Proof.
  intros Hserved [[Hm Hd] Hc] [(Ed & Ec & _) Hs _ _]%recover_sessions_recovery.
  split; [|by rewrite Ec]. rewrite Ed. split; [|done]. simpl in *.
  intros id s [?%lookup_empty_Some|Hst]%Hs Hx; [done|].
  unfold stored, recovered in Hst. cbn [sv_disk boot] in Hst.
  destruct (sv_disk sv !! id) as [l|] eqn:El; [|done]. simpl in *.
  destruct (Hd id l El Hx) as [->|[s' Hb]]; [done|].
  destruct (backs_replays _ _ _ _ _ _ _ Hb (backs_still_served _ _ _ _ Hserved Hx El Hb))
    as (t & Et & _ & Hbt). rewrite Et in Hst. by simplify_eq.
Qed.

(** The stored log of a session of the registry. *)
Lemma held_stored id s sv :
  held id s sv → ¬ exempt id → serves known policies modes s →
  id ∈ (map_to_list (sv_disk sv)).*1 ∧ ∃ t, stored id sv = Some t ∧ same_history s t.
Proof.
  intros Hb%held_backs Hx Hs. specialize (Hb Hx). unfold stored, recovered.
  destruct (sv_disk sv !! id) as [l|] eqn:El; [|by apply backs_nonempty in Hb].
  destruct (backs_replays _ _ _ _ _ _ _ Hb Hs) as (t & -> & Hh & _). split; [|by exists t].
  apply list_elem_of_fmap. exists (id, l). split; [done|]. by apply elem_of_map_to_list.
Qed.

Lemma durable_sound id sv : durable sv → still_served sv → ¬ exempt id → sound_log id sv.
Proof.
  intros [[_ Hd] _] Hserved Hx. unfold sound_log, stored, recovered.
  destruct (sv_disk sv !! id) as [l|] eqn:El; [|by left]. simpl.
  destruct (Hd id l El Hx) as [->|[s Hb]]; [by left|]. right.
  destruct (backs_replays _ _ _ _ _ _ _ Hb (backs_still_served _ _ _ _ Hserved Hx El Hb))
    as (t & -> & _). done.
Qed.
End handlers.

(** ** What the server does *)

(** The process may have anything registered at each step. What a refused write
    left in the log of an exempt session is a step of its own. *)
Inductive server_step : Server → Server → Prop :=
| sv_process policies modes config busy max_open env sv :
    offered defined known policies modes →
    (env_message_type env = "SessionStart" →
      exempt (env_session_id env) ∨ fresh_id (env_session_id env) sv) →
    server_step sv (process (source := modes) policies config busy max_open env sv).1
| sv_get id sv : server_step sv (get_session_checked id sv).1
| sv_cancel config id reason who sv : server_step sv (cancel_session config id reason who sv).1
| sv_suspend id reason who sv : server_step sv (suspend_session id reason who sv).1
| sv_resume id reason who sv : server_step sv (resume_session id reason who sv).1
| sv_cleanup config sv : server_step sv (cleanup_expired_sessions config sv).1
| sv_sweep policies modes config sv :
    offered defined known policies modes →
    server_step sv (sweep_due_synthetic_accepts (source := modes) config sv).1
| sv_evict secs sv : server_step sv (evict_stale_sessions secs sv).1
| sv_gc secs sv : server_step sv (gc_disk_sessions secs sv).1
| sv_trace id left_over sv :
    exempt id → server_step sv (upd_disk (partial_alter (λ _, left_over) id) sv)
| sv_restart policies modes strict io sv sv' report :
    still_served policies modes sv →
    recover_sessions (source := modes) policies strict (boot io sv) = (sv', Ok report) →
    server_step sv sv'.

Lemma triple_durable {A} P (m : srv A) sv :
  triple P m (λ _, durable) → P sv → durable (m sv).1.
Proof. intros Hm HP. specialize (Hm sv HP). by destruct (m sv) as [sv' [a|e]]. Qed.

Lemma durable_trace id o sv : exempt id → durable sv → durable (upd_disk (partial_alter (λ _, o) id) sv).
Proof.
  intros Hx [[Hm Hd] Hc]. split; [|done]. split; cbn; intros id' x Hs Hn;
    (destruct (decide (id = id')) as [<-|Hne]; [done|]);
    rewrite lookup_partial_alter_ne in * by done; [by apply Hm|by eapply Hd].
Qed.

Lemma server_step_durable sv sv' : server_step sv sv' → durable sv → durable sv'.
Proof.
  intros Hs Hd. destruct Hs; [eapply triple_durable; [by eapply triple_process|done]| ..];
    try (eapply triple_durable; [|exact Hd]).
  - apply triple_get_session.
  - apply triple_cancel.
  - apply triple_suspend.
  - apply triple_resume.
  - apply triple_cleanup.
  - by eapply triple_sweep.
  - apply triple_evict.
  - apply triple_gc.
  - by apply durable_trace.
  - by eapply boot_durable.
Qed.

Lemma durable_empty sv :
  sv_sessions sv = ∅ → sv_disk sv = ∅ → (∀ n, sv_clock sv n ≠ 0) → durable sv.
Proof.
  intros Hm Hd Hc. split; [|done]. rewrite Hm, Hd. split; intros ? ?; by rewrite lookup_empty.
Qed.


(** ** Reuse of an evicted id *)

(** A storage write that is reported as done was done. *)
Lemma storage_write f sv sv' :
  (let! ok := io_outcome in
   if ok then do! st_mod (upd_disk f); st_ret true else st_ret false : srv bool)%stm sv
    = (sv', Ok true) →
  sv_sessions sv' = sv_sessions sv ∧ sv_disk sv' = f (sv_disk sv).
Proof.
  unfold st_bind, io_outcome. destruct (sv_io sv 0); intros [= <-]. done.
Qed.

Lemma reserve_ok busy max_open env s sv sv' :
  reserve busy max_open env s sv = (sv', Ok ()) →
  sv_sessions sv' = <[env_session_id env := s]> (sv_sessions sv) ∧ sv_disk sv' = sv_disk sv.
Proof.
  unfold reserve. intros E. apply st_bind_ok in E as ([] & sv1 & [= <- _] & E).
  apply st_bind_ok in E as ([] & sv1 & E1 & [= <-]). simpl.
  assert (sv_sessions sv1 = sv_sessions sv ∧ sv_disk sv1 = sv_disk sv) as [-> ->];
    [|by split]. destruct max_open; [|by injection E1 as <-].
  apply st_bind_ok in E1 as (now & sv2 & [= <- <-] & [= <- _]). done.
Qed.

Lemma commit_start_ok env now v s sv sv' :
  commit_start env now v s sv = (sv', Ok ()) →
  sv_sessions sv' = sv_sessions sv ∧
  sv_disk sv' !! env_session_id env
  = Some (default [] (sv_disk sv !! env_session_id env)
      ++ [make_start_entry env now (vs_bound_mode_version v) (ss_semantics_rev s)
            (vs_max_suspend_ms v)]).
Proof.
  unfold commit_start. cbv zeta. set (e := make_start_entry _ _ _ _ _). clearbody e.
  intros E. apply st_bind_ok in E as ([|] & sv1 & E1 & E);
    [|by apply st_bind_ok in E as (? & ? & _ & [=])].
  apply storage_write in E1 as [Hs1 Hd1].
  apply st_bind_ok in E as ([|] & sv2 & E2 & E);
    [|by apply st_bind_ok in E as (? & ? & _ & [=])].
  apply storage_write in E2 as [Hs2 Hd2].
  apply st_bind_ok in E as ([] & sv3 & [= <-] & E).
  apply st_bind_ok in E as ([] & sv3 & [= <-] & E).
  assert (sv_sessions sv' = sv_sessions sv2 ∧ sv_disk sv' = sv_disk sv2) as [-> ->].
  { apply st_bind_ok in E as (b & sv3 & E3 & E4).
    unfold save_session, io_outcome, st_bind in E3.
    destruct (sv_io _ 0) in E3; injection E3 as <- <-;
      unfold publish_accepted_envelope in E4; destruct (str_is_empty _); by injection E4 as <-. }
  split; [congruence|]. rewrite Hd2, Hd1. unfold log_append, create_session_log.
  by rewrite !lookup_insert_eq.
Qed.

Section reuse.
Context (policies : PolicySource) (modes : ModeSource).
Hypothesis Hoffered : offered defined known policies modes.

(** What an accepted SessionStart leaves behind. *)
Lemma start_accepted busy max_open env sv sv' r :
  process_session_start policies busy max_open env sv = (sv', Ok r) →
  sv_sessions sv !! env_session_id env = None →
  ∃ s now bmv susp, ss_state s = Open ∧ sv_sessions sv' !! env_session_id env = Some s ∧
    sv_disk sv' !! env_session_id env
    = Some (default [] (sv_disk sv !! env_session_id env)
        ++ [make_start_entry env now bmv (ss_semantics_rev s) susp]).
Proof.
  unfold process_session_start. cbv zeta. intros E Hn.
  apply st_bind_ok in E as ([] & sv1 & [= <- _] & E).
  apply st_bind_ok in E as ([] & sv1 & [= <- _] & E).
  apply st_bind_ok in E as (mode & sv1 & [= <- Hm%ok_or_ok] & E).
  apply st_bind_ok in E as (now & sv1 & [= <- <-] & E).
  apply st_bind_ok in E as (v & sv1 & [= <- Hv] & E).
  apply st_bind_ok in E as (existing & sv1 & [= <- <-] & E). simpl in E. rewrite Hn in E.
  apply st_bind_ok in E as (policy & sv1 & [= <- _] & E).
  apply st_bind_ok in E as (s & sv1 & [= <- Ha] & E).
  apply st_bind_ok in E as ([] & sv2 & [Hs2 Hd2]%reserve_ok & E).
  apply st_bind_ok in E as ([] & sv3 & [Hs3 Hd3]%commit_start_ok & [= <- <-]).
  exists s, (sv_clock sv 0), (vs_bound_mode_version v), (vs_max_suspend_ms v).
  split_and!.
  - apply (of_mode _ _ _ _ Hoffered) in Hm as [Hm _]. pose proof (@source_laws known _ _ _ Hm).
    eapply (accept_wf mode env _ (Some policy) (start_options (env_mode env))).
    unfold accept_session_start. rewrite Hv. exact Ha.
  - rewrite Hs3, Hs2. apply lookup_insert_eq.
  - rewrite Hd3, Hd2. done.
Qed.

(** Eviction leaves the disk alone. *)
Lemma evict_disk secs sv : sv_disk (evict_stale_sessions secs sv).1 = sv_disk sv.
Proof.
  unfold evict_stale_sessions. unfold st_bind at 1, now_ms at 1. unfold st_bind at 1, stale_ids.
  unfold st_read. by destruct (is_empty _).
Qed.

(** Reusing the id of an evicted session loses the new session. Let a
    session have ended and been evicted from memory while its log is still
    stored. A SessionStart with its id is accepted as new, and the registry
    holds an open session; but its start is appended to the old log, and a
    restart brings back the session that had ended instead. *)
Theorem reused_id_lost busy max_open env sv sv' r old strict io sv'' report :
  let id := env_session_id env in
  sv_sessions sv !! id = None →
  backs defined known id (default [] (sv_disk sv !! id)) old → serves known policies modes old →
  is_terminal (ss_state old) = true →
  process_session_start policies busy max_open env sv = (sv', Ok r) →
  recover_sessions policies strict (boot io sv') = (sv'', Ok report) →
  strict = true ∨ (∀ n, io n = true) →
  ∃ s t, sv_sessions sv' !! id = Some s ∧ ss_state s = Open ∧
    sv_sessions sv'' !! id = Some t ∧ ss_state t = ss_state old.
Proof.
  intros id Hn [_ _ _ _ (mode & t0 & Hm & Hh & Hl)] Hsv Ht E Erec Ha. specialize (Hl _ _ Hsv).
  destruct (start_accepted _ _ _ _ _ _ E Hn) as (s & now & bmv & susp & Ho & Hs & Hd).
  apply same_history_fields in Hh as (_ & _ & Hst).
  set (e := make_start_entry _ _ _ _ _) in Hd. fold id in Hd.
  assert (∃ t, replay_entries id [e] mode t0 = Ok t ∧ ss_state t = ss_state old)
    as (t & Er & Et).
  { cbn [replay_entries]. unfold replay_entry, replay_event. cbn [le_entry_kind e make_start_entry].
    unfold apply_event, apply_envelope.
    rewrite bool_decide_eq_false_2 by (rewrite Hst; by destruct (ss_state old)).
    eexists. split; [done|]. unfold insert_seen_nonempty. by destruct (str_is_empty _). }
  exists s, t. split_and!; [done|done| |done].
  apply recover_sessions_recovery in Erec as [_ _ Hc _]. apply Hc; [done|exact Ha| |left].
  - unfold stored, recovered. simpl. rewrite Hd. simpl. rewrite Hl by (by repeat constructor).
    by rewrite Er.
  - apply list_elem_of_fmap. eexists (id, _). split; [done|]. by apply elem_of_map_to_list.
Qed.
End reuse.
End durable.

From S2P Require Import MultiRound Laws Concrete.

Module Demo.
#[local] Existing Instance demo_uuids.
#[local] Existing Instance Step.Demo.m_start.
#[local] Existing Instance Step.Demo.to_json_resolution.
#[local] Instance signals : SignalCodec := {| decode_signal _ := None; decode_progress _ := None |}.
#[local] Instance annotations : AnnotationCodec :=
  {| encode_cancel _ _ := []; encode_suspend _ _ := []; encode_resume _ _ _ := [] |}.

Definition policy : PolicyDefinition := MkPolicyDefinition DEFAULT_POLICY_ID "*" "" VNull 3.
Definition policies : PolicySource := λ k, if k == DEFAULT_POLICY_ID then Some policy else None.
#[local] Instance modes : ModeSource := {|
  get_mode name := if name == "ext.notes.v1" then Some Step.Demo.mode else None;
  requires_strict _ := false;
  get_mode_version _ := None |}.
#[local] Instance modes_laws : ModeSourceLaws.
Proof. constructor; intros name mode; simpl; case_match; intros [= <-]; apply _. Qed.

(** Snapshots, written as the bits of all their fields but the policy. *)
#[local] Instance state_countable : Countable SessionState.
Proof.
  refine (inj_countable'
    (λ st, match st with
           | Open => 0 | Suspended => 1 | Resolved => 2 | Expired => 3 | Cancelled => 4 end)
    (λ n, if n =? 0 then Open else if n =? 1 then Suspended else if n =? 2 then Resolved
          else if n =? 3 then Expired else Cancelled) _).
  by intros [].
Defined.
Definition snapshot_code (p : PersistedSession) :=
  ((ps_state p,
    [ps_schema_version p; ps_ttl_expiry p; ps_ttl_ms p; ps_started_at_unix_ms p;
     ps_accumulated_suspended_ms p; ps_semantics_rev p; ps_max_suspend_ms p],
    [ps_session_id p; ps_mode p; ps_intent p; ps_mode_version p; ps_configuration_version p;
     ps_policy_version p; ps_context_id p; ps_initiator_sender p]),
   (ps_resolution p, ps_mode_state p, ps_participants p, ps_seen_message_ids p, ps_extensions p,
    (λ r, (pr_uri r, pr_name r)) <$> ps_roots p, ps_suspended_at_ms p,
    ps_suspension_intervals p)).
Definition snapshot_of policy (c : _) : option PersistedSession :=
  match c with
  | ((st, [v; exp; ttl; start; acc; rev; susp], [id; m; i; mv; cv; pv; ctx; init]),
     (res, ms, parts, seen, ext, roots, at_ms, ivs)) =>
      Some (MkPersistedSession v id st exp ttl start res m ms parts seen i mv cv pv ctx ext
        ((λ r, MkPersistedRoot r.1 r.2) <$> roots) init (Some policy) at_ms acc ivs rev susp)
  | _ => None
  end.
Lemma snapshot_of_code policy p :
  ps_policy_definition p = Some policy → snapshot_of policy (snapshot_code p) = Some p.
Proof.
  intros Hp. destruct p. simpl in *. subst. do 2 f_equal. rewrite <- list_fmap_compose.
  rewrite <- (list_fmap_id ps_roots) at 2. apply list_fmap_ext. by intros ? [].
Qed.
#[local] Instance snapshots : Serde PersistedSession := {|
  to_vec p := pos_bytes (encode (snapshot_code p));
  from_slice b := bytes_pos b ≫= λ n, countable.decode n ≫= snapshot_of policy |}.
#[local] Instance snapshots_laws : SnapshotCodec policies.
Proof.
  intros s k p Hk Hp. unfold policies in Hk. case_match; simplify_eq.
  cbn [from_slice to_vec snapshots]. rewrite bytes_pos_bytes. cbn [mbind option_bind].
  rewrite countable.decode_encode. cbn [mbind option_bind]. by apply snapshot_of_code.
Qed.

Definition config : RuntimeConfig := MkRuntimeConfig 0 false.
Definition empty_server : Server :=
  MkServer ∅ ∅ ∅ ∅ [] (λ n, 2000 + Z.of_nat n) (λ _, true).
Definition sv1 : Server := (process policies config (λ _, false) None Step.Demo.start empty_server).1.
Definition sv2 : Server := (suspend_session Step.Demo.id "" "" sv1).1.

Lemma all_offered : offered policies modes policies modes.
Proof.
  split; [|done]. intros k p Hk. split; [done|]. revert Hk. unfold policies. by case_bool_decide; intros [= <-].
Qed.

Definition binding (s : Session) := (ss_state s, ss_policy_version s, ss_policy_definition s).
Lemma bound_served s state :
  binding s = (state, DEFAULT_POLICY_ID, Some policy) → serves modes policies modes s.
Proof. intros [= _ Hv Hd]. split; [|done..]. by rewrite Hv, Hd. Qed.

(** A refused write of another session leaves a log that has no start. *)
Definition exempt (id : string) : Prop := id = "other".
Definition stray : LogEntry := make_internal_entry "TtlExpired" [] "other" "" 1.
Definition sv2' : Server := upd_disk (partial_alter (λ _, Some [stray]) "other") sv2.
Definition rebooted : Server * result IoErrorKind RecoveryReport :=
  recover_sessions policies false (boot (λ _, true) sv2').


(** The session is cancelled, evicted, and its id used again. *)
Definition sv3 : Server := (cancel_session config Step.Demo.id "" "" sv2).1.
Definition sv4 : Server := (evict_stale_sessions 0 sv3).1.
Definition sv5 : Server :=
  (process_session_start policies (λ _, false) None Step.Demo.start sv4).1.

Lemma sv3_durable : durable policies modes (λ _, False) sv3.
Proof.
  assert (durable policies modes (λ _, False) empty_server) as H0
    by (by apply durable_empty; [| |intros n; simpl; lia]).
  apply (server_step_durable policies modes _ sv2); [apply sv_cancel|].
  apply (server_step_durable policies modes _ sv1); [apply sv_suspend|].
  apply (server_step_durable policies modes _ empty_server); [|exact H0].
  apply sv_process; [apply all_offered|by right].
Qed.

Definition rebooted5 : Server * result IoErrorKind RecoveryReport :=
  recover_sessions policies true (boot (λ _, true) sv5).

Lemma reused_id_lost_witness :
  ∃ s t, sv_sessions sv5 !! Step.Demo.id = Some s ∧ ss_state s = Open ∧
    sv_sessions rebooted5.1 !! Step.Demo.id = Some t ∧ ss_state t = Cancelled.
Proof.
  destruct (sv_sessions sv3 !! Step.Demo.id) as [old|] eqn:E;
    [|exfalso; vm_compute in E; discriminate].
  assert (option_map binding (sv_sessions sv3 !! Step.Demo.id)
    = Some (Cancelled, DEFAULT_POLICY_ID, Some policy)) as Hst by by vm_compute.
  rewrite E in Hst. apply (inj Some) in Hst as Hb. injection Hst as Hs _ _.
  assert (is_ok rebooted5.2 = true) as Hok by by vm_compute.
  unfold rebooted5 in *.
  destruct (recover_sessions policies true (boot (λ _, true) sv5)) as [sv6 [report|e]] eqn:Erec;
    [|discriminate Hok].
  destruct (reused_id_lost policies modes policies modes all_offered (λ _, false) None Step.Demo.start sv4 sv5
    (MkProcessResult Open false) old true (λ _, true) sv6 report) as (s & t & H1 & H2 & H3 & H4).
  - by vm_compute.
  - unfold sv4. rewrite evict_disk.
    exact (held_backs policies modes _ Step.Demo.id old sv3 (conj sv3_durable E) (λ x, x)).
  - by eapply bound_served.
  - by rewrite Hs.
  - unfold sv5. rewrite (surjective_pairing (process_session_start _ _ _ _ _)) at 1.
    apply (f_equal (pair _)). by vm_compute.
  - exact Erec.
  - by left.
  - exists s, t. rewrite Hs in H4.
    split; [exact H1|]. split; [exact H2|]. split; [exact H3|exact H4].
Defined.
End Demo.
