(* ===== verification/ModeRegistry.v ===== *)
(** * The mode registry (crates/macp-modes/src/mode_registry.rs, mode/mod.rs)

    The built-in modes with their descriptors, registration, removal and
    promotion of extension modes, and the lookups the server makes; then that
    every registry the runtime can hold is a lawful source of modes. *)

From stdpp Require Import prelude gmap strings sorting relations.
From S2P Require Import Prelude RustStr Floats Extern Error Policy Wire SessionData.
From S2P Require Import CommitmentHash Concrete ModeApi Decision Proposal Task Handoff Quorum MultiRound.
From S2P Require Import Laws Blind Log LogReplay Recovery.
Open Scope Z_scope.

(** ** Descriptors *)
Record ModeDescriptor := MkModeDescriptor {
  md_mode : string;
  md_mode_version : string;
  md_title : string;
  md_description : string;
  md_determinism_class : string;
  md_participant_model : string;
  md_message_types : list string;
  md_terminal_message_types : list string;
  md_schema_uris : gmap string string;
}.
Definition schema_map (path : string) : gmap string string := {["protobuf" := path]}.

Definition standard_mode_descriptors : list ModeDescriptor :=
  let schema := schema_map "buf.build/multiagentcoordinationprotocol/macp" in
  [MkModeDescriptor "macp.mode.decision.v1" "1.0.0" "Decision Mode"
     "Structured decision making with proposals, evaluations, objections, votes, and a terminal Commitment."
     "semantic-deterministic" "declared"
     ["SessionStart"; "Proposal"; "Evaluation"; "Objection"; "Vote"; "Commitment"]
     ["Commitment"] schema;
   MkModeDescriptor "macp.mode.proposal.v1" "1.0.0" "Proposal Mode"
     "Negotiation with proposals, counterproposals, accepts, rejects, withdrawals, and a terminal Commitment."
     "semantic-deterministic" "peer"
     ["SessionStart"; "Proposal"; "CounterProposal"; "Accept"; "Reject"; "Withdraw"; "Commitment"]
     ["Commitment"] schema;
   MkModeDescriptor "macp.mode.task.v1" "1.0.0" "Task Mode"
     "One bounded delegated task with assignee responses, progress, completion/failure reports, and a terminal Commitment."
     "structural-only" "orchestrated"
     ["SessionStart"; "TaskRequest"; "TaskAccept"; "TaskReject"; "TaskUpdate"; "TaskComplete";
      "TaskFail"; "Commitment"]
     ["Commitment"] schema;
   MkModeDescriptor "macp.mode.handoff.v1" "1.0.0" "Handoff Mode"
     "Scoped responsibility transfer with handoff offers, context, target responses, and a terminal Commitment."
     "context-frozen" "delegated"
     ["SessionStart"; "HandoffOffer"; "HandoffContext"; "HandoffAccept"; "HandoffDecline";
      "Commitment"]
     ["Commitment"] schema;
   MkModeDescriptor "macp.mode.quorum.v1" "1.0.0" "Quorum Mode"
     "Threshold approval with one approval request, participant ballots, and a terminal Commitment."
     "semantic-deterministic" "quorum"
     ["SessionStart"; "ApprovalRequest"; "Approve"; "Reject"; "Abstain"; "Commitment"]
     ["Commitment"] schema].
Definition extension_mode_descriptors : list ModeDescriptor :=
  [MkModeDescriptor "ext.multi_round.v1" "1.0.0" "Multi-Round Mode"
     "Iterative convergence through multiple contribution rounds until all participants agree, with a terminal Commitment."
     "semantic-deterministic" "peer" ["SessionStart"; "Contribute"; "Commitment"]
     ["Commitment"] (schema_map "buf.build/multiagentcoordinationprotocol/macp")].
(** [descriptor_map.remove(name)] on the map [build_default] collects. *)
Definition builtin_descriptor (name : string) : option ModeDescriptor :=
  List.find (λ d, md_mode d == name) (standard_mode_descriptors ++ extension_mode_descriptors).

(** ** Registrations *)
Record ModeConformanceCatalog := MkModeConformanceCatalog {
  fixture_set_name : string;
  golden_transcript_paths : list string;
  conformance_fixture_paths : list string;
}.
(** The factory is the mode its [create] builds, and the providers are the
    values they hand out. *)
Record ModeRegistration := MkModeRegistration {
  mr_mode_name : string;
  mr_factory : Mode;
  mr_descriptor_provider : option ModeDescriptor;
  mr_schema_provider : gmap string string;
  mr_conformance_provider : ModeConformanceCatalog;
  mr_standards_track : bool;
  mr_builtin : bool;
  mr_strict_session_start : bool;
}.

(** [ModeRegistration::descriptor]. *)
Definition descriptor (e : ModeRegistration) : option ModeDescriptor :=
  (λ d, MkModeDescriptor (mr_mode_name e) (md_mode_version d) (md_title d) (md_description d)
     (md_determinism_class d) (md_participant_model d) (md_message_types d)
     (md_terminal_message_types d) (mr_schema_provider e)) <$> mr_descriptor_provider e.

Record ModeRegistry := MkModeRegistry {
  modes : gmap string ModeRegistration;
  (** How many times [change_tx] was sent on. *)
  mode_changes : Z;
}.

Definition insert_builtin (entries : gmap string ModeRegistration) (name : string)
    (factory : Mode) (d : option ModeDescriptor) (standards_track strict_session_start : bool)
    (fixtures : string) (golden conformance : list string) : gmap string ModeRegistration :=
  let schema_uris := default ∅ (md_schema_uris <$> d) in
  <[name := MkModeRegistration name factory d schema_uris
              (MkModeConformanceCatalog fixtures golden conformance)
              standards_track true strict_session_start]> entries.

(** [sort_by] the mode. *)
Definition descriptor_le (a b : ModeDescriptor) : Prop := String.le (md_mode a) (md_mode b).
#[export] Instance descriptor_le_dec : RelDecision descriptor_le.
Proof. intros x y. unfold descriptor_le. apply _. Defined.

(** ** Lookups *)
Section lookups.
Implicit Types (r : ModeRegistry) (name : string).

(** [get_mode] with [ModeRef::instantiate]. *)
Definition lookup_mode r name : option Mode := mr_factory <$> modes r !! name.
Definition is_standard_mode r name : bool :=
  default false (mr_standards_track <$> modes r !! name).
Definition requires_strict_session_start r name : bool :=
  default false (mr_strict_session_start <$> modes r !! name).
Definition lookup_mode_version r name : option string :=
  match modes r !! name ≫= descriptor with
  | Some d => if str_is_empty (md_mode_version d) then None else Some (md_mode_version d)
  | None => None
  end.

Definition ordered_standard_names (entries : gmap string ModeRegistration) : list string :=
  List.filter (λ name, default false (mr_standards_track <$> entries !! name)) STANDARD_MODE_NAMES
  ++ (List.filter (λ ne : string * ModeRegistration,
        mr_standards_track ne.2 && negb (str_elem ne.1 STANDARD_MODE_NAMES))
        (bt_entries entries)).*1.
Definition standard_mode_names r : list string := ordered_standard_names (modes r).
Definition extension_mode_names r : list string :=
  (List.filter (λ ne : string * ModeRegistration, negb (mr_standards_track ne.2))
     (bt_entries (modes r))).*1.
Definition all_mode_names r : list string := bt_keys (modes r).

Definition registry_standard_descriptors r : list ModeDescriptor :=
  omap (λ name, modes r !! name ≫= descriptor) (standard_mode_names r).
Definition registry_extension_descriptors r : list ModeDescriptor :=
  merge_sort descriptor_le (omap descriptor
    (List.filter (λ e, negb (mr_standards_track e)) (map_to_list (modes r)).*2)).
Definition all_mode_descriptors r : list ModeDescriptor :=
  merge_sort descriptor_le (omap descriptor (map_to_list (modes r)).*2).
Definition all_mode_conformance r : list (string * ModeConformanceCatalog) :=
  (λ ne : string * ModeRegistration, (ne.1, mr_conformance_provider ne.2)) <$> bt_entries (modes r).
End lookups.

(** What the server sees of a registry. *)
Definition registry_source (r : ModeRegistry) : ModeSource := {|
  get_mode := lookup_mode r;
  requires_strict := requires_strict_session_start r;
  get_mode_version := lookup_mode_version r |}.

(** ** Changes *)
Definition set_modes (f : gmap string ModeRegistration → gmap string ModeRegistration)
    (r : ModeRegistry) : ModeRegistry := MkModeRegistry (f (modes r)) (mode_changes r + 1).

Fixpoint validate_terminals (message_types terminals : list string) : result text unit :=
  match terminals with
  | [] => Ok ()
  | terminal :: terminals =>
      if terminal != "Commitment" then
        Err [Lit "dynamically registered modes resolve only on 'Commitment'; terminal message type '";
             Lit terminal; Lit "' would never terminate a session"]
      else if negb (str_elem terminal message_types) then
        Err [Lit "terminal message type '"; Lit terminal;
             Lit "' must also appear in message_types"]
      else validate_terminals message_types terminals
  end.
Definition validate_extension_descriptor (d : ModeDescriptor) : result text unit :=
  if blank (md_mode d) then Err [Lit "mode name must not be empty"]
  else if starts_with "macp.mode." (md_mode d) then
    Err [Lit "cannot register extension with reserved macp.mode.* namespace"]
  else if is_empty (md_message_types d) then
    Err [Lit "extension descriptor must declare at least one message type"]
  else if blank (md_mode_version d) then
    Err [Lit "extension descriptor must bind mode_version"]
  else if is_empty (md_terminal_message_types d) then
    Err [Lit "extension descriptor must declare at least one terminal message type"]
  else validate_terminals (md_message_types d) (md_terminal_message_types d).

Definition unregister_extension (mode : string) : stm ModeRegistry text unit :=
  (do! st_read (λ r,
     match modes r !! mode with
     | None => Err [Lit "mode '"; Lit mode; Lit "' not found"]
     | Some e =>
         if mr_builtin e then Err [Lit "cannot unregister built-in mode '"; Lit mode; Lit "'"]
         else if mr_standards_track e then
           Err [Lit "cannot unregister standards-track mode '"; Lit mode; Lit "'"]
         else Ok ()
     end);
   st_mod (set_modes (delete mode)))%stm.

(** The registration of a promoted mode. *)
Definition promoted (name : string) (e : ModeRegistration) : ModeRegistration :=
  MkModeRegistration name (mr_factory e) (mr_descriptor_provider e) (mr_schema_provider e)
    (mr_conformance_provider e) true (mr_builtin e) true.
Definition promote_mode (mode : string) (new_name : option string)
    : stm ModeRegistry text string :=
  let final_name := default mode new_name in
  (let! e := st_read (λ r,
     e ← ok_or (modes r !! mode) [Lit "mode '"; Lit mode; Lit "' not found"];
     if mr_standards_track e then
       Err [Lit "mode '"; Lit mode; Lit "' is already standards-track"]
     else if (final_name != mode) && starts_with "macp.mode." final_name then
       Err [Lit "cannot promote '"; Lit mode; Lit "' into the reserved macp.mode.* namespace"]
     else if blank final_name then Err [Lit "promotion target name must not be empty"]
     else if (final_name != mode) && bool_decide (is_Some (modes r !! final_name)) then
       Err [Lit "cannot promote: target name '"; Lit final_name; Lit "' already exists"]
     else Ok e) in
   do! st_mod (set_modes (λ m, <[final_name := promoted final_name e]> (delete mode m)));
   st_ret final_name)%stm.

Section registry.
Context `{Serde DecisionState} `{Serde ProposalState} `{Serde TaskState}.
Context `{Serde HandoffState} `{Serde QuorumState} `{Serde MultiRoundState}.
Context `{FromValue CommitmentRules} `{FromValue ProposalPolicyRules}.
Context `{FromValue TaskPolicyRules} `{FromValue HandoffPolicyRules}.
Context `{FromValue QuorumPolicyRules} `{PolicyEvaluator}.
Context `{Message CommitmentPayload} `{Message ProposalPayload} `{Message EvaluationPayload}.
Context `{Message ObjectionPayload} `{Message VotePayload} `{Message NegProposalPayload}.
Context `{Message CounterProposalPayload} `{Message AcceptPayload} `{Message NegRejectPayload}.
Context `{Message WithdrawPayload} `{Message TaskRequestPayload} `{Message TaskAcceptPayload}.
Context `{Message TaskRejectPayload} `{Message TaskUpdatePayload} `{Message TaskCompletePayload}.
Context `{Message TaskFailPayload} `{Message HandoffOfferPayload}.
Context `{Message HandoffContextPayload} `{Message HandoffAcceptPayload}.
Context `{Message HandoffDeclinePayload} `{Message ApprovalRequestPayload}.
Context `{Message ApprovePayload} `{Message BallotRejectPayload} `{Message AbstainPayload}.
Context `{Message ContributePayload} `{ContributeJson} `{ToJson ResolutionPayload}.
Context `{ToJson PassthroughResolution}.

(** [build_default]. *)
Definition build_default : ModeRegistry :=
  let insert name factory standards_track fixtures m :=
    let happy := "tests/conformance/" +:+ fixtures +:+ "_happy_path.json" in
    let reject := "tests/conformance/" +:+ fixtures +:+ "_reject_paths.json" in
    insert_builtin m name factory (builtin_descriptor name) standards_track true fixtures
      [happy] [happy; reject] in
  let entries := insert "macp.mode.decision.v1" DecisionMode true "decision" ∅ in
  let entries := insert "macp.mode.proposal.v1" ProposalMode true "proposal" entries in
  let entries := insert "macp.mode.task.v1" TaskMode true "task" entries in
  let entries := insert "macp.mode.handoff.v1" HandoffMode true "handoff" entries in
  let entries := insert "macp.mode.quorum.v1" QuorumMode true "quorum" entries in
  let entries := insert "ext.multi_round.v1" MultiRoundMode false "multi_round" entries in
  MkModeRegistry entries 0.

Definition register_extension (d : ModeDescriptor) : stm ModeRegistry text unit :=
  let allowed_types := List.filter (λ t, t != "SessionStart") (md_message_types d) in
  (do! st_read (λ _, validate_extension_descriptor d);
   do! st_read (λ r,
     if bool_decide (is_Some (modes r !! md_mode d)) then
       Err [Lit "mode '"; Lit (md_mode d); Lit "' is already registered"]
     else Ok ());
   st_mod (set_modes <[md_mode d := MkModeRegistration (md_mode d) (PassthroughMode allowed_types)
     (Some d) (md_schema_uris d) (MkModeConformanceCatalog "" [] []) false false false]>))%stm.

(** ** What every registry holds *)
Implicit Types (r : ModeRegistry) (e : ModeRegistration).

Inductive mode_registry_step : relation ModeRegistry :=
| step_register_extension d r : mode_registry_step r (register_extension d r).1
| step_unregister_extension mode r : mode_registry_step r (unregister_extension mode r).1
| step_promote mode new_name r : mode_registry_step r (promote_mode mode new_name r).1.

Definition mode_registry_reachable r : Prop := rtc mode_registry_step build_default r.

(** One entry. *)
Record entry_ok (name : string) e : Prop := {
  eo_laws : ModeLaws (mr_factory e);
  eo_blind : ReplayBlind (mr_factory e);
  eo_name : mr_mode_name e = name;
  eo_version : ∃ d, mr_descriptor_provider e = Some d ∧ md_mode_version d ≠ "";
  eo_strict : mr_standards_track e = true → mr_strict_session_start e = true;
  eo_reserved : starts_with "macp.mode." name = true → name ∈ STANDARD_MODE_NAMES;
  eo_standard : name ∈ STANDARD_MODE_NAMES →
    modes build_default !! name = Some e ∧ mr_builtin e = true ∧ mr_standards_track e = true;
}.
Record registry_inv r : Prop := {
  ri_entries name e : modes r !! name = Some e → entry_ok name e;
  ri_standard name : name ∈ STANDARD_MODE_NAMES → is_Some (modes r !! name);
}.

Lemma blank_nonempty s : blank s = false → s ≠ "".
Proof. by intros Hb ->. Qed.

Lemma default_lookup name e :
  modes build_default !! name = Some e →
  (∃ factory d fixtures golden conformance track,
     e = MkModeRegistration name factory (Some d) (md_schema_uris d)
           (MkModeConformanceCatalog fixtures golden conformance) track true true ∧
     ModeLaws factory ∧ ReplayBlind factory ∧ md_mode_version d = "1.0.0" ∧
     track = str_elem name STANDARD_MODE_NAMES) ∧
  name ∈ STANDARD_MODE_NAMES ++ EXTENSION_MODE_NAMES.
Proof.
  unfold build_default, insert_builtin; cbn [modes].
  rewrite !lookup_insert_Some, lookup_empty. intros Hname.
  repeat match type of Hname with _ ∨ _ => destruct Hname as [[<- <-]|[_ Hname]] end;
    [..|done]; (split; [|by apply str_elem_true]);
    do 6 eexists; (split; [reflexivity|]); split_and!; try apply _; done.
Qed.

Lemma registry_inv_default : registry_inv build_default.
Proof.
  split.
  - intros name e Hl. pose proof Hl as Hl'.
    apply default_lookup in Hl as [(factory & d & fx & go & co & track & -> & ? & ? & Hv & ->) Hn].
    split; simpl; try done.
    + exists d. by rewrite Hv.
    + intros Hs. apply elem_of_app in Hn as [?|Hn]; [done|].
      apply list_elem_of_singleton in Hn as ->. done.
    + intros Hstd. split_and!; [done..|]. by apply str_elem_true.
  - intros name Hn. unfold STANDARD_MODE_NAMES in Hn. rewrite !elem_of_cons, elem_of_nil in Hn.
    unfold build_default, insert_builtin; cbn [modes]. rewrite !lookup_insert_is_Some'.
    naive_solver.
Qed.

(** *** Every change keeps it *)
Lemma registry_inv_insert r name e m :
  (∀ n e', m !! n = Some e' → modes r !! n = Some e') →
  (∀ n, n ∈ STANDARD_MODE_NAMES → m !! n = modes r !! n) →
  entry_ok name e → registry_inv r → registry_inv (MkModeRegistry (<[name := e]> m) (mode_changes r + 1)).
Proof.
  intros Hsub Hstd He [Hentries Hs]. split; simpl.
  - intros n e' [[<- <-]|[_ Hl]]%lookup_insert_Some; [done|]. by apply Hentries, Hsub.
  - intros n Hn. rewrite lookup_insert_is_Some'. right. rewrite Hstd by done. by apply Hs.
Qed.

Lemma validate_extension_ok d :
  validate_extension_descriptor d = Ok () →
  blank (md_mode d) = false ∧ starts_with "macp.mode." (md_mode d) = false ∧
  blank (md_mode_version d) = false ∧ md_message_types d ≠ [] ∧
  (∀ t, t ∈ md_terminal_message_types d ↔ t = "Commitment") ∧ "Commitment" ∈ md_message_types d.
Proof.
  unfold validate_extension_descriptor. intros Hv. res_inv.
  assert (∀ l, validate_terminals (md_message_types d) l = Ok () →
    ∀ t, t ∈ l → t = "Commitment" ∧ "Commitment" ∈ md_message_types d) as Hterm.
  { induction l as [|t l IH]; simpl; intros Hl x Hx; [by apply elem_of_nil in Hx|].
    res_inv. bool_simp. apply elem_of_cons in Hx as [->|Hx]; [|by apply IH]. naive_solver. }
  bool_simp. destruct (md_terminal_message_types d) as [|t ts] eqn:Ht; [done|].
  destruct (Hterm _ Hv t) as [-> Hin]; [left|]. split_and!; try done.
  intros x. split; [by intros []%(Hterm _ Hv)|]. intros ->. left.
Qed.

Lemma standard_reserved name : name ∈ STANDARD_MODE_NAMES → starts_with "macp.mode." name = true.
Proof.
  unfold STANDARD_MODE_NAMES. rewrite !elem_of_cons, elem_of_nil.
  by intros [->|[->|[->|[->|[->|[]]]]]].
Qed.

Lemma registry_inv_register d r : registry_inv r → registry_inv (register_extension d r).1.
Proof.
  intros Hr. unfold register_extension, st_bind, st_read, st_mod.
  destruct (validate_extension_descriptor d) as [[]|] eqn:Hv; [|done].
  apply validate_extension_ok in Hv as (_ & Hres & Hver & _). case_bool_decide; [done|].
  apply (registry_inv_insert r); [done..| |done].
  split; simpl; [apply _|apply _|done| |done| |].
  - exists d. split; [done|]. by apply blank_nonempty.
  - by rewrite Hres.
  - intros Hstd%standard_reserved. congruence.
Qed.

Lemma registry_inv_unregister mode r : registry_inv r → registry_inv (unregister_extension mode r).1.
Proof.
  intros [Hentries Hs]. unfold unregister_extension, st_bind, st_read, st_mod.
  destruct (modes r !! mode) as [e|] eqn:He; [|done].
  destruct (mr_builtin e) eqn:Hb; [done|]. destruct (mr_standards_track e); [done|].
  split; simpl.
  - intros n e' [_ Hl]%lookup_delete_Some. by apply Hentries.
  - intros n Hn. rewrite lookup_delete_ne; [by apply Hs|]. intros <-.
    apply Hentries in He. destruct (eo_standard _ _ He Hn) as (_ & ? & _). congruence.
Qed.

Lemma registry_inv_promote mode new_name r :
  registry_inv r → registry_inv (promote_mode mode new_name r).1.
Proof.
  intros Hr. pose proof Hr as [Hentries Hs]. unfold promote_mode, st_bind, st_read, st_mod.
  destruct (modes r !! mode) as [e|] eqn:He; [|done]. simpl.
  destruct (mr_standards_track e) eqn:Ht; [done|].
  destruct (_ && starts_with _ _) eqn:Hres; [done|]. destruct (blank _); [done|].
  destruct (_ && bool_decide _); [done|]. simpl.
  specialize (Hentries _ _ He).
  assert (mode ∉ STANDARD_MODE_NAMES) as Hm
    by (intros Hin; destruct (eo_standard _ _ Hentries Hin) as (_ & _ & ?); congruence).
  assert (starts_with "macp.mode." (default mode new_name) = true → False) as Hnot.
  { intros Hsw. rewrite Hsw, andb_true_r in Hres. apply negb_false_iff, bool_decide_eq_true in Hres.
    rewrite Hres in Hsw. by apply (eo_reserved _ _ Hentries) in Hsw. }
  apply (registry_inv_insert r (default mode new_name)); [| | |done].
  - by intros n e' [_ ?]%lookup_delete_Some.
  - intros n Hn. apply lookup_delete_ne. by intros <-.
  - destruct Hentries. split; simpl; try done. by intros ?%standard_reserved%Hnot.
Qed.

Lemma registry_inv_reachable r : mode_registry_reachable r → registry_inv r.
Proof.
  unfold mode_registry_reachable. generalize registry_inv_default. generalize build_default.
  intros r0 Hinv Hs. induction Hs as [|r0 r1 r2 Hstep _ IH]; [done|]. apply IH.
  destruct Hstep; auto using registry_inv_register, registry_inv_unregister, registry_inv_promote.
Qed.

(** C25. Whatever modes were registered, removed and promoted, the registry is
    a lawful source of modes: every mode it hands out keeps what the kernel and
    replay rely on, so the theorems about them hold for a server that uses it. *)
Theorem registry_source_lawful r :
  mode_registry_reachable r → ModeSourceLaws (H:=registry_source r).
Proof.
  intros [Hentries _]%registry_inv_reachable.
  split; intros name mode; simpl; unfold lookup_mode; rewrite fmap_Some;
    intros (e & He%Hentries & ->); apply He.
Qed.

(** The standard modes are permanent: in every reachable registry each of
    the five resolves to its own built-in mode, under strict starts; no other
    name of the reserved namespace is ever bound; they head the advertised
    list in order; and every registered mode binds a non-empty version, so a
    start can always record one. *)
Theorem standard_modes_permanent r :
  mode_registry_reachable r →
  (∀ name, name ∈ STANDARD_MODE_NAMES →
     lookup_mode r name = lookup_mode build_default name ∧ is_Some (lookup_mode r name) ∧
     requires_strict_session_start r name = true) ∧
  (∀ name, starts_with "macp.mode." name = true → is_Some (lookup_mode r name) →
     name ∈ STANDARD_MODE_NAMES) ∧
  (∃ promoted, standard_mode_names r = STANDARD_MODE_NAMES ++ promoted) ∧
  (∀ name, is_Some (lookup_mode r name) → is_Some (lookup_mode_version r name)).
Proof.
  intros [Hentries Hs]%registry_inv_reachable. unfold lookup_mode. split_and!.
  - intros name Hn. destruct (Hs name Hn) as [e He]. pose proof (Hentries _ _ He) as Hok.
    destruct (eo_standard _ _ Hok Hn) as (Hd & _ & Ht). rewrite He, Hd. simpl.
    unfold requires_strict_session_start. rewrite He. simpl.
    split_and!; [done|eauto|by apply (eo_strict _ _ Hok)].
  - intros name Hr [e He]%fmap_is_Some. by apply (eo_reserved _ _ (Hentries _ _ He)).
  - unfold standard_mode_names, ordered_standard_names. eexists. f_equal.
    apply forallb_filter_id, forallb_forall. intros name Hn%list_elem_of_In.
    destruct (Hs name Hn) as [e He]. rewrite He.
    by apply (eo_standard _ _ (Hentries _ _ He)).
  - intros name [e He]%fmap_is_Some. destruct (eo_version _ _ (Hentries _ _ He)) as (d & Hd & Hv).
    unfold lookup_mode_version, descriptor. rewrite He; simpl. rewrite Hd; simpl.
    unfold str_is_empty. rewrite bool_decide_false by done. eauto.
Qed.

(** ** The effect of a change *)
Lemma register_extension_ok d r :
  validate_extension_descriptor d = Ok () → modes r !! md_mode d = None →
  (register_extension d r).2 = Ok () ∧
  lookup_mode (register_extension d r).1 (md_mode d)
  = Some (PassthroughMode (List.filter (λ t, t != "SessionStart") (md_message_types d))).
Proof.
  intros Hv Hn. unfold register_extension, st_bind, st_read, st_mod, lookup_mode.
  rewrite Hv, Hn. simpl. by rewrite lookup_insert_eq.
Qed.

Lemma promote_mode_ok mode name r e :
  modes r !! mode = Some e → mr_standards_track e = false → name ≠ mode →
  starts_with "macp.mode." name = false → blank name = false → modes r !! name = None →
  (promote_mode mode (Some name) r).2 = Ok name ∧
  lookup_mode (promote_mode mode (Some name) r).1 name = Some (mr_factory e) ∧
  modes (promote_mode mode (Some name) r).1 !! mode = None.
Proof.
  intros He Ht Hne Hs Hb Hn. unfold promote_mode, st_bind, st_read, st_mod, lookup_mode. simpl.
  rewrite He. simpl. rewrite Ht, Hs, Hb, Hn, andb_false_r. simpl. rewrite andb_false_r. simpl.
  rewrite lookup_insert_eq, lookup_insert_ne, lookup_delete_eq by done. done.
Qed.

(** Promoting the built-in extension under a new name frees its old one, and
    an extension can then be registered there: the sessions that were started
    under the built-in mode are dispatched to another one. *)
Theorem promotion_frees_builtin (name : string) (d : ModeDescriptor) :
  name ∉ STANDARD_MODE_NAMES ++ EXTENSION_MODE_NAMES →
  starts_with "macp.mode." name = false → blank name = false →
  validate_extension_descriptor d = Ok () → md_mode d = "ext.multi_round.v1" →
  ∃ r, mode_registry_reachable r ∧
    lookup_mode build_default "ext.multi_round.v1" = Some MultiRoundMode ∧
    lookup_mode r "ext.multi_round.v1"
    = Some (PassthroughMode (List.filter (λ t, t != "SessionStart") (md_message_types d))).
Proof.
  intros Hn Hs Hb Hv Hd.
  assert (∃ e, modes build_default !! "ext.multi_round.v1" = Some e ∧
    mr_standards_track e = false ∧ mr_factory e = MultiRoundMode) as (e & He & Ht & Hf)
    by (eexists; split; [apply lookup_insert_eq|done]).
  assert (modes build_default !! name = None) as Hfree.
  { destruct (modes build_default !! name) as [e'|] eqn:E; [|done].
    by apply default_lookup in E as [_ ?]. }
  assert (name ≠ "ext.multi_round.v1") as Hne
    by (intros ->; apply Hn, elem_of_app; right; left).
  destruct (promote_mode_ok _ name build_default e He Ht Hne Hs Hb Hfree) as (_ & _ & Hgone).
  set (r1 := (promote_mode _ (Some name) build_default).1) in *.
  exists (register_extension d r1).1. split_and!.
  - eapply rtc_l; [apply step_promote|]. eapply rtc_l; [apply step_register_extension|]. apply rtc_refl.
  - unfold lookup_mode. by rewrite He, <- Hf.
  - rewrite <- Hd. apply register_extension_ok; [done|]. by rewrite Hd.
Qed.
End registry.

(** ** A concrete registry *)
Module Demo.
#[local] Instance message P : Message P := {| decode := λ _, None; encode_to_vec := λ _, [] |}.
#[local] Instance state S : Serde S := {| to_vec := λ _, []; from_slice := λ _, None |}.
#[local] Instance rules T : FromValue T := λ _, Err "unused".
#[local] Instance evaluator : PolicyEvaluator := allow_all.
#[local] Instance contribution : ContributeJson := λ _, None.
#[local] Instance json T : ToJson T := λ _, [].

Definition poll : ModeDescriptor := MkModeDescriptor "ext.poll.v1" "0.1.0" "Poll" ""
  "structural-only" "peer" ["SessionStart"; "Ballot"; "Commitment"] ["Commitment"] ∅.
Definition with_poll : ModeRegistry := (register_extension poll build_default).1.

Lemma with_poll_reachable : mode_registry_reachable with_poll.
Proof. eapply rtc_l; [apply step_register_extension|apply rtc_refl]. Qed.
Lemma with_poll_lookup : lookup_mode with_poll "ext.poll.v1" = Some (PassthroughMode ["Ballot"; "Commitment"]).
Proof.
  destruct (modes build_default !! "ext.poll.v1") eqn:E.
  - apply default_lookup in E as [_ Hin%str_elem_true]. vm_compute in Hin. discriminate.
  - apply (register_extension_ok poll build_default); [reflexivity|exact E].
Qed.

Lemma registry_source_lawful_witness :
  get_mode (ModeSource:=registry_source with_poll) "ext.poll.v1"
    = Some (PassthroughMode ["Ballot"; "Commitment"]) ∧
  ModeLaws (PassthroughMode ["Ballot"; "Commitment"]).
Proof.
  split; [exact with_poll_lookup|].
  exact (source_laws (ModeSourceLaws:=registry_source_lawful with_poll with_poll_reachable)
    _ _ with_poll_lookup).
Defined.

Lemma standard_modes_permanent_witness :
  mode_registry_reachable with_poll ∧
  lookup_mode with_poll "macp.mode.quorum.v1" = lookup_mode build_default "macp.mode.quorum.v1" ∧
  lookup_mode with_poll "macp.mode.poll.v1" = None.
Proof.
  destruct (standard_modes_permanent with_poll with_poll_reachable) as (Hstd & Hres & _ & _).
  split_and!; [exact with_poll_reachable| |].
  - apply Hstd. by apply str_elem_true.
  - destruct (lookup_mode with_poll "macp.mode.poll.v1") eqn:E; [|done].
    assert ("macp.mode.poll.v1" ∈ STANDARD_MODE_NAMES) as Hin%str_elem_true
      by (apply Hres; [done|by rewrite E]). vm_compute in Hin. discriminate.
Defined.
End Demo.
