(* ===== verification/WhatIf.v ===== *)
(** * What-if replay (crates/macp-modes/src/what_if.rs)

    A recorded session replayed under its own policy and under a candidate,
    side by side, and the report of where the two part. The recorded half is
    the library replay, the candidate half is the replay of the events the
    candidate did not refuse, the denials are exactly the policy refusals, and a
    report without a divergence means the outcome stands. *)

From stdpp Require Import prelude gmap strings.
From S2P Require Import Prelude RustStr Floats Extern Error Policy Wire SessionData.
From S2P Require Import Session SessionStart CommitmentHash ModeApi Step Replay.
From S2P Require Import Decision Proposal Task Handoff Quorum MultiRound Laws.
Open Scope Z_scope.

(** ** The report *)
Inductive HistoryPoint := HSessionStart | HEvent (index : Z).

Inductive EntryOutcome :=
| Applied (state : SessionState)
| NotOpen
| Refused (code : string) (reasons : list DenyReason)
| NoSession.

#[export] Instance DenyCode_eq_dec : EqDecision DenyCode.
Proof. solve_decision. Defined.
#[export] Instance DenyReason_eq_dec : EqDecision DenyReason.
Proof. solve_decision. Defined.
#[export] Instance HistoryPoint_eq_dec : EqDecision HistoryPoint.
Proof. solve_decision. Defined.
#[export] Instance EntryOutcome_eq_dec : EqDecision EntryOutcome.
Proof. solve_decision. Defined.

Definition refused (err : MacpError) : EntryOutcome := Refused (error_code err) (deny_reasons err).

Record EntryDiff := MkEntryDiff {
  ed_at : HistoryPoint;
  ed_message_id : option string;
  ed_message_type : option string;
  ed_recorded : EntryOutcome;
  ed_candidate : EntryOutcome;
}.

Definition diverges (e : EntryDiff) : bool := ed_recorded e != ed_candidate e.

Record ResolvedBy := MkResolvedBy {
  rb_at : HistoryPoint;
  rb_message_id : string;
  rb_message_type : string;
}.
#[export] Instance ResolvedBy_eq_dec : EqDecision ResolvedBy.
Proof. solve_decision. Defined.

Record Outcome := MkOutcome {
  oc_state : option SessionState;
  oc_resolution : option bytes;
  oc_resolved_by : option ResolvedBy;
}.
#[export] Instance Outcome_eq_dec : EqDecision Outcome.
Proof. solve_decision. Defined.

(** [Outcome::of]. *)
Definition outcome_of (session : option Session) (resolved_by : option ResolvedBy) : Outcome := {|
  oc_state := ss_state <$> session;
  oc_resolution := session ≫= ss_resolution;
  oc_resolved_by := resolved_by |}.

Record Denial := MkDenial {
  dn_at : HistoryPoint;
  dn_message_id : option string;
  dn_reasons : list DenyReason;
}.

Record WhatIfReport := MkWhatIfReport {
  wr_candidate_policy_id : string;
  wr_recorded_policy_id : option string;
  wr_recorded : Outcome;
  wr_candidate : Outcome;
  wr_first_divergence : option HistoryPoint;
  wr_denials : list Denial;
  wr_entries : list EntryDiff;
  wr_candidate_session : option Session;
}.

Definition outcome_changed (r : WhatIfReport) : bool := wr_recorded r != wr_candidate r.

(** ** One entry *)
Definition event_envelope (event : ReplayEvent) : option Envelope :=
  match event with
  | REMessage envelope _ | RESynthetic envelope => Some envelope
  | _ => None
  end.

(** [step]: apply one event and classify what happened. *)
Definition step (event : ReplayEvent) (mode : Mode) (opts : ReplayOptions)
    : stm Session MacpError EntryOutcome := λ session,
  let is_envelope := bool_decide (is_Some (event_envelope event)) in
  let not_open := is_envelope && (ss_state session != Open) in
  match apply_event event mode opts session with
  | (session, Err e) => (session, Err e)
  | (session, Ok ()) => (session, Ok (if not_open then NotOpen else Applied (ss_state session)))
  end.

Definition note_resolution (session : Session) (outcome : EntryOutcome) (at_ : HistoryPoint)
    (envelope : option Envelope) (resolved_by : option ResolvedBy) : option ResolvedBy :=
  if bool_decide (is_Some resolved_by) || (ss_state session != Resolved) then resolved_by
  else
    match outcome, envelope with
    | Applied _, Some env => Some (MkResolvedBy at_ (env_message_id env) (env_message_type env))
    | _, _ => resolved_by
    end.

Definition push_denial (denials : list Denial) (at_ : HistoryPoint) (envelope : Envelope)
    (err : MacpError) : list Denial :=
  match err with
  | PolicyDenied reasons => denials ++ [MkDenial at_ (Some (env_message_id envelope)) reasons]
  | _ => denials
  end.

(** ** The two replays *)

(** The locals of the loop. *)
Record WhatIf := MkWhatIf {
  wi_recorded : Session;
  wi_cand : option Session;
  wi_recorded_by : option ResolvedBy;
  wi_cand_by : option ResolvedBy;
  wi_denials : list Denial;
  wi_entries : list EntryDiff;
}.

(** The candidate's half of one iteration. *)
Definition candidate_step (at_ : HistoryPoint) (event : ReplayEvent) (mode : Mode)
    (opts : ReplayOptions) (cand : option Session) (cand_by : option ResolvedBy)
    (denials : list Denial) : option Session * option ResolvedBy * list Denial * EntryOutcome :=
  match cand with
  | None => (None, cand_by, denials, NoSession)
  | Some session =>
      match step event mode opts session with
      | (session, Ok outcome) =>
          (Some session, note_resolution session outcome at_ (event_envelope event) cand_by,
           denials, outcome)
      | (session, Err err) =>
          (Some session, cand_by,
           match event_envelope event with
           | Some env => push_denial denials at_ env err
           | None => denials
           end, refused err)
      end
  end.

(** One iteration of the loop. *)
Definition what_if_event (at_ : HistoryPoint) (event : ReplayEvent) (mode : Mode)
    (opts : ReplayOptions) (w : WhatIf) : result MacpError WhatIf :=
  let envelope := event_envelope event in
  match step event mode opts (wi_recorded w) with
  | (_, Err err) => Err err
  | (recorded, Ok rec_outcome) =>
      let recorded_by := note_resolution recorded rec_outcome at_ envelope (wi_recorded_by w) in
      let '(cand, cand_by, denials, cand_outcome) :=
        candidate_step at_ event mode opts (wi_cand w) (wi_cand_by w) (wi_denials w) in
      Ok (MkWhatIf recorded cand recorded_by cand_by denials
            (wi_entries w ++
             [MkEntryDiff at_ (env_message_id <$> envelope) (env_message_type <$> envelope)
                rec_outcome cand_outcome]))
  end.

Fixpoint what_if_events (index : Z) (events : list ReplayEvent) (mode : Mode)
    (opts : ReplayOptions) (w : WhatIf) : result MacpError WhatIf :=
  match events with
  | [] => Ok w
  | event :: events =>
      w ← what_if_event (HEvent index) event mode opts w;
      what_if_events (index + 1) events mode opts w
  end.

Section what_if.
Context `{Message SessionStartPayload}.

(** The candidate's session before the first event. *)
Definition candidate_start (start : RecordedStart) (mode : Mode) (candidate : PolicyDefinition)
    (recorded : Session) : result MacpError Session :=
  session ← replay_start (with_policy (Some candidate) start) mode;
  Ok (set_policy_version (ss_policy_version recorded) session).

Definition what_if_start (start : RecordedStart) (mode : Mode) (candidate : PolicyDefinition)
    (recorded : Session) : WhatIf :=
  let env := rs_envelope start in
  let diff := MkEntryDiff HSessionStart (Some (env_message_id env)) (Some (env_message_type env))
                (Applied (ss_state recorded)) in
  match candidate_start start mode candidate recorded with
  | Ok session => MkWhatIf recorded (Some session) None None [] [diff (Applied (ss_state session))]
  | Err err => MkWhatIf recorded None None None (push_denial [] HSessionStart env err)
                 [diff (refused err)]
  end.

Definition report_of (start : RecordedStart) (candidate : PolicyDefinition) (w : WhatIf)
    : WhatIfReport := {|
  wr_candidate_policy_id := policy_id candidate;
  wr_recorded_policy_id := policy_id <$> rs_policy start;
  wr_recorded := outcome_of (Some (wi_recorded w)) (wi_recorded_by w);
  wr_candidate := outcome_of (wi_cand w) (wi_cand_by w);
  wr_first_divergence := ed_at <$> List.find diverges (wi_entries w);
  wr_denials := wi_denials w;
  wr_entries := wi_entries w;
  wr_candidate_session := wi_cand w |}.

Definition replay_under_policy (start : RecordedStart) (events : list ReplayEvent) (mode : Mode)
    (opts : ReplayOptions) (candidate : PolicyDefinition) : result MacpError WhatIfReport :=
  recorded ← replay_start start mode;
  w ← what_if_events 0 events mode opts (what_if_start start mode candidate recorded);
  Ok (report_of start candidate w).
End what_if.

(** ** Facts about one entry *)
Lemma apply_event_refused event mode opts s s' e :
  apply_event event mode opts s = (s', Err e) → s' = s ∧ is_Some (event_envelope event).
Proof.
  destruct event; simpl; try done; unfold apply_envelope; intros E;
    destruct (_ != _) in E; try done; destruct (_ ≫= _) in E; naive_solver.
Qed.

Lemma step_apply event mode opts s :
  step event mode opts s = match apply_event event mode opts s with
    | (s', Err e) => (s, Err e)
    | (s', Ok ()) => (s', Ok (if bool_decide (is_Some (event_envelope event))
                                 && (ss_state s != Open) then NotOpen else Applied (ss_state s')))
    end.
Proof.
  unfold step. destruct (apply_event event mode opts s) as [s' [[]|e]] eqn:E; [done|].
  by apply apply_event_refused in E as [-> _].
Qed.

(** The denial a refused entry stands for. *)
Definition denial_of (d : EntryDiff) : option Denial :=
  match ed_candidate d with
  | Refused code reasons =>
      if code == "POLICY_DENIED" then Some (MkDenial (ed_at d) (ed_message_id d) reasons) else None
  | _ => None
  end.

Lemma push_denial_of denials at_ env mt o err :
  push_denial denials at_ env err
  = denials ++ omap denial_of [MkEntryDiff at_ (Some (env_message_id env)) mt o (refused err)].
Proof. by destruct err; simpl; rewrite ?app_nil_r. Qed.

Definition was_refused (d : EntryDiff) : bool :=
  match ed_candidate d with Refused _ _ => true | _ => false end.
(** The events the candidate did not refuse. *)
Fixpoint kept (events : list ReplayEvent) (diffs : list EntryDiff) : list ReplayEvent :=
  match events, diffs with
  | event :: events, d :: diffs =>
      if was_refused d then kept events diffs else event :: kept events diffs
  | _, _ => []
  end.

(** What an accepted recorded entry looks like. *)
Definition recorded_applied (d : EntryDiff) : Prop :=
  match ed_recorded d with Applied _ | NotOpen => True | _ => False end.

(** What the candidate's half does with one event. *)
Record candidate_ran (event : ReplayEvent) (mode : Mode) (opts : ReplayOptions)
    (cand cand' : option Session) (d : EntryDiff) : Prop := {
  cr_none : cand = None → cand' = None ∧ ed_candidate d = NoSession;
  cr_some c : cand = Some c → ∃ c', cand' = Some c' ∧
    if was_refused d then c' = c else apply_event event mode opts c = (c', Ok ());
}.

Lemma what_if_event_ran at_ event mode opts w w' :
  what_if_event at_ event mode opts w = Ok w' →
  ∃ d, wi_entries w' = wi_entries w ++ [d] ∧ ed_at d = at_ ∧ recorded_applied d ∧
    apply_event event mode opts (wi_recorded w) = (wi_recorded w', Ok ()) ∧
    wi_denials w' = wi_denials w ++ omap denial_of [d] ∧
    candidate_ran event mode opts (wi_cand w) (wi_cand w') d.
Proof.
  unfold what_if_event, candidate_step. rewrite step_apply.
  destruct (apply_event event mode opts (wi_recorded w)) as [rec [[]|e]] eqn:Er; [|done].
  destruct (wi_cand w) as [c|] eqn:Ec; [rewrite step_apply;
    destruct (apply_event event mode opts c) as [c' [[]|e]] eqn:Ea|]; intros [= <-]; simpl;
    (eexists; split; [reflexivity|]; split; [reflexivity|];
     split; [unfold recorded_applied; simpl; by destruct (_ && _)|]; split; [done|]; split).
  - unfold denial_of. simpl. by destruct (_ && _); rewrite app_nil_r.
  - split; [done|]. intros ? [= <-]. exists c'. split; [done|]. unfold was_refused. simpl.
    by destruct (_ && _).
  - apply apply_event_refused in Ea as [_ [env ->]]. apply push_denial_of.
  - split; [done|]. intros ? [= <-]. by exists c.
  - by rewrite app_nil_r.
  - by split.
Qed.

(** The loop, entry by entry. *)
Lemma what_if_events_ran events mode opts : ∀ index w w',
  what_if_events index events mode opts w = Ok w' →
  ∃ diffs, wi_entries w' = wi_entries w ++ diffs ∧ length diffs = length events ∧
    Forall recorded_applied diffs ∧ wi_denials w' = wi_denials w ++ omap denial_of diffs ∧
    (wi_cand w = None → wi_cand w' = None ∧ Forall (λ d, ed_candidate d = NoSession) diffs) ∧
    (∀ c, wi_cand w = Some c → ∃ c', wi_cand w' = Some c' ∧
       apply_events (kept events diffs) mode opts c = Ok c').
Proof.
  induction events as [|event events IH]; intros index w w' E; simpl in E.
  { injection E as <-. exists []. rewrite !app_nil_r. split_and!; try done.
    intros c Hc. by exists c. }
  apply bind_ok in E as (w1 & E1 & E).
  apply what_if_event_ran in E1 as (d & He1 & _ & Hd & _ & Hn1 & [Hc1 Hs1]).
  apply IH in E as (diffs & He & Hlen & Hall & Hn & Hc & Hs).
  exists (d :: diffs). rewrite He, He1, Hn, Hn1, <- !app_assoc. split_and!; [done|simpl; lia| | | |].
  - by constructor.
  - f_equal. simpl. by destruct (denial_of d).
  - intros [Hw1 Hd1]%Hc1. destruct (Hc Hw1). by split; [|constructor].
  - intros c (c1 & Hw1 & Hstep)%Hs1. destruct (Hs c1 Hw1) as (c' & Hw' & Happ). exists c'.
    split; [done|]. simpl. destruct (was_refused d); [by subst|]. simpl. by rewrite Hstep.
Qed.

Lemma what_if_events_recorded events mode opts : ∀ index w,
  match apply_events events mode opts (wi_recorded w) with
  | Ok s => ∃ w', what_if_events index events mode opts w = Ok w' ∧ wi_recorded w' = s
  | Err e => what_if_events index events mode opts w = Err e
  end.
Proof.
  induction events as [|event events IH]; intros index w; simpl; [by exists w|].
  unfold what_if_event. rewrite step_apply.
  destruct (apply_event event mode opts (wi_recorded w)) as [s [[]|e]]; [|done].
  destruct (candidate_step _ _ _ _ _ _ _) as [[[cand cand_by] denials] out]. simpl.
  apply (IH (index + 1) (MkWhatIf s _ _ _ _ _)).
Qed.

(** Every event has its entry, in order. *)
Lemma what_if_events_labels events mode opts : ∀ index w w' i event,
  what_if_events index events mode opts w = Ok w' → events !! i = Some event →
  ∃ d, wi_entries w' !! (length (wi_entries w) + i)%nat = Some d ∧
    ed_at d = HEvent (index + Z.of_nat i) ∧
    ed_message_id d = env_message_id <$> event_envelope event.
Proof.
  induction events as [|event0 events IH]; intros index w w' i event E Hi; simpl in *; [done|].
  apply bind_ok in E as (w1 & E1 & E).
  assert (∃ d, wi_entries w1 = wi_entries w ++ [d] ∧ ed_at d = HEvent index ∧
    ed_message_id d = env_message_id <$> event_envelope event0) as (d & Hd & Hat & Hmid).
  { unfold what_if_event in E1. destruct (step _ _ _ _) as [s [o|]]; [|done].
    destruct (candidate_step _ _ _ _ _ _ _) as [[[? ?] ?] ?]. injection E1 as <-. by eexists. }
  destruct i as [|i]; simpl in Hi.
  - injection Hi as <-. exists d. rewrite Z.add_0_r, Nat.add_0_r. split; [|done].
    apply what_if_events_ran in E as (diffs & -> & _). rewrite Hd, <- app_assoc. simpl.
    by rewrite list_lookup_middle.
  - destruct (IH _ _ _ i event E Hi) as (d' & Hl & Hat' & Hm'). exists d'.
    rewrite Hd, length_app in Hl. simpl in Hl. split_and!; [|rewrite Hat'; f_equal; lia|done].
    by replace (length (wi_entries w) + S i)%nat with (length (wi_entries w) + 1 + i)%nat by lia.
Qed.

Section theorems.
Context `{Message SessionStartPayload}.

Lemma what_if_start_entries start mode candidate s0 :
  wi_recorded (what_if_start start mode candidate s0) = s0 ∧
  length (wi_entries (what_if_start start mode candidate s0)) = 1%nat.
Proof. unfold what_if_start. by destruct (candidate_start _ _ _ _). Qed.

(** The report exists when the history replays. *)
Lemma replay_under_policy_total start events mode opts candidate :
  match replay start events mode opts with
  | Err e => replay_under_policy start events mode opts candidate = Err e
  | Ok s => ∃ s0 w, what_if_events 0 events mode opts (what_if_start start mode candidate s0) = Ok w ∧
      wi_recorded w = s ∧
      replay_under_policy start events mode opts candidate = Ok (report_of start candidate w)
  end.
Proof.
  unfold replay, replay_under_policy. destruct (replay_start start mode) as [s0|e]; [|done].
  cbn [mbind result_bind].
  pose proof (what_if_events_recorded events mode opts 0 (what_if_start start mode candidate s0))
    as Hrec. rewrite (proj1 (what_if_start_entries _ _ _ _)) in Hrec.
  destruct (apply_events events mode opts s0) as [s|e]; [|by rewrite Hrec].
  destruct Hrec as (w & E & Hw). exists s0, w. by rewrite E.
Qed.

(** The recorded half of a what-if replay is the library replay: the report
    exists exactly when the history replays, the error is the replay's own, and
    the recorded outcome is that of the session replay rebuilds. There is one
    entry for the SessionStart and one for every event. *)
Theorem what_if_recorded_replay start events mode opts candidate :
  match replay start events mode opts with
  | Err e => replay_under_policy start events mode opts candidate = Err e
  | Ok s => ∃ r by_, replay_under_policy start events mode opts candidate = Ok r ∧
      wr_recorded r = outcome_of (Some s) by_ ∧ length (wr_entries r) = S (length events)
  end.
Proof.
  pose proof (replay_under_policy_total start events mode opts candidate) as Ht.
  destruct (replay start events mode opts) as [s|e]; [|done].
  destruct Ht as (s0 & w & Ew & <- & ->). eexists _, _. do 2 (split; [reflexivity|]).
  apply what_if_events_ran in Ew as (diffs & He & Hlen & _). simpl.
  rewrite He, length_app, (proj2 (what_if_start_entries _ _ _ _)). lia.
Qed.

(** What the report says of the run that made it. *)
Lemma replay_under_policy_run start events mode opts candidate r :
  replay_under_policy start events mode opts candidate = Ok r →
  ∃ s0 w, replay_start start mode = Ok s0 ∧
    what_if_events 0 events mode opts (what_if_start start mode candidate s0) = Ok w ∧
    r = report_of start candidate w.
Proof.
  unfold replay_under_policy. intros E. apply bind_ok in E as (s0 & Es & E).
  apply bind_ok in E as (w & Ew & [= <-]). eauto.
Qed.

(** C26. The candidate half of a what-if replay. If the candidate refuses the
    SessionStart there is no candidate session and nothing later is applied;
    otherwise its session is the replay, from the start under the candidate
    policy and the recorded policy version, of exactly the events the report
    does not list as refused, so a refusal left no trace. In both cases the
    denials are the entries refused with POLICY_DENIED, in history order, and
    the recorded half refused none of them. *)
Theorem what_if_candidate_replay start events mode opts candidate r s0 :
  replay_under_policy start events mode opts candidate = Ok r →
  replay_start start mode = Ok s0 →
  ∃ d diffs, wr_entries r = d :: diffs ∧ length diffs = length events ∧
    wr_denials r = omap denial_of (d :: diffs) ∧ Forall recorded_applied (d :: diffs) ∧
    match replay_start (with_policy (Some candidate) start) mode with
    | Err e => ed_candidate d = refused e ∧ wr_candidate_session r = None ∧
        Forall (λ d, ed_candidate d = NoSession) diffs
    | Ok c0 => ∃ c, wr_candidate_session r = Some c ∧
        apply_events (kept events diffs) mode opts
          (set_policy_version (ss_policy_version s0) c0) = Ok c
    end.
Proof.
  intros (s0' & w & Es & Ew & ->)%replay_under_policy_run Es'.
  rewrite Es in Es'. injection Es' as ->.
  unfold what_if_start, candidate_start in Ew.
  destruct (replay_start (with_policy (Some candidate) start) mode) as [c0|e]; simpl in Ew;
    apply what_if_events_ran in Ew as (diffs & He & Hl & Ha & Hn & Hcn & Hcs);
    simpl in *; rewrite He, Hn; eexists _, diffs; (split; [done|]); (split; [done|]);
    (split; [|split; [by constructor|]]).
  - done.
  - by apply Hcs.
  - rewrite push_denial_of with (mt := Some (env_message_type (rs_envelope start)))
      (o := Applied (ss_state s0)). by rewrite app_nil_l, <- omap_app.
  - by split; [|apply Hcn].
Qed.

(** ** Agreement *)

(** Both halves hold the same session. *)
Definition in_step (w : WhatIf) : Prop :=
  wi_cand w = Some (wi_recorded w) ∧ wi_cand_by w = wi_recorded_by w ∧ wi_denials w = [] ∧
  Forall (λ d, diverges d = false) (wi_entries w).

Lemma in_step_events events mode opts : ∀ index w w',
  in_step w → what_if_events index events mode opts w = Ok w' → in_step w'.
Proof.
  induction events as [|event events IH]; intros index w w' Hw E; simpl in E; [by simplify_eq|].
  apply bind_ok in E as (w1 & E1 & E). eapply IH; [|exact E].
  destruct Hw as (Hc & Hb & Hn & Hd). unfold what_if_event, candidate_step in E1.
  rewrite Hc, Hb, Hn in E1. destruct (step event mode opts (wi_recorded w)) as [s [o|e]]; [|done].
  injection E1 as <-. split_and!; [done..|]. apply Forall_app. split; [done|].
  constructor; [|done]. unfold diverges. simpl. by rewrite bool_decide_true.
Qed.

Lemma find_none {A} (f : A → bool) l : List.find f l = None ↔ Forall (λ x, f x = false) l.
Proof.
  induction l as [|x l IH]; simpl; [done|]. rewrite Forall_cons, <- IH.
  destruct (f x); naive_solver.
Qed.

(** A session's own policy as the candidate finds no difference: nothing is
    denied, no entry diverges and the outcome is the recorded one. *)
Theorem what_if_same_policy start events mode opts candidate r :
  rs_policy start = Some candidate →
  replay_under_policy start events mode opts candidate = Ok r →
  wr_first_divergence r = None ∧ wr_denials r = [] ∧ outcome_changed r = false.
Proof.
  intros Hp (s0 & w & Es & Ew & ->)%replay_under_policy_run.
  assert (in_step w) as (Hc & Hb & Hn & Hd).
  { eapply in_step_events, Ew. unfold what_if_start, candidate_start.
    replace (with_policy (Some candidate) start) with start
      by (destruct start; simpl in Hp; by subst).
    rewrite Es. simpl. replace (set_policy_version (ss_policy_version s0) s0) with s0
      by (by destruct s0).
    split_and!; [done..|]. constructor; [|done]. unfold diverges. simpl.
    by rewrite bool_decide_true. }
  unfold outcome_changed. simpl. rewrite (proj2 (find_none diverges _) Hd), Hc, Hb.
  split_and!; [done..|]. by rewrite bool_decide_true.
Qed.

(** ** Reports without a divergence *)

(** What a mode resolves with is settled by the envelope that resolves. *)
Definition resolution_with (r : ModeResponse) : option bytes :=
  match r with
  | Resolve resolution | PersistAndResolve _ resolution => Some resolution
  | _ => None
  end.
Class EnvelopeResolves (mode : Mode) : Prop :=
  resolves_alike s1 s2 env ctx r1 r2 x1 x2 :
    on_message_at mode s1 env ctx = Ok r1 → on_message_at mode s2 env ctx = Ok r2 →
    resolution_with r1 = Some x1 → resolution_with r2 = Some x2 → x1 = x2.

(** The two halves look alike from outside. *)
Record alike (s c : Session) : Prop := {
  al_state : ss_state s = ss_state c;
  al_resolution : ss_resolution s = ss_resolution c;
}.

Lemma apply_response_alike mode `{!EnvelopeResolves mode} env ctx s c r1 r2 :
  on_message_at mode s env ctx = Ok r1 → on_message_at mode c env ctx = Ok r2 →
  ss_state s = Open → alike s c →
  ss_state (apply_mode_response r1 s) = ss_state (apply_mode_response r2 c) →
  ss_resolution (apply_mode_response r1 s) = ss_resolution (apply_mode_response r2 c).
Proof.
  intros E1 E2 Ho [Hs Hr] Hst. pose proof (resolves_alike s c env ctx r1 r2) as Hl.
  destruct r1, r2; simpl in *; try congruence; f_equal; by eapply Hl.
Qed.

Lemma record_activity_alike sender at_ s :
  ss_state (record_participant_activity sender at_ s) = ss_state s ∧
  ss_resolution (record_participant_activity sender at_ s) = ss_resolution s.
Proof. unfold record_participant_activity. by repeat case_match. Qed.
Lemma insert_seen_alike id s :
  ss_state (insert_seen_nonempty id s) = ss_state s ∧
  ss_resolution (insert_seen_nonempty id s) = ss_resolution s.
Proof. unfold insert_seen_nonempty. by destruct (str_is_empty id). Qed.

Lemma apply_envelope_alike mode `{!EnvelopeResolves mode} env at_ credit s c s' c' :
  alike s c → apply_envelope env at_ credit mode s = (s', Ok ()) →
  apply_envelope env at_ credit mode c = (c', Ok ()) →
  ss_state s ≠ Open ∨ ss_state s' = ss_state c' → alike s' c'.
Proof.
  intros Ha E1 E2 Hor. unfold apply_envelope in *. rewrite (al_state _ _ Ha) in E1.
  destruct (ss_state c != Open) eqn:Hopen.
  { injection E1 as <-. injection E2 as <-. destruct Ha.
    pose proof (insert_seen_alike (env_message_id env)) as Hi.
    split; rewrite ?(proj1 (Hi _)), ?(proj2 (Hi _)); done. }
  bool_simp. destruct (authorize_sender mode s env) as [[]|] in E1; [|done].
  destruct (authorize_sender mode c env) as [[]|] in E2; [|done]. simpl in *.
  destruct (on_message_at mode s env _) as [r1|] eqn:R1 in E1; [|done].
  destruct (on_message_at mode c env _) as [r2|] eqn:R2 in E2; [|done].
  assert (∀ r t, ss_state (insert_seen_nonempty (env_message_id env)
      (if credit then record_participant_activity (env_sender env) at_
         (apply_mode_response r t) else apply_mode_response r t))
      = ss_state (apply_mode_response r t) ∧
    ss_resolution (insert_seen_nonempty (env_message_id env)
      (if credit then record_participant_activity (env_sender env) at_
         (apply_mode_response r t) else apply_mode_response r t))
      = ss_resolution (apply_mode_response r t)) as Hsame.
  { intros r t. rewrite !(proj1 (insert_seen_alike _ _)), !(proj2 (insert_seen_alike _ _)).
    destruct credit; [apply record_activity_alike|done]. }
  injection E1 as <-. injection E2 as <-.
  destruct Hor as [Hno|Hst]; [destruct Hno; rewrite (al_state _ _ Ha); done|].
  split; [done|]. rewrite !(proj2 (Hsame _ _)). rewrite !(proj1 (Hsame _ _)) in Hst.
  eapply apply_response_alike; [done|exact R1|exact R2| |done|done].
  rewrite (al_state _ _ Ha). done.
Qed.

Lemma lifecycle_resolution event mode opts s :
  event_envelope event = None → ss_resolution (apply_event event mode opts s).1 = ss_resolution s.
Proof.
  destruct event; try done; intros _; simpl; unfold suspend, resume, cancel; by repeat case_match.
Qed.

Lemma apply_event_alike mode `{!EnvelopeResolves mode} event opts s c s' c' :
  alike s c → apply_event event mode opts s = (s', Ok ()) →
  apply_event event mode opts c = (c', Ok ()) →
  (is_Some (event_envelope event) ∧ ss_state s ≠ Open) ∨ ss_state s' = ss_state c' → alike s' c'.
Proof.
  intros Ha E1 E2 Hor. destruct (event_envelope event) as [env|] eqn:Ee.
  - destruct event; simplify_eq/=; eapply apply_envelope_alike; eauto; naive_solver.
  - destruct Hor as [[[] _]|Hst]; [done|]. split; [done|].
    pose proof (lifecycle_resolution event mode opts s Ee) as H1.
    pose proof (lifecycle_resolution event mode opts c Ee) as H2.
    rewrite E1 in H1. rewrite E2 in H2. simpl in *. rewrite H1, H2. by destruct Ha.
Qed.

Definition parallel (w : WhatIf) : Prop :=
  wi_cand_by w = wi_recorded_by w ∧ ∃ c, wi_cand w = Some c ∧ alike (wi_recorded w) c.

Lemma parallel_event mode `{!EnvelopeResolves mode} opts at_ event w w' :
  parallel w → what_if_event at_ event mode opts w = Ok w' →
  Forall (λ d, diverges d = false) (wi_entries w') → parallel w'.
Proof.
  intros (Hby & c & Hc & Ha) E Hd. unfold what_if_event, candidate_step in E.
  rewrite Hc, Hby, !step_apply in E.
  destruct (apply_event event mode opts (wi_recorded w)) as [s' [[]|e]] eqn:E1; [|done].
  destruct (apply_event event mode opts c) as [c' [[]|e]] eqn:E2.
  - rewrite <- (al_state _ _ Ha) in E.
    assert (alike s' c') as Ha'.
    { eapply apply_event_alike; [done|exact Ha|exact E1|exact E2|].
      injection E as <-. simpl in Hd. apply Forall_app in Hd as [_ [Hd _]%Forall_cons].
      unfold diverges in Hd. simpl in Hd.
      destruct (bool_decide _ && _) eqn:Hb in Hd; [left; by bool_simp|right; bool_simp; congruence]. }
    injection E as <-. split; [|by exists c'].
    simpl. unfold note_resolution. rewrite (al_state _ _ Ha').
    by destruct (bool_decide (is_Some (event_envelope event)) && _).
  - injection E as <-. simpl in Hd. apply Forall_app in Hd as [_ [Hd _]%Forall_cons].
    unfold diverges, refused in Hd. simpl in Hd. by destruct (_ && _) in Hd.
Qed.

Lemma parallel_events mode `{!EnvelopeResolves mode} events opts : ∀ index w w',
  parallel w → what_if_events index events mode opts w = Ok w' →
  Forall (λ d, diverges d = false) (wi_entries w') → parallel w'.
Proof.
  induction events as [|event events IH]; intros index w w' Hw E Hd; simpl in E; [by simplify_eq|].
  apply bind_ok in E as (w1 & E1 & E). eapply IH; [|exact E|done].
  eapply parallel_event; [done|exact Hw|exact E1|].
  apply what_if_events_ran in E as (diffs & He & _). rewrite He in Hd. by apply Forall_app in Hd as [].
Qed.

Lemma replay_start_resolution mode `{!ModeLaws mode} start s :
  replay_start start mode = Ok s → ss_resolution s = None.
Proof.
  unfold replay_start. intros E. apply bind_ok in E as (p & _ & E).
  apply bind_ok in E as (? & _ & E). apply bind_ok in E as (ttl & _ & E).
  apply bind_ok in E as (r & Hr%start_response & [= <-]). by destruct r.
Qed.

Lemma agreeing_no_denials diffs :
  Forall recorded_applied diffs → Forall (λ d, diverges d = false) diffs →
  omap denial_of diffs = [].
Proof.
  induction 1 as [|d diffs Hd _ IH]; [done|]. intros [Hv Hvs]%Forall_cons.
  assert (denial_of d = None) as Hn.
  { unfold denial_of, recorded_applied, diverges in *. bool_simp. rewrite <- Hv.
    by destruct (ed_recorded d). }
  simpl. rewrite Hn. by apply IH.
Qed.

(** A what-if report that lists no divergence means the outcome stands: the
    final state, the resolution, the envelope that resolved and the absence of
    denials are those of the recorded session. The mode is one whose start does
    not resolve and whose resolution is settled by the resolving envelope. *)
Theorem what_if_no_divergence mode `{!ModeLaws mode} `{!EnvelopeResolves mode}
    start events opts candidate r :
  replay_under_policy start events mode opts candidate = Ok r →
  wr_first_divergence r = None → outcome_changed r = false ∧ wr_denials r = [].
Proof.
  intros (s0 & w & Es & Ew & ->)%replay_under_policy_run Hf. simpl in Hf.
  apply fmap_None, find_none in Hf.
  assert (parallel (what_if_start start mode candidate s0)) as Hstart.
  { pose proof Ew as (diffs & He & _)%what_if_events_ran. rewrite He in Hf.
    apply Forall_app in Hf as [Hf _]. unfold what_if_start, candidate_start in *.
    destruct (replay_start (with_policy _ start) mode) as [c0|e] eqn:Ec; simpl in *;
      apply Forall_cons in Hf as [Hf _]; unfold diverges in Hf; simpl in Hf; bool_simp; [|done].
    split; [done|]. eexists. split; [done|].
    pose proof (replay_start_resolution mode _ _ Es). pose proof (replay_start_resolution mode _ _ Ec).
    split; simpl; congruence. }
  pose proof (parallel_events mode _ _ _ _ _ Hstart Ew Hf) as (Hby & c & Hc & [Hst Hres]).
  unfold outcome_changed. simpl. rewrite Hc, Hby. unfold outcome_of. simpl.
  rewrite Hst, Hres, bool_decide_true by done. split; [done|].
  apply what_if_events_ran in Ew as (diffs & He & _ & Hall & -> & _). rewrite He in Hf.
  apply Forall_app in Hf as [_ Hf]. rewrite (agreeing_no_denials diffs) by done.
  destruct Hstart as (_ & c0 & Hc0 & _). revert Hc0. unfold what_if_start.
  by destruct (candidate_start _ _ _ _).
Qed.
End theorems.

(** ** The modes of the repository *)
Section instances.
Context `{FromValue CommitmentRules} `{PolicyEvaluator} `{Message CommitmentPayload}.

(** A mode that resolves with the payload of the Commitment. *)
Lemma payload_resolves mode :
  (∀ s env ctx r x, on_message_at mode s env ctx = Ok r → resolution_with r = Some x →
     x = env_payload env) → EnvelopeResolves mode.
Proof. intros Hm s1 s2 env ctx r1 r2 x1 x2 E1 E2 ->%(Hm _ _ _ _ _ E1) ->%(Hm _ _ _ _ _ E2). done. Qed.

Ltac solve_resolves :=
  apply payload_resolves; intros s env ctx r x E Hx; simpl in E;
  apply bind_ok in E as (st & _ & E); apply bind_ok in E as (out & Hd & [= <-]);
  unfold Decision.dispatch, Proposal.dispatch, Task.dispatch, Handoff.dispatch,
    Quorum.dispatch in Hd; res_inv; by simplify_eq/=.

#[export] Instance decision_resolves `{Serde DecisionState}
  `{Message ProposalPayload} `{Message EvaluationPayload}
  `{Message ObjectionPayload} `{Message VotePayload} : EnvelopeResolves DecisionMode.
Proof. solve_resolves. Qed.

#[export] Instance proposal_resolves `{Serde ProposalState} `{FromValue ProposalPolicyRules}
  `{Message NegProposalPayload} `{Message CounterProposalPayload} `{Message AcceptPayload}
  `{Message NegRejectPayload} `{Message WithdrawPayload} : EnvelopeResolves ProposalMode.
Proof. solve_resolves. Qed.

#[export] Instance task_resolves `{Serde TaskState} `{FromValue TaskPolicyRules}
  `{Message TaskRequestPayload} `{Message TaskAcceptPayload} `{Message TaskRejectPayload}
  `{Message TaskUpdatePayload} `{Message TaskCompletePayload} `{Message TaskFailPayload}
  : EnvelopeResolves TaskMode.
Proof. solve_resolves. Qed.

#[export] Instance handoff_resolves `{Serde HandoffState} `{FromValue HandoffPolicyRules}
  `{Message HandoffOfferPayload} `{Message HandoffContextPayload}
  `{Message HandoffAcceptPayload} `{Message HandoffDeclinePayload} : EnvelopeResolves HandoffMode.
Proof. solve_resolves. Qed.

#[export] Instance quorum_resolves `{Serde QuorumState} `{FromValue QuorumPolicyRules}
  `{Message ApprovalRequestPayload} `{Message ApprovePayload}
  `{Message BallotRejectPayload} `{Message AbstainPayload} : EnvelopeResolves QuorumMode.
Proof. solve_resolves. Qed.

#[export] Instance passthrough_resolves `{ToJson PassthroughResolution} allowed
  : EnvelopeResolves (PassthroughMode allowed).
Proof.
  intros s1 s2 env ctx r1 r2 x1 x2 E1 E2 Hx1 Hx2. simpl in E1, E2.
  unfold default_on_message_at, passthrough_on_message in *.
  destruct (_ && _) in E1, E2; [done|]. destruct (_ == _) in E1, E2; [|by simplify_eq].
  apply bind_ok in E1 as (c1 & Hc1 & [= <-]), E2 as (c2 & Hc2 & [= <-]).
  unfold validate_commitment_payload_for_session in Hc1, Hc2.
  apply bind_ok in Hc1 as (d1 & Hd1%ok_or_ok & Hc1), Hc2 as (d2 & Hd2%ok_or_ok & Hc2).
  res_inv. by simplify_eq/=.
Qed.
End instances.

Module Demo.
#[local] Existing Instance Step.Demo.m_start.
#[local] Existing Instance Step.Demo.m_commitment.
#[local] Existing Instance Step.Demo.to_json_resolution.

Definition policy (id : string) : PolicyDefinition := MkPolicyDefinition id "*" "" VNull 3.
Definition denial : DenyReason := deny_new VETO [Lit "no notes"].

(** A mode whose notes the policy [no-notes] vetoes. *)
Definition vetoing : Mode :=
  let notes ctx session env :=
    match ss_policy_definition session with
    | Some p => if policy_id p == "no-notes" then Err (PolicyDenied [denial])
                else on_message_at Step.Demo.mode session env ctx
    | None => on_message_at Step.Demo.mode session env ctx
    end in
  {| on_session_start := on_session_start Step.Demo.mode;
     on_message := notes {| accepted_at_ms := 0 |};
     on_message_at session env ctx := notes ctx session env;
     validate_client_envelope := default_validate_client_envelope;
     due_synthetic_envelope := default_due_synthetic_envelope;
     authorize_sender := authorize_sender Step.Demo.mode |}.

Definition start : RecordedStart :=
  with_policy (Some (policy "open")) (recorded_start_new Step.Demo.start 2000).
Definition events : list ReplayEvent :=
  [REMessage Step.Demo.note 3000; RESuspended 4000; RECancelled].
Definition started : Session :=
  unwrap_or (session_builder "" "" "") (replay_start start vetoing).
Definition report (mode : Mode) (candidate : string) : WhatIfReport :=
  unwrap_or (MkWhatIfReport "" None (outcome_of None None) (outcome_of None None) None [] [] None)
    (replay_under_policy start events mode default_replay_options (policy candidate)).

(** The veto is the one denial, and the first divergence. *)
Lemma what_if_candidate_replay_witness :
  wr_first_divergence (report vetoing "no-notes") = Some (HEvent 0) ∧
  ∃ d diffs, wr_entries (report vetoing "no-notes") = d :: diffs ∧ length diffs = 3%nat ∧
    wr_denials (report vetoing "no-notes") = omap denial_of (d :: diffs) ∧
    omap denial_of (d :: diffs) = [MkDenial (HEvent 0) (Some "m1") [denial]].
Proof.
  split; [by vm_compute|].
  destruct (what_if_candidate_replay start events vetoing default_replay_options
    (policy "no-notes") (report vetoing "no-notes") started) as (d & diffs & He & Hl & Hn & _);
    [by vm_compute|by vm_compute|].
  exists d, diffs. split; [exact He|]. split; [exact Hl|]. split; [exact Hn|].
  rewrite <- Hn. by vm_compute.
Defined.

Lemma what_if_same_policy_witness :
  wr_first_divergence (report vetoing "open") = None ∧
  outcome_changed (report vetoing "open") = false.
Proof.
  destruct (what_if_same_policy start events vetoing default_replay_options (policy "open")
    (report vetoing "open")) as (Hd & _ & Ho); [reflexivity|by vm_compute|].
  split; [exact Hd|exact Ho].
Defined.

Lemma what_if_no_divergence_witness :
  outcome_changed (report Step.Demo.mode "no-notes") = false ∧
  wr_denials (report Step.Demo.mode "no-notes") = [].
Proof.
  apply (what_if_no_divergence Step.Demo.mode start events default_replay_options
    (policy "no-notes")); by vm_compute.
Defined.
End Demo.
