(* ===== verification/WhatIfLog.v ===== *)
(** * What-if replay over a session's log (src/runtime.rs, src/replay.rs)

    The server's run of what-if replay: the log split into its recorded start
    and events, each with its place in the accepted history, the admission of
    the candidate, and the checks that make a report trustworthy. The recorded
    half is the full log replay that recovery performs, and the history indices
    are the positions of the accepted envelopes in the log. *)

From stdpp Require Import prelude gmap strings.
From S2P Require Import Prelude RustStr Floats Extern Error Policy Wire SessionData.
From S2P Require Import Session SessionStart CommitmentHash ModeApi Step Replay Live Log LogReplay.
From S2P Require Import PolicyRegistry PolicyAdmission Runtime WhatIf.
Open Scope Z_scope.

(** ** The recorded history *)
Record RecordedHistory := MkRecordedHistory {
  rh_start : RecordedStart;
  rh_mode : Mode;
  rh_events : list ReplayEvent;
  rh_history_index : list (option Z);
}.

Record WhatIfRun := MkWhatIfRun {
  wf_report : WhatIfReport;
  wf_history_index : list (option Z);
}.

Inductive WhatIfError :=
| WUnknownSession
| WInvalidCandidate (reason : text)
| WCompacted
| WIntegrity (reason : text).

(** [log_entries[start_pos + 1..]]. *)
Fixpoint after_start (entries : list LogEntry) : list LogEntry :=
  match entries with
  | [] => []
  | e :: rest => if is_start_entry e then rest else after_start rest
  end.

(** The loop over the entries after the start, [next] the next index. *)
Fixpoint history_events (session_mode session_id : string) (next : Z) (entries : list LogEntry)
    : list (ReplayEvent * option Z) :=
  match entries with
  | [] => []
  | e :: rest =>
      match replay_event session_mode session_id e with
      | None => history_events session_mode session_id next rest
      | Some event =>
          if is_kind Incoming e then
            (event, Some next) :: history_events session_mode session_id (next + 1) rest
          else (event, None) :: history_events session_mode session_id next rest
      end
  end.

Definition is_compacted (log_entries : list LogEntry) : bool :=
  existsb (λ e, is_kind Checkpoint e && (0 <? le_compacted_incoming_ordinals e)) log_entries.

(** ** Texts *)
(** [Display] of [MacpError]. *)
Definition error_display (e : MacpError) : string :=
  match e with
  | InvalidMacpVersion => "InvalidMacpVersion"
  | InvalidEnvelope => "InvalidEnvelope"
  | SessionAlreadyExists => "SessionAlreadyExists"
  | UnknownSession => "UnknownSession"
  | SessionNotOpen => "SessionNotOpen"
  | TtlExpired => "TtlExpired"
  | InvalidTtl => "InvalidTtl"
  | UnknownMode => "UnknownMode"
  | InvalidModeState => "InvalidModeState"
  | InvalidPayload => "InvalidPayload"
  | Forbidden => "Forbidden"
  | Unauthenticated => "Unauthenticated"
  | DuplicateMessage => "DuplicateMessage"
  | PayloadTooLarge => "PayloadTooLarge"
  | RateLimited => "RateLimited"
  | StorageFailed => "StorageFailed"
  | InvalidSessionId => "InvalidSessionId"
  | UnknownPolicyVersion => "UnknownPolicyVersion"
  | PolicyDenied _ => "PolicyDenied"
  | InvalidPolicyDefinition => "InvalidPolicyDefinition"
  | RegistryReadOnly => "RegistryReadOnly"
  | InvalidRequest => "InvalidRequest"
  | StreamLagged => "StreamLagged"
  | AgentNotFound => "AgentNotFound"
  | HistoryUnavailable => "HistoryUnavailable"
  | ReceiptUnavailable => "ReceiptUnavailable"
  end.
(** [Debug] of [SessionState]. *)
Definition state_debug (st : SessionState) : string :=
  match st with
  | Open => "Open" | Suspended => "Suspended" | Resolved => "Resolved"
  | Expired => "Expired" | Cancelled => "Cancelled"
  end.
Definition option_state_debug (st : option SessionState) : string :=
  match st with Some st => "Some(" +:+ state_debug st +:+ ")" | None => "None" end.

Section what_if_log.
Context `{Message SessionStartPayload} `{Serde PersistedSession} `{ModeSource}.
Context `{FromValue DecisionPolicyRules} `{FromValue ProposalPolicyRules}.
Context `{FromValue TaskPolicyRules} `{FromValue HandoffPolicyRules}.
Context `{FromValue QuorumPolicyRules} `{FromValue CommitmentRules}.
Context `{ToValue DecisionPolicyRules} `{PolicyDocuments}.

Definition recorded_history (session_id session_mode : string) (log_entries : list LogEntry)
    : result MacpError (option RecordedHistory) :=
  if is_compacted log_entries || negb (existsb is_start_entry log_entries) then Ok None
  else
    found ← recorded_start session_id log_entries;
    let '(_, start, mode) := found in
    let events := history_events session_mode session_id 1 (after_start log_entries) in
    Ok (Some (MkRecordedHistory start mode events.*1 events.*2)).

(** [resolve(id).ok()]: the policy registry as the server's other parts see it. *)
Definition resolved (policy_registry : PolicyRegistry) : PolicySource := λ id,
  match resolve policy_registry id with Ok p => Some p | Err _ => None end.

Definition recorded_policy (log : list LogEntry) (stored : option Session)
    (policy_registry : PolicyRegistry) : option PolicyDefinition :=
  match stored ≫= ss_policy_definition with
  | Some def => Some def
  | None =>
      let id :=
        match stored with
        | Some s => ss_policy_version s
        | None =>
            match List.find is_start_entry log with
            | Some e =>
                match parse_session_start_payload (le_raw_payload e) with
                | Ok p => sp_policy_version p
                | Err _ => ""
                end
            | None => ""
            end
        end in
      resolved policy_registry (if str_is_empty id then DEFAULT_POLICY_ID else id)
  end.

(** The mode a run is about. *)
Definition run_mode (log : list LogEntry) (stored : option Session) : result WhatIfError string :=
  match stored, List.find is_start_entry log with
  | Some s, _ => Ok (ss_mode s)
  | None, Some e => Ok (le_mode e)
  | None, None => Err WCompacted
  end.

Definition map_err {E E' A} (f : E → E') (r : result E A) : result E' A :=
  match r with Ok a => Ok a | Err e => Err (f e) end.

(** The recorded half reproduces the stored state. *)
Definition check_stored (stored : option Session) (report : WhatIfReport)
    : result WhatIfError unit :=
  match stored with
  | Some s =>
      if oc_state (wr_recorded report) != Some (ss_state s) then
        Err (WIntegrity [Lit "recorded replay ends ";
               FDebug (option_state_debug (oc_state (wr_recorded report)));
               Lit ", the stored session is "; FDebug (state_debug (ss_state s))])
      else Ok ()
  | None => Ok ()
  end.

Definition what_if_over_log (session_id : string) (log : list LogEntry) (stored : option Session)
    (policy_registry : PolicyRegistry) (candidate : PolicyDefinition)
    : result WhatIfError WhatIfRun :=
  _ ← map_err WInvalidCandidate (validate_candidate policy_registry candidate);
  mode ← run_mode log stored;
  if (policy_mode candidate != mode) && (policy_mode candidate != "*") then
    Err (WInvalidCandidate
      [Lit "INVALID_POLICY_DEFINITION: candidate mode '"; Lit (policy_mode candidate);
       Lit "' does not govern session mode '"; Lit mode; Lit "'"])
  else
    history ← map_err (λ e, WIntegrity [Lit "cannot rebuild the SessionStart: ";
                                        Lit (error_display e)])
                (recorded_history session_id mode log);
    history ← ok_or history WCompacted;
    let start := with_policy (recorded_policy log stored policy_registry) (rh_start history) in
    report ← map_err (λ e, WIntegrity [Lit "recorded replay failed: "; Lit (error_display e)])
               (replay_under_policy start (rh_events history) (rh_mode history)
                  log_replay_options candidate);
    _ ← check_stored stored report;
    Ok (MkWhatIfRun report (rh_history_index history)).

(** The handler. The text of a storage error is storage's own. *)
Definition what_if_replay (policy_registry : PolicyRegistry) (session_id : string)
    (candidate : PolicyDefinition) : stm Server WhatIfError WhatIfRun := λ sv,
  match get_session_checked session_id sv with
  | (sv, Ok (Some session)) =>
      let run log := what_if_over_log session_id log (Some session) policy_registry candidate in
      match get_log session_id (sv_log sv) with
      | Some log => (sv, run log)
      | None =>
          match load_log (E:=WhatIfError) session_id sv with
          | (sv, Ok (Some log)) => (sv, run log)
          | (sv, _) => (sv, Err (WIntegrity [Lit "cannot read the session log: "; FDebug ""]))
          end
      end
  | (sv, _) => (sv, Err WUnknownSession)
  end.

(** ** Facts about the split *)
Lemma apply_event_mode event mode opts s s' :
  apply_event event mode opts s = (s', Ok ()) → ss_mode s' = ss_mode s.
Proof.
  assert (∀ env at_ credit, apply_envelope env at_ credit mode s = (s', Ok ()) →
    ss_mode s' = ss_mode s) as Henv.
  { intros env at_ credit. unfold apply_envelope, insert_seen_nonempty.
    destruct (_ != _); [intros [= <-]; by case_match|].
    destruct (_ ≫= _) as [r|]; [|done]. intros [= <-].
    unfold record_participant_activity. destruct r, credit; by repeat case_match. }
  destruct event; simpl; [apply Henv|apply Henv|..]; intros [= <-]; try done;
    unfold suspend, resume, cancel; by repeat case_match.
Qed.

(** The log replay, event by event. *)
Lemma replay_entries_events id l mode : ∀ s,
  replay_entries id l mode s
  = apply_events (omap (replay_event (ss_mode s) id) l) mode log_replay_options s.
Proof.
  induction l as [|e l IH]; intros s; simpl; [done|]. unfold replay_entry.
  destruct (replay_event (ss_mode s) id e) as [event|]; simpl; [|apply IH].
  destruct (apply_event event mode log_replay_options s) as [s' [[]|err]] eqn:E; [|done].
  rewrite IH. by rewrite (apply_event_mode _ _ _ _ _ E).
Qed.

Lemma history_events_fst m id l : ∀ next,
  (history_events m id next l).*1 = omap (replay_event m id) l.
Proof.
  induction l as [|e l IH]; intros next; simpl; [done|].
  destruct (replay_event m id e) as [event|]; simpl; [|apply IH].
  destruct (is_kind Incoming e); simpl; f_equal; apply IH.
Qed.

(** An index is the position of the entry among the accepted ones. *)
Lemma history_events_index m id l : ∀ next i k event,
  history_events m id next l !! i = Some (event, Some k) →
  ∃ e, incoming l !! Z.to_nat (k - next) = Some e ∧ next ≤ k ∧ replay_event m id e = Some event.
Proof.
  induction l as [|e l IH]; intros next i k event Hi; simpl in Hi; [done|].
  unfold incoming. simpl. change (List.filter (is_kind Incoming) l) with (incoming l).
  destruct (replay_event m id e) as [ev|] eqn:Ee.
  - destruct (is_kind Incoming e) eqn:Hk.
    + destruct i as [|i]; simpl in Hi.
      * injection Hi as <- <-. exists e. by rewrite Z.sub_diag.
      * apply IH in Hi as (e' & Hl & Hle & He'). exists e'. split_and!; [|lia|done].
        by replace (Z.to_nat (k - next)) with (S (Z.to_nat (k - (next + 1)))) by lia.
    + destruct i as [|i]; simpl in Hi; [done|]. by apply IH in Hi.
  - destruct (is_kind Incoming e) eqn:Hk; [|by apply IH in Hi].
    unfold is_kind in Hk. bool_simp. unfold replay_event in Ee. by rewrite Hk in Ee.
Qed.

Lemma replay_start_mode start mode s :
  replay_start start mode = Ok s → ss_mode s = env_mode (rs_envelope start).
Proof.
  unfold replay_start. intros E. apply bind_ok in E as (p & _ & E).
  apply bind_ok in E as (? & _ & E). apply bind_ok in E as (ttl & _ & E).
  apply bind_ok in E as (r & _ & [= <-]). by destruct r.
Qed.

Lemma recorded_start_found id e l start_entry start mode :
  is_start_entry e = true → recorded_start id (e :: l) = Ok (start_entry, start, mode) →
  start_entry = e ∧ env_mode (rs_envelope start) = le_mode e.
Proof.
  unfold recorded_start. simpl. intros -> E. apply bind_ok in E as (x & Hx%ok_or_ok & E).
  injection Hx as <-. destruct (str_is_empty (le_mode e)) eqn:Hm; [done|].
  apply bind_ok in E as (m & _ & [= <- <- <-]). split; [done|]. simpl. by rewrite Hm.
Qed.

(** The full log replay is the library replay of the split history. *)
Lemma replay_from_start_split id e l start_entry start mode policies :
  is_start_entry e = true → recorded_start id (e :: l) = Ok (start_entry, start, mode) →
  replay_from_start id (e :: l) (Some policies)
  = replay (with_policy (policies (requested_policy e)) start)
      (omap (replay_event (le_mode e) id) l) mode log_replay_options.
Proof.
  intros He Hs. pose proof (recorded_start_found _ _ _ _ _ _ He Hs) as [-> Hm].
  unfold replay_from_start, replay. rewrite Hs. cbn [mbind result_bind option_bind tail].
  destruct (replay_start _ mode) as [s|] eqn:E; [|done]. cbn [mbind result_bind].
  rewrite replay_entries_events. apply replay_start_mode in E. simpl in E. by rewrite E, Hm.
Qed.

(** The stored session, where there is one, is of the recorded mode and bound
    the policy the log names. *)
Definition stored_bound (id : string) (e : LogEntry) (l : list LogEntry) (stored : option Session)
    (reg : PolicyRegistry) : Prop :=
  match stored with
  | Some s => ss_mode s = le_mode e ∧
      recorded_policy (e :: l) stored reg = resolved reg (requested_policy e)
  | None => True
  end.
Definition stored_in (stored : option Session) (t : Session) : bool :=
  match stored with Some s => ss_state t == ss_state s | None => true end.

(** What the run does once the candidate is admitted. *)
Lemma what_if_over_log_run id e l stored reg candidate :
  is_start_entry e = true → is_compacted (e :: l) = false →
  validate_candidate reg candidate = Ok () →
  policy_mode candidate = le_mode e ∨ policy_mode candidate = "*" →
  stored_bound id e l stored reg →
  what_if_over_log id (e :: l) stored reg candidate
  = found ← map_err (λ err, WIntegrity [Lit "cannot rebuild the SessionStart: ";
                                        Lit (error_display err)]) (recorded_start id (e :: l));
    let '(_, start, mode) := found in
    let events := history_events (le_mode e) id 1 l in
    report ← map_err (λ err, WIntegrity [Lit "recorded replay failed: "; Lit (error_display err)])
      (replay_under_policy (with_policy (resolved reg (requested_policy e)) start) events.*1 mode
         log_replay_options candidate);
    _ ← check_stored stored report;
    Ok (MkWhatIfRun report events.*2).
Proof.
  intros He Hc Hv Hm Hb. unfold what_if_over_log, run_mode, recorded_history.
  rewrite Hv, Hc. cbn [map_err mbind result_bind]. simpl List.find. simpl existsb.
  rewrite He. simpl orb. simpl after_start. rewrite He.
  assert ((match stored with Some s => Ok (ss_mode s) | None => Ok (le_mode e) end
    : result WhatIfError string) = Ok (le_mode e)) as ->.
  { destruct stored as [s|]; [|done]. by destruct Hb as [-> _]. }
  assert (recorded_policy (e :: l) stored reg = resolved reg (requested_policy e)) as ->.
  { destruct stored as [s|]; [by destruct Hb|]. unfold recorded_policy. simpl. by rewrite He. }
  cbn [mbind result_bind].
  replace ((policy_mode candidate != le_mode e) && (policy_mode candidate != "*")) with false.
  2:{ symmetry. apply andb_false_iff. destruct Hm as [->| ->]; [left|right]; by rewrite bool_decide_true. }
  destruct (recorded_start id (e :: l)) as [[[x start] mode]|err]; done.
Qed.

(** The entry at a history index is that accepted envelope's. *)
Lemma history_index_entries e id l mode candidate s0 start w' :
  is_start_entry e = true →
  what_if_events 0 (history_events (le_mode e) id 1 l).*1 mode log_replay_options
    (what_if_start start mode candidate s0) = Ok w' →
  ∀ i k, (history_events (le_mode e) id 1 l).*2 !! i = Some (Some k) →
    ∃ d entry', wi_entries w' !! S i = Some d ∧ incoming (e :: l) !! Z.to_nat k = Some entry' ∧
      ed_message_id d = Some (le_message_id entry').
Proof.
  intros He Ew i k Hk. apply list_lookup_fmap_Some in Hk as ([event x] & [= <-] & Hi).
  pose proof Hi as (e' & Hin & Hle & Hev)%history_events_index.
  eapply what_if_events_labels in Ew as (d & Hd & _ & Hid);
    [|apply list_lookup_fmap_Some; by eexists]. simpl in Hid.
  rewrite (proj2 (what_if_start_entries _ _ _ _)) in Hd. exists d, e'. split_and!; [done| |].
  - unfold incoming. simpl. unfold is_start_entry in He. bool_simp.
    destruct (is_kind Incoming e) eqn:Hk; [|done].
    by replace (Z.to_nat k) with (S (Z.to_nat (k - 1))) by lia.
  - rewrite Hid. apply list_elem_of_lookup_2, list_elem_of_In, filter_In in Hin as [_ Hin].
    unfold is_kind in Hin. bool_simp. unfold replay_event in Hev. by rewrite Hin in Hev; injection Hev as <-.
Qed.

(** What-if replay of a session's log. For a log that begins with its
    SessionStart and was not compacted, and a candidate that passes admission
    and governs the session's mode, the recorded half is the full replay of the
    log that recovery performs. A log recovery cannot replay, and one whose
    replay does not end in the stored session's state, are reported as integrity
    failures and nothing else is. Otherwise there is a report, its recorded
    outcome is the replayed session's, and an entry's history index is the
    position of that very envelope among the accepted ones. *)
Theorem what_if_over_log_replays id e l stored reg candidate :
  is_start_entry e = true → is_compacted (e :: l) = false →
  validate_candidate reg candidate = Ok () →
  policy_mode candidate = le_mode e ∨ policy_mode candidate = "*" →
  stored_bound id e l stored reg →
  match replay_from_start id (e :: l) (Some (resolved reg)) with
  | Err _ => ∃ reason, what_if_over_log id (e :: l) stored reg candidate = Err (WIntegrity reason)
  | Ok t =>
      if stored_in stored t then
        ∃ run by_, what_if_over_log id (e :: l) stored reg candidate = Ok run ∧
          wr_recorded (wf_report run) = outcome_of (Some t) by_ ∧
          ∀ i k, wf_history_index run !! i = Some (Some k) →
            ∃ d entry', wr_entries (wf_report run) !! S i = Some d ∧
              incoming (e :: l) !! Z.to_nat k = Some entry' ∧
              ed_message_id d = Some (le_message_id entry')
      else ∃ reason, what_if_over_log id (e :: l) stored reg candidate = Err (WIntegrity reason)
  end.
Proof.
  intros He Hc Hv Hm Hb. rewrite (what_if_over_log_run id e l stored reg candidate) by done.
  destruct (recorded_start id (e :: l)) as [[[x start] mode]|err] eqn:Hs.
  2:{ unfold replay_from_start. rewrite Hs. simpl. by eexists. }
  rewrite (replay_from_start_split _ _ _ _ _ _ _ He Hs). cbn [map_err mbind result_bind].
  set (start' := with_policy _ start). set (events := history_events (le_mode e) id 1 l).
  pose proof (replay_under_policy_total start' events.*1 mode log_replay_options candidate) as Ht.
  unfold events in Ht at 1. rewrite history_events_fst in Ht.
  destruct (replay start' _ mode log_replay_options) as [t|err]; [|rewrite Ht; by eexists].
  destruct Ht as (s0 & w & Ew & <- & ->). cbn [map_err mbind result_bind].
  unfold check_stored, stored_in. simpl oc_state.
  destruct stored as [s|]; [destruct (decide (ss_state (wi_recorded w) = ss_state s)) as [Hst|Hst];
    [rewrite Hst, !bool_decide_true by done|rewrite !bool_decide_false by congruence; by eexists]|];
    (eexists _, _; split; [reflexivity|]; split; [reflexivity|]); simpl;
    by apply (history_index_entries e id l mode candidate s0 start').
Qed.

(** The handler writes nothing of its own: what changes is what reading the
    session changes. *)
Lemma what_if_replay_reads reg id candidate sv :
  let sv' := (what_if_replay reg id candidate sv).1 in
  let sv1 := (get_session_checked id sv).1 in
  sv_sessions sv' = sv_sessions sv1 ∧ sv_log sv' = sv_log sv1 ∧ sv_disk sv' = sv_disk sv1 ∧
  sv_snapshots sv' = sv_snapshots sv1 ∧ sv_published sv' = sv_published sv1.
Proof.
  unfold what_if_replay. destruct (get_session_checked id sv) as [sv1 [[s|]|e]]; [|done..].
  destruct (get_log id (sv_log sv1)); [done|]. unfold load_log, st_bind, io_outcome.
  simpl. by destruct (sv_io sv1 O).
Qed.

Lemma save_session_reads session sv :
  let sv' := (save_session_to_storage session sv).1 in
  (save_session_to_storage session sv).2 = Ok () ∧
  sv_sessions sv' = sv_sessions sv ∧ sv_disk sv' = sv_disk sv.
Proof.
  unfold save_session_to_storage, save_session, st_bind, io_outcome. simpl.
  by destruct (sv_io sv O).
Qed.

(** Reading a session past its deadline expires it. *)
Lemma get_session_expires id sv s :
  sv_sessions sv !! id = Some s → deadline_passed (sv_clock sv O) s = true → sv_io sv O = true →
  let sv' := (get_session_checked id sv).1 in
  ss_state <$> sv_sessions sv' !! id = Some Expired ∧
  sv_disk sv' !! id = Some (default [] (sv_disk sv !! id)
    ++ [make_internal_entry "TtlExpired" [] id (ss_mode s) (sv_clock sv O)]).
Proof.
  intros Hs Hd Hio.
  unfold get_session_checked, maybe_expire_session, st_catch, record_entry, append_log_entry,
    st_bind, st_read, now_ms, io_outcome, st_mod, put_session, st_ret.
  rewrite Hs. simpl. rewrite Hd. simpl. rewrite Hio. simpl.
  unfold expire. destruct (is_terminal (ss_state s)) eqn:Ht;
    [unfold deadline_passed in Hd; by destruct (ss_state s)|]. simpl.
  match goal with |- context [save_session_to_storage ?x ?y] =>
    pose proof (save_session_reads x y) as Hsv;
    destruct (save_session_to_storage x y) as [sv2 r2] end.
  simpl in Hsv. destruct Hsv as (-> & H1' & H2'). simpl. rewrite H1', H2'.
  unfold upd_sessions, upd_disk, upd_log, log_append. cbn [sv_sessions sv_disk].
  by rewrite !lookup_insert_eq.
Qed.

(** Where the handler writes: a what-if request on a session past its deadline
    expires it, in memory and in its durable log, before it replays anything. *)
Theorem what_if_expires reg id candidate sv s :
  sv_sessions sv !! id = Some s → deadline_passed (sv_clock sv O) s = true → sv_io sv O = true →
  let sv' := (what_if_replay reg id candidate sv).1 in
  ss_state <$> sv_sessions sv' !! id = Some Expired ∧
  sv_disk sv' !! id = Some (default [] (sv_disk sv !! id)
    ++ [make_internal_entry "TtlExpired" [] id (ss_mode s) (sv_clock sv O)]).
Proof.
  intros Hs Hd Hio. simpl. destruct (what_if_replay_reads reg id candidate sv) as (-> & _ & -> & _).
  by apply get_session_expires.
Qed.
End what_if_log.

Module Demo.
#[local] Existing Instance Step.Demo.m_start.
#[local] Existing Instance Step.Demo.m_commitment.
#[local] Existing Instance Step.Demo.to_json_resolution.
#[local] Existing Instance PolicyAdmission.Demo.decision_doc.
#[local] Existing Instance PolicyAdmission.Demo.proposal_doc.
#[local] Existing Instance PolicyAdmission.Demo.task_doc.
#[local] Existing Instance PolicyAdmission.Demo.handoff_doc.
#[local] Existing Instance PolicyAdmission.Demo.quorum_doc.
#[local] Existing Instance PolicyAdmission.Demo.commitment_doc.
#[local] Existing Instance PolicyAdmission.Demo.decision_value.
#[local] Existing Instance PolicyAdmission.Demo.documents.
#[local] Instance modes : ModeSource := {|
  get_mode name := if name == "ext.notes.v1" then Some WhatIf.Demo.vetoing else None;
  requires_strict _ := false;
  get_mode_version _ := None |}.

Definition veto : PolicyDefinition := MkPolicyDefinition "no-notes" "ext.notes.v1" "" (VObject []) 3.
Definition start_entry : LogEntry := make_start_entry Step.Demo.start 2000 None 3 0.
Definition later : list LogEntry :=
  [make_internal_entry "SessionSuspend" [] Step.Demo.id "ext.notes.v1" 2500;
   make_internal_entry "SessionResume" [] Step.Demo.id "ext.notes.v1" 2600;
   make_incoming_entry Step.Demo.note 3000].

Lemma what_if_over_log_replays_witness :
  ∃ run by_ t, replay_from_start Step.Demo.id (start_entry :: later)
      (Some (resolved registry_new)) = Ok t ∧
    what_if_over_log Step.Demo.id (start_entry :: later) None registry_new veto = Ok run ∧
    wr_recorded (wf_report run) = outcome_of (Some t) by_.
Proof.
  pose proof (what_if_over_log_replays Step.Demo.id start_entry later None registry_new veto
    ltac:(reflexivity) ltac:(reflexivity) ltac:(by vm_compute) (or_introl eq_refl) I) as Hw.
  destruct (replay_from_start Step.Demo.id (start_entry :: later) (Some (resolved registry_new)))
    as [t|e] eqn:E; [|by vm_compute in E].
  destruct Hw as (run & by_ & Hrun & Hrec & _). exists run, by_, t.
  split; [reflexivity|]. split; [exact Hrun|exact Hrec].
Defined.
End Demo.
