(* ===== verification/Auth.v ===== *)
(** * Authentication (crates/macp-auth)

    Identities, the static-token and JWT resolvers, the resolver chain and the
    security layer built from the environment. Each credential is decided by
    one resolver, a configured layer never falls back to the development
    identities, and the keys a JWT is verified against are never older than the
    cache's lifetime and its grace. The signature checks of jsonwebtoken, the
    JSON parsers and HTTP are parameters. *)

From Stdlib Require Import Ascii.
From stdpp Require Import prelude gmap strings.
From S2P Require Import Prelude RustStr Floats Extern Error.
Open Scope Z_scope.

(** ** Identities *)
Record AuthIdentity := MkAuthIdentity {
  ai_sender : string;
  ai_allowed_modes : option (gset string);
  ai_can_start_sessions : bool;
  ai_max_open_sessions : option Z;
  ai_can_manage_mode_registry : bool;
  ai_is_observer : bool;
}.

Record RawIdentity := MkRawIdentity {
  ri_token : string;
  ri_sender : string;
  ri_allowed_modes : list string;
  ri_can_start_sessions : bool;
  ri_max_open_sessions : option Z;
  ri_can_manage_mode_registry : bool;
  ri_is_observer : bool;
}.

Inductive RawConfig :=
| RawList (items : list RawIdentity)
| RawWrapped (tokens : list RawIdentity).

Record ResolvedIdentity := MkResolvedIdentity {
  rid_sender : string;
  rid_allowed_modes : option (gset string);
  rid_can_start_sessions : bool;
  rid_max_open_sessions : option Z;
  rid_can_manage_mode_registry : bool;
  rid_is_observer : bool;
  rid_resolver : string;
}.

(** [From<ResolvedIdentity> for AuthIdentity]. *)
Definition from_resolved (resolved : ResolvedIdentity) : AuthIdentity := {|
  ai_sender := rid_sender resolved;
  ai_allowed_modes := rid_allowed_modes resolved;
  ai_can_start_sessions := rid_can_start_sessions resolved;
  ai_max_open_sessions := rid_max_open_sessions resolved;
  ai_can_manage_mode_registry := rid_can_manage_mode_registry resolved;
  ai_is_observer := rid_is_observer resolved |}.

Inductive AuthError :=
| InvalidCredential (msg : text)
| CredentialExpired
| MissingClaim (claim : string)
| FetchFailed (msg : text).

(** Request metadata: the values that are text, by name. *)
Abbreviation MetadataMap := (string → option string).

(** ** Third-party code *)
Inductive Algorithm := RS256 | ES256 | HS256 | OtherAlgorithm (name : string).
#[export] Instance Algorithm_eq_dec : EqDecision Algorithm.
Proof. solve_decision. Defined.

Record MACPScopes := MkMACPScopes {
  sc_can_start_sessions : option bool;
  sc_can_manage_mode_registry : option bool;
  sc_is_observer : option bool;
  sc_allowed_modes : option (list string);
  sc_max_open_sessions : option Z;
}.
Definition default_scopes : MACPScopes := MkMACPScopes None None None None None.
Record MACPClaims := MkMACPClaims {
  cl_sub : string;
  cl_macp_scopes : option MACPScopes;
}.

Record JwtHeader := MkJwtHeader { jh_alg : Algorithm; jh_kid : option string }.
Record Validation := MkValidation {
  va_algorithm : Algorithm;
  va_issuer : string;
  va_audience : string;
}.
Inductive JwtErrorKind := ExpiredSignature | InvalidIssuer | InvalidAudience | OtherKind (msg : string).

(** The jsonwebtoken crate. *)
Class Jsonwebtoken := {
  DecodingKey : Type;
  from_rsa_components : string → string → option DecodingKey;
  from_ec_components : string → string → option DecodingKey;
  from_base64_secret : string → option DecodingKey;
  from_secret : string → DecodingKey;
  decode_header : string → result string JwtHeader;
  jwt_decode : string → DecodingKey → Validation → result JwtErrorKind MACPClaims;
}.

(** The JSON parsers. *)
Class AuthJson := {
  parse_raw_config : string → result string RawConfig;
  parse_json : string → result string Value;
}.

(** How an HTTP request for the keys ends. *)
Inductive HttpOutcome :=
| HttpClientFailed (e : string)
| HttpSendFailed (e : string)
| HttpBodyFailed (e : string)
| HttpJson (v : Value).

(** ** Bearer tokens *)
Definition or_else {A} (o : option A) (o' : option A) : option A :=
  match o with Some a => Some a | None => o' end.

(** [SecurityLayer::bearer_token], [StaticBearerResolver::extract_bearer]. *)
Definition bearer_token (metadata : MetadataMap) : option string :=
  or_else (metadata "authorization" ≫= strip_prefix "Bearer ") (metadata "x-macp-token").

(** [JwtBearerResolver::extract_bearer]. *)
Definition jwt_bearer (metadata : MetadataMap) : option string :=
  metadata "authorization" ≫= strip_prefix "Bearer ".

Definition contains_dot (token : string) : bool := str_any (Ascii.eqb "."%char) token.

(** ** The static resolver *)
Definition static_resolve (identities : gmap string AuthIdentity) (metadata : MetadataMap)
    : result AuthError (option ResolvedIdentity) :=
  match bearer_token metadata with
  | None => Ok None
  | Some token =>
      if contains_dot token then Ok None
      else
        match identities !! token with
        | Some identity => Ok (Some {|
            rid_sender := ai_sender identity;
            rid_allowed_modes := ai_allowed_modes identity;
            rid_can_start_sessions := ai_can_start_sessions identity;
            rid_max_open_sessions := ai_max_open_sessions identity;
            rid_can_manage_mode_registry := ai_can_manage_mode_registry identity;
            rid_is_observer := ai_is_observer identity;
            rid_resolver := "static_bearer" |})
        | None => Err (InvalidCredential [Lit "token not found in identity map"])
        end
  end.

(** ** The JWT resolver *)
Definition from_secs (secs : Z) : Z := secs * 1000000000.
Definition STALE_GRACE : Z := from_secs 3600.
(** [Instant::elapsed], which saturates at zero. *)
Definition duration_since (now earlier : Z) : Z := Z.max 0 (now - earlier).

Record JwtConfig := MkJwtConfig {
  jc_issuer : string;
  jc_audience : string;
  jc_algorithms : list Algorithm;
}.

Section jwt.
Context `{Jsonwebtoken}.

Abbreviation Keys := (list (option string * DecodingKey)).

Record CachedKeys := MkCachedKeys { ck_keys : Keys; ck_fetched_at : Z }.
Inductive JwksSource := JwksInline (keys : Keys) | JwksUrl (url : string).

Record JwtBearerResolver := MkJwtBearerResolver {
  jr_config : JwtConfig;
  jr_jwks_source : JwksSource;
  jr_cached_keys : option CachedKeys;
  jr_cache_ttl : Z;
}.

(** One key of the set, [None] when it is not usable. *)
Definition parse_jwk (key : Value) : option (option string * DecodingKey) :=
  let kty := default "" (str_field "kty" key) in
  let kid := str_field "kid" key in
  if kty == "RSA" then
    let n := default "" (str_field "n" key) in
    let e := default "" (str_field "e" key) in
    if negb (str_is_empty n) && negb (str_is_empty e) then (kid,.) <$> from_rsa_components n e
    else None
  else if kty == "EC" then
    let x := default "" (str_field "x" key) in
    let y := default "" (str_field "y" key) in
    if negb (str_is_empty x) && negb (str_is_empty y) then (kid,.) <$> from_ec_components x y
    else None
  else if kty == "oct" then
    (λ k, (kid, default (from_secret k) (from_base64_secret k))) <$> str_field "k" key
  else None.

Definition parse_jwks (jwks : Value) : result text Keys :=
  keys_arr ← ok_or (value_get "keys" jwks ≫= as_array) [Lit "JWKS missing 'keys' array"];
  let decoding_keys := omap parse_jwk keys_arr in
  if is_empty decoding_keys then Err [Lit "no usable keys found in JWKS"]
  else Ok decoding_keys.

Definition from_inline_json `{AuthJson} (config : JwtConfig) (jwks_json : string) (now : Z)
    : result text JwtBearerResolver :=
  match parse_json jwks_json with
  | Err e => Err [Lit "invalid JWKS JSON: "; FDebug e]
  | Ok jwks =>
      keys ← parse_jwks jwks;
      Ok (MkJwtBearerResolver config (JwksInline keys) (Some (MkCachedKeys keys now))
            (from_secs u64_max))
  end.

Definition from_url (config : JwtConfig) (url : string) (cache_ttl_secs : Z)
    : JwtBearerResolver :=
  MkJwtBearerResolver config (JwksUrl url) None (from_secs cache_ttl_secs).

(** What a call meets: the clock at its successive readings, what concurrent
    callers do to the cache while it waits for the refresh lock, and the
    endpoint. *)
Record AuthWorld := MkAuthWorld {
  aw_clock : nat → Z;
  aw_others : option CachedKeys → option CachedKeys;
  aw_http : string → HttpOutcome;
}.

Definition fetch_jwks (w : AuthWorld) (url : string) : result AuthError Keys :=
  match aw_http w url with
  | HttpClientFailed e => Err (FetchFailed [Lit "JWKS client build failed: "; FDebug e])
  | HttpSendFailed e => Err (FetchFailed [Lit "JWKS fetch failed: "; FDebug e])
  | HttpBodyFailed e => Err (FetchFailed [Lit "JWKS parse failed: "; FDebug e])
  | HttpJson jwks =>
      match parse_jwks jwks with Ok keys => Ok keys | Err e => Err (FetchFailed e) end
  end.

(** The cached keys, if they are younger than [ttl]. *)
Definition fresh_keys (cache : option CachedKeys) (now ttl : Z) : option Keys :=
  match cache with
  | Some cached => if duration_since now (ck_fetched_at cached) <? ttl then Some (ck_keys cached)
                   else None
  | None => None
  end.

(** [get_keys], on the cache: what it leaves there and what it returns. *)
Definition get_keys (w : AuthWorld) (r : JwtBearerResolver)
    : stm (option CachedKeys) AuthError Keys := λ cache,
  match fresh_keys cache (aw_clock w 0) (jr_cache_ttl r) with
  | Some keys => (cache, Ok keys)
  | None =>
      match jr_jwks_source r with
      | JwksInline keys => (cache, Ok keys)
      | JwksUrl url =>
          let cache := aw_others w cache in
          match fresh_keys cache (aw_clock w 1) (jr_cache_ttl r) with
          | Some keys => (cache, Ok keys)
          | None =>
              match fetch_jwks w url with
              | Ok keys => (Some (MkCachedKeys keys (aw_clock w 2)), Ok keys)
              | Err fetch_err =>
                  match fresh_keys cache (aw_clock w 2) (jr_cache_ttl r + STALE_GRACE) with
                  | Some keys => (cache, Ok keys)
                  | None => (cache, Err fetch_err)
                  end
              end
          end
      end
  end.

(** The keys to try for a token. *)
Definition select_keys (kid : option string) (keys : Keys) : list DecodingKey :=
  let has k (key : option string * DecodingKey) := key.1 == Some k in
  match kid with
  | Some k => if existsb (has k) keys then (List.filter (has k) keys).*2 else keys.*2
  | None => keys.*2
  end.

Definition identity_of (claims : MACPClaims) : ResolvedIdentity :=
  let scopes := default default_scopes (cl_macp_scopes claims) in {|
  rid_sender := cl_sub claims;
  rid_allowed_modes := list_to_set <$> sc_allowed_modes scopes;
  rid_can_start_sessions := default true (sc_can_start_sessions scopes);
  rid_max_open_sessions := sc_max_open_sessions scopes;
  rid_can_manage_mode_registry := default false (sc_can_manage_mode_registry scopes);
  rid_is_observer := default false (sc_is_observer scopes);
  rid_resolver := "jwt_bearer" |}.

(** The loop over the selected keys, [last_err] the last failure. *)
Fixpoint try_keys (token : string) (validation : Validation) (keys : list DecodingKey)
    (last_err : option JwtErrorKind) : result (option JwtErrorKind) MACPClaims :=
  match keys with
  | [] => Err last_err
  | key :: keys =>
      match jwt_decode token key validation with
      | Ok claims => Ok claims
      | Err e => try_keys token validation keys (Some e)
      end
  end.

Definition jwt_error (last_err : option JwtErrorKind) : AuthError :=
  match last_err with
  | Some ExpiredSignature => CredentialExpired
  | Some InvalidIssuer => InvalidCredential [Lit "invalid issuer"]
  | Some InvalidAudience => InvalidCredential [Lit "invalid audience"]
  | Some (OtherKind e) => InvalidCredential [Lit "JWT validation failed: "; FDebug e]
  | None => InvalidCredential [Lit "no keys available to validate JWT"]
  end.

Definition algorithm_debug (a : Algorithm) : string :=
  match a with RS256 => "RS256" | ES256 => "ES256" | HS256 => "HS256" | OtherAlgorithm n => n end.

(** The checks of a token once the keys are there. *)
Definition verify_token (config : JwtConfig) (token : string) (keys : Keys)
    : result AuthError ResolvedIdentity :=
  match decode_header token with
  | Err e => Err (InvalidCredential [Lit "malformed JWT header: "; FDebug e])
  | Ok header =>
      if negb (bool_decide (jh_alg header ∈ jc_algorithms config)) then
        Err (InvalidCredential [Lit "JWT algorithm "; FDebug (algorithm_debug (jh_alg header));
                                Lit " is not in the configured allowlist"])
      else
        match try_keys token (MkValidation (jh_alg header) (jc_issuer config) (jc_audience config))
                (select_keys (jh_kid header) keys) None with
        | Ok claims => Ok (identity_of claims)
        | Err last_err => Err (jwt_error last_err)
        end
  end.

Definition set_cache (cache : option CachedKeys) (r : JwtBearerResolver) : JwtBearerResolver :=
  MkJwtBearerResolver (jr_config r) (jr_jwks_source r) cache (jr_cache_ttl r).

Definition jwt_resolve (w : AuthWorld) (metadata : MetadataMap)
    : stm JwtBearerResolver AuthError (option ResolvedIdentity) := λ r,
  match jwt_bearer metadata with
  | None => (r, Ok None)
  | Some token =>
      if negb (contains_dot token) then (r, Ok None)
      else
        match get_keys w r (jr_cached_keys r) with
        | (cache, Err e) => (set_cache cache r, Err e)
        | (cache, Ok keys) =>
            (set_cache cache r,
             identity ← verify_token (jr_config r) token keys; Ok (Some identity))
        end
  end.
End jwt.

(** ** The chain *)
Section chain.
Context `{Jsonwebtoken}.

(** [Box<dyn AuthResolver>]. *)
Inductive AuthResolver :=
| StaticBearer (identities : gmap string AuthIdentity)
| JwtBearer (resolver : JwtBearerResolver).

Definition resolve_with (w : AuthWorld) (metadata : MetadataMap)
    : stm AuthResolver AuthError (option ResolvedIdentity) := λ r,
  match r with
  | StaticBearer identities => (r, static_resolve identities metadata)
  | JwtBearer resolver =>
      let '(resolver, out) := jwt_resolve w metadata resolver in (JwtBearer resolver, out)
  end.

(** [AuthResolverChain::authenticate]. *)
Fixpoint chain_authenticate (w : AuthWorld) (metadata : MetadataMap) (resolvers : list AuthResolver)
    : list AuthResolver * result MacpError AuthIdentity :=
  match resolvers with
  | [] => ([], Err Unauthenticated)
  | resolver :: resolvers =>
      match resolve_with w metadata resolver with
      | (resolver, Ok (Some identity)) => (resolver :: resolvers, Ok (from_resolved identity))
      | (resolver, Ok None) =>
          let '(resolvers, out) := chain_authenticate w metadata resolvers in
          (resolver :: resolvers, out)
      | (resolver, Err _) => (resolver :: resolvers, Err Unauthenticated)
      end
  end.
End chain.

(** ** The security layer *)
Record RateLimitConfig := MkRateLimitConfig { rl_limit : Z; rl_window : Z }.

Definition DEFAULT_LIST_SESSIONS_PAGE_SIZE : Z := 100.
Definition MAX_LIST_SESSIONS_PAGE_SIZE : Z := 1000.

(** [usize::from_str] and [u64::from_str]: an optional plus, then digits. *)
Fixpoint parse_digits (acc : Z) (s : string) : option Z :=
  match s with
  | EmptyString => Some acc
  | String c s =>
      if is_ascii_digit c then
        let acc := acc * 10 + (byte_of c - 48) in
        if acc <=? u64_max then parse_digits acc s else None
      else None
  end.
Definition parse_usize (s : string) : option Z :=
  match s with
  | EmptyString => None
  | String c rest =>
      if Ascii.eqb c "+"%char then if str_is_empty rest then None else parse_digits 0 rest
      else parse_digits 0 s
  end.

(** [.and_then(|v| v.parse().ok()).filter(|&v| v > 0)]. *)
Definition positive_usize (raw : option string) : option Z :=
  match raw ≫= parse_usize with Some v => if 0 <? v then Some v else None | None => None end.

Definition resolve_list_sessions_page_sizes (default_raw max_raw : option string) : Z * Z :=
  let max := default MAX_LIST_SESSIONS_PAGE_SIZE (positive_usize max_raw) in
  let default_size := default DEFAULT_LIST_SESSIONS_PAGE_SIZE (positive_usize default_raw) in
  (if max <? default_size then max else default_size, max).

Definition auth_identity_of (item : RawIdentity) : AuthIdentity := {|
  ai_sender := ri_sender item;
  ai_allowed_modes :=
    if is_empty (ri_allowed_modes item) then None else Some (list_to_set (ri_allowed_modes item));
  ai_can_start_sessions := ri_can_start_sessions item;
  ai_max_open_sessions := ri_max_open_sessions item;
  ai_can_manage_mode_registry := ri_can_manage_mode_registry item;
  ai_is_observer := ri_is_observer item |}.

Definition parse_identities `{AuthJson} (json : string)
    : result string (gmap string AuthIdentity) :=
  parsed ← parse_raw_config json;
  let items := match parsed with RawList items | RawWrapped items => items end in
  Ok (fold_left (λ identities item, <[ri_token item := auth_identity_of item]> identities)
        items ∅).

(** [MACP_AUTH_JWT_ALGS]. *)
Definition parse_algorithm (a : string) : option Algorithm :=
  let name := to_uppercase (trim a) in
  if name == "RS256" then Some RS256
  else if name == "ES256" then Some ES256
  else if name == "HS256" then Some HS256
  else None.
Definition parse_algorithms (raw : option string) : list Algorithm :=
  match omap parse_algorithm <$> (split_on ","%char <$> raw) with
  | Some (a :: algs) => a :: algs
  | _ => [RS256; ES256]
  end.

Section layer.
Context `{Jsonwebtoken} `{AuthJson}.

(** The layer without its rate buckets, which are in RateLimit.v. *)
Record SecurityLayer := MkSecurityLayer {
  sl_identities : gmap string AuthIdentity;
  sl_auth_chain : option (list AuthResolver);
  sl_max_payload_bytes : Z;
  sl_list_sessions_default_page_size : Z;
  sl_list_sessions_max_page_size : Z;
  sl_session_start_rate : RateLimitConfig;
  sl_message_rate : RateLimitConfig;
}.

Definition dev_mode : SecurityLayer := {|
  sl_identities := ∅;
  sl_auth_chain := None;
  sl_max_payload_bytes := 1048576;
  sl_list_sessions_default_page_size := DEFAULT_LIST_SESSIONS_PAGE_SIZE;
  sl_list_sessions_max_page_size := MAX_LIST_SESSIONS_PAGE_SIZE;
  sl_session_start_rate := MkRateLimitConfig u64_max (from_secs 60);
  sl_message_rate := MkRateLimitConfig u64_max (from_secs 60) |}.

Definition with_static_tokens (json : string) (self : SecurityLayer)
    : result string SecurityLayer :=
  identities ← parse_identities json;
  Ok (MkSecurityLayer identities (Some [StaticBearer identities]) (sl_max_payload_bytes self)
        (sl_list_sessions_default_page_size self) (sl_list_sessions_max_page_size self)
        (sl_session_start_rate self) (sl_message_rate self)).

(** The environment variables, the files and the clock [from_env] reads. *)
Record ProcessEnv := MkProcessEnv {
  pe_var : string → option string;
  pe_read_to_string : string → result string string;
  pe_now : Z;
}.

Definition jwt_config (env : ProcessEnv) (issuer : string) : JwtConfig := {|
  jc_issuer := issuer;
  jc_audience := default "macp-runtime" (pe_var env "MACP_AUTH_AUDIENCE");
  jc_algorithms := parse_algorithms (pe_var env "MACP_AUTH_JWT_ALGS") |}.

(** The JWT resolver, if the environment makes one. *)
Definition jwt_resolvers (env : ProcessEnv) : list AuthResolver :=
  match pe_var env "MACP_AUTH_ISSUER" with
  | None => []
  | Some issuer =>
      let config := jwt_config env issuer in
      let cache_ttl := default 300 (pe_var env "MACP_AUTH_JWKS_TTL_SECS" ≫= parse_usize) in
      match pe_var env "MACP_AUTH_JWKS_JSON" with
      | Some jwks_json =>
          match from_inline_json config jwks_json (pe_now env) with
          | Ok resolver => [JwtBearer resolver]
          | Err _ => []
          end
      | None =>
          match pe_var env "MACP_AUTH_JWKS_URL" with
          | Some jwks_url => [JwtBearer (from_url config jwks_url cache_ttl)]
          | None => []
          end
      end
  end.

Definition raw_tokens (env : ProcessEnv) : result string (option string) :=
  match pe_var env "MACP_AUTH_TOKENS_JSON" with
  | Some json => Ok (Some json)
  | None =>
      match pe_var env "MACP_AUTH_TOKENS_FILE" with
      | Some path => content ← pe_read_to_string env path; Ok (Some content)
      | None => Ok None
      end
  end.

Definition from_env (env : ProcessEnv) : result string SecurityLayer :=
  let number name d := default d (pe_var env name ≫= parse_usize) in
  let sizes := resolve_list_sessions_page_sizes
    (pe_var env "MACP_LIST_SESSIONS_DEFAULT_PAGE_SIZE")
    (pe_var env "MACP_LIST_SESSIONS_MAX_PAGE_SIZE") in
  raw ← raw_tokens env;
  identities ← match raw with Some json => parse_identities json | None => Ok ∅ end;
  let resolvers := jwt_resolvers env ++
    (if bool_decide (identities = ∅) then [] else [StaticBearer identities]) in
  Ok {|
    sl_identities := identities;
    sl_auth_chain := if is_empty resolvers then None else Some resolvers;
    sl_max_payload_bytes := number "MACP_MAX_PAYLOAD_BYTES" 1048576;
    sl_list_sessions_default_page_size := sizes.1;
    sl_list_sessions_max_page_size := sizes.2;
    sl_session_start_rate :=
      MkRateLimitConfig (number "MACP_SESSION_START_LIMIT_PER_MINUTE" 60) (from_secs 60);
    sl_message_rate :=
      MkRateLimitConfig (number "MACP_MESSAGE_LIMIT_PER_MINUTE" 600) (from_secs 60) |}.

Definition set_chain (chain : list AuthResolver) (self : SecurityLayer) : SecurityLayer :=
  MkSecurityLayer (sl_identities self) (Some chain) (sl_max_payload_bytes self)
    (sl_list_sessions_default_page_size self) (sl_list_sessions_max_page_size self)
    (sl_session_start_rate self) (sl_message_rate self).

(** ** Requests *)
Definition dev_identity (token : string) : AuthIdentity := {|
  ai_sender := token;
  ai_allowed_modes := None;
  ai_can_start_sessions := true;
  ai_max_open_sessions := None;
  ai_can_manage_mode_registry := true;
  ai_is_observer := false |}.
Definition dev_authenticate (metadata : MetadataMap) : result MacpError AuthIdentity :=
  match bearer_token metadata with
  | Some token => Ok (dev_identity token)
  | None => Err Unauthenticated
  end.

Definition authenticate_metadata (w : AuthWorld) (metadata : MetadataMap)
    : stm SecurityLayer MacpError AuthIdentity := λ self,
  match sl_auth_chain self with
  | Some chain =>
      let '(chain, out) := chain_authenticate w metadata chain in (set_chain chain self, out)
  | None =>
      if negb (bool_decide (sl_identities self = ∅)) then
        (self, match bearer_token metadata with
               | Some token => ok_or (sl_identities self !! token) Unauthenticated
               | None => Err Unauthenticated
               end)
      else (self, dev_authenticate metadata)
  end.

Definition authorize_mode (identity : AuthIdentity) (mode : string) (is_session_start : bool)
    : result MacpError unit :=
  if is_session_start && negb (ai_can_start_sessions identity) then Err Forbidden
  else
    match ai_allowed_modes identity with
    | Some allowed_modes => if negb (bool_decide (mode ∈ allowed_modes)) then Err Forbidden else Ok ()
    | None => Ok ()
    end.

Definition authorize_mode_registry (identity : AuthIdentity) : result MacpError unit :=
  if ai_can_manage_mode_registry identity then Ok () else Err Forbidden.

Definition has_configured_auth (self : SecurityLayer) : bool :=
  bool_decide (is_Some (sl_auth_chain self)).
Definition authenticates_senders (self : SecurityLayer) : bool :=
  bool_decide (is_Some (sl_auth_chain self)) || negb (bool_decide (sl_identities self = ∅)).

(** ** Who vouches for an identity *)

(** The configured resolvers: at most a JWT one, then at most a static one. *)
Definition configured (chain : list AuthResolver) (identities : gmap string AuthIdentity) : Prop :=
  ∃ jwt, (jwt = [] ∨ ∃ r, jwt = [JwtBearer r]) ∧
    chain = jwt ++ (if bool_decide (identities = ∅) then [] else [StaticBearer identities]).

(** A static token, or a JWT that verifies against the keys of the resolver. *)
Definition vouched_static (metadata : MetadataMap) (layer : SecurityLayer) (id : AuthIdentity)
    : Prop :=
  ∃ token, bearer_token metadata = Some token ∧ contains_dot token = false ∧
    sl_identities layer !! token = Some id.
Definition vouched_jwt (w : AuthWorld) (metadata : MetadataMap) (layer : SecurityLayer)
    (id : AuthIdentity) : Prop :=
  ∃ chain r token keys header key claims,
    sl_auth_chain layer = Some chain ∧ JwtBearer r ∈ chain ∧
    metadata "authorization" = Some ("Bearer " +:+ token) ∧ contains_dot token = true ∧
    (get_keys w r (jr_cached_keys r)).2 = Ok keys ∧
    decode_header token = Ok header ∧ jh_alg header ∈ jc_algorithms (jr_config r) ∧
    key ∈ keys.*2 ∧
    jwt_decode token key (MkValidation (jh_alg header) (jc_issuer (jr_config r))
      (jc_audience (jr_config r))) = Ok claims ∧
    id = from_resolved (identity_of claims).

Lemma from_env_configured env layer :
  from_env env = Ok layer → has_configured_auth layer = true →
  ∃ chain, sl_auth_chain layer = Some chain ∧ configured chain (sl_identities layer).
Proof.
  unfold from_env. intros E. apply bind_ok in E as (raw & _ & E).
  apply bind_ok in E as (ids & _ & [= <-]). unfold has_configured_auth. simpl.
  destruct (is_empty _); [done|]. intros _. eexists. split; [done|].
  exists (jwt_resolvers env). split; [|done]. unfold jwt_resolvers.
  repeat case_match; eauto.
Qed.

Lemma select_keys_sub kid keys key : key ∈ select_keys kid keys → key ∈ keys.*2.
Proof.
  unfold select_keys. destruct kid as [k|]; [|done]. destruct (existsb _ _); [|done].
  intros (x & -> & Hx)%list_elem_of_fmap. apply list_elem_of_In, filter_In in Hx as [Hx _].
  apply list_elem_of_fmap. exists x. split; [done|]. by apply list_elem_of_In.
Qed.

Lemma try_keys_ok token v keys last claims :
  try_keys token v keys last = Ok claims → ∃ key, key ∈ keys ∧ jwt_decode token key v = Ok claims.
Proof.
  revert last. induction keys as [|key keys IH]; intros last; simpl; [done|].
  destruct (jwt_decode token key v) as [c|e] eqn:E.
  - intros [= ->]. exists key. split; [by left|done].
  - intros (k & Hk & ?)%IH. exists k. split; [by right|done].
Qed.

Lemma verify_token_ok config token keys rid :
  verify_token config token keys = Ok rid → ∃ header key claims,
    decode_header token = Ok header ∧ jh_alg header ∈ jc_algorithms config ∧ key ∈ keys.*2 ∧
    jwt_decode token key (MkValidation (jh_alg header) (jc_issuer config) (jc_audience config))
      = Ok claims ∧ rid = identity_of claims.
Proof.
  unfold verify_token. destruct (decode_header token) as [header|]; [|done].
  destruct (bool_decide _) eqn:Ha; simpl; [|done]. bool_simp.
  destruct (try_keys _ _ _ _) as [claims|] eqn:E; [|done]. intros [= <-].
  apply try_keys_ok in E as (key & Hk & Hd). apply select_keys_sub in Hk.
  by exists header, key, claims.
Qed.

Lemma jwt_resolve_claims w metadata r r' rid :
  jwt_resolve w metadata r = (r', Ok (Some rid)) → ∃ token keys,
    jwt_bearer metadata = Some token ∧ contains_dot token = true ∧
    (get_keys w r (jr_cached_keys r)).2 = Ok keys ∧ verify_token (jr_config r) token keys = Ok rid.
Proof.
  unfold jwt_resolve. destruct (jwt_bearer metadata) as [token|]; [|done].
  destruct (contains_dot token) eqn:Hd; simpl; [|done].
  destruct (get_keys w r (jr_cached_keys r)) as [cache [keys|e]] eqn:E; [|done].
  intros [= _ Hv]. apply bind_ok in Hv as (rid' & Hv & [= ->]). by exists token, keys.
Qed.

(** An opaque token is not the JWT resolver's. *)
Lemma jwt_resolve_opaque w metadata r token :
  bearer_token metadata = Some token → contains_dot token = false →
  jwt_resolve w metadata r = (r, Ok None).
Proof.
  unfold bearer_token, jwt_resolve, jwt_bearer, or_else.
  destruct (metadata "authorization" ≫= _) as [t|]; [|done]. intros [= ->] ->. done.
Qed.

Lemma static_resolve_ok identities metadata rid :
  static_resolve identities metadata = Ok (Some rid) → ∃ token,
    bearer_token metadata = Some token ∧ contains_dot token = false ∧
    identities !! token = Some (from_resolved rid).
Proof.
  unfold static_resolve. destruct (bearer_token metadata) as [token|]; [|done].
  destruct (contains_dot token) eqn:Hd; [done|].
  destruct (identities !! token) as [id|] eqn:E; [|done]. intros [= <-].
  exists token. by destruct id.
Qed.

Lemma static_chain_ok w metadata identities chain id :
  chain_authenticate w metadata
    (if bool_decide (identities = ∅) then [] else [StaticBearer identities]) = (chain, Ok id) →
  ∃ token, bearer_token metadata = Some token ∧ contains_dot token = false ∧
    identities !! token = Some id.
Proof.
  destruct (bool_decide _); simpl; [done|].
  destruct (static_resolve identities metadata) as [[rid|]|e] eqn:E; [|done..].
  intros [= _ <-]. by apply static_resolve_ok.
Qed.

(** C27. Who may act. In a layer built from the environment with authentication
    configured, whatever the clock, the endpoint and concurrent requests do, an
    identity is granted only for a credential that vouches for it: an opaque
    token of the configured map, or a JWT whose algorithm is on the allowlist
    and that one of the resolver's keys verifies for the configured issuer and
    audience. An opaque token is decided by the map alone: the JWT resolver
    neither grants nor refuses it. *)
Theorem authentication_vouched env layer w metadata :
  from_env env = Ok layer → has_configured_auth layer = true →
  let out := (authenticate_metadata w metadata layer).2 in
  (∀ id, out = Ok id → vouched_static metadata layer id ∨ vouched_jwt w metadata layer id) ∧
  (∀ token, bearer_token metadata = Some token → contains_dot token = false →
     out = ok_or (sl_identities layer !! token) Unauthenticated).
Proof.
  intros He Hc. destruct (from_env_configured _ _ He Hc) as (chain & Hch & jwt & Hjwt & ->).
  unfold authenticate_metadata. rewrite Hch.
  set (static := if bool_decide (sl_identities layer = ∅) then [] else _).
  destruct (chain_authenticate w metadata (jwt ++ static)) as [chain' out] eqn:E. simpl. split.
  - intros id ->. destruct Hjwt as [->|[r ->]]; [left; by eapply static_chain_ok|].
    simpl in E. destruct (jwt_resolve w metadata r) as [r' [[rid|]|e]] eqn:Er; [| |done].
    + injection E as _ <-. right. unfold vouched_jwt.
      apply jwt_resolve_claims in Er as (token & keys & Hb & Hd & Hk & Hv).
      apply verify_token_ok in Hv as (header & key & claims & ? & ? & ? & ? & ->).
      exists ([JwtBearer r] ++ static), r, token, keys, header, key, claims.
      split_and!; try done; [by left|].
      unfold jwt_bearer in Hb. apply bind_Some in Hb as (v & Hv & Hs).
      apply strip_prefix_Some in Hs. by rewrite <- Hs.
    + destruct (chain_authenticate w metadata static) as [chain2 out2] eqn:E2.
      injection E as _ ->. left. by eapply static_chain_ok.
  - intros token Hb Hd.
    assert ((chain_authenticate w metadata static).2
      = ok_or (sl_identities layer !! token) Unauthenticated) as Hst.
    { unfold static. destruct (decide (sl_identities layer = ∅)) as [Hn|Hn].
      - rewrite bool_decide_true by done. by rewrite Hn, lookup_empty.
      - rewrite bool_decide_false by done. simpl. unfold static_resolve. rewrite Hb, Hd.
        by destruct (sl_identities layer !! token) as [[]|]. }
    destruct Hjwt as [->|[r ->]]; simpl in E; [by rewrite E in Hst|].
    rewrite (jwt_resolve_opaque w metadata r token Hb Hd) in E. simpl in E.
    destruct (chain_authenticate w metadata static). by injection E as _ <-.
Qed.

(** ** The key cache *)
Lemma fresh_keys_Some cache now ttl keys :
  fresh_keys cache now ttl = Some keys ↔
  ∃ c, cache = Some c ∧ keys = ck_keys c ∧ duration_since now (ck_fetched_at c) < ttl.
Proof.
  unfold fresh_keys. destruct cache as [c|]; [|naive_solver].
  destruct (_ <? _) eqn:E; [apply Z.ltb_lt in E|apply Z.ltb_ge in E]; [naive_solver|].
  split; [done|]. intros (c' & [= <-] & _ & ?). lia.
Qed.

(** The keys a JWT is checked against. From an inline set, they are that
    set. From an endpoint, they were fetched by this very call, which leaves
    them in the cache, or they are in the cache already: younger than the
    cache's lifetime, or past it by less than the grace, and then only because
    the endpoint failed. The call fails only when the endpoint does and nothing
    in the cache is that recent. *)
Theorem served_keys_fresh w r cache cache' out :
  get_keys w r cache = (cache', out) →
  match jr_jwks_source r, out with
  | JwksInline keys, Ok keys' =>
      keys' = keys ∨ ∃ c, cache = Some c ∧ keys' = ck_keys c
  | JwksInline _, Err _ => False
  | JwksUrl url, Ok keys =>
      (fetch_jwks w url = Ok keys ∧ cache' = Some (MkCachedKeys keys (aw_clock w 2))) ∨
      ∃ c n, cache' = Some c ∧ keys = ck_keys c ∧ (n ≤ 2)%nat ∧
        (duration_since (aw_clock w n) (ck_fetched_at c) < jr_cache_ttl r ∨
         duration_since (aw_clock w n) (ck_fetched_at c) < jr_cache_ttl r + STALE_GRACE ∧
         ∃ e, fetch_jwks w url = Err e)
  | JwksUrl url, Err e =>
      fetch_jwks w url = Err e ∧
      ∀ c, cache' = Some c →
        jr_cache_ttl r + STALE_GRACE ≤ duration_since (aw_clock w 2) (ck_fetched_at c)
  end.
Proof.
  unfold get_keys. intros E.
  destruct (fresh_keys cache (aw_clock w 0) (jr_cache_ttl r)) as [keys|] eqn:F0.
  { injection E as <- <-. apply fresh_keys_Some in F0 as (c & -> & -> & Hage).
    destruct (jr_jwks_source r); [right; by eauto|]. right. exists c, O. eauto with lia. }
  destruct (jr_jwks_source r) as [keys|url]; [injection E as <- <-; by left|].
  destruct (fresh_keys (aw_others w cache) (aw_clock w 1) _) as [keys|] eqn:F1.
  { injection E as <- <-. apply fresh_keys_Some in F1 as (c & -> & -> & Hage).
    right. exists c, 1%nat. eauto with lia. }
  destruct (fetch_jwks w url) as [keys|e] eqn:Ef; [injection E as <- <-; by left|].
  destruct (fresh_keys (aw_others w cache) (aw_clock w 2) _) as [keys|] eqn:F2;
    injection E as <- <-.
  - apply fresh_keys_Some in F2 as (c & -> & -> & Hage). right. exists c, 2%nat. eauto 8 with lia.
  - split; [done|]. intros c Hc. apply Z.nlt_ge. intros Hlt.
    assert (fresh_keys (aw_others w cache) (aw_clock w 2) (jr_cache_ttl r + STALE_GRACE)
      = Some (ck_keys c)) as F by (apply fresh_keys_Some; eauto). by rewrite F in F2.
Qed.

(** ** Configuration *)

(** The page sizes are positive, and the default one is within the cap. *)
Lemma page_sizes_bounded default_raw max_raw default_size max :
  resolve_list_sessions_page_sizes default_raw max_raw = (default_size, max) →
  0 < default_size ≤ max.
Proof.
  assert (∀ raw d, 0 < d → 0 < default d (positive_usize raw)) as Hpos.
  { intros raw d Hd. unfold positive_usize. destruct (raw ≫= parse_usize) as [v|]; [|done].
    destruct (0 <? v) eqn:E; simpl; [by apply Z.ltb_lt|done]. }
  unfold resolve_list_sessions_page_sizes. intros [= <- <-].
  pose proof (Hpos default_raw DEFAULT_LIST_SESSIONS_PAGE_SIZE ltac:(done)).
  pose proof (Hpos max_raw MAX_LIST_SESSIONS_PAGE_SIZE ltac:(done)).
  destruct (_ <? _) eqn:E; [apply Z.ltb_lt in E|apply Z.ltb_ge in E]; lia.
Qed.

(** An issuer whose inline keys are unusable leaves the layer without
    authentication: any bearer token is then a privileged identity. *)
Theorem issuer_without_keys_is_dev env layer issuer jwks e token w metadata :
  pe_var env "MACP_AUTH_ISSUER" = Some issuer → pe_var env "MACP_AUTH_JWKS_JSON" = Some jwks →
  from_inline_json (jwt_config env issuer) jwks (pe_now env) = Err e →
  pe_var env "MACP_AUTH_TOKENS_JSON" = None → pe_var env "MACP_AUTH_TOKENS_FILE" = None →
  from_env env = Ok layer → bearer_token metadata = Some token →
  has_configured_auth layer = false ∧
  (authenticate_metadata w metadata layer).2 = Ok (dev_identity token).
Proof.
  intros Hi Hj Hbad Ht Hf Hl Hb. unfold from_env, raw_tokens, jwt_resolvers in Hl.
  rewrite Ht, Hf, Hi, Hj, Hbad in Hl. simpl in Hl. injection Hl as <-.
  unfold has_configured_auth, authenticate_metadata, dev_authenticate. simpl. by rewrite Hb.
Qed.
End layer.

Module Demo.
(** Tokens [<alg>.<key>.<sender>], verified by the key of that name. *)
#[local] Instance jwt : Jsonwebtoken := {|
  DecodingKey := string;
  from_rsa_components n e := Some n;
  from_ec_components x y := Some x;
  from_base64_secret _ := None;
  from_secret k := k;
  decode_header token :=
    match split_on "."%char token with
    | ["rs256"; kid; _] => Ok (MkJwtHeader RS256 (Some kid))
    | ["hs256"; kid; _] => Ok (MkJwtHeader HS256 (Some kid))
    | _ => Err "malformed"
    end;
  jwt_decode token key v :=
    match split_on "."%char token with
    | [_; kid; sender] => if kid == key then Ok (MkMACPClaims sender None)
                          else Err (OtherKind "InvalidSignature")
    | _ => Err (OtherKind "InvalidToken")
    end |}.
#[local] Instance json : AuthJson := {|
  parse_raw_config _ := Ok (RawList [MkRawIdentity "tok-alice" "agent://alice" [] true None false false]);
  parse_json _ := Err "unused" |}.

Definition jwk (n : string) : Value :=
  VObject [("kty", VString "RSA"); ("kid", VString n); ("n", VString n); ("e", VString "AQAB")].
Definition env : ProcessEnv := {|
  pe_var name :=
    if name == "MACP_AUTH_ISSUER" then Some "https://issuer"
    else if name == "MACP_AUTH_JWKS_URL" then Some "https://issuer/jwks"
    else if name == "MACP_AUTH_TOKENS_JSON" then Some "tokens"
    else None;
  pe_read_to_string _ := Err "unused";
  pe_now := 0 |}.
Definition world : AuthWorld := {|
  aw_clock n := from_secs (400 + Z.of_nat n);
  aw_others c := c;
  aw_http _ := HttpJson (VObject [("keys", VArray [jwk "k1"])]) |}.
Definition layer : SecurityLayer := unwrap_or dev_mode (from_env env).
Definition bearer (token : string) : MetadataMap := λ name,
  if name == "authorization" then Some ("Bearer " +:+ token) else None.

(** One credential of each kind, and one refused for its algorithm. *)
Lemma authentication_vouched_witness :
  (authenticate_metadata world (bearer "tok-alice") layer).2
    = ok_or (sl_identities layer !! "tok-alice") Unauthenticated ∧
  (∃ id, (authenticate_metadata world (bearer "rs256.k1.bob") layer).2 = Ok id ∧
     ai_sender id = "bob" ∧ vouched_jwt world (bearer "rs256.k1.bob") layer id) ∧
  (authenticate_metadata world (bearer "hs256.k1.bob") layer).2 = Err Unauthenticated.
Proof.
  assert (from_env env = Ok layer) as He by (vm_compute; reflexivity).
  assert (has_configured_auth layer = true) as Hc by (vm_compute; reflexivity).
  split; [|split; [|vm_compute; reflexivity]].
  - apply (authentication_vouched env layer world (bearer "tok-alice") He Hc); reflexivity.
  - destruct (authentication_vouched env layer world (bearer "rs256.k1.bob") He Hc) as [Hv _].
    destruct ((authenticate_metadata world (bearer "rs256.k1.bob") layer).2) as [id|e] eqn:E;
      [|by vm_compute in E].
    exists id. split; [reflexivity|]. split; [by vm_compute in E; injection E as <-|].
    destruct (Hv id eq_refl) as [(token & Hb & Hd & _)|Hj]; [|exact Hj].
    exfalso. vm_compute in Hb. injection Hb as <-. vm_compute in Hd. discriminate Hd.
Defined.

(** The endpoint is down and the keys are 100 seconds past their lifetime. *)
Definition down : AuthWorld := {|
  aw_clock := aw_clock world; aw_others := aw_others world; aw_http _ := HttpSendFailed "refused" |}.
Definition resolver : JwtBearerResolver :=
  from_url (MkJwtConfig "https://issuer" "macp-runtime" [RS256]) "https://issuer/jwks" 300.
Definition old_keys : CachedKeys := MkCachedKeys [(Some "k0", "k0")] 0.

Lemma served_keys_fresh_witness :
  (get_keys down resolver (Some old_keys)).2 = Ok [(Some "k0", "k0")] ∧
  ∃ e, fetch_jwks down "https://issuer/jwks" = Err e.
Proof.
  split; [vm_compute; reflexivity|].
  assert (get_keys down resolver (Some old_keys) = (Some old_keys, Ok [(Some "k0", "k0")])) as Hg
    by (vm_compute; reflexivity).
  destruct (served_keys_fresh down resolver _ _ _ Hg)
    as [[Hf _]|(c & n & [= <-] & _ & Hn & [Hy|[_ Hf]])]; [by vm_compute in Hf| |exact Hf].
  exfalso. revert Hy. unfold duration_since, down, world, resolver, from_url, from_secs, old_keys.
  cbn [aw_clock ck_fetched_at jr_cache_ttl]. lia.
Defined.
End Demo.
