(* ===== verification/RateLimit.v ===== *)
(** * Rate limits (crates/macp-auth/src/security.rs)

    The per-sender buckets behind [enforce_rate_limit]: a queue of the accepted
    requests of each sender, trimmed at the front on each request and swept of
    idle senders every so often. On a clock that does not go back they decide
    exactly as a sliding-window count over the whole history would, so the sweep
    and the trimming never show, and no window holds more than the limit. *)

From stdpp Require Import prelude gmap strings sorting.
From S2P Require Import Prelude RustStr Floats Extern Error Auth.
Open Scope Z_scope.

Definition SWEEP_EVERY : Z := 128.

(** One of the two maps, with its sweep counter. *)
Record Bucket := MkBucket {
  bu_events : gmap string (list Z);
  bu_sweep_counter : Z;
}.
Definition empty_bucket : Bucket := MkBucket ∅ 0.

Record RateBucket := MkRateBucket {
  rb_start_events : Bucket;
  rb_message_events : Bucket;
}.

(** [retain]: the senders whose last request is within the window. *)
Definition active (now window : Z) (deque : list Z) : bool :=
  match last deque with
  | Some t => duration_since now t <=? window
  | None => false
  end.
Definition sweep (now window : Z) (events : gmap string (list Z)) : gmap string (list Z) :=
  filter (λ kv, active now window kv.2 = true) events.

(** The [while] loop that pops the front. *)
Fixpoint evict (now window : Z) (deque : list Z) : list Z :=
  match deque with
  | t :: rest => if duration_since now t >? window then evict now window rest else deque
  | [] => []
  end.

Definition check_bucket (sender : string) (config : RateLimitConfig) (now : Z)
    : stm Bucket MacpError unit := λ b,
  let tick := bu_sweep_counter b in
  let counter := u64_wrap (tick + 1) in
  let events :=
    if tick mod SWEEP_EVERY =? 0 then sweep now (rl_window config) (bu_events b)
    else bu_events b in
  let deque := evict now (rl_window config) (default [] (events !! sender)) in
  if len deque >=? rl_limit config then
    (MkBucket (<[sender := deque]> events) counter, Err RateLimited)
  else (MkBucket (<[sender := deque ++ [now]]> events) counter, Ok ()).

Definition enforce_rate_limit `{Jsonwebtoken} (layer : SecurityLayer) (sender : string)
    (is_session_start : bool) (now : Z) : stm RateBucket MacpError unit := λ rb,
  if is_session_start then
    let '(b, out) := check_bucket sender (sl_session_start_rate layer) now (rb_start_events rb) in
    (MkRateBucket b (rb_message_events rb), out)
  else
    let '(b, out) := check_bucket sender (sl_message_rate layer) now (rb_message_events rb) in
    (MkRateBucket (rb_start_events rb) b, out).

(** ** The specification: a count over the whole history *)

(** The accepted requests, oldest first. *)
Abbreviation History := (list (string * Z)).

Definition in_window (config : RateLimitConfig) (now t : Z) : bool := now - t <=? rl_window config.
Definition times_of (sender : string) (h : History) : list Z :=
  (List.filter (λ e, e.1 == sender) h).*2.
Definition spec_check (config : RateLimitConfig) (sender : string) (now : Z) (h : History)
    : History * result MacpError unit :=
  if len (List.filter (in_window config now) (times_of sender h)) <? rl_limit config
  then (h ++ [(sender, now)], Ok ())
  else (h, Err RateLimited).

(** A run of requests, and the answers. *)
Fixpoint run {S} (step : string → Z → S → S * result MacpError unit)
    (requests : list (string * Z)) (s : S) : S * list (result MacpError unit) :=
  match requests with
  | [] => (s, [])
  | (sender, now) :: requests =>
      let '(s, out) := step sender now s in
      let '(s, outs) := run step requests s in (s, out :: outs)
  end.

Section refinement.
Context (config : RateLimitConfig).

(** The queue of a sender is the history but for requests that have left the
    window for good. *)
Definition bucket_inv (b : Bucket) (h : History) (now : Z) : Prop :=
  StronglySorted Z.le h.*2 ∧ Forall (λ t, t ≤ now) h.*2 ∧
  ∀ sender, ∃ dropped, times_of sender h = dropped ++ default [] (bu_events b !! sender) ∧
    Forall (λ t, rl_window config < now - t) dropped.

Lemma times_of_app sender h1 h2 : times_of sender (h1 ++ h2) = times_of sender h1 ++ times_of sender h2.
Proof. unfold times_of. by rewrite List.filter_app, fmap_app. Qed.

Lemma times_of_sub sender h t : t ∈ times_of sender h → t ∈ h.*2.
Proof.
  unfold times_of. rewrite !list_elem_of_fmap. intros (e & -> & He). exists e. split; [done|].
  apply list_elem_of_In, filter_In in He as [He _]. by apply list_elem_of_In.
Qed.

Lemma times_of_sorted sender h : StronglySorted Z.le h.*2 → StronglySorted Z.le (times_of sender h).
Proof.
  intros Hs. unfold times_of. induction h as [|[s t] h IH]; simpl; [constructor|].
  apply StronglySorted_inv in Hs as [Hs Hall]. destruct (s == sender); simpl; [|by apply IH].
  constructor; [by apply IH|]. apply Forall_forall. intros x Hx. rewrite Forall_forall in Hall.
  by apply Hall, (times_of_sub sender).
Qed.

(** Trimming the front of a sorted queue leaves what is within the window. *)
Lemma evict_spec now deque :
  StronglySorted Z.le deque → Forall (λ t, t ≤ now) deque → ∃ dropped,
    deque = dropped ++ evict now (rl_window config) deque ∧
    Forall (λ t, rl_window config < now - t) dropped ∧
    Forall (λ t, in_window config now t = true) (evict now (rl_window config) deque).
Proof.
  intros Hs Hle. induction deque as [|t deque IH]; simpl; [by exists []|].
  apply StronglySorted_inv in Hs as [Hs Hall]. apply Forall_cons in Hle as [Ht Hle].
  unfold duration_since. rewrite Z.max_r by lia. destruct (_ >? _) eqn:E.
  - apply Z.gtb_lt in E. destruct (IH Hs Hle) as (dropped & Heq & Hd & Hw).
    exists (t :: dropped). split; [by rewrite Heq at 1|]. split; [by constructor|done].
  - rewrite Z.gtb_ltb in E. apply Z.ltb_ge in E. exists []. split; [done|]. split; [done|].
    unfold in_window. constructor; [by apply Z.leb_le|].
    eapply Forall_impl; [exact Hall|]. intros x Hx. apply Z.leb_le. lia.
Qed.

Lemma filter_stale now dropped rest :
  Forall (λ t, rl_window config < now - t) dropped →
  Forall (λ t, in_window config now t = true) rest →
  List.filter (in_window config now) (dropped ++ rest) = rest.
Proof.
  intros Hd Hr. rewrite List.filter_app. induction Hd as [|t dropped Ht _ IH]; simpl.
  - induction Hr as [|t rest Ht _ IH]; simpl; [done|]. rewrite Ht. by f_equal.
  - unfold in_window at 1. by rewrite (proj2 (Z.leb_gt _ _) Ht).
Qed.

Lemma stale_later now now' dropped :
  now ≤ now' → Forall (λ t, rl_window config < now - t) dropped →
  Forall (λ t, rl_window config < now' - t) dropped.
Proof. intros Hn Hd. eapply Forall_impl; [exact Hd|]. simpl. lia. Qed.

(** A queue that is swept away holds nothing that could still count. *)
Lemma inactive_stale now deque :
  StronglySorted Z.le deque → Forall (λ t, t ≤ now) deque → active now (rl_window config) deque = false →
  Forall (λ t, rl_window config < now - t) deque.
Proof.
  intros Hs Hle Ha. unfold active in Ha. destruct (last deque) as [t|] eqn:Hl.
  - apply last_Some in Hl as [l ->]. apply Z.leb_gt in Ha.
    apply Forall_app in Hle as [_ Ht%Forall_cons]. unfold duration_since in Ha.
    rewrite Z.max_r in Ha by (destruct Ht; lia).
    apply Forall_forall. intros x Hx. apply elem_of_app in Hx as [Hx| ->%list_elem_of_singleton]; [|done].
    pose proof (StronglySorted_app_1_elem_of _ _ _ x t Hs Hx ltac:(by left)). lia.
  - apply last_None in Hl as ->. done.
Qed.

Lemma sweep_lookup now events sender :
  default [] (sweep now (rl_window config) events !! sender)
  = let deque := default [] (events !! sender) in
    if active now (rl_window config) deque then deque else [].
Proof.
  unfold sweep. destruct (events !! sender) as [deque|] eqn:E; simpl.
  - destruct (active now (rl_window config) deque) eqn:Ha.
    + by rewrite (map_lookup_filter_Some_2 _ _ _ deque).
    + rewrite (proj2 (map_lookup_filter_None _ _ _)); [done|]. right. intros d ? Hd.
      simplify_eq. simpl in Hd. congruence.
  - rewrite (proj2 (map_lookup_filter_None _ _ _)); [done|by left].
Qed.

(** What remains of a sender's history once [now] is reached. *)
Definition remains (deque : list Z) (times : list Z) (now : Z) : Prop :=
  ∃ dropped, times = dropped ++ deque ∧ Forall (λ t, rl_window config < now - t) dropped.

Lemma remains_swept now events sender times :
  StronglySorted Z.le times → Forall (λ t, t ≤ now) times →
  remains (default [] (events !! sender)) times now →
  remains (default [] (sweep now (rl_window config) events !! sender)) times now.
Proof.
  intros Hs Hle (dropped & -> & Hd). rewrite sweep_lookup. simpl.
  set (deque := default [] (events !! sender)) in *.
  destruct (active now (rl_window config) deque) eqn:Ha; [by exists dropped|].
  exists (dropped ++ deque). split; [by rewrite app_nil_r|]. apply Forall_app. split; [done|].
  apply Forall_app in Hle as [_ Hle]. apply inactive_stale; [|done|done].
  by apply StronglySorted_app_1_r in Hs.
Qed.

Lemma times_of_bound sender h now :
  Forall (λ t, t ≤ now) h.*2 → Forall (λ t, t ≤ now) (times_of sender h).
Proof. rewrite !Forall_forall. intros Hh t Ht%times_of_sub. auto. Qed.

(** The queues after the sweep, if it is due. *)
Lemma swept_remains b h now now' s :
  bucket_inv b h now → now ≤ now' → Forall (λ t, t ≤ now') h.*2 →
  remains (default [] ((if bu_sweep_counter b mod SWEEP_EVERY =? 0
                        then sweep now' (rl_window config) (bu_events b)
                        else bu_events b) !! s)) (times_of s h) now'.
Proof.
  intros (Hs & _ & Hall) Hn Hle. destruct (Hall s) as (dropped & Heq & Hd%(stale_later now now' _ Hn)).
  destruct (_ =? 0); [|by exists dropped].
  apply remains_swept; [by apply times_of_sorted|by apply times_of_bound|by exists dropped].
Qed.

(** What the trimmed queue holds: the requests that count. *)
Lemma evict_remains deque times now :
  StronglySorted Z.le times → Forall (λ t, t ≤ now) times → remains deque times now →
  let trimmed := evict now (rl_window config) deque in
  remains trimmed times now ∧ List.filter (in_window config now) times = trimmed.
Proof.
  intros Hs Hle (dropped & -> & Hd). apply StronglySorted_app_1_r in Hs.
  apply Forall_app in Hle as [_ Hle].
  destruct (evict_spec now deque Hs Hle) as (stale & Heq & Hst & Hw). simpl.
  set (trimmed := evict now (rl_window config) deque) in *.
  assert (Forall (λ t, rl_window config < now - t) (dropped ++ stale)) as Hgone by by apply Forall_app.
  rewrite Heq, app_assoc. split; [by exists (dropped ++ stale)|by apply filter_stale].
Qed.

Lemma bucket_inv_put events sender deque h c now :
  StronglySorted Z.le h.*2 → Forall (λ t, t ≤ now) h.*2 →
  (∀ s, s ≠ sender → remains (default [] (events !! s)) (times_of s h) now) →
  remains deque (times_of sender h) now →
  bucket_inv (MkBucket (<[sender := deque]> events) c) h now.
Proof.
  intros Hs Hle Hother Hd. split_and!; [done..|]. intros s. simpl.
  destruct (decide (s = sender)) as [->|Hne]; [by rewrite lookup_insert_eq|].
  rewrite lookup_insert_ne by done. by apply Hother.
Qed.

Lemma times_of_snoc s sender now h :
  times_of s (h ++ [(sender, now)]) = times_of s h ++ (if decide (s = sender) then [now] else []).
Proof.
  rewrite times_of_app. f_equal. unfold times_of. simpl.
  destruct (decide (s = sender)) as [->|Hne]; [by rewrite bool_decide_true|].
  by rewrite bool_decide_false by congruence.
Qed.

(** One request: the same answer, and the queues still tell the history. *)
Lemma check_bucket_refines b h now now' sender :
  bucket_inv b h now → now ≤ now' →
  let '(b', out) := check_bucket sender config now' b in
  let '(h', out') := spec_check config sender now' h in
  out = out' ∧ bucket_inv b' h' now'.
Proof.
  intros Hinv Hn. pose proof Hinv as (Hs & Hle & _). unfold check_bucket, spec_check.
  assert (Forall (λ t, t ≤ now') h.*2) as Hle' by (eapply Forall_impl; [exact Hle|]; simpl; lia).
  pose proof (λ s, swept_remains b h now now' s Hinv Hn Hle') as Hev.
  set (events := if _ =? 0 then _ else _) in *.
  destruct (evict_remains _ _ now' (times_of_sorted sender h Hs) (times_of_bound sender h now' Hle')
    (Hev sender)) as [Hrem Hfil]. simpl in Hrem, Hfil. rewrite Hfil.
  set (deque := evict now' (rl_window config) _) in *.
  rewrite Z.geb_leb, Z.leb_antisym. destruct (len deque <? rl_limit config); simpl; (split; [done|]).
  - apply bucket_inv_put.
    + rewrite fmap_app. apply StronglySorted_app_2; [|done|repeat constructor].
      intros x1 x2 Hx1 ->%list_elem_of_singleton. rewrite Forall_forall in Hle'. auto.
    + rewrite fmap_app. apply Forall_app. split; [done|]. by constructor.
    + intros s Hne. rewrite times_of_snoc, decide_False by done. rewrite app_nil_r. apply Hev.
    + rewrite times_of_snoc, decide_True by done. destruct Hrem as (gone & -> & Hg).
      exists gone. by rewrite app_assoc.
  - by apply bucket_inv_put.
Qed.

Lemma run_refines requests : ∀ b h now,
  bucket_inv b h now → Forall (λ t, now ≤ t) requests.*2 → StronglySorted Z.le requests.*2 →
  (run (λ sender t, check_bucket sender config t) requests b).2
  = (run (spec_check config) requests h).2.
Proof.
  induction requests as [|[sender t] requests IH]; intros b h now Hinv Hnow Hs; simpl; [done|].
  simpl in Hnow, Hs. apply Forall_cons in Hnow as [Hnow _]. apply StronglySorted_inv in Hs as [Hs Hall].
  pose proof (check_bucket_refines b h now t sender Hinv Hnow) as Hstep.
  destruct (check_bucket sender config t b) as [b' out].
  destruct (spec_check config sender t h) as [h' out']. destruct Hstep as [-> Hinv'].
  pose proof (IH b' h' t Hinv' Hall Hs) as IHr.
  destruct (run _ requests b') as [? outs], (run _ requests h') as [? outs']. simpl in *. by subst.
Qed.

Lemma empty_bucket_inv now : bucket_inv empty_bucket [] now.
Proof.
  split_and!; [constructor|constructor|]. intros sender. exists []. split; [|constructor].
  simpl. by rewrite lookup_empty.
Qed.

Lemma run_empty requests :
  StronglySorted Z.le requests.*2 →
  (run (λ sender t, check_bucket sender config t) requests empty_bucket).2
  = (run (spec_check config) requests []).2.
Proof.
  destruct requests as [|[sender t] requests]; [done|]. intros Hs.
  apply (run_refines _ _ _ t); [apply empty_bucket_inv| |done]. simpl in *.
  apply StronglySorted_inv in Hs as [_ Hall]. by constructor.
Qed.

(** C28. The rate limiter is a sliding-window count. On any sequence of requests
    whose clock readings do not go back, by any senders, the answers are those of
    the count over the whole history of accepted requests: accepted when fewer
    than the limit of the sender's accepted requests are within the window. What
    the queues have dropped, at their front or by a sweep of idle senders, never
    changes an answer, and no sender's requests count against another's. *)
Theorem rate_limit_refines requests :
  StronglySorted Z.le requests.*2 →
  (run (λ sender t, check_bucket sender config t) requests empty_bucket).2
  = (run (spec_check config) requests []).2.
Proof. apply run_empty. Qed.

(** ** At most the limit in any window *)
Fixpoint granted (requests : list (string * Z)) (outs : list (result MacpError unit)) : History :=
  match requests, outs with
  | r :: requests, out :: outs =>
      if is_ok out then r :: granted requests outs else granted requests outs
  | _, _ => []
  end.

Lemma run_granted requests : ∀ h,
  (run (spec_check config) requests h).1
  = h ++ granted requests (run (spec_check config) requests h).2.
Proof.
  induction requests as [|[sender t] requests IH]; intros h; simpl; [by rewrite app_nil_r|].
  unfold spec_check at 1 3. destruct (_ <? _).
  - specialize (IH (h ++ [(sender, t)])). destruct (run _ requests _) as [h' outs]. simpl in *.
    by rewrite IH, <- app_assoc.
  - specialize (IH h). destruct (run _ requests _) as [h' outs]. by simpl in *.
Qed.

Definition window_count (sender : string) (t0 : Z) (h : History) : Z :=
  len (List.filter (λ t, (t0 <=? t) && (t <=? t0 + rl_window config)) (times_of sender h)).

Lemma filter_len_le {A} (f g : A → bool) l :
  (∀ x, f x = true → g x = true) → len (List.filter f l) ≤ len (List.filter g l).
Proof.
  intros Hfg. unfold len. induction l as [|x l IH]; simpl; [done|]. specialize (Hfg x).
  destruct (f x), (g x); simpl; lia.
Qed.

Lemma spec_check_window sender t h :
  (∀ s t0, window_count s t0 h ≤ rl_limit config) →
  ∀ s t0, window_count s t0 (spec_check config sender t h).1 ≤ rl_limit config.
Proof.
  intros Hh s t0. unfold spec_check. destruct (_ <? _) eqn:E; [|done]. apply Z.ltb_lt in E.
  unfold window_count. simpl. rewrite times_of_snoc. destruct (decide (s = sender)) as [->|];
    [|rewrite app_nil_r; apply Hh].
  rewrite List.filter_app, len_app. simpl.
  destruct ((t0 <=? t) && (t <=? t0 + rl_window config)) eqn:Ht;
    [|specialize (Hh sender t0); unfold window_count in Hh; unfold len at 2; simpl; lia].
  apply andb_true_iff in Ht as [Ht0 Ht1]. apply Z.leb_le in Ht0, Ht1.
  assert (len (List.filter (λ t, (t0 <=? t) && (t <=? t0 + rl_window config)) (times_of sender h))
    ≤ len (List.filter (in_window config t) (times_of sender h))).
  { apply filter_len_le. intros x Hx. apply andb_true_iff in Hx as [Hx _]. apply Z.leb_le in Hx.
    apply Z.leb_le. lia. }
  unfold len at 2. simpl. lia.
Qed.

(** No burst passes: among the requests the limiter accepts, on a clock that
    does not go back, no window of the configured length holds more than the
    limit of one sender's, wherever the window starts. *)
Theorem rate_limit_window requests sender t0 :
  0 ≤ rl_limit config → StronglySorted Z.le requests.*2 →
  let outs := (run (λ s t, check_bucket s config t) requests empty_bucket).2 in
  window_count sender t0 (granted requests outs) ≤ rl_limit config.
Proof.
  intros Hl Hs. simpl. rewrite run_empty by done.
  pose proof (run_granted requests []) as Hg. rewrite app_nil_l in Hg. rewrite <- Hg. clear Hg.
  assert (∀ s t0, window_count s t0 [] ≤ rl_limit config) as Hw by (intros; apply Hl).
  revert sender t0 Hw. clear Hs. generalize (@nil (string * Z)) as h.
  induction requests as [|[s t] requests IH]; intros h sender t0 Hw; simpl; [apply Hw|].
  pose proof (spec_check_window s t h Hw) as Hw'.
  destruct (spec_check config s t h) as [h' out]. specialize (IH h' sender t0 Hw').
  by destruct (run _ requests h').
Qed.
End refinement.

Module Demo.
(** Two requests per ten ticks. *)
Definition config : RateLimitConfig := MkRateLimitConfig 2 10.
Definition requests : list (string * Z) :=
  [("alice", 0); ("alice", 3); ("bob", 3); ("alice", 9); ("alice", 10); ("alice", 11); ("alice", 12);
   ("alice", 14)].
Definition answers : list (result MacpError unit) :=
  (run (λ sender t, check_bucket sender config t) requests empty_bucket).2.

Lemma requests_ordered : StronglySorted Z.le requests.*2.
Proof. simpl. repeat first [lia|constructor]. Qed.

Lemma rate_limit_refines_witness :
  answers = [Ok (); Ok (); Ok (); Err RateLimited; Err RateLimited; Ok (); Err RateLimited; Ok ()] ∧
  answers = (run (spec_check config) requests []).2.
Proof.
  split; [vm_compute; reflexivity|]. exact (rate_limit_refines config requests requests_ordered).
Defined.

Lemma rate_limit_window_witness :
  window_count config "alice" 3 (granted requests answers) ≤ 2.
Proof.
  exact (rate_limit_window config requests "alice" 3 ltac:(simpl; lia) requests_ordered).
Defined.
End Demo.
