(* ===== verification/Base64.v ===== *)
(** * Base64 (the base64 crate, as src/pagination.rs and the receipts use it)

    The two engines the code uses are parameters; their laws are what the crate
    documents. The URL-safe one is also written out, so that what is proved from
    the laws can be evaluated. *)

From stdpp Require Import prelude gmap strings.
From S2P Require Import Prelude RustStr Floats Extern Wire CommitmentHash.
Open Scope Z_scope.

(** The base64 crate's unpadded URL-safe engine. *)
Class Base64Url := {
  b64_encode : bytes → string;
  b64_decode : string → option bytes;
}.
Definition is_url_char (c : Ascii.ascii) : bool :=
  is_ascii_alphanumeric c || (byte_of c =? 45) || (byte_of c =? 95).
Class Base64UrlLaws `{Base64Url} : Prop := {
  b64_roundtrip b : b64_decode (b64_encode b) = Some b;
  b64_length b : str_len (b64_encode b) = (4 * len b + 2) / 3;
  b64_alphabet b : str_all is_url_char (b64_encode b) = true;
}.

(** ... and its padded standard engine. *)
Class Base64Std := {
  std_encode : bytes → string;
  std_decode : string → option bytes;
}.
Class Base64StdLaws `{Base64Std} : Prop :=
  std_roundtrip b : std_decode (std_encode b) = Some b.

Definition between (lo hi b : Z) : bool := (lo <=? b) && (b <=? hi).

Lemma bytes_of_app s t : bytes_of (s +:+ t) = bytes_of s ++ bytes_of t.
Proof.
  unfold bytes_of, String.list_byte_of_string. rewrite <- map_app. f_equal.
  induction s as [|c s IH]; [done|]. rewrite str_app_cons. simpl. by rewrite IH.
Qed.
Lemma len_bytes_of s : len (bytes_of s) = str_len s.
Proof.
  unfold bytes_of, String.list_byte_of_string, len, str_len. rewrite length_map. f_equal.
  induction s as [|c s IH]; simpl; [done|]. by rewrite IH.
Qed.

(** ** The URL-safe engine *)
Module UrlSafe.
(** The URL-safe alphabet. *)
Definition digit (d : Z) : Ascii.ascii :=
  Ascii.ascii_of_N (Z.to_N (
    if d <? 26 then 65 + d else if d <? 52 then 71 + d else if d <? 62 then d - 4
    else if d =? 62 then 45 else 95)).
Definition undigit (c : Ascii.ascii) : option Z :=
  let b := byte_of c in
  if between 65 90 b then Some (b - 65) else if between 97 122 b then Some (b - 71)
  else if between 48 57 b then Some (b + 4) else if b =? 45 then Some 62
  else if b =? 95 then Some 63 else None.

Fixpoint encode_octets (l : list Z) : list Z :=
  match l with
  | a :: b :: c :: l =>
      a / 4 :: (a mod 4) * 16 + b / 16 :: (b mod 16) * 4 + c / 64 :: c mod 64 :: encode_octets l
  | [a; b] => [a / 4; (a mod 4) * 16 + b / 16; (b mod 16) * 4]
  | [a] => [a / 4; (a mod 4) * 16]
  | [] => []
  end.
Fixpoint decode_sextets (l : list Z) : list Z :=
  match l with
  | p :: q :: r :: s :: l =>
      p * 4 + q / 16 :: (q mod 16) * 16 + r / 4 :: (r mod 4) * 64 + s :: decode_sextets l
  | [p; q; r] => [p * 4 + q / 16; (q mod 16) * 16 + r / 4]
  | [p; q] => [p * 4 + q / 16]
  | _ => []
  end.

Lemma three_ind {A} (P : list A → Prop) :
  P [] → (∀ a, P [a]) → (∀ a b, P [a; b]) → (∀ a b c l, P l → P (a :: b :: c :: l)) → ∀ l, P l.
Proof.
  intros H0 H1 H2 H3. assert (∀ l, P l ∧ (∀ a, P (a :: l)) ∧ ∀ a b, P (a :: b :: l)) as Hl;
    [|intros l; apply Hl].
  induction l as [|x l (IH0 & IH1 & IH2)]; [by auto|]. split_and!; auto.
Qed.

Definition octet (z : Z) : Prop := 0 ≤ z < 256.
Lemma decode_encode l : Forall octet l → decode_sextets (encode_octets l) = l.
Proof.
  unfold octet. induction l as [|a|a b|a b c l IH] using three_ind; rewrite ?Forall_cons; simpl.
  - done.
  - intros [Ha _]. f_equal. Z.div_mod_to_equations. lia.
  - intros (Ha & Hb & _). repeat f_equal; Z.div_mod_to_equations; lia.
  - intros (Ha & Hb & Hc & Hl). rewrite IH by done. repeat f_equal; Z.div_mod_to_equations; lia.
Qed.
Lemma encode_sextets l : Forall octet l → Forall (λ d, 0 ≤ d < 64) (encode_octets l).
Proof.
  unfold octet. induction l as [|a|a b|a b c l IH] using three_ind; rewrite ?Forall_cons; simpl;
    intros Hl; repeat constructor; try (Z.div_mod_to_equations; lia). by apply IH, Hl.
Qed.
Lemma length_encode l : len (encode_octets l) = (4 * len l + 2) / 3.
Proof.
  induction l as [|a|a b|a b c l IH] using three_ind; try done.
  cbn [encode_octets]. rewrite !len_cons, IH. pose proof (len_nonneg l).
  replace (4 * (1 + (1 + (1 + len l))) + 2) with ((4 * len l + 2) + 4 * 3) by lia.
  rewrite Z.div_add by lia. lia.
Qed.

Lemma undigit_digit d : 0 ≤ d < 64 → undigit (digit d) = Some d.
Proof.
  intros Hd. assert (Forall (λ d, undigit (digit d) = Some d) (seqZ 0 64)) as Hall
    by (apply (bool_decide_unpack _); vm_compute; exact I).
  rewrite Forall_forall in Hall. apply Hall, elem_of_seqZ. lia.
Qed.

Lemma digit_url d : 0 ≤ d < 64 → is_url_char (digit d) = true.
Proof.
  intros Hd. assert (Forall (λ d, is_url_char (digit d) = true) (seqZ 0 64)) as Hall
    by (apply (bool_decide_unpack _); vm_compute; exact I).
  rewrite Forall_forall in Hall. apply Hall, elem_of_seqZ. lia.
Qed.

Definition octets (b : bytes) : list Z := byte_val <$> b.
Lemma octets_bytes b : byte_of_Z <$> octets b = b.
Proof.
  unfold octets. rewrite <- list_fmap_compose. transitivity (id <$> b); [|apply list_fmap_id].
  apply list_fmap_ext. intros _ x _. unfold compose, byte_of_Z, byte_val.
  rewrite N2Z.id. by rewrite Byte.of_to_N.
Qed.
Lemma octets_bound b : Forall octet (octets b).
Proof.
  apply Forall_fmap, Forall_forall. intros x _. unfold compose, octet, byte_val.
  pose proof (Byte.to_N_bounded x). lia.
Qed.

#[local] Instance engine : Base64Url := {|
  b64_encode b := String.string_of_list_ascii (digit <$> encode_octets (octets b));
  b64_decode s := (λ l, byte_of_Z <$> decode_sextets l)
    <$> mapM undigit (String.list_ascii_of_string s) |}.

#[local] Instance engine_laws : Base64UrlLaws.
Proof.
  split.
  - intros b. simpl. rewrite String.list_ascii_of_string_of_list_ascii.
    assert (∀ l, Forall (λ d, 0 ≤ d < 64) l → mapM undigit (digit <$> l) = Some l) as Hm.
    { intros l Hl. apply mapM_Some, Forall2_fmap_l, Forall_Forall2_diag.
      eapply Forall_impl; [exact Hl|]. apply undigit_digit. }
    rewrite Hm by apply encode_sextets, octets_bound. simpl.
    by rewrite decode_encode, octets_bytes by apply octets_bound.
  - intros b. simpl. unfold str_len. replace (len b) with (len (octets b))
      by (unfold len, octets; by rewrite length_fmap).
    rewrite <- length_encode. unfold len. f_equal. rewrite <- (length_fmap digit).
    generalize (digit <$> encode_octets (octets b)). intros l.
    induction l as [|c l IH]; simpl; [done|]. by rewrite IH.
  - intros b. simpl. assert (∀ l, Forall (λ d, 0 ≤ d < 64) l →
      str_all is_url_char (String.string_of_list_ascii (digit <$> l)) = true) as Hd.
    { induction 1 as [|d l Hd _ IH]; simpl; [done|]. by rewrite digit_url. }
    apply Hd, encode_sextets, octets_bound.
Qed.

End UrlSafe.
