(* ===== verification/Pagination.v ===== *)
(** * Listing sessions (src/pagination.rs, src/server.rs, crates/macp-storage/src/registry.rs)

    The page tokens of ListSessions, the keyset scan of the registry behind a
    bounded heap, and the handler. A token reads back as the cursor it was made
    of, the scan is the start of the sorted keys past the cursor, and following
    the tokens visits every session that stays, once and in order, and ends,
    whatever else comes and goes meanwhile. *)

From stdpp Require Import prelude gmap strings sorting.
From S2P Require Import Prelude RustStr Floats Extern Error Policy Wire SessionData Session.
From S2P Require Import SessionStart CommitmentHash Base64 Auth.
Open Scope Z_scope.

(** ** Strings and bytes *)

(** [str::from_utf8] accepts: the well-formed sequences of the Unicode table. *)
Fixpoint utf8_valid (l : list Z) : bool :=
  match l with
  | [] => true
  | b :: l =>
      if b <? 0x80 then utf8_valid l
      else if between 0xC2 0xDF b then
        match l with c1 :: l => between 0x80 0xBF c1 && utf8_valid l | [] => false end
      else if between 0xE0 0xEF b then
        match l with
        | c1 :: c2 :: l =>
            between (if b =? 0xE0 then 0xA0 else 0x80) (if b =? 0xED then 0x9F else 0xBF) c1
            && between 0x80 0xBF c2 && utf8_valid l
        | _ => false
        end
      else if between 0xF0 0xF4 b then
        match l with
        | c1 :: c2 :: c3 :: l =>
            between (if b =? 0xF0 then 0x90 else 0x80) (if b =? 0xF4 then 0x8F else 0xBF) c1
            && between 0x80 0xBF c2 && between 0x80 0xBF c3 && utf8_valid l
        | _ => false
        end
      else false
  end.
Definition is_utf8 (s : string) : bool := utf8_valid (byte_val <$> bytes_of s).

(** [String::from_utf8]. *)
Definition from_utf8 (b : bytes) : option string :=
  if utf8_valid (byte_val <$> b) then Some (String.string_of_list_byte b) else None.

(** ** Page tokens *)
Definition TOKEN_VERSION_PREFIX : string := "v1:".
Definition MAX_PAGE_TOKEN_CHARS : Z := 1024.

Inductive PageTokenError := TooLong | NotBase64 | NotUtf8 | WrongVersion | EmptyCursor.

Section tokens.
Context `{Base64Url}.

Definition encode_page_token (session_id : string) : string :=
  b64_encode (bytes_of (TOKEN_VERSION_PREFIX +:+ session_id)).

Definition decode_page_token (token : string) : result PageTokenError string :=
  if str_len token >? MAX_PAGE_TOKEN_CHARS then Err TooLong
  else
    bytes ← ok_or (b64_decode token) NotBase64;
    plaintext ← ok_or (from_utf8 bytes) NotUtf8;
    cursor ← ok_or (strip_prefix TOKEN_VERSION_PREFIX plaintext) WrongVersion;
    if str_is_empty cursor then Err EmptyCursor else Ok cursor.

Context `{!Base64UrlLaws}.

Lemma encode_length id : str_len (encode_page_token id) = (4 * (3 + str_len id) + 2) / 3.
Proof. unfold encode_page_token. by rewrite b64_length, len_bytes_of, str_len_app. Qed.

Lemma page_token_decodes id :
  is_utf8 id = true → id ≠ "" →
  decode_page_token (encode_page_token id) = if str_len id <=? 765 then Ok id else Err TooLong.
Proof.
  intros Hu Hne. unfold decode_page_token. rewrite encode_length.
  unfold MAX_PAGE_TOKEN_CHARS. rewrite Z.gtb_ltb.
  assert (1024 <? (4 * (3 + str_len id) + 2) / 3 = negb (str_len id <=? 765)) as ->.
  { destruct (str_len id <=? 765) eqn:E; simpl; [apply Z.leb_le in E|apply Z.leb_gt in E].
    - apply Z.ltb_ge. apply Z.lt_succ_r, Z.div_lt_upper_bound; lia.
    - apply Z.ltb_lt. apply Z.lt_le_trans with 1025; [lia|]. apply Z.div_le_lower_bound; lia. }
  destruct (str_len id <=? 765); [|done]. cbn [negb].
  unfold encode_page_token. rewrite b64_roundtrip. cbn [ok_or mbind result_bind].
  unfold from_utf8. rewrite bytes_of_app, fmap_app.
  assert (utf8_valid ((byte_val <$> bytes_of TOKEN_VERSION_PREFIX) ++ (byte_val <$> bytes_of id))
    = true) as -> by exact Hu.
  rewrite <- bytes_of_app. unfold bytes_of. rewrite String.string_of_list_byte_of_string. cbn [ok_or mbind result_bind].
  rewrite strip_prefix_app. cbn [ok_or mbind result_bind]. unfold str_is_empty. by rewrite bool_decide_false.
Qed.

(** Page tokens round-trip: the token of a session id decodes to that id, up
    to the 765 bytes a token has room for; a longer one is refused as too long,
    and nothing is decoded as another cursor. *)
Theorem page_token_roundtrip id :
  is_utf8 id = true → id ≠ "" →
  decode_page_token (encode_page_token id) = if str_len id <=? 765 then Ok id else Err TooLong.
Proof. apply page_token_decodes. Qed.
End tokens.

(** ** The keyset scan *)
(** A [BinaryHeap], as the ascending list of its elements: [push] puts an
    element in place, [pop] takes the greatest, [into_sorted_vec] is the list. *)
Fixpoint heap_push (x : string) (heap : list string) : list string :=
  match heap with
  | [] => [x]
  | y :: heap => if String.leb x y then x :: y :: heap else y :: heap_push x heap
  end.
Definition heap_pop (heap : list string) : list string := removelast heap.

Definition past (after : option string) (key : string) : bool :=
  match after with Some a => str_lt a key | None => true end.

(** The loop over [guard.keys()], which come in any order. *)
Fixpoint scan_keys (after : option string) (limit : Z) (keys : list string) (heap : list string)
    : list string :=
  match keys with
  | [] => heap
  | key :: keys =>
      let heap :=
        if past after key then
          let heap := heap_push key heap in
          if len heap >? limit then heap_pop heap else heap
        else heap in
      scan_keys after limit keys heap
  end.

Definition session_ids_after (keys : list string) (after : option string) (limit : Z)
    : list string :=
  if limit =? 0 then [] else scan_keys after limit keys [].

(** ** The handler *)
Record ParticipantActivity := MkParticipantActivity {
  pa_participant_id : string;
  pa_last_message_at_unix_ms : Z;
  pa_message_count : Z;
}.
Record SessionMetadata := MkSessionMetadata {
  sm_session_id : string;
  sm_mode : string;
  sm_state : SessionState;
  sm_started_at_unix_ms : Z;
  sm_expires_at_unix_ms : Z;
  sm_mode_version : string;
  sm_configuration_version : string;
  sm_policy_version : string;
  sm_participants : list string;
  sm_participant_activity : list ParticipantActivity;
  sm_initiator : string;
  sm_context_id : string;
  sm_extension_keys : list string;
}.

(** [session_to_metadata]; the maps list their entries in an order of their own. *)
Definition session_to_metadata (session : Session) : SessionMetadata := {|
  sm_session_id := ss_session_id session;
  sm_mode := ss_mode session;
  sm_state := ss_state session;
  sm_started_at_unix_ms := ss_started_at_unix_ms session;
  sm_expires_at_unix_ms := ss_ttl_expiry session;
  sm_mode_version := ss_mode_version session;
  sm_configuration_version := ss_configuration_version session;
  sm_policy_version := ss_policy_version session;
  sm_participants := ss_participants session;
  sm_participant_activity :=
    (λ pc : string * Z, MkParticipantActivity pc.1
       (default 0 (ss_participant_last_seen session !! pc.1)) pc.2)
    <$> map_to_list (ss_participant_message_counts session);
  sm_initiator := ss_initiator_sender session;
  sm_context_id := ss_context_id session;
  sm_extension_keys := (map_to_list (ss_extensions session)).*1 |}.

Record ListSessionsRequest := MkListSessionsRequest {
  ls_page_size : Z;
  ls_page_token : string;
}.
Record ListSessionsResponse := MkListSessionsResponse {
  ls_sessions : list SessionMetadata;
  ls_next_page_token : string;
}.

(** A gRPC status: the error it is coded from, and its message. *)
Definition Status : Type := MacpError * text.

Definition usize_saturating_add (a b : Z) : Z := Z.min u64_max (a + b).

Section handler.
Context `{Base64Url}.

Definition effective_page_size (default_size max_size page_size : Z) : Z :=
  Z.max 1 (if page_size =? 0 then default_size else Z.min page_size max_size).

Definition page_cursor (page_token : string) : result Status (option string) :=
  if str_is_empty page_token then Ok None
  else
    match decode_page_token page_token with
    | Ok cursor => Ok (Some cursor)
    | Err _ => Err (InvalidRequest,
        [Lit "INVALID_ARGUMENT: page_token is not a valid continuation token"])
    end.

(** [keys] is the registry at the scan, [get_session] at the later fetches. *)
Definition list_sessions (identity : result Status AuthIdentity) (default_size max_size : Z)
    (keys : list string) (get_session : string → option Session) (req : ListSessionsRequest)
    : result Status ListSessionsResponse :=
  _ ← identity;
  if ls_page_size req <? 0 then
    Err (InvalidRequest, [Lit "INVALID_ARGUMENT: page_size must not be negative"])
  else
    let effective := effective_page_size default_size max_size (ls_page_size req) in
    cursor ← page_cursor (ls_page_token req);
    let ids := session_ids_after keys cursor (usize_saturating_add effective 1) in
    let has_more := len ids >? effective in
    let page_ids := firstn (Z.to_nat (Z.min effective (len ids))) ids in
    let next_page_token :=
      match has_more, last page_ids with
      | true, Some last_id => encode_page_token last_id
      | _, _ => ""
      end in
    Ok (MkListSessionsResponse (omap (λ id, session_to_metadata <$> get_session id) page_ids)
          next_page_token).
End handler.

(** ** The scan is a prefix of the sorted keys *)
#[export] Instance str_leb_total : Total (λ a b, String.leb a b = true).
Proof. intros a b. apply String.leb_total. Qed.

Lemma length_heap_push x heap : length (heap_push x heap) = S (length heap).
Proof. induction heap as [|y heap IH]; simpl; [done|]. destruct (String.leb x y); simpl; lia. Qed.

(** Only the [k] smallest matter for the [k] smallest. *)
Lemma firstn_heap_push k x heap :
  firstn k (heap_push x (firstn k heap)) = firstn k (heap_push x heap).
Proof.
  revert k. induction heap as [|y heap IH]; intros [|k]; simpl; [done..|].
  destruct (String.leb x y); simpl; f_equal; [|apply IH].
  destruct k as [|k]; simpl; [done|]. by rewrite firstn_firstn, Nat.min_l by lia.
Qed.

Definition sort_keys (keys : list string) : list string := foldl (λ l x, heap_push x l) [] keys.

Lemma scan_keys_spec after limit keys : ∀ sorted, 0 ≤ limit →
  scan_keys after limit keys (firstn (Z.to_nat limit) sorted)
  = firstn (Z.to_nat limit) (foldl (λ l x, heap_push x l) sorted (List.filter (past after) keys)).
Proof.
  induction keys as [|key keys IH]; intros sorted Hl; simpl; [done|].
  destruct (past after key); simpl; [|by apply IH]. rewrite <- IH by done. f_equal.
  rewrite <- firstn_heap_push. set (heap := firstn (Z.to_nat limit) sorted).
  assert (length heap ≤ Z.to_nat limit)%nat as Hlen by (unfold heap; rewrite length_firstn; lia).
  rewrite Z.gtb_ltb. unfold len. rewrite length_heap_push. destruct (_ <? _) eqn:E.
  - apply Z.ltb_lt in E. unfold heap_pop. rewrite removelast_firstn_len, length_heap_push. f_equal. lia.
  - apply Z.ltb_ge in E. rewrite firstn_all2; [done|]. rewrite length_heap_push. lia.
Qed.

Lemma heap_push_perm x heap : heap_push x heap ≡ₚ x :: heap.
Proof.
  induction heap as [|y heap IH]; simpl; [done|]. destruct (String.leb x y); [done|].
  rewrite IH. apply Permutation_swap.
Qed.
Lemma foldl_push_perm keys : ∀ heap, foldl (λ l x, heap_push x l) heap keys ≡ₚ keys ++ heap.
Proof.
  induction keys as [|k keys IH]; intros heap; simpl; [done|]. rewrite IH, heap_push_perm.
  by rewrite Permutation_middle.
Qed.

Lemma heap_push_ordered x heap :
  StronglySorted key_lt heap → x ∉ heap → StronglySorted key_lt (heap_push x heap).
Proof.
  induction heap as [|y heap IH]; intros Hs Hx; simpl; [repeat constructor|].
  pose proof Hs as [Hs' Hall]%StronglySorted_inv.
  assert (x ≠ y ∧ x ∉ heap) as [Hne Hx'] by set_solver.
  destruct (String.leb x y) eqn:E.
  - assert (key_lt x y) as Hxy by (by apply key_lt_le). constructor; [done|].
    constructor; [done|]. eapply Forall_impl; [exact Hall|]. intros z. by apply key_lt_trans.
  - constructor; [by apply IH|]. rewrite heap_push_perm. constructor; [|done].
    unfold key_lt, str_lt. by rewrite E.
Qed.
Lemma sort_keys_ordered keys : NoDup keys → StronglySorted key_lt (sort_keys keys).
Proof.
  unfold sort_keys. assert (∀ heap, StronglySorted key_lt heap → NoDup (keys ++ heap) →
    StronglySorted key_lt (foldl (λ l x, heap_push x l) heap keys)) as Hg.
  { induction keys as [|k keys IH]; intros heap Hs Hn; simpl; [done|].
    simpl in Hn. apply NoDup_cons in Hn as [Hk Hn]. apply IH.
    - apply heap_push_ordered; set_solver.
    - rewrite heap_push_perm, <- Permutation_middle. by constructor. }
  intros Hn. apply Hg; [constructor|by rewrite app_nil_r].
Qed.

(** The scan: the start of the sorted keys past the cursor. *)
Lemma session_ids_after_spec keys after limit :
  0 ≤ limit →
  session_ids_after keys after limit
  = firstn (Z.to_nat limit) (sort_keys (List.filter (past after) keys)).
Proof.
  intros Hl. unfold session_ids_after. destruct (limit =? 0) eqn:E.
  - apply Z.eqb_eq in E as ->. done.
  - pose proof (scan_keys_spec after limit keys [] Hl) as Hs. by rewrite firstn_nil in Hs.
Qed.

Lemma elem_of_lfilter {A} (f : A → bool) l x : x ∈ List.filter f l ↔ x ∈ l ∧ f x = true.
Proof. by rewrite !list_elem_of_In, filter_In. Qed.

Lemma elem_of_scan keys after k :
  k ∈ sort_keys (List.filter (past after) keys) ↔ k ∈ keys ∧ past after k = true.
Proof.
  unfold sort_keys. rewrite foldl_push_perm, app_nil_r. apply elem_of_lfilter.
Qed.
Lemma scan_ordered keys after :
  NoDup keys → StronglySorted key_lt (sort_keys (List.filter (past after) keys)).
Proof. intros Hn. apply sort_keys_ordered. by apply NoDup_ListNoDup, List.NoDup_filter, NoDup_ListNoDup. Qed.

Lemma ordered_unique l1 l2 :
  StronglySorted key_lt l1 → StronglySorted key_lt l2 → (∀ x, x ∈ l1 ↔ x ∈ l2) → l1 = l2.
Proof.
  revert l2. induction l1 as [|x l1 IH]; intros [|y l2] H1 H2 Heq.
  - done.
  - exfalso. by apply (not_elem_of_nil y), Heq; left.
  - exfalso. by apply (not_elem_of_nil x), Heq; left.
  - apply StronglySorted_inv in H1 as [H1 A1], H2 as [H2 A2]. rewrite Forall_forall in A1, A2.
    assert (x = y) as <-.
    { destruct (proj1 (elem_of_cons _ _ _) (proj1 (Heq x) ltac:(left))) as [->|Hx]; [done|].
      destruct (proj1 (elem_of_cons _ _ _) (proj2 (Heq y) ltac:(left))) as [->|Hy]; [done|].
      destruct (key_lt_irrefl x). by eapply key_lt_trans; [apply A1|apply A2]. }
    f_equal. apply IH; [done..|]. intros z. split; intros Hz.
    + destruct (proj1 (elem_of_cons _ _ _) (proj1 (Heq z) ltac:(by right))) as [->|?]; [|done].
      destruct (key_lt_irrefl x). by apply A1.
    + destruct (proj1 (elem_of_cons _ _ _) (proj2 (Heq z) ltac:(by right))) as [->|?]; [|done].
      destruct (key_lt_irrefl x). by apply A2.
Qed.

Lemma bt_keys_ordered {V} (m : gmap string V) : StronglySorted key_lt (bt_keys m).
Proof.
  pose proof (NoDup_bt_keys m) as Hn. unfold bt_keys in *.
  assert (StronglySorted entry_le (bt_entries m)) as Hs.
  { apply StronglySorted_merge_sort; unfold entry_le.
    - intros x y z Hxy Hyz. by transitivity y.1.
    - intros x y. apply (total String.le). }
  induction Hs as [|e l _ IH Hall]; simpl; [constructor|].
  simpl in Hn. apply NoDup_cons in Hn as [He Hn]. constructor; [by apply IH|].
  apply Forall_forall. intros k Hk. apply key_lt_le. split; [|by intros <-].
  apply list_elem_of_fmap in Hk as (x & -> & Hx). rewrite Forall_forall in Hall.
  by apply Is_true_true, (Hall x).
Qed.

Lemma ordered_filter f l : StronglySorted key_lt l → StronglySorted key_lt (List.filter f l).
Proof.
  induction 1 as [|x l _ IH Hall]; simpl; [constructor|]. destruct (f x); [|done].
  constructor; [done|]. rewrite Forall_forall in *. intros y Hy.
  apply elem_of_lfilter in Hy as [Hy _]. auto.
Qed.

(** The keyset scan of the registry is the sorted listing, truncated: in
    whatever order the map yields its keys, keeping the smallest ones in a heap
    of bounded size gives the first [limit] keys past the cursor of the keys in
    ascending byte order. *)
Theorem session_ids_after_sorted {V} (m : gmap string V) keys after limit :
  keys ≡ₚ (map_to_list m).*1 → 0 ≤ limit →
  session_ids_after keys after limit
  = firstn (Z.to_nat limit) (List.filter (past after) (bt_keys m)).
Proof.
  intros Hk Hl. rewrite session_ids_after_spec by done. f_equal. apply ordered_unique.
  - apply scan_ordered. rewrite Hk. apply NoDup_fst_map_to_list.
  - apply ordered_filter, bt_keys_ordered.
  - intros x. rewrite elem_of_scan, elem_of_lfilter, Hk. unfold bt_keys. by rewrite bt_entries_perm.
Qed.

(** ** Following the tokens *)
Section traversal.
Context `{Base64Url} `{!Base64UrlLaws}.
Context (identity : AuthIdentity) (default_size max_size page_size : Z).
(** The registry as the [i]-th call finds it: its keys at the scan, and its
    sessions at the fetches. *)
Context (keys : nat → list string) (get_session : nat → string → option Session).

(** A client that asks again with the token it got, from call [i] on. *)
Fixpoint traverse (fuel i : nat) (token : string) : option (result Status (list SessionMetadata)) :=
  match fuel with
  | O => None
  | S fuel =>
      match list_sessions (Ok identity) default_size max_size (keys i) (get_session i)
              (MkListSessionsRequest page_size token) with
      | Err e => Some (Err e)
      | Ok (MkListSessionsResponse sessions next) =>
          if str_is_empty next then Some (Ok sessions)
          else
            match traverse fuel (S i) next with
            | Some (Ok rest) => Some (Ok (sessions ++ rest))
            | out => out
            end
      end
  end.

Let effective := Z.to_nat (effective_page_size default_size max_size page_size).

(** Ids whose token fits. *)
Definition tokenable (id : string) : Prop := is_utf8 id = true ∧ id ≠ "" ∧ str_len id ≤ 765.

Lemma decode_tokenable id :
  tokenable id → decode_page_token (encode_page_token id) = Ok id ∧ encode_page_token id ≠ "".
Proof.
  intros (Hu & Hne & Hl). split; [by rewrite page_token_decodes, (proj2 (Z.leb_le _ _) Hl)|].
  intros E. pose proof (encode_length id) as He. rewrite E in He. unfold str_len in He at 1. simpl in He.
  assert (1 ≤ (4 * (3 + str_len id) + 2) / 3); [|lia].
  apply Z.div_le_lower_bound; [lia|]. unfold str_len. lia.
Qed.

(** What a call with a good cursor answers. *)
Definition page (i : nat) (cursor : option string) : list string :=
  sort_keys (List.filter (past cursor) (keys i)).
Definition emitted (i : nat) (ids : list string) : list SessionMetadata :=
  omap (λ id, session_to_metadata <$> get_session i id) ids.

Lemma list_sessions_page i cursor token :
  0 ≤ page_size → len (keys i) < u64_max → page_cursor token = Ok cursor →
  list_sessions (Ok identity) default_size max_size (keys i) (get_session i)
    (MkListSessionsRequest page_size token)
  = Ok (MkListSessionsResponse (emitted i (firstn effective (page i cursor)))
          (if (effective <? length (page i cursor))%nat
           then match last (firstn effective (page i cursor)) with
                | Some id => encode_page_token id | None => "" end
           else "")).
Proof.
  intros Hp Hk Hc. unfold list_sessions. cbn [mbind result_bind ls_page_size ls_page_token].
  rewrite (proj2 (Z.ltb_ge _ _) Hp), Hc. cbn [mbind result_bind].
  set (E := effective_page_size default_size max_size page_size).
  assert (1 ≤ E) as HE by (unfold E, effective_page_size; lia).
  rewrite session_ids_after_spec by (unfold usize_saturating_add, u64_max; lia).
  fold (page i cursor). set (S := page i cursor).
  assert (len S < u64_max) as HS.
  { unfold S, page, sort_keys, len. rewrite foldl_push_perm, app_nil_r.
    pose proof (List.filter_length_le (past cursor) (keys i)). unfold len in Hk. lia. }
  assert (len S = Z.of_nat (length S)) as HlS by done.
  unfold effective. fold E. set (n := Z.to_nat (usize_saturating_add E 1)).
  assert (len (firstn n S) >? E = (Z.to_nat E <? length S)%nat) as ->.
  { unfold len. rewrite length_firstn, Z.gtb_ltb. unfold n, usize_saturating_add.
    destruct (Nat.ltb_spec (Z.to_nat E) (length S)); [apply Z.ltb_lt|apply Z.ltb_ge]; lia. }
  assert (firstn (Z.to_nat (Z.min E (len (firstn n S)))) (firstn n S) = firstn (Z.to_nat E) S) as ->.
  { rewrite firstn_firstn. unfold len. rewrite length_firstn.
    unfold n, usize_saturating_add. destruct (Nat.le_gt_cases (Z.to_nat E) (length S)).
    - f_equal. lia.
    - rewrite !firstn_all2 by lia. done. }
  by destruct (Z.to_nat E <? length S)%nat.
Qed.

(** Everything the calls find is among the ids of [universe]. *)
Context (universe : gset string).
Hypothesis page_size_nonneg : 0 ≤ page_size.
Hypothesis keys_nodup : ∀ i, NoDup (keys i).
Hypothesis keys_few : ∀ i, len (keys i) < u64_max.
Hypothesis keys_known : ∀ i id, id ∈ keys i → id ∈ universe ∧ tokenable id.
Hypothesis sessions_keyed : ∀ i id s, get_session i id = Some s → ss_session_id s = id.

Definition ids_of (sessions : list SessionMetadata) : list string := sm_session_id <$> sessions.

Lemma ids_of_emitted i ids :
  ids_of (emitted i ids) = List.filter (λ id, bool_decide (is_Some (get_session i id))) ids.
Proof.
  unfold ids_of, emitted. induction ids as [|id ids IH]; simpl; [done|].
  destruct (get_session i id) as [s|] eqn:E; simpl; [|exact IH].
  rewrite (sessions_keyed _ _ _ E). f_equal. exact IH.
Qed.

Lemma page_past i cursor id :
  id ∈ page i cursor ↔ id ∈ keys i ∧ past cursor id = true.
Proof. apply elem_of_scan. Qed.

Lemma past_trans cursor a b : past cursor a = true → key_lt a b → past cursor b = true.
Proof. destruct cursor as [c|]; [|done]. apply key_lt_trans. Qed.

(** What is left of the universe shrinks with each cursor. *)
Definition left_past (cursor : option string) : nat :=
  size (filter (λ id, past cursor id = true) universe).

Lemma left_past_lt cursor id :
  id ∈ universe → past cursor id = true → (left_past (Some id) < left_past cursor)%nat.
Proof.
  intros Hu Hp. unfold left_past. apply subset_size. split.
  - intros x [Hx Hxu]%elem_of_filter. apply elem_of_filter. split; [|done].
    by eapply past_trans.
  - intros Hsub. assert (id ∈ filter (λ x, past (Some id) x = true) universe) as [Hx _]%elem_of_filter.
    { apply Hsub, elem_of_filter. done. }
    by apply key_lt_irrefl in Hx.
Qed.

(** A page that is not the last ends in a key below everything after it. *)
Lemma page_split i cursor :
  (effective < length (page i cursor))%nat → ∃ id,
    last (firstn effective (page i cursor)) = Some id ∧ id ∈ firstn effective (page i cursor) ∧
    (∀ x, x ∈ firstn effective (page i cursor) → x = id ∨ key_lt x id) ∧
    (∀ x, x ∈ page i cursor → x ∉ firstn effective (page i cursor) → key_lt id x).
Proof.
  intros Hlt. assert (1 ≤ effective)%nat as HE.
  { unfold effective, effective_page_size. lia. }
  pose proof (scan_ordered (keys i) cursor (keys_nodup i)) as Hs. fold (page i cursor) in Hs.
  set (S := page i cursor) in *. rewrite <- (firstn_skipn effective S) in Hs.
  destruct (last (firstn effective S)) as [id|] eqn:Hl.
  2:{ apply last_None in Hl. apply (f_equal length) in Hl. rewrite length_firstn in Hl. simpl in Hl. lia. }
  apply last_Some in Hl as [l Hl]. rewrite Hl in Hs. exists id.
  assert (id ∈ firstn effective S) as Hin by (rewrite Hl; set_solver).
  split_and!; [done|done| |].
  - rewrite Hl. intros x [Hx| ->%list_elem_of_singleton]%elem_of_app; [right|by left].
    apply StronglySorted_app_1_l in Hs.
    apply (StronglySorted_app_1_elem_of _ _ _ x id Hs Hx). by left.
  - intros x Hx Hnot. rewrite <- (firstn_skipn effective S) in Hx.
    apply elem_of_app in Hx as [Hx|Hx]; [done|].
    eapply (StronglySorted_app_1_elem_of _ _ _ id x Hs); [set_solver|done].
Qed.

Definition visits (i : nat) (cursor : option string) (sessions : list SessionMetadata) : Prop :=
  StronglySorted key_lt (ids_of sessions) ∧
  (∀ id, id ∈ ids_of sessions → past cursor id = true) ∧
  (∀ id, past cursor id = true → (∀ j, (i ≤ j)%nat → id ∈ keys j ∧ is_Some (get_session j id)) →
     id ∈ ids_of sessions).

Lemma emitted_ordered i cursor n :
  StronglySorted key_lt (ids_of (emitted i (firstn n (page i cursor)))).
Proof.
  rewrite ids_of_emitted. apply ordered_filter.
  pose proof (scan_ordered (keys i) cursor (keys_nodup i)) as Hs. fold (page i cursor) in Hs.
  rewrite <- (firstn_skipn n (page i cursor)) in Hs. by apply StronglySorted_app_1_l in Hs.
Qed.

Lemma elem_of_emitted i cursor n id :
  id ∈ ids_of (emitted i (firstn n (page i cursor))) ↔
  id ∈ firstn n (page i cursor) ∧ is_Some (get_session i id).
Proof. rewrite ids_of_emitted, elem_of_lfilter, bool_decide_eq_true. done. Qed.

Lemma elem_of_firstn_page i cursor n id :
  id ∈ firstn n (page i cursor) → id ∈ keys i ∧ past cursor id = true.
Proof.
  intros Hin. apply page_past. rewrite <- (firstn_skipn n (page i cursor)). set_solver.
Qed.

(** The last page. *)
Lemma visits_last i cursor :
  (length (page i cursor) ≤ effective)%nat →
  visits i cursor (emitted i (firstn effective (page i cursor))).
Proof.
  intros Hle. split_and!; [apply emitted_ordered| |].
  - intros id [Hid _]%elem_of_emitted. by apply elem_of_firstn_page in Hid as [_ ?].
  - intros id Hp Hall. destruct (Hall i (Nat.le_refl i)) as [Hk Hg]. apply elem_of_emitted.
    split; [|done]. rewrite firstn_all2 by done. by apply page_past.
Qed.

(** A page that has more, with the rest of the traversal. *)
Lemma visits_more i cursor id rest :
  (effective < length (page i cursor))%nat →
  last (firstn effective (page i cursor)) = Some id → visits (S i) (Some id) rest →
  visits i cursor (emitted i (firstn effective (page i cursor)) ++ rest).
Proof.
  intros Hlt Hl (Hs & Hpast & Hall).
  destruct (page_split i cursor Hlt) as (id' & Hl' & Hin & Hbelow & Habove). simplify_eq.
  pose proof (elem_of_firstn_page _ _ _ _ Hin) as [_ Hidp].
  unfold visits, ids_of. rewrite fmap_app. fold (ids_of rest).
  fold (ids_of (emitted i (firstn effective (page i cursor)))). split_and!.
  - apply StronglySorted_app_2; [|apply emitted_ordered|done].
    intros x y [Hx _]%elem_of_emitted Hy%Hpast.
    destruct (Hbelow x Hx) as [->|Hlt']; [done|by eapply key_lt_trans].
  - intros x [Hx|Hx]%elem_of_app.
    + apply elem_of_emitted in Hx as [Hx _]. by apply elem_of_firstn_page in Hx as [_ ?].
    + by eapply past_trans, Hpast.
  - intros x Hp Hstay. apply elem_of_app. destruct (Hstay i (Nat.le_refl i)) as [Hk Hg].
    destruct (decide (x ∈ firstn effective (page i cursor))) as [Hx|Hx].
    + left. by apply elem_of_emitted.
    + right. apply Hall; [|intros j Hj; apply Hstay; lia].
      apply Habove; [by apply page_past|done].
Qed.

Lemma traverse_from fuel : ∀ i cursor token,
  page_cursor token = Ok cursor → (left_past cursor < fuel)%nat →
  ∃ sessions, traverse fuel i token = Some (Ok sessions) ∧ visits i cursor sessions.
Proof.
  induction fuel as [|fuel IH]; intros i cursor token Hc Hf; [lia|]. cbn [traverse].
  rewrite (list_sessions_page i cursor token) by done.
  destruct (Nat.ltb_spec effective (length (page i cursor))) as [Hlt|Hle].
  - destruct (page_split i cursor Hlt) as (id & Hl & Hin & _). rewrite Hl.
    pose proof (elem_of_firstn_page _ _ _ _ Hin) as [[Hu Ht]%keys_known Hp].
    destruct (decode_tokenable id Ht) as [Hd Hne].
    unfold str_is_empty. rewrite bool_decide_false by done.
    destruct (IH (S i) (Some id) (encode_page_token id)) as (rest & -> & Hv).
    + unfold page_cursor, str_is_empty. by rewrite bool_decide_false, Hd.
    + pose proof (left_past_lt cursor id Hu Hp). lia.
    + eexists. split; [done|]. by eapply visits_more.
  - eexists. split; [done|]. by apply visits_last.
Qed.

(** C29. Listing by pages ends, and misses nobody who stays. A client follows the
    continuation tokens, with any page size and any configured sizes, while
    sessions are created and removed between and during the calls. The traversal
    never gets an error, it ends within one call more than there are ids to
    meet, the sessions it lists are in strictly ascending order of id, so none is
    listed twice, and every session present throughout is listed. *)
Theorem list_sessions_traversal :
  ∃ sessions, traverse (S (size universe)) 0 "" = Some (Ok sessions) ∧
    StronglySorted key_lt (ids_of sessions) ∧
    ∀ id, (∀ i, id ∈ keys i ∧ is_Some (get_session i id)) → id ∈ ids_of sessions.
Proof.
  destruct (traverse_from (S (size universe)) 0 None "" eq_refl) as (sessions & E & Hs & _ & Hall).
  { unfold left_past. apply Nat.lt_succ_r, subseteq_size. intros x. by rewrite elem_of_filter; intros []. }
  exists sessions. split; [done|]. split; [done|]. intros id Hstay. apply Hall; [done|]. auto.
Qed.
End traversal.

Module Demo.
#[local] Existing Instance UrlSafe.engine.
#[local] Existing Instance UrlSafe.engine_laws.

Lemma page_token_roundtrip_witness :
  encode_page_token "s1" = "djE6czE" ∧ decode_page_token "djE6czE" = Ok "s1".
Proof.
  assert (encode_page_token "s1" = "djE6czE") as He by (vm_compute; reflexivity).
  split; [exact He|]. rewrite <- He.
  rewrite (page_token_roundtrip "s1" ltac:(reflexivity) ltac:(discriminate)). reflexivity.
Defined.

Definition registry : gmap string nat := {["s3" := 3%nat; "s1" := 1%nat; "s2" := 2%nat]}.
Lemma session_ids_after_sorted_witness :
  session_ids_after ["s3"; "s1"; "s2"] (Some "s1") 1
  = firstn 1 (List.filter (past (Some "s1")) (bt_keys registry)).
Proof.
  apply (session_ids_after_sorted registry); [|lia].
  apply (bool_decide_unpack _). vm_compute. exact I.
Defined.

(** Two pages; [s2] is removed before the second is fetched, and [s4] comes. *)
Definition agent : AuthIdentity := dev_identity "agent://alice".
Definition listed (i : nat) : list string :=
  match i with O => ["s3"; "s1"; "s2"] | _ => ["s4"; "s3"; "s1"] end.
Definition fetch (i : nat) (id : string) : option Session :=
  if bool_decide (id ∈ listed i) then Some (session_builder id "m" "alice") else None.

Lemma fetch_listed i id : id ∈ listed i → id ∈ listed i ∧ is_Some (fetch i id).
Proof. intros Hid. split; [done|]. unfold fetch. rewrite bool_decide_true by done. eauto. Qed.

Lemma list_sessions_traversal_witness :
  ∃ sessions, traverse agent 100 1000 2 listed fetch 5 0 "" = Some (Ok sessions) ∧
    "s1" ∈ ids_of sessions ∧ "s3" ∈ ids_of sessions.
Proof.
  destruct (list_sessions_traversal agent 100 1000 2 listed fetch {["s1"; "s2"; "s3"; "s4"]})
    as (sessions & E & _ & Hall).
  - lia.
  - intros [|i]; apply (bool_decide_unpack _); vm_compute; exact I.
  - intros [|i]; reflexivity.
  - intros i id Hid. assert (id ∈ ["s1"; "s2"; "s3"; "s4"]) as Hin by (destruct i; set_solver).
    split; [set_solver|]. clear Hid. rewrite !elem_of_cons, elem_of_nil in Hin.
    destruct Hin as [->|[->|[->|[->|[]]]]]; (split; [reflexivity|split; [discriminate|by vm_compute]]).
  - intros i id s. unfold fetch. destruct (bool_decide _); [|discriminate]. by intros [= <-].
  - exists sessions. split; [exact E|].
    split; apply Hall; intros i; apply fetch_listed; destruct i as [|i];
      apply (bool_decide_unpack _); vm_compute; exact I.
Defined.
End Demo.
