(* ===== verification/Jcs.v ===== *)
(** * JSON canonicalization (crates/macp-core/src/receipt/jcs.rs)

    RFC 8785 over JSON values: members sorted by UTF-16 code units, minimal
    escapes, integers in full and doubles as ECMAScript prints them. Values
    without doubles are determined by their canonical text, so what is signed
    over the text is signed over the value. *)

From Stdlib Require Import Ascii SpecFloat DecimalString.
From Stdlib Require DecimalZ DecimalN.
From stdpp Require Import prelude gmap strings sorting.
From S2P Require Import Prelude RustStr Floats Extern Wire CommitmentHash Base64.
Open Scope Z_scope.

Inductive NotCanonicalizable := MkNotCanonicalizable.

(** ** Integers and strings *)
(** [to_string] of an integer. *)
Definition z_to_string (z : Z) : string := NilZero.string_of_int (Z.to_int z).

Definition write_string (s : string) : string := quote +:+ escape s +:+ quote.

(** The scalar values of a UTF-8 string. *)
Fixpoint utf8_decode (l : list Z) : list Z :=
  match l with
  | [] => []
  | b :: l =>
      if b <? 0x80 then b :: utf8_decode l
      else if b <? 0xE0 then
        match l with
        | c1 :: l => (b - 0xC0) * 64 + (c1 - 0x80) :: utf8_decode l
        | [] => []
        end
      else if b <? 0xF0 then
        match l with
        | c1 :: c2 :: l =>
            (b - 0xE0) * 4096 + (c1 - 0x80) * 64 + (c2 - 0x80) :: utf8_decode l
        | _ => []
        end
      else
        match l with
        | c1 :: c2 :: c3 :: l =>
            (b - 0xF0) * 262144 + (c1 - 0x80) * 4096 + (c2 - 0x80) * 64 + (c3 - 0x80)
            :: utf8_decode l
        | _ => []
        end
  end.
(** [encode_utf16]. *)
Definition utf16_units (c : Z) : list Z :=
  if c <? 0x10000 then [c]
  else [0xD800 + (c - 0x10000) / 1024; 0xDC00 + (c - 0x10000) mod 1024].
Definition encode_utf16 (s : string) : list Z :=
  utf8_decode (byte_val <$> bytes_of s) ≫= utf16_units.

(** [Iterator::cmp], as less or equal. *)
Fixpoint lex_leb (a b : list Z) : bool :=
  match a, b with
  | [], _ => true
  | _ :: _, [] => false
  | x :: a, y :: b => (x <? y) || ((x =? y) && lex_leb a b)
  end.
Definition member_le {A} (x y : string * A) : Prop :=
  lex_leb (encode_utf16 x.1) (encode_utf16 y.1) = true.
#[export] Instance member_le_dec {A} : RelDecision (member_le (A:=A)).
Proof. intros x y. unfold member_le. apply _. Defined.

(** ** Doubles *)

(** [{:e}] of a positive double [m * 2 ^ e]: the shortest digits that read back
    as it, the closest ones among these, as an integer [D] and a power [q] of
    ten. A multiple of [10 ^ q] is looked for in the interval of the reals that
    round to the double, from large [q] down, in units of [2 ^ (e - 2)]. *)
Section shortest.
Context (m e : Z).
Let inclusive := Z.even m.
Let lower := if (m =? 2 ^ 52) && (e >? -1074) then 4 * m - 1 else 4 * m - 2.
Let upper := 4 * m + 2.
Let e2 := e - 2.

Definition multiple_at (q : Z) : option Z :=
  let s := 10 ^ Z.max q 0 * 2 ^ Z.max (- e2) 0 in
  let t := 10 ^ Z.max (- q) 0 * 2 ^ Z.max e2 0 in
  let inside d :=
    if inclusive then (lower * t <=? d * s) && (d * s <=? upper * t)
    else (lower * t <? d * s) && (d * s <? upper * t) in
  let d := 4 * m * t / s in
  let below := inside d && (0 <? d) in
  let above := inside (d + 1) in
  if above && (negb below || (s <=? 2 * (4 * m * t - d * s))) then Some (d + 1)
  else if below then Some d
  else None.

Fixpoint shortest_from (fuel : nat) (q : Z) : option (Z * Z) :=
  match fuel with
  | O => None
  | S fuel =>
      match multiple_at q with
      | Some d => Some (d, q)
      | None => shortest_from fuel (q - 1)
      end
  end.
(** Down to [10 ^ -345], below half the least double. *)
Definition shortest : option (Z * Z) :=
  let q := (Z.log2 m + e + 1) * 30103 / 100000 + 2 in
  shortest_from (Z.to_nat (q + 346)) q.
End shortest.

Fixpoint zeros (n : nat) : string := match n with O => "" | S n => String "0"%char (zeros n) end.

(** The four layouts of a number with digits [digits] and decimal point [n]. *)
Definition es_layout (digits : string) (n : Z) : string :=
  let k := str_len digits in
  let at_ i := String.substring 0 (Z.to_nat i) digits in
  let from i := String.substring (Z.to_nat i) (Z.to_nat (k - i)) digits in
  if (k <=? n) && (n <=? 21) then digits +:+ zeros (Z.to_nat (n - k))
  else if (0 <? n) && (n <=? 21) then at_ n +:+ "." +:+ from n
  else if (-6 <? n) && (n <=? 0) then "0." +:+ zeros (Z.to_nat (- n)) +:+ digits
  else
    let e := n - 1 in
    let e := if e >=? 0 then "+" +:+ z_to_string e else z_to_string e in
    if k =? 1 then digits +:+ "e" +:+ e
    else at_ 1 +:+ "." +:+ from 1 +:+ "e" +:+ e.

Definition es_number (f : f64) : result NotCanonicalizable string :=
  match f with
  | S754_zero _ => Ok "0"
  | S754_finite negative m e =>
      '(d, q) ← ok_or (shortest (Z.pos m) e) MkNotCanonicalizable;
      let digits := z_to_string d in
      let body := es_layout digits (q + str_len digits) in
      Ok (if negative then "-" +:+ body else body)
  | _ => Err MkNotCanonicalizable
  end.

(** ** Values *)
Definition join (sep : string) (l : list string) : string :=
  match l with
  | [] => ""
  | x :: l => x +:+ foldr (λ y out, sep +:+ y +:+ out) "" l
  end.
Definition write_member (m : string * string) : string := write_string m.1 +:+ ":" +:+ m.2.

(** A loop that leaves at the first error. *)
Section res_map.
Context {A B E : Type} (f : A → result E B).

Fixpoint res_map (l : list A) : result E (list B) :=
  match l with
  | [] => Ok []
  | x :: l => y ← f x; ys ← res_map l; Ok (y :: ys)
  end.

Lemma res_map_ok l k : res_map l = Ok k ↔ Forall2 (λ x y, f x = Ok y) l k.
Proof.
  revert k. induction l as [|x l IH]; intros k; cbn [res_map].
  - split; [intros [= <-]; constructor|]. intros H. by inversion H.
  - split.
    + intros (y & Hy & (ys & Hys & [= <-])%bind_ok)%bind_ok. constructor; [done|by apply IH].
    + intros H. inversion_clear H as [|? y ? ys Hy Hys]. rewrite Hy. apply IH in Hys.
      cbn [mbind result_bind]. by rewrite Hys.
Qed.

Lemma res_map_total l : Forall (λ x, ∃ y, f x = Ok y) l → ∃ k, res_map l = Ok k.
Proof.
  induction 1 as [|x l [y Hy] _ [k Hk]]; [by exists []|]. exists (y :: k).
  cbn [res_map]. rewrite Hy. cbn [mbind result_bind]. by rewrite Hk.
Qed.
End res_map.

(** The members are written before they are sorted; only the texts differ in
    order. *)
Fixpoint write_value (value : Value) : result NotCanonicalizable string :=
  match value with
  | VNull => Ok "null"
  | VBool b => Ok (if b then "true" else "false")
  | VUint n | VInt n => Ok (z_to_string n)
  | VFloat f => es_number f
  | VString s => Ok (write_string s)
  | VArray items =>
      texts ← res_map write_value items;
      Ok ("[" +:+ join "," texts +:+ "]")
  | VObject members =>
      texts ← res_map (λ m, t ← write_value m.2; Ok (m.1, t)) members;
      Ok ("{" +:+ join "," (write_member <$> merge_sort member_le texts) +:+ "}")
  end.

Definition jcs_canonicalize (value : Value) : result NotCanonicalizable bytes :=
  text ← write_value value; Ok (bytes_of text).

(** ** Decimal text *)
Definition no_digit (r : string) : Prop :=
  match r with String c _ => is_ascii_digit c = false | EmptyString => True end.

Lemma digits_cancel d d' r r' :
  no_digit r → no_digit r' →
  NilEmpty.string_of_uint d +:+ r = NilEmpty.string_of_uint d' +:+ r' → d = d' ∧ r = r'.
Proof.
  intros Hr Hr'. revert d'.
  induction d as [|d IH|d IH|d IH|d IH|d IH|d IH|d IH|d IH|d IH|d IH]; intros [];
    cbn [NilEmpty.string_of_uint]; rewrite ?str_app_nil, ?str_app_cons; intros E;
    try (subst; discriminate); try (injection E as E; apply IH in E as [-> ->]; done);
    solve [by subst|subst; exfalso; simpl in *; discriminate].
Qed.

Lemma unsigned_digits d : d ≠ Decimal.Nil → NilZero.string_of_uint d = NilEmpty.string_of_uint d.
Proof. by destruct d. Qed.

Lemma z_to_string_digits z :
  ∃ d, d ≠ Decimal.Nil ∧
    ((0 <= z ∧ Z.to_int z = Decimal.Pos d ∧ z_to_string z = NilEmpty.string_of_uint d) ∨
     (z < 0 ∧ Z.to_int z = Decimal.Neg d ∧ z_to_string z = String "-"%char (NilEmpty.string_of_uint d))).
Proof.
  unfold z_to_string. destruct z as [|p|p]; simpl.
  - exists Decimal.zero. split; [done|]. by left.
  - pose proof (DecimalPos.Unsigned.to_uint_nonnil p) as Hp.
    exists (Pos.to_uint p). split; [done|]. left. by rewrite unsigned_digits.
  - pose proof (DecimalPos.Unsigned.to_uint_nonnil p) as Hp.
    exists (Pos.to_uint p). split; [done|]. right. by rewrite unsigned_digits.
Qed.

Lemma digits_no_minus d r r' :
  d ≠ Decimal.Nil → NilEmpty.string_of_uint d +:+ r ≠ String "-"%char r'.
Proof. by destruct d. Qed.

Lemma z_to_string_cancel z z' r r' :
  no_digit r → no_digit r' → z_to_string z +:+ r = z_to_string z' +:+ r' → z = z' ∧ r = r'.
Proof.
  intros Hr Hr'.
  destruct (z_to_string_digits z) as (d & Hd & [(_ & Hz & ->)|(_ & Hz & ->)]),
    (z_to_string_digits z') as (d' & Hd' & [(_ & Hz' & ->)|(_ & Hz' & ->)]);
    rewrite ?str_app_cons; intros E.
  - apply digits_cancel in E as [-> ->]; [|done..]. split; [|done].
    apply DecimalZ.to_int_inj. congruence.
  - by apply digits_no_minus in E.
  - by apply symmetry, digits_no_minus in E.
  - injection E as E. apply digits_cancel in E as [-> ->]; [|done..]. split; [|done].
    apply DecimalZ.to_int_inj. congruence.
Qed.

(** ** Induction on JSON values *)
Section json_ind.
Context (P : Value → Prop).
Context (P_leaf : ∀ v, match v with VArray _ | VObject _ => False | _ => True end → P v).
Context (P_array : ∀ l, Forall P l → P (VArray l)).
Context (P_object : ∀ o, Forall (λ kv, P kv.2) o → P (VObject o)).

Fixpoint json_ind (v : Value) : P v.
Proof.
  destruct v as [| | | | | |l|o]; [by apply P_leaf..| |].
  - apply P_array. induction l as [|x l IH]; constructor; [apply json_ind|exact IH].
  - apply P_object. induction o as [|kv o IH]; constructor; [apply json_ind|exact IH].
Defined.
End json_ind.

(** ** What a value is written as *)
Lemma write_array_ok items t :
  write_value (VArray items) = Ok t →
  ∃ ts, Forall2 (λ v t, write_value v = Ok t) items ts ∧ t = "[" +:+ join "," ts +:+ "]".
Proof.
  cbn [write_value]. intros (ts & Hts & [= <-])%bind_ok. exists ts. by rewrite res_map_ok in Hts.
Qed.

Lemma write_object_ok members t :
  write_value (VObject members) = Ok t →
  ∃ ts, Forall2 (λ m t, t.1 = m.1 ∧ write_value m.2 = Ok t.2) members ts ∧
    t = "{" +:+ join "," (write_member <$> merge_sort member_le ts) +:+ "}".
Proof.
  cbn [write_value]. intros (ts & Hts%res_map_ok & [= <-])%bind_ok. exists ts. split; [|done].
  eapply Forall2_impl; [exact Hts|]. intros m u (x & Hx & [= <-])%bind_ok. done.
Qed.

(** ** Comma-separated sequences *)

(** A text that can be told from what follows it, provided no digit does. *)
Definition cancels {A} (W : A → string → Prop) (x : A) : Prop :=
  ∀ t x' t' r r', W x t → W x' t' → no_digit r → no_digit r' →
    t +:+ r = t' +:+ r' → x = x' ∧ r = r'.

Section sequences.
Context {A : Type} (W : A → string → Prop) (close : ascii).
Context (close_stop : is_ascii_digit close = false ∧ close ≠ ","%char).
Context (W_head : ∀ x t, W x t → ∃ c s, t = String c s ∧ c ≠ close).

Let rest (ts : list string) := foldr (λ y out, "," +:+ y +:+ out) "" ts.

Lemma rest_no_digit ts r : no_digit (rest ts +:+ String close r).
Proof. by destruct ts as [|t ts]; [apply close_stop|]. Qed.

Lemma rest_cancel xs xs' ts ts' r r' :
  Forall (cancels W) xs → Forall2 W xs ts → Forall2 W xs' ts' →
  rest ts +:+ String close r = rest ts' +:+ String close r' → xs = xs' ∧ r = r'.
Proof.
  intros Hxs Hts. revert Hxs xs' ts'. induction Hts as [|x t xs ts Hx Hts IH];
    intros Hxs ? ? [|x' t' ys us Hx' Hts']; cbn [rest foldr];
    rewrite ?str_app_assoc, ?str_app_nil, ?str_app_cons.
  - by intros [= <-].
  - intros [= E _]. by destruct close_stop.
  - intros [= E _]. by destruct close_stop.
  - intros [= E]. apply Forall_cons in Hxs as [Hc Hxs].
    apply (Hc _ x' _ _ _ Hx Hx') in E as [-> E]; [|apply rest_no_digit..].
    by apply (IH Hxs _ _ Hts') in E as [-> ->].
Qed.

Lemma join_cancel xs xs' ts ts' r r' :
  Forall (cancels W) xs → Forall2 W xs ts → Forall2 W xs' ts' →
  join "," ts +:+ String close r = join "," ts' +:+ String close r' → xs = xs' ∧ r = r'.
Proof.
  intros Hxs Hts1 Hts2. revert Hxs.
  destruct Hts1 as [|x t ys us Hx Hts], Hts2 as [|x' t' ys' us' Hx' Hts']; intros Hxs; cbn [join];
    rewrite ?str_app_assoc, ?str_app_nil.
  - by intros [= <-].
  - destruct (W_head _ _ Hx') as (c & s & -> & Hc). rewrite str_app_cons. intros [= E _]. done.
  - destruct (W_head _ _ Hx) as (c & s & -> & Hc). rewrite str_app_cons. intros [= E _]. done.
  - intros E. apply Forall_cons in Hxs as [Hc Hxs].
    apply (Hc _ x' _ _ _ Hx Hx') in E as [-> E]; [|apply rest_no_digit..].
    by apply (rest_cancel _ _ _ _ _ _ Hxs Hts Hts') in E as [-> ->].
Qed.
End sequences.

(** ** Canonical values *)

Definition member_lt (a b : string * Value) : Prop := key_lt a.1 b.1.

(** Values as serde_json builds them, without doubles: integers in the variant
    of their sign and objects in the order of their distinct keys. *)
Fixpoint canonical (v : Value) : Prop :=
  match v with
  | VNull | VBool _ | VString _ => True
  | VUint n => 0 <= n
  | VInt n => n < 0
  | VFloat _ => False
  | VArray l => (fix go l := match l with [] => True | x :: l => canonical x ∧ go l end) l
  | VObject o =>
      StronglySorted member_lt o ∧
      (fix go (o : list (string * Value)) :=
         match o with [] => True | (_, x) :: o => canonical x ∧ go o end) o
  end.

Lemma canonical_array l : canonical (VArray l) ↔ Forall canonical l.
Proof.
  cbn [canonical]. induction l as [|x l IH]; [by split; [constructor|]|].
  by rewrite Forall_cons, IH.
Qed.

Lemma canonical_object o :
  canonical (VObject o) ↔ StronglySorted member_lt o ∧ Forall (λ kv, canonical kv.2) o.
Proof.
  cbn [canonical]. f_equiv. clear. induction o as [|[k x] o IH]; [by split; [constructor|]|].
  by rewrite Forall_cons, IH.
Qed.

(** The first character tells the kind of a value. *)
Definition head_kind (c : ascii) : Z :=
  if (c == "n"%char) then 0
  else if (c == "t"%char) then 1
  else if (c == "f"%char) then 2
  else if (c == "["%char) then 3
  else if (c == "{"%char) then 4
  else if is_ascii_digit c || (c == "-"%char) then 5
  else if byte_of c =? 34 then 6
  else 7.
Definition kind_of (v : Value) : Z :=
  match v with
  | VNull => 0
  | VBool b => if b then 1 else 2
  | VArray _ => 3
  | VObject _ => 4
  | VUint _ | VInt _ | VFloat _ => 5
  | VString _ => 6
  end.

Lemma z_to_string_head z : ∃ c s, z_to_string z = String c s ∧ head_kind c = 5.
Proof.
  destruct (z_to_string_digits z) as (d & Hd & [(_ & _ & ->)|(_ & _ & ->)]); [|by eexists _, _].
  destruct d; [done|by eexists _, _..].
Qed.

Lemma write_head v t :
  canonical v → write_value v = Ok t → ∃ c s, t = String c s ∧ head_kind c = kind_of v.
Proof.
  destruct v as [|[]|n|n|x|s|l|o]; intros Hv Hw.
  all: try (injection Hw as <-; by eexists _, _).
  - injection Hw as <-. apply z_to_string_head.
  - injection Hw as <-. apply z_to_string_head.
  - done.
  - apply write_array_ok in Hw as (ts & _ & ->). by eexists _, _.
  - apply write_object_ok in Hw as (ts & _ & ->). by eexists _, _.
Qed.

Lemma write_kind v v' t t' r r' :
  canonical v → canonical v' → write_value v = Ok t → write_value v' = Ok t' →
  t +:+ r = t' +:+ r' → kind_of v = kind_of v'.
Proof.
  intros Hv Hv' Hw Hw' E.
  destruct (write_head _ _ Hv Hw) as (c & s & -> & <-), (write_head _ _ Hv' Hw') as (c' & s' & -> & <-).
  rewrite !str_app_cons in E. by injection E as -> _.
Qed.

(** ** Canonical text determines the value *)
Definition writes (v : Value) (t : string) : Prop := canonical v ∧ write_value v = Ok t.
Definition writes_member (m : string * Value) (t : string) : Prop :=
  ∃ s, t = write_member (m.1, s) ∧ writes m.2 s.

Lemma write_string_cancel s s' r r' :
  write_string s +:+ r = write_string s' +:+ r' → s = s' ∧ r = r'.
Proof.
  unfold write_string. rewrite !str_app_assoc. intros E%str_app_inj.
  by apply escape_cancel in E.
Qed.

Lemma member_cancels m : cancels writes m.2 → cancels writes_member m.
Proof.
  intros Hm ? [k' v'] ? r r' (s & -> & Hs) (s' & -> & Hs') Hr Hr'. destruct m as [k v].
  unfold write_member. cbn [fst snd] in *. rewrite !str_app_assoc.
  intros [-> E]%write_string_cancel. apply str_app_inj in E.
  by apply (Hm _ v' _ _ _ Hs Hs' Hr Hr') in E as [-> ->].
Qed.

Lemma writes_array l t :
  writes (VArray l) t → ∃ ts, Forall2 writes l ts ∧ t = "[" +:+ join "," ts +:+ "]".
Proof.
  intros [Hl%canonical_array (ts & Hts & ->)%write_array_ok]. exists ts. split; [|done].
  clear -Hl Hts. induction Hts; [constructor|]. apply Forall_cons in Hl as [??].
  constructor; [by split|auto].
Qed.

Lemma writes_object o t :
  writes (VObject o) t →
  ∃ o' ts, o ≡ₚ o' ∧ StronglySorted member_lt o ∧ Forall2 writes_member o' ts ∧
    t = "{" +:+ join "," ts +:+ "}".
Proof.
  intros [[Hs Ho]%canonical_object (ts & Hts & ->)%write_object_ok].
  apply Forall2_flip in Hts.
  destruct (Permutation_Forall2 (symmetry (merge_sort_Permutation member_le ts)) Hts)
    as (o' & Hp & Hf).
  exists o', (write_member <$> merge_sort member_le ts). repeat split; [done..|].
  rewrite Hp in Ho. apply Forall2_fmap_r, Forall2_flip. clear -Ho Hf.
  induction Hf as [|[k t] [k' v] us p [Hk Ht]]; [constructor|].
  apply Forall_cons in Ho as [??]. simpl in Hk. subst k'.
  constructor; [|auto]. exists t. by repeat split.
Qed.

Lemma member_lt_unique o o' :
  StronglySorted member_lt o → StronglySorted member_lt o' → o ≡ₚ o' → o = o'.
Proof.
  intros Hs Hs' Hp. apply (StronglySorted_unique_strong member_lt); [|done..].
  intros a b _ _ Hab Hba. destruct (key_lt_irrefl a.1). by eapply key_lt_trans.
Qed.

Lemma closes_value close v t :
  head_kind close = 7 → writes v t → ∃ c s, t = String c s ∧ c ≠ close.
Proof.
  intros Hc [Hv Hw]. destruct (write_head _ _ Hv Hw) as (c & s & -> & Hk). exists c, s.
  split; [done|]. intros ->. rewrite Hc in Hk. by destruct v as [|[]| | | | | |].
Qed.

Lemma write_cancels v : cancels writes v.
Proof.
  induction v as [v Hleaf|l IH|o IH] using json_ind; intros t v' t' r r' Hw Hw' Hr Hr' E;
    pose proof (write_kind _ _ _ _ _ _ (proj1 Hw) (proj1 Hw') (proj2 Hw) (proj2 Hw') E) as Hk.
  - destruct v as [|[]|n|n|x|s|l|o], v' as [|[]|n'|n'|x'|s'|l'|o']; try discriminate Hk; try done;
      destruct Hw as [Hv Hw], Hw' as [Hv' Hw']; try done; injection Hw as <-; injection Hw' as <-;
      cbn [canonical] in *;
      first [ apply str_app_inj in E; done
            | apply write_string_cancel in E as [-> ->]; done
            | apply z_to_string_cancel in E as [-> ->]; [first [done|lia]|done..] ].
  - destruct v' as [|[]| | | | |l'|]; try discriminate Hk.
    apply writes_array in Hw as (ts & Hts & ->), Hw' as (ts' & Hts' & ->).
    rewrite !str_app_assoc in E. apply str_app_inj in E.
    eapply join_cancel in E as [-> ->]; [done|done| |exact IH|exact Hts|exact Hts'].
    intros x t. by apply closes_value.
  - destruct v' as [|[]| | | | | |o']; try discriminate Hk.
    apply writes_object in Hw as (p & ts & Hp & Hs & Hts & ->).
    apply writes_object in Hw' as (p' & ts' & Hp' & Hs' & Hts' & ->).
    rewrite !str_app_assoc in E. apply str_app_inj in E.
    rewrite Hp in IH. apply (join_cancel writes_member) with (xs:=p) (xs':=p') in E as [-> ->];
      [|done| |by eapply Forall_impl, member_cancels|done..].
    + split; [|done]. f_equal. apply member_lt_unique; [done..|]. by rewrite Hp, Hp'.
    + intros x t (s & -> & _). by eexists _, _.
Qed.

Lemma write_value_inj v v' t :
  canonical v → canonical v' → write_value v = Ok t → write_value v' = Ok t → v = v'.
Proof.
  intros Hv Hv' Hw Hw'. by apply (write_cancels v t v' t "" ""); [split..| | |].
Qed.

Lemma write_value_total v : canonical v → ∃ t, write_value v = Ok t.
Proof.
  induction v as [v Hleaf|l IH|o IH] using json_ind.
  - destruct v; try done; by eexists.
  - rewrite canonical_array. intros Hl. destruct (res_map_total write_value l) as [ts Hts].
    + apply Forall_forall. intros v Hv. rewrite Forall_forall in IH, Hl. auto.
    + eexists. cbn [write_value]. by rewrite Hts.
  - rewrite canonical_object. intros [_ Ho].
    destruct (res_map_total (λ m, t ← write_value m.2; Ok (m.1, t)) o) as [ts Hts].
    + apply Forall_forall. intros m Hm. rewrite Forall_forall in IH, Ho.
      destruct (IH m Hm (Ho m Hm)) as [t Ht]. exists (m.1, t). by rewrite Ht.
    + eexists. cbn [write_value]. by rewrite Hts.
Qed.

(** C38. Canonicalization is total and injective on the values serde_json builds
    without doubles: each has canonical bytes, and two values with the same
    bytes are the same value, so a signature over the bytes is a signature over
    the value. *)
Theorem jcs_injective v v' :
  canonical v → canonical v' →
  (∃ b, jcs_canonicalize v = Ok b) ∧ (jcs_canonicalize v = jcs_canonicalize v' → v = v').
Proof.
  intros Hv Hv'. unfold jcs_canonicalize.
  destruct (write_value_total v Hv) as [t Ht], (write_value_total v' Hv') as [t' Ht'].
  rewrite Ht, Ht'. split; [by eexists|]. intros [= E%bytes_of_inj]. subst.
  by eapply write_value_inj.
Qed.

Module Demo.

Definition doc (n : Z) : Value :=
  VObject [("accepted", VBool true); ("ballots", VArray [VUint n; VInt (-1); VNull]);
           ("session", VString "s1")].

Lemma doc_canonical n : 0 <= n → canonical (doc n).
Proof.
  intros Hn. apply canonical_object. split.
  - repeat constructor.
  - repeat constructor; done.
Qed.

Lemma jcs_injective_witness :
  (∃ b, jcs_canonicalize (doc 1) = Ok b) ∧
  (jcs_canonicalize (doc 1) = jcs_canonicalize (doc 12) → doc 1 = doc 12).
Proof. apply jcs_injective; apply doc_canonical; lia. Defined.

(** The UTF-16 order puts U+1F600 before U+FB33, the order of the bytes after. *)
Example surrogates_first :
  lex_leb (encode_utf16 "😀") (encode_utf16 "דּ") = true ∧ str_lt "דּ" "😀" = true.
Proof. by vm_compute. Qed.

End Demo.
