(* ===== verification/Json.v ===== *)
(** * JSON objects ([serde_json::Value], [serde_json::Map])

    Objects as ordered maps, what equality of values decides, and reading and writing JSON text. serde_json is a parameter where
    it parses and prints; its in-memory types are modelled as the code uses
    them. *)

From Stdlib Require Import Ascii.
From stdpp Require Import prelude gmap strings sorting.
From S2P Require Import Prelude RustStr Floats Extern PolicyKeys Wire CommitmentHash Base64 Pagination Jcs.
Open Scope Z_scope.

(** ** Objects *)
Section objects.
Implicit Types o : list (string * Value).

Definition obj_get (key : string) o : option Value := value_get key (VObject o).
Fixpoint obj_insert (k : string) (v : Value) o : list (string * Value) :=
  match o with
  | [] => [(k, v)]
  | (k', v') :: o' =>
      if k == k' then (k, v) :: o'
      else if str_lt k k' then (k, v) :: o
      else (k', v') :: obj_insert k v o'
  end.
Definition obj_remove (k : string) o : list (string * Value) :=
  List.filter (λ m, negb (m.1 == k)) o.

(** [json!({ ... })]. *)
Definition json_object o : Value := VObject (foldl (λ acc m, obj_insert m.1 m.2 acc) [] o).

Lemma obj_get_cons key k v o :
  obj_get key ((k, v) :: o) = if k == key then Some v else obj_get key o.
Proof. unfold obj_get, value_get. simpl. by destruct (k == key). Qed.

Lemma obj_get_insert k v o : obj_get k (obj_insert k v o) = Some v.
Proof.
  induction o as [|[k' v'] o IH]; simpl; [by rewrite obj_get_cons, bool_decide_eq_true_2|].
  case_bool_decide; [by rewrite obj_get_cons, bool_decide_eq_true_2|].
  destruct (str_lt k k'); rewrite obj_get_cons; [by rewrite bool_decide_eq_true_2|].
  by rewrite bool_decide_eq_false_2.
Qed.

Lemma obj_get_insert_ne j k v o : j ≠ k → obj_get j (obj_insert k v o) = obj_get j o.
Proof.
  intros Hj. induction o as [|[k' v'] o IH]; simpl.
  { by rewrite obj_get_cons, bool_decide_eq_false_2. }
  case_bool_decide as Hk; [subst k'; by rewrite !obj_get_cons, bool_decide_eq_false_2|].
  destruct (str_lt k k'); rewrite !obj_get_cons; [by rewrite bool_decide_eq_false_2|].
  by rewrite IH.
Qed.

Lemma obj_get_none k o : obj_get k o = None ↔ Forall (λ m, m.1 ≠ k) o.
Proof.
  induction o as [|[k' v'] o IH]; [by split; [constructor|]|].
  rewrite obj_get_cons, Forall_cons, <- IH. simpl. case_bool_decide; naive_solver.
Qed.

Lemma obj_remove_insert k v o : obj_get k o = None → obj_remove k (obj_insert k v o) = o.
Proof.
  rewrite obj_get_none. intros Ho.
  assert (obj_remove k o = o) as Hfix.
  { induction Ho as [|m o Hm _ IH]; simpl; [done|]. rewrite bool_decide_eq_false_2 by done.
    simpl. by f_equal. }
  induction Ho as [|[k' v'] o Hm Ho IH]; simpl in *; [by rewrite bool_decide_eq_true_2|].
  rewrite bool_decide_eq_false_2 in * by naive_solver. injection Hfix as Hfix.
  destruct (str_lt k k'); simpl.
  - rewrite bool_decide_eq_true_2 by done. simpl. rewrite bool_decide_eq_false_2 by done.
    simpl. by f_equal.
  - rewrite bool_decide_eq_false_2 by done. simpl. by rewrite IH.
Qed.
End objects.

(** ** Canonical objects *)
Lemma obj_insert_elem m k v o : m ∈ obj_insert k v o → m = (k, v) ∨ m ∈ o.
Proof.
  induction o as [|[k' v'] o IH]; simpl; [rewrite list_elem_of_singleton; auto|].
  case_bool_decide; [|destruct (str_lt k k')]; rewrite !elem_of_cons; naive_solver.
Qed.

Lemma obj_insert_sorted k v o :
  StronglySorted member_lt o → StronglySorted member_lt (obj_insert k v o).
Proof.
  induction 1 as [|[k' v'] o Ho IH Hk]; simpl; [repeat constructor|].
  case_bool_decide as E; [subst; by constructor|].
  destruct (str_lt k k') eqn:L.
  - constructor; [by constructor|]. constructor; [exact L|].
    eapply Forall_impl; [exact Hk|]. intros m Hm. by eapply key_lt_trans.
  - constructor; [done|]. apply Forall_forall. intros m [->|Hm]%obj_insert_elem.
    + apply key_lt_le. split; [|done]. unfold str_lt in L. by apply negb_false_iff in L.
    + by eapply (Forall_forall _ o).
Qed.

Lemma canonical_insert k v o :
  canonical v → canonical (VObject o) → canonical (VObject (obj_insert k v o)).
Proof.
  rewrite !canonical_object. intros Hv [Hs Ho]. split; [by apply obj_insert_sorted|].
  apply Forall_forall. intros m [->|Hm]%obj_insert_elem; [done|].
  rewrite Forall_forall in Ho. by apply Ho.
Qed.

Lemma canonical_remove k o : canonical (VObject o) → canonical (VObject (obj_remove k o)).
Proof.
  rewrite !canonical_object. intros [Hs Ho]. unfold obj_remove. split.
  - induction Hs as [|m o Hs IH Hm]; simpl; [constructor|]. apply Forall_cons in Ho as [_ Ho].
    destruct (negb _); [|auto]. constructor; [auto|].
    apply Forall_forall. intros x Hx. rewrite Forall_forall in Hm. apply Hm.
    apply list_elem_of_In, List.filter_In in Hx as [Hx _]. by apply list_elem_of_In.
  - apply Forall_forall. intros x Hx. rewrite Forall_forall in Ho. apply Ho.
    apply list_elem_of_In, List.filter_In in Hx as [Hx _]. by apply list_elem_of_In.
Qed.

Lemma canonical_json_object o :
  Forall (λ m, canonical m.2) o → canonical (json_object o).
Proof.
  intros Ho. unfold json_object.
  assert (∀ acc, canonical (VObject acc) →
    canonical (VObject (foldl (λ acc m, obj_insert m.1 m.2 acc) acc o))) as Hfold.
  { induction Ho as [|m o Hm _ IH]; simpl; [done|]. intros acc Hacc.
    by apply IH, canonical_insert. }
  apply Hfold. apply canonical_object. by repeat constructor.
Qed.

(** ** Equality of canonical values *)
Lemma value_eq_spec v w : canonical v → value_eq v w = true ↔ v = w.
Proof.
  revert w. induction v as [v Hleaf|l IH|o IH] using json_ind; intros w.
  - destruct v; try done; intros _; destruct w; simpl; rewrite ?bool_decide_eq_true, ?Z.eqb_eq; naive_solver.
  - rewrite canonical_array. intros Hl. destruct w as [| | | | | |k|]; try done.
    cbn [value_eq]. revert k. induction IH as [|v l Hv _ IHl]; intros [|x k]; try done.
    apply Forall_cons in Hl as [Hc Hl]. rewrite andb_true_iff, Hv, IHl by done. naive_solver.
  - rewrite canonical_object. intros [_ Ho]. destruct w as [| | | | | | |k]; try done.
    cbn [value_eq]. revert k. induction IH as [|[i v] o Hv _ IHo]; intros [|[j x] k]; try done.
    apply Forall_cons in Ho as [Hc Ho].
    rewrite !andb_true_iff, Hv, IHo, bool_decide_eq_true by done. simpl. naive_solver.
Qed.

(** ** JSON text *)
Class JsonText := {
  json_from_slice : bytes → option Value;
  json_from_str : string → option Value;
  json_to_string : Value → string;
}.

(** An object of strings under plain names, put together from the texts of its
    members. *)
Definition flat_member `{JsonText} (m : string * string) : string :=
  quote +:+ m.1 +:+ quote +:+ ":" +:+ json_to_string (VString m.2).
Definition flat_text `{JsonText} (o : list (string * string)) : string :=
  "{" +:+ join "," (flat_member <$> o) +:+ "}".

(** It reads back as the object, and a plain string is written between quotes. *)
Class JsonTextLaws `{JsonText} : Prop := {
  json_flat (o : list (string * string)) :
    StronglySorted key_lt o.*1 →
    Forall (λ m, str_all is_ascii_alphanumeric m.1 = true ∧ is_utf8 m.2 = true) o →
    json_from_slice (bytes_of (flat_text o)) = Some (VObject (prod_map id VString <$> o));
  json_plain s :
    str_all is_ascii_alphanumeric s = true →
    json_to_string (VString s) = quote +:+ s +:+ quote;
}.

(** A reader and writer of such objects, to evaluate what is proved from the
    law. *)
Module FlatJson.

Fixpoint read_string (fuel : nat) (s : string) : option (string * string) :=
  match fuel with
  | O => None
  | S fuel =>
      match unescape1 s with
      | Some (c, s) => '(t, r) ← read_string fuel s; Some (String c t, r)
      | None => match s with String _ r => Some ("", r) | "" => None end
      end
  end.

Lemma read_string_escape fuel s r :
  (String.length s < fuel)%nat → read_string fuel (escape s +:+ quote +:+ r) = Some (s, r).
Proof.
  revert fuel. induction s as [|c s IH]; intros [|fuel] Hf; simpl in Hf; try lia; cbn [read_string escape].
  - by rewrite str_app_nil, unescape1_quote.
  - rewrite str_app_assoc, unescape1_escape, IH by lia. done.
Qed.

Definition skip (s : string) : string := match s with String _ s => s | "" => "" end.

(** The members after an opening brace or a comma. *)
Fixpoint read_members (fuel : nat) (s : string) : option (list (string * Value)) :=
  match fuel with
  | O => None
  | S fuel =>
      '(k, s) ← read_string (String.length s) (skip s);
      '(v, s) ← read_string (String.length s) (skip (skip s));
      match s with
      | String c s =>
          if c == ","%char then o ← read_members fuel s; Some ((k, VString v) :: o)
          else Some [(k, VString v)]
      | "" => None
      end
  end.
Definition read_object (s : string) : option Value :=
  match s with
  | String _ (String c s') =>
      if c == "}"%char then Some (VObject [])
      else VObject <$> read_members (String.length s) (String c s')
  | _ => None
  end.

#[local] Instance reader : JsonText := {|
  json_from_slice b := read_object (String.string_of_list_byte b);
  json_from_str s := read_object s;
  json_to_string v := match write_value v with Ok t => t | Err _ => "" end |}.

Lemma escape_plain s : str_all is_ascii_alphanumeric s = true → escape s = s.
Proof.
  induction s as [|c s IH]; [done|]. cbn [str_all escape]. intros [Hc Hs]%andb_true_iff.
  rewrite IH by done. by destruct c as [[] [] [] [] [] [] [] []].
Qed.

Lemma str_length_app s t : String.length (s +:+ t) = (String.length s + String.length t)%nat.
Proof. induction s as [|c s IH]; [done|]. rewrite str_app_cons. simpl. by rewrite IH. Qed.

Lemma length_escape s : (String.length s ≤ String.length (escape s))%nat.
Proof.
  induction s as [|c s IH]; [done|]. cbn [escape String.length]. rewrite str_length_app.
  assert (1 ≤ String.length (escape_char c))%nat by (by destruct c as [[] [] [] [] [] [] [] []]; simpl; lia).
  lia.
Qed.

Lemma read_member fuel k v r :
  str_all is_ascii_alphanumeric k = true →
  read_members (S fuel) (flat_member (k, v) +:+ r) =
  match r with
  | String c s =>
      if c == ","%char then o ← read_members fuel s; Some ((k, VString v) :: o)
      else Some [(k, VString v)]
  | "" => None
  end.
Proof.
  intros Hk. unfold flat_member. cbn [fst snd json_to_string reader write_value]. unfold write_string.
  rewrite <- (escape_plain k) at 1 by done. rewrite !str_app_assoc. cbn [read_members].
  pose proof (length_escape k). pose proof (length_escape v).
  change (skip (quote +:+ ?x)) with x.
  rewrite read_string_escape by (rewrite !str_length_app; simpl; lia).
  cbn [mbind option_bind]. change (skip (skip (":" +:+ quote +:+ ?x))) with x.
  rewrite read_string_escape; [done|]. rewrite !str_length_app. simpl. lia.
Qed.

Lemma read_members_flat o fuel :
  o ≠ [] → (length o ≤ fuel)%nat → Forall (λ m, str_all is_ascii_alphanumeric m.1 = true) o →
  read_members fuel (join "," (flat_member <$> o) +:+ "}") = Some (prod_map id VString <$> o).
Proof.
  intros Hne Hf Ho. revert fuel Hne Hf. induction Ho as [|[k v] o Hk Ho IH]; [done|].
  intros [|fuel] _ Hf; simpl in Hf; [lia|]. rewrite !fmap_cons. cbn [join]. rewrite str_app_assoc.
  rewrite read_member by done. destruct o as [|[k2 v2] o]; [done|].
  rewrite fmap_cons. cbn [foldr]. rewrite !str_app_assoc, str_app_cons, str_app_nil.
  rewrite bool_decide_eq_true_2 by done.
  specialize (IH fuel ltac:(done) ltac:(simpl in *; lia)). rewrite fmap_cons in IH.
  cbn [join] in IH. rewrite str_app_assoc in IH. by rewrite IH.
Qed.

Lemma length_join l : (length l ≤ S (String.length (join "," l)))%nat.
Proof.
  destruct l as [|x l]; cbn [join length String.length]; [lia|]. rewrite str_length_app.
  induction l as [|y l IH]; cbn [foldr length]; [lia|]. rewrite !str_length_app. simpl String.length. lia.
Qed.

#[local] Instance reader_laws : JsonTextLaws.
Proof.
  split; [|intros s Hs; cbn; unfold write_string; by rewrite escape_plain].
  intros o _ Ho. cbn [json_from_slice reader]. unfold bytes_of.
  rewrite String.string_of_list_byte_of_string. unfold flat_text, read_object.
  rewrite str_app_cons, str_app_nil. destruct o as [|[k v] o]; [done|].
  set (t := join _ _ +:+ "}").
  assert (∃ s, t = String "034" s) as [s Hs] by (by eexists).
  rewrite Hs. rewrite bool_decide_eq_false_2 by done. rewrite <- Hs. unfold t.
  rewrite read_members_flat; [done|done| |].
  - pose proof (length_join (flat_member <$> (k, v) :: o)) as Hl. rewrite length_fmap in Hl.
    cbn [String.length]. rewrite str_length_app. cbn [String.length]. lia.
  - eapply Forall_impl; [exact Ho|]. by intros m [? _].
Qed.

End FlatJson.
