(* ===== verification/ReceiptKeys.v ===== *)
(** * Receipt keys (crates/macp-core/src/receipt/keys.rs, verify.rs)

    The signing key of a runtime, the key set it publishes, and the trusted keys
    a verifier reads from a published set. Ed25519 is a parameter. *)

From Stdlib Require Import Ascii.
From stdpp Require Import prelude gmap strings sorting.
From S2P Require Import Prelude RustStr Floats Extern PolicyKeys Wire CommitmentHash Base64 Pagination Jcs Json.
Open Scope Z_scope.

(** ** Ed25519 (the ed25519-dalek crate) *)
Class Ed25519 := {
  SigningKey : Type;
  VerifyingKey : Type;
  Signature : Type;
  sk_from_bytes : bytes → SigningKey;
  sk_from_pkcs8_pem : string → option SigningKey;
  sk_verifying_key : SigningKey → VerifyingKey;
  vk_to_bytes : VerifyingKey → bytes;
  vk_from_bytes : bytes → option VerifyingKey;
  sk_sign : SigningKey → bytes → Signature;
  sig_to_bytes : Signature → bytes;
  sig_from_slice : bytes → option Signature;
  verify_strict : VerifyingKey → bytes → Signature → bool;
}.

(** Keys and signatures survive their encodings, a public key has 32 bytes, and
    a key verifies what it signed. *)
Class Ed25519Laws `{Ed25519} : Prop := {
  vk_length k : length (vk_to_bytes k) = 32%nat;
  vk_roundtrip sk :
    vk_from_bytes (vk_to_bytes (sk_verifying_key sk)) = Some (sk_verifying_key sk);
  sig_roundtrip s : sig_from_slice (sig_to_bytes s) = Some s;
  sign_verifies sk m : verify_strict (sk_verifying_key sk) m (sk_sign sk m) = true;
}.

(** ** Errors *)
Inductive KeyError :=
| Unrecognized
| BadPem
| NotEd25519
| MissingMember (member : string)
| BadCoordinate (member : string)
| PublicKeyMismatch
| MissingKid
| KidConflict (jwk configured : string)
| PrivateMember (kid member : string)
| DuplicateKid (kid : string)
| KeysNotArray.

Definition PRIVATE_MEMBERS : list string := ["d"; "p"; "q"; "dp"; "dq"; "qi"; "oth"; "k"].

(** Coordinates by [kid]. *)
Abbreviation TrustedKeys := (gmap string string).

Section keys.
Context `{Ed25519, Base64Url, JsonText}.

(** ** The signer *)
Record ReceiptSigner := MkReceiptSigner { rs_key : SigningKey; rs_kid : string }.

Definition coordinate (b64 member : string) : result KeyError bytes :=
  ok_or
    (b ← b64_decode b64;
     if bool_decide (length b = 32%nat) then Some b else None)
    (BadCoordinate member).

Definition from_seed (seed : bytes) (kid : string) : result KeyError ReceiptSigner :=
  if str_is_empty kid then Err MissingKid
  else Ok (MkReceiptSigner (sk_from_bytes seed) kid).

Definition from_pkcs8_pem (pem kid : string) : result KeyError ReceiptSigner :=
  key ← ok_or (sk_from_pkcs8_pem pem) BadPem;
  if str_is_empty kid then Err MissingKid else Ok (MkReceiptSigner key kid).

(** The [kid] of a JWK beside the configured one. *)
Definition signer_kid (own configured_kid : option string) : result KeyError string :=
  let configured_kid := configured_kid ≫= λ k, if str_is_empty k then None else Some k in
  match own, configured_kid with
  | Some own, Some conf =>
      if own != conf then Err (KidConflict own conf) else Ok own
  | Some own, None => Ok own
  | None, Some conf => Ok conf
  | None, None => Err MissingKid
  end.

Definition is_ed25519 (jwk : Value) : bool :=
  (str_field "kty" jwk == Some "OKP") && (str_field "crv" jwk == Some "Ed25519").

Definition from_jwk (jwk : Value) (configured_kid : option string)
    : result KeyError ReceiptSigner :=
  if negb (is_ed25519 jwk) then Err NotEd25519
  else
    d ← ok_or (str_field "d" jwk) (MissingMember "d");
    seed ← coordinate d "d";
    kid ← signer_kid (str_field "kid" jwk) configured_kid;
    signer ← from_seed seed kid;
    match value_get "x" jwk with
    | Some x =>
        x ← ok_or (as_str x) (BadCoordinate "x");
        x ← coordinate x "x";
        if x != vk_to_bytes (sk_verifying_key (rs_key signer)) then Err PublicKeyMismatch
        else Ok signer
    | None => Ok signer
    end.

Definition load (text : string) (configured_kid : option string)
    : result KeyError ReceiptSigner :=
  let trimmed := trim_start text in
  if starts_with "-----BEGIN" trimmed then
    from_pkcs8_pem text (default "" configured_kid)
  else
    match json_from_str text with
    | Some (VObject o) => from_jwk (VObject o) configured_kid
    | _ => Err Unrecognized
    end.

Definition public_x (signer : ReceiptSigner) : string :=
  b64_encode (vk_to_bytes (sk_verifying_key (rs_key signer))).
Definition public_members (signer : ReceiptSigner) : list (string * Value) :=
  [("kty", VString "OKP"); ("crv", VString "Ed25519"); ("kid", VString (rs_kid signer));
   ("x", VString (public_x signer)); ("alg", VString "EdDSA"); ("use", VString "sig")].
Definition public_jwk (signer : ReceiptSigner) : Value := json_object (public_members signer).

Definition signer_sign (signer : ReceiptSigner) (message : bytes) : bytes :=
  sig_to_bytes (sk_sign (rs_key signer) message).

(** ** The key set *)
Record KeySet := MkKeySet { ks_keys : list (list (string * Value)) }.
Definition keyset_new : KeySet := MkKeySet [].

Definition keyset_kid (set : KeySet) (kid : string) : option (list (string * Value)) :=
  List.find (λ k, str_field "kid" (VObject k) == Some kid) (ks_keys set).

(** One turn of the loop of [retired_from_jwks]. *)
Definition push_retired (set : KeySet) (key : Value) : result KeyError KeySet :=
  obj ← ok_or (as_object key) (MissingMember "kty");
  kid ← ok_or (str_field "kid" key) (MissingMember "kid");
  match List.find (λ m, bool_decide (is_Some (obj_get m obj))) PRIVATE_MEMBERS with
  | Some member => Err (PrivateMember kid member)
  | None =>
      if bool_decide (obj_get "kty" obj = None) then Err (MissingMember "kty")
      else if negb (is_ed25519 key) then Err NotEd25519
      else
        x ← ok_or (str_field "x" key) (MissingMember "x");
        x ← coordinate x "x";
        _ ← ok_or (vk_from_bytes x) (BadCoordinate "x");
        match keyset_kid set kid with
        | Some _ => Err (DuplicateKid kid)
        | None => Ok (MkKeySet (ks_keys set ++ [obj]))
        end
  end.
Fixpoint push_all (set : KeySet) (keys : list Value) : result KeyError KeySet :=
  match keys with
  | [] => Ok set
  | key :: keys => set ← push_retired set key; push_all set keys
  end.
Definition retired_from_jwks (doc : Value) : result KeyError KeySet :=
  keys ← ok_or (value_get "keys" doc ≫= as_array) KeysNotArray;
  push_all keyset_new keys.

(** [Option<&Value>: PartialEq]. *)
Definition opt_value_eq (a b : option Value) : bool :=
  match a, b with
  | Some a, Some b => value_eq a b
  | None, None => true
  | _, _ => false
  end.

(** [Vec::remove] at the position of the first match. *)
Fixpoint take_first {A} (f : A → bool) (l : list A) : option (A * list A) :=
  match l with
  | [] => None
  | x :: l => if f x then Some (x, l) else '(y, l) ← take_first f l; Some (y, x :: l)
  end.

Definition with_active (set : KeySet) (signer : ReceiptSigner) : result KeyError KeySet :=
  let active := public_jwk signer in
  let members := default [] (as_object active) in
  match take_first (λ k, opt_value_eq (obj_get "kid" k) (value_get "kid" active)) (ks_keys set) with
  | Some (k, keys) =>
      if negb (opt_value_eq (obj_get "x" k) (value_get "x" active))
      then Err (DuplicateKid (rs_kid signer))
      else Ok (MkKeySet (members :: keys))
  | None => Ok (MkKeySet (members :: ks_keys set))
  end.

Definition to_jwks (set : KeySet) : Value :=
  json_object [("keys", VArray (VObject <$> ks_keys set))].
Definition to_jwks_json (set : KeySet) : string := json_to_string (to_jwks set).

(** ** Trusted keys *)
Definition jwks_entries (doc : Value) : result KeyError (list Value) :=
  match value_get "keys" doc with
  | Some (VArray keys) => Ok keys
  | Some _ => Err KeysNotArray
  | None => Ok [doc]
  end.
(** The loop of [add_jwks]; what was inserted before an error stays. *)
Fixpoint add_keys (keys : list Value) (added : Z) : stm TrustedKeys KeyError Z :=
  match keys with
  | [] => st_ret added
  | key :: keys =>
      if negb (is_ed25519 key) then add_keys keys added
      else
        match str_field "kid" key, str_field "x" key with
        | Some kid, Some x =>
            (do! st_mod (λ trusted, <[kid := x]> trusted);
             add_keys keys (added + 1))%stm
        | None, _ => st_fail (MissingMember "kid")
        | Some _, None => st_fail (MissingMember "x")
        end
  end.
Definition add_jwks (doc : Value) : stm TrustedKeys KeyError Z :=
  (let! keys := st_read (λ _, jwks_entries doc) in add_keys keys 0)%stm.
End keys.

(** ** Published key sets *)
Section published.
Context `{Ed25519Laws, Base64UrlLaws, JsonText}.
Implicit Types (k : list (string * Value)) (set : KeySet) (signer : ReceiptSigner).

Definition kid_of k : option string := str_field "kid" (VObject k).

(** A public Ed25519 key with a name and a valid point, and nothing private. *)
Record published k : Prop := {
  pub_kid : is_Some (kid_of k);
  pub_ed25519 : is_ed25519 (VObject k) = true;
  pub_point : ∃ x b, str_field "x" (VObject k) = Some x ∧ coordinate x "x" = Ok b ∧
    is_Some (vk_from_bytes b);
  pub_private : Forall (λ m, obj_get m k = None) PRIVATE_MEMBERS;
}.
Definition publishable (ks : list (list (string * Value))) : Prop :=
  Forall published ks ∧ NoDup (kid_of <$> ks).

Lemma find_kid_none ks kid :
  List.find (λ k, kid_of k == Some kid) ks = None ↔ Some kid ∉ kid_of <$> ks.
Proof.
  induction ks as [|k ks IH]; [by split; [intros _; apply not_elem_of_nil|]|].
  rewrite fmap_cons, not_elem_of_cons, <- IH. cbn [List.find].
  case_bool_decide as Hk; [rewrite Hk; naive_solver|]. naive_solver.
Qed.

Lemma push_retired_ok set key set' :
  push_retired set key = Ok set' → publishable (ks_keys set) → publishable (ks_keys set').
Proof.
  unfold push_retired. intros (k & Hk%ok_or_ok & (kid & Hkid%ok_or_ok & Hp)%bind_ok)%bind_ok [Hf Hn].
  destruct key as [| | | | | | |k']; try done. injection Hk as ->.
  destruct (List.find _ _) eqn:Hpriv; [done|].
  destruct (bool_decide _); [done|]. destruct (is_ed25519 _) eqn:Hed; [|done].
  apply bind_ok in Hp as (x & Hx%ok_or_ok & Hp). apply bind_ok in Hp as (b & Hb & Hp).
  apply bind_ok in Hp as (vk & Hvk%ok_or_ok & Hp).
  destruct (keyset_kid set kid) eqn:Hd; [done|]. injection Hp as <-. cbn [ks_keys]. split.
  - apply Forall_app. split; [done|]. apply Forall_cons. split; [|done]. split; eauto.
    apply Forall_forall. intros m Hm. eapply list_elem_of_In, List.find_none in Hm; [|exact Hpriv].
    apply bool_decide_eq_false in Hm. by apply eq_None_not_Some.
  - rewrite fmap_app. apply NoDup_app. split; [done|]. split; [|apply NoDup_singleton].
    intros y Hy Hin. apply list_elem_of_singleton in Hin. subst y. unfold kid_of at 1 in Hy.
    rewrite Hkid in Hy. by apply find_kid_none in Hd.
Qed.

Lemma push_all_ok keys set set' :
  push_all set keys = Ok set' → publishable (ks_keys set) → publishable (ks_keys set').
Proof.
  revert set. induction keys as [|key keys IH]; intros set; [by intros [= <-]|].
  intros (set1 & Hp & Ha)%bind_ok Hs. eauto using push_retired_ok.
Qed.

Lemma retired_ok doc set : retired_from_jwks doc = Ok set → publishable (ks_keys set).
Proof.
  intros (keys & _ & Hp)%bind_ok. apply push_all_ok in Hp; [done|]. split; constructor.
Qed.

(** The active key. *)
Lemma coordinate_of_key vk : coordinate (b64_encode (vk_to_bytes vk)) "x" = Ok (vk_to_bytes vk).
Proof.
  unfold coordinate. rewrite b64_roundtrip. cbn [mbind option_bind].
  by rewrite bool_decide_eq_true_2 by apply vk_length.
Qed.

Definition active_members signer : list (string * Value) :=
  [("alg", VString "EdDSA"); ("crv", VString "Ed25519"); ("kid", VString (rs_kid signer));
   ("kty", VString "OKP"); ("use", VString "sig"); ("x", VString (public_x signer))].
Lemma public_jwk_members signer : public_jwk signer = VObject (active_members signer).
Proof. reflexivity. Qed.

Lemma active_published signer : published (active_members signer).
Proof.
  split; [by eexists|done| |by repeat constructor].
  exists (public_x signer), (vk_to_bytes (sk_verifying_key (rs_key signer))).
  split; [done|]. split; [apply coordinate_of_key|]. rewrite vk_roundtrip. by eexists.
Qed.

Lemma take_first_some {A} (f : A → bool) l x l' :
  take_first f l = Some (x, l') → f x = true ∧ l ≡ₚ x :: l'.
Proof.
  revert l'. induction l as [|y l IH]; simpl; [done|]. intros l'.
  destruct (f y) eqn:Hy; [by intros [= -> ->]|].
  intros ([z l1] & Hz & [= -> <-])%bind_Some. apply IH in Hz as [Hz ->]. split; [done|].
  apply Permutation_swap.
Qed.
Lemma take_first_none {A} (f : A → bool) l :
  take_first f l = None → Forall (λ x, f x = false) l.
Proof.
  induction l as [|y l IH]; simpl; [constructor|]. destruct (f y) eqn:Hy; [done|].
  destruct (take_first f l) as [[]|]; [done|]. intros _. constructor; auto.
Qed.

Lemma member_string_eq n k s :
  opt_value_eq (obj_get n k) (Some (VString s)) = (str_field n (VObject k) == Some s).
Proof.
  unfold str_field. fold (obj_get n k). destruct (obj_get n k) as [v|]; [|done].
  destruct v; try done. simpl. apply bool_decide_ext. naive_solver.
Qed.

(** What [with_active] makes of a publishable set: the active key, then the
    retired keys, less the one that is the active key itself. *)
Lemma with_active_ok set signer set' :
  publishable (ks_keys set) → with_active set signer = Ok set' →
  publishable (ks_keys set') ∧ ∃ rest, ks_keys set' = active_members signer :: rest ∧
    (ks_keys set = rest ∨
     ∃ k, ks_keys set ≡ₚ k :: rest ∧ kid_of k = Some (rs_kid signer) ∧
       str_field "x" (VObject k) = Some (public_x signer)).
Proof.
  unfold with_active. rewrite public_jwk_members. cbn [as_object default].
  change (value_get "kid" _) with (Some (VString (rs_kid signer))).
  change (value_get "x" _) with (Some (VString (public_x signer))).
  intros [Hf Hn]. destruct (take_first _ _) as [[k rest]|] eqn:Ht.
  - apply take_first_some in Ht as [Hk Hp]. rewrite member_string_eq in Hk |- *.
    apply bool_decide_eq_true in Hk. case_bool_decide as Hx; [|done]. intros [= <-]. cbn [ks_keys].
    rewrite Hp in Hf. apply Forall_cons in Hf as [_ Hf].
    rewrite Hp, fmap_cons in Hn. fold (kid_of k) in Hk. rewrite Hk in Hn.
    apply NoDup_cons in Hn as [Hni Hn]. split; [|by exists rest; split; [done|right; exists k]].
    split; [constructor; [apply active_published|done]|]. by apply NoDup_cons.
  - apply take_first_none in Ht. intros [= <-]. cbn [ks_keys].
    split; [|by exists (ks_keys set); split; [done|left]].
    split; [constructor; [apply active_published|done]|]. apply NoDup_cons. split; [|done].
    intros (k & Hk & Hin)%list_elem_of_fmap. rewrite Forall_forall in Ht. apply Ht in Hin.
    rewrite member_string_eq in Hin. apply bool_decide_eq_false in Hin. by destruct Hin.
Qed.

(** A verifier that reads a publishable set trusts exactly its keys. *)
Lemma add_keys_ok ks added trusted :
  publishable ks →
  ∃ trusted', add_keys (VObject <$> ks) added trusted = (trusted', Ok (added + len ks)) ∧
    ∀ kid, trusted' !! kid =
      match List.find (λ k, kid_of k == Some kid) ks with
      | Some k => str_field "x" (VObject k)
      | None => trusted !! kid
      end.
Proof.
  intros [Hf Hn]. revert added trusted Hn. induction Hf as [|k ks [[kid Hkid] Hed (x & b & Hx & _ & _) _] Hf IH];
    intros added trusted.
  { intros _. exists trusted. split; [|done]. by rewrite Z.add_0_r. }
  rewrite fmap_cons. intros [Hni Hn]%NoDup_cons.
  destruct (IH (added + 1) (<[kid := x]> trusted) Hn) as (trusted' & Ha & Hl).
  exists trusted'. rewrite fmap_cons. cbn [add_keys]. rewrite Hed. fold (kid_of k).
  rewrite Hkid, Hx. split.
  { cbn. rewrite Ha. f_equal. f_equal. rewrite len_cons. lia. }
  intros kid'. rewrite Hl. cbn [List.find]. rewrite Hkid in Hni |- *.
  case_bool_decide as E.
  - injection E as <-. apply find_kid_none in Hni. rewrite Hni, lookup_insert_eq. done.
  - destruct (List.find _ _); [done|]. apply lookup_insert_ne. naive_solver.
Qed.

Lemma find_kid_some ks kid k :
  NoDup (kid_of <$> ks) →
  List.find (λ k, kid_of k == Some kid) ks = Some k ↔ k ∈ ks ∧ kid_of k = Some kid.
Proof.
  induction ks as [|k' ks IH].
  { intros _. split; [done|]. by intros [[]%elem_of_nil _]. }
  rewrite fmap_cons. intros [Hni Hn]%NoDup_cons. cbn [List.find]. rewrite elem_of_cons.
  case_bool_decide as E.
  - split; [intros [= ->]; auto|]. intros [[->|Hk] Hkid]; [done|]. destruct Hni.
    rewrite E, <- Hkid. by apply list_elem_of_fmap_2.
  - rewrite (IH Hn). split; [naive_solver|]. intros [[->|?] ?]; naive_solver.
Qed.

(** The trusted keys of a verifier that reads the published document. *)
Lemma published_trusted set :
  publishable (ks_keys set) →
  ∃ trusted, add_jwks (to_jwks set) ∅ = (trusted, Ok (len (ks_keys set))) ∧
    ∀ kid, trusted !! kid = keyset_kid set kid ≫= λ k, str_field "x" (VObject k).
Proof.
  intros Hs. destruct (add_keys_ok _ 0 ∅ Hs) as (trusted & Ha & Hl). exists trusted.
  split; [exact Ha|]. intros kid. rewrite Hl. unfold keyset_kid. fold kid_of.
  change (λ k, str_field "kid" (VObject k) == Some kid) with (λ k, kid_of k == Some kid).
  by destruct (List.find _ _).
Qed.

Lemma active_found set signer set' :
  publishable (ks_keys set) → with_active set signer = Ok set' →
  keyset_kid set' (rs_kid signer) = Some (active_members signer).
Proof.
  intros Hs Hw. destruct (with_active_ok _ _ _ Hs Hw) as [[_ Hn] (rest & E & _)].
  apply find_kid_some; [done|]. rewrite E. split; [left|done].
Qed.

(** The key set a runtime publishes, its active key over the retired ones it
    was configured with, holds public Ed25519 keys under distinct names and no
    private member; the active key is in it and no retired key is lost; and a
    verifier that reads the published document trusts exactly its keys. *)
Theorem key_set_publishable doc set signer set' :
  retired_from_jwks doc = Ok set → with_active set signer = Ok set' →
  publishable (ks_keys set') ∧
  keyset_kid set' (rs_kid signer) = Some (active_members signer) ∧
  (∀ kid k, keyset_kid set kid = Some k → kid ≠ rs_kid signer → keyset_kid set' kid = Some k) ∧
  ∃ trusted, add_jwks (to_jwks set') ∅ = (trusted, Ok (len (ks_keys set'))) ∧
    ∀ kid, trusted !! kid = keyset_kid set' kid ≫= λ k, str_field "x" (VObject k).
Proof.
  intros Hr Hw. pose proof (retired_ok _ _ Hr) as Hs.
  destruct (with_active_ok _ _ _ Hs Hw) as [Hs' (rest & E & Hrest)].
  split; [done|]. split; [by apply (active_found set)|]. split; [|by apply published_trusted].
  intros kid k Hk Hne. apply find_kid_some in Hk as [Hin Hkid]; [|apply Hs].
  apply find_kid_some; [apply Hs'|]. split; [|done]. rewrite E. right.
  destruct Hrest as [<-|(k' & Hp & Hk' & _)]; [done|]. rewrite Hp in Hin.
  apply elem_of_cons in Hin as [->|?]; [congruence|done].
Qed.

(** A signer is what its own private JWK gives back. *)
Lemma from_jwk_roundtrip seed kid :
  length seed = 32%nat → kid ≠ "" →
  let signer := MkReceiptSigner (sk_from_bytes seed) kid in
  from_jwk (VObject (obj_insert "d" (VString (b64_encode seed)) (active_members signer))) None
  = Ok signer.
Proof.
  intros Hl Hk signer. unfold from_jwk.
  change (is_ed25519 _) with true. cbn [negb].
  change (str_field "d" _) with (Some (b64_encode seed)).
  change (str_field "kid" _) with (Some kid).
  change (value_get "x" _) with (Some (VString (public_x signer))).
  assert (coordinate (b64_encode seed) "d" = Ok seed) as Hd.
  { unfold coordinate. rewrite b64_roundtrip. cbn [mbind option_bind]. by rewrite bool_decide_eq_true_2. }
  cbn [ok_or mbind result_bind]. rewrite Hd. cbn [mbind result_bind signer_kid option_bind].
  unfold from_seed. replace (str_is_empty kid) with false by (by destruct kid).
  cbn [mbind result_bind as_str ok_or]. unfold public_x. rewrite coordinate_of_key.
  cbn [mbind result_bind rs_key]. by rewrite bool_decide_eq_true_2.
Qed.
End published.

(** A scheme that keeps the laws (and no secrets), to evaluate what is proved from
    them: a signature is the key before the message. *)
Module PlainKeys.
Definition pad (b : bytes) : bytes := take 32 (b ++ replicate 32 Byte.x00).

Lemma length_pad b : length (pad b) = 32%nat.
Proof. unfold pad. rewrite length_take, length_app, length_replicate. lia. Qed.
Lemma pad_pad b : pad (pad b) = pad b.
Proof. unfold pad at 1. rewrite take_app_le by (rewrite length_pad; lia). apply take_ge. by rewrite length_pad. Qed.

#[local] Instance scheme : Ed25519 := {|
  SigningKey := bytes; VerifyingKey := bytes; Signature := bytes;
  sk_from_bytes := pad;
  sk_from_pkcs8_pem _ := None;
  sk_verifying_key := pad;
  vk_to_bytes := pad;
  vk_from_bytes := Some;
  sk_sign k m := pad k ++ m;
  sig_to_bytes s := s;
  sig_from_slice := Some;
  verify_strict k m s := bool_decide (s = k ++ m) |}.
#[local] Instance scheme_laws : Ed25519Laws.
Proof.
  split; simpl; [apply length_pad| |done|].
  - intros sk. by rewrite pad_pad.
  - intros sk m. by apply bool_decide_eq_true_2.
Qed.
End PlainKeys.

Module Demo.
Import UrlSafe PlainKeys FlatJson.
#[local] Existing Instances UrlSafe.engine UrlSafe.engine_laws.
#[local] Existing Instances PlainKeys.scheme PlainKeys.scheme_laws FlatJson.reader.

Definition old_key : ReceiptSigner := MkReceiptSigner (pad []) "2025".
Definition new_key : ReceiptSigner := MkReceiptSigner (pad [Byte.x01]) "2026".
Definition retired_doc : Value := json_object [("keys", VArray [public_jwk old_key])].
Definition retired : KeySet := MkKeySet [active_members old_key].
Definition published_set : KeySet := MkKeySet [active_members new_key; active_members old_key].

Lemma key_set_publishable_witness :
  publishable (ks_keys published_set) ∧
  keyset_kid published_set "2026" = Some (active_members new_key) ∧
  (∀ kid k, keyset_kid retired kid = Some k → kid ≠ "2026" → keyset_kid published_set kid = Some k) ∧
  ∃ trusted, add_jwks (to_jwks published_set) ∅ = (trusted, Ok 2) ∧
    ∀ kid, trusted !! kid = keyset_kid published_set kid ≫= λ k, str_field "x" (VObject k).
Proof.
  apply (key_set_publishable retired_doc retired new_key published_set);
    vm_compute; reflexivity.
Defined.
End Demo.
