(* ===== verification/Receipt.v ===== *)
(** * Decision receipts (crates/macp-core/src/receipt/build.rs, verify.rs)

    Issuing a receipt for a resolving commitment and verifying one: the
    projection of the commitment, the integrity check, the detached signature
    over the canonical body, and the verdict. *)

From Stdlib Require Import Ascii.
From stdpp Require Import prelude gmap strings sorting.
From S2P Require Import Prelude RustStr Floats Extern PolicyKeys Wire CommitmentHash Base64 Pagination Jcs Json ReceiptKeys.
Open Scope Z_scope.

Definition FORMAT : string := "macp-receipt/1".

(** ** The outcome of verification *)
Inductive Integrity := IMatch | IMismatch | ICannotVerify.
Inductive AttestationOutcome := Valid | Invalid | UnknownKey | Unsupported.
Inductive Verdict := Attested | IntegrityOnly | Unverified | Refused.
Record Verification := MkVerification {
  vf_integrity : option Integrity;
  vf_attestations : list AttestationOutcome;
  vf_verdict : Verdict;
}.
#[export] Instance Integrity_eq_dec : EqDecision Integrity.
Proof. solve_decision. Defined.
#[export] Instance AttestationOutcome_eq_dec : EqDecision AttestationOutcome.
Proof. solve_decision. Defined.

Definition STRING_FIELDS : list string :=
  ["commitment_id"; "action"; "authority_scope"; "reason"; "mode_version"; "policy_version";
   "configuration_version"].

(** The closure [string] of [payload_of]. *)
Definition string_member (o : list (string * Value)) (k : string) : option string :=
  match obj_get k o with
  | None => Some ""
  | Some v => as_str v
  end.

Definition supersedes_of (obj : list (string * Value)) : option (option CommitmentRef) :=
  match obj_get "supersedes" obj with
  | None => Some None
  | Some s =>
      s ← as_object s;
      if negb (forallb (λ m, (m.1 == "session_id") || (m.1 == "commitment_hash")) s) then None
      else
        session_id ← string_member s "session_id";
        commitment_hash ← string_member s "commitment_hash";
        Some (Some (MkCommitmentRef session_id commitment_hash))
  end.

Definition payload_of (commitment : Value) : option CommitmentPayload :=
  obj ← as_object commitment;
  let known k := str_elem k STRING_FIELDS || (k == "outcome_positive") || (k == "supersedes") in
  if negb (forallb (λ m, known m.1) obj) then None
  else
    supersedes ← supersedes_of obj;
    commitment_id ← string_member obj "commitment_id";
    action ← string_member obj "action";
    authority_scope ← string_member obj "authority_scope";
    reason ← string_member obj "reason";
    mode_version ← string_member obj "mode_version";
    policy_version ← string_member obj "policy_version";
    configuration_version ← string_member obj "configuration_version";
    outcome_positive ← match obj_get "outcome_positive" obj with
                       | None => Some false
                       | Some v => as_bool v
                       end;
    Some (MkCommitmentPayload commitment_id action authority_scope reason mode_version
            policy_version configuration_version outcome_positive supersedes).

Definition project (p : CommitmentPayload) : Value :=
  let obj := default [] (as_object (json_object
    [("commitment_id", VString (cp_commitment_id p)); ("action", VString (cp_action p));
     ("authority_scope", VString (cp_authority_scope p)); ("reason", VString (cp_reason p));
     ("mode_version", VString (cp_mode_version p));
     ("policy_version", VString (cp_policy_version p));
     ("configuration_version", VString (cp_configuration_version p));
     ("outcome_positive", VBool (cp_outcome_positive p))])) in
  VObject
    match cp_supersedes p with
    | Some s =>
        obj_insert "supersedes"
          (json_object [("session_id", VString (ref_session_id s));
                        ("commitment_hash", VString (ref_commitment_hash s))]) obj
    | None => obj
    end.

Section receipts.
Context `{Sha256, Message CommitmentPayload, Base64Url, Base64Std, Ed25519, JsonText}.

(** ** Verification *)
Definition integrity (receipt : Value) : Integrity :=
  match value_get "commitment" receipt with
  | None => ICannotVerify
  | Some commitment =>
      match payload_of commitment with
      | None => ICannotVerify
      | Some payload =>
          let claimed := str_field "commitment_hash" receipt in
          if claimed != Some (commitment_hash payload) then IMismatch
          else
            match value_get "commitment_wire_b64" receipt with
            | None => IMatch
            | Some wire =>
                match as_str wire ≫= std_decode with
                | None => ICannotVerify
                | Some wire =>
                    match verify_commitment_hash wire (default "" claimed) with
                    | Match =>
                        match decode wire with
                        | Some decoded =>
                            if value_eq (project decoded) commitment then IMatch else IMismatch
                        | None => ICannotVerify
                        end
                    | Mismatch _ => IMismatch
                    | CannotVerifyOutcome _ => ICannotVerify
                    end
                end
            end
      end
  end.

Definition receipt_body (receipt : Value) : option bytes :=
  body ← as_object receipt;
  match jcs_canonicalize (VObject (obj_remove "attestations" body)) with
  | Ok b => Some b
  | Err _ => None
  end.

Definition verifying_key (x : string) : option VerifyingKey :=
  b ← b64_decode x;
  if bool_decide (length b = 32%nat) then vk_from_bytes b else None.

(** What a signature is over: the protected header and the detached body. *)
Definition signing_input (header_b64 : string) (body : bytes) : bytes :=
  bytes_of (header_b64 +:+ ".") ++ bytes_of (b64_encode body).

(** The parts of a compact JWS with a detached payload. *)
Definition jws_parts (jws : string) : option (string * string) :=
  match split_on "."%char jws with
  | [header_b64; ""; sig_b64] => Some (header_b64, sig_b64)
  | _ => None
  end.

Definition attestation (att : Value) (body : option bytes) (trusted : TrustedKeys)
    : AttestationOutcome :=
  if str_field "type" att != Some "jws" then Unsupported
  else
    let jws := default "" (str_field "jws" att) in
    match jws_parts jws with
    | None => Invalid
    | Some (header_b64, sig_b64) =>
        match b64_decode header_b64 ≫= json_from_slice, b64_decode sig_b64 with
        | Some header, Some signature =>
            if negb (is_object header) || (str_field "alg" header != Some "EdDSA")
            then Unsupported
            else
              match str_field "kid" header ≫= λ kid, trusted !! kid with
              | None => UnknownKey
              | Some key =>
                  match body, verifying_key key, sig_from_slice signature with
                  | Some body, Some key, Some signature =>
                      if verify_strict key (signing_input header_b64 body) signature
                      then Valid else Invalid
                  | _, _, _ => Invalid
                  end
              end
        | _, _ => Invalid
        end
    end.

Definition verify (receipt : Value) (trusted : TrustedKeys) : Verification :=
  if str_field "receipt_format" receipt != Some FORMAT then MkVerification None [] Refused
  else
    let found := integrity receipt in
    if found != IMatch then MkVerification (Some found) [] Unverified
    else
      let body := receipt_body receipt in
      let attestations :=
        match value_get "attestations" receipt ≫= as_array with
        | Some atts => (λ a, attestation a body trusted) <$> atts
        | None => []
        end in
      let verdict :=
        if bool_decide (Valid ∈ attestations) then Attested else IntegrityOnly in
      MkVerification (Some IMatch) attestations verdict.

(** ** Issuing *)
Record ReceiptInputs := MkReceiptInputs {
  ri_session_id : string;
  ri_mode : string;
  ri_wire : bytes;
  ri_issuer : string;
  ri_issued_at : string;
  ri_semantics_rev : option (string * Z);
}.

(** [NotHashable], and the panic of an [expect] ([build_ok] rules it out). *)
Inductive BuildError := NotHashable (why : CannotVerify) | Panic.

Definition jws_header (kid : string) : string :=
  "{" +:+ quote +:+ "alg" +:+ quote +:+ ":" +:+ quote +:+ "EdDSA" +:+ quote +:+ "," +:+ quote +:+ "kid"
  +:+ quote +:+ ":" +:+ json_to_string (VString kid) +:+ "}".

(** The body, before it is signed. *)
Definition body_members (inputs : ReceiptInputs) (hash : string) (payload : CommitmentPayload)
    : list (string * Value) :=
  let body := [] in
  let body := obj_insert "receipt_format" (VString FORMAT) body in
  let body := obj_insert "session_id" (VString (ri_session_id inputs)) body in
  let body := obj_insert "mode" (VString (ri_mode inputs)) body in
  let body := obj_insert "commitment" (project payload) body in
  let body := obj_insert "commitment_hash" (VString hash) body in
  let body := obj_insert "commitment_wire_b64" (VString (std_encode (ri_wire inputs))) body in
  let body :=
    match ri_semantics_rev inputs with
    | Some (implementation, rev) =>
        obj_insert "semantics_rev"
          (json_object [("implementation", VString implementation); ("rev", VUint rev)]) body
    | None => body
    end in
  let body := obj_insert "issuer" (VString (ri_issuer inputs)) body in
  obj_insert "issued_at" (VString (ri_issued_at inputs)) body.

Definition expect {A} (r : result NotCanonicalizable A) : result BuildError A :=
  match r with Ok a => Ok a | Err _ => Err Panic end.

Definition jws_of (signer : ReceiptSigner) (body : bytes) : string :=
  let header := b64_encode (bytes_of (jws_header (rs_kid signer))) in
  let input := signing_input header body in
  let sig := b64_encode (signer_sign signer input) in
  header +:+ ".." +:+ sig.

Definition build (inputs : ReceiptInputs) (signer : option ReceiptSigner)
    : result BuildError bytes :=
  hash ← (match commitment_hash_of_wire (ri_wire inputs) with
          | Ok h => Ok h | Err why => Err (NotHashable why) end);
  payload ← ok_or (decode (ri_wire inputs)) (NotHashable (Malformed [FDebug "prost::DecodeError"]));
  let receipt := body_members inputs hash payload in
  attestations ← (match signer with
    | None => Ok (VArray [])
    | Some signer =>
        body ← expect (jcs_canonicalize (VObject receipt));
        Ok (VArray [json_object [("type", VString "jws"); ("jws", VString (jws_of signer body))]])
    end);
  expect (jcs_canonicalize (VObject (obj_insert "attestations" attestations receipt))).
End receipts.

(** ** The projection *)
Lemma payload_of_project p : payload_of (project p) = Some p.
Proof. by destruct p as [? ? ? ? ? ? ? ? [[]|]]. Qed.

Lemma project_canonical p : canonical (project p).
Proof.
  unfold project. destruct (cp_supersedes p) as [s|].
  - apply canonical_insert; apply canonical_json_object; by repeat constructor.
  - apply canonical_json_object. by repeat constructor.
Qed.

Section issuing.
Context `{Sha256Laws, Message CommitmentPayload, Base64UrlLaws, Base64StdLaws, Ed25519Laws}.
Context `{JsonTextLaws}.
Implicit Types inputs : ReceiptInputs.

(** [rev] is a [u32]. *)
Definition inputs_ok inputs : Prop :=
  match ri_semantics_rev inputs with Some (_, rev) => 0 <= rev | None => True end.

Lemma body_canonical inputs hash payload :
  inputs_ok inputs → canonical (VObject (body_members inputs hash payload)).
Proof.
  unfold inputs_ok, body_members. intros Hi.
  do 2 (apply canonical_insert; [done|]).
  assert (∀ o, canonical (VObject o) → canonical (VObject (match ri_semantics_rev inputs with
    | Some (implementation, rev) =>
        obj_insert "semantics_rev"
          (json_object [("implementation", VString implementation); ("rev", VUint rev)]) o
    | None => o end))) as Hrev.
  { intros o Ho. destruct (ri_semantics_rev inputs) as [[i rev]|]; [|done].
    apply canonical_insert; [|done]. apply canonical_json_object. by repeat constructor. }
  apply Hrev. do 2 (apply canonical_insert; [done|]).
  apply canonical_insert; [apply project_canonical|].
  do 3 (apply canonical_insert; [done|]). apply canonical_object. by repeat constructor.
Qed.

(** What the body holds under each name. *)
Lemma body_get inputs hash payload :
  let get k := obj_get k (body_members inputs hash payload) in
  get "receipt_format" = Some (VString FORMAT) ∧
  get "commitment" = Some (project payload) ∧
  get "commitment_hash" = Some (VString hash) ∧
  get "commitment_wire_b64" = Some (VString (std_encode (ri_wire inputs))) ∧
  get "attestations" = None ∧
  get "session_id" = Some (VString (ri_session_id inputs)).
Proof.
  cbn zeta. unfold body_members.
  destruct (ri_semantics_rev inputs) as [[i rev]|]; repeat split;
    repeat first [rewrite obj_get_insert | rewrite obj_get_insert_ne by done]; done.
Qed.

(** The [attestations] member. *)
Definition attestations_of (signer : option ReceiptSigner) (body : bytes) : Value :=
  VArray
    match signer with
    | None => []
    | Some signer =>
        [json_object [("type", VString "jws"); ("jws", VString (jws_of signer body))]]
    end.

Lemma canonical_attestations signer body : canonical (attestations_of signer body).
Proof.
  apply canonical_array. destruct signer; constructor; [|constructor].
  apply canonical_json_object. by repeat constructor.
Qed.

Lemma jcs_total v : canonical v → ∃ b, jcs_canonicalize v = Ok b.
Proof.
  intros [t Ht]%write_value_total. exists (bytes_of t). unfold jcs_canonicalize. by rewrite Ht.
Qed.
Lemma jcs_inj v v' b :
  canonical v → canonical v' → jcs_canonicalize v = Ok b → jcs_canonicalize v' = Ok b → v = v'.
Proof.
  unfold jcs_canonicalize. intros Hv Hv' (t & Ht & [= <-])%bind_ok (t' & Ht' & [= E])%bind_ok.
  apply bytes_of_inj in E. subst. by eapply write_value_inj.
Qed.

(** Whatever hashes gets a receipt, and it is the canonical form of its body with
    the attestation over that body. *)
Lemma build_ok inputs signer hash :
  inputs_ok inputs → commitment_hash_of_wire (ri_wire inputs) = Ok hash →
  ∃ payload body bytes,
    decode (ri_wire inputs) = Some payload ∧ hash = commitment_hash payload ∧
    let members := body_members inputs hash payload in
    let receipt := VObject (obj_insert "attestations" (attestations_of signer body) members) in
    jcs_canonicalize (VObject members) = Ok body ∧
    canonical receipt ∧ jcs_canonicalize receipt = Ok bytes ∧ build inputs signer = Ok bytes.
Proof.
  intros Hi Hh. pose proof Hh as Hh'. unfold commitment_hash_of_wire in Hh'.
  apply bind_ok in Hh' as (_ & _ & Hh'). apply bind_ok in Hh' as (payload & Hp%ok_or_ok & Hhash).
  injection Hhash as <-. set (hash := commitment_hash payload) in *.
  pose proof (body_canonical inputs hash payload Hi) as Hc.
  destruct (jcs_total _ Hc) as [body Hb].
  assert (canonical (VObject (obj_insert "attestations" (attestations_of signer body)
    (body_members inputs hash payload)))) as Hr
    by (apply canonical_insert; [apply canonical_attestations|done]).
  destruct (jcs_total _ Hr) as [bytes Hbytes]. exists payload, body, bytes.
  do 2 (split; [done|]). cbn zeta. do 3 (split; [done|]).
  unfold build. rewrite Hh. cbn [mbind result_bind]. rewrite Hp. cbn [ok_or mbind result_bind].
  destruct signer as [signer|]; cbn [mbind result_bind expect].
  - rewrite Hb. cbn [mbind result_bind expect]. unfold attestations_of in Hbytes. by rewrite Hbytes.
  - unfold attestations_of in Hbytes. by rewrite Hbytes.
Qed.

(** ** The parts of a signature *)
Definition dotless (s : string) : Prop := str_all (λ c, negb (c == "."%char)) s = true.

Lemma b64_dotless b : dotless (b64_encode b).
Proof.
  unfold dotless. pose proof (b64_alphabet b) as Ha. induction (b64_encode b) as [|c s IH]; [done|].
  cbn [str_all] in *. apply andb_true_iff in Ha as [Hc Hs]. rewrite (IH Hs), andb_true_r.
  case_bool_decide; [by subst|done].
Qed.

Lemma split_dotless s : dotless s → split_on "."%char s = [s].
Proof.
  unfold dotless. induction s as [|c s IH]; [done|]. cbn [str_all split_on]. intros [Hc Hs]%andb_true_iff.
  apply negb_true_iff in Hc. rewrite Hc, IH by done. done.
Qed.
Lemma split_dot s t :
  dotless s → split_on "."%char (s +:+ String "."%char t) = s :: split_on "."%char t.
Proof.
  unfold dotless. induction s as [|c s IH]; [done|]. rewrite str_app_cons. cbn [str_all split_on].
  intros [Hc Hs]%andb_true_iff. apply negb_true_iff in Hc. by rewrite Hc, IH.
Qed.

Lemma jws_parts_of h s : dotless h → dotless s → jws_parts (h +:+ ".." +:+ s) = Some (h, s).
Proof.
  intros Hh Hs. unfold jws_parts. rewrite str_app_cons, split_dot by done. rewrite str_app_cons.
  cbn [split_on]. rewrite bool_decide_eq_true_2 by done. by rewrite str_app_nil, split_dotless.
Qed.

Lemma header_parses kid :
  is_utf8 kid = true →
  json_from_slice (bytes_of (jws_header kid)) =
  Some (VObject [("alg", VString "EdDSA"); ("kid", VString kid)]).
Proof.
  intros Hk. pose proof (json_flat [("alg", "EdDSA"); ("kid", kid)]) as Hf.
  assert (jws_header kid = flat_text [("alg", "EdDSA"); ("kid", kid)]) as ->.
  { unfold jws_header, flat_text, flat_member. cbn [fmap list_fmap fst snd join foldr].
    rewrite (json_plain "EdDSA") by done. rewrite !str_app_assoc. do 12 f_equal. }
  apply Hf; repeat constructor; done.
Qed.

(** ** What is issued verifies *)
Lemma issued_integrity inputs payload atts :
  commitment_hash_of_wire (ri_wire inputs) = Ok (commitment_hash payload) →
  decode (ri_wire inputs) = Some payload →
  integrity (VObject (obj_insert "attestations" atts
    (body_members inputs (commitment_hash payload) payload))) = IMatch.
Proof.
  intros Hh Hd. unfold integrity, str_field. set (members := body_members _ _ _).
  destruct (body_get inputs (commitment_hash payload) payload) as (_ & Hc & Hhash & Hw & _).
  fold members in Hc, Hhash, Hw. fold (obj_get "commitment" (obj_insert "attestations" atts members)).
  fold (obj_get "commitment_hash" (obj_insert "attestations" atts members)).
  fold (obj_get "commitment_wire_b64" (obj_insert "attestations" atts members)).
  rewrite !obj_get_insert_ne, Hc, Hhash, Hw by done. rewrite payload_of_project.
  cbn [mbind option_bind as_str]. rewrite bool_decide_eq_true_2 by done. cbn [negb default].
  rewrite std_roundtrip. unfold verify_commitment_hash. rewrite Hh.
  unfold id. rewrite commitment_hash_canonical, bool_decide_eq_true_2 by done. cbn [andb]. rewrite Hd.
  by rewrite (proj2 (value_eq_spec _ _ (project_canonical payload))).
Qed.

Lemma issued_body members atts body :
  obj_get "attestations" members = None → jcs_canonicalize (VObject members) = Ok body →
  receipt_body (VObject (obj_insert "attestations" atts members)) = Some body.
Proof.
  intros Ha Hb. unfold receipt_body. cbn [as_object mbind option_bind].
  by rewrite obj_remove_insert, Hb.
Qed.

Lemma issued_key (signer : ReceiptSigner) :
  verifying_key (public_x signer) = Some (sk_verifying_key (rs_key signer)).
Proof.
  unfold verifying_key, public_x. rewrite b64_roundtrip. cbn [mbind option_bind].
  rewrite bool_decide_eq_true_2 by apply vk_length. apply vk_roundtrip.
Qed.

Lemma issued_attestation (signer : ReceiptSigner) body (trusted : TrustedKeys) :
  is_utf8 (rs_kid signer) = true → trusted !! rs_kid signer = Some (public_x signer) →
  attestation (json_object [("type", VString "jws"); ("jws", VString (jws_of signer body))])
    (Some body) trusted = Valid.
Proof.
  intros Hu Ht. unfold attestation.
  change (str_field "type" _) with (Some "jws").
  change (str_field "jws" _) with (Some (jws_of signer body)). cbn [default].
  rewrite bool_decide_eq_true_2 by done. cbn [negb]. unfold id, jws_of.
  rewrite jws_parts_of by apply b64_dotless. rewrite !b64_roundtrip. cbn [mbind option_bind].
  rewrite header_parses by done. change (is_object _) with true.
  change (str_field "alg" _) with (Some "EdDSA").
  change (str_field "kid" _) with (Some (rs_kid signer)).
  rewrite bool_decide_eq_true_2 by done. cbn [negb orb mbind option_bind]. rewrite Ht, issued_key. unfold signer_sign.
  by rewrite sig_roundtrip, sign_verifies.
Qed.

Lemma issued_verifies inputs signer payload body trusted :
  commitment_hash_of_wire (ri_wire inputs) = Ok (commitment_hash payload) →
  decode (ri_wire inputs) = Some payload →
  let members := body_members inputs (commitment_hash payload) payload in
  jcs_canonicalize (VObject members) = Ok body →
  verify (VObject (obj_insert "attestations" (attestations_of signer body) members)) trusted =
  let outcomes :=
    match signer with
    | Some s => [attestation (json_object [("type", VString "jws"); ("jws", VString (jws_of s body))])
                   (Some body) trusted]
    | None => [] end in
  MkVerification (Some IMatch) outcomes
    (if bool_decide (Valid ∈ outcomes) then Attested else IntegrityOnly).
Proof.
  intros Hh Hd members Hb. unfold verify.
  destruct (body_get inputs (commitment_hash payload) payload) as (Hf & _ & _ & _ & Ha & _).
  fold members in Hf, Ha. unfold str_field.
  fold (obj_get "receipt_format" (obj_insert "attestations" (attestations_of signer body) members)).
  fold (obj_get "attestations" (obj_insert "attestations" (attestations_of signer body) members)).
  rewrite obj_get_insert_ne, Hf by done. cbn [mbind option_bind as_str].
  rewrite bool_decide_eq_true_2 by done. cbn [negb].
  rewrite (bool_decide_eq_true_2 (_ = IMatch)) by by apply issued_integrity. cbn [negb].
  rewrite (issued_body _ _ body), obj_get_insert by done. by destruct signer.
Qed.

(** A receipt that was built reads back as one value, which verifies: attested to
    those who trust its key, intact without a key. *)
Lemma built_verifies inputs signer bytes :
  inputs_ok inputs → build inputs signer = Ok bytes →
  ∃ receipt payload,
    canonical receipt ∧ jcs_canonicalize receipt = Ok bytes ∧
    decode (ri_wire inputs) = Some payload ∧
    value_get "commitment" receipt = Some (project payload) ∧
    value_get "session_id" receipt = Some (VString (ri_session_id inputs)) ∧
    ∀ trusted reading, canonical reading → jcs_canonicalize reading = Ok bytes →
      match signer with
      | Some s =>
          is_utf8 (rs_kid s) = true → trusted !! rs_kid s = Some (public_x s) →
          verify reading trusted = MkVerification (Some IMatch) [Valid] Attested
      | None => verify reading trusted = MkVerification (Some IMatch) [] IntegrityOnly
      end.
Proof.
  intros Hi Hbuild. assert (∃ hash, commitment_hash_of_wire (ri_wire inputs) = Ok hash) as [hash Hh].
  { unfold build in Hbuild. destruct (commitment_hash_of_wire _); [by eexists|done]. }
  destruct (build_ok inputs signer hash Hi Hh) as (payload & body & bytes' & Hd & -> & Hb & Hc & Hj & Hbuild').
  assert (bytes' = bytes) as -> by congruence.
  destruct (body_get inputs (commitment_hash payload) payload) as (_ & Hm & _ & _ & _ & Hs).
  eexists _, payload. split; [exact Hc|]. split; [exact Hj|]. split; [done|].
  split; [rewrite <- Hm; by apply obj_get_insert_ne|].
  split; [rewrite <- Hs; by apply obj_get_insert_ne|].
  intros trusted reading Hcr Hjr. rewrite (jcs_inj _ _ _ Hcr Hc Hjr Hj).
  rewrite issued_verifies by done. destruct signer as [s|]; [|done]. intros Hu Ht. cbn zeta.
  rewrite issued_attestation by done. by rewrite bool_decide_eq_true_2 by (by left).
Qed.

(** C35. Whatever commitment hashes gets a signed receipt, and a verifier that
    holds only the key set the runtime publishes attests it: the bytes are the
    canonical form of one receipt, its commitment is the projection of the
    resolving payload, and every reading of the bytes verifies with a match and
    a valid attestation. *)
Theorem receipt_roundtrip inputs (signer : ReceiptSigner) hash doc set set' :
  inputs_ok inputs → commitment_hash_of_wire (ri_wire inputs) = Ok hash →
  is_utf8 (rs_kid signer) = true →
  retired_from_jwks doc = Ok set → with_active set signer = Ok set' →
  ∃ bytes receipt payload trusted n,
    build inputs (Some signer) = Ok bytes ∧
    canonical receipt ∧ jcs_canonicalize receipt = Ok bytes ∧
    decode (ri_wire inputs) = Some payload ∧
    value_get "commitment" receipt = Some (project payload) ∧
    add_jwks (to_jwks set') ∅ = (trusted, Ok n) ∧
    ∀ reading, canonical reading → jcs_canonicalize reading = Ok bytes →
      verify reading trusted = MkVerification (Some IMatch) [Valid] Attested.
Proof.
  intros Hi Hh Hu Hr Hw.
  destruct (build_ok inputs (Some signer) hash Hi Hh) as (_ & _ & bytes & _ & _ & _ & _ & _ & Hbuild).
  destruct (built_verifies _ _ _ Hi Hbuild) as (receipt & payload & Hc & Hj & Hd & Hm & _ & Hv).
  pose proof (retired_ok _ _ Hr) as Hs. destruct (with_active_ok _ _ _ Hs Hw) as [Hs' _].
  destruct (published_trusted _ Hs') as (trusted & Ha & Ht).
  eexists bytes, receipt, payload, trusted, _. do 5 (split; [done|]). split; [exact Ha|].
  intros reading Hcr Hjr. apply Hv; [done..|]. by rewrite Ht, (active_found set signer set').
Qed.
End issuing.

(** ** What is attested was issued *)
Section tampering.
Context `{Sha256, Message CommitmentPayload, Base64UrlLaws, Base64Std, Ed25519, JsonText}.

(** What a receipt's attestations claim to be signed: the message [verify]
    checks, with the signature it is checked against. *)
Definition attestation_signed (body : bytes) (att : Value) : option (bytes * Signature) :=
  jws ← str_field "jws" att;
  '(header_b64, sig_b64) ← jws_parts jws;
  raw ← b64_decode sig_b64;
  signature ← sig_from_slice raw;
  Some (signing_input header_b64 body, signature).
Definition receipt_signed (receipt : Value) : list (bytes * Signature) :=
  match value_get "attestations" receipt ≫= as_array, receipt_body receipt with
  | Some atts, Some body => omap (attestation_signed body) atts
  | _, _ => []
  end.

(** What [build] signs for some inputs under a key named [kid]. *)
Definition signs (inputs : ReceiptInputs) (kid : string) (message : bytes) : Prop :=
  ∃ payload body,
    decode (ri_wire inputs) = Some payload ∧
    jcs_canonicalize (VObject (body_members inputs (commitment_hash payload) payload)) = Ok body ∧
    message = signing_input (b64_encode (bytes_of (jws_header kid))) body.

(** None of these signatures is a forgery: one that a trusted key accepts on its
    message was made by the holder of a key, who signed only receipts over
    [issued] inputs. *)
Definition unforged (trusted : TrustedKeys) (issued : ReceiptInputs → Prop)
    (signed : list (bytes * Signature)) : Prop :=
  ∀ kid x vk m s, trusted !! kid = Some x → verifying_key x = Some vk → (m, s) ∈ signed →
    verify_strict vk m s = true → ∃ inputs kid', issued inputs ∧ signs inputs kid' m.

Lemma split_on_dotless s : Forall dotless (split_on "."%char s).
Proof.
  unfold dotless. induction s as [|c s IH]; [by repeat constructor|]. cbn [split_on].
  case_bool_decide as Hc; [by constructor|].
  destruct (split_on "."%char s) as [|w ws]; [repeat constructor; simpl; by rewrite bool_decide_eq_false_2|].
  apply Forall_cons in IH as [Hw Hws]. constructor; [|done]. cbn [str_all].
  by rewrite bool_decide_eq_false_2, Hw.
Qed.

Lemma jws_parts_dotless jws h s : jws_parts jws = Some (h, s) → dotless h.
Proof.
  unfold jws_parts. pose proof (split_on_dotless jws) as Hd.
  destruct (split_on _ jws) as [|h' [|[] [|s' []]]]; try done. intros [= <- <-].
  by apply Forall_cons in Hd as [? _].
Qed.

Lemma signing_input_inj h h' body body' :
  dotless h → dotless h' → signing_input h body = signing_input h' body' → h = h' ∧ body = body'.
Proof.
  unfold signing_input. rewrite <- !bytes_of_app, !str_app_assoc, !str_app_cons, !str_app_nil.
  intros Hh Hh' E%bytes_of_inj. pose proof (f_equal (split_on "."%char) E) as Es.
  rewrite !split_dot in Es by done. injection Es as -> _. split; [done|].
  apply str_app_inj in E. injection E as E. apply (f_equal b64_decode) in E.
  rewrite !b64_roundtrip in E. by injection E.
Qed.

Lemma attestation_valid att body trusted :
  attestation att body trusted = Valid →
  ∃ b kid x vk h s, body = Some b ∧ trusted !! kid = Some x ∧ verifying_key x = Some vk ∧
    attestation_signed b att = Some (signing_input h b, s) ∧ dotless h ∧
    verify_strict vk (signing_input h b) s = true.
Proof.
  unfold attestation, attestation_signed. destruct (negb _); [done|].
  destruct (str_field "jws" att) as [jws|]; [|done]. cbn [default mbind option_bind]. unfold id.
  destruct (jws_parts jws) as [[h sig]|] eqn:Hp; [|done]. cbn [mbind option_bind].
  destruct (b64_decode h ≫= json_from_slice) as [header|]; [|done].
  destruct (b64_decode sig) as [raw|]; [|done]. cbn [mbind option_bind].
  destruct (_ || _); [done|].
  destruct (str_field "kid" header ≫= _) as [x|] eqn:Hk; [|done].
  apply bind_Some in Hk as (kid & _ & Hk).
  destruct body as [b|]; [|done]. destruct (verifying_key x) as [vk|] eqn:Hv; [|done].
  destruct (sig_from_slice raw) as [s|]; [|done]. destruct (verify_strict _ _ _) eqn:Hs; [|done].
  intros _. exists b, kid, x, vk, h, s. eauto 10 using jws_parts_dotless.
Qed.

Lemma verify_attested receipt trusted :
  vf_verdict (verify receipt trusted) = Attested →
  ∃ members atts att, receipt = VObject members ∧
    value_get "attestations" receipt ≫= as_array = Some atts ∧ att ∈ atts ∧
    attestation att (receipt_body receipt) trusted = Valid.
Proof.
  unfold verify. destruct (str_field "receipt_format" receipt) as [f|] eqn:Hf; [|done].
  destruct (negb _); [done|]. destruct (negb _); [done|].
  destruct (value_get "attestations" receipt ≫= as_array) as [atts|] eqn:Ha.
  - cbn [vf_verdict]. case_bool_decide as Hv; [|done]. intros _.
    apply list_elem_of_fmap in Hv as (att & Hv & Hin).
    destruct receipt as [| | | | | | |members]; try done. by exists members, atts, att.
  - cbn [vf_verdict]. by rewrite bool_decide_eq_false_2 by apply not_elem_of_nil.
Qed.

(** C34. An attested receipt is an issued one: if the trusted keys signed only
    receipts over issued inputs and none of the receipt's signatures is a
    forgery, a receipt that verifies as attested is, apart from its
    attestations, member for member the receipt issued for one of these inputs:
    its commitment, hash, session, mode, issuer and time cannot be altered,
    dropped or added to. *)
Theorem attested_was_issued trusted (issued : ReceiptInputs → Prop) receipt :
  (∀ inputs, issued inputs → inputs_ok inputs) →
  unforged trusted issued (receipt_signed receipt) →
  canonical receipt → vf_verdict (verify receipt trusted) = Attested →
  ∃ inputs payload members, issued inputs ∧ decode (ri_wire inputs) = Some payload ∧
    receipt = VObject members ∧
    obj_remove "attestations" members = body_members inputs (commitment_hash payload) payload.
Proof.
  intros Hok Hu Hc (members & atts & att & -> & Ha & Hin & Hv)%verify_attested.
  apply attestation_valid in Hv as (b & kid & x & vk & h & s & Hb & Hk & Hvk & Hs & Hh & Hsig).
  destruct (Hu kid x vk (signing_input h b) s) as (inputs & kid' & Hi & payload & body & Hd & Hj & E); [done..| |done|].
  { unfold receipt_signed. rewrite Ha, Hb. apply list_elem_of_omap. eauto. }
  apply signing_input_inj in E as [_ ->]; [|done|apply b64_dotless].
  exists inputs, payload, members. do 3 (split; [done|]).
  unfold receipt_body in Hb. cbn [as_object mbind option_bind] in Hb.
  destruct (jcs_canonicalize (VObject (obj_remove _ _))) as [b'|] eqn:Hb'; [|done]. injection Hb as ->.
  assert (VObject (obj_remove "attestations" members) = VObject
    (body_members inputs (commitment_hash payload) payload)) as Heq; [|by injection Heq].
  eapply jcs_inj; [by apply canonical_remove|by apply body_canonical, Hok|exact Hb'|exact Hj].
Qed.
End tampering.

Module Demo.
Import UrlSafe PlainKeys FlatJson.
#[local] Existing Instances UrlSafe.engine UrlSafe.engine_laws.
#[local] Existing Instances PlainKeys.scheme PlainKeys.scheme_laws FlatJson.reader FlatJson.reader_laws.
#[local] Existing Instances demo_sha demo_sha_laws demo_commitment_message.

#[local] Instance std_engine : Base64Std := {| std_encode := b64_encode; std_decode := b64_decode |}.
#[local] Instance std_engine_laws : Base64StdLaws.
Proof. intros b. apply b64_roundtrip. Qed.

Definition inputs : ReceiptInputs :=
  MkReceiptInputs "s1" "macp.mode.decision.v1" (encode_fields [WLen 1 (bytes_of "c1")])
    "did:web:issuer" "2026-10-24T12:00:00Z" (Some ("macp-runtime", 3)).
Abbreviation payload := (demo_commitment "task.completed").
Abbreviation hash := (commitment_hash payload).
Abbreviation new_key := (ReceiptKeys.Demo.new_key).

Lemma inputs_hash : commitment_hash_of_wire (ri_wire inputs) = Ok hash.
Proof. by vm_compute. Qed.

Lemma receipt_roundtrip_witness :
  ∃ bytes receipt p trusted n,
    build inputs (Some new_key) = Ok bytes ∧
    canonical receipt ∧ jcs_canonicalize receipt = Ok bytes ∧
    decode (ri_wire inputs) = Some p ∧
    value_get "commitment" receipt = Some (project p) ∧
    add_jwks (to_jwks ReceiptKeys.Demo.published_set) ∅ = (trusted, Ok n) ∧
    ∀ reading, canonical reading → jcs_canonicalize reading = Ok bytes →
      verify reading trusted = MkVerification (Some IMatch) [Valid] Attested.
Proof.
  apply (receipt_roundtrip inputs new_key hash ReceiptKeys.Demo.retired_doc
    ReceiptKeys.Demo.retired ReceiptKeys.Demo.published_set);
    [done|apply inputs_hash|vm_compute; reflexivity..].
Defined.

(** The receipt of these inputs, and a verifier that trusts their key. *)
Definition members : list (string * Value) := body_members inputs hash payload.
Definition trusted : TrustedKeys := {["2026" := public_x new_key]}.

Lemma body_exists : ∃ body, jcs_canonicalize (VObject members) = Ok body.
Proof. by apply jcs_total, body_canonical. Qed.
Definition receipt (body : bytes) : list (string * Value) :=
  obj_insert "attestations" (attestations_of (Some new_key) body) members.

Lemma receipt_unforged body :
  jcs_canonicalize (VObject members) = Ok body →
  unforged trusted (eq inputs) (receipt_signed (VObject (receipt body))).
Proof.
  intros Hb kid x vk m s Hk Hv Hs Hm.
  unfold trusted in Hk. apply lookup_singleton_Some in Hk as [<- <-]. rewrite issued_key in Hv. injection Hv as <-.
  assert (s = signer_sign new_key (signing_input
    (b64_encode (bytes_of (jws_header "2026"))) body)) as ->.
  { unfold receipt_signed in Hs.
    fold (obj_get "attestations" (receipt body)) in Hs. unfold receipt at 1 in Hs.
    rewrite obj_get_insert in Hs. cbn [mbind option_bind as_array attestations_of] in Hs.
    destruct (receipt_body _) as [b|]; [|by apply not_elem_of_nil in Hs].
    apply list_elem_of_omap in Hs as (att & ->%list_elem_of_singleton & Hs).
    unfold attestation_signed in Hs.
    change (str_field "jws" _) with (Some (jws_of new_key body)) in Hs. cbn [mbind option_bind] in Hs.
    unfold jws_of in Hs. rewrite jws_parts_of in Hs by apply b64_dotless.
    cbn [mbind option_bind] in Hs. rewrite b64_roundtrip in Hs. by injection Hs as _ <-. }
  exists inputs, "2026". split; [done|]. exists payload, body. split; [done|]. split; [exact Hb|].
  apply bool_decide_eq_true in Hm. symmetry. by apply app_inv_head in Hm.
Qed.

Lemma receipt_attested body :
  jcs_canonicalize (VObject members) = Ok body →
  vf_verdict (verify (VObject (receipt body)) trusted) = Attested.
Proof.
  intros Hb. unfold receipt, members. rewrite issued_verifies by first [apply inputs_hash|done].
  cbn zeta. rewrite issued_attestation; [|vm_compute; reflexivity|apply lookup_singleton_eq].
  by rewrite bool_decide_eq_true_2 by (by left).
Qed.

Lemma receipt_canonical body : canonical (VObject (receipt body)).
Proof. apply canonical_insert; [apply canonical_attestations|by apply body_canonical]. Qed.

Lemma attested_was_issued_witness :
  ∃ body i p m, inputs = i ∧ decode (ri_wire i) = Some p ∧
    VObject (receipt body) = VObject m ∧
    obj_remove "attestations" m = body_members i (commitment_hash p) p.
Proof.
  destruct body_exists as [body Hb]. exists body.
  apply (attested_was_issued trusted (eq inputs) (VObject (receipt body))).
  - intros i <-. unfold inputs_ok. simpl. lia.
  - by apply receipt_unforged.
  - apply receipt_canonical.
  - by apply receipt_attested.
Defined.
End Demo.
