(* ===== verification/ReceiptIssue.v ===== *)
(** * Issuing decision receipts (src/receipts.rs, src/runtime.rs)

    Receipt configuration, the issuer's caches, [decision_receipt], and what
    eviction, deletion and restarts do to receipts, over the server of
    Runtime and a backend that keeps receipts or does not. *)

From Stdlib Require Import Ascii.
From stdpp Require Import prelude gmap strings.
From S2P Require Import Prelude RustStr Floats Extern PolicyKeys Error Policy Wire SessionData Session SessionStart CommitmentHash ModeApi Step Log LogReplay Runtime Base64 Pagination Jcs Json ReceiptKeys Receipt.
Open Scope Z_scope.

(** ** Configuration *)
Definition DEFAULT_RUNTIME_ID : string := "macp-runtime".
Definition RECEIPT_MODES : list string :=
  ["macp.mode.decision.v1"; "macp.mode.proposal.v1"; "macp.mode.task.v1";
   "macp.mode.handoff.v1"; "macp.mode.quorum.v1"].
Definition IMPLEMENTATION : string := "macp-runtime".

(** [KeyError: Display]. *)
Definition key_error_display (e : KeyError) : text :=
  match e with
  | Unrecognized => [Lit "not a PKCS#8 PEM or a JWK"]
  | BadPem => [Lit "not a PKCS#8 Ed25519 private key"]
  | NotEd25519 => [Lit "not an Ed25519 key (kty OKP, crv Ed25519)"]
  | MissingMember m => [Lit ("the JWK has no " +:+ quote); Lit m; Lit quote]
  | BadCoordinate m => [Lit ("the JWK's " +:+ quote); Lit m; Lit (quote +:+ " is not an Ed25519 key")]
  | PublicKeyMismatch =>
      [Lit ("the JWK's " +:+ quote +:+ "x" +:+ quote +:+ " does not match its " +:+ quote +:+ "d" +:+ quote)]
  | MissingKid => [Lit "the signing key has no kid"]
  | KidConflict jwk configured =>
      [Lit "the JWK's kid "; FDebug jwk; Lit " differs from the configured kid "; FDebug configured]
  | PrivateMember kid member =>
      [Lit "key "; FDebug kid; Lit (" carries the private member " +:+ quote); Lit member; Lit quote]
  | DuplicateKid kid => [Lit "kid "; FDebug kid; Lit " names more than one key"]
  | KeysNotArray => [Lit (quote +:+ "keys" +:+ quote +:+ " is missing or not an array")]
  end.

(** The chrono crate: [DateTime::from_timestamp_millis] and [to_rfc3339_opts]. *)
Class Chrono := {
  DateTime : Type;
  date_default : DateTime;
  from_timestamp_millis : Z → option DateTime;
  to_rfc3339_secs : DateTime → string;
}.
Definition rfc3339_seconds `{Chrono} (unix_ms : Z) : string :=
  to_rfc3339_secs (default date_default (from_timestamp_millis unix_ms)).

Section config.
Context `{Ed25519, Base64Url, JsonText}.

Record ReceiptConfig := MkReceiptConfig {
  rc_signer : option ReceiptSigner;
  rc_keys : KeySet;
  rc_issuer : string;
  rc_runtime_id_set : bool;
}.

Definition non_empty (v : option string) : option string :=
  v ≫= λ v, if str_is_empty v then None else Some v.
Definition key_error {A} (name : string) (r : result KeyError A) : result text A :=
  match r with Ok a => Ok a | Err e => Err (Lit (name +:+ ": ") :: key_error_display e) end.

Definition receipt_config_new (signer : option ReceiptSigner) (retired : KeySet)
    (runtime_id : option string) : result text ReceiptConfig :=
  keys ← (match signer with
          | Some s => key_error "MACP_RECEIPT_PUBLIC_KEYS_PATH" (with_active retired s)
          | None => Ok retired
          end);
  let runtime_id := non_empty runtime_id in
  Ok (MkReceiptConfig signer keys ("runtime:" +:+ default DEFAULT_RUNTIME_ID runtime_id)
        (bool_decide (is_Some runtime_id))).

Section env.
Context (env_var : string → option string) (read_to_string : string → result string string).

Definition var (name : string) : option string := non_empty (env_var name).

(** The signing key text, under the name of its variable. *)
Definition signing_key_text : result text (option (string * string)) :=
  match var "MACP_RECEIPT_SIGNING_KEY_PATH", var "MACP_RECEIPT_SIGNING_KEY" with
  | Some _, Some _ =>
      Err [Lit "MACP_RECEIPT_SIGNING_KEY_PATH and MACP_RECEIPT_SIGNING_KEY are both set; set one"]
  | Some path, None =>
      match read_to_string path with
      | Ok text => Ok (Some ("MACP_RECEIPT_SIGNING_KEY_PATH", text))
      | Err e =>
          Err [Lit "MACP_RECEIPT_SIGNING_KEY_PATH: cannot read "; Lit path; Lit ": "; Lit e]
      end
  | None, Some inline => Ok (Some ("MACP_RECEIPT_SIGNING_KEY", inline))
  | None, None => Ok None
  end.
Definition configured_signer : result text (option ReceiptSigner) :=
  let kid := var "MACP_RECEIPT_SIGNING_KID" in
  t ← signing_key_text;
  match t with
  | Some (name, text) => signer ← key_error name (load text kid); Ok (Some signer)
  | None =>
      if bool_decide (is_Some kid) then
        Err [Lit "MACP_RECEIPT_SIGNING_KID is set but no signing key is (MACP_RECEIPT_SIGNING_KEY_PATH or MACP_RECEIPT_SIGNING_KEY)"]
      else Ok None
  end.
Definition retired_keys : result text KeySet :=
  match var "MACP_RECEIPT_PUBLIC_KEYS_PATH" with
  | Some path =>
      text ← (match read_to_string path with
              | Ok text => Ok text
              | Err e =>
                  Err [Lit "MACP_RECEIPT_PUBLIC_KEYS_PATH: cannot read "; Lit path; Lit ": "; Lit e]
              end);
      doc ← ok_or (json_from_str text)
        [Lit "MACP_RECEIPT_PUBLIC_KEYS_PATH: "; Lit path; Lit " is not JSON"];
      key_error "MACP_RECEIPT_PUBLIC_KEYS_PATH" (retired_from_jwks doc)
  | None => Ok keyset_new
  end.
Definition receipt_config_from_env : result text ReceiptConfig :=
  signer ← configured_signer;
  retired ← retired_keys;
  let runtime_id := var "MACP_RUNTIME_ID" in
  if bool_decide (is_Some signer) && bool_decide (runtime_id = None) then
    Err [Lit "MACP_RUNTIME_ID must be set when receipts are signed: it is the issuer (runtime:<id>) of every signed receipt, stable and distinct per deployment"]
  else receipt_config_new signer retired runtime_id.
End env.
End config.

(** ** Storage of receipts *)

(** [is_storage_safe_session_id]. *)
Definition is_storage_safe_session_id (session_id : string) : bool :=
  negb (str_is_empty session_id) && (str_len session_id <=? 255) &&
  (session_id != ".") && (session_id != "..") &&
  str_all (λ c, negb ((byte_of c =? 47) || (byte_of c =? 92) || (byte_of c =? 0))) session_id.

(** The server, the issuer's two caches, and the receipts the backend keeps. *)
Record World := MkWorld {
  w_server : Server;
  w_cache : gmap string bytes;
  w_unpersisted : gmap string bytes;
  w_receipts : gmap string bytes;
}.
Definition set_server (sv : Server) (w : World) : World :=
  MkWorld sv (w_cache w) (w_unpersisted w) (w_receipts w).
Definition upd_cache (f : gmap string bytes → gmap string bytes) (w : World) : World :=
  MkWorld (w_server w) (f (w_cache w)) (w_unpersisted w) (w_receipts w).
Definition upd_unpersisted (f : gmap string bytes → gmap string bytes) (w : World) : World :=
  MkWorld (w_server w) (w_cache w) (f (w_unpersisted w)) (w_receipts w).
Definition upd_receipts (f : gmap string bytes → gmap string bytes) (w : World) : World :=
  MkWorld (w_server w) (w_cache w) (w_unpersisted w) (f (w_receipts w)).

(** A failed call, or the panic [build] does not have ([build_ok]). *)
Inductive ReceiptFailure := Failed (e : MacpError) | Panicked.
Abbreviation issue A := (stm World ReceiptFailure A).
Definition on_server {A} (m : srv A) : issue A := λ w,
  let '(sv, r) := m (w_server w) in
  (set_server sv w, match r with Ok a => Ok a | Err e => Err (Failed e) end).

(** [io::Result<ReceiptWrite>], with the error kind the runtime looks at. *)
Inductive ReceiptWrite := Stored | Existing (b : bytes) | NotSupported | WriteFailed.

Section issuer.
Context `{Sha256, Message CommitmentPayload, Base64Url, Base64Std, Ed25519, JsonText, Chrono}.
Context (config : ReceiptConfig).
(** Whether the backend keeps receipts. *)
Context (persists : bool).

Definition load_receipt (id : string) : issue (option (option bytes)) :=
  if persists then
    (let! ok := on_server io_outcome in
     if ok then st_read (λ w, Ok (Some (w_receipts w !! id))) else st_ret None)%stm
  else st_ret (Some None).
Definition store_receipt_if_absent (id : string) (receipt : bytes) : issue ReceiptWrite :=
  if persists then
    (let! ok := on_server io_outcome in
     if ok then
       let! existing := st_read (λ w, Ok (w_receipts w !! id)) in
       match existing with
       | Some b => st_ret (Existing b)
       | None => do! st_mod (upd_receipts (<[id := receipt]>)); st_ret Stored
       end
     else st_ret WriteFailed)%stm
  else st_ret NotSupported.

(** ** The issuer's caches *)
Definition cached (id : string) (w : World) : option bytes :=
  match w_unpersisted w !! id with
  | Some b => Some b
  | None => w_cache w !! id
  end.
Definition cache (id : string) (b : bytes) : issue bytes :=
  (do! st_mod (upd_cache (<[id := b]>)); st_ret b)%stm.
Definition keep_unpersisted (id : string) (b : bytes) : issue bytes :=
  (do! st_mod (upd_unpersisted (<[id := b]>)); st_ret b)%stm.
Definition issuer_evict (id : string) : issue unit := st_mod (upd_cache (delete id)).
Definition forget (id : string) : issue unit :=
  (do! st_mod (upd_cache (delete id)); st_mod (upd_unpersisted (delete id)))%stm.

(** ** Serving a receipt *)
Definition session_for_read (id : string) : srv Session :=
  (let! found := get_session_checked id in
   match found with
   | Some session => st_ret session
   | None =>
       if negb (is_storage_safe_session_id id) then st_fail UnknownSession
       else
         let! loaded := load_session id in
         match loaded with
         | Some (Some session) =>
             if ss_session_id session == id then st_ret session else st_fail UnknownSession
         | Some None => st_fail UnknownSession
         | None => st_fail StorageFailed
         end
   end)%stm.

Definition receipt_source (session : Session) : result MacpError bytes :=
  if (ss_state session != Resolved) || negb (str_elem (ss_mode session) RECEIPT_MODES)
  then Err ReceiptUnavailable
  else ok_or (ss_resolution session) ReceiptUnavailable.

Definition receipt_inputs (session : Session) (wire : bytes) (now : Z) : ReceiptInputs :=
  MkReceiptInputs (ss_session_id session) (ss_mode session) wire (rc_issuer config)
    (rfc3339_seconds now) (Some (IMPLEMENTATION, ss_semantics_rev session)).

(** The closure [keep]. *)
Definition keep (in_memory : bool) (id : string) (b : bytes) : issue bytes :=
  if in_memory then cache id b else st_ret b.

(** The part under the session's lock. *)
Definition issue_locked (id : string) : issue bytes :=
  (let! in_memory := st_read (λ w, Ok (bool_decide (is_Some (sv_sessions (w_server w) !! id)))) in
   let! session := on_server (session_for_read id) in
   let! stored := load_receipt id in
   match stored with
   | Some (Some b) => keep in_memory id b
   | None => st_fail (Failed StorageFailed)
   | Some None =>
       let! wire := on_server (st_read (λ _, receipt_source session)) in
       let! now := on_server now_ms in
       match build (receipt_inputs session wire now) (rc_signer config) with
       | Err (NotHashable _) => st_fail (Failed ReceiptUnavailable)
       | Err Panic => st_fail Panicked
       | Ok b =>
           let! write := store_receipt_if_absent id b in
           match write with
           | Stored => keep in_memory id b
           | Existing stored => keep in_memory id stored
           | NotSupported => keep_unpersisted id b
           | WriteFailed => st_fail (Failed StorageFailed)
           end
       end
   end)%stm.
(** The caches are looked at before the lock is taken, and again under it. *)
Definition decision_receipt (id : string) : issue bytes :=
  (let! found := st_read (λ w, Ok (cached id w)) in
   match found with
   | Some b => st_ret b
   | None =>
       let! found := st_read (λ w, Ok (cached id w)) in
       match found with
       | Some b => st_ret b
       | None => issue_locked id
       end
   end)%stm.

(** ** Eviction, deletion, restart *)
Definition evict_receipt (id : string) : issue unit :=
  (do! issuer_evict id;
   let! unpersisted := st_read (λ w, Ok (bool_decide (is_Some (w_unpersisted w !! id)))) in
   if unpersisted then
     let! loaded := on_server (load_session id) in
     match loaded with
     | Some (Some _) => st_ret ()
     | _ => forget id
     end
   else st_ret ())%stm.
Definition evict_stale_sessions_receipts (retention_secs : Z) : issue unit :=
  (let! now := on_server now_ms in
   let! ids := on_server (stale_ids (retention_cutoff now retention_secs)) in
   if is_empty ids then st_ret ()
   else
     do! on_server (evict_registry ids);
     do! foldr (λ id rest, do! evict_receipt id; rest) (st_ret ()) ids;
     on_server (evict_logs ids))%stm.

(** A backend deletes the receipt with its session. *)
Definition gc_one_receipt (cutoff : Z) (id : string) : issue bool :=
  (let! deleted := on_server (gc_one cutoff id) in
   if deleted : bool then
     do! st_mod (upd_receipts (delete id)); do! forget id; st_ret true
   else st_ret false)%stm.

Fixpoint gc_loop_receipts (cutoff : Z) (ids : list string) (removed : Z) : issue Z :=
  match ids with
  | [] => st_ret removed
  | id :: ids =>
      (let! deleted := gc_one_receipt cutoff id in
       gc_loop_receipts cutoff ids (if deleted : bool then removed + 1 else removed))%stm
  end.
Definition gc_disk_sessions_receipts (retention_secs : Z) : issue Z :=
  (let! now := on_server now_ms in
   let! ids := on_server list_session_ids in
   match ids with
   | None => st_ret 0
   | Some ids => gc_loop_receipts (retention_cutoff now retention_secs) ids 0
   end)%stm.

Definition restart (io : nat → bool) (w : World) : World :=
  MkWorld (boot io (w_server w)) ∅ ∅ (w_receipts w).
End issuer.

(** ** Triples: [E] holds when the call fails *)
Definition hoare {S F A} (P : S → Prop) (m : stm S F A) (Q : A → S → Prop) (E : S → Prop) : Prop :=
  ∀ s, P s → match m s with (s', Ok a) => Q a s' | (s', Err _) => E s' end.

Section hoare.
Context {S F : Type}.
Implicit Types (P E : S → Prop).

Lemma hoare_bind {A B} P (m : stm S F A) (f : A → stm S F B) Q R E :
  hoare P m Q E → (∀ a, hoare (Q a) (f a) R E) → hoare P (st_bind m f) R E.
Proof.
  intros Hm Hf s HP. unfold st_bind. specialize (Hm s HP).
  destruct (m s) as [s' [a|e]]; [|done]. exact (Hf a s' Hm).
Qed.
Lemma hoare_ret {A} P (a : A) (Q : A → S → Prop) E :
  (∀ s, P s → Q a s) → hoare P (st_ret a : stm S F A) Q E.
Proof. intros HQ s HP. by apply HQ. Qed.
Lemma hoare_fail {A} P (e : F) (Q : A → S → Prop) E : (∀ s, P s → E s) → hoare P (st_fail e) Q E.
Proof. intros HE s HP. by apply HE. Qed.
Lemma hoare_mod P (f : S → S) (Q : unit → S → Prop) E :
  (∀ s, P s → Q () (f s)) → hoare P (st_mod f : stm S F unit) Q E.
Proof. intros HQ s HP. by apply HQ. Qed.
Lemma hoare_read {A} P (f : S → result F A) E :
  (∀ s, P s → E s) → hoare P (st_read f) (λ a s, P s ∧ f s = Ok a) E.
Proof. intros HE s HP. unfold st_read. destruct (f s) eqn:Hf; [by split|by apply HE]. Qed.
Lemma hoare_weaken {A} P P' (m : stm S F A) Q (Q' : A → S → Prop) E :
  hoare P m Q E → (∀ s, P' s → P s) → (∀ a s, Q a s → Q' a s) → hoare P' m Q' E.
Proof.
  intros Hm HP HQ s HP'. specialize (Hm s (HP s HP')). destruct (m s) as [s' [a|e]]; auto.
Qed.
Lemma hoare_pre {A} P P' (m : stm S F A) Q E :
  hoare P m Q E → (∀ s, P' s → P s) → hoare P' m Q E.
Proof. intros Hm HP. by eapply hoare_weaken. Qed.
End hoare.

(** ** The server under the issuer *)

(** Sessions are registered under their own ids, with revisions that are [u32]s. *)
Definition server_ok (sv : Server) : Prop :=
  (∀ id s, sv_sessions sv !! id = Some s → ss_session_id s = id ∧ 0 <= ss_semantics_rev s) ∧
  (∀ id p, sv_snapshots sv !! id = Some p → 0 <= ps_semantics_rev p).

Definition session_ok (id : string) (s : Session) : Prop :=
  ss_session_id s = id ∧ 0 <= ss_semantics_rev s.

Lemma io_ok {F} :
  hoare server_ok (io_outcome : stm Server F bool) (λ _, server_ok) server_ok.
Proof. by intros sv. Qed.
Lemma now_ok : hoare server_ok now_ms (λ _, server_ok) server_ok.
Proof. by intros sv. Qed.

Lemma record_entry_ok id e : hoare server_ok (record_entry id e) (λ _, server_ok) server_ok.
Proof.
  eapply hoare_bind with (Q := λ _, server_ok).
  - eapply hoare_bind; [apply io_ok|]. intros []; [|by apply hoare_ret].
    eapply hoare_bind with (Q := λ _, server_ok); [by apply hoare_mod|]. intros []. by apply hoare_ret.
  - intros []; [by apply hoare_mod|by apply hoare_fail].
Qed.

Lemma put_ok id s :
  session_ok id s → hoare server_ok (put_session id s) (λ _, server_ok) server_ok.
Proof.
  intros Hs. apply hoare_mod. intros sv [Hr Hp]. split; [|done].
  cbn [upd_sessions sv_sessions]. intros id' s' [[<- <-]|[_ Hs']]%lookup_insert_Some; [done|by apply Hr].
Qed.

Lemma maybe_expire_ok id s :
  session_ok id s →
  hoare server_ok (maybe_expire_session id s) (λ r sv, server_ok sv ∧ session_ok id r.1) server_ok.
Proof.
  intros Hs. eapply hoare_bind; [apply now_ok|]. intros now.
  destruct (deadline_passed now s); [|by apply hoare_ret].
  eapply hoare_bind; [apply record_entry_ok|]. intros [].
  unfold expire. destruct (is_terminal _).
  - eapply hoare_bind; [by apply put_ok|]. intros []. by apply hoare_fail.
  - eapply hoare_bind; [by apply put_ok|]. intros []. by apply hoare_ret.
Qed.

Lemma save_ok id s :
  session_ok id s → hoare server_ok (save_session_to_storage s) (λ _, server_ok) server_ok.
Proof.
  intros Hs. eapply hoare_bind with (Q := λ _, server_ok); [|intros _; by apply hoare_ret].
  eapply hoare_bind; [apply io_ok|]. intros []; [|by apply hoare_ret].
  eapply hoare_bind with (Q := λ _, server_ok); [|intros []; by apply hoare_ret].
  apply hoare_mod. intros sv [Hr Hp]. split; [done|].
  cbn [upd_snapshots sv_snapshots]. intros id' p [[_ <-]|[_ Hp']]%lookup_insert_Some;
    [by apply Hs|by eapply Hp].
Qed.

Lemma get_session_checked_ok id :
  hoare server_ok (get_session_checked id)
    (λ r sv, server_ok sv ∧ ∀ s, r = Some s → session_ok id s) server_ok.
Proof.
  eapply hoare_bind; [by apply hoare_read|]. intros [s|].
  2: { apply hoare_ret. by intros sv [? _]. }
  intros sv [Hok [= Hs]]. pose proof (proj1 Hok _ _ Hs) as Hso. revert sv Hok Hs.
  assert (hoare server_ok (st_catch (maybe_expire_session id s) (s, false))
    (λ r sv, server_ok sv ∧ session_ok id r.1) server_ok) as Hcatch.
  { intros sv Hok. unfold st_catch. pose proof (maybe_expire_ok id s Hso sv Hok) as Hm.
    by destruct (maybe_expire_session id s sv) as [sv' [a|e]]. }
  intros sv Hok _. revert sv Hok. change (hoare server_ok
    (let! checked := st_catch (maybe_expire_session id s) (s, false) in
     do! (if checked.2 : bool then save_session_to_storage checked.1 else st_ret ());
     st_ret (Some checked.1))%stm (λ r sv, server_ok sv ∧ ∀ s, r = Some s → session_ok id s) server_ok).
  eapply hoare_bind; [exact Hcatch|]. intros [s' changed]. cbn [fst snd].
  intros sv [Hok Hs']. revert sv Hok.
  eapply hoare_bind with (Q := λ _, server_ok).
  - destruct changed; [by eapply save_ok|by apply hoare_ret].
  - intros []. apply hoare_ret. intros sv Hok. split; [done|]. by intros ? [= <-].
Qed.

Lemma load_session_ok {F} id :
  hoare server_ok (load_session id : stm Server F _)
    (λ r sv, server_ok sv ∧ ∀ s, r = Some (Some s) → 0 <= ss_semantics_rev s) server_ok.
Proof.
  eapply hoare_bind; [apply io_ok|]. intros []; [|apply hoare_ret; intros sv Hok; by split].
  intros sv Hok. cbn. split; [done|]. intros s [= Hs].
  destruct (sv_snapshots sv !! id) as [p|] eqn:Hp; [|done]. injection Hs as <-.
  by apply (proj2 Hok) in Hp.
Qed.

Lemma session_for_read_ok id :
  hoare server_ok (session_for_read id) (λ s sv, server_ok sv ∧ session_ok id s) server_ok.
Proof.
  eapply hoare_bind; [apply get_session_checked_ok|]. intros [s|].
  { apply hoare_ret. intros sv [Hok Hs]. auto. }
  eapply hoare_pre with (P := server_ok); [|by intros sv []].
  destruct (negb _); [by apply hoare_fail|].
  eapply hoare_bind; [apply load_session_ok|]. intros [[s|]|];
    [|apply hoare_fail; by intros sv []..].
  case_bool_decide as Hid; [|apply hoare_fail; by intros sv []].
  apply hoare_ret. intros sv [Hok Hs]. split; [done|]. split; [done|auto].
Qed.

(** ** What the issuer holds *)
Section stable.
Context `{Sha256, Message CommitmentPayload, Base64Url, Base64Std, Ed25519, JsonText, Chrono}.
Context (used : ReceiptConfig → Prop) (persists : bool).
Implicit Types (config : ReceiptConfig) (w : World) (id : string) (b : bytes).

(** A receipt this runtime built for the session, under one of the configurations
    [used] it was ever started with. *)
Definition genuine id b : Prop :=
  ∃ config inputs, used config ∧ ri_session_id inputs = id ∧ inputs_ok inputs ∧
    ri_issuer inputs = rc_issuer config ∧
    str_elem (ri_mode inputs) RECEIPT_MODES = true ∧ build inputs (rc_signer config) = Ok b.

Record world_ok w : Prop := {
  wo_server : server_ok (w_server w);
  wo_receipts : ∀ id b, w_receipts w !! id = Some b → genuine id b;
  wo_unpersisted : ∀ id b, w_unpersisted w !! id = Some b → genuine id b;
  wo_cache : ∀ id b, w_cache w !! id = Some b → w_receipts w !! id = Some b;
  wo_kind : if persists then w_unpersisted w = ∅ else w_receipts w = ∅;
}.

(** The copy that decides what is served. *)
Definition held w id : option bytes :=
  match w_unpersisted w !! id with
  | Some b => Some b
  | None => w_receipts w !! id
  end.

(** What [w] holds is still held. *)
Definition extends w w' : Prop := ∀ id b, held w id = Some b → held w' id = Some b.
Definition advances w w' : Prop := world_ok w' ∧ extends w w'.

Lemma cached_held id w b : world_ok w → cached id w = Some b → held w id = Some b.
Proof.
  intros Hw. unfold cached, held. destruct (w_unpersisted w !! id); [done|]. apply (wo_cache _ Hw).
Qed.

Section from.
Context (w0 : World).

(** Predicates that a server call keeps. *)
Definition steady (P : World → Prop) : Prop :=
  (∀ w, P w → advances w0 w) ∧ ∀ sv w, P w → server_ok sv → P (set_server sv w).

Lemma advances_server sv w : advances w0 w → server_ok sv → advances w0 (set_server sv w).
Proof. intros [[] He] Hs. by split; [split|]. Qed.

Lemma steady_advances : steady (advances w0).
Proof. split; [done|]. intros sv w. apply advances_server. Qed.
(** No copy that is not stored, and perhaps one that is. *)
Definition only_stored id (o : option bytes) w : Prop :=
  advances w0 w ∧ w_unpersisted w !! id = None ∧ (persists = true → w_receipts w !! id = o).
Lemma steady_unpersisted id : steady (λ w, advances w0 w ∧ w_unpersisted w !! id = None).
Proof. split; [by intros w []|]. intros sv w [Ha Hu] Hs. by split; [apply advances_server|]. Qed.
Lemma steady_stored id o : steady (only_stored id o).
Proof. split; [by intros w []|]. intros sv w [Ha Hu] Hs. by split; [apply advances_server|]. Qed.

Lemma on_server_hoare {A} (P : World → Prop) (m : srv A) (φ : A → Prop) :
  steady P → hoare server_ok m (λ a sv, server_ok sv ∧ φ a) server_ok →
  hoare P (on_server m) (λ a w, P w ∧ φ a) (advances w0).
Proof.
  intros [HP Hs] Hm w Hw. unfold on_server. destruct (HP w Hw) as [Hok _].
  specialize (Hm (w_server w) (wo_server _ Hok)).
  destruct (m (w_server w)) as [sv [a|e]]; [destruct Hm|]; auto.
Qed.

Lemma io_world (P : World → Prop) :
  steady P → hoare P (on_server io_outcome) (λ _, P) (advances w0).
Proof.
  intros HP. eapply hoare_weaken; [apply (on_server_hoare P _ (λ _, True) HP)|done|by intros a w []].
  eapply hoare_weaken; [apply io_ok|done|]. by intros a sv.
Qed.

Lemma load_receipt_ok id :
  hoare (λ w, advances w0 w ∧ w_unpersisted w !! id = None) (load_receipt persists id)
    (λ r w, match r with
            | None => advances w0 w
            | Some (Some b) => advances w0 w ∧ w_receipts w !! id = Some b
            | Some None => only_stored id None w
            end) (advances w0).
Proof.
  unfold load_receipt. destruct persists eqn:Ep.
  - eapply hoare_bind; [apply io_world, steady_unpersisted|].
    intros []; [|apply hoare_ret; by intros w []].
    intros w [Ha Hu]. cbn. destruct (w_receipts w !! id) as [b|] eqn:Hb; [done|]. done.
  - apply hoare_ret. intros w [Ha Hu]. split; [done|]. split; [done|]. congruence.
Qed.

Lemma keep_ok in_memory id b :
  hoare (λ w, advances w0 w ∧ w_receipts w !! id = Some b) (keep in_memory id b)
    (λ r w, r = b ∧ advances w0 w ∧ held w id = Some b) (advances w0).
Proof.
  assert (∀ w, advances w0 w → w_receipts w !! id = Some b → held w id = Some b) as Hheld.
  { intros w [Hok _] Hb. unfold held. pose proof (wo_kind _ Hok) as Hk.
    destruct persists; rewrite Hk in *; [|done]. by rewrite lookup_empty. }
  unfold keep. destruct in_memory; [|apply hoare_ret; intros w []; auto].
  eapply hoare_bind with (Q := λ _ w, advances w0 w ∧ held w id = Some b);
    [|intros []; by apply hoare_ret].
  apply hoare_mod. intros w [[Hok He] Hb].
  assert (advances w0 (upd_cache <[id := b]> w)) as Ha; [|split; [done|by apply Hheld]].
  split; [|exact He]. destruct Hok as [? ? ? Hc ?]. split; [done..| |done].
  cbn. intros id' b' [[<- <-]|[_ ?]]%lookup_insert_Some; auto.
Qed.

Lemma held_none id o w : only_stored id o w → o = None → held w0 id = None.
Proof.
  intros ([Hok He] & Hu & Hr) ->. destruct (held w0 id) as [b|] eqn:Hb; [|done].
  apply He in Hb. unfold held in Hb. rewrite Hu in Hb. pose proof (wo_kind _ Hok) as Hk.
  destruct persists; [by rewrite Hr in Hb|]. by rewrite Hk, lookup_empty in Hb.
Qed.

Lemma store_ok id b :
  genuine id b →
  hoare (only_stored id None) (store_receipt_if_absent persists id b)
    (λ r w, match r with
            | Stored => advances w0 w ∧ w_receipts w !! id = Some b
            | Existing _ => False
            | NotSupported => persists = false ∧ only_stored id None w
            | WriteFailed => advances w0 w
            end) (advances w0).
Proof.
  intros Hg. unfold store_receipt_if_absent. destruct persists eqn:Ep.
  2: { apply hoare_ret. intros w Hw. by split. }
  eapply hoare_bind; [apply io_world, steady_stored|].
  intros []; [|apply hoare_ret; by intros w [? _]].
  intros w Hw. pose proof (held_none _ _ _ Hw eq_refl) as Hn.
  destruct Hw as ([Hok He] & Hu & Hr). specialize (Hr Ep). unfold st_bind at 1, st_read at 1. rewrite Hr.
  cbn. split; [|apply lookup_insert_eq].
  destruct Hok as [Hs Hrg Hug Hc Hk]. split; [split; cbn; try done|].
  - intros id' b' [[<- <-]|[_ ?]]%lookup_insert_Some; auto.
  - intros id' b' Hb'. apply Hc in Hb'. rewrite lookup_insert_ne; [done|]. by intros <-; rewrite Hr in Hb'.
  - by rewrite Ep in *.
  - intros id' b' Hb'. destruct (decide (id' = id)) as [->|Hne]; [by rewrite Hn in Hb'|].
    apply He in Hb'. unfold held in *. cbn. by rewrite lookup_insert_ne.
Qed.

Lemma keep_unpersisted_ok id b :
  genuine id b → persists = false →
  hoare (only_stored id None) (keep_unpersisted id b)
    (λ r w, r = b ∧ advances w0 w ∧ held w id = Some b) (advances w0).
Proof.
  intros Hg Ep.
  eapply hoare_bind with (Q := λ _ w, advances w0 w ∧ held w id = Some b);
    [|intros []; by apply hoare_ret].
  apply hoare_mod. intros w Hw. pose proof (held_none _ _ _ Hw eq_refl) as Hn.
  destruct Hw as ([Hok He] & Hu & _).
  split; [|unfold held; cbn; by rewrite lookup_insert_eq]. destruct Hok as [? ? Hug ? Hk].
  split; [split; cbn; try done|].
  - intros id' b' [[<- <-]|[_ ?]]%lookup_insert_Some; auto.
  - by rewrite Ep in *.
  - intros id' b' Hb'. destruct (decide (id' = id)) as [->|Hne]; [by rewrite Hn in Hb'|].
    apply He in Hb'. unfold held in *. cbn. by rewrite lookup_insert_ne.
Qed.

Lemma receipt_source_mode s wire :
  receipt_source s = Ok wire → str_elem (ss_mode s) RECEIPT_MODES = true.
Proof.
  unfold receipt_source. destruct (_ || _) eqn:E; [done|]. intros _.
  apply orb_false_iff in E as [_ E]. by apply negb_false_iff in E.
Qed.

Lemma issue_locked_ok config id :
  used config →
  hoare (λ w, advances w0 w ∧ w_unpersisted w !! id = None) (issue_locked config persists id)
    (λ b w, advances w0 w ∧ held w id = Some b) (advances w0).
Proof.
  intros Hused. assert (∀ b (m : issue bytes) P,
    hoare P m (λ r w, r = b ∧ advances w0 w ∧ held w id = Some b) (advances w0) →
    hoare P m (λ b w, advances w0 w ∧ held w id = Some b) (advances w0)) as Hpost.
  { intros b m P Hm. eapply hoare_weaken; [exact Hm|done|]. by intros r w (-> & ?). }
  eapply hoare_bind; [apply hoare_read; by intros w []|]. intros in_memory.
  eapply hoare_pre; [|intros w [Hw _]; exact Hw].
  eapply hoare_bind; [apply on_server_hoare; [apply steady_unpersisted|apply session_for_read_ok]|].
  intros session. intros w [Hw Hs]. revert w Hw.
  eapply hoare_bind; [apply load_receipt_ok|]. intros [[b|]|]; [by eapply Hpost, keep_ok| |by apply hoare_fail].
  eapply hoare_bind; [apply (on_server_hoare _ _ (λ wire, receipt_source session = Ok wire)
    (steady_stored id None)); intros sv Hok; unfold st_read; by destruct (receipt_source session)|].
  intros wire. intros w [Hw Hwire]. revert w Hw.
  eapply hoare_bind; [apply (on_server_hoare _ _ (λ _, True) (steady_stored id None));
    intros sv Hok; by split|].
  intros now. eapply hoare_pre with (P := only_stored id None); [|by intros w []].
  destruct (build _ _) as [b|[]] eqn:Hb; [|by apply hoare_fail; intros w []..].
  assert (genuine id b) as Hg.
  { eexists config, _. split; [done|]. split; [|split; [|split; [|split; [|exact Hb]]]]; cbn; try done; try apply Hs.
    by eapply receipt_source_mode. }
  eapply hoare_bind; [by apply store_ok|]. intros [|e| |]; [by eapply Hpost, keep_ok|by intros w []| |by apply hoare_fail].
  intros w [Ep Hw]. revert w Hw. by eapply Hpost, keep_unpersisted_ok.
Qed.

Lemma decision_receipt_ok config id :
  used config →
  hoare (advances w0) (decision_receipt config persists id)
    (λ b w, advances w0 w ∧ held w id = Some b) (advances w0).
Proof.
  intros Hused. eapply hoare_bind; [by apply hoare_read|]. intros [b|].
  { apply hoare_ret. intros w [Ha [= Hb]]. split; [done|]. by apply cached_held; [apply Ha|]. }
  eapply hoare_bind; [apply hoare_read; by intros w []|]. intros [b|].
  { apply hoare_ret. intros w [[Ha _] [= Hb]]. split; [done|]. by apply cached_held; [apply Ha|]. }
  eapply hoare_pre; [by apply issue_locked_ok|]. intros w [[Ha _] [= Hc]]. split; [done|].
  unfold cached in Hc. by destruct (w_unpersisted w !! id).
Qed.
End from.

(** ** Eviction and deletion *)
Lemma world_server sv w : world_ok w → server_ok sv → world_ok (set_server sv w).
Proof. intros [] Hs. by split. Qed.
Lemma world_uncache id w : world_ok w → world_ok (upd_cache (delete id) w).
Proof.
  intros [? ? ? Hc ?]. split; [done..| |done]. cbn. intros id' b [_ Hb]%lookup_delete_Some. auto.
Qed.
Lemma world_forget id w : world_ok w → world_ok (upd_unpersisted (delete id) w).
Proof.
  intros [? ? Hu ? Hk]. split; [done|done| |done|]; cbn.
  - intros id' b [_ Hb]%lookup_delete_Some. auto.
  - destruct persists; [by rewrite Hk, delete_empty|done].
Qed.

Lemma evict_receipt_ok id w w' r :
  world_ok w → evict_receipt id w = (w', r) →
  world_ok w' ∧ ∀ j b, held w j = Some b →
    held w' j = Some b ∨ (j = id ∧ is_Some (w_unpersisted w !! id) ∧ w_unpersisted w' !! id = None).
Proof.
  intros Hw. apply (world_uncache id) in Hw as Hc.
  unfold evict_receipt, issuer_evict. unfold st_bind at 1, st_mod at 1. unfold st_bind at 1, st_read at 1.
  cbn [w_unpersisted upd_cache]. case_bool_decide as Hu; [|intros [= <- _]; split; [done|auto]].
  unfold st_bind at 1, on_server. pose proof (load_session_ok (F:=MacpError) id _ (wo_server _ Hc)) as Hl.
  destruct (load_session id _) as [sv [[[s|]|]|e]]; intros [= <- _];
    [split; [apply world_server; [done|apply Hl]|auto]| | |split; [by apply world_server|auto]].
  all: split; [apply world_forget, world_uncache, world_server; [done|apply Hl]|].
  all: intros j b Hb; destruct (decide (j = id)) as [->|Hne];
    [right; split; [done|]; split; [done|apply lookup_delete_eq]
    |left; unfold held in *; cbn; by rewrite lookup_delete_ne].
Qed.

Lemma server_delete id sv : server_ok sv → server_ok (upd_sessions (delete id) sv).
Proof. intros [Hr Hp]. split; [|done]. cbn. intros id' s [_ Hs]%lookup_delete_Some. auto. Qed.

Lemma gc_one_ok cutoff id : hoare server_ok (gc_one cutoff id) (λ _, server_ok) server_ok.
Proof.
  eapply hoare_bind with (Q := λ _, server_ok).
  { eapply hoare_bind; [by apply hoare_read|]. intros [s|]; [apply hoare_ret; by intros sv []|].
    eapply hoare_pre with (P := server_ok); [|by intros sv []].
    eapply hoare_bind; [apply load_session_ok|]. intros r. apply hoare_ret. by intros sv []. }
  intros [|]; cbn [negb]; [|by apply hoare_ret].
  eapply hoare_bind with (Q := λ _, server_ok).
  { eapply hoare_bind; [apply io_ok|]. intros []; [|by apply hoare_ret].
    eapply hoare_bind with (Q := λ _, server_ok); [by apply hoare_mod|]. intros [].
    eapply hoare_bind with (Q := λ _, server_ok); [|intros []; by apply hoare_ret].
    apply hoare_mod. intros sv [Hr Hp]. split; [done|]. cbn. intros id' p [_ ?]%lookup_delete_Some. by eapply Hp. }
  intros []; [|by apply hoare_ret].
  eapply hoare_bind with (Q := λ _, server_ok); [apply hoare_mod; intros sv; apply server_delete|].
  intros []. eapply hoare_bind with (Q := λ _, server_ok); [by apply hoare_mod|]. intros []. by apply hoare_ret.
Qed.

Lemma gc_receipt_ok cutoff id w :
  world_ok w →
  let '(w', r) := gc_one_receipt cutoff id w in
  world_ok w' ∧ ∀ j b, held w j = Some b → held w' j = Some b ∨ (j = id ∧ r = Ok true).
Proof.
  intros Hw. unfold gc_one_receipt. unfold st_bind at 1, on_server.
  pose proof (gc_one_ok cutoff id _ (wo_server _ Hw)) as Hg.
  destruct (gc_one cutoff id (w_server w)) as [sv [[|]|e]];
    [|split; [by apply world_server|auto]..].
  cbn -[held]. split.
  - pose proof Hw as [_ Hr Hu Hc Hk]. split; cbn in *; [done|..].
    + intros id' b [_ ?]%lookup_delete_Some. auto.
    + intros id' b [_ ?]%lookup_delete_Some. auto.
    + intros id' b [Hne Hb]%lookup_delete_Some. rewrite lookup_delete_ne by done. auto.
    + destruct persists; rewrite Hk; apply delete_empty.
  - intros j b Hb. destruct (decide (j = id)) as [->|Hne]; [by right|]. left.
    unfold held in *. cbn. by rewrite !lookup_delete_ne.
Qed.

(** ** Runs *)
Inductive event :=
| Served (id : string) (b : bytes)
| Deleted (id : string)
| Forgotten (id : string)
| Restarted
| Silent.

(** A receipt may be lost: with its session, by an eviction, or, where the backend
    keeps none, by a restart. *)
Definition loses id (e : event) : Prop :=
  match e with
  | Deleted j | Forgotten j => j = id
  | Restarted => persists = false
  | Served _ _ | Silent => False
  end.

Definition forgotten id w w' : bool :=
  bool_decide (is_Some (w_unpersisted w !! id)) && bool_decide (w_unpersisted w' !! id = None).

(** Calls for receipts, the parts of the eviction and deletion passes that touch
    receipts, restarts, perhaps with another configuration, and whatever else
    the server does to its sessions. *)
Inductive world_step : ReceiptConfig → World → event → ReceiptConfig → World → Prop :=
| step_serve config id w w' b :
    decision_receipt config persists id w = (w', Ok b) →
    world_step config w (Served id b) config w'
| step_refuse config id w w' e :
    decision_receipt config persists id w = (w', Err e) → world_step config w Silent config w'
| step_evict config id w w' r :
    evict_receipt id w = (w', r) →
    world_step config w (if forgotten id w w' then Forgotten id else Silent) config w'
| step_delete config cutoff id w w' :
    gc_one_receipt cutoff id w = (w', Ok true) → world_step config w (Deleted id) config w'
| step_skip config cutoff id w w' r :
    gc_one_receipt cutoff id w = (w', r) → r ≠ Ok true → world_step config w Silent config w'
| step_restart config config' io w :
    used config' → world_step config w Restarted config' (restart io w)
| step_server config sv w :
    server_ok sv → world_step config w Silent config (set_server sv w).

(** A process with configuration [config] does [tr]. *)
Inductive run : ReceiptConfig → World → list event → World → Prop :=
| run_nil config w : used config → run config w [] w
| run_cons config w e config' w' tr w'' :
    used config → world_step config w e config' w' → run config' w' tr w'' →
    run config w (e :: tr) w''.

Lemma step_ok config w e config' w' :
  used config → world_step config w e config' w' → world_ok w →
  world_ok w' ∧ (∀ id b, held w id = Some b → ¬ loses id e → held w' id = Some b) ∧
  (∀ id b, e = Served id b → held w' id = Some b).
Proof.
  intros Hused Hs Hw. assert (advances w w) as Ha by (by split; [|intros ??]).
  destruct Hs as [config id w w' b Hd|config id w w' e Hd|config id w w' r Hv|config cutoff id w w' Hg
    |config cutoff id w w' r Hg Hr|config config' io w Hnew|config sv w Hsv].
  - pose proof (decision_receipt_ok w config id Hused w Ha) as Hok. rewrite Hd in Hok.
    destruct Hok as [[Hw' He] Hh]. split; [done|]. split; [intros j c Hc _; by apply He|].
    by intros ? ? [= <- <-].
  - pose proof (decision_receipt_ok w config id Hused w Ha) as Hok. rewrite Hd in Hok.
    destruct Hok as [Hw' He]. split; [done|]. split; [intros j c Hc _; by apply He|done].
  - destruct (evict_receipt_ok _ _ _ _ Hw Hv) as [Hw' He]. split; [done|].
    unfold forgotten. split; [|by destruct (_ && _)]. intros j b Hb Hl.
    destruct (He j b Hb) as [?|(-> & Hu & Hn)]; [done|].
    rewrite (bool_decide_eq_true_2 _ Hu), (bool_decide_eq_true_2 _ Hn) in Hl. by destruct Hl.
  - pose proof (gc_receipt_ok cutoff id w Hw) as Hok. rewrite Hg in Hok. destruct Hok as [Hw' He].
    split; [done|]. split; [|done]. intros j b Hb Hl. destruct (He j b Hb) as [?|[-> _]]; [done|by destruct Hl].
  - pose proof (gc_receipt_ok cutoff id w Hw) as Hok. rewrite Hg in Hok. destruct Hok as [Hw' He].
    split; [done|]. split; [|done]. intros j b Hb _. by destruct (He j b Hb) as [?|[_ ?]].
  - destruct Hw as [[_ Hp] Hr Hu Hc Hk]. split; [split; cbn; try done|split; [|done]].
    + by destruct persists.
    + intros j b Hb Hl. unfold held in *. cbn. cbn in Hl. destruct persists; [|done].
      by rewrite Hk, lookup_empty in Hb.
  - split; [by apply world_server|]. by split.
Qed.

Lemma run_used config w tr w' : run config w tr w' → used config.
Proof. by destruct 1. Qed.

Lemma run_app config w tr1 tr2 w' :
  run config w (tr1 ++ tr2) w' → ∃ config1 w1, run config w tr1 w1 ∧ run config1 w1 tr2 w'.
Proof.
  revert config w. induction tr1 as [|e tr1 IH]; intros config w.
  { intros Hr. exists config, w. split; [|done]. constructor. by eapply run_used. }
  intros Hr. inversion Hr as [|? ? ? config1 w1 ? ? Hu Hs Hr']. subst.
  destruct (IH config1 w1 Hr') as (config2 & w2 & ? & ?). exists config2, w2. split; [by econstructor|done].
Qed.

Lemma run_ok config w tr w' : run config w tr w' → world_ok w → world_ok w'.
Proof.
  induction 1 as [|config w e config' w' tr w'' Hu Hs Hr IH]; [done|]. intros Hw.
  by apply IH, (step_ok _ _ _ _ _ Hu Hs).
Qed.

Lemma run_held config w tr w' id b :
  run config w tr w' → world_ok w → Forall (λ e, ¬ loses id e) tr → held w id = Some b →
  held w' id = Some b.
Proof.
  induction 1 as [|config w e config' w' tr w'' Hu Hs Hr IH]; [done|]. intros Hw [He Htr]%Forall_cons Hb.
  destruct (step_ok _ _ _ _ _ Hu Hs Hw) as (Hw' & Hh & _). apply IH; auto.
Qed.

(** A process with no receipts yet. *)
Definition fresh (sv : Server) : World := MkWorld sv ∅ ∅ ∅.
Lemma fresh_ok sv : server_ok sv → world_ok (fresh sv).
Proof.
  intros Hs. split; cbn; [done|by intros id b ?%lookup_empty_Some..|by destruct persists].
Qed.

(** C36. Every call for the receipt of a session serves the same bytes, whatever
    other calls, evictions, deletions of other sessions, restarts, also with
    another receipt configuration, and changes of the server happen in between,
    until the session's receipt is lost: its session is deleted, or, on a
    backend that keeps no receipts, the process restarts or an eviction drops
    the only copy. The run may start with receipts an earlier process stored. *)
Theorem decision_receipt_stable config w tr1 id b1 tr2 b2 tr3 w' :
  world_ok w →
  run config w (tr1 ++ Served id b1 :: tr2 ++ Served id b2 :: tr3) w' →
  Forall (λ e, ¬ loses id e) tr2 → b1 = b2.
Proof.
  intros Hw (config1 & w1 & Hr1 & Hr)%run_app Hl. apply run_ok in Hr1 as Hw1; [|done].
  inversion Hr as [|? ? ? ? w2 ? ? Hu2 Hs2 Hr2]. subst.
  destruct (step_ok _ _ _ _ _ Hu2 Hs2 Hw1) as (Hw2 & _ & Hh2).
  apply run_app in Hr2 as (config3 & w3 & Hr3 & Hr4). apply run_ok in Hr3 as Hw3; [|done].
  pose proof (run_held _ _ _ _ _ _ Hr3 Hw2 Hl (Hh2 _ _ eq_refl)) as Hb1.
  inversion Hr4 as [|? ? ? ? w4 ? ? Hu4 Hs4 _]. subst.
  destruct (step_ok _ _ _ _ _ Hu4 Hs4 Hw3) as (_ & Hk & Hh4).
  specialize (Hk _ _ Hb1 (λ x, x)). specialize (Hh4 _ _ eq_refl). congruence.
Qed.

Lemma served_genuine config w tr w' id b :
  run config w tr w' → world_ok w → Served id b ∈ tr → genuine id b.
Proof.
  induction 1 as [|config w e config' w' tr w'' Hu Hs Hr IH]; [by intros _ ?%elem_of_nil|]. intros Hw Hin.
  destruct (step_ok _ _ _ _ _ Hu Hs Hw) as (Hw' & _ & Hh).
  apply elem_of_cons in Hin as [<-|Hin]; [|by apply IH]. specialize (Hh _ _ eq_refl).
  unfold held in Hh. destruct (w_unpersisted w' !! id) eqn:Hu'.
  - injection Hh as ->. by apply (wo_unpersisted _ Hw').
  - by apply (wo_receipts _ Hw').
Qed.

(** The whole eviction and deletion passes are such runs. *)
Section passes.
Context (config : ReceiptConfig) (Hused : used config).
Definition reaches_by_run w w' : Prop := ∃ tr, run config w tr w'.

Lemma reaches_step w e w' w'' :
  world_step config w e config w' → (world_ok w' → reaches_by_run w' w'') → world_ok w →
  reaches_by_run w w''.
Proof using Hused.
  intros Hs Hr Hw. destruct (Hr (proj1 (step_ok _ _ _ _ _ Hused Hs Hw))) as [tr Htr].
  exists (e :: tr). by econstructor.
Qed.
Lemma reaches_refl w : reaches_by_run w w.
Proof using Hused. exists []. by constructor. Qed.

Lemma gc_loop_run cutoff ids n w :
  world_ok w → reaches_by_run w (gc_loop_receipts cutoff ids n w).1.
Proof.
  revert n w. induction ids as [|id ids IH]; intros n w; [intros _; apply reaches_refl|].
  cbn [gc_loop_receipts]. unfold st_bind. destruct (gc_one_receipt cutoff id w) as [w1 r] eqn:Hg.
  destruct r as [[|]|e].
  - eapply reaches_step; [by eapply step_delete|]. auto.
  - eapply reaches_step; [by eapply step_skip|]. auto.
  - eapply reaches_step; [by eapply step_skip|]. intros _. apply reaches_refl.
Qed.

Lemma reaches_server {A B} (m : srv A) (f : A → issue B) w :
  hoare server_ok m (λ _, server_ok) server_ok →
  (∀ a w1, world_ok w1 → reaches_by_run w1 (f a w1).1) →
  world_ok w → reaches_by_run w (st_bind (on_server m) f w).1.
Proof.
  intros Hm Hf Hw. unfold st_bind, on_server. specialize (Hm _ (wo_server _ Hw)).
  destruct (m (w_server w)) as [sv [a|e]]; (eapply reaches_step; [by apply step_server|..|done]); [auto|].
  intros _. apply reaches_refl.
Qed.

Lemma gc_run secs w : world_ok w → reaches_by_run w (gc_disk_sessions_receipts secs w).1.
Proof.
  apply reaches_server; [apply now_ok|]. intros now w1. apply reaches_server.
  - eapply hoare_bind; [apply io_ok|]. intros []; [|by apply hoare_ret].
    eapply hoare_weaken; [by apply hoare_read|done|]. by intros ? ? [].
  - intros [ids|] w2; [apply gc_loop_run|intros _; apply reaches_refl].
Qed.

Lemma evict_loop_run {B} ids (f : issue B) w :
  (∀ w1, world_ok w1 → reaches_by_run w1 (f w1).1) → world_ok w →
  reaches_by_run w (st_bind (foldr (λ id rest, do! evict_receipt id; rest) (st_ret ()) ids)%stm (λ _, f) w).1.
Proof.
  intros Hf. revert w. induction ids as [|id ids IH]; intros w Hw; [by apply Hf|]. cbn [foldr].
  specialize (IH (evict_receipt id w).1). unfold st_bind in *.
  destruct (evict_receipt id w) as [w1 [[]|e]] eqn:He; cbn [fst] in IH.
  - eapply reaches_step; [by eapply step_evict|exact IH|done].
  - eapply reaches_step; [by eapply step_evict|intros _; apply reaches_refl|done].
Qed.

Lemma evict_run secs w : world_ok w → reaches_by_run w (evict_stale_sessions_receipts secs w).1.
Proof.
  apply reaches_server; [apply now_ok|]. intros now w1. apply reaches_server.
  { eapply hoare_weaken; [by apply hoare_read|done|]. by intros ? ? []. }
  intros ids w2 Hw2. destruct (is_empty ids); [apply reaches_refl|]. revert w2 Hw2.
  intros w2. apply reaches_server.
  { apply hoare_mod. intros sv Hsv. induction ids as [|id ids IH]; [by destruct sv|].
    apply (server_delete id) in IH. by destruct sv. }
  intros [] w3. apply evict_loop_run. intros w4 Hw4. eapply reaches_step; [|intros _; apply reaches_refl|done].
  unfold on_server, evict_logs, st_mod. apply step_server. apply (wo_server _ Hw4).
Qed.

End passes.

(** The receipt of an eligible session in memory is issued, and found again. *)
Lemma first_call config id w s wire b :
  cached id w = None → w_receipts w !! id = None → sv_sessions (w_server w) !! id = Some s →
  receipt_source s = Ok wire →
  build (receipt_inputs config s wire (sv_clock (w_server w) 1)) (rc_signer config) = Ok b →
  (persists = true → sv_io (w_server w) 0 = true ∧ sv_io (w_server w) 1 = true) →
  ∃ w', decision_receipt config persists id w = (w', Ok b) ∧ cached id w' = Some b ∧
    sv_snapshots (w_server w') = sv_snapshots (w_server w).
Proof.
  intros Hc Hr Hs Hsrc Hb Hio. unfold decision_receipt. unfold st_bind at 1, st_read at 1. rewrite Hc.
  unfold st_bind at 1, st_read at 1. rewrite Hc. unfold issue_locked. unfold st_bind at 1, st_read at 1.
  rewrite Hs. rewrite bool_decide_eq_true_2 by by eexists.
  assert (deadline_passed (sv_clock (w_server w) 0) s = false) as Hd.
  { unfold receipt_source in Hsrc. unfold deadline_passed. by destruct (ss_state s). }
  unfold st_bind at 1, on_server at 1, session_for_read. unfold st_bind at 1, get_session_checked.
  unfold st_bind at 1, st_read at 1. rewrite Hs. unfold st_bind at 1, st_catch, maybe_expire_session.
  unfold st_bind at 1, now_ms at 1. rewrite Hd. cbn -[load_receipt build keep cached].
  unfold cached in *. destruct (w_unpersisted w !! id) eqn:Hu; [done|].
  unfold load_receipt. destruct persists eqn:Ep.
  - destruct (Hio eq_refl) as [Hio0 Hio1].
    unfold st_bind, on_server, io_outcome, st_read, now_ms. cbn -[build].
    rewrite Hio0. cbn -[build]. rewrite Hr, Hsrc. cbn -[build]. rewrite Hb. cbn -[build]. rewrite Hio1.
    unfold st_bind, st_read. cbn -[build]. rewrite Hr. eexists. split; [reflexivity|].
    cbn. rewrite Hu. by rewrite lookup_insert_eq.
  - unfold st_bind, on_server, st_read, now_ms. cbn -[build]. rewrite Hsrc, Hb. eexists. split; [reflexivity|]. cbn.
    by rewrite lookup_insert_eq.
Qed.

(** A stored receipt is served without building another, under any configuration. *)
Lemma stored_call config id w b p :
  cached id w = None → w_receipts w !! id = Some b → persists = true →
  sv_sessions (w_server w) !! id = None → is_storage_safe_session_id id = true →
  sv_snapshots (w_server w) !! id = Some p → ss_session_id (unpersist p) = id →
  sv_io (w_server w) 0 = true → sv_io (w_server w) 1 = true →
  ∃ w', decision_receipt config persists id w = (w', Ok b).
Proof.
  intros Hc Hr Ep Hs Hsafe Hp Hid Hio0 Hio1. unfold decision_receipt. unfold st_bind at 1, st_read at 1. rewrite Hc.
  unfold st_bind at 1, st_read at 1. rewrite Hc. unfold issue_locked. unfold st_bind at 1, st_read at 1.
  rewrite Hs. rewrite bool_decide_eq_false_2 by by intros [].
  unfold st_bind at 1, on_server at 1, session_for_read. unfold st_bind at 1, get_session_checked.
  unfold st_bind at 1, st_read at 1. rewrite Hs. unfold st_ret at 1. rewrite Hsafe. cbn [negb].
  unfold load_session, st_bind at 1, st_bind at 1, io_outcome at 1. rewrite Hio0.
  unfold st_read at 1. cbn [sv_snapshots]. rewrite Hp. cbn [fmap option_fmap option_map].
  rewrite bool_decide_eq_true_2 by exact Hid. unfold load_receipt. rewrite Ep.
  unfold st_bind, on_server, io_outcome, st_read. cbn -[build]. rewrite Hio1. cbn -[build]. rewrite Hr.
  by eexists.
Qed.

(** ... until, on a backend that keeps no receipts, an eviction finds storage not
    answering: the only copy goes, though the session is still stored. *)
Theorem transient_failure_forgets id w b :
  w_unpersisted w !! id = Some b → sv_io (w_server w) 0 = false →
  ∃ w', evict_receipt id w = (w', Ok ()) ∧ cached id w' = None ∧
    sv_snapshots (w_server w') = sv_snapshots (w_server w).
Proof.
  intros Hu Hio. unfold evict_receipt, issuer_evict. unfold st_bind at 1, st_mod at 1.
  unfold st_bind at 1, st_read at 1. cbn [w_unpersisted upd_cache]. rewrite Hu.
  rewrite bool_decide_eq_true_2 by by eexists.
  unfold st_bind, on_server, load_session, io_outcome. cbn. rewrite Hio. eexists. split; [reflexivity|].
  split; [|done]. unfold cached. cbn. by rewrite !lookup_delete_eq.
Qed.

(** A backend that keeps receipts never forgets one in an eviction. *)
Lemma stored_never_forgotten config w tr w' :
  persists = true → run config w tr w' → world_ok w → ∀ id, Forgotten id ∉ tr.
Proof.
  intros Hp. induction 1 as [|config w e config' w' tr w'' Hu Hs Hr IH]; [by intros _ id ?%elem_of_nil|].
  intros Hw id. rewrite not_elem_of_cons. split; [|by apply IH, (step_ok _ _ _ _ _ Hu Hs)].
  pose proof (wo_kind _ Hw) as Hk. rewrite Hp in Hk. inversion Hs; try done. subst.
  unfold forgotten. by rewrite Hk, lookup_empty.
Qed.
End stable.

(** ** Configuration and what is served *)
Section served.
Context `{Sha256Laws, Message CommitmentPayload, Base64UrlLaws, Base64StdLaws, Ed25519Laws}.
Context `{JsonTextLaws, Chrono}.

Lemma config_publishes env_var read_to_string config :
  receipt_config_from_env env_var read_to_string = Ok config →
  publishable (ks_keys (rc_keys config)) ∧
  ∀ s, rc_signer config = Some s → keyset_kid (rc_keys config) (rs_kid s) = Some (active_members s).
Proof.
  intros (signer & _ & (retired & Hr & Hc)%bind_ok)%bind_ok.
  assert (publishable (ks_keys retired)) as Hs.
  { unfold retired_keys in Hr. destruct (var _ _); [|injection Hr as <-; split; constructor].
    apply bind_ok in Hr as (text & _ & Hr). apply bind_ok in Hr as (doc & _ & Hr).
    unfold key_error in Hr. destruct (retired_from_jwks doc) eqn:Hd; [|done]. injection Hr as ->.
    by eapply retired_ok. }
  cbv zeta in Hc. destruct (_ && _) in Hc; [done|]. unfold receipt_config_new in Hc.
  apply bind_ok in Hc as (keys & Hk & [= <-]). cbn [rc_keys rc_signer].
  destruct signer as [s|]; [|injection Hk as ->; by split].
  unfold key_error in Hk. destruct (with_active retired s) as [set'|] eqn:Hw; [|done]. injection Hk as ->.
  split; [by apply (with_active_ok retired s)|]. intros s' [= <-]. by apply (active_found retired).
Qed.

(** What a verifier has to trust to check the receipts of [config]. *)
Definition retains_key config (keys : KeySet) : Prop :=
  ∀ s, rc_signer config = Some s → keyset_kid keys (rs_kid s) = Some (active_members s).

End served.

Module Demo.
Import UrlSafe PlainKeys FlatJson.
#[local] Existing Instances UrlSafe.engine UrlSafe.engine_laws.
#[local] Existing Instances PlainKeys.scheme PlainKeys.scheme_laws.
#[local] Existing Instances demo_sha demo_sha_laws demo_commitment_message.
#[local] Existing Instances Receipt.Demo.std_engine Receipt.Demo.std_engine_laws.
#[local] Instance millis : Chrono := {|
  DateTime := Z; date_default := 0; from_timestamp_millis := Some;
  to_rfc3339_secs t := z_to_string (t / 1000) |}.

(** The key of 2026, retired in 2027, and a reader that knows the file its
    operator keeps it in. *)
Definition key_2026 : ReceiptSigner := ReceiptKeys.Demo.new_key.
Definition key_2027 : ReceiptSigner := MkReceiptSigner (pad [Byte.x02]) "2027".
Definition retired_text : string := "retired keys".
#[local] Instance reader : JsonText := {|
  json_from_slice := json_from_slice (JsonText := FlatJson.reader);
  json_from_str s :=
    if s == retired_text then Some (json_object [("keys", VArray [public_jwk key_2026])])
    else json_from_str (JsonText := FlatJson.reader) s;
  json_to_string := json_to_string (JsonText := FlatJson.reader) |}.
#[local] Instance reader_laws : JsonTextLaws.
Proof.
  split; [apply (json_flat (JsonTextLaws := FlatJson.reader_laws))
         |apply (json_plain (JsonTextLaws := FlatJson.reader_laws))].
Qed.

Definition key_text (key : ReceiptSigner) (secret : bytes) : string :=
  flat_text [("crv", "Ed25519"); ("d", b64_encode secret); ("kid", rs_kid key); ("kty", "OKP")].
Definition env_var (name : string) : option string :=
  if name == "MACP_RECEIPT_SIGNING_KEY" then Some (key_text key_2026 (pad [Byte.x01]))
  else if name == "MACP_RUNTIME_ID" then Some "prod"
  else None.
Definition env_2027 (name : string) : option string :=
  if name == "MACP_RECEIPT_SIGNING_KEY" then Some (key_text key_2027 (pad [Byte.x02]))
  else if name == "MACP_RECEIPT_PUBLIC_KEYS_PATH" then Some "retired.json"
  else if name == "MACP_RUNTIME_ID" then Some "prod"
  else None.
Definition config : ReceiptConfig :=
  MkReceiptConfig (Some key_2026) (MkKeySet [active_members key_2026]) "runtime:prod" true.
Definition rotated : ReceiptConfig :=
  MkReceiptConfig (Some key_2027)
    (MkKeySet [active_members key_2027; active_members key_2026]) "runtime:prod" true.
Lemma config_read : receipt_config_from_env env_var (λ _, Err "unused") = Ok config.
Proof. vm_compute. reflexivity. Qed.
Lemma rotated_read : receipt_config_from_env env_2027 (λ _, Ok retired_text) = Ok rotated.
Proof. vm_compute. reflexivity. Qed.

Definition used (c : ReceiptConfig) : Prop := c = config ∨ c = rotated.
Lemma used_read c :
  used c →
  (∃ env_var read_to_string, receipt_config_from_env env_var read_to_string = Ok c) ∧
  ∀ s, rc_signer c = Some s → is_utf8 (rs_kid s) = true.
Proof.
  intros [-> | ->]; (split; [eexists _, _; first [exact config_read|exact rotated_read]|]);
    intros s [= <-]; by vm_compute.
Qed.

Definition wire : bytes := encode_fields [WLen 1 (bytes_of "c1")].
Definition session : Session :=
  set_resolution (Some wire) (set_state Resolved (session_builder "s1" "macp.mode.decision.v1" "alice")).
Definition sv : Server :=
  MkServer {["s1" := session]} ∅ ∅ {["s1" := persist session]} [] (λ n, 2000 + Z.of_nat n) (λ _, true).

Lemma sv_ok : server_ok sv.
Proof.
  split; cbn [sv sv_sessions sv_snapshots]; intros id s [<- <-]%lookup_singleton_Some; by vm_compute.
Qed.

(** A call, a restart with the key rotated, and another call. *)
Lemma two_calls :
  ∃ b b' w', run used true config (fresh sv) [Served "s1" b; Restarted; Served "s1" b'] w'.
Proof.
  destruct (build_ok (receipt_inputs config session wire 2001) (rc_signer config)
    (commitment_hash (demo_commitment "task.completed"))) as (_ & _ & b & _ & _ & _ & _ & _ & Hb);
    [done|by vm_compute|].
  destruct (first_call true config "s1" (fresh sv) session wire b) as (w1 & Hd & Hc & Hn);
    [done|done|apply lookup_singleton_eq|done|exact Hb|done|].
  assert (used config) as Hu by by left. assert (used rotated) as Hu' by by right.
  assert (world_ok used true w1) as Hw1.
  { eapply (step_ok used true config (fresh sv)); [done|by eapply step_serve|apply fresh_ok, sv_ok]. }
  destruct (stored_call true rotated "s1" (restart (λ _, true) w1) b (persist session)) as [w' Hd'];
    [done| |done|done|done| |done..|].
  { cbn [restart w_receipts]. unfold cached in Hc. rewrite (wo_kind _ _ _ Hw1), lookup_empty in Hc.
    by apply (wo_cache _ _ _ Hw1). }
  { cbn [restart boot w_server sv_snapshots]. rewrite Hn. apply lookup_singleton_eq. }
  exists b, b, w'. econstructor; [done|by apply step_serve|]. econstructor; [done|by apply step_restart|].
  econstructor; [done|by apply step_serve|by constructor].
Qed.

Lemma decision_receipt_stable_witness :
  ∃ b b' w', run used true config (fresh sv) [Served "s1" b; Restarted; Served "s1" b'] w' ∧ b = b'.
Proof.
  destruct two_calls as (b & b' & w' & Hr). exists b, b', w'. split; [exact Hr|].
  apply (decision_receipt_stable used true config (fresh sv) [] "s1" b [Restarted] b' [] w');
    [apply fresh_ok, sv_ok|exact Hr|by constructor; [intros [=]|]].
Defined.

End Demo.
