(* ===== verification/Stream.v ===== *)
(** * Session streams (src/stream_bus.rs, the subscription cursor of src/server.rs)

    The per-session broadcast bus, the cursor a subscriber reads a session
    through (the replay of a log snapshot, then the live bus), and the
    interleavings of one subscriber with the runtime that accepts envelopes.
    tokio's broadcast channel is a parameter. *)

From stdpp Require Import prelude gmap strings.
From S2P Require Import Prelude RustStr Floats Extern Error Policy Wire SessionData Log.
Open Scope Z_scope.

(** ** tokio::sync::broadcast *)
Inductive TryRecv (M : Type) :=
| RecvOk (e : M) | RecvEmpty | RecvClosed | RecvLagged (skipped : Z).
Arguments RecvOk {M} e.
Arguments RecvEmpty {M}.
Arguments RecvClosed {M}.
Arguments RecvLagged {M} skipped.

(** The channels of the process that carry values of [M], the handles that name
    their ends, and the calls on them. *)
Class Broadcast (M : Type) := {
  Channels : Type;
  Sender : Type;
  Receiver : Type;
  bc_channel : Z → Channels → Channels * Sender * Receiver;
  bc_subscribe : Sender → Channels → Channels * Receiver;
  bc_send : Sender → M → Channels → Channels;
  bc_try_recv : Receiver → Channels → Channels * TryRecv M;
  bc_receiver_count : Sender → Channels → Z;
  bc_drop_sender : Sender → Channels → Channels;
  bc_drop_receiver : Receiver → Channels → Channels;
}.

(** A live receiver: the channel it reads, its capacity, and what it has not
    read yet. *)
Record Inbox `{Broadcast M} := MkInbox {
  ib_sender : Sender;
  ib_capacity : Z;
  ib_unread : list M;
}.
Arguments MkInbox {_ _} _ _ _.

(** What the documentation of the channel promises. A receiver gets the
    values sent after it subscribed, each once and in order; one that falls
    more than the channel's capacity behind, which is at least the one asked
    for, is told how many it lost and goes on with the oldest retained; an
    empty channel is closed once its sender is gone. *)
Class BroadcastLaws `{Broadcast M} := {
  #[global] sender_eq_dec :: EqDecision Sender;
  #[global] receiver_eq_dec :: EqDecision Receiver;
  inbox : Receiver → Channels → option Inbox;
  sender_capacity : Sender → Channels → option Z;
  channel_law n w w' s r : 0 < n → bc_channel n w = (w', s, r) →
    sender_capacity s w = None ∧ inbox r w = None ∧ ∃ m, n ≤ m ∧
    (∀ s', sender_capacity s' w' = if decide (s' = s) then Some m else sender_capacity s' w) ∧
    ∀ r', inbox r' w' = if decide (r' = r) then Some (MkInbox s m []) else inbox r' w;
  subscribe_law s n w w' r : sender_capacity s w = Some n → bc_subscribe s w = (w', r) →
    inbox r w = None ∧ (∀ s', sender_capacity s' w' = sender_capacity s' w) ∧
    ∀ r', inbox r' w' = if decide (r' = r) then Some (MkInbox s n []) else inbox r' w;
  send_law s e w :
    (∀ s', sender_capacity s' (bc_send s e w) = sender_capacity s' w) ∧
    ∀ r, inbox r (bc_send s e w) =
      (λ i, if decide (ib_sender i = s)
            then MkInbox s (ib_capacity i) (ib_unread i ++ [e]) else i) <$> inbox r w;
  recv_law r i w w' out : inbox r w = Some i → bc_try_recv r w = (w', out) →
    (∀ s', sender_capacity s' w' = sender_capacity s' w) ∧
    (∀ r', r' ≠ r → inbox r' w' = inbox r' w) ∧
    let lost := len (ib_unread i) - ib_capacity i in
    if decide (0 < lost)
    then out = RecvLagged lost ∧
         inbox r w' = Some (MkInbox (ib_sender i) (ib_capacity i)
                              (drop (Z.to_nat lost) (ib_unread i)))
    else match ib_unread i with
         | e :: q => out = RecvOk e ∧
                     inbox r w' = Some (MkInbox (ib_sender i) (ib_capacity i) q)
         | [] => out = (if sender_capacity (ib_sender i) w then RecvEmpty else RecvClosed) ∧
                 inbox r w' = Some i
         end;
  receiver_count_law s w :
    bc_receiver_count s w = 0 ↔ ∀ r i, inbox r w = Some i → ib_sender i ≠ s;
  drop_sender_law s w :
    (∀ s', sender_capacity s' (bc_drop_sender s w)
           = if decide (s' = s) then None else sender_capacity s' w) ∧
    ∀ r, inbox r (bc_drop_sender s w) = inbox r w;
  drop_receiver_law r w :
    (∀ s', sender_capacity s' (bc_drop_receiver r w) = sender_capacity s' w) ∧
    ∀ r', inbox r' (bc_drop_receiver r w) = if decide (r' = r) then None else inbox r' w;
}.

(** ** The bus ([SessionStreamBus]) *)
Definition DEFAULT_SESSION_STREAM_CAPACITY : Z := 256.

Section bus.
Context `{Broadcast Envelope}.

Record SessionStreamBus := MkBus {
  sb_channels : gmap string Sender;
  sb_capacity : Z;
}.
(** The bus with the channels its handles name. *)
Record Bus := MkBusState { bus_map : SessionStreamBus; bus_chans : Channels }.

Definition bus_new (capacity : Z) : SessionStreamBus := MkBus ∅ capacity.
Definition bus_default : SessionStreamBus := bus_new DEFAULT_SESSION_STREAM_CAPACITY.

(** [entry(id).or_insert_with(..)]: the receiver of a new channel is dropped. *)
Definition channel_entry (id : string) (b : Bus) : Bus * Sender :=
  match sb_channels (bus_map b) !! id with
  | Some s => (b, s)
  | None =>
      let '(w, s, r) := bc_channel (sb_capacity (bus_map b)) (bus_chans b) in
      (MkBusState (MkBus (<[id := s]> (sb_channels (bus_map b))) (sb_capacity (bus_map b)))
         (bc_drop_receiver r w), s)
  end.
Definition bus_subscribe (id : string) (b : Bus) : Bus * Receiver :=
  let '(b, s) := channel_entry id b in
  let '(w, r) := bc_subscribe s (bus_chans b) in
  (MkBusState (bus_map b) w, r).

Definition bus_publish (id : string) (envelope : Envelope) (b : Bus) : Bus :=
  match sb_channels (bus_map b) !! id with
  | Some s => MkBusState (bus_map b) (bc_send s envelope (bus_chans b))
  | None => b
  end.

Definition remove_if_unused (id : string) (b : Bus) : Bus * bool :=
  match sb_channels (bus_map b) !! id with
  | Some s =>
      if bc_receiver_count s (bus_chans b) =? 0
      then (MkBusState (MkBus (delete id (sb_channels (bus_map b))) (sb_capacity (bus_map b)))
              (bc_drop_sender s (bus_chans b)), true)
      else (b, false)
  | None => (b, true)
  end.
Definition channel_count (b : Bus) : Z := Z.of_nat (size (sb_channels (bus_map b))).

(** [publish_accepted_envelope] of the runtime. *)
Definition stream_publish (env : Envelope) (b : Bus) : Bus :=
  if str_is_empty (env_session_id env) then b
  else bus_publish (env_session_id env) env b.

(** A subscriber that leaves. *)
Definition bus_leave (r : Receiver) (b : Bus) : Bus :=
  MkBusState (bus_map b) (bc_drop_receiver r (bus_chans b)).

(** ** The cursor ([SubscriptionCursor]) *)
Record SubscriptionCursor := MkCursor {
  sc_receiver : option Receiver;
  sc_replay : list (Z * Envelope);
  sc_replay_dedup : option (gset string);
  sc_next_live_ordinal : option Z;
}.
Record StreamLagged := MkStreamLagged { sl_skipped : Z }.

Definition cursor_new (receiver : Receiver) : SubscriptionCursor :=
  MkCursor (Some receiver) [] None None.
Definition is_live (c : SubscriptionCursor) : bool := if sc_receiver c then true else false.
Definition attach (receiver : Receiver) (c : SubscriptionCursor) : SubscriptionCursor :=
  MkCursor (Some receiver) (sc_replay c) (sc_replay_dedup c) (sc_next_live_ordinal c).
Definition set_dedup (d : option (gset string)) (c : SubscriptionCursor) : SubscriptionCursor :=
  MkCursor (sc_receiver c) (sc_replay c) d (sc_next_live_ordinal c).

(** [Err base] below the compaction base, the cursor as it was. *)
Definition load_snapshot (id : string) (after_sequence : Z) (logs : LogStore)
    (c : SubscriptionCursor) : result Z SubscriptionCursor :=
  '(replay, high_water) ← subscribe_snapshot id after_sequence logs;
  Ok (MkCursor (sc_receiver c) (sc_replay c ++ replay)
        (if negb (is_empty replay)
         then Some (list_to_set ((λ oe : Z * Envelope, env_message_id oe.2) <$> replay))
         else sc_replay_dedup c)
        (Some (high_water + 1))).

Definition take_replay (c : SubscriptionCursor) : SubscriptionCursor * list (Z * Envelope) :=
  (MkCursor (sc_receiver c) [] (sc_replay_dedup c) (sc_next_live_ordinal c), sc_replay c).

Definition number (envelope : Envelope) (c : SubscriptionCursor)
    : SubscriptionCursor * (Z * Envelope) :=
  match sc_next_live_ordinal c with
  | Some next =>
      (MkCursor (sc_receiver c) (sc_replay c) (sc_replay_dedup c) (Some (next + 1)),
       (next, envelope))
  | None => (c, (0, envelope))
  end.

(** The filter and whether the envelope was replayed; a miss disarms it. *)
Definition should_skip_replayed (replay_dedup : option (gset string)) (envelope : Envelope)
    : option (gset string) * bool :=
  match replay_dedup with
  | Some seen =>
      if bool_decide (env_message_id envelope ∈ seen)
      then (Some (seen ∖ {[env_message_id envelope]}), true)
      else (None, false)
  | None => (None, false)
  end.

(** What a read gives: an envelope with its ordinal, nothing for now, or the
    end of the channel. *)
Inductive Next := NextItem (ordinal : Z) (envelope : Envelope) | NextEmpty | NextClosed.

(** The receive loop of [next] and [try_next], which differ in what an empty
    channel means: [next] waits for the next publish, [try_next] returns. *)
Fixpoint receive_loop (fuel : nat) (c : SubscriptionCursor) (w : Channels)
    : option (SubscriptionCursor * Channels * result StreamLagged Next) :=
  match fuel with
  | O => None
  | S fuel =>
      match sc_receiver c with
      | None => Some (c, w, Ok NextClosed)
      | Some receiver =>
          let '(w, out) := bc_try_recv receiver w in
          match out with
          | RecvOk envelope =>
              let '(dedup, skip) := should_skip_replayed (sc_replay_dedup c) envelope in
              let c := set_dedup dedup c in
              if skip then receive_loop fuel c w
              else
                let '(c, (ordinal, envelope)) := number envelope c in
                Some (c, w, Ok (NextItem ordinal envelope))
          | RecvEmpty => Some (c, w, Ok NextEmpty)
          | RecvClosed =>
              Some (MkCursor None (sc_replay c) (sc_replay_dedup c) (sc_next_live_ordinal c), w,
                    Ok NextClosed)
          | RecvLagged skipped => Some (c, w, Err (MkStreamLagged skipped))
          end
      end
  end.

(** Every skip takes an id out of the filter. *)
Definition receive_fuel (c : SubscriptionCursor) : nat :=
  S (match sc_replay_dedup c with Some seen => size seen | None => O end).

Definition poll (c : SubscriptionCursor) (w : Channels)
    : option (SubscriptionCursor * Channels * result StreamLagged Next) :=
  match sc_replay c with
  | (ordinal, envelope) :: replay =>
      Some (MkCursor (sc_receiver c) replay (sc_replay_dedup c) (sc_next_live_ordinal c), w,
            Ok (NextItem ordinal envelope))
  | [] => receive_loop (receive_fuel c) c w
  end.

(** [try_next]: [None] when nothing is buffered or the channel closed. *)
Definition next_option (n : Next) : option (Z * Envelope) :=
  match n with NextItem ordinal envelope => Some (ordinal, envelope) | _ => None end.
Definition try_next (c : SubscriptionCursor) (w : Channels)
    : option (SubscriptionCursor * Channels * result StreamLagged (option (Z * Envelope))) :=
  match poll c w with
  | Some (c, w, Ok next) => Some (c, w, Ok (next_option next))
  | Some (c, w, Err lagged) => Some (c, w, Err lagged)
  | None => None
  end.

(** The cursor of a stream, if it has one ([try_next_stream_event]). *)
Definition try_next_stream_event (cursor : option SubscriptionCursor) (w : Channels)
    : option (option SubscriptionCursor * Channels * result StreamLagged (option Envelope)) :=
  match cursor with
  | Some c =>
      match try_next c w with
      | Some (c, w, out) =>
          Some (Some c, w, match out with
                           | Ok item => Ok (snd <$> item)
                           | Err lagged => Err lagged
                           end)
      | None => None
      end
  | None => Some (None, w, Ok None)
  end.
End bus.
Arguments SessionStreamBus {_}.
Arguments Bus {_}.
Arguments SubscriptionCursor {_}.

(** ** What the bus promises *)
Section bus_laws.
Context `{HB : Broadcast Envelope, HL : !BroadcastLaws}.

(** Every session has a channel of its own, and its sender is alive. *)
Record bus_wf (b : Bus) : Prop := {
  wf_capacity : 0 < sb_capacity (bus_map b);
  wf_senders id s : sb_channels (bus_map b) !! id = Some s →
    ∃ n, sender_capacity s (bus_chans b) = Some n ∧ sb_capacity (bus_map b) ≤ n;
  wf_own id id' s : sb_channels (bus_map b) !! id = Some s →
    sb_channels (bus_map b) !! id' = Some s → id = id';
}.

(** A receiver of the session's channel that has [q] to read. *)
Definition attached (r : Receiver) (id : string) (b : Bus) (q : list Envelope) : Prop :=
  ∃ s n, sb_channels (bus_map b) !! id = Some s ∧ sb_capacity (bus_map b) ≤ n ∧
    inbox r (bus_chans b) = Some (MkInbox s n q).

(** The receivers [b'] keeps as they were. *)
Definition bus_extends (b b' : Bus) : Prop :=
  bus_wf b' ∧ sb_capacity (bus_map b') = sb_capacity (bus_map b) ∧
  ∀ r id q, attached r id b q → attached r id b' q.

Lemma channel_entry_spec id b b' s :
  bus_wf b → channel_entry id b = (b', s) →
  bus_extends b b' ∧ sb_channels (bus_map b') !! id = Some s.
Proof.
  intros [Hc Hs Ho]. unfold channel_entry.
  destruct (sb_channels (bus_map b) !! id) as [s0|] eqn:E; [by intros [= <- <-]|].
  destruct (bc_channel _ _) as [[w s0] r] eqn:En. intros [= <- <-].
  destruct (channel_law _ _ _ _ _ Hc En) as (Hnew & Hr & m & Hm & Hcap & Hin).
  destruct (drop_receiver_law r w) as [Hcap' Hin']. split; [|apply lookup_insert_eq].
  split_and!; [split; cbn|done|].
  - done.
  - intros id' s' [[-> ->]|[? ?]]%lookup_insert_Some; rewrite Hcap', Hcap;
      [rewrite decide_True by done; by exists m|].
    case_decide as Hd; [by exists m|by eapply Hs].
  - intros i1 i2 s' [[-> ->]|[? Hm1]]%lookup_insert_Some [[-> ?]|[? Hm2]]%lookup_insert_Some;
      [done| | |by eapply Ho].
    + apply Hs in Hm2 as (? & ? & _). congruence.
    + subst. apply Hs in Hm1 as (? & ? & _). congruence.
  - intros r' id' q (s' & n & Hs' & Hn & Hq). exists s', n. cbn. split.
    { apply lookup_insert_Some. right. split; [congruence|done]. }
    split; [done|]. rewrite Hin', Hin. destruct (decide (r' = r)) as [->|]; [congruence|done].
Qed.

Lemma bus_subscribe_spec id b b' r :
  bus_wf b → bus_subscribe id b = (b', r) →
  bus_extends b b' ∧ attached r id b' [] ∧ ∀ id' q, ~ attached r id' b q.
Proof.
  intros Hwf. unfold bus_subscribe. destruct (channel_entry id b) as [b1 s] eqn:E.
  destruct (channel_entry_spec _ _ _ _ Hwf E) as ((Hwf1 & Hcap1 & Hext) & Hs).
  destruct (bc_subscribe _ _) as [w r0] eqn:Es. intros [= <- <-].
  destruct (wf_senders _ Hwf1 _ _ Hs) as (n & Hn & Hle).
  destruct (subscribe_law _ _ _ _ _ Hn Es) as (Hr & Hc & Hin).
  split_and!.
  - split_and!; [|done|].
    + destruct Hwf1 as [? Hw Ho]. split; cbn; [done| |done]. intros. rewrite Hc. by eapply Hw.
    + intros r' id' q Ha%Hext. destruct Ha as (s' & n' & Hm & Hn' & Hq). exists s', n'.
      do 2 (split; [done|]). cbn. rewrite Hin. case_decide; [congruence|done].
  - exists s, n. do 2 (split; [done|]). cbn. rewrite Hin. by case_decide.
  - intros id' q Ha%Hext. destruct Ha as (s' & n' & Hm & Hn' & Hq). congruence.
Qed.

Lemma bus_publish_spec id e b :
  bus_wf b → bus_wf (bus_publish id e b) ∧
  bus_map (bus_publish id e b) = bus_map b ∧
  ∀ r id' q, attached r id' b q →
    attached r id' (bus_publish id e b) (if decide (id' = id) then q ++ [e] else q).
Proof.
  intros Hwf. unfold bus_publish. destruct (sb_channels _ !! id) as [s|] eqn:E.
  - destruct (send_law s e (bus_chans b)) as [Hc Hin]. split_and!; [|done|].
    + destruct Hwf as [? Hw Ho]. split; cbn; [done| |done]. intros. rewrite Hc. by eapply Hw.
    + intros r id' q (s' & n & Hm & Hn & Hq). exists s', n. do 2 (split; [done|]).
      cbn. rewrite Hin, Hq. cbn.
      destruct (decide (s' = s)) as [->|Hne].
      * assert (id' = id) as -> by by eapply (wf_own b). by rewrite decide_True by done.
      * rewrite decide_False; [done|]. intros ->. congruence.
  - split_and!; [done|done|]. intros r id' q Ha. rewrite decide_False; [done|].
    intros ->. destruct Ha as (? & ? & ? & _). congruence.
Qed.

(** A channel with a live receiver stays. *)
Lemma remove_if_unused_spec id b :
  bus_wf b → bus_extends b (remove_if_unused id b).1.
Proof.
  intros Hwf. unfold remove_if_unused. destruct (sb_channels _ !! id) as [s|] eqn:E; [|done].
  destruct (bc_receiver_count _ _ =? 0) eqn:Ec; [|done].
  apply Z.eqb_eq in Ec. rewrite receiver_count_law in Ec.
  destruct (drop_sender_law s (bus_chans b)) as [Hc Hin].
  destruct Hwf as [Hcap Hw Ho]. split_and!; [split; cbn|done|].
  - done.
  - intros id' s' [? Hm]%lookup_delete_Some. rewrite Hc. destruct (decide (s' = s)) as [->|];
      [|by eapply Hw]. by destruct (Ho id id' s E Hm).
  - intros i1 i2 s' [_ Hm1]%lookup_delete_Some [_ Hm2]%lookup_delete_Some. by eapply Ho.
  - intros r id' q (s' & n & Hm & Hn & Hq). exists s', n. cbn. rewrite Hin. split; [|done].
    apply lookup_delete_Some. split; [|done]. intros <-. apply Ec in Hq. cbn in Hq. congruence.
Qed.

(** What another receiver does. *)
Lemma bus_leave_spec r b : bus_wf b →
  bus_wf (bus_leave r b) ∧ bus_map (bus_leave r b) = bus_map b ∧
  ∀ r' id q, r' ≠ r → attached r' id b q → attached r' id (bus_leave r b) q.
Proof.
  intros [Hcap Hw Ho]. destruct (drop_receiver_law r (bus_chans b)) as [Hc Hin].
  split_and!; [split; cbn; [done| |done]|done|].
  - intros. rewrite Hc. by eapply Hw.
  - intros r' id q Hne (s & n & Hm & Hn & Hq). exists s, n. do 2 (split; [done|]).
    cbn. rewrite Hin. by rewrite decide_False.
Qed.

Lemma other_recv r i b w out :
  bus_wf b → inbox r (bus_chans b) = Some i → bc_try_recv r (bus_chans b) = (w, out) →
  bus_wf (MkBusState (bus_map b) w) ∧
  ∀ r' id q, r' ≠ r → attached r' id b q → attached r' id (MkBusState (bus_map b) w) q.
Proof.
  intros Hwf Hi Er. destruct (recv_law _ _ _ _ _ Hi Er) as (Hc & Ho & _). split.
  - destruct Hwf as [? Hw Hown]. split; cbn; [done| |done]. intros. rewrite Hc. by eapply Hw.
  - intros r' id q Hne (s & n & ? & ? & ?). exists s, n. do 2 (split; [done|]).
    cbn. by rewrite Ho.
Qed.

(** A read by a live receiver: the oldest unread envelope, nothing, or the
    number of envelopes lost; never the end of the channel. *)
Lemma attached_recv r id b q w out :
  bus_wf b → attached r id b q → bc_try_recv r (bus_chans b) = (w, out) →
  let b' := MkBusState (bus_map b) w in
  bus_wf b' ∧
  (match q with
   | e :: q => out = RecvOk e ∧ attached r id b' q
   | [] => out = RecvEmpty ∧ attached r id b' []
   end ∨
   ∃ n, 0 < n ≤ len q - sb_capacity (bus_map b) ∧ out = RecvLagged n ∧
     attached r id b' (drop (Z.to_nat n) q)).
Proof.
  intros Hwf (s & n & Hm & Hn & Hq) Er b'. destruct (recv_law _ _ _ _ _ Hq Er) as (_ & _ & Hr).
  cbn in Hr. destruct (wf_senders _ Hwf _ _ Hm) as (n' & Hn' & _). rewrite Hn' in Hr.
  split; [by eapply other_recv|]. case_decide.
  - destruct Hr as [-> Hr]. right. exists (len q - n). split_and!; [lia..|done|]. by exists s, n.
  - left. destruct q; destruct Hr as [-> Hr]; (split; [done|]); by exists s, n.
Qed.
End bus_laws.

(** ** One subscriber and the runtime *)
Section system.
Context `{HB : Broadcast Envelope}.
Context (id : string).

(** The log entry of an accepted envelope; a SessionStart has one of its own. *)
Definition accepted_entry (e : Envelope) (received_at_ms : Z)
    (start : option (option string * Z * Z)) : LogEntry :=
  match start with
  | None => make_incoming_entry e received_at_ms
  | Some (bound, rev, max_suspend_ms) => make_start_entry e received_at_ms bound rev max_suspend_ms
  end.

(** The subscriber: not there, attached to the bus and without its snapshot,
    reading after a snapshot of the session's log, or of no log because the
    session had been evicted, refused below the compaction base, or behind. *)
Inductive Reader :=
| Away
| Subscribed (published_before : Z) (c : SubscriptionCursor)
| Reading (published_before after : Z) (c : SubscriptionCursor) (delivered : list (Z * Envelope))
| Unlogged (c : SubscriptionCursor) (delivered : list (Z * Envelope))
| Refused (base : Z)
| Lost (skipped : Z).

(** The session's log and the bus; what was published on the session so far,
    and the envelope appended to the log and not published yet, if there is
    one; the subscriber. *)
Record Hub := MkHub {
  hub_log : LogStore;
  hub_bus : Bus;
  hub_published : list Envelope;
  hub_pending : option Envelope;
  hub_reader : Reader;
}.
Definition hub_accepted (h : Hub) : list Envelope := hub_published h ++ option_list (hub_pending h).

Inductive Action :=
| Accept (e : Envelope) (received_at_ms : Z) (start : option (option string * Z * Z))
| Publish
| Note (message_type : string) (payload : bytes) (mode : string) (now : Z)
| InsertCheckpoint (payload : bytes) (mode : string) (now : Z)
| Compact (payload : bytes) (mode : string) (now : Z)
| PublishElsewhere (e : Envelope)
| SubscribeOther (session_id : string)
| RecvOther (r : Receiver)
| LeaveOther (r : Receiver)
| RemoveLog
| RemoveChannel (session_id : string)
| Subscribe
| Snapshot (after : Z)
| Poll.

Definition with_log (f : LogStore → LogStore) (h : Hub) : Hub :=
  MkHub (f (hub_log h)) (hub_bus h) (hub_published h) (hub_pending h) (hub_reader h).
Definition with_bus (b : Bus) (h : Hub) : Hub :=
  MkHub (hub_log h) b (hub_published h) (hub_pending h) (hub_reader h).
Definition with_reader (r : Reader) (h : Hub) : Hub :=
  MkHub (hub_log h) (hub_bus h) (hub_published h) (hub_pending h) r.
Definition set_chans (w : Channels) (b : Bus) : Bus := MkBusState (bus_map b) w.

Definition receiver_of (r : Reader) : option Receiver :=
  match r with
  | Subscribed _ c | Reading _ _ c _ | Unlogged c _ => sc_receiver c
  | _ => None
  end.

Context `{HL : !BroadcastLaws}.

(** The session has not been evicted. *)
Definition logged (h : Hub) : bool := bool_decide (is_Some (hub_log h !! id)).

(** What the session's mutex and its dedup set allow: an envelope is accepted
    when the session is there, no other is on its way to the bus and its id is
    new. *)
Definition may_accept (e : Envelope) (h : Hub) : bool :=
  logged h && bool_decide (hub_pending h = None) && (env_session_id e == id)
  && bool_decide (env_message_id e ∉ env_message_id <$> hub_accepted h).

Definition act (a : Action) (h : Hub) : Hub :=
  match a with
  | Accept e t start =>
      if may_accept e h
      then MkHub (log_append id (accepted_entry e t start) (hub_log h)) (hub_bus h)
             (hub_published h) (Some e) (hub_reader h)
      else h
  | Publish =>
      match hub_pending h with
      | Some e => MkHub (hub_log h) (stream_publish e (hub_bus h)) (hub_published h ++ [e]) None
                    (hub_reader h)
      | None => h
      end
  | Note message_type payload mode now =>
      if logged h
      then with_log (log_append id (make_internal_entry message_type payload id mode now)) h
      else h
  | InsertCheckpoint payload mode now =>
      if logged h then with_log (log_append id (make_checkpoint_entry payload id mode now 0)) h
      else h
  | Compact payload mode now =>
      let discarded := high_water (default [] (hub_log h !! id)) in
      if logged h
      then with_log (replace_session_log id [make_checkpoint_entry payload id mode now discarded]) h
      else h
  | PublishElsewhere e =>
      if env_session_id e == id then h else with_bus (stream_publish e (hub_bus h)) h
  | SubscribeOther session_id => with_bus (bus_subscribe session_id (hub_bus h)).1 h
  | RecvOther r => (* a live receiver of someone else *)
      if bool_decide (receiver_of (hub_reader h) = Some r)
         || bool_decide (inbox r (bus_chans (hub_bus h)) = None) then h
      else with_bus (set_chans (bc_try_recv r (bus_chans (hub_bus h))).1 (hub_bus h)) h
  | LeaveOther r =>
      if bool_decide (receiver_of (hub_reader h) = Some r) then h
      else with_bus (bus_leave r (hub_bus h)) h
  | RemoveLog => (* the session is terminal: nothing is on its way *)
      if bool_decide (hub_pending h = None) then with_log (remove_session_log id) h else h
  | RemoveChannel session_id => with_bus (remove_if_unused session_id (hub_bus h)).1 h
  | Subscribe =>
      match hub_reader h with
      | Away =>
          let '(b, r) := bus_subscribe id (hub_bus h) in
          with_reader (Subscribed (len (hub_published h)) (cursor_new r)) (with_bus b h)
      | _ => h
      end
  | Snapshot after =>
      match hub_reader h with
      | Subscribed p c =>
          match load_snapshot id after (hub_log h) c with
          | Ok c => with_reader (if logged h then Reading p after c [] else Unlogged c []) h
          | Err base => with_reader (Refused base) h
          end
      | _ => h
      end
  | Poll =>
      match hub_reader h with
      | Reading p after c delivered =>
          match poll c (bus_chans (hub_bus h)) with
          | Some (c, w, out) =>
              with_reader
                match out with
                | Ok (NextItem ordinal envelope) =>
                    Reading p after c (delivered ++ [(ordinal, envelope)])
                | Ok _ => Reading p after c delivered
                | Err lagged => Lost (sl_skipped lagged)
                end (with_bus (set_chans w (hub_bus h)) h)
          | None => h
          end
      | Unlogged c delivered =>
          match poll c (bus_chans (hub_bus h)) with
          | Some (c, w, out) =>
              with_reader
                match out with
                | Ok (NextItem ordinal envelope) => Unlogged c (delivered ++ [(ordinal, envelope)])
                | Ok _ => Unlogged c delivered
                | Err lagged => Lost (sl_skipped lagged)
                end (with_bus (set_chans w (hub_bus h)) h)
          | None => h
          end
      | _ => h
      end
  end.
Definition act_all : list Action → Hub → Hub := flip (foldl (flip act)).

(** The session on a new bus: with the log a process found in storage, which
    earlier processes accepted [earlier] into, or with a log just created. *)
Definition hub_resumed (logs : LogStore) (earlier : list Envelope) (w : Channels) : Hub :=
  MkHub logs (MkBusState bus_default w) earlier None Away.
Definition hub_start (w : Channels) : Hub := hub_resumed (create_session_log id ∅) [] w.
End system.
Arguments Hub {_}.
Arguments Reader {_}.

Section exactly_once.
Context `{HB : Broadcast Envelope, HL : !BroadcastLaws}.
Context (id : string).

(** A replayed envelope carries the time it was received when its sender gave
    none. *)
Definition as_replayed (received_at_ms : Z) (e : Envelope) : Envelope :=
  envelope_from_log_entry (make_incoming_entry e received_at_ms).
Definition delivers (e0 e : Envelope) : Prop := e = e0 ∨ ∃ t, e = as_replayed t e0.

Lemma delivers_same e0 e :
  env_macp_version e0 ≠ "" → env_timestamp_unix_ms e0 ≠ 0 → delivers e0 e → e = e0.
Proof.
  intros Hv Ht [->|[t ->]]; [done|]. destruct e0 as [v ? ? ? ? ? ts ?]. cbn in *.
  unfold as_replayed, envelope_from_log_entry. cbn. f_equal.
  - by destruct v.
  - by rewrite (proj2 (Z.eqb_neq _ _)).
Qed.
Lemma delivers_id e0 e : delivers e0 e → env_message_id e = env_message_id e0.
Proof. by intros [->|[t ->]]. Qed.

(** The envelopes accepted after [after], in order, under their ordinals. *)
Definition in_order (after : Z) (accepted : list Envelope) (items : list (Z * Envelope)) : Prop :=
  ∀ i o e, items !! i = Some (o, e) →
    o = after + 1 + Z.of_nat i ∧
    ∃ e0, accepted !! (Z.to_nat after + i)%nat = Some e0 ∧ delivers e0 e.

Lemma in_order_more after accepted new items :
  in_order after accepted items → in_order after (accepted ++ new) items.
Proof.
  intros Hi i o e He. destruct (Hi _ _ _ He) as (-> & e0 & Ha & Hd).
  split; [done|]. exists e0. split; [|done]. by apply lookup_app_l_Some.
Qed.
Lemma in_order_prefix after accepted items more :
  in_order after accepted (items ++ more) → in_order after accepted items.
Proof. intros Hi i o e He. apply Hi. by apply lookup_app_l_Some. Qed.
Lemma in_order_snoc after accepted items o e e0 :
  in_order after accepted items → o = after + 1 + len items →
  accepted !! (Z.to_nat after + length items)%nat = Some e0 → delivers e0 e →
  in_order after accepted (items ++ [(o, e)]).
Proof.
  intros Hi -> Ha Hd i o' e' [He|[Hl He]]%lookup_app_Some; [by apply Hi|].
  destruct (i - length items)%nat eqn:Ei; [|done].
  cbn in He. injection He as <- <-. assert (i = length items) as -> by lia.
  split; [unfold len; lia|by exists e0].
Qed.

(** The log holds what was accepted since it was compacted. *)
Definition log_holds (accepted : list Envelope) (logs : LogStore) : Prop :=
  ∃ l, logs !! id = Some l ∧ high_water l = len accepted ∧
    ∀ j entry, incoming l !! j = Some entry →
      ∃ e0, accepted !! (Z.to_nat (compaction_base l) + j)%nat = Some e0 ∧
        ∃ t start, entry = accepted_entry e0 t start.

Lemma log_holds_snapshot accepted logs after replay hw :
  log_holds accepted logs → 0 ≤ after ≤ len accepted →
  subscribe_snapshot id after logs = Ok (replay, hw) →
  hw = len accepted ∧ len replay = hw - after ∧ in_order after accepted replay.
Proof.
  intros (l & Hl & Hhw & Hin) Ha. unfold subscribe_snapshot, get_incoming_after_with_high_water.
  rewrite Hl. destruct (after <? _) eqn:Eb; [done|]. apply Z.ltb_ge in Eb.
  rewrite number_after_drop by done. intros [= <- <-].
  pose proof (compaction_base_nonneg l). unfold high_water in Hhw. split; [done|].
  set (k := Z.to_nat (after - compaction_base l)).
  split; [unfold len in *; rewrite length_fmap, length_imap, length_drop; lia|].
  intros i o e. rewrite list_lookup_fmap, list_lookup_imap, lookup_drop.
  destruct (incoming l !! (k + i)%nat) as [entry|] eqn:E; [|done].
  cbn. intros [= <- <-]. split; [done|].
  destruct (Hin _ _ E) as (e0 & He0 & t & start & ->). exists e0. split.
  { rewrite <- He0. f_equal. lia. }
  right. exists t. by destruct start as [[[??]?]|].
Qed.

Lemma log_holds_accept accepted logs e t start :
  log_holds accepted logs →
  log_holds (accepted ++ [e]) (log_append id (accepted_entry e t start) logs).
Proof.
  intros (l & Hl & Hhw & Hin). set (entry := accepted_entry e t start).
  assert (is_kind Incoming entry = true) as Hk by by destruct start as [[[??]?]|].
  exists (l ++ [entry]). unfold log_append. rewrite lookup_insert_eq, Hl.
  unfold high_water in *. rewrite compaction_base_app by by eapply is_kind_other.
  rewrite incoming_app. assert (incoming [entry] = [entry]) as ->
    by (unfold incoming; cbn; by rewrite Hk).
  split; [done|]. split; [unfold len in *; rewrite !length_app; cbn; lia|].
  intros j en [Hj|[Hlen Hj]]%lookup_app_Some.
  - destruct (Hin _ _ Hj) as (e0 & He0 & ?). exists e0. split; [|done].
    by apply lookup_app_l_Some.
  - apply list_lookup_singleton_Some in Hj as [Hj <-]. exists e. split; [|by exists t, start].
    apply list_lookup_middle. pose proof (compaction_base_nonneg l). unfold len in *. lia.
Qed.

(** The runtime's own entries take no ordinal. *)
Lemma log_holds_note accepted logs entry :
  le_entry_kind entry ≠ Incoming → le_compacted_incoming_ordinals entry = 0 →
  log_holds accepted logs → log_holds accepted (log_append id entry logs).
Proof.
  intros Hk H0 (l & Hl & Hhw & Hin). exists (l ++ [entry]).
  unfold log_append. rewrite lookup_insert_eq, Hl. split; [done|].
  assert (compaction_base (l ++ [entry]) = compaction_base l) as Hb.
  { unfold compaction_base. rewrite List.filter_app, fmap_app, foldr_app. cbn.
    destruct (is_kind Checkpoint entry); cbn; by rewrite ?H0. }
  unfold high_water in *. rewrite Hb, incoming_app.
  assert (incoming [entry] = []) as ->; [|by rewrite app_nil_r].
  unfold incoming. cbn. unfold is_kind. by rewrite bool_decide_eq_false_2.
Qed.

Lemma log_holds_compact accepted logs payload mode now :
  log_holds accepted logs →
  log_holds accepted (replace_session_log id
    [make_checkpoint_entry payload id mode now (high_water (default [] (logs !! id)))] logs).
Proof.
  intros (l & Hl & Hhw & Hin). unfold replace_session_log. rewrite Hl. change (default [] (Some l)) with l.
  eexists. rewrite lookup_insert_eq. split; [done|]. pose proof (len_nonneg accepted).
  split; [|intros j en Hj; by destruct j].
  rewrite <- Hhw in *. generalize dependent (high_water l). intros n _ Hn.
  unfold high_water, compaction_base, len. simpl. lia.
Qed.

(** What a cursor has left to do. It has read the bus up to the [pos]-th
    published envelope; its snapshot ends at ordinal [hw]; what it delivered
    and what it has yet to replay reach the later of the two; and the filter
    holds the ids of the envelopes the snapshot and the bus both have. *)
Record cursor_inv (after : Z) (accepted published : list Envelope) (b : Bus)
    (c : SubscriptionCursor) (delivered : list (Z * Envelope)) (pos hw : nat) : Prop := {
  ci_attached : ∃ r, sc_receiver c = Some r ∧ attached r id b (drop pos published);
  ci_pos : (pos ≤ length published)%nat;
  ci_hw : (hw ≤ length accepted)%nat;
  ci_replay : sc_replay c ≠ [] → (pos ≤ hw)%nat;
  ci_next : sc_next_live_ordinal c = Some (Z.of_nat (Nat.max pos hw) + 1);
  ci_reach : after + len (delivered ++ sc_replay c) = Z.of_nat (Nat.max pos hw);
  ci_order : in_order after accepted (delivered ++ sc_replay c);
  ci_armed i e : (pos ≤ i < hw)%nat → accepted !! i = Some e →
    ∃ seen, sc_replay_dedup c = Some seen ∧ env_message_id e ∈ seen;
  ci_seen seen : sc_replay_dedup c = Some seen →
    ∀ m, m ∈ seen → ∃ i e, (i < hw)%nat ∧ accepted !! i = Some e ∧ env_message_id e = m;
}.

Definition reader_inv (h : Hub) : Prop :=
  match hub_reader h with
  | Subscribed p c =>
      0 ≤ p ≤ len (hub_published h) ∧
      ∃ r, c = cursor_new r ∧ attached r id (hub_bus h) (drop (Z.to_nat p) (hub_published h))
  | Reading p after c delivered =>
      (∃ r q, sc_receiver c = Some r ∧ attached r id (hub_bus h) q) ∧
      (0 ≤ after ≤ p →
      ∃ pos hw, p ≤ Z.of_nat pos ∧
        cursor_inv after (hub_accepted h) (hub_published h) (hub_bus h) c delivered pos hw)
  | Unlogged c _ => ∃ r q, sc_receiver c = Some r ∧ attached r id (hub_bus h) q
  | _ => True
  end.

Record hub_inv (h : Hub) : Prop := {
  hi_bus : bus_wf (hub_bus h);
  hi_capacity : sb_capacity (bus_map (hub_bus h)) = DEFAULT_SESSION_STREAM_CAPACITY;
  hi_ids : NoDup (env_message_id <$> hub_accepted h);
  hi_session : Forall (λ e, env_session_id e = id) (hub_accepted h);
  hi_log : logged id h = true → log_holds (hub_accepted h) (hub_log h);
  hi_reader : reader_inv h;
}.

(** The receive loop: every skip shrinks the filter, and what comes out is the
    next accepted envelope. *)
Definition read_result (after : Z) (accepted published : list Envelope) (b : Bus) (p : Z)
    (delivered : list (Z * Envelope)) (c' : SubscriptionCursor) (w' : Channels)
    (out : result StreamLagged Next) : Prop :=
  let b' := set_chans w' b in
  bus_wf b' ∧
  match out with
  | Ok (NextItem o e) =>
      ∃ pos hw, p ≤ Z.of_nat pos ∧
        cursor_inv after accepted published b' c' (delivered ++ [(o, e)]) pos hw
  | Ok NextEmpty =>
      len published ≤ after + len delivered ∧
      ∃ pos hw, p ≤ Z.of_nat pos ∧ cursor_inv after accepted published b' c' delivered pos hw
  | Ok NextClosed => False
  | Err lagged =>
      0 < sl_skipped lagged ≤ len published - p - sb_capacity (bus_map b)
  end.

Lemma cursor_no_replay after accepted published b c delivered pos hw :
  cursor_inv after accepted published b c delivered pos hw → sc_replay c = [] →
  after + len delivered = Z.of_nat (Nat.max pos hw) ∧ in_order after accepted delivered.
Proof. intros [_ _ _ _ _ Hr Ho _ _] E. rewrite E, app_nil_r in *. done. Qed.

Lemma ids_inj (accepted : list Envelope) i j e e' :
  NoDup (env_message_id <$> accepted) → accepted !! i = Some e → accepted !! j = Some e' →
  env_message_id e = env_message_id e' → i = j.
Proof.
  intros Hn He He' E. eapply (NoDup_lookup _ _ _ (env_message_id e)); [exact Hn| |];
    rewrite list_lookup_fmap; [by rewrite He|by rewrite He', E].
Qed.

(** An envelope the snapshot had: it is dropped, and so is its id. *)
Lemma cursor_skip after published pending b b' c delivered pos hw e r :
  let accepted := published ++ pending in
  NoDup (env_message_id <$> accepted) →
  cursor_inv after accepted published b c delivered pos hw →
  published !! pos = Some e → (pos < hw)%nat →
  sc_receiver c = Some r → attached r id b' (drop (S pos) published) →
  ∃ seen, sc_replay_dedup c = Some seen ∧ env_message_id e ∈ seen ∧
    cursor_inv after accepted published b' (set_dedup (Some (seen ∖ {[env_message_id e]})) c)
      delivered (S pos) hw.
Proof.
  intros accepted Hn [_ Hp Hh Hrep Hnext Hreach Hord Harm Hseen] He Hlt Hr Ha.
  assert (accepted !! pos = Some e) as Hacc by by apply lookup_app_l_Some.
  destruct (Harm pos e) as (seen & Es & Hin); [lia|done|].
  exists seen. split; [done|]. split; [done|].
  apply lookup_lt_Some in He. replace (Nat.max pos hw) with hw in * by lia.
  split; cbn; replace (Nat.max (S pos) hw) with hw by lia; [by exists r|lia|done|lia|done..| |].
  - intros i e' Hi He'. eexists. split; [done|]. destruct (Harm i e') as (s' & Es' & Hin');
      [lia|done|]. assert (s' = seen) as -> by congruence.
    apply elem_of_difference. split; [done|]. intros E%elem_of_singleton.
    enough (i = pos) by lia. by eapply ids_inj.
  - intros ? [= <-] m [Hm _]%elem_of_difference. by eapply Hseen.
Qed.

(** An envelope past the snapshot: it passes the filter and takes the next
    ordinal. *)
Lemma cursor_deliver after published pending b b' c delivered pos hw e r :
  let accepted := published ++ pending in
  NoDup (env_message_id <$> accepted) → 0 ≤ after →
  cursor_inv after accepted published b c delivered pos hw → sc_replay c = [] →
  published !! pos = Some e → (hw ≤ pos)%nat →
  sc_receiver c = Some r → attached r id b' (drop (S pos) published) →
  should_skip_replayed (sc_replay_dedup c) e = (None, false) ∧
  ∃ c', number e (set_dedup None c) = (c', (Z.of_nat pos + 1, e)) ∧
    cursor_inv after accepted published b' c' (delivered ++ [(Z.of_nat pos + 1, e)]) (S pos) hw.
Proof.
  intros accepted Hn Hafter Hci Hrep He Hge Hr Ha.
  assert (accepted !! pos = Some e) as Hacc by by apply lookup_app_l_Some.
  destruct (cursor_no_replay _ _ _ _ _ _ _ _ Hci Hrep) as [Hreach Hord].
  destruct Hci as [_ Hp Hh _ Hnext _ _ Harm Hseen].
  replace (Nat.max pos hw) with pos in * by lia. apply lookup_lt_Some in He as Hlt. split.
  { unfold should_skip_replayed. destruct (sc_replay_dedup c) as [seen|]; [|done].
    rewrite bool_decide_eq_false_2; [done|]. intros Hin.
    destruct (Hseen _ eq_refl _ Hin) as (i & e' & Hi & He' & E).
    enough (i = pos) by lia. by eapply ids_inj. }
  unfold number, set_dedup. cbn. rewrite Hnext. eexists. split; [done|].
  split; cbn; rewrite ?Hrep, ?app_nil_r; replace (Nat.max (S pos) hw) with (S pos) by lia.
  - by exists r.
  - done.
  - done.
  - done.
  - f_equal. lia.
  - unfold len in *. rewrite length_app. cbn. lia.
  - eapply in_order_snoc; [done|unfold len in *; lia| |by left].
    rewrite <- Hacc. f_equal. unfold len in *. lia.
  - intros i e' Hi. lia.
  - done.
Qed.

Definition dedup_size (d : option (gset string)) : nat :=
  match d with Some seen => size seen | None => O end.

Lemma receive_loop_spec after published pending p delivered fuel :
  let accepted := published ++ pending in
  NoDup (env_message_id <$> accepted) → 0 ≤ after →
  ∀ b c pos hw, bus_wf b → cursor_inv after accepted published b c delivered pos hw →
    sc_replay c = [] → p ≤ Z.of_nat pos → (dedup_size (sc_replay_dedup c) < fuel)%nat →
    ∃ c' w' out, receive_loop fuel c (bus_chans b) = Some (c', w', out) ∧
      read_result after accepted published b p delivered c' w' out.
Proof.
  intros accepted Hn Hafter. induction fuel as [|fuel IH]; intros b c pos hw Hwf Hci Hrep Hp Hf;
    [lia|]. cbn. destruct (ci_attached _ _ _ _ _ _ _ _ Hci) as (r & Er & Ha). rewrite Er.
  destruct (bc_try_recv r (bus_chans b)) as [w out] eqn:Erecv.
  pose proof (ci_pos _ _ _ _ _ _ _ _ Hci) as Hpos.
  assert (len (drop pos published) = len published - Z.of_nat pos) as Hlen
    by (unfold len; rewrite length_drop; lia).
  destruct (attached_recv _ _ _ _ _ _ Hwf Ha Erecv) as (Hwf' & [Hok|(n & Hlost & -> & _)]).
  2:{ do 3 eexists. split; [done|]. split; [done|]. cbn. lia. }
  destruct (drop pos published) as [|e q] eqn:Ed.
  - destruct Hok as [-> Ha']. do 3 eexists. split; [done|]. split; [done|].
    destruct (cursor_no_replay _ _ _ _ _ _ _ _ Hci Hrep) as [Hreach _].
    split; [rewrite len_nil in Hlen; lia|]. exists pos, hw. split; [done|].
    destruct Hci. split; [|done..]. exists r. by rewrite Ed.
  - destruct Hok as [-> Ha']. assert (published !! pos = Some e) as He.
    { rewrite <- (Nat.add_0_r pos), <- lookup_drop, Ed. done. }
    rewrite (drop_S _ _ _ He) in Ed. injection Ed as <-.
    destruct (decide (pos < hw)%nat) as [Hlt|Hge].
    + destruct (cursor_skip _ _ _ _ _ _ _ _ _ _ _ Hn Hci He Hlt Er Ha')
        as (seen & Es & Hin & Hci'). rewrite Es in *. cbn.
      rewrite bool_decide_eq_true_2 by done.
      destruct (IH (MkBusState (bus_map b) w) _ (S pos) hw Hwf' Hci' Hrep) as (c' & w' & o & E & Hr);
        [lia| |by exists c', w', o].
      cbn in Hf |- *. rewrite size_difference, size_singleton by set_solver.
      assert (size seen ≠ 0%nat) by (apply size_non_empty_iff; set_solver). lia.
    + apply Nat.nlt_ge in Hge.
      destruct (cursor_deliver _ _ _ _ _ _ _ _ _ _ _ Hn Hafter Hci Hrep He Hge Er Ha')
        as (-> & c' & E & Hci'). rewrite E. do 3 eexists. split; [done|]. split; [done|].
      exists (S pos), hw. split; [lia|done].
Qed.

Lemma poll_spec after published pending p delivered b c pos hw :
  let accepted := published ++ pending in
  NoDup (env_message_id <$> accepted) → 0 ≤ after → bus_wf b →
  cursor_inv after accepted published b c delivered pos hw → p ≤ Z.of_nat pos →
  ∃ c' w' out, poll c (bus_chans b) = Some (c', w', out) ∧
    read_result after accepted published b p delivered c' w' out.
Proof.
  intros accepted Hn Hafter Hwf Hci Hp. unfold poll.
  destruct (sc_replay c) as [|[o e] replay] eqn:Er.
  { eapply receive_loop_spec; try done. unfold receive_fuel, dedup_size. lia. }
  do 3 eexists. split; [done|]. split; [by destruct b|]. exists pos, hw. split; [done|].
  destruct Hci as [Ha Hpos Hhw Hrep Hnext Hreach Hord Harm Hseen].
  rewrite Er in *. replace (delivered ++ (o, e) :: replay) with ((delivered ++ [(o, e)]) ++ replay)
    in * by by rewrite <- app_assoc.
  split; cbn; try done. intros _. by apply Hrep.
Qed.

(** *** Every action keeps the invariant *)

(** The published envelopes a cursor has not read grow with the bus. *)
Lemma cursor_inv_grow after accepted published b b' c delivered pos hw more new :
  cursor_inv after accepted published b c delivered pos hw →
  (∀ r, sc_receiver c = Some r → attached r id b (drop pos published) →
     attached r id b' (drop pos published ++ more)) →
  cursor_inv after (accepted ++ new) (published ++ more) b' c delivered pos hw.
Proof.
  intros [(r & Er & Ha) Hpos Hhw Hrep Hnext Hreach Hord Harm Hseen] Hb. split; try done.
  - exists r. split; [done|]. rewrite drop_app_le by done. by apply Hb.
  - rewrite length_app. lia.
  - rewrite length_app. lia.
  - by apply in_order_more.
  - intros i e Hi He. apply (Harm i e Hi). rewrite lookup_app_l in He by lia. done.
  - intros seen Es m Hm. destruct (Hseen _ Es m Hm) as (i & e & Hi & He & E).
    exists i, e. split_and!; [done| |done]. by apply lookup_app_l_Some.
Qed.

(** The reader of a bus on which [more] was published since. *)
Lemma reader_grow h b logs more pending new :
  reader_inv h → hub_published h ++ more ++ option_list pending = hub_accepted h ++ new →
  (∀ r q, receiver_of (hub_reader h) = Some r → attached r id (hub_bus h) q →
     attached r id b (q ++ more)) →
  reader_inv (MkHub logs b (hub_published h ++ more) pending (hub_reader h)).
Proof.
  intros Hr Hacc Hb. unfold reader_inv in *. cbn [hub_reader hub_published hub_bus].
  unfold hub_accepted at 1. cbn [hub_published hub_pending]. rewrite <- app_assoc, Hacc.
  destruct (hub_reader h) as [|p c|p after c D|c D| |]; try done.
  - destruct Hr as [Hp (r & -> & Ha)]. pose proof (len_nonneg more).
    split; [rewrite len_app; lia|]. exists r. split; [done|].
    rewrite drop_app_le by (unfold len in *; lia). by apply Hb.
  - destruct Hr as [(r & q & Er & Ha) Hr]. split.
    { exists r, (q ++ more). split; [done|]. by apply Hb. }
    intros Hafter. destruct (Hr Hafter) as (pos & hw & Hp & Hci). exists pos, hw.
    split; [done|]. eapply cursor_inv_grow; [done|]. intros r' Er' Ha'. by apply Hb.
  - destruct Hr as (r & q & Er & Ha). exists r, (q ++ more). split; [done|]. by apply Hb.
Qed.

(** Only the bus changes, and it keeps the subscriber's receiver as it was. *)
Lemma bus_step h b :
  hub_inv h → bus_wf b →
  sb_capacity (bus_map b) = sb_capacity (bus_map (hub_bus h)) →
  (∀ r q, receiver_of (hub_reader h) = Some r → attached r id (hub_bus h) q → attached r id b q) →
  hub_inv (with_bus b h).
Proof.
  intros [Hwf Hcap Hids Hsess Hlog Hread] Hwf' Hcap' Hb.
  split; try done; [cbn; congruence|].
  pose proof (reader_grow h b (hub_log h) [] (hub_pending h) [] Hread) as Hg.
  rewrite !app_nil_r in Hg. unfold with_bus. apply Hg; [done|].
  intros r q Er Ha. rewrite app_nil_r. by apply Hb.
Qed.

Lemma log_step h f :
  hub_inv h → (logged id h = true → log_holds (hub_accepted h) (hub_log h) →
    log_holds (hub_accepted h) (f (hub_log h))) →
  hub_inv (if logged id h then with_log f h else h).
Proof.
  intros Hinv Hf. destruct (logged id h) eqn:Eh; [|done].
  destruct Hinv as [Hwf Hcap Hids Hsess Hlog Hread]. split; try done. intros _. by apply Hf, Hlog.
Qed.

Lemma reader_step h r :
  hub_inv h → reader_inv (with_reader r h) → hub_inv (with_reader r h).
Proof. intros [Hwf Hcap Hids Hsess Hlog Hread] Hf. by split. Qed.

Lemma accept_step h e t start :
  hub_inv h → may_accept id e h = true →
  hub_inv (MkHub (log_append id (accepted_entry e t start) (hub_log h)) (hub_bus h)
    (hub_published h) (Some e) (hub_reader h)).
Proof.
  unfold may_accept. intros [Hwf Hcap Hids Hsess Hlog Hread]
    [[[Hheld Hp%bool_decide_eq_true]%andb_true_iff Hs%bool_decide_eq_true]%andb_true_iff
     Hfresh%bool_decide_eq_true]%andb_true_iff. specialize (Hlog Hheld).
  unfold hub_accepted in *. rewrite Hp in *. cbn in *. rewrite app_nil_r in *.
  split; try done; unfold hub_accepted; cbn.
  - rewrite fmap_app. apply NoDup_app. split_and!; [done| |apply NoDup_singleton].
    intros x Hx ->%list_elem_of_singleton. done.
  - apply Forall_app. by repeat constructor.
  - intros _. by apply log_holds_accept.
  - pose proof (reader_grow h (hub_bus h) (log_append id (accepted_entry e t start) (hub_log h))
      [] (Some e) [e] Hread) as Hg. rewrite app_nil_r in Hg. apply Hg.
    + unfold hub_accepted. rewrite Hp. cbn. by rewrite app_nil_r.
    + intros r q _. by rewrite app_nil_r.
Qed.

Lemma stream_publish_here e b : id ≠ "" → env_session_id e = id → stream_publish e b = bus_publish id e b.
Proof. intros Hne <-. unfold stream_publish. by destruct (env_session_id e). Qed.

Lemma publish_step h e :
  id ≠ "" → hub_inv h → hub_pending h = Some e →
  hub_inv (MkHub (hub_log h) (stream_publish e (hub_bus h)) (hub_published h ++ [e]) None
    (hub_reader h)).
Proof.
  intros Hne [Hwf Hcap Hids Hsess Hlog Hread] Hp.
  unfold hub_accepted in *. rewrite Hp in *. cbn in *.
  assert (env_session_id e = id) as Hs by (apply Forall_app in Hsess as [_ Hs]; by inversion Hs).
  rewrite (stream_publish_here _ _ Hne Hs).
  destruct (bus_publish_spec id e _ Hwf) as (Hwf' & Hmap & Hpub).
  split; unfold hub_accepted; cbn; rewrite ?app_nil_r; try done; [by rewrite Hmap|].
  pose proof (reader_grow h (bus_publish id e (hub_bus h)) (hub_log h) [e] None [] Hread) as Hg.
  apply Hg.
  - unfold hub_accepted. by rewrite Hp, !app_nil_r.
  - intros r q _ Ha%Hpub. by rewrite decide_True in Ha.
Qed.

Lemma snapshot_step h p c after c' :
  hub_inv h → logged id h = true → hub_reader h = Subscribed p c → load_snapshot id after (hub_log h) c = Ok c' →
  hub_inv (with_reader (Reading p after c' []) h).
Proof.
  intros Hinv Hheld Er Hl. apply reader_step; [done|]. destruct Hinv as [_ _ _ _ Hlog Hread].
  specialize (Hlog Hheld).
  unfold reader_inv in *. rewrite Er in Hread. destruct Hread as [Hp (r & -> & Ha)].
  cbn. change (hub_accepted (with_reader _ h)) with (hub_accepted h).
  unfold load_snapshot in Hl. apply bind_ok in Hl as ([replay hw] & Hs & Hl).
  split; [injection Hl as <-; by exists r, (drop (Z.to_nat p) (hub_published h))|]. intros Hafter.
  assert (len (hub_published h) ≤ len (hub_accepted h)) as Hpub.
  { unfold hub_accepted. rewrite len_app. pose proof (len_nonneg (option_list (hub_pending h))). lia. }
  apply log_holds_snapshot with (accepted := hub_accepted h) in Hs as (-> & Hlen & Hord);
    [|done|lia]. injection Hl as <-.
  exists (Z.to_nat p), (length (hub_accepted h)). split; [lia|].
  assert (Nat.max (Z.to_nat p) (length (hub_accepted h)) = length (hub_accepted h)) as Hmax
    by (unfold len in *; lia).
  split; cbn; rewrite ?Hmax; try done; [by exists r|unfold len in *; lia..| |].
  - intros i e Hi He. destruct (lookup_lt_is_Some_2 replay (i - Z.to_nat after)) as [[o e'] Hr].
    { unfold len in *. lia. }
    destruct (Hord _ _ _ Hr) as (_ & e0 & He0 & Hd%delivers_id).
    replace (Z.to_nat after + (i - Z.to_nat after))%nat with i in He0 by lia.
    assert (e0 = e) as -> by (unfold hub_accepted in He0; congruence). destruct replay as [|x replay]; [done|].
    eexists. split; [done|]. apply elem_of_list_to_set. rewrite <- Hd.
    apply (list_elem_of_fmap_2 (λ oe : Z * Envelope, env_message_id oe.2) _ (o, e')).
    by eapply list_elem_of_lookup_2.
  - intros seen Es m Hm. destruct (negb (is_empty replay)); [|done]. injection Es as <-.
    apply elem_of_list_to_set, list_elem_of_fmap_1 in Hm as ([o e] & -> & [k Hk]%list_elem_of_lookup_1).
    destruct (Hord _ _ _ Hk) as (_ & e0 & He0 & Hd%delivers_id).
    exists (Z.to_nat after + k)%nat, e0. by apply lookup_lt_Some in He0 as Hlt.
Qed.

(** Whatever [after] is, the cursor stays on the session's channel. *)
Lemma receive_loop_attached fuel r b c q c' w out :
  bus_wf b → sc_receiver c = Some r → attached r id b q →
  receive_loop fuel c (bus_chans b) = Some (c', w, out) →
  bus_wf (set_chans w b) ∧ sc_receiver c' = Some r ∧ ∃ q', attached r id (set_chans w b) q'.
Proof.
  revert b c q. induction fuel as [|fuel IH]; intros b c q Hwf Er Ha; [done|]. cbn. rewrite Er.
  destruct (bc_try_recv r (bus_chans b)) as [w1 out1] eqn:Erecv.
  destruct (attached_recv _ _ _ _ _ _ Hwf Ha Erecv) as (Hwf1 & [Hok|(n & _ & -> & Ha')]).
  2:{ intros [= <- <- <-]. by eauto. }
  destruct q as [|e q]; destruct Hok as [-> Ha'].
  { intros [= <- <- <-]. by eauto. }
  destruct (should_skip_replayed _ _) as [d [|]].
  - by apply (IH (MkBusState (bus_map b) w1) (set_dedup d c) q).
  - unfold number. destruct (sc_next_live_ordinal _); intros [= <- <- <-]; by eauto.
Qed.
Lemma poll_attached r b c q c' w out :
  bus_wf b → sc_receiver c = Some r → attached r id b q →
  poll c (bus_chans b) = Some (c', w, out) →
  bus_wf (set_chans w b) ∧ sc_receiver c' = Some r ∧ ∃ q', attached r id (set_chans w b) q'.
Proof.
  intros Hwf Er Ha. unfold poll. destruct (sc_replay c) as [|[o e] replay].
  - by eapply receive_loop_attached.
  - intros [= <- <- <-]. destruct b. by eauto.
Qed.

Lemma poll_step h p after c D c' w out :
  hub_inv h → hub_reader h = Reading p after c D →
  poll c (bus_chans (hub_bus h)) = Some (c', w, out) →
  hub_inv (with_reader
    match out with
    | Ok (NextItem ordinal envelope) => Reading p after c' (D ++ [(ordinal, envelope)])
    | Ok _ => Reading p after c' D
    | Err lagged => Lost (sl_skipped lagged)
    end (with_bus (set_chans w (hub_bus h)) h)).
Proof.
  intros [Hwf Hcap Hids Hsess Hlog Hread] Er Ep. unfold reader_inv in Hread. rewrite Er in Hread.
  destruct Hread as [(r & q & Hr & Ha) Hread].
  destruct (poll_attached _ _ _ _ _ _ _ Hwf Hr Ha Ep) as (Hwf' & Hr' & q' & Ha').
  split; try done. unfold reader_inv. cbn.
  assert (0 ≤ after ≤ p → read_result after (hub_accepted h) (hub_published h) (hub_bus h) p D c' w out)
    as Hres.
  { intros Hafter. destruct (Hread Hafter) as (pos & hw & Hp & Hci).
    destruct (poll_spec _ _ _ _ _ _ _ _ _ Hids (proj1 Hafter) Hwf Hci Hp) as (? & ? & ? & E & Hres).
    rewrite Ep in E. by injection E as <- <- <-. }
  destruct out as [[o e| |]|l]; [| | |done]; (split; [by exists r, q'|]);
    intros Hafter; destruct (Hres Hafter) as [_ Hr2]; [done|by destruct Hr2|done].
Qed.

(** Without a log the cursor is on the channel, and nothing more is known. *)
Lemma unlogged_snapshot_step h p c after c' :
  hub_inv h → hub_reader h = Subscribed p c → load_snapshot id after (hub_log h) c = Ok c' →
  hub_inv (with_reader (Unlogged c' []) h).
Proof.
  intros Hinv Er Hl. apply reader_step; [done|]. destruct Hinv as [_ _ _ _ _ Hread].
  unfold reader_inv in *. rewrite Er in Hread. destruct Hread as [_ (r & -> & Ha)].
  unfold load_snapshot in Hl. apply bind_ok in Hl as ([replay hw] & _ & [= <-]).
  exists r, (drop (Z.to_nat p) (hub_published h)). by split.
Qed.
Lemma unlogged_poll_step h c D c' w out :
  hub_inv h → hub_reader h = Unlogged c D →
  poll c (bus_chans (hub_bus h)) = Some (c', w, out) →
  hub_inv (with_reader
    match out with
    | Ok (NextItem ordinal envelope) => Unlogged c' (D ++ [(ordinal, envelope)])
    | Ok _ => Unlogged c' D
    | Err lagged => Lost (sl_skipped lagged)
    end (with_bus (set_chans w (hub_bus h)) h)).
Proof.
  intros [Hwf Hcap Hids Hsess Hlog Hread] Er Ep. unfold reader_inv in Hread. rewrite Er in Hread.
  destruct Hread as (r & q & Hr & Ha).
  destruct (poll_attached _ _ _ _ _ _ _ Hwf Hr Ha Ep) as (Hwf' & Hr' & q' & Ha').
  split; try done. unfold reader_inv. destruct out as [[o e| |]|l]; [..|done]; by exists r, q'.
Qed.

Lemma open_step h b r :
  hub_inv h → bus_subscribe id (hub_bus h) = (b, r) →
  hub_inv (with_reader (Subscribed (len (hub_published h)) (cursor_new r)) (with_bus b h)).
Proof.
  intros [Hwf Hcap Hids Hsess Hlog Hread] E.
  destruct (bus_subscribe_spec _ _ _ _ Hwf E) as ((Hwf' & Hcap' & _) & Ha & _).
  split; try done; [cbn; congruence|]. split; [pose proof (len_nonneg (hub_published h)); cbn; lia|].
  exists r. split; [done|]. cbn. by rewrite drop_ge by (unfold len; lia).
Qed.

Lemma act_inv a h : id ≠ "" → hub_inv h → hub_inv (act id a h).
Proof.
  intros Hne Hinv. pose proof Hinv as [Hwf Hcap _ _ Hlog _].
  destruct a as [e t start| |mt payload mode now|payload mode now|payload mode now|e|sid|r|r|
                |sid| |after|]; cbn [act].
  - destruct (may_accept _ _ _) eqn:E; [by apply accept_step|done].
  - destruct (hub_pending h) eqn:E; [by apply publish_step|done].
  - apply log_step; [done|]. intros _. by apply log_holds_note.
  - apply log_step; [done|]. intros _. by apply log_holds_note.
  - apply log_step; [done|]. intros _. by apply log_holds_compact.
  - case_bool_decide as Hs; [done|]. unfold stream_publish.
    destruct (str_is_empty _); [by destruct h|].
    destruct (bus_publish_spec (env_session_id e) e _ Hwf) as (Hwf' & Hmap & Hpub).
    apply bus_step; [done|done|by rewrite Hmap|]. intros r q _ Ha%Hpub.
    by rewrite decide_False in Ha.
  - destruct (bus_subscribe sid (hub_bus h)) as [b r] eqn:E.
    destruct (bus_subscribe_spec _ _ _ _ Hwf E) as ((Hwf' & Hcap' & Hext) & _ & _).
    apply bus_step; [done|done|done|]. intros r' q _ Ha. by apply Hext.
  - case_bool_decide as Hr; [done|]. case_bool_decide as Hi; [done|]. cbn.
    destruct (bc_try_recv r _) as [w out] eqn:E.
    destruct (inbox r _) as [i|] eqn:Ei; [|done].
    destruct (other_recv _ _ _ _ _ Hwf Ei E) as [Hwf' Hext].
    apply bus_step; [done|done|done|]. intros r' q Hr' Ha. apply Hext; [congruence|done].
  - case_bool_decide as Hr; [done|]. destruct (bus_leave_spec r _ Hwf) as (Hwf' & Hmap & Hext).
    apply bus_step; [done|done|by rewrite Hmap|]. intros r' q Hr' Ha. apply Hext; [congruence|done].
  - case_bool_decide; [|done]. destruct Hinv as [? ? Hids Hsess _ Hread]. split; try done.
    unfold logged, with_log, remove_session_log. cbn. rewrite lookup_delete_eq.
    by intros ?%bool_decide_eq_true%is_Some_None.
  - destruct (remove_if_unused_spec sid _ Hwf) as (Hwf' & Hcap' & Hext).
    apply bus_step; [done|done|done|]. intros r q _ Ha. by apply Hext.
  - destruct (hub_reader h) eqn:Er; try done. destruct (bus_subscribe id _) as [b r] eqn:E.
    by apply open_step.
  - destruct (hub_reader h) eqn:Er; try done. destruct (load_snapshot _ _ _ _) eqn:E.
    + destruct (logged id h) eqn:Eh; [by eapply snapshot_step|by eapply unlogged_snapshot_step].
    + by apply reader_step.
  - destruct (hub_reader h) eqn:Er; try done;
      (destruct (poll _ _) as [[[c' w] out]|] eqn:E; [|done]);
      [by eapply poll_step|by eapply unlogged_poll_step].
Qed.

(** A log and the envelopes earlier processes accepted into it. *)
Record resumable (logs : LogStore) (earlier : list Envelope) : Prop := {
  rs_log : log_holds earlier logs;
  rs_ids : NoDup (env_message_id <$> earlier);
  rs_session : Forall (λ e, env_session_id e = id) earlier;
}.
Lemma resumable_new : resumable (create_session_log id ∅) [].
Proof.
  split; [|constructor|constructor]. exists [].
  unfold create_session_log. rewrite lookup_insert_eq, lookup_empty. by split.
Qed.

Lemma hub_resumed_inv logs earlier w :
  resumable logs earlier → hub_inv (hub_resumed logs earlier w).
Proof.
  intros [Hl Hn Hs]. split; try done; unfold hub_accepted; cbn; by rewrite app_nil_r.
Qed.
Lemma hub_start_inv w : hub_inv (hub_start id w).
Proof. apply hub_resumed_inv, resumable_new. Qed.
Lemma act_all_inv acts h : id ≠ "" → hub_inv h → hub_inv (act_all id acts h).
Proof.
  intros Hne. unfold act_all, flip. revert h.
  induction acts as [|a acts IH]; intros h Hh; [done|]. cbn. apply IH. by apply act_inv.
Qed.

Lemma delivered_in_order acts h0 p after c delivered :
  id ≠ "" → hub_inv h0 → let h := act_all id acts h0 in
  hub_reader h = Reading p after c delivered → 0 ≤ after ≤ p →
  in_order after (hub_accepted h) delivered.
Proof.
  intros Hne Hh0 h Er Hafter. destruct (act_all_inv acts h0 Hne Hh0) as [_ _ _ _ _ Hread].
  fold h in Hread. unfold reader_inv in Hread. rewrite Er in Hread.
  destruct (proj2 Hread Hafter) as (pos & hw & Hp & Hci). by eapply in_order_prefix, ci_order.
Qed.

End exactly_once.

(** ** A broadcast channel of lists, and runs of the system on it *)
Module ListChannels.
Section channels.
Context {M : Type}.
Record Chans := MkChans {
  senders : list (option Z);
  boxes : list (option (nat * Z * list M));
}.
Definition box_send (s : nat) (e : M) (b : nat * Z * list M)
    : nat * Z * list M :=
  let '(s', n, q) := b in if decide (s' = s) then (s', n, q ++ [e]) else b.
Definition box_of (s : nat) (b : option (nat * Z * list M)) : bool :=
  match b with Some (s', _, _) => bool_decide (s' = s) | None => false end.
Definition capacity_of (s : nat) (w : Chans) : option Z := mjoin (senders w !! s).
Definition try_recv (r : nat) (w : Chans) : Chans * TryRecv M :=
  match mjoin (boxes w !! r) with
  | Some (s, n, q) =>
      let lost := len q - n in
      if decide (0 < lost)
      then (MkChans (senders w) (<[r := Some (s, n, drop (Z.to_nat lost) q)]> (boxes w)),
            RecvLagged lost)
      else match q with
           | e :: q => (MkChans (senders w) (<[r := Some (s, n, q)]> (boxes w)), RecvOk e)
           | [] => (w, if capacity_of s w then RecvEmpty else RecvClosed)
           end
  | None => (w, RecvClosed)
  end.

#[local] Instance channels : Broadcast M := {|
  Channels := Chans; Sender := nat; Receiver := nat;
  bc_channel n w :=
    (MkChans (senders w ++ [Some n]) (boxes w ++ [Some (length (senders w), n, [])]),
     length (senders w), length (boxes w));
  bc_subscribe s w :=
    (MkChans (senders w) (boxes w ++ [Some (s, default 0 (capacity_of s w), [])]),
     length (boxes w));
  bc_send s e w := MkChans (senders w) (option_map (box_send s e) <$> boxes w);
  bc_try_recv := try_recv;
  bc_receiver_count s w := Z.of_nat (length (List.filter (box_of s) (boxes w)));
  bc_drop_sender s w := MkChans (<[s := None]> (senders w)) (boxes w);
  bc_drop_receiver r w := MkChans (senders w) (<[r := None]> (boxes w)) |}.

Definition list_inbox (r : nat) (w : Chans) : option Inbox :=
  match mjoin (boxes w !! r) with
  | Some (s, n, q) => Some (MkInbox s n q)
  | None => None
  end.

Lemma mjoin_app {A} (l : list (option A)) x k :
  mjoin ((l ++ [x]) !! k) = if decide (k = length l) then x else mjoin (l !! k).
Proof.
  case_decide as Hk; [by subst; rewrite list_lookup_middle|].
  destruct (decide (k < length l)%nat); [by rewrite lookup_app_l|].
  rewrite !lookup_ge_None_2; [done|lia|rewrite length_app; cbn; lia].
Qed.
Lemma mjoin_insert {A} (l : list (option A)) x k k' :
  mjoin (<[k := x]> l !! k') =
  if decide (k' = k ∧ k < length l)%nat then x else mjoin (l !! k').
Proof.
  case_decide as Hk; [by destruct Hk as [-> ?]; rewrite list_lookup_insert_eq|].
  destruct (decide (k' = k)) as [->|]; [|by rewrite list_lookup_insert_ne].
  by rewrite list_insert_ge by lia.
Qed.
Lemma mjoin_lt {A} (l : list (option A)) k x : mjoin (l !! k) = Some x → (k < length l)%nat.
Proof. intros E. destruct (l !! k) eqn:El; [by eapply lookup_lt_Some|done]. Qed.

#[local] Instance channels_laws : BroadcastLaws.
Proof.
  refine {| inbox := list_inbox; sender_capacity := capacity_of |}; cbn.
  - intros n w w' s r _ [= <- <- <-]. unfold capacity_of, list_inbox. cbn.
    rewrite !lookup_ge_None_2 by done. do 2 (split; [done|]). exists n. split; [done|].
    split; intros k; rewrite mjoin_app; by case_decide.
  - intros s n w w' r Hs [= <- <-]. unfold list_inbox. cbn. rewrite lookup_ge_None_2 by done.
    split_and!; [done..|]. intros k. rewrite mjoin_app, Hs. by case_decide.
  - intros s e w. split; [done|]. intros r. unfold list_inbox. cbn. rewrite list_lookup_fmap.
    destruct (boxes w !! r) as [[[[s' n] q]|]|]; cbn; [|done..]. by case_decide; subst.
  - intros r i w w' out. unfold list_inbox, try_recv, capacity_of.
    destruct (mjoin (boxes w !! r)) as [[[s n] q]|] eqn:E; [|done]. intros [= <-]. cbn.
    apply mjoin_lt in E as Hlt. destruct (decide (0 < len q - n)); [|destruct q as [|e q]];
      intros [= <- <-]; cbn.
    all: split_and!; try done; try (by rewrite E).
    all: try (intros r' Hr'; rewrite mjoin_insert, decide_False; [done|by intros [? _]]).
    all: try (by rewrite mjoin_insert, decide_True).
    destruct (boxes w !! r) as [[[[??]?]|]|]; cbn in *; congruence.
  - intros s w. unfold list_inbox. split.
    + intros Hc r i Hi E. destruct (boxes w !! r) as [[[[s' n] q]|]|] eqn:Eb; cbn in Hi; [|done..].
      injection Hi as <-. cbn in E. subst. apply list_elem_of_lookup_2 in Eb.
      assert (Some (s, n, q) ∈ List.filter (box_of s) (boxes w)) as Hin.
      { apply list_elem_of_In, List.filter_In. split; [by apply list_elem_of_In|].
        by apply bool_decide_eq_true. }
      destruct (List.filter _ _); [by apply not_elem_of_nil in Hin|done].
    + intros Hno. destruct (List.filter _ _) as [|b l] eqn:Ef; [done|].
      assert (b ∈ List.filter (box_of s) (boxes w)) as Hin by (rewrite Ef; left).
      apply list_elem_of_In, List.filter_In in Hin as [Hin Hb].
      apply list_elem_of_In, list_elem_of_lookup_1 in Hin as [r Hr].
      destruct b as [[[s' n] q]|]; [|done]. apply bool_decide_eq_true in Hb as ->.
      destruct (Hno r (@MkInbox _ channels s n q)); [by cbn; rewrite Hr|done].
  - intros s w. split; [|done]. intros s'. unfold capacity_of. cbn. rewrite mjoin_insert.
    destruct (decide (s' = s)) as [->|]; [|by rewrite decide_False by tauto].
    case_decide; [done|]. rewrite lookup_ge_None_2; [done|lia].
  - intros r w. split; [done|]. intros r'. unfold list_inbox. cbn. rewrite mjoin_insert.
    destruct (decide (r' = r)) as [->|]; [|by rewrite decide_False by tauto].
    case_decide; [done|]. rewrite lookup_ge_None_2; [done|lia].
Defined.
End channels.
Arguments Chans M : clear implicits.
#[local] Existing Instance channels.
#[local] Existing Instance channels_laws.

(** The process found one envelope in the log. It accepts another between the
    subscribe and the snapshot and a third after it: the first two are replayed
    and the second dropped from the bus. The session is evicted before the third
    is read. *)
Definition envelope (message_id : string) : Envelope :=
  MkEnvelope "1.0" "m" "Note" message_id "s" "alice" 1000 [].
Definition found : LogStore := {["s" := [make_incoming_entry (envelope "a") 1]]}.
Definition acts : list Action :=
  [Subscribe; Accept (envelope "b") 2 None; Snapshot 0; Publish;
   Accept (envelope "c") 3 None; Poll; Poll; Publish; RemoveLog; RemoveChannel "s"; Poll].
Definition hub : Hub := act_all "s" acts (hub_resumed found [envelope "a"] (MkChans [] [])).
Definition delivered : list (Z * Envelope) :=
  [(1, envelope "a"); (2, envelope "b"); (3, envelope "c")].
Definition cursor : SubscriptionCursor := MkCursor (Some 1%nat) [] None (Some 4).

(** A subscriber that is attached when the session is evicted and has not taken
    its snapshot is outside the promise: its replay is empty, and what is left
    on the bus comes under the wrong ordinal. Nothing tells it. *)
Example evicted_before_snapshot :
  hub_reader (act_all "s" [Subscribe; Accept (envelope "b") 2 None; Publish; RemoveLog; Snapshot 0;
                           Poll; Poll]
                (hub_resumed found [envelope "a"] (MkChans [] [])))
  = Unlogged (MkCursor (Some 1%nat) [] None (Some 2)) [(1, envelope "b")].
Proof. vm_compute. reflexivity. Qed.

(** An ordinal that was not published yet is outside the promise: a client that
    guesses it is given that envelope under the next number. *)
Example guessed_after_misnumbers :
  hub_reader (act_all "s" [Subscribe; Accept (envelope "a") 1 None; Snapshot 1; Publish; Poll]
                (hub_start "s" (MkChans [] [])))
  = Reading 0 1 (MkCursor (Some 1%nat) [] None (Some 3)) [(2, envelope "a")].
Proof. vm_compute. reflexivity. Qed.

Lemma found_resumable : resumable "s" found [envelope "a"].
Proof.
  split; [|repeat constructor; by apply not_elem_of_nil|by repeat constructor].
  exists [make_incoming_entry (envelope "a") 1]. split; [done|]. split; [done|].
  intros [|j] entry; [|done]. intros [= <-]. exists (envelope "a"). split; [done|]. by exists 1, None.
Qed.

End ListChannels.
