(* ===== verification/Accepted.v ===== *)
(** * What the runtime's handlers put on a session's stream

    The bridge between the runtime (src/runtime.rs) and the session streams:
    every handler, seen from one session, is a run of the actions [Stream]
    interleaves with a subscriber (an accepted envelope is appended to the log
    under an id that is new and published before the next one), and what a
    call accepts is the envelope it was given or one the mode synthesized. The
    retention sweeps remove a session with its log; a session they leave alone
    does not notice them. *)

From stdpp Require Import prelude gmap strings.
From S2P Require Import Prelude RustStr Floats Extern Error Policy Wire SessionData.
From S2P Require Import Session SessionStart CommitmentHash ModeApi Step Replay Live.
From S2P Require Import Log LogReplay Runtime Recovery Durable Stream.
Open Scope Z_scope.

Section simulation.
Context `{HB : Broadcast Envelope, HL : !BroadcastLaws}.
(** The session that is watched. *)
Context (tid : string).
Hypothesis Htid : tid ≠ "".

Definition accepted_of (l : list Envelope) : list Envelope :=
  List.filter (λ e, env_session_id e == tid) l.
Definition accepted (sv : Server) : list Envelope := accepted_of (sv_published sv).

(** The stream system of the session, at a state of the server. *)
Definition hub_of (sv : Server) (b : Bus) (rd : Reader) (pend : option Envelope) : Hub :=
  MkHub {[tid := default [] (sv_log sv !! tid)]} b (accepted sv) pend rd.

Definition runtime_action (a : Action) : bool :=
  match a with
  | Accept _ _ _ | Publish | Note _ _ _ _ | InsertCheckpoint _ _ _ | Compact _ _ _
  | RemoveLog => true
  | _ => false
  end.

(** The server went from [sv] to [sv'] by actions of the stream system, whoever
    reads. *)
Definition simulates (sv : Server) (pend : option Envelope) (sv' : Server)
    (pend' : option Envelope) : Prop :=
  ∃ acts, forallb runtime_action acts = true ∧
    ∀ b rd, ∃ b', act_all tid acts (hub_of sv b rd pend) = hub_of sv' b' rd pend'.

Lemma simulates_trans sv1 p1 sv2 p2 sv3 p3 :
  simulates sv1 p1 sv2 p2 → simulates sv2 p2 sv3 p3 → simulates sv1 p1 sv3 p3.
Proof.
  intros (a1 & F1 & E1) (a2 & F2 & E2). exists (a1 ++ a2). split.
  { rewrite forallb_app. by rewrite F1, F2. }
  intros b rd. destruct (E1 b rd) as [b1 Hb1]. destruct (E2 b1 rd) as [b2 Hb2]. exists b2.
  unfold act_all, flip in *. by rewrite foldl_app, Hb1, Hb2.
Qed.

(** Nothing the session's stream sees. *)
Definition same_stream (sv sv' : Server) : Prop :=
  default [] (sv_log sv' !! tid) = default [] (sv_log sv !! tid) ∧ accepted sv' = accepted sv.
Lemma simulates_same sv sv' pend : same_stream sv sv' → simulates sv pend sv' pend.
Proof.
  intros [El Ea]. exists []. split; [done|]. intros b rd. exists b.
  unfold hub_of. cbn. by rewrite El, Ea.
Qed.

(** One action. *)
Lemma simulates_act a sv pend sv' pend' :
  runtime_action a = true →
  (∀ b rd, ∃ b', act tid a (hub_of sv b rd pend) = hub_of sv' b' rd pend') →
  simulates sv pend sv' pend'.
Proof. intros Ha Hb. exists [a]. split; [cbn; by rewrite Ha|done]. Qed.

Lemma hub_logged sv b rd pend : logged tid (hub_of sv b rd pend) = true.
Proof. apply bool_decide_eq_true. cbn. rewrite lookup_singleton_eq. by eexists. Qed.
Lemma hub_log_append sv entry :
  log_append tid entry {[tid := default [] (sv_log sv !! tid)]}
  = {[tid := default [] (sv_log (upd_log (log_append tid entry) sv) !! tid)]}.
Proof.
  cbn. unfold log_append. rewrite lookup_singleton_eq, insert_singleton_eq, lookup_insert_eq. done.
Qed.
Lemma other_log f sv :
  (∀ m : LogStore, f m !! tid = m !! tid) → same_stream sv (upd_log f sv).
Proof. intros Hf. split; [cbn; by rewrite Hf|done]. Qed.

Lemma simulates_note sv pend id mt payload mode now :
  simulates sv pend (upd_log (log_append id (make_internal_entry mt payload id mode now)) sv) pend.
Proof.
  destruct (decide (id = tid)) as [->|Hne].
  - apply (simulates_act (Note mt payload mode now)); [done|]. intros b rd. exists b.
    cbn [act]. rewrite hub_logged.
    unfold with_log, hub_of. cbn [hub_log hub_bus hub_published hub_pending hub_reader].
    by rewrite hub_log_append.
  - apply simulates_same, other_log. intros m. by apply lookup_insert_ne.
Qed.
Lemma simulates_checkpoint sv pend id payload mode now :
  simulates sv pend (upd_log (log_append id (make_checkpoint_entry payload id mode now 0)) sv) pend.
Proof.
  destruct (decide (id = tid)) as [->|Hne].
  - apply (simulates_act (InsertCheckpoint payload mode now)); [done|]. intros b rd. exists b.
    cbn [act]. rewrite hub_logged.
    unfold with_log, hub_of. cbn [hub_log hub_bus hub_published hub_pending hub_reader].
    by rewrite hub_log_append.
  - apply simulates_same, other_log. intros m. by apply lookup_insert_ne.
Qed.
Lemma simulates_compact sv pend id payload mode now :
  let discarded := high_water (default [] (sv_log sv !! id)) in
  simulates sv pend
    (upd_log (replace_session_log id [make_checkpoint_entry payload id mode now discarded]) sv) pend.
Proof.
  destruct (decide (id = tid)) as [->|Hne].
  - apply (simulates_act (Compact payload mode now)); [done|]. intros b rd. exists b.
    cbn [act]. rewrite hub_logged. unfold with_log, hub_of, replace_session_log.
    cbn [hub_log hub_bus hub_published hub_pending hub_reader].
    rewrite lookup_singleton_eq, insert_singleton_eq. cbn. by rewrite lookup_insert_eq.
  - apply simulates_same, other_log. intros m. by apply lookup_insert_ne.
Qed.

(** Whether an envelope is the watched session's. *)
Definition ours (env : Envelope) : bool := env_session_id env == tid.
Definition add (env : Envelope) (acc : list Envelope) : list Envelope :=
  if ours env then acc ++ [env] else acc.
Definition pend_of (env : Envelope) : option Envelope := if ours env then Some env else None.

Lemma simulates_accept sv env t start :
  (ours env = true → env_message_id env ∉ env_message_id <$> accepted sv) →
  simulates sv None
    (upd_log (log_append (env_session_id env) (accepted_entry env t start)) sv) (pend_of env).
Proof.
  intros Hnew. unfold pend_of. destruct (ours env) eqn:Eo.
  - apply bool_decide_eq_true in Eo as Eid. apply (simulates_act (Accept env t start)); [done|].
    intros b rd. exists b. cbn [act]. unfold may_accept. rewrite hub_logged.
    unfold hub_accepted, hub_of.
    cbn [hub_log hub_bus hub_published hub_pending hub_reader option_list].
    rewrite !bool_decide_eq_true_2; [|by rewrite app_nil_r; apply Hnew|done|done].
    cbn [andb]. by rewrite Eid, hub_log_append.
  - apply bool_decide_eq_false in Eo.
    apply simulates_same, other_log. intros m. by apply lookup_insert_ne.
Qed.

Lemma accepted_publish sv env :
  accepted (upd_published (λ l, l ++ [env]) sv) = add env (accepted sv).
Proof.
  unfold accepted, accepted_of, add, ours. cbn. rewrite List.filter_app. cbn.
  by destruct (_ == _); rewrite ?app_nil_r.
Qed.
Lemma simulates_publish sv env :
  simulates sv (pend_of env) (upd_published (λ l, l ++ [env]) sv) None.
Proof.
  unfold pend_of. destruct (ours env) eqn:Eo.
  - apply (simulates_act Publish); [done|]. intros b rd. eexists. cbn. unfold hub_of.
    cbn [hub_log hub_bus hub_published hub_pending hub_reader].
    rewrite accepted_publish. unfold add. by rewrite Eo.
  - apply simulates_same. split; [done|]. rewrite accepted_publish. unfold add. by rewrite Eo.
Qed.

(** ** Triples over the actions *)
Abbreviation assertion := (Server → option Envelope → Prop).

Definition sim {A} (P : assertion) (m : srv A) (Q : A → assertion) (E : assertion) : Prop :=
  ∀ sv pend, P sv pend →
    ∃ pend', simulates sv pend (m sv).1 pend' ∧
      match (m sv).2 with Ok a => Q a (m sv).1 pend' | Err _ => E (m sv).1 pend' end.

Lemma sim_bind {A B} P (m : srv A) (f : A → srv B) Q R E :
  sim P m Q E → (∀ a, sim (Q a) (f a) R E) → sim P (st_bind m f) R E.
Proof.
  intros Hm Hf sv pend HP. destruct (Hm sv pend HP) as (p1 & S1 & H1). unfold st_bind.
  destruct (m sv) as [sv1 [a|e]]; cbn in *; [|by exists p1].
  destruct (Hf a sv1 p1 H1) as (p2 & S2 & H2). exists p2. split; [|done].
  by eapply simulates_trans.
Qed.
Lemma sim_ret {A} (P : assertion) (a : A) Q E :
  (∀ sv pend, P sv pend → Q a sv pend) → sim P (st_ret a) Q E.
Proof. intros HPQ sv pend HP. exists pend. split; [by apply simulates_same|by apply HPQ]. Qed.
Lemma sim_fail {A} (P : assertion) e (Q : A → assertion) (E : assertion) :
  (∀ sv pend, P sv pend → E sv pend) → sim P (st_fail e) Q E.
Proof. intros HPE sv pend HP. exists pend. split; [by apply simulates_same|by apply HPE]. Qed.
Lemma sim_read {A} (P : assertion) (f : Server → result MacpError A) (E : assertion) :
  (∀ sv pend, P sv pend → E sv pend) →
  sim P (st_read f) (λ a sv pend, P sv pend ∧ f sv = Ok a) E.
Proof.
  intros HPE sv pend HP. exists pend. unfold st_read.
  destruct (f sv) eqn:Ef; (split; [by apply simulates_same|]); [done|by apply HPE].
Qed.
(** A look that cannot fail. *)
Lemma sim_look {A} (P : assertion) (f : Server → A) (E : assertion) :
  sim P (st_read (λ sv, Ok (f sv))) (λ a sv pend, P sv pend ∧ f sv = a) E.
Proof. intros sv pend HP. exists pend. split; [by apply simulates_same|done]. Qed.
Lemma sim_weaken {A} (P P' : assertion) (m : srv A) (Q Q' : A → assertion) (E : assertion) :
  sim P m Q E → (∀ sv pend, P' sv pend → P sv pend) →
  (∀ a sv pend, Q a sv pend → Q' a sv pend) → sim P' m Q' E.
Proof.
  intros Hm HP HQ sv pend HP'. destruct (Hm sv pend (HP _ _ HP')) as (p & Hs & H). exists p.
  split; [done|]. destruct (m sv).2; [by apply HQ|done].
Qed.
Lemma sim_pre {A} (P P' : assertion) (m : srv A) Q E :
  sim P m Q E → (∀ sv pend, P' sv pend → P sv pend) → sim P' m Q E.
Proof. intros Hm HP. by eapply sim_weaken. Qed.
Lemma sim_pure {A} (φ : Prop) (P : assertion) (m : srv A) Q E :
  (φ → sim P m Q E) → sim (λ sv pend, P sv pend ∧ φ) m Q E.
Proof. intros Hm sv pend [HP Hφ]. by apply Hm. Qed.

Lemma sim_ex {A X} (P : X → assertion) (m : srv A) Q E :
  (∀ x, sim (P x) m Q E) → sim (λ sv pend, ∃ x, P x sv pend) m Q E.
Proof. intros Hm sv pend [x HP]. by apply (Hm x). Qed.

(** What a server shows of its sessions and its streams. *)
Definition same_view (sv sv' : Server) : Prop :=
  sv_sessions sv' = sv_sessions sv ∧ sv_log sv' = sv_log sv ∧ sv_published sv' = sv_published sv.
Definition quiet (P : assertion) : Prop :=
  ∀ sv sv' pend, same_view sv sv' → P sv pend → P sv' pend.

(** Handlers that touch neither. *)
Definition unseen {A} (m : srv A) : Prop := ∀ sv, same_view sv (m sv).1 ∧ is_ok (m sv).2 = true.
Lemma sim_unseen {A} P (m : srv A) E : quiet P → unseen m → sim P m (λ _, P) E.
Proof.
  intros Hq Hm sv pend HP. destruct (Hm sv) as [Hv Hok]. exists pend. split.
  - apply simulates_same. destruct Hv as (_ & El & Ep). unfold same_stream, accepted.
    by rewrite El, Ep.
  - destruct (m sv).2; [by eapply Hq|done].
Qed.
Lemma unseen_bind {A B} (m : srv A) (f : A → srv B) :
  unseen m → (∀ a, unseen (f a)) → unseen (st_bind m f).
Proof.
  intros Hm Hf sv. destruct (Hm sv) as [(E1 & E2 & E3) Hok]. unfold st_bind.
  destruct (m sv) as [sv1 [a|e]]; [|done]. cbn in *. destruct (Hf a sv1) as [(F1 & F2 & F3) Hok'].
  split; [|done]. split_and!; congruence.
Qed.
Lemma unseen_ret {A} (a : A) : unseen (st_ret a).
Proof. done. Qed.
Lemma unseen_now : unseen now_ms.
Proof. done. Qed.
Lemma unseen_io : unseen io_outcome.
Proof. done. Qed.
Lemma unseen_disk f : unseen (st_mod (upd_disk f)).
Proof. done. Qed.
Lemma unseen_snapshots f : unseen (st_mod (upd_snapshots f)).
Proof. done. Qed.

(** ** The session a handler works on *)

(** The registry is keyed by session id, and the dedup set of the watched
    session has the id of everything it accepted. *)
Definition covers (m : gmap string Session) (acc : list Envelope) : Prop :=
  (∀ id s, m !! id = Some s → ss_session_id s = id) ∧
  match m !! tid with
  | Some s => ∀ e, e ∈ acc → env_message_id e ∈ ss_seen_message_ids s
  | None => acc = []
  end.
Definition kept (s s' : Session) : Prop :=
  ss_session_id s' = ss_session_id s ∧ ss_seen_message_ids s ⊆ ss_seen_message_ids s'.

Lemma safe_kept s s' : safe s s' → kept s s'.
Proof. intros [Hb Hs _ _ _]. split; [by injection Hb|done]. Qed.
Lemma kept_trans s1 s2 s3 : kept s1 s2 → kept s2 s3 → kept s1 s3.
Proof. intros [E1 S1] [E2 S2]. split; [congruence|set_solver]. Qed.

Lemma covers_put m cov sid s s' :
  m !! sid = Some s → kept s s' → covers m cov → covers (<[sid := s']> m) cov.
Proof.
  intros Hs [Hid Hseen] [Hk Hc]. split.
  - intros id t [[-> <-]|[_ ?]]%lookup_insert_Some; [|by apply Hk]. rewrite Hid. by apply Hk.
  - destruct (decide (sid = tid)) as [->|Hne].
    + rewrite lookup_insert_eq. rewrite Hs in Hc. intros e He. by apply Hseen, Hc.
    + by rewrite lookup_insert_ne.
Qed.
Lemma covers_add m cov sid s env :
  m !! sid = Some s → env_session_id env = sid → env_message_id env ∈ ss_seen_message_ids s →
  covers m cov → covers m (add env cov).
Proof.
  intros Hs Hsid Hin [Hk Hc]. split; [done|]. unfold add, ours.
  case_bool_decide as Ho; [|done]. rewrite <- Hsid, Ho in Hs. rewrite Hs in *.
  intros e [He| ->%list_elem_of_singleton]%elem_of_app; [by apply Hc|done].
Qed.
Lemma covers_fresh m acc env :
  covers m acc → (∀ s, m !! env_session_id env = Some s → env_message_id env ∉ ss_seen_message_ids s) →
  ours env = true → env_message_id env ∉ env_message_id <$> acc.
Proof.
  intros [_ Hc] Hf Ho%bool_decide_eq_true (e & E & He)%list_elem_of_fmap_1. rewrite Ho in Hf.
  destruct (m !! tid) as [s|]; [|by subst; apply not_elem_of_nil in He].
  apply (Hf s); [done|]. rewrite E. by apply Hc.
Qed.

(** The handler works on session [sid], which is [s]; the dedup sets cover
    [cov]; [acc] has been accepted on the watched session, the last of it
    perhaps on its way to the bus. *)
Definition at_session (sid : string) (s : Session) (cov acc : list Envelope)
    (pend0 : option Envelope) : assertion := λ sv pend,
  pend = pend0 ∧ sv_sessions sv !! sid = Some s ∧ covers (sv_sessions sv) cov ∧
  accepted sv ++ option_list pend = acc.
(** Between calls. *)
Definition at_rest (R : list Envelope → Prop) : assertion := λ sv pend,
  pend = None ∧ covers (sv_sessions sv) (accepted sv) ∧ R (accepted sv).

Lemma at_session_quiet sid s cov acc pend0 : quiet (at_session sid s cov acc pend0).
Proof.
  intros sv sv' pend (Es & _ & Ep) (-> & Hs & Hc & Ha). unfold at_session, accepted in *.
  by rewrite Es, Ep.
Qed.
Lemma at_rest_quiet R : quiet (at_rest R).
Proof.
  intros sv sv' pend (Es & _ & Ep) (-> & Hc & Ha). unfold at_rest, accepted in *.
  by rewrite Es, Ep.
Qed.
Lemma at_session_rest sid s acc (R : list Envelope → Prop) sv pend :
  at_session sid s acc acc None sv pend → R acc → at_rest R sv pend.
Proof.
  intros (-> & _ & Hc & Ha) HR. cbn in Ha. rewrite app_nil_r in Ha. unfold at_rest.
  by rewrite Ha.
Qed.

Lemma sim_put sid s s' cov acc pend0 E :
  kept s s' →
  sim (at_session sid s cov acc pend0) (put_session sid s')
    (λ _, at_session sid s' cov acc pend0) E.
Proof.
  intros Hk sv pend (-> & Hs & Hc & Ha). exists pend0. split; [by apply simulates_same|].
  split_and!; [done|apply lookup_insert_eq|by eapply covers_put|done].
Qed.

(** The log entries of the runtime. *)
Lemma sim_log sid s cov acc pend0 f E :
  (∀ sv pend, at_session sid s cov acc pend0 sv pend → simulates sv pend (upd_log f sv) pend) →
  sim (at_session sid s cov acc pend0) (st_mod (upd_log f)) (λ _, at_session sid s cov acc pend0) E.
Proof. intros Hf sv pend HP. exists pend. split; [by apply Hf|done]. Qed.

Lemma unseen_append id e : unseen (append_log_entry id e).
Proof. apply unseen_bind; [done|]. by intros []. Qed.
Lemma unseen_create id : unseen (create_session_storage id).
Proof. apply unseen_bind; [done|]. by intros []. Qed.
Lemma unseen_replace id l : unseen (replace_log id l).
Proof. apply unseen_bind; [done|]. by intros []. Qed.

(** An append that storage may refuse. *)
Lemma sim_record sid s cov acc pend0 id e (E : assertion) (Q : unit → assertion) :
  sim (at_session sid s cov acc pend0) (st_mod (upd_log (log_append id e))) Q E →
  (∀ sv pend, at_session sid s cov acc pend0 sv pend → E sv pend) →
  sim (at_session sid s cov acc pend0) (record_entry id e) Q E.
Proof.
  intros Hm HE. eapply sim_bind; [apply sim_unseen; [apply at_session_quiet|apply unseen_append]|].
  intros []; [done|by apply sim_fail].
Qed.
Lemma sim_note sid s cov acc pend0 id mt payload mode now (E : assertion) :
  (∀ sv pend, at_session sid s cov acc pend0 sv pend → E sv pend) →
  sim (at_session sid s cov acc pend0)
    (record_entry id (make_internal_entry mt payload id mode now))
    (λ _, at_session sid s cov acc pend0) E.
Proof. apply sim_record, sim_log. intros. apply simulates_note. Qed.

(** An accepted envelope is appended under a new id. *)
Lemma sim_accept_new sid s acc env t start E :
  env_session_id env = sid → (ours env = true → env_message_id env ∉ env_message_id <$> acc) →
  sim (at_session sid s acc acc None)
    (st_mod (upd_log (log_append sid (accepted_entry env t start))))
    (λ _, at_session sid s acc (add env acc) (pend_of env)) E.
Proof.
  intros Hsid Hnew sv pend (-> & Hs & Hc & Ha). cbn in Ha. rewrite app_nil_r in Ha. subst sid.
  exists (pend_of env). split.
  - apply simulates_accept. intros Ho. rewrite Ha. by apply Hnew.
  - split_and!; [done..|]. change (accepted _) with (accepted sv). rewrite Ha.
    unfold pend_of, add. destruct (ours env); [done|apply app_nil_r].
Qed.
Lemma sim_accept sid s acc env t start E :
  env_session_id env = sid → env_message_id env ∉ ss_seen_message_ids s →
  sim (at_session sid s acc acc None)
    (st_mod (upd_log (log_append sid (accepted_entry env t start))))
    (λ _, at_session sid s acc (add env acc) (pend_of env)) E.
Proof.
  intros Hsid Hnew sv pend HP. pose proof HP as (_ & Hs & Hc & _).
  apply (sim_accept_new sid s acc env t start E Hsid); [|done].
  eapply covers_fresh; [done|]. intros s' Hs'. subst sid. by replace s' with s by congruence.
Qed.

Lemma sim_publish sid s env acc E :
  env_session_id env = sid → (sid = "" → ours env = false) →
  sim (at_session sid s (add env acc) (add env acc) (pend_of env)) (publish_accepted_envelope env)
    (λ _, at_session sid s (add env acc) (add env acc) None) E.
Proof.
  intros Hsid Hemp. unfold publish_accepted_envelope.
  intros sv pend (-> & Hs & Hc & Ha). exists None.
  destruct (str_is_empty (env_session_id env)) eqn:Ee.
  - assert (ours env = false) as Ho by (apply Hemp; subst; by destruct (env_session_id env)).
    unfold pend_of, add in *. rewrite Ho in *. cbn in *. split; [by apply simulates_same|].
    by split_and!.
  - cbn. split; [apply simulates_publish|]. split_and!; [done..|].
    change (accepted (upd_published (λ l, l ++ [env]) sv) ++ [] = add env acc).
    rewrite app_nil_r, accepted_publish, <- Ha. unfold pend_of, add.
    destruct (ours env); [done|by rewrite app_nil_r].
Qed.

(** ** Checkpoints, compaction, expiry *)
Context `{Uuids} `{Message SessionStartPayload} `{Serde PersistedSession}.
Context `{ModeSource} `{!ModeSourceLaws} `{SignalCodec} `{AnnotationCodec}.
Context (policies : PolicySource) (config : RuntimeConfig).

Lemma unseen_save s : unseen (save_session s).
Proof. apply unseen_bind; [done|]. by intros []. Qed.
Lemma unseen_save_to_storage s : unseen (save_session_to_storage s).
Proof. apply unseen_bind; [apply unseen_save|done]. Qed.

Lemma sim_checkpoint sid s s0 cov acc pend0 E :
  sim (at_session sid s cov acc pend0) (force_insert_checkpoint sid s0)
    (λ _, at_session sid s cov acc pend0) E.
Proof.
  eapply sim_bind; [apply sim_unseen; [apply at_session_quiet|done]|]. intros now.
  eapply sim_bind; [apply sim_unseen; [apply at_session_quiet|apply unseen_append]|].
  intros []; [|by apply sim_ret]. apply sim_log. intros. apply simulates_checkpoint.
Qed.
Lemma sim_maybe_checkpoint sid s s0 cov acc pend0 E :
  sim (at_session sid s cov acc pend0) (maybe_insert_checkpoint config sid s0)
    (λ _, at_session sid s cov acc pend0) E.
Proof.
  unfold maybe_insert_checkpoint. destruct (_ =? 0); [by apply sim_ret|].
  eapply sim_bind; [apply sim_look|]. intros n.
  eapply sim_pre with (P := at_session sid s cov acc pend0); [|by intros ? ? []].
  destruct (_ || _); [by apply sim_ret|apply sim_checkpoint].
Qed.

Lemma sim_compact sid s s0 cov acc pend0 E :
  sim (at_session sid s cov acc pend0) (maybe_compact_log config sid s0)
    (λ _, at_session sid s cov acc pend0) E.
Proof.
  unfold maybe_compact_log. destruct (negb _); [by apply sim_ret|].
  eapply sim_bind with (Q := λ discarded sv pend, at_session sid s cov acc pend0 sv pend ∧
    discarded = high_water (default [] (sv_log sv !! sid))).
  { eapply sim_weaken; [apply sim_look|done|]. intros n sv pend [HP <-]. split; [done|].
    by destruct (sv_log sv !! sid). }
  intros discarded.
  eapply sim_bind with (Q := λ c sv pend, at_session sid s cov acc pend0 sv pend ∧
    match c with
    | Some c => ∃ payload mode now, c = make_checkpoint_entry payload sid mode now
                  (high_water (default [] (sv_log sv !! sid)))
    | None => True
    end).
  - unfold compact_session_log.
    set (P := λ sv pend, at_session sid s cov acc pend0 sv pend ∧
      discarded = high_water (default [] (sv_log sv !! sid))).
    assert (quiet P) as Hq.
    { intros sv sv' pend Hv [HP ->]. split; [by eapply at_session_quiet|].
      destruct Hv as (_ & -> & _). done. }
    eapply sim_bind; [by apply sim_unseen|]. intros now.
    eapply sim_bind; [apply sim_unseen; [done|apply unseen_replace]|].
    intros []; apply sim_ret; intros sv pend [HP ->]; (split; [done|]); [by eauto|done].
  - intros [c|]; [|apply sim_ret; by intros ? ? []].
    eapply sim_bind with (Q := λ _, at_session sid s cov acc pend0); [|by intros ?; apply sim_ret].
    intros sv pend [HP (payload & mode & now & ->)]. exists pend.
    split; [apply simulates_compact|done].
Qed.
Lemma sim_close sid s s0 cov acc pend0 E :
  sim (at_session sid s cov acc pend0) (close_log config sid s0)
    (λ _, at_session sid s cov acc pend0) E.
Proof.
  eapply sim_bind; [apply sim_compact|].
  intros []; [by apply sim_ret|apply sim_checkpoint].
Qed.

Lemma sim_expire sid s acc (E : assertion) :
  (∀ s' sv pend, kept s s' → at_session sid s' acc acc None sv pend → E sv pend) →
  sim (at_session sid s acc acc None) (maybe_expire_session sid s)
    (λ r sv pend, at_session sid r.1 acc acc None sv pend ∧ kept s r.1) E.
Proof.
  intros HE. eapply sim_bind; [apply sim_unseen; [apply at_session_quiet|done]|]. intros now.
  destruct (deadline_passed now s); [|by apply sim_ret].
  eapply sim_bind; [apply sim_note; intros sv pend; by apply HE|]. intros ?.
  destruct (expire s) as [s' r] eqn:Ee.
  assert (kept s s') as Hk by by apply safe_kept, (run_call_safe CallExpire _ _ _ Ee).
  eapply sim_bind; [by apply sim_put|]. intros ?.
  destruct r as [[]|]; [by apply sim_ret|]. apply sim_fail. intros sv pend. by apply HE.
Qed.

(** ** Messages *)

(** What a mode synthesized for session [s]. *)
Definition synthesized (s : Session) (e : Envelope) : Prop :=
  ∃ mode now, get_mode (ss_mode s) = Some mode ∧ due_synthetic_envelope mode s now = Some e.
Definition plus_synthetic (s : Session) (A acc : list Envelope) : Prop :=
  acc = A ∨ ∃ e, synthesized s e ∧ acc = add e A.

Lemma commit_seen env r now s : ss_state s = Open →
  env_message_id env ∈ ss_seen_message_ids (commit env r now s) ∧ kept s (commit env r now s).
Proof.
  intros Ho. split; [|by apply safe_kept, commit_safe]. unfold commit.
  destruct (apply_mode_response_fields r (record_participant_activity (env_sender env) now
    (insert_seen (env_message_id env) s))) as (_ & -> & _). cbn. set_solver.
Qed.
Lemma commit_synthetic_seen syn s :
  ss_seen_message_ids (commit_synthetic syn s)
  = {[env_message_id (syn_envelope syn)]} ∪ ss_seen_message_ids s.
Proof.
  unfold commit_synthetic. by destruct (apply_mode_response_fields (syn_response syn)
    (insert_seen (env_message_id (syn_envelope syn)) s)) as (_ & -> & _).
Qed.

(** A committed envelope is published, after what follows the commit. *)
Lemma sim_commit {B} sid s s' A env t start (k : srv unit) (k2 : srv B) Q E :
  env_session_id env = sid → env_message_id env ∉ ss_seen_message_ids s →
  env_message_id env ∈ ss_seen_message_ids s' → kept s s' →
  (∀ sv pend, at_session sid s A A None sv pend → E sv pend) →
  sim (at_session sid s' (add env A) (add env A) (pend_of env)) k
    (λ _, at_session sid s' (add env A) (add env A) (pend_of env)) E →
  sim (at_session sid s' (add env A) (add env A) None) k2 Q E →
  sim (at_session sid s A A None)
    (st_bind (record_entry sid (accepted_entry env t start)) (λ _,
     st_bind (put_session sid s') (λ _,
     st_bind (save_session_to_storage s') (λ _,
     st_bind k (λ _, st_bind (publish_accepted_envelope env) (λ _, k2)))))) Q E.
Proof.
  intros Hsid Hnew Hin Hk HE Hkk Hk2.
  eapply sim_bind; [apply sim_record; [by apply sim_accept|done]|]. intros ?.
  eapply sim_bind with (Q := λ _, at_session sid s' (add env A) (add env A) (pend_of env)).
  { eapply sim_weaken; [by apply sim_put|done|]. intros ? sv pend (-> & Hs & Hc & Ha).
    split_and!; [done|done| |done]. by eapply covers_add. }
  intros ?. eapply sim_bind; [apply sim_unseen; [apply at_session_quiet|apply unseen_save_to_storage]|].
  intros ?. eapply sim_bind; [exact Hkk|]. intros ?.
  eapply sim_bind; [apply sim_publish; [done|]|by intros ?].
  intros ->. unfold ours. rewrite bool_decide_eq_false_2; [done|congruence].
Qed.

Lemma sim_synthesize sid s now A (E : assertion) :
  ss_session_id s = sid →
  (∀ sv pend s' acc, plus_synthetic s A acc → at_session sid s' acc acc None sv pend → E sv pend) →
  sim (at_session sid s A A None) (synthesize_due_accept config sid s now)
    (λ r sv pend, ∃ acc, at_session sid r.1 acc acc None sv pend ∧ plus_synthetic s A acc ∧
       (r.1 = s ∨ ∃ mode syn, get_mode (ss_mode s) = Some mode ∧
          next_synthetic mode s now = Ok (Some syn) ∧ r.1 = commit_synthetic syn s)) E.
Proof.
  intros Hsid HE. unfold synthesize_due_accept. set (Q := λ r : Session * bool, _).
  assert (∀ sv pend, at_session sid s A A None sv pend → Q (s, false) sv pend) as Hnone.
  { intros sv pend HP. exists A. split_and!; [done|by left..]. }
  destruct (get_mode (ss_mode s)) as [mode|] eqn:Em; [|by apply sim_ret].
  eapply sim_bind; [apply sim_read; intros sv pend; apply HE; by left|].
  intros [syn|]; [|apply sim_ret; intros ? ? []; by apply Hnone]. apply sim_pure. intros Hn.
  pose proof (source_laws _ _ Em) as Hlaws.
  pose proof (next_synthetic_ok _ _ _ _ Hn) as (Ho & Hdue & Hnew & _).
  pose proof (commit_synthetic_safe mode now syn s Hn) as [Hk%safe_kept _].
  assert (env_session_id (syn_envelope syn) = sid) as Hid
    by (rewrite <- Hsid; by eapply synthetic_session).
  assert (plus_synthetic s A (add (syn_envelope syn) A)) as Hplus
    by (right; exists (syn_envelope syn); split; [by exists mode, now|done]).
  apply (sim_commit sid s (commit_synthetic syn s) A (syn_envelope syn) _ None); [done|done| |done| | |].
  - rewrite commit_synthetic_seen. set_solver.
  - intros sv pend. apply HE. by left.
  - apply sim_maybe_checkpoint.
  - apply sim_ret. intros sv pend HP. exists (add (syn_envelope syn) A).
    split_and!; [done|done|]. right. by exists mode, syn.
Qed.

(** A call begins, on the sessions [m]. *)
Definition begins (m : gmap string Session) (A : list Envelope) : assertion := λ sv pend,
  at_rest (eq A) sv pend ∧ sv_sessions sv = m.
Lemma begins_quiet m A : quiet (begins m A).
Proof.
  intros sv sv' pend Hv [Hr <-]. split; [by eapply at_rest_quiet|]. by destruct Hv as (-> & _).
Qed.
Lemma begins_at m A id s sv pend :
  m !! id = Some s → begins m A sv pend → at_session id s A A None sv pend ∧ ss_session_id s = id.
Proof.
  intros Hs [(-> & Hc & ->) <-]. split; [|by apply Hc]. split_and!; [done..|apply app_nil_r].
Qed.

Lemma sim_shared m A id (E : assertion) :
  (∀ sv pend, begins m A sv pend → E sv pend) →
  sim (begins m A) (get_shared id)
    (λ s sv pend, at_session id s A A None sv pend ∧ (ss_session_id s = id ∧ m !! id = Some s)) E.
Proof.
  intros HE sv pend HP. exists pend. unfold get_shared, st_read. pose proof HP as [_ Hm].
  destruct (sv_sessions sv !! id) as [s|] eqn:Es; (split; [by apply simulates_same|]);
    [|by apply HE]. cbn. rewrite Hm in Es.
  destruct (begins_at _ _ _ _ _ _ Es HP) as [Ha Hid]. done.
Qed.
(** A question that the session answers. *)
Lemma sim_ask {A B} (P : assertion) (r : result MacpError A) (k : A → srv B) Q (E : assertion) :
  (∀ sv pend, P sv pend → E sv pend) → (∀ a, r = Ok a → sim P (k a) Q E) →
  sim P (st_bind (st_read (λ _, r)) k) Q E.
Proof.
  intros HE Hk. eapply sim_bind; [by apply sim_read|]. intros a sv pend [HP Hr]. by apply (Hk a).
Qed.

(** What a call may leave on the watched session: what it had, perhaps one
    synthetic envelope of the session the call is for, and the envelope
    itself exactly when the call answers that it took it. *)
Definition took (r : result MacpError ProcessResult) : bool :=
  match r with Ok p => negb (pr_duplicate p) | Err _ => false end.
Definition leaves (m : gmap string Session) (env : Envelope) (A : list Envelope) (taken : bool)
    (acc : list Envelope) : Prop :=
  ∃ acc1, (acc1 = A ∨ ∃ s, m !! env_session_id env = Some s ∧ plus_synthetic s A acc1) ∧
    acc = if taken then add env acc1 else acc1.

Lemma leaves_nothing m env A sv pend :
  begins m A sv pend → at_rest (leaves m env A false) sv pend.
Proof. intros [(-> & Hc & ->) _]. split_and!; [done..|]. eexists. split; [by left|done]. Qed.

Lemma sim_process_message m A env :
  sim (begins m A) (process_message config env)
    (λ p, at_rest (leaves m env A (took (Ok p)))) (at_rest (leaves m env A false)).
Proof.
  set (E := at_rest (leaves m env A false)).
  eapply sim_bind; [apply sim_shared; intros sv pend; apply leaves_nothing|]. intros s.
  apply sim_pure. intros [Hid Hm].
  assert (∀ s' acc sv pend, plus_synthetic s A acc →
    at_session (env_session_id env) s' acc acc None sv pend → E sv pend) as HE.
  { intros s' acc sv pend Hp Ha. eapply at_session_rest; [done|]. exists acc. split; [|done].
    right. by exists s. }
  assert (∀ s' sv pend, at_session (env_session_id env) s' A A None sv pend → E sv pend) as HE'
    by (intros s' sv pend; apply HE; by left).
  eapply sim_bind; [apply sim_unseen; [apply at_session_quiet|done]|]. intros now.
  apply sim_ask; [by apply HE'|]. intros pre Hpre. destruct pre.
  - apply sim_ret. intros sv pend Ha. by apply HE' in Ha.
  - eapply sim_bind; [apply sim_expire; intros s' sv pend _; apply HE'|]. intros r.
    eapply sim_pre with (P := at_session (env_session_id env) r.1 A A None); [|by intros ? ? []].
    eapply sim_bind; [apply sim_unseen; [apply at_session_quiet|apply unseen_save_to_storage]|].
    intros ?. apply sim_fail. intros sv pend. apply HE'.
  - apply check_preconditions_proceed in Hpre as (_ & Hnew & _ & _ & _ & Hopen).
    apply sim_ask; [by apply HE'|]. intros mode Hmode. apply ok_or_ok in Hmode.
    apply sim_ask; [by apply HE'|]. intros [] Hadm.
    eapply sim_bind; [apply sim_synthesize; [done|]; intros sv pend s' acc; apply HE|].
    intros [s1 b]. cbn [fst]. apply sim_ex. intros acc.
    apply sim_pure. intros [Hplus Hs1].
    assert (ss_state s1 = Open ∧ env_message_id env ∉ ss_seen_message_ids s1) as [Ho1 Hnew1].
    { destruct Hs1 as [->|(mode' & syn & Em & Hn & ->)]; [done|].
      assert (mode' = mode) as -> by congruence. pose proof (source_laws _ _ Hmode) as Hlaws.
      split; [by eapply commit_synthetic_safe|]. rewrite commit_synthetic_seen.
      pose proof (next_synthetic_ok _ _ _ _ Hn) as (_ & Hdue & _).
      unfold admit_envelope in Hadm. apply bind_ok in Hadm as ([] & _ & Hv).
      intros [Heq%elem_of_singleton|?]%elem_of_union; [|done].
      by eapply (synthetic_reserved s s). }
    apply sim_ask; [intros sv pend; by apply HE|]. intros response _.
    destruct (commit_seen env response now s1 Ho1) as [Hin Hk].
    apply (sim_commit _ s1 (commit env response now s1) acc env now None); try done.
    + intros sv pend. by apply HE.
    + destruct (_ == _); [apply sim_close|apply sim_maybe_checkpoint].
    + apply sim_ret. intros sv pend Ha. eapply at_session_rest; [done|]. exists acc.
      split; [right; by exists s|done].
Qed.

(** ** Signals and session starts *)
Lemma sim_process_signal m A env :
  sim (begins m A) (process_signal env)
    (λ _, at_rest (leaves m env A false)) (at_rest (leaves m env A false)).
Proof.
  apply sim_ask; [intros sv pend; apply leaves_nothing|]. intros ? _.
  apply sim_ask; [intros sv pend; apply leaves_nothing|]. intros ? _.
  apply sim_ret. intros sv pend. apply leaves_nothing.
Qed.

(** A session whose id was free. *)
Definition reserved_at (sid : string) (s : Session) (A : list Envelope) : assertion := λ sv pend,
  at_session sid s A A None sv pend ∧ (sid = tid → A = []).

Lemma covers_new m A sid s :
  m !! sid = None → ss_session_id s = sid → covers m A → covers (<[sid := s]> m) A.
Proof.
  intros Hm Hid [Hk Hc]. split.
  - intros id t [[-> <-]|[_ ?]]%lookup_insert_Some; [done|by apply Hk].
  - destruct (decide (sid = tid)) as [->|Hne].
    + rewrite lookup_insert_eq. rewrite Hm in Hc. subst. by intros e ?%not_elem_of_nil.
    + by rewrite lookup_insert_ne.
Qed.
Lemma covers_rollback m A sid : (sid = tid → A = []) → covers m A → covers (delete sid m) A.
Proof.
  intros Hn [Hk Hc]. split.
  - intros id t [_ ?]%lookup_delete_Some. by apply Hk.
  - destruct (decide (sid = tid)) as [->|Hne]; [rewrite lookup_delete_eq; by apply Hn|].
    by rewrite lookup_delete_ne.
Qed.

Lemma sim_reserve m A busy max_open env s (E : assertion) :
  m !! env_session_id env = None → ss_session_id s = env_session_id env →
  (∀ sv pend, begins m A sv pend → E sv pend) →
  sim (begins m A) (reserve busy max_open env s) (λ _, reserved_at (env_session_id env) s A) E.
Proof.
  intros Hm Hid HE. eapply sim_bind with (Q := λ _, begins m A).
  { eapply sim_weaken; [by apply sim_read|done|by intros ? ? ? []]. }
  intros ?. eapply sim_bind with (Q := λ _, begins m A).
  { destruct max_open as [n|]; [|by apply sim_ret].
    eapply sim_bind; [by apply sim_unseen; [apply begins_quiet|]|]. intros now.
    eapply sim_weaken; [by apply sim_read|done|by intros ? ? ? []]. }
  intros ? sv pend [(-> & Hc & ->) <-]. exists None. split; [by apply simulates_same|].
  split; [split_and!|].
  - done.
  - apply lookup_insert_eq.
  - by apply covers_new.
  - apply app_nil_r.
  - intros Heq. destruct Hc as [_ Hc]. rewrite Heq in Hm. by rewrite Hm in Hc.
Qed.
Lemma sim_rollback m A env s :
  m !! env_session_id env = None →
  sim (reserved_at (env_session_id env) s A)
    (st_bind (rollback (env_session_id env)) (λ _, st_fail StorageFailed))
    (λ _ : unit, at_rest (leaves m env A true)) (at_rest (leaves m env A false)).
Proof.
  intros Hm sv pend [(-> & Hs & Hc & Ha) Hn]. exists None. split; [by apply simulates_same|].
  cbn in Ha. rewrite app_nil_r in Ha. split_and!; [done| |].
  - change (accepted _) with (accepted sv). rewrite Ha. by apply covers_rollback.
  - change (accepted _) with (accepted sv). rewrite Ha. exists A. split; [by left|done].
Qed.
Lemma reserved_quiet sid s A : quiet (reserved_at sid s A).
Proof. intros sv sv' pend Hv [HP Hn]. split; [by eapply at_session_quiet|done]. Qed.

Lemma sim_create_log sid s A E :
  sim (reserved_at sid s A) (st_mod (upd_log (create_session_log sid))) (λ _, reserved_at sid s A) E.
Proof.
  intros sv pend HP. exists pend. split; [|done]. apply simulates_same. split; [|done].
  cbn. unfold create_session_log. destruct (decide (sid = tid)) as [->|Hne].
  - by rewrite lookup_insert_eq.
  - by rewrite lookup_insert_ne.
Qed.

Lemma sim_commit_start m A env accepted_at v s :
  m !! env_session_id env = None → env_message_id env ∈ ss_seen_message_ids s →
  sim (reserved_at (env_session_id env) s A) (commit_start env accepted_at v s)
    (λ _, at_rest (leaves m env A true)) (at_rest (leaves m env A false)).
Proof.
  intros Hm Hin. set (sid := env_session_id env).
  eapply sim_bind; [apply sim_unseen; [apply reserved_quiet|apply unseen_create]|].
  intros []; [|by apply sim_rollback]. cbn [negb].
  eapply sim_bind; [apply sim_unseen; [apply reserved_quiet|apply unseen_append]|].
  intros []; [|by apply sim_rollback]. cbn [negb].
  eapply sim_bind; [apply sim_create_log|]. intros ?. apply sim_pure. intros Hn.
  eapply sim_bind with (Q := λ _, at_session sid s (add env A) (add env A) (pend_of env)).
  { eapply sim_weaken; [|done|].
    - apply (sim_accept_new sid s A env accepted_at
        (Some (vs_bound_mode_version v, ss_semantics_rev s, vs_max_suspend_ms v))); [done|].
      intros Ho%bool_decide_eq_true. rewrite (Hn Ho). apply not_elem_of_nil.
    - intros ? sv pend (-> & Hs & Hc & Ha). split_and!; [done|done| |done].
      by eapply covers_add. }
  intros ?. eapply sim_bind; [apply sim_unseen; [apply at_session_quiet|apply unseen_save]|].
  intros ?. eapply sim_weaken; [apply sim_publish; [done|]|done|].
  - intros Heq. apply bool_decide_eq_false_2. intros Ho. apply Htid. by rewrite <- Ho.
  - intros ? sv pend Ha. eapply at_session_rest; [exact Ha|]. exists A. split; [by left|done].
Qed.

Lemma accept_facts v env mode policy s :
  accept v env mode policy = Ok s →
  ss_session_id s = env_session_id env ∧ env_message_id env ∈ ss_seen_message_ids s.
Proof.
  unfold accept. intros E. apply bind_ok in E as (pv & _ & E).
  match type of E with (if ?b then _ else _) = _ => destruct b end; [done|]. apply bind_ok in E as (r & _ & E). apply bind_ok in E as (? & _ & [= <-]).
  destruct (apply_mode_response_fields r (insert_seen (env_message_id env)
    (start_session v env policy pv))) as (Hb & -> & _). split; [by injection Hb|set_solver].
Qed.

Lemma sim_process_start m A busy max_open env :
  sim (begins m A) (process_session_start policies busy max_open env)
    (λ p, at_rest (leaves m env A (took (Ok p)))) (at_rest (leaves m env A false)).
Proof.
  assert (∀ sv pend, begins m A sv pend → at_rest (leaves m env A false) sv pend) as HE
    by (intros sv pend; apply leaves_nothing).
  apply sim_ask; [done|]. intros ? _. apply sim_ask; [done|]. intros ? _.
  apply sim_ask; [done|]. intros mode _.
  eapply sim_bind; [by apply sim_unseen; [apply begins_quiet|]|]. intros accepted_at.
  apply sim_ask; [done|]. intros v _.
  eapply sim_bind with (Q := λ o sv pend, begins m A sv pend ∧ m !! env_session_id env = o).
  { eapply sim_weaken with (P := begins m A); [apply sim_look|done|]. intros o sv pend [HP <-]. split; [done|].
    by destruct HP as [_ ->]. }
  intros [s|]; apply sim_pure; intros Hm.
  - case_bool_decide; [apply sim_ret|apply sim_fail]; intros sv pend; apply HE.
  - apply sim_ask; [done|]. intros policy _. apply sim_ask; [done|]. intros s Hs%accept_facts.
    destruct Hs as [Hid Hin].
    eapply sim_bind; [by apply sim_reserve|]. intros ?.
    eapply sim_bind; [by apply sim_commit_start|]. intros ?. by apply sim_ret.
Qed.

(** Whether a call's envelope enters the log when it is taken. *)
Definition enters_log (env : Envelope) : bool :=
  negb ((env_message_type env == "Signal") || (env_message_type env == "Progress")).

Lemma sim_process m A busy max_open env :
  sim (begins m A) (process policies config busy max_open env)
    (λ p, at_rest (leaves m env A (enters_log env && took (Ok p))))
    (at_rest (leaves m env A false)).
Proof.
  unfold process, enters_log. destruct (_ == "SessionStart") eqn:Es.
  - apply bool_decide_eq_true in Es. rewrite Es. apply sim_process_start.
  - destruct (_ || _); [apply sim_process_signal|apply sim_process_message].
Qed.

(** ** Reads, lifecycle calls and maintenance *)
Lemma sim_catch {A} P (m : srv A) d Q E E' :
  sim P m Q E → sim P (st_catch m d) (λ a sv pend, Q a sv pend ∨ a = d ∧ E sv pend) E'.
Proof.
  intros Hm sv pend HP. destruct (Hm sv pend HP) as (p & Hs & Hr). exists p. unfold st_catch.
  destruct (m sv) as [sv' [a|e]]; (split; [done|]); [by left|by right].
Qed.
Lemma rest_here sid s A sv pend : at_session sid s A A None sv pend → at_rest (eq A) sv pend.
Proof. intros Ha. by eapply at_session_rest. Qed.
Lemma begins_rest m A sv pend : begins m A sv pend → at_rest (eq A) sv pend.
Proof. by intros []. Qed.

Lemma sim_get_session m A id :
  sim (begins m A) (get_session_checked id) (λ _, at_rest (eq A)) (at_rest (eq A)).
Proof.
  eapply sim_bind with (Q := λ o sv pend, begins m A sv pend ∧ m !! id = o).
  { eapply sim_weaken with (P := begins m A); [apply sim_look|done|]. intros o sv pend [HP <-].
    split; [done|]. by destruct HP as [_ ->]. }
  intros [s|]; apply sim_pure; intros Hm; [|apply sim_ret, begins_rest].
  eapply sim_pre with (P := at_session id s A A None); [|intros sv pend; by apply begins_at].
  eapply sim_bind with (Q := λ _, at_rest (eq A)).
  { eapply sim_weaken; [apply sim_catch, (sim_expire id s A (at_rest (eq A)))|done|].
    - intros s' sv pend _. apply rest_here.
    - intros r sv pend [[Ha _]|[_ Ha]]; [by eapply rest_here|done]. }
  intros r. eapply sim_bind with (Q := λ _, at_rest (eq A)); [|intros ?; by apply sim_ret].
  destruct r.2; [|by apply sim_ret].
  apply sim_unseen; [apply at_rest_quiet|apply unseen_save_to_storage].
Qed.

Lemma kept_call c s s' r : run_call c s = (s', r) → kept s s'.
Proof. intros Hc. by eapply safe_kept, run_call_safe. Qed.

Lemma sim_cancel m A id reason by_ :
  sim (begins m A) (cancel_session config id reason by_) (λ _, at_rest (eq A)) (at_rest (eq A)).
Proof.
  eapply sim_bind; [apply sim_shared, begins_rest|]. intros s. apply sim_pure. intros _.
  eapply sim_bind; [apply sim_expire; intros s' sv pend _; apply rest_here|].
  intros [s1 b]. apply sim_pure. intros _. cbn [fst].
  destruct (is_terminal (ss_state s1)).
  { eapply sim_bind; [apply sim_unseen; [apply at_session_quiet|apply unseen_save_to_storage]|].
    intros ?. apply sim_ret, rest_here. }
  eapply sim_bind; [apply sim_unseen; [apply at_session_quiet|done]|]. intros now.
  eapply sim_bind; [apply sim_note, rest_here|]. intros ?.
  destruct (cancel s1) as [s2 r] eqn:Ec. cbn [fst].
  eapply sim_bind; [apply sim_put; by eapply (kept_call CallCancel)|]. intros ?.
  eapply sim_bind; [apply sim_unseen; [apply at_session_quiet|apply unseen_save_to_storage]|].
  intros ?. eapply sim_bind; [apply sim_close|]. intros ?. apply sim_ret, rest_here.
Qed.

Lemma sim_suspend m A id reason by_ :
  sim (begins m A) (suspend_session id reason by_) (λ _, at_rest (eq A)) (at_rest (eq A)).
Proof.
  eapply sim_bind; [apply sim_shared, begins_rest|]. intros s. apply sim_pure. intros _.
  eapply sim_bind; [apply sim_expire; intros s' sv pend _; apply rest_here|].
  intros [s1 b]. apply sim_pure. intros _. cbn [fst].
  destruct (_ != _); [apply sim_fail, rest_here|].
  eapply sim_bind; [apply sim_unseen; [apply at_session_quiet|done]|]. intros now.
  eapply sim_bind; [apply sim_note, rest_here|]. intros ?.
  destruct (suspend now s1) as [s2 r] eqn:Ec.
  eapply sim_bind; [apply sim_put; by eapply (kept_call (CallSuspend now))|]. intros ?.
  apply sim_ask; [apply rest_here|]. intros ? _.
  eapply sim_bind; [apply sim_unseen; [apply at_session_quiet|apply unseen_save_to_storage]|].
  intros ?. apply sim_ret, rest_here.
Qed.

Lemma sim_resume m A id reason by_ :
  sim (begins m A) (resume_session id reason by_) (λ _, at_rest (eq A)) (at_rest (eq A)).
Proof.
  eapply sim_bind; [apply sim_shared, begins_rest|]. intros s. apply sim_pure. intros _.
  destruct (_ != _); [apply sim_fail, rest_here|].
  eapply sim_bind; [apply sim_unseen; [apply at_session_quiet|done]|]. intros now.
  eapply sim_bind; [apply sim_note, rest_here|]. intros ?.
  destruct (resume now s) as [s2 r] eqn:Ec.
  eapply sim_bind; [apply sim_put; by eapply (kept_call (CallResume now))|]. intros ?.
  eapply sim_bind; [apply sim_unseen; [apply at_session_quiet|apply unseen_save_to_storage]|].
  intros ?. destruct r as [[]|]; [apply sim_ret|apply sim_fail]; intros sv pend; apply rest_here.
Qed.

(** One sweep, session by session. *)
Definition anything (_ : list Envelope) : Prop := True.
Lemma rest_anything R sv pend : at_rest R sv pend → at_rest anything sv pend.
Proof. by intros (-> & Hc & _). Qed.

Lemma sim_for_sessions (R : list Envelope → Prop) body :
  (∀ id s A, ss_session_id s = id → R A →
     sim (at_session id s A A None) (body id s) (λ _, at_rest R) (at_rest R)) →
  sim (at_rest R) (for_sessions body) (λ _, at_rest R) (at_rest R).
Proof.
  intros Hbody. eapply sim_bind with (Q := λ _, at_rest R).
  { eapply sim_weaken; [apply sim_look|done|by intros ? ? ? []]. }
  intros ids. induction ids as [|id ids IH]; [by apply sim_ret|]. cbn.
  eapply sim_bind; [apply (sim_look (at_rest R))|]. intros o.
  eapply sim_bind with (Q := λ _, at_rest R); [|by intros ?].
  destruct o as [s|]; [|apply sim_ret; by intros ? ? []].
  intros sv pend [(-> & Hc & HR) Es].
  destruct (begins_at (sv_sessions sv) (accepted sv) id s sv None Es) as [Ha Hid]; [done|].
  by apply (Hbody id s (accepted sv) Hid).
Qed.

Lemma sim_cleanup R :
  sim (at_rest R) (cleanup_expired_sessions config) (λ _, at_rest R) (at_rest R).
Proof.
  eapply sim_bind; [apply sim_unseen; [apply at_rest_quiet|done]|]. intros now.
  apply sim_for_sessions. intros id s A _ HA.
  assert (∀ s' sv pend, at_session id s' A A None sv pend → at_rest R sv pend) as Hrest
    by (intros ? ? ? Ha; by eapply at_session_rest).
  unfold cleanup_one. destruct (_ || _); [apply sim_ret, Hrest|].
  eapply sim_bind; [apply sim_unseen; [apply at_session_quiet|apply unseen_append]|].
  intros []; [|apply sim_ret, Hrest]. cbn [negb].
  eapply sim_bind; [apply sim_log; intros; apply simulates_note|]. intros ?.
  eapply sim_bind; [by apply (sim_put id s (set_state Expired s))|]. intros ?.
  eapply sim_bind; [apply sim_unseen; [apply at_session_quiet|apply unseen_save_to_storage]|].
  intros ?. eapply sim_weaken; [apply sim_close|done|]. intros ? sv pend. apply Hrest.
Qed.
Lemma sim_sweep (R : list Envelope → Prop) :
  (∀ s A acc, R A → plus_synthetic s A acc → R acc) →
  sim (at_rest R) (sweep_due_synthetic_accepts config) (λ _, at_rest R) (at_rest R).
Proof.
  intros HR. eapply sim_bind; [apply sim_unseen; [apply at_rest_quiet|done]|]. intros now.
  apply sim_for_sessions. intros id s A Hid HA. unfold sweep_one.
  destruct (_ != _); [apply sim_ret; intros ? ? Ha; by eapply at_session_rest|].
  eapply sim_bind with (Q := λ _, at_rest R); [|intros ?; by apply sim_ret].
  eapply sim_weaken; [apply sim_catch, (sim_synthesize id s now A (at_rest R) Hid)|done|].
  - intros sv pend s' acc Hp Ha. eapply at_session_rest; [done|by eapply HR].
  - intros r sv pend [(acc & Ha & Hp & _)|[_ Ha]]; [|done].
    eapply at_session_rest; [done|by eapply HR].
Qed.

(** ** Any calls *)
Inductive RuntimeCall :=
| CallProcess (busy : string → bool) (max_open_sessions : option Z) (env : Envelope)
| CallGetSession (id : string)
| CallCancelSession (id reason cancelled_by : string)
| CallSuspendSession (id reason suspended_by : string)
| CallResumeSession (id reason resumed_by : string)
| CallCleanup
| CallSweep.
Definition serve_one (c : RuntimeCall) (sv : Server) : Server :=
  match c with
  | CallProcess busy max_open env => (process policies config busy max_open env sv).1
  | CallGetSession id => (get_session_checked id sv).1
  | CallCancelSession id reason by_ => (cancel_session config id reason by_ sv).1
  | CallSuspendSession id reason by_ => (suspend_session id reason by_ sv).1
  | CallResumeSession id reason by_ => (resume_session id reason by_ sv).1
  | CallCleanup => (cleanup_expired_sessions config sv).1
  | CallSweep => (sweep_due_synthetic_accepts config sv).1
  end.
Definition serve : list RuntimeCall → Server → Server := flip (foldl (flip serve_one)).

Lemma sim_runs {A} P (m : srv A) Q (E : assertion) sv :
  sim P m Q E → P sv None → (∀ a sv pend, Q a sv pend → at_rest anything sv pend) →
  (∀ sv pend, E sv pend → at_rest anything sv pend) →
  simulates sv None (m sv).1 None ∧ at_rest anything (m sv).1 None.
Proof.
  intros Hm HP HQ HE. destruct (Hm sv None HP) as (p & Hs & Hr).
  assert (at_rest anything (m sv).1 p) as Hrest by (destruct (m sv).2; by eauto).
  assert (p = None) as -> by by destruct Hrest. done.
Qed.

Lemma serve_one_simulates c sv :
  at_rest anything sv None →
  simulates sv None (serve_one c sv) None ∧ at_rest anything (serve_one c sv) None.
Proof.
  intros Hrest. assert (begins (sv_sessions sv) (accepted sv) sv None) as Hb
    by (split; [by destruct Hrest as (_ & ? & _)|done]).
  destruct c; cbn [serve_one].
  - eapply sim_runs; [apply sim_process|exact Hb|intros ? ? ?|intros ? ?]; apply rest_anything.
  - eapply sim_runs; [apply sim_get_session|exact Hb|intros ? ? ?|intros ? ?]; apply rest_anything.
  - eapply sim_runs; [apply sim_cancel|exact Hb|intros ? ? ?|intros ? ?]; apply rest_anything.
  - eapply sim_runs; [apply sim_suspend|exact Hb|intros ? ? ?|intros ? ?]; apply rest_anything.
  - eapply sim_runs; [apply sim_resume|exact Hb|intros ? ? ?|intros ? ?]; apply rest_anything.
  - by eapply sim_runs; [apply (sim_cleanup anything)|..].
  - by eapply sim_runs; [apply (sim_sweep anything)|..].
Qed.
Lemma serve_simulates calls sv :
  at_rest anything sv None →
  simulates sv None (serve calls sv) None ∧ at_rest anything (serve calls sv) None.
Proof.
  revert sv. induction calls as [|c calls IH]; intros sv Hsv; [by split; [apply simulates_same|]|].
  destruct (serve_one_simulates c sv Hsv) as [Hs Hr]. destruct (IH _ Hr) as [Hs' Hr'].
  split; [by eapply simulates_trans|done].
Qed.

(** *** What a call leaves, without the run that leaves it *)
Lemma sim_outcome {A} P (m : srv A) (Q : A → assertion) (E : assertion) sv :
  sim P m Q E → P sv None →
  ∃ pend, match (m sv).2 with Ok a => Q a (m sv).1 pend | Err _ => E (m sv).1 pend end.
Proof. intros Hm HP. destruct (Hm sv None HP) as (p & _ & Hr). by exists p. Qed.
Lemma rest_begins R sv :
  at_rest R sv None → begins (sv_sessions sv) (accepted sv) sv None.
Proof. by intros (_ & Hc & _). Qed.
Lemma at_rest_none R sv pend : at_rest R sv pend → at_rest R sv None.
Proof. by intros (_ & Hc & HR). Qed.

Lemma process_leaves busy max_open env sv sv' r :
  at_rest anything sv None → process policies config busy max_open env sv = (sv', r) →
  at_rest (leaves (sv_sessions sv) env (accepted sv) (enters_log env && took r)) sv' None.
Proof.
  intros Hr%rest_begins E.
  destruct (sim_outcome _ _ _ _ _ (sim_process _ _ busy max_open env) Hr) as [pend Ho].
  rewrite E in Ho. cbn [fst snd] in Ho. destruct r; [by eapply at_rest_none|]. cbn [took].
  rewrite andb_false_r. by eapply at_rest_none.
Qed.
Lemma get_session_leaves id sv :
  at_rest anything sv None → at_rest (eq (accepted sv)) (get_session_checked id sv).1 None.
Proof.
  intros Hr%rest_begins. destruct (sim_outcome _ _ _ _ _ (sim_get_session _ _ id) Hr) as [pend Ho].
  destruct (get_session_checked id sv) as [sv' []]; cbn [fst snd] in *; by eapply at_rest_none.
Qed.

(** [A], and then what modes synthesized. *)
Definition with_synthetics (A acc : list Envelope) : Prop :=
  ∃ syn, acc = A ++ syn ∧ Forall (λ e, ∃ s, synthesized s e) syn.

(** A call that is not [process] adds at most that. *)
Lemma serve_one_leaves c sv :
  at_rest anything sv None → (∀ busy max_open env, c ≠ CallProcess busy max_open env) →
  at_rest (with_synthetics (accepted sv)) (serve_one c sv) None.
Proof.
  intros Hrest Hc. pose proof (rest_begins _ _ Hrest) as Hb.
  assert (∀ sv' pend, at_rest (eq (accepted sv)) sv' pend →
    at_rest (with_synthetics (accepted sv)) sv' None) as Hsame.
  { intros sv' pend (_ & Hcov & E). split_and!; [done|done|]. exists [].
    split; [by rewrite <- E, app_nil_r|constructor]. }
  assert (at_rest (with_synthetics (accepted sv)) sv None) as Hw by by eapply Hsame, begins_rest.
  destruct c as [busy max_open env|id|id reason by_|id reason by_|id reason by_| |]; cbn [serve_one];
    [by destruct (Hc busy max_open env)|..].
  - destruct (sim_outcome _ _ _ _ _ (sim_get_session _ _ id) Hb) as [p Ho].
    destruct (get_session_checked _ _) as [? []]; cbn [fst snd] in *; by eapply Hsame.
  - destruct (sim_outcome _ _ _ _ _ (sim_cancel _ _ id reason by_) Hb) as [p Ho].
    destruct (cancel_session _ _ _ _ _) as [? []]; cbn [fst snd] in *; by eapply Hsame.
  - destruct (sim_outcome _ _ _ _ _ (sim_suspend _ _ id reason by_) Hb) as [p Ho].
    destruct (suspend_session _ _ _ _) as [? []]; cbn [fst snd] in *; by eapply Hsame.
  - destruct (sim_outcome _ _ _ _ _ (sim_resume _ _ id reason by_) Hb) as [p Ho].
    destruct (resume_session _ _ _ _) as [? []]; cbn [fst snd] in *; by eapply Hsame.
  - destruct (sim_outcome _ _ _ _ _ (sim_cleanup _) Hw) as [p Ho].
    destruct (cleanup_expired_sessions _ _) as [? []]; cbn [fst snd] in *; by eapply at_rest_none.
  - assert (∀ s A acc, with_synthetics (accepted sv) A → plus_synthetic s A acc →
      with_synthetics (accepted sv) acc) as Hstep.
    { intros s A acc (syn & -> & Hf) [->|(e & He & ->)]; [by exists syn|]. unfold add.
      destruct (ours e); [|by exists syn]. exists (syn ++ [e]). rewrite app_assoc. split; [done|].
      apply Forall_app. split; [done|]. constructor; [by exists s|constructor]. }
    destruct (sim_outcome _ _ _ _ _ (sim_sweep _ Hstep) Hw) as [p Ho].
    destruct (sweep_due_synthetic_accepts _ _) as [? []]; cbn [fst snd] in *; by eapply at_rest_none.
Qed.

(** ** End to end *)

(** The part of the stream system the runtime owns. *)
Definition runtime_part (h : Hub) : LogStore * list Envelope * option Envelope :=
  (hub_log h, hub_published h, hub_pending h).
Lemma act_foreign a h :
  runtime_action a = false → runtime_part (act tid a h) = runtime_part h.
Proof.
  destruct a; try done; intros _; cbn.
  - by destruct (_ == _).
  - by destruct (_ || _).
  - by destruct (bool_decide _).
  - destruct (hub_reader h); try done. by destruct (bus_subscribe _ _).
  - destruct (hub_reader h); try done. destruct (load_snapshot _ _ _ _); [|done].
    by destruct (logged _ _).
  - destruct (hub_reader h); try done; by destruct (poll _ _) as [[[??]?]|].
Qed.
Lemma act_runtime a h h' :
  runtime_action a = true → runtime_part h = runtime_part h' →
  runtime_part (act tid a h) = runtime_part (act tid a h').
Proof.
  destruct h as [l b pub pend rd], h' as [l' b' pub' pend' rd']. intros Ha [= <- <- <-].
  destruct a; try done; cbn [act]; unfold may_accept, logged, hub_accepted;
    cbn [hub_log hub_pending hub_published].
  - by destruct (_ && _).
  - by destruct pend.
  - by case_bool_decide.
  - by case_bool_decide.
  - by case_bool_decide.
  - by case_bool_decide.
Qed.
Lemma act_all_runtime acts h h' :
  runtime_part h = runtime_part h' →
  runtime_part (act_all tid acts h) = runtime_part (act_all tid (List.filter runtime_action acts) h').
Proof.
  unfold act_all, flip. revert h h'. induction acts as [|a acts IH]; intros h h' E; [done|]. cbn.
  destruct (runtime_action a) eqn:Ea; apply IH; [by apply act_runtime|by rewrite act_foreign].
Qed.

(** *** Retention and restarts *)

(** A session and its log, and their removal together. *)
Definition pruned (sv sv' : Server) : Prop :=
  sv_published sv' = sv_published sv ∧
  ∀ id, sv_sessions sv' !! id = sv_sessions sv !! id ∧ sv_log sv' !! id = sv_log sv !! id ∨
        sv_sessions sv' !! id = None ∧ sv_log sv' !! id = None.
Lemma pruned_refl sv : pruned sv sv.
Proof. split; [done|]. by left. Qed.
Lemma pruned_trans sv1 sv2 sv3 : pruned sv1 sv2 → pruned sv2 sv3 → pruned sv1 sv3.
Proof.
  intros [E1 Hp1] [E2 Hp2]. split; [congruence|]. intros id.
  destruct (Hp1 id) as [[A1 B1]|[A1 B1]], (Hp2 id) as [[A2 B2]|[A2 B2]]; rewrite A2, B2;
    rewrite ?A1, ?B1; by auto.
Qed.
Lemma pruned_view sv sv' : same_view sv sv' → pruned sv sv'.
Proof. intros (Es & El & Ep). split; [done|]. left. by rewrite Es, El. Qed.

Definition prunes {A} (m : srv A) : Prop := ∀ sv, pruned sv (m sv).1.
Lemma prunes_bind {A B} (m : srv A) (f : A → srv B) :
  prunes m → (∀ a, prunes (f a)) → prunes (st_bind m f).
Proof.
  intros Hm Hf sv. specialize (Hm sv). unfold st_bind. destruct (m sv) as [sv1 [a|e]]; [|done].
  cbn in *. eapply pruned_trans; [exact Hm|apply Hf].
Qed.
Lemma prunes_unseen {A} (m : srv A) : unseen m → prunes m.
Proof. intros Hm sv. by apply pruned_view, Hm. Qed.
Lemma prunes_read {A} (f : Server → result MacpError A) : prunes (st_read f).
Proof. intros sv. unfold st_read. by destruct (f sv); apply pruned_refl. Qed.

Lemma evict_prunes retention : prunes (evict_stale_sessions retention).
Proof.
  apply prunes_bind; [by apply prunes_unseen|]. intros now.
  apply prunes_bind; [apply prunes_read|]. intros ids.
  destruct (is_empty ids); [by apply prunes_unseen|]. intros sv. split; [done|]. intros id. cbn.
  induction ids as [|x ids IH]; cbn; [by left|]. unfold remove_session_log.
  destruct (decide (id = x)) as [->|]; [rewrite !lookup_delete_eq; by right|].
  by rewrite !lookup_delete_ne.
Qed.
Lemma gc_prunes retention : prunes (gc_disk_sessions retention).
Proof.
  apply prunes_bind; [by apply prunes_unseen|]. intros now.
  apply prunes_bind; [apply prunes_unseen, unseen_bind; [done|by intros []]|].
  intros [ids|]; [|by apply prunes_unseen].
  generalize 0 at 1. induction ids as [|id ids IH]; intros n; [by apply prunes_unseen|]. cbn.
  apply prunes_bind; [|done]. apply prunes_bind.
  - apply prunes_bind; [apply prunes_read|]. intros [s|]; [by apply prunes_unseen|].
    apply prunes_unseen, unseen_bind; [apply unseen_bind; [done|by intros []]|done].
  - intros []; [|by apply prunes_unseen]. apply prunes_bind.
    { apply prunes_unseen, unseen_bind; [done|by intros []]. }
    intros []; [|by apply prunes_unseen]. intros sv. split; [done|]. intros id'. cbn.
    unfold remove_session_log. destruct (decide (id' = id)) as [->|];
      [rewrite !lookup_delete_eq; by right|rewrite !lookup_delete_ne by done; by left].
Qed.

(** What the server is asked for, retention sweeps included. *)
Inductive ServerCall :=
| Serve (c : RuntimeCall)
| EvictStale (retention_secs : Z)
| GcDisk (retention_secs : Z).
Definition serve_call (c : ServerCall) (sv : Server) : Server :=
  match c with
  | Serve c => serve_one c sv
  | EvictStale retention_secs => (evict_stale_sessions retention_secs sv).1
  | GcDisk retention_secs => (gc_disk_sessions retention_secs sv).1
  end.
Definition serve_calls : list ServerCall → Server → Server := flip (foldl (flip serve_call)).

(** No call removed the watched session or its log. *)
Definition retains (sv sv' : Server) : bool :=
  (bool_decide (is_Some (sv_sessions sv' !! tid)) || bool_decide (sv_sessions sv !! tid = None))
  && (bool_decide (is_Some (sv_log sv' !! tid)) || bool_decide (sv_log sv !! tid = None)).
Fixpoint retained (calls : list ServerCall) (sv : Server) : bool :=
  match calls with
  | [] => true
  | c :: calls => retains sv (serve_call c sv) && retained calls (serve_call c sv)
  end.

Lemma pruned_retained sv sv' :
  pruned sv sv' → retains sv sv' = true → at_rest anything sv None →
  simulates sv None sv' None ∧ at_rest anything sv' None.
Proof.
  intros [Ep Hp] Hret (_ & [Hk Hc] & _).
  assert (sv_sessions sv' !! tid = sv_sessions sv !! tid ∧ sv_log sv' !! tid = sv_log sv !! tid)
    as [Es El].
  { destruct (Hp tid) as [?|[E1 E2]]; [done|]. unfold retains in Hret. rewrite E1, E2 in *.
    rewrite !(bool_decide_eq_false_2 (is_Some _)) in Hret by apply is_Some_None.
    apply andb_true_iff in Hret as [->%bool_decide_eq_true ->%bool_decide_eq_true]. done. }
  assert (accepted sv' = accepted sv) as Ea by (unfold accepted; by rewrite Ep).
  split; [apply simulates_same; split; [by rewrite El|done]|].
  split_and!; [done| |done]. split; [|by rewrite Es, Ea].
  intros id s Hs. destruct (Hp id) as [[E _]|[E _]]; [|congruence]. apply Hk. congruence.
Qed.

Lemma serve_call_simulates c sv :
  at_rest anything sv None → retains sv (serve_call c sv) = true →
  simulates sv None (serve_call c sv) None ∧ at_rest anything (serve_call c sv) None.
Proof.
  intros Hr Hret. destruct c; cbn [serve_call] in *; [by apply serve_one_simulates|..];
    apply pruned_retained; try done; [apply evict_prunes|apply gc_prunes].
Qed.
Lemma serve_calls_simulates calls sv :
  at_rest anything sv None → retained calls sv = true →
  simulates sv None (serve_calls calls sv) None ∧ at_rest anything (serve_calls calls sv) None.
Proof.
  revert sv. induction calls as [|c calls IH]; intros sv Hsv; [by split; [apply simulates_same|]|].
  cbn. intros [Hc Hcs]%andb_true_iff.
  destruct (serve_call_simulates c sv Hsv Hc) as [Hs Hr]. destruct (IH _ Hr Hcs) as [Hs' Hr'].
  split; [by eapply simulates_trans|done].
Qed.

(** A process that has just started, on the session's log if it found one:
    [sv_published] is what earlier processes accepted, the log holds it, and
    the dedup set of the recovered session has its ids. *)
Definition session_logs (sv : Server) : LogStore := {[tid := default [] (sv_log sv !! tid)]}.
Definition resumes (sv : Server) : Prop :=
  covers (sv_sessions sv) (accepted sv) ∧ resumable tid (session_logs sv) (accepted sv).

Lemma boot_resumes io sv : resumes (boot io sv).
Proof.
  split; [split; cbn; [by intros ? ? ?%lookup_empty_Some|by rewrite lookup_empty]|].
  pose proof (resumable_new tid) as Hr. unfold create_session_log in Hr.
  rewrite lookup_empty in Hr. unfold session_logs, boot. cbn. by rewrite lookup_empty.
Qed.

End simulation.
Create HintDb unseen.
#[export] Hint Resolve unseen_bind unseen_ret unseen_now unseen_io unseen_disk unseen_snapshots : unseen.

Module Demo.
#[local] Existing Instance demo_uuids.
#[local] Existing Instance Step.Demo.m_start.
#[local] Existing Instance Durable.Demo.signals.
#[local] Existing Instance Durable.Demo.annotations.
#[local] Existing Instance Durable.Demo.modes.
#[local] Existing Instance Durable.Demo.modes_laws.
#[local] Existing Instance Durable.Demo.snapshots.
#[local] Existing Instance ListChannels.channels.
#[local] Existing Instance ListChannels.channels_laws.

(** The session is started and suspended by one process; another finds its log,
    resumes it, and runs its retention sweeps. Its only envelope is the start. *)
Abbreviation id := Step.Demo.id.
Abbreviation policies := Durable.Demo.policies.
Abbreviation config := Durable.Demo.config.
Definition restarted (io : nat → bool) (sv : Server) : Server :=
  upd_published (λ _, sv_published sv) (recover_sessions policies false (boot io sv)).1.
Definition first : Server :=
  serve_calls policies config
    [Serve (CallProcess (λ _, false) None Step.Demo.start); Serve (CallSuspendSession id "" "")]
    (boot (λ _, true) Durable.Demo.empty_server).
Definition second : Server := restarted (λ _, true) first.
Definition calls : list ServerCall :=
  [EvictStale 3600; Serve (CallResumeSession id "" ""); GcDisk 3600].
Definition served : Server := serve_calls policies config calls second.
Lemma served_accepted : accepted id served = [Step.Demo.start].
Proof. vm_compute. reflexivity. Qed.

Lemma second_accepted : accepted id second = [Step.Demo.start].
Proof. vm_compute. reflexivity. Qed.
Lemma second_covers : covers id (sv_sessions second) [Step.Demo.start].
Proof.
  split.
  - enough (map_Forall (λ i s, ss_session_id s = i) (sv_sessions second)) as Hk
      by (intros i s Hs; apply (Hk i s Hs)).
    apply (bool_decide_unpack _). vm_compute. exact I.
  - destruct (sv_sessions second !! id) as [s|] eqn:Es; [|by vm_compute in Es].
    intros e ->%list_elem_of_singleton. apply (bool_decide_unpack _).
    revert Es. vm_compute. by intros [= <-].
Qed.
Lemma second_log : log_holds id [Step.Demo.start] (session_logs id second).
Proof.
  eexists. split; [vm_compute; reflexivity|]. split; [vm_compute; reflexivity|].
  intros [|j] entry; [|done]. intros [= <-]. exists Step.Demo.start. split; [done|].
  eexists _, (Some (_, _, _)). vm_compute. reflexivity.
Qed.
Lemma second_resumes : resumes id second.
Proof.
  unfold resumes. rewrite second_accepted. split; [exact second_covers|].
  split; [exact second_log|apply NoDup_singleton|]. by apply Forall_singleton.
Qed.

End Demo.
