(* ===== verification/Service.v ===== *)
(** * The gRPC service (src/server.rs, src/policy_engine.rs)

    The handlers a client reaches: authentication, sender binding, mode
    authorization, rate limits and the ingress policy engine in front of the
    runtime, the session reads and lifecycle calls, and the mode and policy
    registries. The engine is a parameter; it may answer differently each time
    it is asked. Tracing and metrics have no part in the model. *)

From stdpp Require Import prelude gmap strings.
From S2P Require Import Prelude RustStr Floats Extern PolicyKeys Error Policy Wire SessionData.
From S2P Require Import Session CommitmentHash MultiRound ModeApi Step Log LogReplay Runtime.
From S2P Require Import PolicyRegistry ModeRegistry WhatIf WhatIfLog Auth RateLimit.
From S2P Require Import Base64 Pagination Json ReceiptKeys Receipt ReceiptIssue.
Open Scope Z_scope.

(** ** Messages of the service (generated from the protocol's protobuf files) *)
Inductive PbSessionState :=
| PbUnspecified | PbOpen | PbSuspended | PbResolved | PbExpired | PbCancelled.
Record PbMacpError := MkPbMacpError {
  pe_code : string;
  pe_message : text;
  pe_session_id : string;
  pe_message_id : string;
  (** The denial reasons serialized in [details]; none for other errors. *)
  pe_details : list DenyReason;
}.
Record Ack := MkAck {
  ack_ok : bool;
  ack_duplicate : bool;
  ack_message_id : string;
  ack_session_id : string;
  ack_accepted_at_unix_ms : Z;
  ack_session_state : PbSessionState;
  ack_error : option PbMacpError;
}.
Record PolicyDescriptor := MkPolicyDescriptor {
  pd_policy_id : string;
  pd_mode : string;
  pd_description : string;
  pd_rules : string;
  pd_schema_version : Z;
  pd_registered_at_unix_ms : Z;
}.

Definition session_state_to_pb (state : SessionState) : PbSessionState :=
  match state with
  | Open => PbOpen
  | Suspended => PbSuspended
  | Resolved => PbResolved
  | Expired => PbExpired
  | Cancelled => PbCancelled
  end.

(** ** Errors *)
Definition error_details (e : MacpError) : list DenyReason :=
  match e with PolicyDenied reasons => reasons | _ => [] end.

Definition make_error_ack (e : MacpError) (env : Envelope) (now : Z) : Ack := {|
  ack_ok := false;
  ack_duplicate := false;
  ack_message_id := env_message_id env;
  ack_session_id := env_session_id env;
  ack_accepted_at_unix_ms := now;
  ack_session_state := PbUnspecified;
  ack_error := Some {|
    pe_code := error_code e;
    pe_message := [Lit (error_display e)];
    pe_session_id := env_session_id env;
    pe_message_id := env_message_id env;
    pe_details := error_details e |} |}.

(** [join_messages] with the separator of the statuses. *)
Fixpoint join_messages (reasons : list DenyReason) : text :=
  match reasons with
  | [] => []
  | [r] => dr_message r
  | r :: reasons => dr_message r ++ Lit "; " :: join_messages reasons
  end.
Definition status_from_error (err : MacpError) : Status :=
  (err, match err with
        | PolicyDenied reasons =>
            if is_empty reasons then [Lit (error_display err)]
            else Lit "PolicyDenied: " :: join_messages reasons
        | _ => [Lit (error_display err)]
        end).
Definition session_not_found (id : string) : Status :=
  (UnknownSession, [Lit ("Session '" +:+ id +:+ "' not found")]).

Definition is_stream_terminal_error (err : MacpError) : bool :=
  match err with
  | Unauthenticated | PayloadTooLarge | RateLimited | StorageFailed | InvalidSessionId
  | InvalidPolicyDefinition | SessionAlreadyExists => true
  | _ => false
  end.

(** ** The ingress policy engine ([PolicyEngine], a trait object) *)
Record PolicyEngine := MkPolicyEngine {
  evaluate_session_start : AuthIdentity → string → Envelope → PolicyDecision;
  evaluate_message : AuthIdentity → Session → Envelope → PolicyDecision;
  evaluate_session_access : AuthIdentity → Session → PolicyDecision;
}.

Definition require_allow (decision : PolicyDecision) (what : string) : result Status unit :=
  match decision with
  | Allow _ => Ok ()
  | Deny reasons =>
      Err (Forbidden, Lit ("policy engine denied " +:+ what +:+ ": ") :: join_messages reasons)
  end.

(** ** Checks on the envelope and on the caller *)
Definition validate_envelope_shape (max_payload_bytes : Z) (env : Envelope)
    : result MacpError unit :=
  let is_ambient_type := (env_message_type env == "Signal") || (env_message_type env == "Progress") in
  if env_macp_version env != MACP_VERSION then Err InvalidMacpVersion
  else if str_is_empty (env_message_type env) || str_is_empty (env_message_id env)
  then Err InvalidEnvelope
  else if (env_message_type env == "Signal")
          && (negb (str_is_empty (env_session_id env)) || negb (blank (env_mode env)))
  then Err InvalidEnvelope
  else if (env_message_type env == "Progress")
          && negb (Bool.eqb (str_is_empty (env_session_id env)) (blank (env_mode env)))
  then Err InvalidEnvelope
  else if negb is_ambient_type && str_is_empty (env_session_id env) then Err InvalidEnvelope
  else if negb is_ambient_type && blank (env_mode env) then Err InvalidEnvelope
  else if len (env_payload env) >? max_payload_bytes then Err PayloadTooLarge
  else Ok ().

Definition with_sender (sender : string) (env : Envelope) : Envelope := {|
  env_macp_version := env_macp_version env;
  env_mode := env_mode env;
  env_message_type := env_message_type env;
  env_message_id := env_message_id env;
  env_session_id := env_session_id env;
  env_sender := sender;
  env_timestamp_unix_ms := env_timestamp_unix_ms env;
  env_payload := env_payload env |}.
Definition apply_authenticated_sender (identity : AuthIdentity) (env : Envelope)
    : result MacpError Envelope :=
  if negb (str_is_empty (env_sender env)) && (env_sender env != ai_sender identity)
  then Err Unauthenticated
  else Ok (with_sender (ai_sender identity) env).

(** The initiator, a declared participant or an observer. *)
Definition may_read (identity : AuthIdentity) (session : Session) : bool :=
  ai_is_observer identity
  || (ss_initiator_sender session == ai_sender identity)
  || existsb (λ p, p == ai_sender identity) (ss_participants session).

(** The initiator, or a role the policy delegates to. *)
Definition may_control `{FromValue CommitmentRules} (identity : AuthIdentity) (session : Session)
    : bool :=
  (ai_sender identity == ss_initiator_sender session)
  || is_ok (check_commitment_authority session (ai_sender identity)).

Definition max_open (identity : AuthIdentity) (env : Envelope) : option Z :=
  if env_message_type env == "SessionStart" then ai_max_open_sessions identity else None.

(** ** The server ([MacpServer]) *)
Section server.
Context `{HJ : Jsonwebtoken}.

(** The runtime with its receipts, the security layer with its rate buckets,
    the two registries, and the environment the handlers ask: the engine's
    answers, the authentication environment and the monotonic clock, one
    reading per question. *)
Record Service := MkService {
  svc_world : World;
  svc_layer : SecurityLayer;
  svc_rate : RateBucket;
  svc_modes : ModeRegistry;
  svc_policies : PolicyRegistry;
  svc_engine : option (nat → PolicyEngine);
  svc_auth : nat → AuthWorld;
  svc_instants : nat → Z;
}.
Definition svc_server (s : Service) : Server := w_server (svc_world s).

Definition set_world (w : World) (s : Service) : Service :=
  MkService w (svc_layer s) (svc_rate s) (svc_modes s) (svc_policies s) (svc_engine s)
    (svc_auth s) (svc_instants s).
Definition set_modes_of (m : ModeRegistry) (s : Service) : Service :=
  MkService (svc_world s) (svc_layer s) (svc_rate s) m (svc_policies s) (svc_engine s)
    (svc_auth s) (svc_instants s).
Definition set_policies_of (p : PolicyRegistry) (s : Service) : Service :=
  MkService (svc_world s) (svc_layer s) (svc_rate s) (svc_modes s) p (svc_engine s)
    (svc_auth s) (svc_instants s).

Abbreviation svc A := (stm Service MacpError A).
Abbreviation rpc A := (stm Service Status A).

(** [map_err(Self::status_from_error)]. *)
Definition or_status {A} (m : svc A) : rpc A := λ s,
  let '(s, r) := m s in
  (s, match r with Ok a => Ok a | Err e => Err (status_from_error e) end).

Definition authenticate (metadata : MetadataMap) : svc AuthIdentity := λ s,
  let '(layer, out) := authenticate_metadata (svc_auth s O) metadata (svc_layer s) in
  (MkService (svc_world s) layer (svc_rate s) (svc_modes s) (svc_policies s) (svc_engine s)
     (λ n, svc_auth s (S n)) (svc_instants s), out).

Definition rate_limit (sender : string) (is_session_start : bool) : svc unit := λ s,
  let '(rate, out) :=
    enforce_rate_limit (svc_layer s) sender is_session_start (svc_instants s O) (svc_rate s) in
  (MkService (svc_world s) (svc_layer s) rate (svc_modes s) (svc_policies s) (svc_engine s)
     (svc_auth s) (λ n, svc_instants s (S n)), out).

(** The engine's answer, if there is an engine. *)
Definition consult {E} (f : PolicyEngine → PolicyDecision) : stm Service E (option PolicyDecision) :=
  λ s,
  match svc_engine s with
  | Some engines =>
      (MkService (svc_world s) (svc_layer s) (svc_rate s) (svc_modes s) (svc_policies s)
         (Some (λ n, engines (S n))) (svc_auth s) (svc_instants s), Ok (Some (f (engines O))))
  | None => (s, Ok None)
  end.

Definition has_engine {E} : stm Service E bool :=
  st_read (λ s, Ok (bool_decide (is_Some (svc_engine s)))).

(** A call of the runtime, with the modes and policies registered now. *)
Definition on_runtime {E A} (f : ModeSource → PolicySource → stm Server E A) : stm Service E A :=
  λ s,
  let '(sv, r) := f (registry_source (svc_modes s)) (resolved (svc_policies s)) (svc_server s) in
  (set_world (ReceiptIssue.set_server sv (svc_world s)) s, r).

Definition session_checked (id : string) : svc (option Session) :=
  on_runtime (λ _ _, get_session_checked id).
(** [chrono::Utc::now]. *)
Definition utc_now : svc Z := on_runtime (λ _ _, now_ms).

(** ** Sending *)
Definition enforce_ingress_policy (identity : AuthIdentity) (env : Envelope) : svc unit :=
  let require (decision : option PolicyDecision) : svc unit :=
    match decision with
    | Some (Deny reasons) => st_fail (PolicyDenied reasons)
    | _ => st_ret ()
    end in
  (let! engine := has_engine in
   if negb engine then st_ret ()
   else if env_message_type env == "SessionStart" then
     let! decision := consult (λ e, evaluate_session_start e identity (env_mode env) env) in
     require decision
   else if negb (str_is_empty (env_session_id env)) then
     let! session := session_checked (env_session_id env) in
     match session with
     | Some session =>
         let! decision := consult (λ e, evaluate_message e identity session env) in
         require decision
     | None => st_ret ()
     end
   else st_ret ())%stm.

Definition authorize_send (identity : AuthIdentity) (env : Envelope) : svc (Envelope * option Z) :=
  (let! env := st_read (λ _, apply_authenticated_sender identity env) in
   let is_session_start := env_message_type env == "SessionStart" in
   do! st_read (λ _, authorize_mode identity (env_mode env) is_session_start);
   do! rate_limit (ai_sender identity) is_session_start;
   do! enforce_ingress_policy identity env;
   st_ret (env, max_open identity env))%stm.

Definition finish_send (raw : Envelope) (outcome : result MacpError (Envelope * ProcessResult))
    : svc Ack :=
  (let! now := utc_now in
   st_ret match outcome with
          | Ok (env, result) => {|
              ack_ok := true;
              ack_duplicate := pr_duplicate result;
              ack_message_id := env_message_id env;
              ack_session_id := env_session_id env;
              ack_accepted_at_unix_ms := now;
              ack_session_state := session_state_to_pb (pr_session_state result);
              ack_error := None |}
          | Err err => make_error_ack err raw now
          end)%stm.

(** The outcome of [m] as a value. *)
Definition attempt {A} (m : svc A) : svc (result MacpError A) := λ s,
  let '(s, r) := m s in (s, Ok r).

Context `{Uuids} `{Message SessionStartPayload} `{Serde PersistedSession}.
Context `{SignalCodec} `{AnnotationCodec} `{FromValue CommitmentRules}.
(** The configuration of the runtime, and the sessions whose mutex another
    handler holds. *)
Context (config : RuntimeConfig) (busy : string → bool).

Definition send_envelope (identity : AuthIdentity) (env : Envelope)
    : svc (Envelope * ProcessResult) :=
  (do! st_read (λ s, validate_envelope_shape (sl_max_payload_bytes (svc_layer s)) env);
   let! bound := authorize_send identity env in
   let! result := on_runtime (λ modes policies, process policies config busy bound.2 bound.1) in
   st_ret (bound.1, result))%stm.
Definition send_authenticated (identity : AuthIdentity) (env : Envelope) : svc Ack :=
  (let! outcome := attempt (send_envelope identity env) in finish_send env outcome)%stm.

(** The RPC: the shape check precedes authentication, and every refusal but a
    missing envelope is an error Ack. *)
Definition send (metadata : MetadataMap) (envelope : option Envelope) : rpc Ack :=
  match envelope with
  | None => st_fail (InvalidEnvelope, [Lit "SendRequest must contain an envelope"])
  | Some env =>
      or_status
        (let! authenticated := attempt
           (do! st_read (λ s, validate_envelope_shape (sl_max_payload_bytes (svc_layer s)) env);
            authenticate metadata) in
         match authenticated with
         | Ok identity => send_authenticated identity env
         | Err err => finish_send env (Err err)
         end)%stm
  end.

(** ** Reading a session *)
Definition authorize_session_read (identity : AuthIdentity) (session : Session) : rpc unit :=
  if negb (may_read identity session) then
    st_fail (Forbidden, [Lit "FORBIDDEN: session access denied"])
  else
    (let! decision := consult (λ e, evaluate_session_access e identity session) in
     match decision with
     | Some decision => st_read (λ _, require_allow decision "session access")
     | None => st_ret ()
     end)%stm.

Definition found_session (id : string) : rpc Session :=
  (let! session := or_status (session_checked id) in
   match session with
   | Some session => st_ret session
   | None => st_fail (session_not_found id)
   end)%stm.

Definition authenticate_session_access (metadata : MetadataMap) (id : string) : rpc AuthIdentity :=
  (let! identity := or_status (authenticate metadata) in
   let! session := found_session id in
   do! authorize_session_read identity session;
   st_ret identity)%stm.

Definition get_session (metadata : MetadataMap) (id : string) : rpc SessionMetadata :=
  (do! authenticate_session_access metadata id;
   let! session := found_session id in
   st_ret (session_to_metadata session))%stm.

(** ** Lifecycle calls *)
Definition lifecycle_ack (id : string) (outcome : result MacpError ProcessResult) : svc Ack :=
  (let! now := utc_now in
   st_ret match outcome with
          | Ok result => MkAck true false "" id now (session_state_to_pb (pr_session_state result)) None
          | Err err => MkAck false false "" id now PbUnspecified
              (Some (MkPbMacpError (error_code err) [Lit (error_display err)] id "" []))
          end)%stm.

(** The caller, once it may control the session. *)
Definition authorize_control (metadata : MetadataMap) (id verb : string) : rpc AuthIdentity :=
  (let! identity := or_status (authenticate metadata) in
   let! session := found_session id in
   if negb (may_control identity session) then
     st_fail (Forbidden, [Lit ("FORBIDDEN: only the session initiator or policy-delegated roles can "
                               +:+ verb)])
   else st_ret identity)%stm.

Definition cancel_session_rpc (metadata : MetadataMap) (id reason : string) : rpc Ack :=
  (let! identity := authorize_control metadata id "cancel" in
   or_status
     (let! outcome := attempt
        (on_runtime (λ _ _, cancel_session config id reason (ai_sender identity))) in
      lifecycle_ack id outcome))%stm.
Definition suspend_session_rpc (metadata : MetadataMap) (id reason : string) : rpc Ack :=
  (let! identity := authorize_control metadata id "suspend" in
   or_status
     (let! outcome := attempt (on_runtime (λ _ _, suspend_session id reason (ai_sender identity))) in
      lifecycle_ack id outcome))%stm.
Definition resume_session_rpc (metadata : MetadataMap) (id reason : string) : rpc Ack :=
  (let! identity := authorize_control metadata id "resume" in
   or_status
     (let! outcome := attempt (on_runtime (λ _ _, resume_session id reason (ai_sender identity))) in
      lifecycle_ack id outcome))%stm.

(** ** Listing and watching *)
Definition sessions_page `{Base64Url} (metadata : MetadataMap) (req : ListSessionsRequest)
    : rpc ListSessionsResponse :=
  (let! identity := or_status (authenticate metadata) in
   st_read (λ s,
     let sessions := sv_sessions (svc_server s) in
     Pagination.list_sessions (Ok identity) (sl_list_sessions_default_page_size (svc_layer s))
       (sl_list_sessions_max_page_size (svc_layer s)) (map_to_list sessions).*1
       (λ id, sessions !! id) req))%stm.

(** ** Decision receipts *)

(** A refusal, or the panic of the receipt builder. *)
Inductive Fault := Answered (status : Status) | HandlerPanicked.
Definition answered {A} (m : rpc A) : stm Service Fault A := λ s,
  let '(s, r) := m s in (s, match r with Ok a => Ok a | Err e => Err (Answered e) end).
Definition on_receipts {A} (m : issue A) : stm Service Fault A := λ s,
  let '(w, r) := m (svc_world s) in
  (set_world w s,
   match r with
   | Ok a => Ok a
   | Err (Failed e) => Err (Answered (status_from_error e))
   | Err Panicked => Err HandlerPanicked
   end).

(** The session in memory or in storage. *)
Definition readable_session (id : string) : rpc Session := λ s,
  let '(s, r) := on_runtime (λ _ _, session_for_read id) s in
  (s, match r with
      | Ok session => Ok session
      | Err UnknownSession => Err (session_not_found id)
      | Err e => Err (status_from_error e)
      end).

Section receipts.
Context `{Sha256, Message CommitmentPayload, Base64Url, Base64Std, Ed25519, JsonText, Chrono}.
Context (receipts : ReceiptConfig) (persists : bool).

Definition get_decision_receipt (metadata : MetadataMap) (id : string)
    : stm Service Fault string :=
  (let! identity := answered (or_status (authenticate metadata)) in
   let! session := answered (readable_session id) in
   do! answered (authorize_session_read identity session);
   do! answered (or_status (rate_limit (ai_sender identity) false));
   let! receipt := on_receipts (decision_receipt receipts persists id) in
   st_read (λ _, ok_or (from_utf8 receipt) (Answered (status_from_error StorageFailed))))%stm.

(** Open to everyone. *)
Definition get_receipt_keys : string := to_jwks_json (rc_keys receipts).
End receipts.

(** ** The mode registry *)
Definition on_modes {A} (m : stm ModeRegistry text A) : rpc (result text A) := λ s,
  let '(modes, r) := m (svc_modes s) in (set_modes_of modes s, Ok r).
Definition registry_manager (metadata : MetadataMap) : rpc AuthIdentity :=
  or_status
    (let! identity := authenticate metadata in
     do! st_read (λ _, authorize_mode_registry identity);
     st_ret identity)%stm.

Definition register_ext_mode `{Message CommitmentPayload} `{ToJson PassthroughResolution}
    (metadata : MetadataMap) (mode_descriptor : option ModeDescriptor) : rpc (result text unit) :=
  (do! registry_manager metadata;
   let! descriptor := st_read (λ _,
     ok_or mode_descriptor (InvalidRequest, [Lit "descriptor required"])) in
   on_modes (register_extension descriptor))%stm.
Definition unregister_ext_mode (metadata : MetadataMap) (mode : string)
    : rpc (result text unit) :=
  (do! registry_manager metadata; on_modes (unregister_extension mode))%stm.
Definition promote_mode_rpc (metadata : MetadataMap) (mode promoted_mode_name : string)
    : rpc (result text string) :=
  (do! registry_manager metadata;
   on_modes (promote_mode mode
     (if str_is_empty promoted_mode_name then None else Some promoted_mode_name)))%stm.

(** Open to everyone. *)
Definition list_modes : rpc (list ModeDescriptor) :=
  st_read (λ s, Ok (registry_standard_descriptors (svc_modes s))).
Definition list_ext_modes : rpc (list ModeDescriptor) :=
  st_read (λ s, Ok (registry_extension_descriptors (svc_modes s))).

(** ** The policy registry *)
Section policies.
Context `{JsonText}.
(** Whether policies were loaded from files at startup. *)
Context (policies_read_only : bool).

(** Rules that do not parse become the empty object. *)
Definition policy_descriptor_to_definition (d : PolicyDescriptor) : PolicyDefinition :=
  MkPolicyDefinition (pd_policy_id d) (pd_mode d) (pd_description d)
    (if str_is_empty (pd_rules d) then VObject []
     else default (VObject []) (json_from_str (pd_rules d)))
    (pd_schema_version d).
Definition policy_definition_to_descriptor (p : PolicyDefinition) : PolicyDescriptor :=
  MkPolicyDescriptor (policy_id p) (policy_mode p) (policy_description p)
    (json_to_string (policy_rules p)) (policy_schema_version p) 0.

Definition on_policies {A} (m : stm PolicyRegistry text A) : rpc (result text A) := λ s,
  let '(policies, r) := m (svc_policies s) in (set_policies_of policies s, Ok r).
Definition writable_policies : rpc unit :=
  if policies_read_only then
    st_fail (RegistryReadOnly,
      [Lit "policy registry is read-only: policies are file-loaded via MACP_POLICIES_DIR"])
  else st_ret ().

Context `{FromValue DecisionPolicyRules} `{FromValue ProposalPolicyRules}.
Context `{FromValue TaskPolicyRules} `{FromValue HandoffPolicyRules}.
Context `{FromValue QuorumPolicyRules} `{ToValue DecisionPolicyRules}.

Definition register_policy (metadata : MetadataMap) (policy_descriptor : option PolicyDescriptor)
    : rpc (result text unit) :=
  (do! writable_policies;
   do! registry_manager metadata;
   let! descriptor := st_read (λ _,
     ok_or policy_descriptor (InvalidRequest, [Lit "descriptor required"])) in
   on_policies (register (policy_descriptor_to_definition descriptor)))%stm.
Definition unregister_policy (metadata : MetadataMap) (id : string) : rpc (result text unit) :=
  (do! writable_policies;
   do! registry_manager metadata;
   on_policies (unregister id))%stm.

Definition get_policy (metadata : MetadataMap) (id : string) : rpc PolicyDescriptor :=
  (do! or_status (authenticate metadata);
   let! policy := st_read (λ s,
     ok_or (get (svc_policies s) id)
       (UnknownPolicyVersion, [Lit ("Policy '" +:+ id +:+ "' not found")])) in
   st_ret (policy_definition_to_descriptor policy))%stm.
Definition list_policies_rpc (metadata : MetadataMap) (mode : string)
    : rpc (list PolicyDescriptor) :=
  (do! or_status (authenticate metadata);
   st_read (λ s, Ok (policy_definition_to_descriptor <$>
     list_policies (svc_policies s) (if str_is_empty mode then None else Some mode))))%stm.

(** ** What-if replay *)
Definition what_if_status (id : string) (e : WhatIfError) : Status :=
  match e with
  | WUnknownSession => session_not_found id
  | WInvalidCandidate reason => (InvalidPolicyDefinition, reason)
  | WCompacted => (HistoryUnavailable,
      [Lit ("session '" +:+ id +:+ "' history was compacted when it ended and cannot be replayed; run the runtime with MACP_COMPACT_TERMINAL_LOGS=0 to keep it")])
  | WIntegrity reason => (StorageFailed, Lit "INTERNAL_ERROR: " :: reason)
  end.
Definition what_if_replay_rpc (metadata : MetadataMap) (id : string)
    (candidate : option PolicyDescriptor) : rpc WhatIfRun :=
  (let! identity := authenticate_session_access metadata id in
   do! or_status (rate_limit (ai_sender identity) false);
   let! descriptor := st_read (λ _,
     ok_or candidate (InvalidRequest, [Lit "candidate required"])) in
   let! policies := st_read (λ s, Ok (svc_policies s)) in
   λ s,
     let '(s, r) := on_runtime (λ modes _,
       what_if_replay policies id (policy_descriptor_to_definition descriptor)) s in
     (s, match r with Ok run => Ok run | Err e => Err (what_if_status id e) end))%stm.
End policies.
End server.
