(* ===== verification/Access.v ===== *)
(** * Who may do what through the service

    The gates of the gRPC handlers, proved against the runtime: an envelope is
    accepted only in the name its sender authenticated under, sessions are read
    by their members and controlled by their initiator or delegates, and the
    registries change only for their managers. *)

From stdpp Require Import prelude gmap strings.
From S2P Require Import Prelude RustStr Floats Extern PolicyKeys Error Policy Wire SessionData.
From S2P Require Import Session CommitmentHash MultiRound ModeApi Step Log LogReplay Runtime.
From S2P Require Import PolicyRegistry Recovery ModeRegistry WhatIf WhatIfLog Auth RateLimit.
From S2P Require Import Base64 Pagination Json ReceiptKeys Receipt ReceiptIssue.
From S2P Require Import Stream Accepted Service.
Open Scope Z_scope.

Section gates.
Context `{HJ : Jsonwebtoken}.

(** ** What each step of a handler touches *)

(** Everything a client sees but the runtime's own state. *)
Definition same_registries (s s' : Service) : Prop :=
  svc_modes s' = svc_modes s ∧ svc_policies s' = svc_policies s.

(** The limits a sender is held to, and what it used of them. *)
Definition same_limits (s s' : Service) : Prop :=
  sl_max_payload_bytes (svc_layer s') = sl_max_payload_bytes (svc_layer s) ∧
  svc_instants s' = svc_instants s ∧
  ∀ sender start now,
    enforce_rate_limit (svc_layer s') sender start now (svc_rate s')
    = enforce_rate_limit (svc_layer s) sender start now (svc_rate s).

Lemma bind_run {S E A B} (m : stm S E A) (f : A → stm S E B) s :
  st_bind m f s = match m s with (s1, Ok a) => f a s1 | (s1, Err e) => (s1, Err e) end.
Proof. unfold st_bind. by destruct (m s) as [s1 []]. Qed.

Lemma or_status_run {A} (m : stm Service MacpError A) s s' r :
  or_status m s = (s', r) → ∃ r0, m s = (s', r0) ∧
    r = match r0 with Ok a => Ok a | Err e => Err (status_from_error e) end.
Proof. unfold or_status. destruct (m s) as [s1 r0]. intros [= <- <-]. by exists r0. Qed.

(** The caller's identity, as the layer establishes it. *)
Definition authenticated (metadata : MetadataMap) (s : Service) (identity : AuthIdentity) : Prop :=
  (authenticate_metadata (svc_auth s O) metadata (svc_layer s)).2 = Ok identity.

Lemma authenticate_run metadata s s' r :
  authenticate metadata s = (s', r) →
  svc_world s' = svc_world s ∧ same_registries s s' ∧ svc_engine s' = svc_engine s ∧
  same_limits s s' ∧ r = (authenticate_metadata (svc_auth s O) metadata (svc_layer s)).2.
Proof.
  unfold authenticate, authenticate_metadata, same_limits. intros Ea.
  destruct (sl_auth_chain (svc_layer s)) as [chain|].
  - destruct (chain_authenticate _ _ chain) as [chain' out]. injection Ea as <- <-. by split_and!.
  - destruct (negb _); injection Ea as <- <-; by split_and!.
Qed.

Lemma rate_limit_run sender start s s' r :
  rate_limit sender start s = (s', r) →
  svc_world s' = svc_world s ∧ same_registries s s' ∧ svc_engine s' = svc_engine s ∧
  r = (enforce_rate_limit (svc_layer s) sender start (svc_instants s O) (svc_rate s)).2.
Proof.
  unfold rate_limit. destruct (enforce_rate_limit _ _ _ _ _) as [rate out].
  intros [= <- <-]. by split_and!.
Qed.

Lemma consult_run {E} f s s' (r : result E (option PolicyDecision)) :
  consult f s = (s', r) →
  svc_world s' = svc_world s ∧ same_registries s s' ∧
  r = Ok ((λ engines, f (engines O)) <$> svc_engine s).
Proof. unfold consult. destruct (svc_engine s); intros [= <- <-]; by split_and!. Qed.

Lemma on_runtime_run {E A} (f : ModeSource → PolicySource → stm Server E A) s s' r :
  on_runtime f s = (s', r) →
  f (registry_source (svc_modes s)) (resolved (svc_policies s)) (svc_server s) = (svc_server s', r) ∧
  same_registries s s' ∧ svc_engine s' = svc_engine s.
Proof.
  unfold on_runtime. destruct (f _ _ _) as [sv out]. intros [= <- <-]. by split_and!.
Qed.

(** ** Sending *)

(** The runtime is as it was, but for the expiry check of one session. *)
Definition checked (id : string) (sv sv' : Server) : Prop :=
  sv' = sv ∨ sv' = (get_session_checked id sv).1.

Definition allows (decision : PolicyDecision) : Prop := ∃ reasons, decision = Allow reasons.
(** What the engine, if there is one, says of the envelope. *)
Definition verdict (decision : PolicyDecision) : result MacpError unit :=
  match decision with Deny reasons => Err (PolicyDenied reasons) | Allow _ => Ok () end.
Definition engine_verdict (identity : AuthIdentity) (env : Envelope) (s : Service)
    : result MacpError unit :=
  match svc_engine s with
  | None => Ok ()
  | Some engines =>
      if env_message_type env == "SessionStart"
      then verdict (evaluate_session_start (engines O) identity (env_mode env) env)
      else if str_is_empty (env_session_id env) then Ok ()
      else
        session ← (get_session_checked (env_session_id env) (svc_server s)).2;
        match session with
        | Some session => verdict (evaluate_message (engines O) identity session env)
        | None => Ok ()
        end
  end.

Lemma verdict_same identity env s s' :
  svc_engine s' = svc_engine s → svc_server s' = svc_server s →
  engine_verdict identity env s' = engine_verdict identity env s.
Proof. unfold engine_verdict. by intros -> ->. Qed.

Lemma enforce_ingress_run identity env s s' r :
  enforce_ingress_policy identity env s = (s', r) →
  same_registries s s' ∧ checked (env_session_id env) (svc_server s) (svc_server s') ∧
  r = engine_verdict identity env s.
Proof.
  unfold enforce_ingress_policy, engine_verdict. rewrite bind_run. unfold has_engine, st_read.
  destruct (svc_engine s) as [engines|] eqn:Ee; cbn [is_Some].
  2:{ rewrite bool_decide_eq_false_2 by by intros []. intros [= <- <-].
      split_and!; [done|by left|done]. }
  rewrite bool_decide_eq_true_2 by by eexists. cbn [negb].
  destruct (env_message_type env == "SessionStart").
  - rewrite bind_run. destruct (consult _ s) as [s1 d] eqn:Ec.
    apply consult_run in Ec as (Hw & Hr & ->). rewrite Ee. cbn.
    destruct (evaluate_session_start _ _ _ _) eqn:Ed; intros [= <- <-];
      (split_and!; [done|left; unfold svc_server; by rewrite Hw|done]).
  - destruct (str_is_empty (env_session_id env)) eqn:Es.
    { intros [= <- <-]. split_and!; [done|by left|done]. }
    cbn [negb]. rewrite bind_run. destruct (session_checked _ s) as [s1 o] eqn:Ec.
    unfold session_checked in Ec. apply on_runtime_run in Ec as (Hg & Hr & He). rewrite Ee in He.
    assert (checked (env_session_id env) (svc_server s) (svc_server s1)) as Hc
      by (right; by rewrite Hg).
    rewrite Hg. cbn [snd]. destruct o as [[session|]|e]; cbn;
      [|intros [= <- <-]; by split_and!..].
    rewrite bind_run. destruct (consult _ s1) as [s2 d] eqn:Ec2.
    apply consult_run in Ec2 as (Hw & Hr2 & ->). rewrite He. cbn.
    assert (svc_server s2 = svc_server s1) as Hs by (unfold svc_server; by rewrite Hw).
    assert (same_registries s s2) as Hrr by (destruct Hr, Hr2; split; congruence).
    destruct (evaluate_message _ _ _ _) eqn:Ed; intros [= <- <-];
      (split_and!; [done|by rewrite Hs|done]).
Qed.

(** The gates of the Send handler, in order: the first that fails decides. *)
Definition send_gates (identity : AuthIdentity) (env : Envelope) (s : Service)
    : result MacpError unit :=
  let start := env_message_type env == "SessionStart" in
  bound ← apply_authenticated_sender identity env;
  authorize_mode identity (env_mode env) start;;
  (enforce_rate_limit (svc_layer s) (ai_sender identity) start (svc_instants s O) (svc_rate s)).2;;
  engine_verdict identity bound s.
Definition gates (metadata : MetadataMap) (env : Envelope) (s : Service)
    : result MacpError AuthIdentity :=
  validate_envelope_shape (sl_max_payload_bytes (svc_layer s)) env;;
  identity ← (authenticate_metadata (svc_auth s O) metadata (svc_layer s)).2;
  send_gates identity env s;;
  Ok identity.

Lemma apply_sender_ok identity env env' :
  apply_authenticated_sender identity env = Ok env' →
  env' = with_sender (ai_sender identity) env ∧
  (env_sender env = "" ∨ env_sender env = ai_sender identity).
Proof.
  unfold apply_authenticated_sender. destruct (_ && _) eqn:E; [done|]. intros [= <-].
  split; [done|]. apply andb_false_iff in E as [E|E].
  - left. by destruct (env_sender env).
  - right. by apply negb_false_iff, bool_decide_eq_true in E.
Qed.

Lemma authorize_send_run identity env s s' r :
  authorize_send identity env s = (s', r) →
  same_registries s s' ∧ checked (env_session_id env) (svc_server s) (svc_server s') ∧
  r = (send_gates identity env s;; Ok (with_sender (ai_sender identity) env, max_open identity env)).
Proof.
  unfold authorize_send, send_gates. rewrite bind_run. unfold st_read at 1.
  destruct (apply_authenticated_sender identity env) as [env'|e] eqn:Ea.
  2:{ intros [= <- <-]. split_and!; [done|by left|done]. }
  apply apply_sender_ok in Ea as [-> _]. rewrite bind_run. unfold st_read at 1. cbn.
  destruct (authorize_mode _ _ _) as [[]|e].
  2:{ intros [= <- <-]. split_and!; [done|by left|done]. }
  rewrite bind_run. destruct (rate_limit _ _ s) as [s1 r1] eqn:Er.
  apply rate_limit_run in Er as (Hw & [Em Ep] & Heng & ->).
  assert (svc_server s1 = svc_server s) as Hsv by (unfold svc_server; by rewrite Hw).
  destruct (enforce_rate_limit _ _ _ _ _) as [rb [[]|e]]; cbn.
  2:{ intros [= <- <-]. split_and!; [done|by left|done]. }
  rewrite bind_run. destruct (enforce_ingress_policy _ _ s1) as [s2 r2] eqn:Ei.
  apply enforce_ingress_run in Ei as ([Em2 Ep2] & Hc & ->).
  rewrite (verdict_same _ _ s s1) by done. rewrite Hsv in Hc.
  destruct (engine_verdict _ _ _) as [[]|e]; intros [= <- <-];
    (split_and!; [split; congruence|done|done]).
Qed.

Context `{Uuids} `{Message SessionStartPayload} `{Serde PersistedSession}.
Context `{SignalCodec} `{AnnotationCodec} `{FromValue CommitmentRules}.
Context (config : RuntimeConfig) (busy : string → bool).

(** The runtime at rest, with lawful modes: what every call starts from. *)
Definition svc_ready (tid : string) (s : Service) : Prop :=
  ModeSourceLaws (H := registry_source (svc_modes s)) ∧ at_rest tid anything (svc_server s) None.

(** An envelope a registered mode synthesized for a session of its own. *)
Definition synthetic_of (s : Service) (e : Envelope) : Prop :=
  ∃ session mode now, lookup_mode (svc_modes s) (ss_mode session) = Some mode ∧
    due_synthetic_envelope mode session now = Some e.

Lemma checked_leaves tid id sv sv' :
  at_rest tid anything sv None → checked id sv sv' →
  at_rest tid anything sv' None ∧ accepted tid sv' = accepted tid sv.
Proof.
  intros Hr [->| ->]; [done|].
  pose proof (get_session_leaves (HB := ListChannels.channels) (HL := ListChannels.channels_laws)
    tid id sv Hr) as Hl. split; [by eapply rest_anything|by destruct Hl as (_ & _ & <-)].
Qed.

Lemma ready_same tid s s' :
  same_registries s s' → svc_ready tid s → at_rest tid anything (svc_server s') None → svc_ready tid s'.
Proof. intros [Em _] [Hl _] Hr. split; [by rewrite Em|done]. Qed.

(** The two steps around it: the clock an Ack reads changes nothing. *)
Lemma utc_now_run s s' r :
  utc_now s = (s', r) → same_registries s s' ∧ same_view (svc_server s) (svc_server s') ∧
  ∃ now, r = Ok now.
Proof.
  unfold utc_now. intros (Hn & Hreg & _)%on_runtime_run. split; [done|].
  injection Hn as <- <-. split; [|by eexists]. done.
Qed.
(** The Ack of a finished send. *)
Definition ack_of (raw : Envelope) (bound : Envelope) (now : Z) (outcome : result MacpError ProcessResult)
    : Ack :=
  match outcome with
  | Ok result => MkAck true (pr_duplicate result) (env_message_id bound) (env_session_id bound) now
      (session_state_to_pb (pr_session_state result)) None
  | Err e => make_error_ack e raw now
  end.
Lemma finish_send_run raw outcome s s' r :
  finish_send raw outcome s = (s', r) →
  same_registries s s' ∧ same_view (svc_server s) (svc_server s') ∧
  ∃ now, r = Ok match outcome with
                | Ok (bound, result) => ack_of raw bound now (Ok result)
                | Err e => make_error_ack e raw now
                end.
Proof.
  unfold finish_send. rewrite bind_run. destruct (utc_now s) as [s2 r2] eqn:E.
  apply utc_now_run in E as (Hreg & Hv & now & ->). intros [= <- <-].
  split_and!; [done|done|]. exists now. by destruct outcome as [[]|].
Qed.

(** The runtime's part of a send. *)
Definition processed (identity : AuthIdentity) (env : Envelope) (s : Service) (sv : Server)
    : Server * result MacpError ProcessResult :=
  process (source := registry_source (svc_modes s)) (resolved (svc_policies s)) config busy
    (max_open identity env) (with_sender (ai_sender identity) env) sv.

Lemma process_grows tid identity env s sv sv' r :
  tid ≠ "" → ModeSourceLaws (H := registry_source (svc_modes s)) → at_rest tid anything sv None →
  processed identity env s sv = (sv', r) →
  at_rest tid anything sv' None ∧ ∃ syn, Forall (synthetic_of s) syn ∧
    accepted tid sv' = accepted tid sv ++ syn ++
      if enters_log env && took r && ours tid env then [with_sender (ai_sender identity) env] else [].
Proof.
  intros Ht Hlaws Hrest Hp. unfold processed in Hp.
  apply (process_leaves (HB := ListChannels.channels) (HL := ListChannels.channels_laws)
    tid Ht _ _ _ _ _ _ _ _ Hrest) in Hp as Hl.
  split; [by eapply rest_anything|]. destruct Hl as (_ & _ & acc1 & Hacc1 & Hacc).
  set (bound := with_sender _ _) in *.
  change (enters_log env) with (enters_log bound). change (ours tid env) with (ours tid bound).
  assert (∃ syn, Forall (synthetic_of s) syn ∧ acc1 = accepted tid sv ++ syn) as (syn & Hsyn & ->).
  { destruct Hacc1 as [->|(session & _ & [->|(e & (mode & now & Hm & Hd) & ->)])];
      [exists []; by rewrite app_nil_r..|].
    unfold add. destruct (ours tid e); [exists [e]|exists []; by rewrite app_nil_r].
    split; [|done]. constructor; [|constructor]. by exists session, mode, now. }
  exists syn. split; [done|]. rewrite Hacc. unfold add.
  destruct (enters_log bound), (took r), (ours tid bound); cbn; by rewrite <- ?app_assoc, ?app_nil_r.
Qed.

Lemma send_authenticated_run identity env s s' r :
  validate_envelope_shape (sl_max_payload_bytes (svc_layer s)) env = Ok () →
  send_authenticated config busy identity env s = (s', r) →
  same_registries s s' ∧ ∃ sv1 now, checked (env_session_id env) (svc_server s) sv1 ∧
    match send_gates identity env s with
    | Err e => same_view sv1 (svc_server s') ∧ r = Ok (make_error_ack e env now)
    | Ok _ =>
        same_view (processed identity env s sv1).1 (svc_server s') ∧
        r = Ok (ack_of env (with_sender (ai_sender identity) env) now (processed identity env s sv1).2)
    end.
Proof.
  intros Hv. unfold send_authenticated, send_envelope. rewrite bind_run. unfold attempt.
  rewrite bind_run. unfold st_read at 1. rewrite Hv. rewrite bind_run.
  destruct (authorize_send identity env s) as [s1 r1] eqn:Ea.
  apply authorize_send_run in Ea as ([Em Ep] & Hc & ->).
  destruct (send_gates identity env s) as [[]|e]; cbn [mbind result_bind fst snd].
  2:{ intros ([Em2 Ep2] & Hview & now & ->)%finish_send_run. split; [split; congruence|].
      by exists (svc_server s1), now. }
  rewrite bind_run. destruct (on_runtime _ s1) as [s2 r2] eqn:Ep2.
  apply on_runtime_run in Ep2 as (Hp & [Em2 Ep2] & _). rewrite Em, Ep in Hp.
  assert (processed identity env s (svc_server s1) = (svc_server s2, r2)) as Hpr by exact Hp.
  intros E. assert (∃ o, finish_send env o s2 = (s', r) ∧ ∀ now,
    match o with Ok (bound, result) => ack_of env bound now (Ok result) | Err e => make_error_ack e env now end
    = ack_of env (with_sender (ai_sender identity) env) now r2) as (o & Ef & Hack)
    by (destruct r2; eexists; (split; [exact E|done])).
  apply finish_send_run in Ef as ([Em3 Ep3] & Hview & now & ->). split; [split; congruence|].
  exists (svc_server s1), now. rewrite Hpr, Hack. by split.
Qed.

(** The whole RPC. *)
Lemma send_runs metadata env s s' r :
  send config busy metadata (Some env) s = (s', r) →
  same_registries s s' ∧ ∃ sv1 now, checked (env_session_id env) (svc_server s) sv1 ∧
    match gates metadata env s with
    | Err e => same_view sv1 (svc_server s') ∧ r = Ok (make_error_ack e env now)
    | Ok identity =>
        same_view (processed identity env s sv1).1 (svc_server s') ∧
        r = Ok (ack_of env (with_sender (ai_sender identity) env) now (processed identity env s sv1).2)
    end.
Proof.
  unfold send, gates. intros (r0 & E & ->)%or_status_run. revert E. rewrite bind_run. unfold attempt at 1.
  rewrite bind_run. unfold st_read at 1.
  destruct (validate_envelope_shape _ env) as [[]|e] eqn:Eshape; cbn [mbind result_bind].
  2:{ intros (Hreg & Hview & now & ->)%finish_send_run. split; [done|].
      exists (svc_server s), now. split_and!; [by left|done|done]. }
  destruct (authenticate metadata s) as [s2 r2] eqn:Eauth.
  apply authenticate_run in Eauth as (Hw & [Em Ep] & Heng & (Hmax & Hinst & Hrate) & ->).
  assert (svc_server s2 = svc_server s) as Hsv by (unfold svc_server; by rewrite Hw).
  destruct (authenticate_metadata _ metadata _) as [layer [identity|e]]; cbn [mbind result_bind fst snd].
  2:{ intros ([Em2 Ep2] & Hview & now & ->)%finish_send_run. split; [split; congruence|].
      exists (svc_server s2), now. split_and!; [by left|done|done]. }
  assert (send_gates identity env s2 = send_gates identity env s) as Hg.
  { unfold send_gates. rewrite Hrate, Hinst.
    destruct (apply_authenticated_sender identity env); cbn; [|done].
    by rewrite (verdict_same _ _ s s2). }
  intros ([Em2 Ep2] & sv1 & now & Hc & Hrun)%send_authenticated_run; [|by rewrite Hmax].
  split; [split; congruence|]. exists sv1, now. rewrite Hsv in Hc. rewrite Hg in Hrun.
  unfold processed in Hrun. rewrite Em, Ep in Hrun. split; [done|].
  destruct (send_gates identity env s) as [[]|e]; destruct Hrun as [? ->]; by split.
Qed.

(** C30. How a send is refused. A request without an envelope is a status and
    changes nothing. Otherwise the answer is an Ack that echoes the ids of the
    envelope. If a gate fails (shape, authentication, sender, mode rights, rate
    limit, policy engine, in that order), the Ack carries the code, message and
    details of the first that failed, and the runtime is as it was, but for an
    expiry check of the session. If all pass, the runtime processes the envelope
    under the caller's name, and the Ack carries its error or its verdict. *)
Theorem send_refused_by_first_gate metadata envelope s :
  let '(s', r) := send config busy metadata envelope s in
  match envelope with
  | None => s' = s ∧ ∃ why, r = Err (InvalidEnvelope, why)
  | Some env =>
      ∃ sv1 ack, checked (env_session_id env) (svc_server s) sv1 ∧ r = Ok ack ∧
        ack_message_id ack = env_message_id env ∧ ack_session_id ack = env_session_id env ∧
        let refused e := ack_ok ack = false ∧ ack_duplicate ack = false ∧
          ack_error ack = Some (MkPbMacpError (error_code e) [Lit (error_display e)]
            (env_session_id env) (env_message_id env) (error_details e)) in
        match gates metadata env s with
        | Err e => refused e ∧ same_view sv1 (svc_server s')
        | Ok identity =>
            let '(sv2, outcome) := processed identity env s sv1 in
            same_view sv2 (svc_server s') ∧
            match outcome with
            | Err e => refused e
            | Ok result => ack_ok ack = true ∧ ack_duplicate ack = pr_duplicate result ∧
                ack_session_state ack = session_state_to_pb (pr_session_state result) ∧
                ack_error ack = None
            end
        end
  end.
Proof.
  destruct (send config busy metadata envelope s) as [s' r] eqn:Es. destruct envelope as [env|].
  2:{ injection Es as <- <-. split; [done|]. by eexists. }
  apply send_runs in Es as (_ & sv1 & now & Hc & Hrun). exists sv1.
  destruct (gates metadata env s) as [identity|e].
  - destruct (processed identity env s sv1) as [sv2 outcome]. destruct Hrun as [Hview ->].
    eexists. split_and!; [done|done|by destruct outcome..|]. split; [done|by destruct outcome].
  - destruct Hrun as [Hview ->]. eexists. by split_and!.
Qed.

(** *** What a send leaves on the streams *)
(** The gates an envelope passed on its way from the state [s]. *)
Record admitted (metadata : MetadataMap) (env : Envelope) (s : Service) (identity : AuthIdentity)
    : Prop := {
  ad_identity : authenticated metadata s identity;
  ad_shape : validate_envelope_shape (sl_max_payload_bytes (svc_layer s)) env = Ok ();
  ad_sender : env_sender env = "" ∨ env_sender env = ai_sender identity;
  ad_mode : authorize_mode identity (env_mode env) (env_message_type env == "SessionStart") = Ok ();
  ad_rate :
    (enforce_rate_limit (svc_layer s) (ai_sender identity)
      (env_message_type env == "SessionStart") (svc_instants s O) (svc_rate s)).2 = Ok ();
  ad_engine : engine_verdict identity (with_sender (ai_sender identity) env) s = Ok ();
}.
Lemma gates_admit metadata env s identity :
  gates metadata env s = Ok identity → admitted metadata env s identity.
Proof.
  unfold gates, send_gates. destruct (validate_envelope_shape _ env) as [[]|] eqn:Hv; [|done]. cbn.
  destruct (authenticate_metadata _ metadata _).2 as [i|] eqn:Ha; [|done]. cbn.
  destruct (apply_authenticated_sender i env) as [bound|] eqn:Hb; [|done]. cbn.
  apply apply_sender_ok in Hb as [-> Hs].
  destruct (authorize_mode _ _ _) as [[]|] eqn:Hm; [|done]. cbn.
  destruct (enforce_rate_limit _ _ _ _ _).2 as [[]|] eqn:Hr; [|done]. cbn.
  destruct (engine_verdict _ _ _) as [[]|] eqn:He; [|done]. intros [= <-]. by split.
Qed.

Lemma send_grows tid metadata env s s' r :
  tid ≠ "" → svc_ready tid s → send config busy metadata (Some env) s = (s', r) →
  svc_ready tid s' ∧ ∃ syn entered, Forall (synthetic_of s) syn ∧
    accepted tid (svc_server s') = accepted tid (svc_server s) ++ syn ++ entered ∧
    ∀ e, e ∈ entered → ∃ identity, admitted metadata env s identity ∧
      e = with_sender (ai_sender identity) env.
Proof.
  intros Ht Hready (Hreg & sv1 & now & Hc & Hrun)%send_runs.
  destruct (checked_leaves tid _ _ _ (proj2 Hready) Hc) as [Hr1 Ha1].
  destruct (gates metadata env s) as [identity|e] eqn:Eg.
  - destruct Hrun as [Hview _]. destruct (processed identity env s sv1) as [sv2 outcome] eqn:Ep.
    cbn [fst] in Hview. apply (process_grows tid) in Ep as (Hr2 & syn & Hsyn & Ha2); [|done|by apply Hready|done].
    split; [by eapply ready_same; [..|eapply at_rest_quiet]|].
    eexists syn, _. split_and!; [done| |].
    + unfold accepted in *. destruct Hview as (_ & _ & ->). by rewrite Ha2, Ha1.
    + intros e' He. exists identity. split; [by apply gates_admit|].
      destruct (_ && _); [by apply list_elem_of_singleton in He|by apply elem_of_nil in He].
  - destruct Hrun as [Hview _]. split; [by eapply ready_same; [..|eapply at_rest_quiet]|].
    exists [], []. split_and!; [constructor| |by intros e' ?%elem_of_nil].
    unfold accepted in *. destruct Hview as (_ & _ & ->). by rewrite Ha1, app_nil_r.
Qed.

(** ** Reading *)
Lemma found_session_run id s s' r :
  found_session id s = (s', r) →
  same_registries s s' ∧ svc_engine s' = svc_engine s ∧
  svc_server s' = (get_session_checked id (svc_server s)).1 ∧
  ∀ session, r = Ok session → (get_session_checked id (svc_server s)).2 = Ok (Some session).
Proof.
  unfold found_session. rewrite bind_run. destruct (or_status _ s) as [s1 r1] eqn:E.
  apply or_status_run in E as (r0 & E & ->). unfold session_checked in E.
  apply on_runtime_run in E as (Hg & Hreg & He). rewrite Hg.
  destruct r0 as [[session|]|e]; intros [= <- <-]; split_and!; try done; by intros ? [= <-].
Qed.

(** The engine, if there is one, lets [identity] see [session]. *)
Definition engine_shows (identity : AuthIdentity) (session : Session) (s : Service) : Prop :=
  ∀ engines, svc_engine s = Some engines →
    allows (evaluate_session_access (engines O) identity session).

Lemma session_read_run identity session s s' r :
  authorize_session_read identity session s = (s', r) →
  svc_world s' = svc_world s ∧ same_registries s s' ∧
  (r = Ok () → may_read identity session = true ∧ engine_shows identity session s).
Proof.
  unfold authorize_session_read. destruct (may_read identity session); cbn [negb].
  2:{ intros [= <- <-]. by split_and!. }
  rewrite bind_run. destruct (consult _ s) as [s1 d] eqn:Ec.
  apply consult_run in Ec as (Hw & Hreg & ->). unfold engine_shows.
  destruct (svc_engine s) as [engines|]; cbn; intros [= <- <-]; split_and!; try done.
  intros Ha. split; [done|]. intros ? [= <-]. unfold require_allow in Ha.
  by destruct (evaluate_session_access _ _ _); [eexists|].
Qed.

(** The caller is one the session may be shown to. *)
Definition reader (metadata : MetadataMap) (session : Session) (s : Service) : Prop :=
  ∃ identity, authenticated metadata s identity ∧ may_read identity session = true ∧
    engine_shows identity session s.

Lemma session_access_run metadata id s s' r :
  authenticate_session_access metadata id s = (s', r) →
  same_registries s s' ∧ checked id (svc_server s) (svc_server s') ∧
  ∀ identity, r = Ok identity → svc_server s' = (get_session_checked id (svc_server s)).1 ∧
    ∃ session, (get_session_checked id (svc_server s)).2 = Ok (Some session) ∧
      reader metadata session s.
Proof.
  unfold authenticate_session_access. rewrite bind_run.
  destruct (or_status _ s) as [s1 r1] eqn:E1. apply or_status_run in E1 as (r0 & E1 & ->).
  apply authenticate_run in E1 as (Hw1 & [Em Ep] & Heng & _ & Hid).
  assert (svc_server s1 = svc_server s) as Hsv by (unfold svc_server; by rewrite Hw1).
  destruct r0 as [identity|e].
  2:{ intros [= <- <-]. split_and!; [done|by left|done]. }
  rewrite bind_run. destruct (found_session id s1) as [s2 r2] eqn:E2.
  apply found_session_run in E2 as ([Em2 Ep2] & Heng2 & Hsv2 & Hf). rewrite Hsv in *.
  destruct r2 as [session|e].
  2:{ intros [= <- <-]. split_and!; [split; congruence|by right|done]. }
  specialize (Hf _ eq_refl). rewrite bind_run.
  destruct (authorize_session_read identity session s2) as [s3 r3] eqn:E3.
  apply session_read_run in E3 as (Hw3 & [Em3 Ep3] & Hr).
  assert (svc_server s3 = svc_server s2) as Hsv3 by (unfold svc_server; by rewrite Hw3).
  destruct r3 as [[]|e]; intros [= <- <-]; (split_and!; [split; congruence|right; congruence|]);
    [|done].
  intros ? [= <-]. split; [congruence|]. exists session. split; [done|]. exists identity.
  destruct (Hr eq_refl) as [Hm Hsh]. split_and!; [exact (eq_sym Hid)|done|].
  intros engines He. apply Hsh. congruence.
Qed.

(** What lets an authenticated caller in lets it in later in the same call. *)
Lemma reader_intro metadata identity session s s1 s' :
  authenticated metadata s identity → svc_engine s1 = svc_engine s →
  authorize_session_read identity session s1 = (s', Ok ()) → reader metadata session s.
Proof.
  intros Hid He (_ & _ & Hr)%session_read_run. destruct (Hr eq_refl) as [Hm Hsh].
  exists identity. split_and!; [done|done|]. intros engines Hs. apply Hsh. congruence.
Qed.

Section shown.
Context `{FromValue DecisionPolicyRules} `{FromValue ProposalPolicyRules}.
Context `{FromValue TaskPolicyRules} `{FromValue HandoffPolicyRules}.
Context `{FromValue QuorumPolicyRules} `{ToValue DecisionPolicyRules}.
Context `{Sha256, Message CommitmentPayload, Base64Url, Base64Std, Ed25519, JsonText, Chrono}.
Context (receipts : ReceiptConfig) (persists : bool).

Lemma get_session_shown metadata id s m :
  (get_session metadata id s).2 = Ok m →
  let '(sv1, found) := get_session_checked id (svc_server s) in
  (∃ session, found = Ok (Some session) ∧ reader metadata session s) ∧
  ∃ session, (get_session_checked id sv1).2 = Ok (Some session) ∧ m = session_to_metadata session.
Proof.
  unfold get_session. rewrite bind_run.
  destruct (authenticate_session_access metadata id s) as [s1 [identity|e]] eqn:Ea; [|done].
  apply session_access_run in Ea as (_ & _ & Hok).
  destruct (Hok _ eq_refl) as (Hsv & session & Hf & Hr). rewrite bind_run.
  destruct (found_session id s1) as [s2 [session2|e]] eqn:Ef; [|done].
  apply found_session_run in Ef as (_ & _ & _ & Hf2). intros [= <-].
  destruct (get_session_checked id (svc_server s)) as [sv1 found]. cbn in *. subst sv1.
  split; [by exists session|]. exists session2. split; [by apply Hf2|done].
Qed.
Lemma what_if_shown metadata id candidate s run :
  (what_if_replay_rpc metadata id candidate s).2 = Ok run →
  ∃ session, (get_session_checked id (svc_server s)).2 = Ok (Some session) ∧ reader metadata session s.
Proof.
  unfold what_if_replay_rpc. rewrite bind_run.
  destruct (authenticate_session_access metadata id s) as [s1 [identity|e]] eqn:Ea; [|done].
  apply session_access_run in Ea as (_ & _ & Hok).
  destruct (Hok _ eq_refl) as (_ & session & Hf & Hr). by exists session.
Qed.
Lemma receipt_shown metadata id s b :
  (get_decision_receipt receipts persists metadata id s).2 = Ok b →
  ∃ session, (session_for_read id (svc_server s)).2 = Ok session ∧ reader metadata session s.
Proof.
  unfold get_decision_receipt. rewrite bind_run. unfold answered at 1.
  destruct (or_status _ s) as [s1 r1] eqn:E1. apply or_status_run in E1 as (r0 & E1 & ->).
  apply authenticate_run in E1 as (Hw & _ & Heng & _ & Hid). destruct r0 as [identity|e]; [|done].
  rewrite bind_run. unfold answered at 1. destruct (readable_session id s1) as [s2 r2] eqn:E2.
  unfold readable_session in E2. destruct (on_runtime _ s1) as [s3 r3] eqn:E3.
  apply on_runtime_run in E3 as (E3 & _ & Heng3). injection E2 as <- <-.
  destruct r3 as [session|e]; [|by destruct e]. rewrite bind_run. unfold answered at 1.
  destruct (authorize_session_read identity session s3) as [s4 [[]|e]] eqn:E4; [|done]. intros _.
  exists session. split; [unfold svc_server in *; rewrite <- Hw; by rewrite E3|].
  eapply reader_intro; [exact (eq_sym Hid)| |exact E4]. congruence.
Qed.

(** C31. Sessions are shown only to their readers. A caller that gets a session's
    metadata, the result of replaying it under another policy, or its decision
    receipt, authenticated as an observer, the initiator or a participant of
    that session, as memory or, for a receipt, storage holds it; and the policy
    engine, if there is one, allowed that caller to see that session. The
    metadata shown is that of the stored session, checked for expiry. *)
Theorem sessions_shown_to_readers metadata id candidate s :
  (∀ m, (get_session metadata id s).2 = Ok m →
     let '(sv1, found) := get_session_checked id (svc_server s) in
     (∃ session, found = Ok (Some session) ∧ reader metadata session s) ∧
     ∃ session, (get_session_checked id sv1).2 = Ok (Some session) ∧ m = session_to_metadata session) ∧
  (∀ run, (what_if_replay_rpc metadata id candidate s).2 = Ok run →
     ∃ session, (get_session_checked id (svc_server s)).2 = Ok (Some session) ∧
       reader metadata session s) ∧
  (∀ b, (get_decision_receipt receipts persists metadata id s).2 = Ok b →
     ∃ session, (session_for_read id (svc_server s)).2 = Ok session ∧ reader metadata session s).
Proof.
  split_and!; intros ?; [apply get_session_shown|apply what_if_shown|apply receipt_shown].
Qed.
End shown.

(** ** Controlling *)
Inductive Control := ControlCancel | ControlSuspend | ControlResume.
Definition control_rpc (c : Control) (metadata : MetadataMap) (id reason : string)
    : stm Service Status Ack :=
  match c with
  | ControlCancel => cancel_session_rpc config metadata id reason
  | ControlSuspend => suspend_session_rpc metadata id reason
  | ControlResume => resume_session_rpc metadata id reason
  end.
Definition control_call (c : Control) (id reason by_ : string) : srv ProcessResult :=
  match c with
  | ControlCancel => cancel_session config id reason by_
  | ControlSuspend => suspend_session id reason by_
  | ControlResume => resume_session id reason by_
  end.
Definition control_verb (c : Control) : string :=
  match c with ControlCancel => "cancel" | ControlSuspend => "suspend" | ControlResume => "resume" end.

Lemma control_rpc_eq c metadata id reason :
  control_rpc c metadata id reason =
  st_bind (authorize_control metadata id (control_verb c)) (λ identity,
    or_status (st_bind (attempt (on_runtime (λ _ _, control_call c id reason (ai_sender identity))))
      (lifecycle_ack id))).
Proof. by destruct c. Qed.

Lemma authorize_control_run metadata id verb s s' r :
  authorize_control metadata id verb s = (s', r) →
  checked id (svc_server s) (svc_server s') ∧
  ∀ identity, r = Ok identity → authenticated metadata s identity ∧
    svc_server s' = (get_session_checked id (svc_server s)).1 ∧
    ∃ session, (get_session_checked id (svc_server s)).2 = Ok (Some session) ∧
      may_control identity session = true.
Proof.
  unfold authorize_control. rewrite bind_run.
  destruct (or_status _ s) as [s1 r1] eqn:E1. apply or_status_run in E1 as (r0 & E1 & ->).
  apply authenticate_run in E1 as (Hw & _ & _ & _ & Hid).
  assert (svc_server s1 = svc_server s) as Hsv by (unfold svc_server; by rewrite Hw).
  destruct r0 as [identity|e]; [|intros [= <- <-]; by split; [left|]].
  rewrite bind_run. destruct (found_session id s1) as [s2 r2] eqn:E2.
  apply found_session_run in E2 as (_ & _ & Hsv2 & Hf). rewrite Hsv in *.
  assert (checked id (svc_server s) (svc_server s2)) as Hc by by right.
  destruct r2 as [session|e]; [|intros [= <- <-]; by split].
  specialize (Hf _ eq_refl).
  destruct (may_control identity session) eqn:Em; intros [= <- <-]; (split; [done|]); [|done].
  intros ? [= <-]. split_and!; [exact (eq_sym Hid)|done|]. by exists session.
Qed.

(** C32. Only controllers cancel, suspend and resume. If the call is answered
    with an Ack, then the caller authenticated, the session exists, and the
    caller is its initiator or holds commitment authority under its policy; the
    runtime ran the call in the caller's name, and the Ack is OK exactly when
    the runtime's answer is. If the answer is a status, the runtime did nothing
    but look the session up. *)
Theorem control_by_controllers c metadata id reason s :
  let '(s', r) := control_rpc c metadata id reason s in
  match r with
  | Err _ => checked id (svc_server s) (svc_server s')
  | Ok ack => ∃ identity session, authenticated metadata s identity ∧
      (get_session_checked id (svc_server s)).2 = Ok (Some session) ∧
      may_control identity session = true ∧ ack_session_id ack = id ∧
      let '(sv2, outcome) := control_call c id reason (ai_sender identity)
        (get_session_checked id (svc_server s)).1 in
      same_view sv2 (svc_server s') ∧ ack_ok ack = is_ok outcome
  end.
Proof.
  rewrite control_rpc_eq, bind_run.
  destruct (authorize_control _ _ _ s) as [s1 [identity|e]] eqn:E1;
    apply authorize_control_run in E1 as [Hc Hok]; [|done].
  destruct (Hok _ eq_refl) as (Hid & Hsv & session & Hf & Hm).
  destruct (or_status _ s1) as [s' r] eqn:E2. apply or_status_run in E2 as (r0 & E2 & ->).
  rewrite bind_run in E2. unfold attempt at 1 in E2.
  destruct (on_runtime _ s1) as [s2 outcome] eqn:E3. apply on_runtime_run in E3 as (E3 & _).
  unfold lifecycle_ack in E2. rewrite bind_run in E2. destruct (utc_now s2) as [s3 r3] eqn:E4.
  apply utc_now_run in E4 as (_ & Hv & now & ->). injection E2 as <- <-.
  exists identity, session. rewrite <- Hsv, E3. split_and!; try done; by destruct outcome.
Qed.

(** ** Rules that do not parse *)
Section malformed.
Context `{FromValue DecisionPolicyRules} `{FromValue ProposalPolicyRules}.
Context `{FromValue TaskPolicyRules} `{FromValue HandoffPolicyRules}.
Context `{FromValue QuorumPolicyRules} `{ToValue DecisionPolicyRules} `{JsonText}.

(** Text that is not JSON is taken for no rules at all: registering it, and
    replaying a session under it, are what they are for a policy without rules. *)
Theorem malformed_rules_are_no_rules policies_read_only metadata id d s :
  json_from_str (pd_rules d) = None →
  let bare := MkPolicyDescriptor (pd_policy_id d) (pd_mode d) (pd_description d) ""
    (pd_schema_version d) (pd_registered_at_unix_ms d) in
  register_policy policies_read_only metadata (Some d) s
    = register_policy policies_read_only metadata (Some bare) s ∧
  what_if_replay_rpc metadata id (Some d) s = what_if_replay_rpc metadata id (Some bare) s.
Proof.
  intros Hn bare.
  assert (policy_descriptor_to_definition d = policy_descriptor_to_definition bare) as E.
  { unfold policy_descriptor_to_definition, bare. cbn. rewrite Hn. by destruct (str_is_empty _). }
  split.
  - unfold register_policy. rewrite !bind_run. destruct (writable_policies _ s) as [s1 [[]|e]]; [|done].
    rewrite !bind_run. destruct (registry_manager metadata s1) as [s2 [i|e]]; [|done].
    rewrite !bind_run. unfold st_read. cbn [ok_or]. by rewrite E.
  - unfold what_if_replay_rpc. rewrite !bind_run.
    destruct (authenticate_session_access metadata id s) as [s1 [i|e]]; [|done].
    rewrite !bind_run. destruct (or_status _ s1) as [s2 [[]|e]]; [|done].
    rewrite !bind_run. unfold st_read. cbn [ok_or]. rewrite !bind_run. by rewrite E.
Qed.
End malformed.
End gates.
