(* ===== verification/Serving.v ===== *)
(** * The service over time

    Any sequence of requests and maintenance runs, handler after handler: every
    envelope on a session's stream is accounted for, the registries change only
    for their managers, and sessions are shown and controlled only by callers
    with the right to. *)

From stdpp Require Import prelude gmap strings.
From S2P Require Import Prelude RustStr Floats Extern PolicyKeys Error Policy Wire SessionData.
From S2P Require Import Session SessionStart CommitmentHash Concrete MultiRound ModeApi Laws Blind Step Log LogReplay Runtime.
From S2P Require Import PolicyRegistry PolicyAdmission Recovery Durable ModeRegistry WhatIf WhatIfLog Auth RateLimit.
From S2P Require Import Base64 Pagination Json ReceiptKeys Receipt ReceiptIssue.
From S2P Require Import Stream Accepted Service Access.
Open Scope Z_scope.

(** ** Registries of lawful modes *)
Section lawful.
Definition lawful (r : ModeRegistry) : Prop :=
  map_Forall (λ _ e, ModeLaws (mr_factory e) ∧ ReplayBlind (mr_factory e)) (modes r).

Lemma lawful_source r : lawful r ↔ ModeSourceLaws (H := registry_source r).
Proof.
  split.
  - intros Hl. split; intros name mode; cbn; unfold lookup_mode; rewrite fmap_Some;
      intros (e & He & ->); by apply (Hl name).
  - intros Hl name e He.
    assert (get_mode (ModeSource := registry_source r) name = Some (mr_factory e)) as Hg
      by (cbn; unfold lookup_mode; by rewrite He).
    split; [by eapply @source_laws|by eapply @source_blind].
Qed.

Context `{Message CommitmentPayload} `{ToJson PassthroughResolution}.
Lemma lawful_register d r : lawful r → lawful (register_extension d r).1.
Proof.
  intros Hl. unfold register_extension, st_bind, st_read, st_mod.
  destruct (validate_extension_descriptor d) as [[]|]; [|done]. case_bool_decide; [done|].
  apply map_Forall_insert_2; [|done]. split; apply _.
Qed.
Lemma lawful_unregister mode r : lawful r → lawful (unregister_extension mode r).1.
Proof.
  intros Hl. unfold unregister_extension, st_bind, st_read, st_mod.
  destruct (modes r !! mode) as [e|]; [|done].
  destruct (mr_builtin e), (mr_standards_track e); try done. by apply map_Forall_delete.
Qed.
Lemma lawful_promote mode name r : lawful r → lawful (promote_mode mode name r).1.
Proof.
  intros Hl. unfold promote_mode, st_bind, st_read, st_mod.
  destruct (modes r !! mode) as [e|] eqn:He; [|done]. simpl.
  destruct (mr_standards_track e); [done|]. destruct (_ && _); [done|]. destruct (blank _); [done|].
  destruct (_ && _); [done|]. simpl. apply map_Forall_insert_2; [exact (Hl _ _ He)|].
  by apply map_Forall_delete.
Qed.
End lawful.

(** ** Handlers under which nothing is accepted *)
Definition keeps {S E A} (I : S → Prop) (m : stm S E A) : Prop := hoare I m (λ _, I) I.

Section keeps.
Context {S E : Type} (I : S → Prop).
Lemma keeps_bind {A B} (m : stm S E A) (f : A → stm S E B) :
  keeps I m → (∀ a, keeps I (f a)) → keeps I (st_bind m f).
Proof. apply hoare_bind. Qed.
Lemma keeps_read {A} (f : S → result E A) : keeps I (st_read f).
Proof. intros s Hs. unfold st_read. by destruct (f s). Qed.
Lemma keeps_ret {A} (a : A) : keeps I (st_ret a : stm S E A).
Proof. by apply hoare_ret. Qed.
Lemma keeps_fail {A} (e : E) : keeps I (st_fail e : stm S E A).
Proof. by apply hoare_fail. Qed.
Lemma keeps_run {A} (m : stm S E A) s : keeps I m → I s → I (m s).1.
Proof. intros Hm Hs. specialize (Hm s Hs). by destruct (m s) as [s' []]. Qed.
Lemma keeps_intro {A} (m : stm S E A) : (∀ s, I s → I (m s).1) → keeps I m.
Proof. intros Hm s Hs. specialize (Hm s Hs). by destruct (m s) as [s' []]. Qed.
End keeps.

Create HintDb keeps.
#[export] Hint Resolve keeps_read keeps_ret keeps_fail : keeps.
Section wrapped.
Context `{HJ : Jsonwebtoken} (I : Service → Prop).
Lemma keeps_or_status {A} (m : stm Service MacpError A) : keeps I m → keeps I (or_status m).
Proof.
  intros Hm. apply keeps_intro. intros s Hs. unfold or_status.
  pose proof (keeps_run I m s Hm Hs) as Hc. by destruct (m s).
Qed.
Lemma keeps_attempt {A} (m : stm Service MacpError A) : keeps I m → keeps I (attempt m).
Proof.
  intros Hm. apply keeps_intro. intros s Hs. unfold attempt.
  pose proof (keeps_run I m s Hm Hs) as Hc. by destruct (m s).
Qed.
Lemma keeps_answered {A} (m : stm Service Status A) : keeps I m → keeps I (answered m).
Proof.
  intros Hm. apply keeps_intro. intros s Hs. unfold answered.
  pose proof (keeps_run I m s Hm Hs) as Hc. by destruct (m s).
Qed.
End wrapped.

(** One handler, call by call. *)
Ltac keeps_steps :=
  repeat first
    [ progress intros
    | solve [eauto with keeps]
    | apply keeps_or_status
    | apply keeps_attempt
    | apply keeps_answered
    | apply keeps_bind
    | case_match ].

Section calm.
#[local] Existing Instance ListChannels.channels.
#[local] Existing Instance ListChannels.channels_laws.
Context `{HJ : Jsonwebtoken} `{Message SessionStartPayload} `{Serde PersistedSession}.
Context `{SignalCodec} `{AnnotationCodec} `{FromValue CommitmentRules}.
Context `{FromValue DecisionPolicyRules} `{FromValue ProposalPolicyRules}.
Context `{FromValue TaskPolicyRules} `{FromValue HandoffPolicyRules}.
Context `{FromValue QuorumPolicyRules} `{ToValue DecisionPolicyRules}.
Context `{Sha256, Message CommitmentPayload, Base64Url, Base64Std, Ed25519, JsonText, Chrono}.
Context (config : RuntimeConfig) (receipts : ReceiptConfig) (persists : bool).
Context (tid : string) (acc : list Envelope).

(** *** In the runtime *)
Definition still (sv : Server) : Prop := at_rest tid (eq acc) sv None.

Lemma still_view {E A} (m : stm Server E A) : (∀ sv, same_view sv (m sv).1) → keeps still m.
Proof. intros Hm. apply keeps_intro. intros sv Hs. by eapply at_rest_quiet. Qed.
Lemma still_io {E} : keeps still (io_outcome : stm Server E bool).
Proof. by apply still_view. Qed.
Lemma still_now : keeps still now_ms.
Proof. by apply still_view. Qed.
Lemma still_sim {A} (m : srv A) :
  (∀ sessions, sim tid (begins tid sessions acc) m
     (λ _, at_rest tid (eq acc)) (at_rest tid (eq acc))) → keeps still m.
Proof.
  intros Hm sv Hs. assert (begins tid (sv_sessions sv) acc sv None) as Hb by by split.
  destruct (sim_outcome _ _ _ _ _ _ (Hm _) Hb) as [p Ho].
  destruct (m sv) as [sv' []]; cbn [fst snd] in Ho; by eapply at_rest_none.
Qed.
Lemma still_checked id : keeps still (get_session_checked id).
Proof.
  apply still_sim. intros ?. apply sim_get_session.
Qed.
Lemma still_cancel id reason by_ : keeps still (cancel_session config id reason by_).
Proof. apply still_sim. intros ?. apply sim_cancel. Qed.
Lemma still_suspend id reason by_ : keeps still (suspend_session id reason by_).
Proof. apply still_sim. intros ?. apply sim_suspend. Qed.
Lemma still_resume id reason by_ : keeps still (resume_session id reason by_).
Proof. apply still_sim. intros ?. apply sim_resume. Qed.
#[local] Hint Resolve still_io still_now still_checked still_cancel still_suspend still_resume : keeps.

Lemma still_session_for_read id : keeps still (session_for_read id).
Proof. unfold session_for_read, load_session. keeps_steps. Qed.
Lemma still_what_if `{ModeSource} registry id candidate :
  keeps still (what_if_replay registry id candidate).
Proof.
  apply keeps_intro. intros sv Hs. unfold what_if_replay.
  pose proof (keeps_run still _ sv (still_checked id) Hs) as Hs1.
  destruct (get_session_checked id sv) as [sv1 [[session|]|e]]; try exact Hs1.
  destruct (get_log id (sv_log sv1)); [exact Hs1|].
  assert (still (load_log (E := WhatIfError) id sv1).1) as Hs2
    by (apply keeps_run; [unfold load_log; keeps_steps|exact Hs1]).
  destruct (load_log id sv1) as [sv2 [[log|]|e]]; exact Hs2.
Qed.
#[local] Hint Resolve still_session_for_read still_what_if : keeps.

(** *** With the receipts *)
Definition still_world (w : World) : Prop := still (w_server w).
Lemma still_on_server {A} (m : srv A) : keeps still m → keeps still_world (on_server m).
Proof.
  intros Hm. apply keeps_intro. intros w Hw. unfold on_server.
  pose proof (keeps_run still m _ Hm Hw) as Hs. by destruct (m (w_server w)) as [sv []].
Qed.
Lemma still_mod {E} f : (∀ w, w_server (f w) = w_server w) →
  keeps still_world (st_mod f : stm World E unit).
Proof.
  intros Hf. apply keeps_intro. intros w Hw. unfold still_world. cbn. by rewrite Hf.
Qed.
#[local] Hint Resolve still_on_server still_mod : keeps.

Lemma still_receipt id : keeps still_world (decision_receipt receipts persists id).
Proof.
  unfold decision_receipt, issue_locked, load_receipt, store_receipt_if_absent, keep,
    keep_unpersisted, cache. keeps_steps.
Qed.
#[local] Hint Resolve still_receipt : keeps.

(** *** In the service *)
Context (modes0 : ModeRegistry) (policies0 : PolicyRegistry).
Definition calm (s : Service) : Prop :=
  svc_modes s = modes0 ∧ svc_policies s = policies0 ∧ still (svc_server s).

Lemma calm_same s s' :
  calm s → same_registries s s' → svc_world s' = svc_world s → calm s'.
Proof.
  intros (Em & Ep & Hs) [Em' Ep'] Hw. unfold calm, svc_server in *.
  rewrite Hw. split_and!; congruence.
Qed.
Lemma calm_authenticate metadata : keeps calm (authenticate metadata).
Proof.
  apply keeps_intro. intros s Hs. destruct (authenticate metadata s) as [s' r] eqn:E.
  apply authenticate_run in E as (Hw & Hreg & _). by eapply calm_same.
Qed.
Lemma calm_rate sender start : keeps calm (rate_limit sender start).
Proof.
  apply keeps_intro. intros s Hs. destruct (rate_limit sender start s) as [s' r] eqn:E.
  apply rate_limit_run in E as (Hw & Hreg & _). by eapply calm_same.
Qed.
Lemma calm_consult {E} f : keeps calm (consult f : stm Service E _).
Proof.
  apply keeps_intro. intros s Hs. destruct (consult f s) as [s' r] eqn:Ec.
  apply consult_run in Ec as (Hw & Hreg & _). by eapply calm_same.
Qed.
Lemma calm_runtime {E A} (f : ModeSource → PolicySource → stm Server E A) :
  (∀ ms ps, keeps still (f ms ps)) → keeps calm (on_runtime f).
Proof.
  intros Hf. apply keeps_intro. intros s (Em & Ep & Hs).
  destruct (on_runtime f s) as [s' r] eqn:Er. apply on_runtime_run in Er as (Er & [Em' Ep'] & _).
  unfold calm. cbn. split_and!; [congruence..|].
  eapply (keeps_run still _ _ (Hf _ _)) in Hs. by rewrite Er in Hs.
Qed.
Lemma calm_receipts {A} (m : issue A) : keeps still_world m → keeps calm (on_receipts m).
Proof.
  intros Hm. apply keeps_intro. intros s (Em & Ep & Hs). unfold on_receipts.
  pose proof (keeps_run still_world m (svc_world s) Hm Hs) as Hw.
  by destruct (m (svc_world s)) as [w r].
Qed.
Lemma calm_readable id : keeps calm (readable_session id).
Proof.
  apply keeps_intro. intros s Hs. unfold readable_session.
  pose proof (keeps_run calm _ s (calm_runtime (λ _ _, session_for_read id)
    (λ _ _, still_session_for_read id)) Hs) as Hc.
  by destruct (on_runtime _ s).
Qed.
#[local] Hint Resolve calm_authenticate calm_rate calm_consult calm_runtime calm_receipts : keeps.
#[local] Hint Resolve calm_readable : keeps.

Lemma calm_read identity session : keeps calm (authorize_session_read identity session).
Proof. unfold authorize_session_read. keeps_steps. Qed.
Lemma calm_found id : keeps calm (found_session id).
Proof. unfold found_session, session_checked. keeps_steps. Qed.
#[local] Hint Resolve calm_read calm_found : keeps.
Lemma calm_access metadata id : keeps calm (authenticate_session_access metadata id).
Proof. unfold authenticate_session_access. keeps_steps. Qed.
Lemma calm_control metadata id verb : keeps calm (authorize_control metadata id verb).
Proof. unfold authorize_control. keeps_steps. Qed.
Lemma calm_ack id outcome : keeps calm (lifecycle_ack id outcome).
Proof. unfold lifecycle_ack, utc_now. keeps_steps. Qed.
#[local] Hint Resolve calm_access calm_control calm_ack : keeps.
Lemma calm_manager metadata : keeps calm (registry_manager metadata).
Proof. unfold registry_manager. keeps_steps. Qed.
#[local] Hint Resolve calm_manager : keeps.

Lemma calm_get_session metadata id : keeps calm (get_session metadata id).
Proof. unfold get_session. keeps_steps. Qed.
Lemma calm_cancel metadata id reason : keeps calm (cancel_session_rpc config metadata id reason).
Proof. unfold cancel_session_rpc. keeps_steps. Qed.
Lemma calm_suspend metadata id reason : keeps calm (suspend_session_rpc metadata id reason).
Proof. unfold suspend_session_rpc. keeps_steps. Qed.
Lemma calm_resume metadata id reason : keeps calm (resume_session_rpc metadata id reason).
Proof. unfold resume_session_rpc. keeps_steps. Qed.
Lemma calm_page metadata req : keeps calm (sessions_page metadata req).
Proof. unfold sessions_page. keeps_steps. Qed.
Lemma calm_receipt metadata id : keeps calm (get_decision_receipt receipts persists metadata id).
Proof. unfold get_decision_receipt. keeps_steps. Qed.
Lemma calm_get_policy metadata id : keeps calm (get_policy metadata id).
Proof. unfold get_policy. keeps_steps. Qed.
Lemma calm_list_policies metadata mode : keeps calm (list_policies_rpc metadata mode).
Proof. unfold list_policies_rpc. keeps_steps. Qed.
Lemma calm_what_if metadata id candidate : keeps calm (what_if_replay_rpc metadata id candidate).
Proof.
  unfold what_if_replay_rpc. keeps_steps. apply keeps_intro. intros s Hs.
  match goal with |- context [on_runtime ?f s] =>
    pose proof (keeps_run calm _ s (calm_runtime f (λ ms _, still_what_if _ _ _)) Hs) as Hc;
    by destruct (on_runtime f s) end.
Qed.
End calm.

(** ** Requests and maintenance *)
Inductive Event :=
| OnSend (busy : string → bool) (metadata : MetadataMap) (envelope : option Envelope)
| OnGetSession (metadata : MetadataMap) (id : string)
| OnCancelSession (metadata : MetadataMap) (id reason : string)
| OnSuspendSession (metadata : MetadataMap) (id reason : string)
| OnResumeSession (metadata : MetadataMap) (id reason : string)
| OnListSessions (metadata : MetadataMap) (req : ListSessionsRequest)
| OnGetDecisionReceipt (metadata : MetadataMap) (id : string)
| OnRegisterExtMode (metadata : MetadataMap) (mode_descriptor : option ModeDescriptor)
| OnUnregisterExtMode (metadata : MetadataMap) (mode : string)
| OnPromoteMode (metadata : MetadataMap) (mode promoted_mode_name : string)
| OnRegisterPolicy (metadata : MetadataMap) (policy_descriptor : option PolicyDescriptor)
| OnUnregisterPolicy (metadata : MetadataMap) (id : string)
| OnGetPolicy (metadata : MetadataMap) (id : string)
| OnListPolicies (metadata : MetadataMap) (mode : string)
| OnWhatIfReplay (metadata : MetadataMap) (id : string) (candidate : option PolicyDescriptor)
| OnCleanup
| OnSweep.

Section serving.
#[local] Existing Instance ListChannels.channels.
#[local] Existing Instance ListChannels.channels_laws.
Context `{HJ : Jsonwebtoken} `{Uuids} `{Message SessionStartPayload} `{Serde PersistedSession}.
Context `{SignalCodec} `{AnnotationCodec} `{FromValue CommitmentRules}.
Context `{FromValue DecisionPolicyRules} `{FromValue ProposalPolicyRules}.
Context `{FromValue TaskPolicyRules} `{FromValue HandoffPolicyRules}.
Context `{FromValue QuorumPolicyRules} `{ToValue DecisionPolicyRules}.
Context `{Sha256, Message CommitmentPayload, Base64Url, Base64Std, Ed25519, JsonText, Chrono}.
Context `{ToJson PassthroughResolution}.
Context (config : RuntimeConfig) (receipts : ReceiptConfig) (persists : bool).
Context (policies_read_only : bool).

Definition handle (e : Event) (s : Service) : Service :=
  match e with
  | OnSend busy metadata envelope => (send config busy metadata envelope s).1
  | OnGetSession metadata id => (get_session metadata id s).1
  | OnCancelSession metadata id reason => (cancel_session_rpc config metadata id reason s).1
  | OnSuspendSession metadata id reason => (suspend_session_rpc metadata id reason s).1
  | OnResumeSession metadata id reason => (resume_session_rpc metadata id reason s).1
  | OnListSessions metadata req => (sessions_page metadata req s).1
  | OnGetDecisionReceipt metadata id => (get_decision_receipt receipts persists metadata id s).1
  | OnRegisterExtMode metadata d => (register_ext_mode metadata d s).1
  | OnUnregisterExtMode metadata mode => (unregister_ext_mode metadata mode s).1
  | OnPromoteMode metadata mode name => (promote_mode_rpc metadata mode name s).1
  | OnRegisterPolicy metadata d => (register_policy policies_read_only metadata d s).1
  | OnUnregisterPolicy metadata id => (unregister_policy policies_read_only metadata id s).1
  | OnGetPolicy metadata id => (get_policy metadata id s).1
  | OnListPolicies metadata mode => (list_policies_rpc metadata mode s).1
  | OnWhatIfReplay metadata id candidate => (what_if_replay_rpc metadata id candidate s).1
  | OnCleanup =>
      (on_runtime (E := MacpError) (λ _ _, cleanup_expired_sessions config) s).1
  | OnSweep =>
      (on_runtime (E := MacpError) (λ modes _, sweep_due_synthetic_accepts config) s).1
  end.
Definition handle_all (events : list Event) (s : Service) : Service :=
  foldl (flip handle) s events.
(** Each event with the state it found. *)
Fixpoint history (events : list Event) (s : Service) : list (Service * Event) :=
  match events with
  | [] => []
  | e :: events => (s, e) :: history events (handle e s)
  end.

(** ** The registries and their managers *)

(** The request that may change the mode registry, and its credentials. *)
Definition mode_request (e : Event) : option MetadataMap :=
  match e with
  | OnRegisterExtMode metadata _ | OnUnregisterExtMode metadata _
  | OnPromoteMode metadata _ _ => Some metadata
  | _ => None
  end.
Definition policy_request (e : Event) : option MetadataMap :=
  match e with
  | OnRegisterPolicy metadata _ | OnUnregisterPolicy metadata _ => Some metadata
  | _ => None
  end.
Definition manager (metadata : MetadataMap) (s : Service) : Prop :=
  ∃ identity, authenticated metadata s identity ∧ ai_can_manage_mode_registry identity = true.

Lemma manager_run metadata s s' r :
  registry_manager metadata s = (s', r) →
  same_registries s s' ∧ svc_world s' = svc_world s ∧ ∀ identity, r = Ok identity → manager metadata s.
Proof.
  unfold registry_manager. intros (r0 & E & ->)%or_status_run. rewrite bind_run in E.
  destruct (authenticate metadata s) as [s1 r1] eqn:Ea.
  apply authenticate_run in Ea as (Hw & Hreg & _ & _ & Hid).
  destruct r1 as [identity|e]; [|injection E as <- <-; by split_and!].
  rewrite bind_run in E. unfold st_read at 1, authorize_mode_registry in E.
  destruct (ai_can_manage_mode_registry identity) eqn:Em; injection E as <- <-; split_and!; try done.
  intros ? _. exists identity. split; [exact (eq_sym Hid)|done].
Qed.

(** Nothing else touches them. *)
Section unchanged.
Context (modes0 : ModeRegistry) (policies0 : PolicyRegistry).
Definition unchanged (s : Service) : Prop := svc_modes s = modes0 ∧ svc_policies s = policies0.

Lemma unchanged_intro {E A} (m : stm Service E A) :
  (∀ s s' r, m s = (s', r) → same_registries s s') → keeps unchanged m.
Proof.
  intros Hm. apply keeps_intro. intros s [Em Ep]. destruct (m s) as [s' r] eqn:Es.
  apply Hm in Es as [Em' Ep']. split; cbn; congruence.
Qed.
Lemma unchanged_authenticate metadata : keeps unchanged (authenticate metadata).
Proof. apply unchanged_intro. by intros s s' r (_ & ? & _)%authenticate_run. Qed.
Lemma unchanged_rate sender start : keeps unchanged (rate_limit sender start).
Proof. apply unchanged_intro. by intros s s' r (_ & ? & _)%rate_limit_run. Qed.
Lemma unchanged_consult {E} f : keeps unchanged (consult f : stm Service E _).
Proof. apply unchanged_intro. by intros s s' r (_ & ? & _)%consult_run. Qed.
Lemma unchanged_runtime {E A} (f : ModeSource → PolicySource → stm Server E A) :
  keeps unchanged (on_runtime f).
Proof. apply unchanged_intro. by intros s s' r (_ & ? & _)%on_runtime_run. Qed.
Lemma unchanged_receipts {A} (m : issue A) : keeps unchanged (on_receipts m).
Proof. apply keeps_intro. intros s Hs. unfold on_receipts. by destruct (m (svc_world s)). Qed.
#[local] Hint Resolve unchanged_authenticate unchanged_rate unchanged_consult : keeps.
#[local] Hint Resolve unchanged_runtime unchanged_receipts : keeps.
Lemma unchanged_readable id : keeps unchanged (readable_session id).
Proof.
  apply keeps_intro. intros s Hs. unfold readable_session.
  pose proof (keeps_run unchanged _ s (unchanged_runtime (λ _ _, session_for_read id)) Hs) as Hc.
  by destruct (on_runtime _ s).
Qed.
#[local] Hint Resolve unchanged_readable : keeps.

Lemma unchanged_handle e s :
  mode_request e = None → policy_request e = None → unchanged s → unchanged (handle e s).
Proof.
  intros Hm Hp Hs. destruct e; try discriminate; cbn [handle]; (apply keeps_run; [|exact Hs]).
  - unfold send, send_authenticated, send_envelope, authorize_send, enforce_ingress_policy,
      finish_send, utc_now, session_checked, has_engine. keeps_steps.
  - unfold get_session, authenticate_session_access, authorize_session_read, found_session,
      session_checked. keeps_steps.
  - unfold cancel_session_rpc, authorize_control, found_session, session_checked, lifecycle_ack,
      utc_now. keeps_steps.
  - unfold suspend_session_rpc, authorize_control, found_session, session_checked, lifecycle_ack,
      utc_now. keeps_steps.
  - unfold resume_session_rpc, authorize_control, found_session, session_checked, lifecycle_ack,
      utc_now. keeps_steps.
  - unfold sessions_page. keeps_steps.
  - unfold get_decision_receipt, authorize_session_read. keeps_steps.
  - unfold get_policy. keeps_steps.
  - unfold list_policies_rpc. keeps_steps.
  - unfold what_if_replay_rpc, authenticate_session_access, authorize_session_read, found_session,
      session_checked. keeps_steps. apply keeps_intro. intros s1 Hs1.
    match goal with |- context [on_runtime ?f s1] =>
      pose proof (keeps_run unchanged _ s1 (unchanged_runtime f) Hs1) as Hc;
      by destruct (on_runtime f s1) end.
  - apply unchanged_runtime.
  - apply unchanged_runtime.
Qed.
End unchanged.

(** A request behind the manager check. *)
Lemma managed_run {A} metadata (m : AuthIdentity → stm Service Status A) s :
  ∃ s1, same_registries s s1 ∧ svc_world s1 = svc_world s ∧
    ((st_bind (registry_manager metadata) m s).1 = s1 ∨
     manager metadata s ∧ ∃ identity, st_bind (registry_manager metadata) m s = m identity s1).
Proof.
  rewrite bind_run. destruct (registry_manager metadata s) as [s1 r] eqn:E.
  apply manager_run in E as (Hreg & Hw & Hman). exists s1. split_and!; [done|done|].
  destruct r as [identity|e]; [|by left]. right. split; [by eapply Hman|]. by exists identity.
Qed.

(** What a registry request leaves of the rest. *)
Lemma mode_request_run e metadata s :
  mode_request e = Some metadata →
  svc_policies (handle e s) = svc_policies s ∧ svc_server (handle e s) = svc_server s ∧
  (svc_modes (handle e s) = svc_modes s ∨
   manager metadata s ∧ (lawful (svc_modes s) → lawful (svc_modes (handle e s)))).
Proof.
  assert (∀ {A} (m : stm ModeRegistry text A) s1, same_registries s s1 →
    svc_world s1 = svc_world s → manager metadata s →
    (∀ r, lawful r → lawful (m r).1) →
    svc_policies (on_modes m s1).1 = svc_policies s ∧ svc_server (on_modes m s1).1 = svc_server s ∧
    (svc_modes (on_modes m s1).1 = svc_modes s ∨
     manager metadata s ∧ (lawful (svc_modes s) → lawful (svc_modes (on_modes m s1).1)))) as Hon.
  { intros A m s1 [Em Ep] Hw Hman Hm. unfold on_modes, svc_server. specialize (Hm (svc_modes s1)).
    destruct (m (svc_modes s1)) as [modes1 r]. cbn. rewrite Hw, <- Em. auto. }
  assert (∀ s1, same_registries s s1 → svc_world s1 = svc_world s →
    svc_policies s1 = svc_policies s ∧ svc_server s1 = svc_server s ∧
    (svc_modes s1 = svc_modes s ∨
     manager metadata s ∧ (lawful (svc_modes s) → lawful (svc_modes s1)))) as Hsame.
  { intros s1 [Em Ep] Hw. unfold svc_server. rewrite Hw. auto. }
  destruct e; try done; intros [= ->]; cbn [handle]; unfold register_ext_mode, unregister_ext_mode,
    promote_mode_rpc;
    match goal with |- context [st_bind _ ?m s] =>
      destruct (managed_run metadata m s) as (s1 & Hreg & Hw & [->|[Hman [identity ->]]]) end;
    try (by apply Hsame).
  - rewrite bind_run. unfold st_read. destruct mode_descriptor as [d|]; cbn [ok_or]; [|by apply Hsame].
    apply Hon; [done..|]. intros r. apply lawful_register.
  - apply Hon; [done..|]. intros r. apply lawful_unregister.
  - apply Hon; [done..|]. intros r. apply lawful_promote.
Qed.

Lemma policy_request_run e metadata s :
  policy_request e = Some metadata →
  svc_modes (handle e s) = svc_modes s ∧ svc_server (handle e s) = svc_server s ∧
  (svc_policies (handle e s) = svc_policies s ∨ policies_read_only = false ∧ manager metadata s).
Proof.
  assert (∀ {A} (m : stm PolicyRegistry text A) s1, same_registries s s1 →
    svc_world s1 = svc_world s → svc_modes (on_policies m s1).1 = svc_modes s ∧
    svc_server (on_policies m s1).1 = svc_server s) as Hon.
  { intros A m s1 [Em Ep] Hw. unfold on_policies, svc_server. destruct (m (svc_policies s1)).
    cbn. by rewrite Hw. }
  assert (∀ s1, same_registries s s1 → svc_world s1 = svc_world s →
    svc_modes s1 = svc_modes s ∧ svc_server s1 = svc_server s ∧
    (svc_policies s1 = svc_policies s ∨ policies_read_only = false ∧ manager metadata s)) as Hsame.
  { intros s1 [Em Ep] Hw. unfold svc_server. rewrite Hw. auto. }
  destruct e; try done; intros [= ->]; cbn [handle]; unfold register_policy, unregister_policy;
    rewrite bind_run; unfold writable_policies; destruct policies_read_only; try (by apply Hsame);
    cbn [st_ret];
    match goal with |- context [st_bind _ ?m s] =>
      destruct (managed_run metadata m s) as (s1 & Hreg & Hw & [->|[Hman [identity ->]]]) end;
    try (by apply Hsame).
  - rewrite bind_run. unfold st_read. destruct policy_descriptor as [d|]; cbn [ok_or]; [|by apply Hsame].
    destruct (Hon _ (register (policy_descriptor_to_definition d)) s1 Hreg Hw). auto.
  - destruct (Hon _ (unregister id) s1 Hreg Hw). auto.
Qed.

(** The registries after one event. *)
Lemma handle_registries e s :
  (svc_modes (handle e s) = svc_modes s ∨
   ∃ metadata, mode_request e = Some metadata ∧ manager metadata s) ∧
  (svc_policies (handle e s) = svc_policies s ∨
   policies_read_only = false ∧ ∃ metadata, policy_request e = Some metadata ∧ manager metadata s).
Proof.
  destruct (mode_request e) as [metadata|] eqn:Em.
  { destruct (mode_request_run e metadata s Em) as (Hp & _ & Hm). split; [|by left].
    destruct Hm as [?|[? _]]; [by left|right]. by exists metadata. }
  destruct (policy_request e) as [metadata|] eqn:Ep.
  { destruct (policy_request_run e metadata s Ep) as (Hm & _ & Hp). split; [by left|].
    destruct Hp as [?|[? ?]]; [by left|right]. split; [done|]. by exists metadata. }
  destruct (unchanged_handle (svc_modes s) (svc_policies s) e s Em Ep) as [-> ->]; [done|]. auto.
Qed.

(** C33. The registries answer to their managers. Whatever requests come and
    whatever the maintenance loops do, the modes that are registered are the
    ones the service started with, unless one of the requests was a mode
    request whose caller authenticated with the right to manage the registry;
    and so for the policies, which cannot change at all when they were loaded
    from files. *)
Theorem registries_need_manager events s :
  let s' := handle_all events s in
  (svc_modes s' = svc_modes s ∨
   ∃ s1 e metadata, (s1, e) ∈ history events s ∧ mode_request e = Some metadata ∧
     manager metadata s1) ∧
  (svc_policies s' = svc_policies s ∨
   policies_read_only = false ∧
   ∃ s1 e metadata, (s1, e) ∈ history events s ∧ policy_request e = Some metadata ∧
     manager metadata s1).
Proof.
  cbn. revert s. induction events as [|e events IH]; intros s; [by split; left|].
  destruct (handle_registries e s) as [Hm Hp]. destruct (IH (handle e s)) as [IHm IHp].
  unfold handle_all in *. cbn [foldl history flip] in *. split.
  - destruct Hm as [Hm|(metadata & ? & ?)]; [|right; exists s, e, metadata; set_solver].
    rewrite <- Hm. destruct IHm as [?|(s1 & e1 & metadata & ? & ? & ?)]; [by left|].
    right. exists s1, e1, metadata. set_solver.
  - destruct Hp as [Hp|(Hro & metadata & ? & ?)]; [|right; split; [done|exists s, e, metadata; set_solver]].
    rewrite <- Hp. destruct IHp as [?|(Hro & s1 & e1 & metadata & ? & ? & ?)]; [by left|].
    right. split; [done|]. exists s1, e1, metadata. set_solver.
Qed.

(** ** Every envelope accounted for *)

(** How [env] came to the stream when the event [e] found the state [s]: a mode
    synthesized it, or an admitted caller sent it, and then it bears that
    caller's name. *)
Definition accounted (s : Service) (e : Event) (env : Envelope) : Prop :=
  synthetic_of s env ∨
  ∃ busy metadata sent identity, e = OnSend busy metadata (Some sent) ∧
    admitted metadata sent s identity ∧ env = with_sender (ai_sender identity) sent.

(** A handler under which nothing is accepted. *)
Lemma calm_grows tid s s' :
  svc_ready tid s → calm tid (accepted tid (svc_server s)) (svc_modes s) (svc_policies s) s' →
  svc_ready tid s' ∧ accepted tid (svc_server s') = accepted tid (svc_server s).
Proof.
  intros [Hl _] (Em & Ep & Hs). split; [|by destruct Hs as (_ & _ & <-)].
  split; [by rewrite Em|by eapply rest_anything].
Qed.
Lemma ready_calm tid s :
  svc_ready tid s → calm tid (accepted tid (svc_server s)) (svc_modes s) (svc_policies s) s.
Proof. intros [_ (_ & Hc & _)]. by split_and!. Qed.
Lemma lawful_ready tid s s' :
  svc_ready tid s → lawful (svc_modes s') → svc_server s' = svc_server s → svc_ready tid s'.
Proof. intros [_ Hr] Hl%lawful_source Es. split; [done|by rewrite Es]. Qed.

(** Maintenance adds only what modes synthesize. *)
Lemma maintenance_grows tid c s s' (m : ModeSource → PolicySource → stm Server MacpError ()) :
  tid ≠ "" → svc_ready tid s → (∀ busy max_open env, c ≠ CallProcess busy max_open env) →
  (m (registry_source (svc_modes s)) (resolved (svc_policies s)) (svc_server s)).1
    = serve_one (H2 := registry_source (svc_modes s)) (resolved (svc_policies s)) config c (svc_server s) →
  (on_runtime m s).1 = s' →
  svc_ready tid s' ∧ ∃ syn, Forall (synthetic_of s) syn ∧
    accepted tid (svc_server s') = accepted tid (svc_server s) ++ syn.
Proof.
  intros Ht [Hl Hr] Hc Hm. destruct (on_runtime m s) as [s1 r] eqn:E. intros <-. cbn [fst].
  apply on_runtime_run in E as (E & [Em _] & _). rewrite E in Hm. cbn [fst] in Hm. rewrite Hm.
  pose proof (serve_one_leaves (H3 := Hl) tid Ht (resolved (svc_policies s)) config c (svc_server s) Hr Hc)
    as Hleft.
  split.
  - split; [by rewrite Em|]. rewrite Hm. by eapply rest_anything.
  - destruct Hleft as (_ & _ & syn & Hacc & Hf). exists syn. split; [|done].
    eapply Forall_impl; [exact Hf|]. intros env (session & mode & now & ? & ?).
    by exists session, mode, now.
Qed.

Lemma handle_quiet tid e s :
  svc_ready tid s → mode_request e = None → policy_request e = None →
  match e with OnSend _ _ _ | OnCleanup | OnSweep => False | _ => True end →
  svc_ready tid (handle e s) ∧
  accepted tid (svc_server (handle e s)) = accepted tid (svc_server s).
Proof.
  intros Hready Hm Hp He. apply calm_grows; [done|]. pose proof (ready_calm _ _ Hready) as Hs.
  destruct e; try done; cbn [handle]; (apply keeps_run; [|exact Hs]);
    auto using calm_get_session, calm_cancel, calm_suspend, calm_resume, calm_page, calm_receipt,
      calm_get_policy, calm_list_policies, calm_what_if.
Qed.
Lemma send_accounts tid busy metadata envelope s :
  tid ≠ "" → svc_ready tid s → let e := OnSend busy metadata envelope in
  svc_ready tid (handle e s) ∧ ∃ entered, Forall (accounted s e) entered ∧
    accepted tid (svc_server (handle e s)) = accepted tid (svc_server s) ++ entered.
Proof.
  intros Ht Hready e. destruct envelope as [sent|].
  2:{ split; [done|]. exists []. split; [constructor|by rewrite app_nil_r]. }
  cbn [handle e]. destruct (send config busy metadata (Some sent) s) as [s' r] eqn:Es. cbn [fst].
  destruct (send_grows config busy tid metadata sent s s' r Ht Hready Es)
    as (Hr & syn & entered & Hsyn & Ha & Hin).
  split; [done|]. exists (syn ++ entered). split; [|done]. apply Forall_app. split.
  - eapply Forall_impl; [exact Hsyn|]. by left.
  - apply Forall_forall. intros env (identity & Had & ->)%Hin. right.
    by exists busy, metadata, sent, identity.
Qed.
Lemma handle_accounts tid e s :
  tid ≠ "" → svc_ready tid s →
  svc_ready tid (handle e s) ∧ ∃ entered, Forall (accounted s e) entered ∧
    accepted tid (svc_server (handle e s)) = accepted tid (svc_server s) ++ entered.
Proof.
  intros Ht Hready.
  assert (∀ s', svc_ready tid s' → accepted tid (svc_server s') = accepted tid (svc_server s) →
    svc_ready tid s' ∧ ∃ entered, Forall (accounted s e) entered ∧
      accepted tid (svc_server s') = accepted tid (svc_server s) ++ entered) as Hnone.
  { intros s' Hr Ha. split; [done|]. exists []. split; [constructor|by rewrite app_nil_r]. }
  destruct (mode_request e) as [metadata|] eqn:Em.
  { destruct (mode_request_run e metadata s Em) as (_ & Hsv & Hl).
    apply Hnone; [|by rewrite Hsv]. eapply lawful_ready; [done| |done].
    pose proof (proj2 (lawful_source _) (proj1 Hready)) as Hlaw. destruct Hl as [->|[_ ?]]; auto. }
  destruct (policy_request e) as [metadata|] eqn:Ep.
  { destruct (policy_request_run e metadata s Ep) as (Hm & Hsv & _).
    apply Hnone; [|by rewrite Hsv]. eapply lawful_ready; [done| |done]. rewrite Hm.
    by apply lawful_source, Hready. }
  destruct e; try discriminate;
    try (by destruct (handle_quiet tid _ s Hready Em Ep I); apply Hnone).
  - by apply send_accounts.
  - destruct (maintenance_grows tid CallCleanup s _ (λ _ _, cleanup_expired_sessions config)
      Ht Hready ltac:(done) eq_refl eq_refl) as (Hr & syn & Hf & Ha).
    split; [done|]. exists syn. split; [|done]. eapply Forall_impl; [exact Hf|]. by left.
  - destruct (maintenance_grows tid CallSweep s _ (λ modes _, sweep_due_synthetic_accepts config)
      Ht Hready ltac:(done) eq_refl eq_refl) as (Hr & syn & Hf & Ha).
    split; [done|]. exists syn. split; [|done]. eapply Forall_impl; [exact Hf|]. by left.
Qed.

End serving.

Module Demo.
#[local] Existing Instance demo_uuids.
#[local] Existing Instance Step.Demo.m_start.
#[local] Existing Instance Step.Demo.to_json_resolution.
#[local] Existing Instance Durable.Demo.signals.
#[local] Existing Instance Durable.Demo.annotations.
#[local] Existing Instance Durable.Demo.snapshots.
#[local] Existing Instance PolicyAdmission.Demo.decision_doc.
#[local] Existing Instance PolicyAdmission.Demo.proposal_doc.
#[local] Existing Instance PolicyAdmission.Demo.task_doc.
#[local] Existing Instance PolicyAdmission.Demo.handoff_doc.
#[local] Existing Instance PolicyAdmission.Demo.quorum_doc.
#[local] Existing Instance PolicyAdmission.Demo.commitment_doc.
#[local] Existing Instance PolicyAdmission.Demo.decision_value.
#[local] Existing Instance UrlSafe.engine.
#[local] Existing Instance PlainKeys.scheme.
#[local] Existing Instance FlatJson.reader.
#[local] Existing Instance demo_sha.
#[local] Existing Instance demo_commitment_message.
#[local] Existing Instance Receipt.Demo.std_engine.
#[local] Existing Instance ReceiptIssue.Demo.millis.
#[local] Existing Instance Auth.Demo.jwt.

Definition notes : ModeRegistry := MkModeRegistry
  {["ext.notes.v1" := MkModeRegistration "ext.notes.v1" Step.Demo.mode None ∅
     (MkModeConformanceCatalog "" [] []) false false false]} 0.
Definition service : Service := MkService
  (fresh (boot (λ _, true) Durable.Demo.empty_server)) dev_mode (MkRateBucket empty_bucket empty_bucket) notes registry_new
  None (λ _, MkAuthWorld (λ _, 0) id (λ _, HttpSendFailed "")) (λ _, 0).
Lemma service_ready : svc_ready Step.Demo.id service.
Proof.
  split.
  - apply lawful_source. apply map_Forall_singleton. split; apply _.
  - split_and!; [done| |done]. split; cbn; [by intros ? ? ?%lookup_empty_Some|by rewrite lookup_empty].
Qed.
Definition as_alice : MetadataMap := λ k,
  if k == "authorization" then Some "Bearer alice" else None.
Definition run : list Event :=
  [OnSend (λ _, false) as_alice (Some Step.Demo.start);
   OnSuspendSession as_alice Step.Demo.id "";
   OnRegisterExtMode as_alice (Some ModeRegistry.Demo.poll)].
Definition finished : Service :=
  handle_all Durable.Demo.config ReceiptIssue.Demo.config false false run service.
Lemma finished_accepted : accepted Step.Demo.id (svc_server finished) = [Step.Demo.start].
Proof. vm_compute. reflexivity. Qed.

End Demo.
