(* ===== verification/StreamFrames.v ===== *)
(** * The StreamSession RPC (src/server.rs)

    One bidirectional stream: the frames a client sends on it, the subscription
    it reads, and the loop that serves both. Every envelope frame passes the
    gates of Send. *)

From stdpp Require Import prelude gmap strings.
From S2P Require Import Prelude RustStr Floats Extern PolicyKeys Error Policy Wire SessionData.
From S2P Require Import Session SessionStart CommitmentHash Concrete MultiRound ModeApi Laws Blind Step.
From S2P Require Import Log LogReplay Runtime PolicyRegistry PolicyAdmission Recovery Durable ModeRegistry.
From S2P Require Import WhatIf WhatIfLog Auth RateLimit Base64 Pagination Json ReceiptKeys Receipt.
From S2P Require Import ReceiptIssue Stream Accepted Service Access Serving.
Open Scope Z_scope.

(** ** Frames, answers and refusals *)
Record StreamSessionRequest := MkStreamSessionRequest {
  sr_subscribe_session_id : string;
  sr_after_sequence : Z;
  sr_envelope : option Envelope;
}.
Inductive StreamSessionResponse :=
| ResponseEnvelope (e : Envelope)
| ResponseError (e : PbMacpError).

(** [Terminal] ends the stream, the others refuse one frame. *)
Inductive StreamFailure :=
| Terminal (status : Status)
| Rejected (err : MacpError) (message_id : string)
| Inline (code : string) (message : text).
(** [StreamFailure::terminal]. *)
Definition terminal (err : MacpError) (msg : text) : StreamFailure := Terminal (err, msg).

Inductive SubscribeError :=
| SubUnknownSession (session_id : string)
| SubForbidden (message : text)
| SubHistoryUnavailable (lowest_available_sequence : Z).

Definition history_unavailable_status (lowest_available_sequence : Z) : Status :=
  (HistoryUnavailable,
   [Lit "session history before ordinal "; FInt lowest_available_sequence;
    Lit " was compacted; resume with after_sequence >= "; FInt lowest_available_sequence;
    Lit " or re-read state via GetSession"]).
Definition subscribe_status (e : SubscribeError) : Status :=
  match e with
  | SubUnknownSession id => session_not_found id
  | SubForbidden message => (Forbidden, message)
  | SubHistoryUnavailable lowest => history_unavailable_status lowest
  end.
Definition into_stream_failure (e : SubscribeError) : StreamFailure :=
  match e with
  | SubUnknownSession _ | SubHistoryUnavailable _ => Terminal (subscribe_status e)
  | SubForbidden message => Inline (error_code Forbidden) message
  end.
Definition lagged_status (lagged : StreamLagged) : Status :=
  (Error.StreamLagged, [Lit "StreamSession receiver fell behind by "; FInt (sl_skipped lagged);
                  Lit " envelopes"]).

Definition stream_inline_error (err : MacpError) (session_id : option string) (message_id : string)
    : StreamSessionResponse :=
  ResponseError (MkPbMacpError (error_code err) [Lit (error_display err)] (default "" session_id) message_id
    (error_details err)).

(** ** One stream *)
Section stream.
Context `{HJ : Jsonwebtoken} `{HB : Broadcast Envelope}.

(** The server the stream runs on, its bus, and the two variables of the loop. *)
Record StreamState := MkStreamState {
  st_service : Service;
  st_bus : Bus;
  st_bound : option string;
  st_events : option SubscriptionCursor;
}.
Definition set_bus (b : Bus) (st : StreamState) : StreamState :=
  MkStreamState (st_service st) b (st_bound st) (st_events st).
Definition set_bound (id : string) (st : StreamState) : StreamState :=
  MkStreamState (st_service st) (st_bus st) (Some id) (st_events st).
Definition set_events (c : SubscriptionCursor) (st : StreamState) : StreamState :=
  MkStreamState (st_service st) (st_bus st) (st_bound st) (Some c).

(** A call of the server: what the runtime publishes goes out on the bus. *)
Definition publish_all (l : list Envelope) (b : Bus) : Bus := foldl (flip stream_publish) b l.
Definition on_server_of {E F A} (to : E → F) (m : stm Service E A) : stm StreamState F A := λ st,
  let '(s, r) := m (st_service st) in
  let fresh := drop (length (sv_published (svc_server (st_service st)))) (sv_published (svc_server s)) in
  (MkStreamState s (publish_all fresh (st_bus st)) (st_bound st) (st_events st),
   match r with Ok a => Ok a | Err e => Err (to e) end).

Definition subscribe_session_stream {E} (id : string) : stm StreamState E Receiver := λ st,
  let '(b, r) := bus_subscribe id (st_bus st) in (set_bus b st, Ok r).

Definition live (cursor : option SubscriptionCursor) : bool :=
  match cursor with Some c => is_live c | None => false end.

Definition bind_live (id : string) : stm StreamState StreamFailure unit :=
  (let! attached := st_read (λ st, Ok (live (st_events st))) in
   if attached then st_ret ()
   else
     do! st_mod (set_bound id);
     let! receiver := subscribe_session_stream id in
     st_mod (λ st, set_events match st_events st with
                              | Some cursor => attach receiver cursor
                              | None => cursor_new receiver
                              end st))%stm.

(** ** Subscribing *)
Definition authorize_subscription `{Serde PersistedSession} (identity : AuthIdentity)
    (session_id : string) : stm StreamState SubscribeError unit :=
  (let! session := on_server_of (λ _, SubUnknownSession session_id) (session_checked session_id) in
   match session with
   | None => st_fail (SubUnknownSession session_id)
   | Some session =>
       if negb (may_read identity session) then
         st_fail (SubForbidden
           [Lit "caller is not a declared participant or observer for this session"])
       else
         let! decision := on_server_of (E := SubscribeError) id
           (consult (λ e, evaluate_session_access e identity session)) in
         match decision with
         | Some decision =>
             st_read (λ _, match require_allow decision "session access" with
                           | Ok _ => Ok ()
                           | Err (_, message) => Err (SubForbidden message)
                           end)
         | None => st_ret ()
         end
   end)%stm.

(** The snapshot read into the stream's cursor. *)
Definition load_subscription_snapshot (session_id : string) (after_sequence : Z)
    (cursor : SubscriptionCursor) : stm StreamState SubscribeError SubscriptionCursor :=
  st_read (λ st,
    match load_snapshot session_id after_sequence (sv_log (svc_server (st_service st))) cursor with
    | Ok cursor => Ok cursor
    | Err base => Err (SubHistoryUnavailable base)
    end).

(** A cursor that is dropped leaves the bus. *)
Definition or_leave {A} (receiver : Receiver) (m : stm StreamState SubscribeError A)
    : stm StreamState SubscribeError A := λ st,
  match m st with
  | (st, Ok a) => (st, Ok a)
  | (st, Err e) => (set_bus (bus_leave receiver (st_bus st)) st, Err e)
  end.

Section subscribing.
Context `{Serde PersistedSession}.
Definition open_subscription (identity : AuthIdentity) (session_id : string) (after_sequence : Z)
    : stm StreamState SubscribeError SubscriptionCursor :=
  (do! authorize_subscription identity session_id;
   let! receiver := subscribe_session_stream session_id in
   or_leave receiver
     (load_subscription_snapshot session_id after_sequence (cursor_new receiver)))%stm.

Definition as_failure {A} (m : stm StreamState SubscribeError A) : stm StreamState StreamFailure A :=
  λ st,
  let '(st, r) := m st in
  (st, match r with Ok a => Ok a | Err e => Err (into_stream_failure e) end).

(** One session per stream. *)
Definition one_session (session_id : string) : stm StreamState StreamFailure unit :=
  st_read (λ st,
    match st_bound st with
    | Some bound =>
        if bound != session_id then
          Err (terminal InvalidEnvelope
            [Lit "StreamSession may only carry envelopes for one session_id"])
        else Ok ()
    | None => Ok ()
    end).

Definition process_subscribe_frame (identity : AuthIdentity) (session_id : string)
    (after_sequence : Z) : stm StreamState StreamFailure (list Envelope) :=
  (do! one_session session_id;
   let! events := st_read (λ st, Ok (st_events st)) in
   do! match events with
       | Some cursor =>
           do! as_failure (authorize_subscription identity session_id);
           do! (if negb (is_live cursor) then
                  do! st_mod (set_bound session_id);
                  let! receiver := subscribe_session_stream session_id in
                  st_mod (set_events (attach receiver cursor))
                else st_ret ());
           let! cursor := st_read (λ st, Ok (default cursor (st_events st))) in
           let! cursor := as_failure (load_subscription_snapshot session_id after_sequence cursor) in
           st_mod (set_events cursor)
       | None =>
           let! cursor := as_failure (open_subscription identity session_id after_sequence) in
           do! st_mod (set_bound session_id);
           st_mod (set_events cursor)
       end;
   let! events := st_read (λ st, Ok (st_events st)) in
   match events with
   | Some cursor =>
       let '(cursor, replay) := take_replay cursor in
       do! st_mod (set_events cursor);
       st_ret (snd <$> replay)
   | None => st_ret []
   end)%stm.
End subscribing.

(** ** Sending on the stream *)
Context `{Uuids} `{Message SessionStartPayload} `{Serde PersistedSession}.
Context `{SignalCodec} `{AnnotationCodec} `{FromValue CommitmentRules}.
Context (config : RuntimeConfig).

Section sending.
Context (busy : string → bool).
(** The stream's own checks of a frame, on the session it names. *)
Definition frame_checks (env : Envelope) : stm StreamState StreamFailure unit :=
  (if env_message_type env != "SessionStart" then
     let! session := on_server_of (λ e, Rejected e (env_message_id env))
       (session_checked (env_session_id env)) in
     match session with
     | Some session =>
         if env_mode env != ss_mode session then
           st_fail (terminal InvalidEnvelope
             [Lit "INVALID_ENVELOPE: envelope mode does not match the bound session mode"])
         else if ss_state session != Open then
           st_fail (terminal InvalidEnvelope [Lit "SESSION_NOT_OPEN"])
         else st_ret ()
     | None =>
         if env_message_type env == "Signal" then
           st_fail (Terminal (session_not_found (env_session_id env)))
         else st_ret ()
     end
   else st_ret ())%stm.

(** The gates on an envelope under its sender's name, and the runtime. *)
Definition submit_frame (identity : AuthIdentity) (env : Envelope)
    : stm StreamState StreamFailure bool :=
  let gate {A} (m : stm Service MacpError A) :=
    on_server_of (λ e, Rejected e (env_message_id env)) m in
  let is_session_start := env_message_type env == "SessionStart" in
  (do! frame_checks env;
   do! gate (st_read (λ _, authorize_mode identity (env_mode env) is_session_start));
   do! gate (enforce_ingress_policy identity env);
   do! gate (rate_limit (ai_sender identity) is_session_start);
   do! bind_live (env_session_id env);
   let! result := gate (on_runtime (λ modes policies,
     process policies config busy (max_open identity env) env)) in
   st_ret (pr_duplicate result))%stm.
(** [Ok(duplicate)]. *)
Definition process_stream_envelope (identity : AuthIdentity) (envelope : Envelope)
    : stm StreamState StreamFailure bool :=
  let gate {A} (m : stm Service MacpError A) :=
    on_server_of (λ e, Rejected e (env_message_id envelope)) m in
  (do! gate (st_read (λ s,
     validate_envelope_shape (sl_max_payload_bytes (svc_layer s)) envelope));
   if blank (env_session_id envelope) then
     st_fail (terminal InvalidEnvelope [Lit "StreamSession requires a non-empty session_id"])
   else if blank (env_mode envelope) then
     st_fail (terminal InvalidEnvelope [Lit "StreamSession requires a non-empty mode"])
   else
     do! one_session (env_session_id envelope);
     let! env := gate (st_read (λ _, apply_authenticated_sender identity envelope)) in
     submit_frame identity env)%stm.

(** The envelopes of a replay, for a subscribe frame. *)
Definition process_stream_request (identity : AuthIdentity) (req : StreamSessionRequest)
    : stm StreamState StreamFailure (list Envelope) :=
  if negb (str_is_empty (sr_subscribe_session_id req)) then
    if sr_envelope req then
      st_fail (terminal InvalidEnvelope
        [Lit "StreamSessionRequest must not contain both envelope and subscribe_session_id"])
    else process_subscribe_frame identity (sr_subscribe_session_id req) (sr_after_sequence req)
  else
    match sr_envelope req with
    | None =>
        st_fail (terminal InvalidEnvelope
          [Lit "StreamSessionRequest must contain an envelope or subscribe_session_id"])
    | Some envelope => (do! process_stream_envelope identity envelope; st_ret [])%stm
    end.
End sending.

(** ** The loop ([build_stream_session_stream]) *)

(** What the client's half of the stream yields; the steps of the loop: a branch
    of its [select!], or one turn of a drain, which yields between envelopes; and
    what other handlers do to the server in between. *)
Inductive Incoming :=
| InRequest (busy : string → bool) (req : StreamSessionRequest)
| InError (status : Status)
| InDone.
Inductive Arm := ArmInbound (i : Incoming) | ArmEvents | ArmDrain | ArmOthers (e : Event).
(** Where the loop stands: in its [select!], in the drain that follows a request
    or the one before the end, or ended, with the status it ends with. *)
Inductive Flow := Selecting | Draining (closing : bool) | Finished (error : option Status).

(** A turn of [while let Some(envelope) = try_next_stream_event(..)?]. *)
Definition drain (closing : bool) (st : StreamState)
    : option (StreamState * list StreamSessionResponse * Flow) :=
  '(events, w, out) ← try_next_stream_event (st_events st) (bus_chans (st_bus st));
  let st := MkStreamState (st_service st) (MkBusState (bus_map (st_bus st)) w)
              (st_bound st) events in
  match out with
  | Err lagged => Some (st, [], Finished (Some (lagged_status lagged)))
  | Ok None => Some (st, [], if closing then Finished None else Selecting)
  | Ok (Some envelope) => Some (st, [ResponseEnvelope envelope], Draining closing)
  end.

(** What a frame is answered with, or the status that ends the stream. *)
Definition frame_answer (bound : option string) (r : result StreamFailure (list Envelope))
    : result Status (list StreamSessionResponse) :=
  match r with
  | Ok replay => Ok (ResponseEnvelope <$> replay)
  | Err (Terminal status) => Err status
  | Err (Inline code message) => Ok [ResponseError (MkPbMacpError code message (default "" bound) "" [])]
  | Err (Rejected err message_id) =>
      if is_stream_terminal_error err then Err (status_from_error err)
      else Ok [stream_inline_error err bound message_id]
  end.

Definition serve_request (identity : AuthIdentity) (busy : string → bool)
    (req : StreamSessionRequest) (st : StreamState)
    : StreamState * list StreamSessionResponse * Flow :=
  let '(st, r) := process_stream_request busy identity req st in
  match frame_answer (st_bound st) r with
  | Err status => (st, [], Finished (Some status))
  | Ok out => (st, out, Draining false)
  end.

Context `{FromValue DecisionPolicyRules} `{FromValue ProposalPolicyRules}.
Context `{FromValue TaskPolicyRules} `{FromValue HandoffPolicyRules}.
Context `{FromValue QuorumPolicyRules} `{ToValue DecisionPolicyRules}.
Context `{Sha256, Message CommitmentPayload, Base64Url, Base64Std, Ed25519, JsonText, Chrono}.
Context `{ToJson PassthroughResolution}.
Context (receipts : ReceiptConfig) (persists : bool) (policies_read_only : bool).

Definition others (e : Event) : stm Service Status unit := λ s,
  (handle config receipts persists policies_read_only e s, Ok ()).

(** The branches of the [select!]. The bus is only waited on while the stream is
    attached to it. *)
Definition select (identity : AuthIdentity) (arm : Arm) (st : StreamState)
    : option (StreamState * list StreamSessionResponse * Flow) :=
  match arm with
  | ArmInbound (InRequest busy req) => Some (serve_request identity busy req st)
  | ArmInbound (InError status) => Some (st, [], Finished (Some status))
  | ArmInbound InDone =>
      Some (st, [], if live (st_events st) then Draining true else Finished None)
  | ArmEvents =>
      match st_events st with
      | Some cursor =>
          if is_live cursor then
            '(cursor, w, out) ← poll cursor (bus_chans (st_bus st));
            let st := MkStreamState (st_service st) (MkBusState (bus_map (st_bus st)) w)
                        (st_bound st) (Some cursor) in
            match out with
            | Ok (NextItem _ envelope) => Some (st, [ResponseEnvelope envelope], Selecting)
            | Ok NextClosed | Ok NextEmpty => Some (st, [], Selecting)
            | Err lagged => Some (st, [], Finished (Some (lagged_status lagged)))
            end
          else Some (st, [], Selecting)
      | None => Some (st, [], Selecting)
      end
  | _ => Some (st, [], Selecting)
  end.

(** One step; an arm the loop is not waiting for does nothing. *)
Definition iteration (identity : AuthIdentity) (arm : Arm) (flow : Flow) (st : StreamState)
    : option (StreamState * list StreamSessionResponse * Flow) :=
  match flow, arm with
  | Finished error, _ => Some (st, [], Finished error)
  | _, ArmOthers e => Some ((on_server_of id (others e) st).1, [], flow)
  | Draining closing, ArmDrain => drain closing st
  | Draining _, _ => Some (st, [], flow)
  | Selecting, _ => select identity arm st
  end.

(** A run of the loop: the state, all that was sent, how it stands. *)
Fixpoint run_stream (identity : AuthIdentity) (arms : list Arm) (flow : Flow) (st : StreamState)
    : option (StreamState * list StreamSessionResponse * Flow) :=
  match arms with
  | [] => Some (st, [], flow)
  | arm :: arms =>
      '(st, out, flow) ← iteration identity arm flow st;
      '(st, more, flow) ← run_stream identity arms flow st;
      Some (st, out ++ more, flow)
  end.

(** A stream that was just opened. *)
Definition opened (s : Service) (b : Bus) : StreamState := MkStreamState s b None None.
Definition stream_session (metadata : MetadataMap) (b : Bus) : stm Service Status (AuthIdentity * StreamState) :=
  (let! identity := or_status (authenticate metadata) in
   λ s, (s, Ok (identity, opened s b)))%stm.
End stream.

(** ** What a frame does to the server *)
Section gates.
Context `{HJ : Jsonwebtoken} `{HB : Broadcast Envelope}.

Lemma on_server_run {E F A} (to : E → F) (m : stm Service E A) st st' r :
  on_server_of to m st = (st', r) →
  ∃ r0, m (st_service st) = (st_service st', r0) ∧
    st_bound st' = st_bound st ∧ st_events st' = st_events st ∧
    r = match r0 with Ok a => Ok a | Err e => Err (to e) end.
Proof.
  unfold on_server_of. destruct (m (st_service st)) as [s r0]. intros [= <- <-]. by exists r0.
Qed.
Lemma read_run {E F A} (to : E → F) (f : Service → result E A) st st' r :
  on_server_of to (st_read f) st = (st', r) →
  st_service st' = st_service st ∧ st_bound st' = st_bound st ∧ st_events st' = st_events st ∧
  r = match f (st_service st) with Ok a => Ok a | Err e => Err (to e) end.
Proof.
  intros (r0 & E1 & Hb & He & ->)%on_server_run. unfold st_read in E1. injection E1 as E1 <-.
  by rewrite E1.
Qed.

(** The sender's limits are those of the state [s0]. *)
Lemma limits_trans s0 s s' : same_limits s0 s → same_limits s s' → same_limits s0 s'.
Proof.
  intros (H1 & H2 & H3) (H1' & H2' & H3'). split_and!; [congruence..|]. intros. by rewrite H3'.
Qed.
Lemma limits_consult {E} s0 f : keeps (same_limits s0) (consult f : stm Service E _).
Proof.
  apply keeps_intro. intros s Hs. unfold consult. by destruct (svc_engine s).
Qed.
Lemma limits_runtime {E A} s0 (f : ModeSource → PolicySource → stm Server E A) :
  keeps (same_limits s0) (on_runtime f).
Proof. apply keeps_intro. intros s Hs. unfold on_runtime. by destruct (f _ _ _). Qed.
#[local] Hint Resolve limits_consult limits_runtime : keeps.
Lemma limits_ingress `{Serde PersistedSession} s0 identity env :
  keeps (same_limits s0) (enforce_ingress_policy identity env).
Proof. unfold enforce_ingress_policy, has_engine, session_checked. keeps_steps. Qed.

Lemma calm_checked `{Serde PersistedSession} tid acc modes0 policies0 id s s' :
  calm tid acc modes0 policies0 s → same_registries s s' →
  checked id (svc_server s) (svc_server s') → calm tid acc modes0 policies0 s'.
Proof.
  intros (Em & Ep & Hs) [Em' Ep'] Hc. split_and!; [congruence..|]. unfold still in *.
  pose proof (rest_anything _ _ _ _ Hs) as Hr.
  destruct (checked_leaves tid id _ _ Hr Hc) as [Hr' Ha].
  destruct Hr' as (_ & Hcov & _), Hs as (_ & _ & ->). by split_and!.
Qed.

(** Binding to the bus leaves the server alone. *)
Lemma bind_live_run id st st' r :
  bind_live id st = (st', r) → st_service st' = st_service st ∧ r = Ok () ∧
    (live (st_events st) = true → st' = st) ∧
    (live (st_events st) = false → st_bound st' = Some id ∧ live (st_events st') = true).
Proof.
  unfold bind_live. rewrite bind_run. unfold st_read. destruct (live (st_events st)).
  { intros [= <- <-]. by split_and!. }
  rewrite bind_run. cbn. unfold subscribe_session_stream, st_bind. cbn.
  destruct (bus_subscribe id (st_bus st)) as [b receiver]. intros [= <- <-]. cbn.
  split_and!; [done|done|done|]. intros _. split; [done|]. by destruct (st_events st).
Qed.

Context `{Uuids} `{Message SessionStartPayload} `{Serde PersistedSession}.
Context `{SignalCodec} `{AnnotationCodec} `{FromValue CommitmentRules}.
Context (config : RuntimeConfig) (busy : string → bool).

Lemma frame_checks_run env st st' r :
  frame_checks env st = (st', r) →
  let s := st_service st in let s' := st_service st' in
  same_registries s s' ∧ svc_engine s' = svc_engine s ∧ same_limits s s' ∧
  checked (env_session_id env) (svc_server s) (svc_server s') ∧
  st_bound st' = st_bound st ∧ st_events st' = st_events st.
Proof.
  unfold frame_checks. destruct (env_message_type env != "SessionStart").
  2:{ intros [= <- <-]. split_and!; try done. by left. }
  rewrite bind_run. destruct (on_server_of _ _ st) as [st1 r1] eqn:E1.
  apply on_server_run in E1 as (r0 & E1 & Hb & He & ->). unfold session_checked in E1.
  pose proof (keeps_run (same_limits (st_service st)) _ (st_service st)
    (limits_runtime _ (λ _ _, get_session_checked (env_session_id env))) ltac:(done)) as Hlim.
  rewrite E1 in Hlim. apply on_runtime_run in E1 as (Hg & Hreg & Heng).
  intros E. assert (st' = st1) as ->.
  { revert E. destruct r0 as [[session|]|e]; [repeat case_match|case_match|]; by intros [= <- <-]. }
  split_and!; try done. right. by rewrite Hg.
Qed.

(** The gates an envelope frame passed on its way from the state [s]: those of
    Send, the engine's answer being about the session as the stream's own check
    left it. *)
Record frame_admitted (identity : AuthIdentity) (env : Envelope) (s : Service) : Prop := {
  fa_shape : validate_envelope_shape (sl_max_payload_bytes (svc_layer s)) env = Ok ();
  fa_session : blank (env_session_id env) = false;
  fa_sender : env_sender env = "" ∨ env_sender env = ai_sender identity;
  fa_mode : authorize_mode identity (env_mode env) (env_message_type env == "SessionStart") = Ok ();
  fa_engine : ∃ s1, svc_engine s1 = svc_engine s ∧
    checked (env_session_id env) (svc_server s) (svc_server s1) ∧
    engine_verdict identity (with_sender (ai_sender identity) env) s1 = Ok ();
  fa_rate :
    (enforce_rate_limit (svc_layer s) (ai_sender identity)
      (env_message_type env == "SessionStart") (svc_instants s O) (svc_rate s)).2 = Ok ();
}.

(** The session the stream is bound to, and that it stays bound. *)
Definition binds (st st' : StreamState) : Prop :=
  ∀ id, st_bound st = Some id → st_bound st' = Some id.
Definition stream_inv (st : StreamState) : Prop :=
  live (st_events st) = true → is_Some (st_bound st).

Lemma one_session_run id st st' r :
  one_session id st = (st', r) → st' = st ∧
    (r = Ok () → ∀ bound, st_bound st = Some bound → bound = id).
Proof.
  unfold one_session, st_read. intros [= <- <-]. split; [done|].
  destruct (st_bound st) as [bound|]; [|done]. case_bool_decide as Hb; [|done].
  intros _ ? [= <-]. done.
Qed.

(** Nothing was processed. *)
Definition unprocessed tid (st st' : StreamState) : Prop :=
  let s := st_service st in
  calm tid (accepted tid (svc_server s)) (svc_modes s) (svc_policies s) (st_service st') ∧
  binds st st' ∧ (stream_inv st → stream_inv st').
Lemma unprocessed_same tid st st' :
  svc_ready tid (st_service st) → st_service st' = st_service st → st_bound st' = st_bound st →
  st_events st' = st_events st → unprocessed tid st st'.
Proof.
  intros Hr Es Eb Ee. unfold unprocessed, binds, stream_inv. rewrite Es, Eb, Ee.
  split_and!; [by apply ready_calm|done|done].
Qed.

(** What [submit_frame] lets through. *)
Record submitted (identity : AuthIdentity) (env : Envelope) (s : Service) : Prop := {
  sb_mode : authorize_mode identity (env_mode env) (env_message_type env == "SessionStart") = Ok ();
  sb_engine : ∃ s1, svc_engine s1 = svc_engine s ∧
    checked (env_session_id env) (svc_server s) (svc_server s1) ∧
    engine_verdict identity env s1 = Ok ();
  sb_rate :
    (enforce_rate_limit (svc_layer s) (ai_sender identity)
      (env_message_type env == "SessionStart") (svc_instants s O) (svc_rate s)).2 = Ok ();
}.
Definition frame_outcome (env : Envelope) (r : result MacpError ProcessResult)
    : result StreamFailure bool :=
  match r with
  | Ok result => Ok (pr_duplicate result)
  | Err e => Err (Rejected e (env_message_id env))
  end.
(** The stream is bound to [id] from here on. *)
Definition binds_to (id : string) (st st' : StreamState) : Prop :=
  binds st st' ∧ (stream_inv st → stream_inv st' ∧ st_bound st' = Some id).

(** The end of [submit_frame], from the rate limit on. *)
Lemma enter_frame_run tid acc m0 p0 identity env st st' r :
  let gate {A} (m : stm Service MacpError A) :=
    on_server_of (λ e, Rejected e (env_message_id env)) m in
  let start := env_message_type env == "SessionStart" in
  calm tid acc m0 p0 (st_service st) →
  (∀ bound, st_bound st = Some bound → bound = env_session_id env) →
  st_bind (gate (rate_limit (ai_sender identity) start)) (λ _,
    st_bind (bind_live (env_session_id env)) (λ _,
    st_bind (gate (on_runtime (λ modes policies,
      process policies config busy (max_open identity env) env))) (λ result,
    st_ret (pr_duplicate result)))) st = (st', r) →
  (∃ e, r = Err e ∧ calm tid acc m0 p0 (st_service st') ∧ st_bound st' = st_bound st ∧
     st_events st' = st_events st) ∨
  (enforce_rate_limit (svc_layer (st_service st)) (ai_sender identity) start
    (svc_instants (st_service st) O) (svc_rate (st_service st))).2 = Ok () ∧
  binds_to (env_session_id env) st st' ∧
  ∃ r0 s1, r = frame_outcome env r0 ∧ calm tid acc m0 p0 s1 ∧
    on_runtime (λ modes policies, process policies config busy (max_open identity env) env) s1
      = (st_service st', r0).
Proof.
  intros gate start Hcalm Hone. rewrite bind_run. unfold gate at 1.
  destruct (on_server_of _ _ st) as [st1 r1] eqn:E1.
  apply on_server_run in E1 as (r1' & E1 & Eb1 & Ee1 & ->).
  apply rate_limit_run in E1 as (Hw & Hreg & _ & ->).
  pose proof (calm_same _ _ _ _ _ _ Hcalm Hreg Hw) as Hcalm1.
  destruct (enforce_rate_limit _ _ _ _ _).2 as [[]|e] eqn:Hrate.
  2:{ intros [= <- <-]. left. exists (Rejected e (env_message_id env)). by split_and!. }
  rewrite bind_run. destruct (bind_live _ st1) as [st2 r2] eqn:E2.
  apply bind_live_run in E2 as (Es2 & -> & Hlive & Hnew).
  rewrite bind_run. unfold gate. destruct (on_server_of _ _ st2) as [st3 r3] eqn:E3.
  apply on_server_run in E3 as (r0 & E3 & Eb3 & Ee3 & ->). rewrite Es2 in E3.
  assert (binds_to (env_session_id env) st st3) as Hbinds.
  { unfold binds_to, binds, stream_inv. rewrite Eb3, Ee3. rewrite Ee1 in Hlive, Hnew.
    destruct (live (st_events st)) eqn:El.
    - rewrite (Hlive eq_refl), Eb1, Ee1, El. split; [done|]. intros Hi. split; [done|].
      destruct (Hi eq_refl) as [bound Hb]. rewrite Hb. f_equal. by apply Hone.
    - destruct (Hnew eq_refl) as [-> _]. split; [|by intros _; split; [eexists|]].
      intros id Hid. f_equal. symmetry. by apply Hone. }
  destruct r0 as [result|e]; intros [= <- <-]; right; (split; [done|]; split; [done|]);
    [exists (Ok result)|exists (Err e)]; by exists (st_service st1).
Qed.

(** The envelope went to the runtime, in the state [s1]. *)
Definition runs_process tid identity env (st st' : StreamState) (r : result MacpError ProcessResult)
    : Prop :=
  let s := st_service st in
  ∃ s1, calm tid (accepted tid (svc_server s)) (svc_modes s) (svc_policies s) s1 ∧
    on_runtime (λ modes policies, process policies config busy (max_open identity env) env) s1
      = (st_service st', r).

Lemma submit_frame_run tid identity env st st' r :
  svc_ready tid (st_service st) → (∀ bound, st_bound st = Some bound → bound = env_session_id env) →
  submit_frame config busy identity env st = (st', r) →
  (∃ e, r = Err e ∧ unprocessed tid st st') ∨
  submitted identity env (st_service st) ∧ binds_to (env_session_id env) st st' ∧
  ∃ r0, r = frame_outcome env r0 ∧ runs_process tid identity env st st' r0.
Proof.
  intros Hready Hone. pose proof (ready_calm _ _ Hready) as Hcalm. unfold submit_frame.
  set (acc := accepted tid _) in Hcalm. set (m0 := svc_modes _) in Hcalm.
  set (p0 := svc_policies _) in Hcalm.
  assert (∀ st1 e, calm tid acc m0 p0 (st_service st1) → st_bound st1 = st_bound st →
    st_events st1 = st_events st → (st1, Err e) = (st', r) →
    ∃ e, r = Err e ∧ unprocessed tid st st') as Hstop.
  { intros st1 e Hc Eb Ee [= <- <-]. exists e. split; [done|]. split; [exact Hc|].
    unfold binds, stream_inv. by rewrite Eb, Ee. }
  rewrite bind_run. destruct (frame_checks env st) as [st1 r1] eqn:E1.
  apply frame_checks_run in E1 as (Hreg1 & Heng1 & Hlim1 & Hc1 & Eb1 & Ee1).
  pose proof (calm_checked _ _ _ _ _ _ _ Hcalm Hreg1 Hc1) as Hcalm1.
  destruct r1 as [[]|e]; [|intros E; left; by eapply (Hstop st1)].
  rewrite bind_run. destruct (on_server_of _ _ st1) as [st2 r2] eqn:E2.
  apply read_run in E2 as (Es2 & Eb2 & Ee2 & ->).
  destruct (authorize_mode _ _ _) as [[]|e] eqn:Hmode;
    [|intros E; left; eapply (Hstop st2); [by rewrite Es2|congruence..|exact E]].
  rewrite bind_run. destruct (on_server_of _ _ st2) as [st3 r3] eqn:E3.
  apply on_server_run in E3 as (r3' & E3 & Eb3 & Ee3 & ->). rewrite Es2 in E3.
  pose proof (keeps_run _ _ _ (limits_ingress (st_service st) identity env) Hlim1) as Hlim3.
  rewrite E3 in Hlim3. cbn [fst] in Hlim3.
  apply enforce_ingress_run in E3 as (Hreg3 & Hc3 & Hv).
  pose proof (calm_checked _ _ _ _ _ _ _ Hcalm1 Hreg3 Hc3) as Hcalm3.
  destruct r3' as [[]|e]; [|intros E; left; eapply (Hstop st3); [done|congruence..|exact E]].
  assert (st_bound st3 = st_bound st ∧ st_events st3 = st_events st) as [Eb Ee] by (split; congruence).
  intros [(e & -> & Hc & Eb' & Ee')|(Hrate & Hbinds & r0 & s1 & -> & Hs1 & Hp)]%(enter_frame_run
    tid acc m0 p0); [left; eapply (Hstop st'); [done|congruence..|done]| |done|by rewrite Eb].
  right. destruct Hlim3 as (_ & Hinst & Hrl). rewrite Hrl, Hinst in Hrate. split_and!.
  - split; [done| |done]. by exists (st_service st1).
  - unfold binds_to, binds, stream_inv in *. by rewrite Eb, Ee in Hbinds.
  - exists r0. split; [done|]. by exists s1.
Qed.

Lemma envelope_frame_run tid identity env st st' r :
  svc_ready tid (st_service st) → process_stream_envelope config busy identity env st = (st', r) →
  let bound := with_sender (ai_sender identity) env in
  (∃ e, r = Err e ∧ unprocessed tid st st') ∨
  frame_admitted identity env (st_service st) ∧ binds_to (env_session_id env) st st' ∧
  ∃ r0, r = frame_outcome env r0 ∧ runs_process tid identity bound st st' r0.
Proof.
  intros Hready E bound. revert E. unfold process_stream_envelope.
  assert (∀ st1 e, st_service st1 = st_service st → st_bound st1 = st_bound st →
    st_events st1 = st_events st → (st1, Err e) = (st', r) →
    ∃ e, r = Err e ∧ unprocessed tid st st') as Hstop.
  { intros st1 e Es Eb Ee [= <- <-]. exists e. split; [done|]. by apply unprocessed_same. }
  rewrite bind_run. destruct (on_server_of _ _ st) as [st1 r1] eqn:E1.
  apply read_run in E1 as (Es1 & Eb1 & Ee1 & ->).
  destruct (validate_envelope_shape _ env) as [[]|e] eqn:Hshape; [|intros E; left; by eapply Hstop].
  destruct (blank (env_session_id env)) eqn:Hblank; [intros E; left; by eapply Hstop|].
  destruct (blank (env_mode env)); [intros E; left; by eapply Hstop|].
  rewrite bind_run. destruct (one_session _ st1) as [st2 r2] eqn:E2.
  apply one_session_run in E2 as [-> Hone]. rewrite Eb1 in Hone.
  destruct r2 as [[]|e]; [|intros E; left; by eapply Hstop]. specialize (Hone eq_refl).
  rewrite bind_run. destruct (on_server_of _ _ st1) as [st3 r3] eqn:E3.
  apply read_run in E3 as (Es3 & Eb3 & Ee3 & ->).
  assert (st_service st3 = st_service st ∧ st_bound st3 = st_bound st ∧ st_events st3 = st_events st)
    as (Es & Eb & Ee) by (split_and!; congruence).
  destruct (apply_authenticated_sender identity env) as [env'|e] eqn:Ha;
    [|intros E; left; by eapply (Hstop st3)].
  apply apply_sender_ok in Ha as [-> Hsender].
  intros [(e & -> & Hu)|(Hsub & Hb & r0 & -> & Hp)]%(submit_frame_run tid); [| |by rewrite Es|by rewrite Eb].
  - left. exists e. split; [done|]. unfold unprocessed, binds, stream_inv in *. by rewrite Es, Eb, Ee in Hu.
  - right. rewrite Es in Hsub. destruct Hsub as [Hm He Hr]. split_and!.
    + by split.
    + unfold binds_to, binds, stream_inv in *. by rewrite Eb, Ee in Hb.
    + exists r0. split; [done|]. unfold runs_process in *. by rewrite Es in Hp.
Qed.

(** *** Subscribing *)
Section subscribing.
Context (tid : string) (acc : list Envelope) (modes0 : ModeRegistry) (policies0 : PolicyRegistry).

Definition at_stream (bound : option string) (events : option SubscriptionCursor) (st : StreamState)
    : Prop :=
  calm tid acc modes0 policies0 (st_service st) ∧ st_bound st = bound ∧ st_events st = events.
Lemma at_stream_server {E F A} (to : E → F) (m : stm Service E A) bound events :
  keeps (calm tid acc modes0 policies0) m → keeps (at_stream bound events) (on_server_of to m).
Proof.
  intros Hm. apply keeps_intro. intros st (Hc & Eb & Ee).
  pose proof (keeps_run _ _ _ Hm Hc) as Hc'. unfold on_server_of.
  destruct (m (st_service st)) as [s' r]. by split_and!.
Qed.
Lemma at_stream_subscribe {E} id bound events :
  keeps (at_stream bound events) (subscribe_session_stream id : stm StreamState E _).
Proof.
  apply keeps_intro. intros st (Hc & Eb & Ee). unfold subscribe_session_stream.
  destruct (bus_subscribe id (st_bus st)) as [b r]. by split_and!.
Qed.
Lemma at_stream_authorize identity id bound events :
  keeps (at_stream bound events) (authorize_subscription identity id).
Proof.
  unfold authorize_subscription, session_checked.
  apply keeps_bind; [apply at_stream_server, calm_runtime; intros; apply still_checked|].
  intros [session|]; [|apply keeps_fail]. destruct (negb _); [apply keeps_fail|].
  apply keeps_bind; [apply at_stream_server, calm_consult|].
  intros [decision|]; [apply keeps_read|apply keeps_ret].
Qed.
Lemma at_stream_load id after cursor bound events :
  keeps (at_stream bound events) (load_subscription_snapshot id after cursor).
Proof. apply keeps_read. Qed.
Lemma at_stream_failure {A} (m : stm StreamState SubscribeError A) bound events :
  keeps (at_stream bound events) m → keeps (at_stream bound events) (as_failure m).
Proof.
  intros Hm. apply keeps_intro. intros st Hst. pose proof (keeps_run _ _ _ Hm Hst) as Hs.
  unfold as_failure. by destruct (m st).
Qed.
Lemma at_stream_open identity id after bound events :
  keeps (at_stream bound events) (open_subscription identity id after).
Proof.
  unfold open_subscription. apply keeps_bind; [apply at_stream_authorize|]. intros _.
  apply keeps_bind; [apply at_stream_subscribe|]. intros receiver.
  apply keeps_intro. intros st (Hc & Eb & Ee). unfold or_leave, load_subscription_snapshot, st_read.
  by destruct (load_snapshot _ _ _ _).
Qed.

End subscribing.

Section subscribe_frame.
Context (tid : string) (st0 : StreamState) (id : string).

(** [I] is kept by what leaves the stream's variables alone. *)
Definition server_steps (I : StreamState → Prop) : Prop :=
  ∀ {E A} (m : stm StreamState E A),
    (∀ acc modes0 policies0 bound events, keeps (at_stream tid acc modes0 policies0 bound events) m) →
    keeps I m.
Lemma unprocessed_steps : server_steps (unprocessed tid st0).
Proof.
  intros E A m Hm. apply keeps_intro. intros st (Hc & Hb & Hi).
  destruct (keeps_run _ _ st (Hm _ _ _ (st_bound st) (st_events st)) ltac:(by split_and!))
    as (Hc' & Eb & Ee).
  unfold unprocessed, binds, stream_inv in *. by rewrite Eb, Ee.
Qed.
Definition bound_here (st : StreamState) : Prop := unprocessed tid st0 st ∧ st_bound st = Some id.
Lemma bound_steps : server_steps bound_here.
Proof.
  intros E A m Hm. apply keeps_intro. intros st [Hu Hb].
  split; [by apply (keeps_run _ _ _ (unprocessed_steps E A m Hm))|].
  destruct Hu as (Hc & _).
  by destruct (keeps_run _ _ st (Hm _ _ _ (st_bound st) (st_events st)) ltac:(by split_and!))
    as (_ & -> & _).
Qed.

(** The cursor may be replaced. *)
Definition cursor_steps (I : StreamState → Prop) : Prop := ∀ st c, I st → I (set_events c st).
Lemma bound_cursor : cursor_steps bound_here.
Proof. intros st c [(Hc & Hb & Hi) E]. split; [|done]. split_and!; [done|done|]. intros _ _. by exists id. Qed.
Lemma live_cursor : live (st_events st0) = true → cursor_steps (unprocessed tid st0).
Proof.
  intros Hl st c (Hc & Hb & Hi). split_and!; [done|done|]. intros Hinv _. cbn.
  destruct (Hinv Hl) as [bound E]. by rewrite (Hb _ E).
Qed.
Lemma bind_here :
  (∀ bound, st_bound st0 = Some bound → bound = id) →
  hoare (unprocessed tid st0) (st_mod (set_bound id) : stm StreamState StreamFailure ())
    (λ _, bound_here) bound_here.
Proof.
  intros Hone st (Hc & Hb & Hi). split; [|done]. split_and!; [done| |].
  - intros bound E. by rewrite (Hone _ E).
  - intros _ _. by eexists.
Qed.

Context (I : StreamState → Prop) (HI : server_steps I) (HC : cursor_steps I).
Lemma set_events_keeps c : keeps I (st_mod (set_events c) : stm StreamState StreamFailure ()).
Proof. apply keeps_intro. intros st Hs. by apply HC. Qed.
(** The snapshot, and the replay that is handed out. *)
Lemma load_keeps after cursor :
  keeps I (as_failure (load_subscription_snapshot id after cursor)).
Proof. apply HI. intros. apply at_stream_failure, at_stream_load. Qed.
Lemma hand_out_keeps events :
  keeps I (match events with
           | Some cursor =>
               let '(cursor, replay) := take_replay cursor in
               st_bind (st_mod (set_events cursor)) (λ _, st_ret (snd <$> replay))
           | None => st_ret []
           end : stm StreamState StreamFailure (list Envelope)).
Proof.
  destruct events as [cursor|]; [|apply keeps_ret]. unfold take_replay.
  apply keeps_bind; [apply set_events_keeps|]. intros _. apply keeps_ret.
Qed.
End subscribe_frame.

(** Once the stream is bound here, the frame is served whatever it holds. *)
Lemma bound_subscribe tid st id after cursor :
  let B := bound_here tid st id in
  keeps B (st_bind (subscribe_session_stream id) (λ receiver,
    st_mod (set_events (attach receiver cursor))) : stm StreamState StreamFailure ()) ∧
  keeps B (st_bind (st_read (λ st, Ok (default cursor (st_events st)))) (λ cursor,
    st_bind (as_failure (load_subscription_snapshot id after cursor)) (λ cursor,
    st_mod (set_events cursor)))).
Proof.
  split.
  - apply keeps_bind; [apply bound_steps; intros; apply at_stream_subscribe|].
    intros receiver. apply set_events_keeps, bound_cursor.
  - apply keeps_bind; [apply keeps_read|]. intros c.
    apply keeps_bind; [apply (load_keeps tid), bound_steps|]. intros c'.
    apply set_events_keeps, bound_cursor.
Qed.

Lemma subscribe_frame_run tid identity id after st st' r :
  svc_ready tid (st_service st) → process_subscribe_frame identity id after st = (st', r) →
  unprocessed tid st st'.
Proof.
  intros Hready E. unfold process_subscribe_frame in E. rewrite bind_run in E.
  destruct (one_session id st) as [st1 r1] eqn:E1. apply one_session_run in E1 as [-> Hone].
  assert (unprocessed tid st st) as Hu by by apply unprocessed_same.
  destruct r1 as [[]|e]; [|by injection E as <- <-]. specialize (Hone eq_refl).
  rewrite bind_run in E. unfold st_read at 1 in E.
  set (U := unprocessed tid st). set (B := bound_here tid st id).
  assert (∀ s, B s → U s) as HBU by by intros s [].
  assert (∀ (m : stm StreamState StreamFailure (list Envelope)) s0 r0,
    hoare U m (λ _, U) U → m st = (s0, r0) → U s0) as Hrun.
  { intros m s0 r0 Hm Er. specialize (Hm st Hu). rewrite Er in Hm. by destruct r0. }
  assert (∀ I, server_steps tid I → keeps I (as_failure (authorize_subscription identity id))) as Hauth.
  { intros I HI. apply HI. intros. apply at_stream_failure, at_stream_authorize. }
  assert (∀ A P (m : stm StreamState StreamFailure A), hoare P m (λ _, B) B → hoare P m (λ _, B) U) as HE.
  { intros A P m Hm s HP. specialize (Hm s HP). destruct (m s) as [? []]; auto. }
  assert (∀ A (m : stm StreamState StreamFailure A), keeps B m → hoare B m (λ _, B) U) as HBE
    by (intros; by apply HE).
  assert (hoare B (st_bind (st_read (λ st, Ok (st_events st))) (λ events,
    match events with
    | Some cursor =>
        let '(cursor, replay) := take_replay cursor in
        st_bind (st_mod (set_events cursor)) (λ _, st_ret (snd <$> replay))
    | None => st_ret []
    end) : stm StreamState StreamFailure (list Envelope)) (λ _, U) U) as Hout.
  { eapply hoare_weaken; [apply HBE|done|intros ? ?; apply HBU].
    apply keeps_bind; [apply keeps_read|]. intros ?. apply hand_out_keeps, bound_cursor. }
  eapply Hrun; [|exact E]. clear E. destruct (st_events st) as [cursor|] eqn:Ee.
  - destruct (is_live cursor) eqn:El.
    + assert (cursor_steps U) as HC by (apply live_cursor; by rewrite Ee).
      pose proof (unprocessed_steps tid st) as HI.
      cbn [negb]. repeat (apply keeps_bind; [|intros ?]);
        eauto using keeps_read, keeps_ret, set_events_keeps, hand_out_keeps, load_keeps.
    + destruct (bound_subscribe tid st id after cursor) as [Hsub Hload].
      apply hoare_bind with (Q := λ _, B); [|intros ?; exact Hout]. cbn [negb].
      apply hoare_bind with (Q := λ _, U); [apply Hauth, unprocessed_steps|]. intros _.
      apply hoare_bind with (Q := λ _, B); [|intros _; by apply HBE].
      apply hoare_bind with (Q := λ _, B); [by apply HE, bind_here|]. intros _. by apply HBE.
  - apply hoare_bind with (Q := λ _, B); [|intros ?; exact Hout].
    apply hoare_bind with (Q := λ _, U).
    { apply (unprocessed_steps tid st). intros. apply at_stream_failure, at_stream_open. }
    intros cursor. apply hoare_bind with (Q := λ _, B); [by apply HE, bind_here|]. intros _.
    apply HBE, set_events_keeps, bound_cursor.
Qed.

(** *** The order of the last two gates *)

(** A start that the policy engine denies is charged to its sender's rate limit
    when it comes by Send, which asks the engine last, and costs nothing when it
    comes by a stream, which asks it first. *)
Theorem denied_start_charged_by_send_only identity env st engines reasons :
  let s := st_service st in
  let charge := enforce_rate_limit (svc_layer s) (ai_sender identity) true (svc_instants s O) (svc_rate s) in
  env_message_type env = "SessionStart" → env_sender env = ai_sender identity →
  authorize_mode identity (env_mode env) true = Ok () → charge.2 = Ok () →
  svc_engine s = Some engines →
  evaluate_session_start (engines O) identity (env_mode env) env = Deny reasons →
  (let '(s', r) := authorize_send identity env s in
   r = Err (PolicyDenied reasons) ∧ svc_rate s' = charge.1) ∧
  (let '(st', r) := submit_frame config busy identity env st in
   r = Err (Rejected (PolicyDenied reasons) (env_message_id env)) ∧
   svc_rate (st_service st') = svc_rate s).
Proof.
  intros s charge Et Esend Hmode Hcharge Heng Hdeny.
  assert (with_sender (ai_sender identity) env = env) as Eenv
    by (destruct env; cbn in *; by subst).
  split.
  - unfold authorize_send, st_bind, st_read, apply_authenticated_sender.
    rewrite Esend, bool_decide_eq_true_2 by done. rewrite andb_false_r, <- Esend. cbn [negb].
    rewrite Esend, Eenv, Et, bool_decide_eq_true_2, Hmode by done. unfold rate_limit. fold charge.
    destruct charge as [rb out]. cbn in Hcharge. subst out.
    unfold enforce_ingress_policy, has_engine, st_bind, st_read. cbn [svc_engine]. rewrite Heng.
    rewrite bool_decide_eq_true_2 by by eexists. cbn [negb].
    rewrite Et, bool_decide_eq_true_2 by done. unfold consult. cbn [svc_engine]. by rewrite ?Heng, Hdeny.
  - unfold submit_frame, frame_checks. rewrite Et, bool_decide_eq_true_2 by done. cbn [negb].
    unfold st_bind at 1, st_ret at 1. unfold st_bind at 1, on_server_of at 1, st_read at 1. rewrite Hmode.
    unfold st_bind at 1, on_server_of at 1. cbn [st_service].
    unfold enforce_ingress_policy, has_engine, st_bind at 1, st_read at 1. fold s. rewrite Heng.
    rewrite bool_decide_eq_true_2 by by eexists. cbn [negb].
    rewrite Et, bool_decide_eq_true_2 by done. unfold st_bind at 1, consult. by rewrite ?Heng, Hdeny.
Qed.
End gates.

(** ** The loop *)
Section loop.
Context `{HJ : Jsonwebtoken} `{HB : Broadcast Envelope}.

(** Reading detaches a cursor at most. *)
Lemma receive_live fuel c w c' w' out :
  receive_loop fuel c w = Some (c', w', out) → is_live c' = true → is_live c = true.
Proof.
  revert c w. induction fuel as [|fuel IH]; intros c w; [done|]. cbn.
  destruct (sc_receiver c) as [r|] eqn:Er; [|intros [= <- <- <-]; unfold is_live; by rewrite Er].
  intros _ _. unfold is_live. by rewrite Er.
Qed.
Lemma poll_live c w c' w' out :
  poll c w = Some (c', w', out) → is_live c' = true → is_live c = true.
Proof.
  unfold poll. destruct (sc_replay c) as [|[ordinal envelope] replay]; [apply receive_live|].
  by intros [= <- <- <-].
Qed.

(** A turn that only reads. *)
Definition only_reads (st st' : StreamState) : Prop :=
  st_service st' = st_service st ∧ st_bound st' = st_bound st ∧
  (live (st_events st') = true → live (st_events st) = true).
Lemma drain_run closing st st' out flow :
  drain closing st = Some (st', out, flow) → only_reads st st'.
Proof.
  unfold drain, try_next_stream_event.
  destruct (st_events st) as [c|] eqn:Ee.
  2:{ intros [= <- <- <-]. unfold only_reads. cbn. by rewrite Ee. }
  unfold try_next. destruct (poll c _) as [[[c1 w1] [next|lagged]]|] eqn:Ep; [| |done];
    pose proof (poll_live _ _ _ _ _ Ep) as Hp; cbn; [destruct (next_option next) as [[??]|]|];
    intros [= <- <- <-]; unfold only_reads; rewrite Ee; by split_and!.
Qed.
Lemma reads_unprocessed `{Serde PersistedSession} tid st0 st st' :
  unprocessed tid st0 st → only_reads st st' → unprocessed tid st0 st'.
Proof.
  intros (Hc & Hb & Hi) (Es & Eb & Hl). unfold unprocessed, binds, stream_inv in *. rewrite Es, Eb.
  split_and!; [done|done|]. auto.
Qed.

Context `{Uuids} `{Message SessionStartPayload} `{Serde PersistedSession}.
Context `{SignalCodec} `{AnnotationCodec} `{FromValue CommitmentRules}.
Context (config : RuntimeConfig).

Lemma process_frame_grows busy tid identity env st st' r :
  tid ≠ "" → svc_ready tid (st_service st) →
  runs_process config busy tid identity (with_sender (ai_sender identity) env) st st' r →
  svc_ready tid (st_service st') ∧ ∃ syn entered, Forall (synthetic_of (st_service st)) syn ∧
    accepted tid (svc_server (st_service st'))
      = accepted tid (svc_server (st_service st)) ++ syn ++ entered ∧
    ∀ e, e ∈ entered → e = with_sender (ai_sender identity) env.
Proof.
  intros Ht [Hlaws _] (s1 & (Em & Ep & Hs) & (Hrun & [Em' Ep'] & _)%on_runtime_run).
  assert (processed config busy identity env s1 (svc_server s1) = (svc_server (st_service st'), r))
    as Hp by exact Hrun.
  apply (process_grows config busy tid) in Hp as (Hr & syn & Hsyn & Ha);
    [|done|by rewrite Em|by eapply rest_anything].
  split; [split; [by rewrite Em', Em|done]|]. eexists syn, _. split_and!.
  - unfold synthetic_of in *. by rewrite Em in Hsyn.
  - rewrite Ha. by destruct Hs as (_ & _ & <-).
  - intros e He. destruct (_ && _); [by apply list_elem_of_singleton in He|by apply elem_of_nil in He].
Qed.

(** How [env] came to a stream during a turn of this one. *)
Definition turn_accounts (identity : AuthIdentity) (st : StreamState) (arm : Arm) (bound : option string)
    (env : Envelope) : Prop :=
  match arm with
  | ArmInbound (InRequest _ req) =>
      synthetic_of (st_service st) env ∨
      ∃ sent, sr_envelope req = Some sent ∧ frame_admitted identity sent (st_service st) ∧
        env = with_sender (ai_sender identity) sent ∧ bound = Some (env_session_id sent)
  | ArmOthers e => accounted (st_service st) e env
  | _ => False
  end.
(** The stream of [tid] grew by envelopes with [P]. *)
Definition grew tid (P : Envelope → Prop) (st st' : StreamState) : Prop :=
  svc_ready tid (st_service st') ∧ ∃ entered, Forall P entered ∧
    accepted tid (svc_server (st_service st'))
      = accepted tid (svc_server (st_service st)) ++ entered.

Lemma unprocessed_grew tid P st st' :
  svc_ready tid (st_service st) → unprocessed tid st st' → grew tid P st st'.
Proof.
  intros Hr (Hc & _). apply calm_grows in Hc as [Hr' Ha]; [|done]. split; [done|]. exists [].
  split; [constructor|by rewrite app_nil_r].
Qed.

Lemma request_run tid busy identity req st st' r :
  tid ≠ "" → svc_ready tid (st_service st) → stream_inv st →
  process_stream_request config busy identity req st = (st', r) →
  stream_inv st' ∧ binds st st' ∧
  grew tid (turn_accounts identity st (ArmInbound (InRequest busy req)) (st_bound st')) st st'.
Proof.
  intros Ht Hready Hinv E.
  assert (unprocessed tid st st' → stream_inv st' ∧ binds st st' ∧
    grew tid (turn_accounts identity st (ArmInbound (InRequest busy req)) (st_bound st')) st st') as Hun.
  { intros Hu. split_and!; [by apply Hu|by apply Hu|by apply unprocessed_grew]. }
  unfold process_stream_request in E. destruct (negb _).
  { destruct (sr_envelope req); [|by eapply Hun, subscribe_frame_run].
    injection E as <- <-. by apply Hun, unprocessed_same. }
  destruct (sr_envelope req) as [sent|] eqn:Er; [|injection E as <- <-; by apply Hun, unprocessed_same].
  rewrite bind_run in E. destruct (process_stream_envelope _ _ _ sent st) as [st1 r1] eqn:E1.
  assert (st' = st1) as -> by (destruct r1; by injection E as <- <-).
  apply (envelope_frame_run config busy tid) in E1 as [(e & -> & Hu)|(Had & [Hb Hbi] & r0 & -> & Hp)];
    [by apply Hun| |done].
  destruct (Hbi Hinv) as [Hinv' Hbound]. split_and!; [done|done|].
  apply process_frame_grows in Hp as (Hr & syn & entered & Hsyn & Ha & Hin); [|done..].
  split; [done|]. exists (syn ++ entered). split; [|done]. apply Forall_app. split.
  - eapply Forall_impl; [exact Hsyn|]. intros env Henv. by left.
  - apply Forall_forall. intros env ->%Hin. right. by exists sent.
Qed.

Lemma grew_reads tid P st st1 st' : grew tid P st st1 → only_reads st1 st' → grew tid P st st'.
Proof. intros (Hr & Hg) (Es & _). unfold grew. by rewrite Es. Qed.
Lemma inv_reads st st' : stream_inv st → only_reads st st' → stream_inv st'.
Proof. intros Hi (_ & Eb & Hl). unfold stream_inv in *. rewrite Eb. auto. Qed.
Lemma binds_reads st st1 st' : binds st st1 → only_reads st1 st' → binds st st'.
Proof. intros Hb (_ & Eb & _). unfold binds. by rewrite Eb. Qed.
Lemma reads_refl st : only_reads st st.
Proof. done. Qed.

Context `{FromValue DecisionPolicyRules} `{FromValue ProposalPolicyRules}.
Context `{FromValue TaskPolicyRules} `{FromValue HandoffPolicyRules}.
Context `{FromValue QuorumPolicyRules} `{ToValue DecisionPolicyRules}.
Context `{Sha256, Message CommitmentPayload, Base64Url, Base64Std, Ed25519, JsonText, Chrono}.
Context `{ToJson PassthroughResolution}.
Context (receipts : ReceiptConfig) (persists : bool) (policies_read_only : bool).
Abbreviation turn := (iteration config receipts persists policies_read_only).
Abbreviation run_turns := (run_stream config receipts persists policies_read_only).

Lemma iteration_reads identity arm flow st st' out flow' :
  match arm with ArmInbound (InRequest _ _) | ArmOthers _ => False | _ => True end →
  turn identity arm flow st = Some (st', out, flow') → only_reads st st'.
Proof.
  destruct flow as [|closing|error]; [| |by intros _ [= <- <- <-]];
    (destruct arm as [[busy req|status|]| | |e]; try done; intros _; cbn [iteration select];
     try by intros [= <- <- <-]).
  - destruct (st_events st) as [c|] eqn:Ee; [|by intros [= <- <- <-]].
    destruct (is_live c) eqn:El; [|by intros [= <- <- <-]].
    destruct (poll c _) as [[[c1 w1] out1]|]; [|done]. cbn. intros E.
    assert (st_service st' = st_service st ∧ st_bound st' = st_bound st) as [Es Eb]
      by (destruct out1 as [[]|]; by injection E as <- <- <-).
    split_and!; [done|done|]. by rewrite Ee.
  - apply drain_run.
Qed.

Lemma iteration_run tid identity arm flow st st' out flow' :
  tid ≠ "" → svc_ready tid (st_service st) → stream_inv st →
  turn identity arm flow st = Some (st', out, flow') →
  stream_inv st' ∧ binds st st' ∧ grew tid (turn_accounts identity st arm (st_bound st')) st st'.
Proof.
  intros Ht Hready Hinv E.
  assert (only_reads st st' →
    stream_inv st' ∧ binds st st' ∧ grew tid (turn_accounts identity st arm (st_bound st')) st st')
    as Hreads.
  { intros Hr. split_and!; [by eapply (inv_reads st)|by apply (binds_reads st st); [intros ?|]|].
    eapply grew_reads; [|exact Hr]. by apply unprocessed_grew, unprocessed_same. }
  destruct arm as [[busy req|status|]| | |e];
    try (eapply Hreads, iteration_reads; [|exact E]; done);
    (destruct flow as [|closing|error]; cbn in E;
     try (injection E as <- <- <-; by apply Hreads)).
  - unfold serve_request in E.
    destruct (process_stream_request config busy identity req st) as [st1 r] eqn:E1.
    apply (request_run tid) in E1 as (Hi & Hb & Hg); [|done..].
    assert (st' = st1) as -> by (destruct (frame_answer _ r); by injection E as <- <- <-). done.
  - injection E as <- <- <-. split_and!; [exact Hinv|intros id Hid; exact Hid|].
    destruct (handle_accounts config receipts persists policies_read_only tid e (st_service st) Ht Hready)
      as (Hr & entered & Hf & Ha).
    split; [done|]. by exists entered.
  - injection E as <- <- <-. split_and!; [exact Hinv|intros id Hid; exact Hid|].
    destruct (handle_accounts config receipts persists policies_read_only tid e (st_service st) Ht Hready)
      as (Hr & entered & Hf & Ha).
    split; [done|]. by exists entered.
Qed.

(** The steps of a run, each with the state it found. *)
Fixpoint turns (identity : AuthIdentity) (arms : list Arm) (flow : Flow) (st : StreamState)
    : list (StreamState * Arm) :=
  match arms with
  | [] => []
  | arm :: arms =>
      (st, arm) ::
      match turn identity arm flow st with
      | Some (st, _, flow) => turns identity arms flow st
      | None => []
      end
  end.

(** C15. A stream speaks for its caller, in one session. Run a StreamSession
    stream step by step, with any frames from the client, any reads of the bus,
    and any other requests and maintenance of the server in between, also
    between the envelopes a drain hands out. Each
    envelope that any session's stream gains is one a mode synthesized, one
    that another request accounts for, or one a frame of this stream carried;
    and then it passed the gates of Send when it arrived, it bears the name the
    stream authenticated under, and it belongs to the one session the stream is
    bound to, which never changes once it is set. *)
Theorem stream_speaks_for_its_caller tid identity arms flow st st' out flow' :
  tid ≠ "" → svc_ready tid (st_service st) → stream_inv st →
  run_turns identity arms flow st = Some (st', out, flow') →
  binds st st' ∧
  grew tid (λ env, ∃ st1 arm, (st1, arm) ∈ turns identity arms flow st ∧
              turn_accounts identity st1 arm (st_bound st') env) st st'.
Proof.
  intros Ht. revert flow st out. induction arms as [|arm arms IH]; intros flow st out Hready Hinv; cbn.
  { intros [= <- <- <-]. split; [by intros id|]. by apply unprocessed_grew, unprocessed_same. }
  destruct (turn identity arm flow st) as [[[st1 out1] flow1]|] eqn:E1; [|done].
  apply (iteration_run tid) in E1 as (Hi & Hb & Hr & entered & Hf & Ha); [|done..].
  cbn [mbind option_bind].
  destruct (run_turns identity arms flow1 st1) as [[[st2 out2] flow2]|] eqn:E2; [|done].
  intros [= <- <- <-]. destruct (IH _ _ _ Hr Hi E2) as (Hb2 & Hr2 & entered2 & Hf2 & Ha2).
  split; [by intros id Hid; apply Hb2, Hb|]. split; [done|]. exists (entered ++ entered2).
  rewrite Ha2, Ha, app_assoc. split; [|done]. apply Forall_app. split.
  - eapply Forall_impl; [exact Hf|]. intros env Henv. exists st, arm. split; [by left|].
    destruct arm as [[]| | |]; try done. cbn in *.
    destruct Henv as [?|(sent & ? & ? & ? & Hbd)]; [by left|right]. exists sent. split_and!; auto.
  - eapply Forall_impl; [exact Hf2|]. intros env (st0 & a & Hin & Hta). exists st0, a.
    split; [by right|done].
Qed.
End loop.
