(* ===== verification/StreamTurns.v ===== *)
(** * Every drain of a stream ends

    The loops of the StreamSession handler terminate: a read skips at most the
    envelopes of the replay, and a drain hands out at most the backlog of the
    receiver and what others publish while it runs. *)

From stdpp Require Import prelude gmap strings.
From S2P Require Import Prelude RustStr Floats Extern PolicyKeys Error Policy Wire SessionData.
From S2P Require Import Session SessionStart CommitmentHash Concrete MultiRound ModeApi Laws Blind Step.
From S2P Require Import Log LogReplay Runtime PolicyRegistry PolicyAdmission Recovery Durable ModeRegistry.
From S2P Require Import WhatIf WhatIfLog Auth RateLimit Base64 Pagination Json ReceiptKeys Receipt.
From S2P Require Import ReceiptIssue Stream Accepted Service Access Serving StreamFrames.
Open Scope Z_scope.

(** ** One read *)
Section reads.
Context `{HB : Broadcast Envelope, HL : !BroadcastLaws}.

Lemma receive_total fuel c w :
  (dedup_size (sc_replay_dedup c) < fuel)%nat → is_Some (receive_loop fuel c w).
Proof.
  revert c w. induction fuel as [|fuel IH]; intros c w Hf; [lia|]. cbn.
  destruct (sc_receiver c) as [r|]; [|by eexists].
  destruct (bc_try_recv r w) as [w1 [e| | |n]]; [|by eexists..].
  destruct (should_skip_replayed _ e) as [d skip] eqn:Es. destruct skip.
  2:{ destruct (number e (set_dedup d c)) as [c1 [o e1]]. by eexists. }
  apply IH. revert Es. unfold should_skip_replayed.
  destruct (sc_replay_dedup c) as [seen|] eqn:Ed; [|done]. case_bool_decide as Hin; [|done].
  intros [= <-]. cbn in *. rewrite size_difference by set_solver. rewrite size_singleton.
  assert (size seen ≠ O) by (apply size_non_empty_iff; set_solver). lia.
Qed.
Lemma poll_total c w : is_Some (poll c w).
Proof.
  unfold poll. destruct (sc_replay c) as [|[o e] l]; [|by eexists]. apply receive_total.
  unfold receive_fuel, dedup_size. destruct (sc_replay_dedup c); lia.
Qed.

(** What a read takes from an attached receiver. *)
Lemma receive_consumes fuel r id b c q c' w out :
  bus_wf b → sc_receiver c = Some r → attached r id b q →
  receive_loop fuel c (bus_chans b) = Some (c', w, out) →
  let b' := MkBusState (bus_map b) w in
  bus_wf b' ∧ sc_receiver c' = Some r ∧ sc_replay c' = sc_replay c ∧
  ∃ q', attached r id b' q' ∧ ∀ o e, out = Ok (NextItem o e) → (length q' < length q)%nat.
Proof.
  revert b c q. induction fuel as [|fuel IH]; intros b c q Hwf Er Ha; [done|]. cbn. rewrite Er.
  destruct (bc_try_recv r (bus_chans b)) as [w1 out1] eqn:Erecv.
  destruct (attached_recv _ _ _ _ _ _ Hwf Ha Erecv) as (Hwf1 & [Hok|(n & _ & -> & Ha')]).
  2:{ intros [= <- <- <-]. split_and!; [done..|]. by eexists. }
  destruct q as [|e q]; destruct Hok as [-> Ha'].
  { intros [= <- <- <-]. split_and!; [done..|]. by eexists. }
  destruct (should_skip_replayed _ _) as [d [|]].
  - intros E. destruct (IH (MkBusState (bus_map b) w1) (set_dedup d c) q Hwf1 Er Ha' E)
      as (? & ? & ? & q' & ? & Hlt). split_and!; [done..|]. exists q'. split; [done|].
    intros o e' Ho. specialize (Hlt o e' Ho). cbn. lia.
  - unfold number. destruct (sc_next_live_ordinal _); intros [= <- <- <-];
      (split_and!; [done..|]; exists q; split; [done|]; intros; cbn; lia).
Qed.

(** ** The backlog of a stream *)
(** At most [n] envelopes wait for this stream. *)
Definition backlog (b : Bus) (events : option SubscriptionCursor) (n : nat) : Prop :=
  match events with
  | None => True
  | Some c =>
      match sc_receiver c with
      | None => (length (sc_replay c) ≤ n)%nat
      | Some r => ∃ id q, attached r id b q ∧ (length (sc_replay c) + length q ≤ n)%nat
      end
  end.
Definition connected (b : Bus) (events : option SubscriptionCursor) : Prop :=
  bus_wf b ∧ ∃ n, backlog b events n.

Lemma poll_consumes b c n c' w out :
  bus_wf b → backlog b (Some c) n → poll c (bus_chans b) = Some (c', w, out) →
  let b' := MkBusState (bus_map b) w in
  bus_wf b' ∧ (∃ m, backlog b' (Some c') m) ∧
  ∀ o e, out = Ok (NextItem o e) → ∃ m, n = S m ∧ backlog b' (Some c') m.
Proof.
  intros Hwf Hn. unfold poll. destruct (sc_replay c) as [|[o e] replay] eqn:Er.
  - unfold backlog in Hn. destruct (sc_receiver c) as [r|] eqn:Erc.
    + destruct Hn as (id & q & Ha & Hle). rewrite Er in Hle. intros E.
      destruct (receive_consumes _ r id b c q c' w out Hwf Erc Ha E) as (Hwf' & Er' & Ep & q' & Ha' & Hlt).
      unfold backlog. rewrite Er', Ep, Er. split_and!; [done|by exists (length q'), id, q'|].
      intros o e Ho. specialize (Hlt o e Ho). destruct n as [|n]; [cbn in Hle; lia|]. exists n.
      split; [done|]. exists id, q'. split; [done|]. cbn in *. lia.
    + cbn. rewrite Erc. intros [= <- <- <-]. destruct b. unfold backlog. rewrite Erc.
      split_and!; [done|by exists n|done].
  - intros [= <- <- <-]. destruct b as [m w0]. cbn. unfold backlog in *. cbn.
    destruct (sc_receiver c) as [r|]; rewrite Er in Hn; cbn in Hn.
    + destruct Hn as (id & q & Ha & Hle). split_and!; [done|by exists n, id, q; split; [|lia]|].
      intros _ _ _. destruct n as [|n]; [lia|]. exists n. split; [done|]. exists id, q.
      split; [done|]. lia.
    + split_and!; [done|exists n; lia|]. intros _ _ _. destruct n as [|n]; [lia|]. exists n.
      split; [done|]. lia.
Qed.
End reads.

(** ** Streams whose cursor is on the bus *)
Section joined.
Context `{HJ : Jsonwebtoken} `{HB : Broadcast Envelope, HL : !BroadcastLaws}.

Definition good (c : SubscriptionCursor) (st : StreamState) : Prop :=
  ∀ r, sc_receiver c = Some r → ∃ id q, attached r id (st_bus st) q.
Definition joined (st : StreamState) : Prop :=
  bus_wf (st_bus st) ∧ ∀ c, st_events st = Some c → good c st.

Lemma joined_backlog st : joined st → ∃ n, backlog (st_bus st) (st_events st) n.
Proof.
  intros [_ Hc]. unfold backlog. destruct (st_events st) as [c|]; [|by exists O].
  specialize (Hc c eq_refl). unfold good in Hc. destruct (sc_receiver c) as [r|].
  - destruct (Hc r eq_refl) as (id & q & Ha). by eexists _, id, q.
  - by eexists.
Qed.
Lemma backlog_joined b events n st :
  bus_wf b → backlog b events n → joined (MkStreamState (st_service st) b (st_bound st) events).
Proof.
  intros Hwf Hb. split; [done|]. intros c [= ->] r Hr. cbn in *. unfold backlog in Hb.
  rewrite Hr in Hb. destruct Hb as (id & q & Ha & _). by eauto.
Qed.
Lemma joined_set c st : bus_wf (st_bus st) → good c st → joined (set_events c st).
Proof. intros Hwf Hg. split; [done|]. by intros ? [= <-]. Qed.

(** Publishing keeps every receiver on its channel. *)
Lemma publish_keeps l b :
  bus_wf b → bus_wf (publish_all l b) ∧
  ∀ r id q, attached r id b q →
    ∃ q', attached r id (publish_all l b) q' ∧ (length q' ≤ length q + length l)%nat.
Proof.
  unfold publish_all. revert b. induction l as [|e l IH]; intros b Hwf.
  { split; [done|]. intros r id q Ha. exists q. split; [done|]. lia. }
  cbn. unfold stream_publish. destruct (str_is_empty _).
  { destruct (IH _ Hwf) as [? Hall]. split; [done|]. intros r id q Ha.
    destruct (Hall r id q Ha) as (q' & ? & ?). exists q'. split; [done|]. lia. }
  destruct (bus_publish_spec (env_session_id e) e b Hwf) as (Hwf' & _ & Hatt).
  destruct (IH _ Hwf') as [? Hall]. split; [done|]. intros r id q Ha%Hatt.
  destruct (Hall _ _ _ Ha) as (q' & ? & Hq). exists q'. split; [done|].
  case_decide; [rewrite length_app in Hq; cbn in Hq|]; lia.
Qed.
(** What a handler of the server published. *)
Definition published_by (s s' : Service) : list Envelope :=
  drop (length (sv_published (svc_server s))) (sv_published (svc_server s')).
Lemma joined_server {E F A} (to : E → F) (m : stm Service E A) events :
  keeps (λ st, joined st ∧ st_events st = events) (on_server_of to m).
Proof.
  apply keeps_intro. intros st [[Hwf Hc] He]. unfold on_server_of.
  destruct (m (st_service st)) as [s r]. cbn [fst]. split; [|done].
  destruct (publish_keeps (drop (length (sv_published (svc_server (st_service st))))
    (sv_published (svc_server s))) (st_bus st) Hwf) as [Hwf' Hall].
  split; [done|]. intros c Ec r0 Hr. cbn in *. destruct (Hc c Ec r0 Hr) as (id & q & Ha).
  destruct (Hall _ _ _ Ha) as (q' & Ha' & _). by eauto.
Qed.
Lemma backlog_server {E F A} (to : E → F) (m : stm Service E A) st n :
  joined st → backlog (st_bus st) (st_events st) n →
  let st' := (on_server_of to m st).1 in
  backlog (st_bus st') (st_events st')
    (n + length (published_by (st_service st) (st_service st')))%nat.
Proof.
  intros [Hwf _] Hb. unfold on_server_of. destruct (m (st_service st)) as [s r]. cbn [fst].
  unfold backlog in *. cbn [st_events st_bus st_service]. destruct (st_events st) as [c|]; [|done].
  destruct (sc_receiver c) as [rc|]; [|lia]. destruct Hb as (id & q & Ha & Hle).
  destruct (proj2 (publish_keeps (published_by (st_service st) s) _ Hwf) _ _ _ Ha) as (q' & Ha' & Hq).
  exists id, q'. split; [done|]. lia.
Qed.
Lemma subscribe_joins {E} id events :
  hoare (λ st, joined st ∧ st_events st = events)
    (subscribe_session_stream id : stm StreamState E Receiver)
    (λ r st, (joined st ∧ st_events st = events) ∧ good (cursor_new r) st) joined.
Proof.
  intros st [[Hwf Hc] He]. unfold subscribe_session_stream.
  destruct (bus_subscribe id (st_bus st)) as [b r] eqn:E1.
  destruct (bus_subscribe_spec _ _ _ _ Hwf E1) as ((Hwf' & _ & Hext) & Ha & _).
  split; [split; [split; [done|]|done]|].
  - intros c Ec r0 Hr. destruct (Hc c Ec r0 Hr) as (id' & q & Hq%Hext). by eauto.
  - intros r0 [= <-]. by eauto.
Qed.

(** *** Envelope frames *)
Lemma joined_steps {E A} (m : stm StreamState E A) :
  (∀ events, keeps (λ st, joined st ∧ st_events st = events) m) → keeps joined m.
Proof.
  intros Hm. apply keeps_intro. intros st Hst.
  by destruct (keeps_run _ _ st (Hm (st_events st)) ltac:(done)).
Qed.
Lemma joined_bind_live id : keeps joined (bind_live id).
Proof.
  unfold bind_live. apply keeps_intro. intros st [Hwf Hc]. rewrite bind_run. unfold st_read.
  destruct (live (st_events st)); [done|]. rewrite bind_run. cbn [st_mod].
  unfold st_mod at 1. rewrite bind_run.
  pose proof (subscribe_joins (E := StreamFailure) id (st_events st) (set_bound id st)) as Hsub.
  destruct (subscribe_session_stream id (set_bound id st)) as [st1 [r|e]] eqn:E1.
  - destruct Hsub as [[[Hwf1 Hc1] Ee] Hg]; [by split; [split|]|]. unfold st_mod. cbn [fst].
    apply joined_set; [done|]. destruct (st_events st1); intros r0 [= <-]; by apply Hg.
  - by apply Hsub.
Qed.

Context `{Uuids} `{Message SessionStartPayload} `{Serde PersistedSession}.
Context `{SignalCodec} `{AnnotationCodec} `{FromValue CommitmentRules}.
Context (config : RuntimeConfig).

Lemma joined_gate {E F A} (to : E → F) (m : stm Service E A) : keeps joined (on_server_of to m).
Proof. apply joined_steps. intros events. apply joined_server. Qed.
#[local] Hint Resolve joined_gate joined_bind_live : keeps.
Lemma joined_envelope busy identity env :
  keeps joined (process_stream_envelope config busy identity env).
Proof.
  unfold process_stream_envelope, submit_frame, frame_checks, one_session. keeps_steps.
Qed.

(** *** Subscribe frames *)
Lemma authorize_joined identity id events :
  keeps (λ st, joined st ∧ st_events st = events) (authorize_subscription identity id).
Proof.
  unfold authorize_subscription. apply keeps_bind; [apply joined_server|].
  intros [session|]; [|apply keeps_fail]. destruct (negb _); [apply keeps_fail|].
  apply keeps_bind; [apply joined_server|]. intros [decision|]; [apply keeps_read|apply keeps_ret].
Qed.
Lemma load_good id after logs c c' st :
  load_snapshot id after logs c = Ok c' → good c st → good c' st.
Proof.
  unfold load_snapshot. destruct (subscribe_snapshot _ _ _) as [[replay hw]|]; [|done].
  by intros [= <-].
Qed.
(** The failures of the shared half, as the stream reports them. *)
Lemma failure_hoare {A} P Q E (m : stm StreamState SubscribeError A) :
  hoare P m Q E → hoare P (as_failure m) Q E.
Proof.
  intros Hm st HP. specialize (Hm st HP). unfold as_failure. by destruct (m st) as [st' []].
Qed.
Lemma load_joined id after c :
  hoare (λ st, joined st ∧ good c st) (load_subscription_snapshot id after c)
    (λ c' st, joined st ∧ good c' st) joined.
Proof.
  intros st [Hj Hg]. unfold load_subscription_snapshot, st_read.
  destruct (load_snapshot _ _ _ _) as [c'|] eqn:El; [|done]. split; [done|by eapply load_good].
Qed.
Lemma open_joined identity id after :
  hoare (λ st, joined st ∧ st_events st = None) (open_subscription identity id after)
    (λ c st, joined st ∧ good c st) joined.
Proof.
  unfold open_subscription. eapply hoare_bind with (Q := λ _ st, joined st ∧ st_events st = None).
  { intros st Hst. pose proof (authorize_joined identity id None st Hst) as Ha.
    destruct (authorize_subscription identity id st) as [st' []]; [done|by destruct Ha]. }
  intros ?. eapply hoare_bind; [apply subscribe_joins|]. intros r st [[Hj He] Hg].
  unfold or_leave. pose proof (load_joined id after (cursor_new r) st ltac:(done)) as Hl.
  unfold load_subscription_snapshot, st_read in *.
  destruct (load_snapshot _ _ _ _) as [c'|]; [done|]. destruct Hj as [Hwf _].
  split; [by apply bus_leave_spec|]. cbn. rewrite He. by intros c.
Qed.
Lemma reattach_joined id cursor :
  hoare (λ st, joined st ∧ st_events st = Some cursor)
    (if negb (is_live cursor) then
       st_bind (st_mod (set_bound id)) (λ _,
       st_bind (subscribe_session_stream id) (λ receiver,
       st_mod (set_events (attach receiver cursor))))
     else st_ret () : stm StreamState StreamFailure ())
    (λ _ st, joined st ∧ is_Some (st_events st)) joined.
Proof.
  destruct (negb (is_live cursor)).
  2:{ apply hoare_ret. intros st [Hj ->]. by split; [|eexists]. }
  eapply hoare_bind with (Q := λ _ st, joined st ∧ st_events st = Some cursor).
  { apply hoare_mod. intros st [[Hwf Hc] He]. by split; [split|]. }
  intros ?. eapply hoare_bind; [apply subscribe_joins|]. intros r. apply hoare_mod.
  intros st [[[Hwf _] _] Hg]. split; [apply joined_set; [done|]|by eexists].
  intros r0 [= <-]. by apply Hg.
Qed.

Lemma joined_subscribe identity id after : keeps joined (process_subscribe_frame identity id after).
Proof.
  unfold process_subscribe_frame. apply keeps_bind; [apply keeps_read|]. intros ?.
  eapply hoare_bind with (Q := λ events st, joined st ∧ st_events st = events).
  { eapply hoare_weaken; [by apply hoare_read|done|]. intros events st [Hj [= <-]]. done. }
  intros events. eapply hoare_bind with (Q := λ _, joined).
  - destruct events as [cursor|].
    + eapply hoare_bind with (Q := λ _ st, joined st ∧ st_events st = Some cursor).
      { apply failure_hoare. intros st Hst.
        pose proof (authorize_joined identity id (Some cursor) st Hst) as Ha.
        destruct (authorize_subscription identity id st) as [st' []]; [done|by destruct Ha]. }
      intros ?. eapply hoare_bind; [apply reattach_joined|]. intros ?.
      eapply hoare_bind with (Q := λ c st, joined st ∧ good c st).
      { intros st [[Hwf Hc] [c He]]. cbn. rewrite He. cbn. by split; [split|apply Hc]. }
      intros c. eapply hoare_bind; [apply failure_hoare, load_joined|]. intros c'.
      apply hoare_mod. intros st [[Hwf _] Hg]. by apply joined_set.
    + eapply hoare_bind; [apply failure_hoare, open_joined|]. intros c.
      eapply hoare_bind with (Q := λ _ st, joined st ∧ good c st); [by apply hoare_mod|].
      intros ?. apply hoare_mod. intros st [[Hwf _] Hg]. by apply joined_set.
  - intros ?. eapply hoare_bind with (Q := λ events st, joined st ∧ st_events st = events).
    { eapply hoare_weaken; [by apply hoare_read|done|]. intros ev st [Hj [= <-]]. done. }
    intros [c|]; [|apply hoare_ret; by intros st []]. unfold take_replay.
    eapply hoare_bind with (Q := λ _, joined); [|intros ?; by apply hoare_ret].
    apply hoare_mod. intros st [[Hwf Hc] He]. apply joined_set; [done|]. by apply (Hc c He).
Qed.
Lemma joined_request busy identity req :
  keeps joined (process_stream_request config busy identity req).
Proof.
  unfold process_stream_request. destruct (negb _).
  - destruct (sr_envelope req); [apply keeps_fail|apply joined_subscribe].
  - destruct (sr_envelope req); [|apply keeps_fail].
    apply keeps_bind; [apply joined_envelope|intros ?; apply keeps_ret].
Qed.

(** ** Drains and runs return *)
Lemma drain_step closing st n :
  joined st → backlog (st_bus st) (st_events st) n →
  ∃ st' out flow, drain closing st = Some (st', out, flow) ∧ joined st' ∧
    match flow with
    | Draining closing' => closing' = closing ∧
        ∃ m, n = S m ∧ backlog (st_bus st') (st_events st') m
    | _ => True
    end.
Proof.
  intros Hj Hb. pose proof Hj as [Hwf _]. unfold drain, try_next_stream_event.
  destruct (st_events st) as [c|] eqn:Ee.
  2:{ eexists _, _, _. split; [done|]. split; [|by destruct closing].
      split; [by destruct st as [? []]|]. by intros c. }
  unfold try_next. destruct (poll_total c (bus_chans (st_bus st))) as [[[c1 w1] out1] Ep].
  rewrite Ep. destruct (poll_consumes _ _ _ _ _ _ Hwf Hb Ep) as (Hwf1 & [m Hm] & Hitem).
  pose proof (backlog_joined _ _ _ st Hwf1 Hm) as Hj1.
  destruct out1 as [[o e| |]|lagged]; cbn.
  - destruct (Hitem o e eq_refl) as (k & -> & Hk). eexists _, _, _. split; [done|].
    split; [exact Hj1|]. split; [done|]. by exists k.
  - eexists _, _, _. split; [done|]. split; [exact Hj1|]. by destruct closing.
  - eexists _, _, _. split; [done|]. split; [exact Hj1|]. by destruct closing.
  - eexists _, _, _. split; [done|]. by split.
Qed.

Context `{FromValue DecisionPolicyRules} `{FromValue ProposalPolicyRules}.
Context `{FromValue TaskPolicyRules} `{FromValue HandoffPolicyRules}.
Context `{FromValue QuorumPolicyRules} `{ToValue DecisionPolicyRules}.
Context `{Sha256, Message CommitmentPayload, Base64Url, Base64Std, Ed25519, JsonText, Chrono}.
Context `{ToJson PassthroughResolution}.
Context (receipts : ReceiptConfig) (persists : bool) (policies_read_only : bool).
Abbreviation turn := (iteration config receipts persists policies_read_only).
Abbreviation run_turns := (run_stream config receipts persists policies_read_only).

(** The branches of the [select!]. *)
Lemma select_returns identity arm st :
  joined st → ∃ st' out flow, select config identity arm st = Some (st', out, flow) ∧ joined st'.
Proof.
  intros Hj. destruct arm as [[busy req|status|]| | |e]; cbn; try (eexists _, _, _; by split).
  - unfold serve_request. pose proof (keeps_run _ _ st (joined_request busy identity req) Hj) as Hj1.
    destruct (process_stream_request config busy identity req st) as [st1 r]. cbn [fst] in Hj1.
    destruct (frame_answer (st_bound st1) r); eexists _, _, _; by split.
  - destruct (st_events st) as [c|] eqn:Ee; [|eexists _, _, _; by split].
    destruct (is_live c); [|eexists _, _, _; by split].
    destruct (joined_backlog _ Hj) as [n Hn]. rewrite Ee in Hn.
    destruct (poll_total c (bus_chans (st_bus st))) as [[[c1 w1] out1] Ep]. rewrite Ep. cbn.
    destruct (poll_consumes _ _ _ _ _ _ (proj1 Hj) Hn Ep) as (Hwf1 & [m Hm] & _).
    pose proof (backlog_joined _ _ _ st Hwf1 Hm) as Hj'.
    destruct out1 as [[]|]; eexists _, _, _; by split.
Qed.
Lemma others_join e st : joined st → joined (on_server_of id (others config receipts persists policies_read_only e) st).1.
Proof.
  exact (keeps_run _ _ st (joined_gate id (others config receipts persists policies_read_only e))).
Qed.
Lemma turn_returns identity arm flow st :
  joined st → ∃ st' out flow', turn identity arm flow st = Some (st', out, flow') ∧ joined st'.
Proof.
  intros Hj. destruct flow as [|closing|error]; [| |eexists _, _, _; by split].
  - destruct arm as [i| | |e]; try by apply select_returns.
    eexists _, _, _. split; [done|]. by apply others_join.
  - destruct (joined_backlog _ Hj) as [n Hn].
    destruct (drain_step closing st n Hj Hn) as (st' & out & flow & Ed & Hj' & _).
    destruct arm as [i| | |e]; [eexists _, _, _; by split..|by exists st', out, flow|].
    eexists _, _, _. split; [done|]. by apply others_join.
Qed.
Lemma run_returns identity arms flow st :
  joined st → ∃ st' out flow', run_turns identity arms flow st = Some (st', out, flow').
Proof.
  revert flow st. induction arms as [|arm arms IH]; intros flow st Hj; [by eexists _, _, _|]. cbn.
  destruct (turn_returns identity arm flow st Hj) as (st1 & out1 & flow1 & -> & Hj1). cbn.
  destruct (IH flow1 st1 Hj1) as (st2 & out2 & flow2 & ->). by eexists _, _, _.
Qed.

(** *** How long a drain lasts *)

(** What the steps of a run other than the loop's published. *)
Fixpoint fed (identity : AuthIdentity) (arms : list Arm) (flow : Flow) (st : StreamState) : nat :=
  match arms with
  | [] => O
  | arm :: arms =>
      match turn identity arm flow st with
      | Some (st', _, flow) =>
          (length (published_by (st_service st) (st_service st')) + fed identity arms flow st')%nat
      | None => O
      end
  end.
(** Steps the loop takes while it drains, with the work of others. *)
Definition drains (arm : Arm) : bool := match arm with ArmDrain => true | _ => false end.
Definition while_draining (arm : Arm) : bool :=
  match arm with ArmDrain | ArmOthers _ => true | _ => false end.
Definition draining (flow : Flow) : bool := match flow with Draining _ => true | _ => false end.

Lemma over_stays identity arms flow st st' out flow' :
  draining flow = false → forallb while_draining arms = true →
  run_turns identity arms flow st = Some (st', out, flow') → draining flow' = false.
Proof.
  revert flow st out. induction arms as [|arm arms IH]; intros flow st out Hd; [by intros _ [= <- <- <-]|].
  cbn. intros [Ha Has]%andb_true_iff.
  assert (∃ st1, turn identity arm flow st = Some (st1, [], flow)) as [st1 ->].
  { destruct flow, arm as [i| | |e]; try done; by eexists. }
  cbn. destruct (run_turns identity arms flow st1) as [[[st2 out2] flow2]|] eqn:E; [|done].
  intros [= <- <- <-]. by eapply IH.
Qed.

End joined.

Module Demo.
#[local] Existing Instance demo_uuids.
#[local] Existing Instance Step.Demo.m_start.
#[local] Existing Instance Step.Demo.to_json_resolution.
#[local] Existing Instance Durable.Demo.signals.
#[local] Existing Instance Durable.Demo.annotations.
#[local] Existing Instance Durable.Demo.snapshots.
#[local] Existing Instance PolicyAdmission.Demo.decision_doc.
#[local] Existing Instance PolicyAdmission.Demo.proposal_doc.
#[local] Existing Instance PolicyAdmission.Demo.task_doc.
#[local] Existing Instance PolicyAdmission.Demo.handoff_doc.
#[local] Existing Instance PolicyAdmission.Demo.quorum_doc.
#[local] Existing Instance PolicyAdmission.Demo.commitment_doc.
#[local] Existing Instance PolicyAdmission.Demo.decision_value.
#[local] Existing Instance UrlSafe.engine.
#[local] Existing Instance PlainKeys.scheme.
#[local] Existing Instance FlatJson.reader.
#[local] Existing Instance demo_sha.
#[local] Existing Instance demo_commitment_message.
#[local] Existing Instance Receipt.Demo.std_engine.
#[local] Existing Instance ReceiptIssue.Demo.millis.
#[local] Existing Instance Auth.Demo.jwt.
#[local] Existing Instance ListChannels.channels.
#[local] Existing Instance ListChannels.channels_laws.

(** A client opens a stream, starts a session on it, is handed the start back and
    hangs up. *)
Definition bus0 : Bus := MkBusState bus_default (ListChannels.MkChans [] []).
Definition st0 : StreamState := opened Serving.Demo.service bus0.
Definition arms : list Arm :=
  [ArmInbound (InRequest (λ _, false) (MkStreamSessionRequest "" 0 (Some Step.Demo.start)));
   ArmDrain; ArmDrain; ArmEvents; ArmInbound InDone; ArmDrain].
Definition caller : AuthIdentity := dev_identity "alice".
Abbreviation run := (run_stream Durable.Demo.config ReceiptIssue.Demo.config false false).
Definition ran := run caller arms Selecting st0.
Lemma ran_ok :
  ((λ r, (r.1.2, r.2, accepted Step.Demo.id (svc_server (st_service r.1.1)))) <$> ran)
  = Some ([ResponseEnvelope Step.Demo.start], Finished None, [Step.Demo.start]).
Proof. vm_compute. reflexivity. Qed.

Lemma stream_speaks_for_its_caller_witness :
  ∃ st' out flow, ran = Some (st', out, flow) ∧
    ∃ st1 arm, (st1, arm) ∈ turns Durable.Demo.config ReceiptIssue.Demo.config false false caller arms
                              Selecting st0 ∧
      turn_accounts caller st1 arm (st_bound st') Step.Demo.start.
Proof.
  pose proof ran_ok as Hok. destruct ran as [[[st' out] flow]|] eqn:E; [|discriminate Hok].
  cbn in Hok. injection Hok as Hout Hflow Hacc.
  exists st', out, flow. split; [reflexivity|].
  destruct (stream_speaks_for_its_caller Durable.Demo.config ReceiptIssue.Demo.config false false
    Step.Demo.id caller arms Selecting st0 st' out flow ltac:(done) Serving.Demo.service_ready ltac:(done) E)
    as (_ & _ & entered & Hf & Ha).
  rewrite Hacc in Ha. cbn in Ha. subst entered. by apply Forall_cons in Hf as [Hf _].
Defined.

(** A stream that is about to end, with one envelope on the bus. *)
Definition attached_bus : Bus * Receiver := bus_subscribe Step.Demo.id bus0.
Definition waiting_st : StreamState :=
  MkStreamState Serving.Demo.service (bus_publish Step.Demo.id Step.Demo.start attached_bus.1)
    (Some Step.Demo.id) (Some (cursor_new attached_bus.2)).
Lemma waiting_backlog : bus_wf (st_bus waiting_st) ∧ backlog (st_bus waiting_st) (st_events waiting_st) 1.
Proof.
  assert (bus_wf bus0) as Hwf.
  { split; cbn; [done|..]; [by intros ? ? ?%lookup_empty_Some|by intros ? ? ? ?%lookup_empty_Some]. }
  destruct (bus_subscribe_spec Step.Demo.id bus0 attached_bus.1 attached_bus.2 Hwf eq_refl)
    as ((Hwf1 & _) & Ha & _).
  destruct (bus_publish_spec Step.Demo.id Step.Demo.start _ Hwf1) as (Hwf2 & _ & Hp).
  apply Hp in Ha. rewrite decide_True in Ha by done. split; [exact Hwf2|].
  exists Step.Demo.id, [Step.Demo.start]. split; [exact Ha|done].
Qed.
Lemma waiting_joined : joined waiting_st.
Proof. destruct waiting_backlog as [Hwf Hb]. exact (backlog_joined _ _ _ waiting_st Hwf Hb). Qed.

End Demo.
