(* ===== verification/WatchSessions.v ===== *)
(** * WatchSessions (src/watch_sync.rs, [watch_sessions] of src/server.rs)

    A watcher of session lifecycles: it subscribes to the lifecycle bus, reports
    the sessions of a registry snapshot one by one while it buffers what the bus
    brings, and then reports the bus. It runs interleaved with the starts,
    changes and evictions of the runtime. Sessions are shared cells, as the
    registry holds them. *)

From stdpp Require Import prelude gmap strings.
From S2P Require Import Prelude RustStr Floats Extern Error Policy Wire SessionData Log Auth Pagination.
From S2P Require Import Stream.
Open Scope Z_scope.

(** ** Lifecycle events *)
Inductive EventKind :=
| EventCreated | EventResolved | EventExpired | EventSuspended | EventResumed | EventCancelled.
#[export] Instance event_kind_eq_dec : EqDecision EventKind.
Proof. solve_decision. Defined.
Record LifecycleEvent := MkLifecycleEvent { le_kind : EventKind; le_session_id : string }.

(** ** The initial sync *)
Definition PENDING_EVENT_LIMIT : Z := 1024.
Definition LIFECYCLE_BUS_CAPACITY : Z := 64.

Inductive DrainError := DrainLagged (skipped : Z) | DrainOverflow (limit : Z).
Definition drain_error_message (e : DrainError) : text :=
  match e with
  | DrainLagged skipped =>
      [Lit "WatchSessions receiver fell behind by "; FInt skipped; Lit " events"]
  | DrainOverflow limit =>
      [Lit "WatchSessions initial sync buffered more than "; FInt limit;
       Lit " lifecycle events; reconnect and reconcile with ListSessions"]
  end.

(** One turn of [drain_lifecycle_events]: the buffer, or [None] when the drain
    is over. *)
Definition drain_step (limit : Z) (pending : list LifecycleEvent) (received : TryRecv LifecycleEvent)
    : result DrainError (option (list LifecycleEvent)) :=
  match received with
  | RecvOk event =>
      if len pending >=? limit then Err (DrainOverflow limit) else Ok (Some (pending ++ [event]))
  | RecvEmpty | RecvClosed => Ok None
  | RecvLagged skipped => Err (DrainLagged skipped)
  end.

(** ** The watcher and the runtime *)
Section watch.
Context `{HB : Broadcast LifecycleEvent}.

(** What the stream yields. *)
Record Report := MkReport {
  rp_kind : EventKind;
  rp_session_id : string;
  rp_session : option Session;
}.
(** The generator, by where it stands. The handles are those not visited yet;
    [draining] tells the two halves of a turn of the sync apart. *)
Inductive Watcher :=
| Unwatched
| Subscribed (rx : Receiver)
| Syncing (rx : Receiver) (draining : bool) (handles : list nat) (synced : gset string)
    (pending : list LifecycleEvent)
| Streaming (rx : Receiver) (synced : gset string) (pending : list LifecycleEvent)
| Ended (error : option Status).

(** The registry maps ids to shared cells; a locked cell is one whose start has
    neither committed nor rolled back. [wt_unannounced] are the sessions whose
    start committed and whose Created is still to be sent. The last three record
    the history: what was sent on the bus, how much of it when the watcher
    subscribed, and the sessions of the snapshot. *)
Record Watched := MkWatched {
  wt_cells : list Session;
  wt_registry : gmap string nat;
  wt_locked : gset nat;
  wt_unannounced : list string;
  wt_sender : Sender;
  wt_chans : Channels;
  wt_watcher : Watcher;
  wt_out : list Report;
  wt_sent : list LifecycleEvent;
  wt_mark : nat;
  wt_snapshot : list string;
}.
Definition cell_id (cells : list Session) (ptr : nat) : string :=
  match cells !! ptr with Some s => ss_session_id s | None => "" end.

Definition set_store cells registry locked unannounced (w : Watched) : Watched :=
  MkWatched cells registry locked unannounced (wt_sender w) (wt_chans w) (wt_watcher w) (wt_out w)
    (wt_sent w) (wt_mark w) (wt_snapshot w).
Definition publish (e : LifecycleEvent) (w : Watched) : Watched :=
  MkWatched (wt_cells w) (wt_registry w) (wt_locked w) (wt_unannounced w) (wt_sender w)
    (bc_send (wt_sender w) e (wt_chans w)) (wt_watcher w) (wt_out w) (wt_sent w ++ [e])
    (wt_mark w) (wt_snapshot w).
Definition set_watcher (watcher : Watcher) (chans : Channels) (out : list Report) (w : Watched) : Watched :=
  MkWatched (wt_cells w) (wt_registry w) (wt_locked w) (wt_unannounced w) (wt_sender w) chans watcher
    (wt_out w ++ out) (wt_sent w) (wt_mark w) (wt_snapshot w).

(** The runtime's half: a start reserves a cell, then commits and, with the lock
    released, announces itself, or rolls back; other changes of a session are
    made under its lock and announced under it. *)
Inductive RuntimeAction :=
| Reserve (s : Session)
| RollBack (id : string)
| Commit (id : string)
| Announce (id : string)
| Change (s : Session) (kind : EventKind)
| Evict (id : string).
Definition runtime_act (a : RuntimeAction) (w : Watched) : Watched :=
  match a with
  | Reserve s =>
      if bool_decide (is_Some (wt_registry w !! ss_session_id s)) then w
      else set_store (wt_cells w ++ [s]) (<[ss_session_id s := length (wt_cells w)]> (wt_registry w))
             ({[length (wt_cells w)]} ∪ wt_locked w) (wt_unannounced w) w
  | RollBack id =>
      match wt_registry w !! id with
      | Some ptr =>
          if bool_decide (ptr ∈ wt_locked w) then
            set_store (alter (set_state Expired) ptr (wt_cells w)) (delete id (wt_registry w))
              (wt_locked w ∖ {[ptr]}) (wt_unannounced w) w
          else w
      | None => w
      end
  | Commit id =>
      match wt_registry w !! id with
      | Some ptr =>
          if bool_decide (ptr ∈ wt_locked w) then
            set_store (wt_cells w) (wt_registry w) (wt_locked w ∖ {[ptr]}) (wt_unannounced w ++ [id]) w
          else w
      | None => w
      end
  | Announce id =>
      if bool_decide (id ∈ wt_unannounced w) then
        publish (MkLifecycleEvent EventCreated id)
          (set_store (wt_cells w) (wt_registry w) (wt_locked w)
             (List.filter (λ x, x != id) (wt_unannounced w)) w)
      else w
  | Change s kind =>
      match wt_registry w !! ss_session_id s with
      | Some ptr =>
          if bool_decide (ptr ∈ wt_locked w) || (kind == EventCreated) then w
          else publish (MkLifecycleEvent kind (ss_session_id s))
                 (set_store (<[ptr := s]> (wt_cells w)) (wt_registry w) (wt_locked w)
                    (wt_unannounced w) w)
      | None => w
      end
  | Evict id =>
      match wt_registry w !! id with
      | Some ptr =>
          if bool_decide (ptr ∈ wt_locked w) then w
          else set_store (wt_cells w) (delete id (wt_registry w)) (wt_locked w) (wt_unannounced w) w
      | None => w
      end
  end.

(** The watcher's half. *)
Definition fell_behind (e : DrainError) : Watcher :=
  Ended (Some (Error.StreamLagged, drain_error_message e)).
(** A session's cell, as the registry has it now. *)
Definition registered (id : string) (w : Watched) : option Session :=
  wt_registry w !! id ≫= λ ptr, wt_cells w !! ptr.
(** An event of the bus: the Created of a session the sync reported is dropped. *)
Definition report (synced : gset string) (event : LifecycleEvent) (w : Watched) : list Report :=
  if (le_kind event == EventCreated) && bool_decide (le_session_id event ∈ synced) then []
  else [MkReport (le_kind event) (le_session_id event) (registered (le_session_id event) w)].

(** The call, which subscribes; the first poll of the generator, which takes the
    snapshot (in the order of the map's values); and its turns. *)
Inductive WatchAction := Watch | Begin (handles : list nat) | Turn.
Definition watch_turn (w : Watched) : Watched :=
  match wt_watcher w with
  | Syncing rx true handles synced pending =>
      let '(chans, received) := bc_try_recv rx (wt_chans w) in
      set_watcher
        match drain_step PENDING_EVENT_LIMIT pending received with
        | Ok (Some pending) => Syncing rx true handles synced pending
        | Ok None => Syncing rx false handles synced pending
        | Err e => fell_behind e
        end chans [] w
  | Syncing rx false [] synced pending => set_watcher (Streaming rx synced pending) (wt_chans w) [] w
  | Syncing rx false (ptr :: handles) synced pending =>
      if bool_decide (ptr ∈ wt_locked w) then w
      else
        match wt_cells w !! ptr with
        | Some s =>
            set_watcher (Syncing rx true handles ({[ss_session_id s]} ∪ synced) pending) (wt_chans w)
              [MkReport EventCreated (ss_session_id s) (Some s)] w
        | None => w
        end
  | Streaming rx synced (event :: pending) =>
      set_watcher (Streaming rx synced pending) (wt_chans w) (report synced event w) w
  | Streaming rx synced [] =>
      let '(chans, received) := bc_try_recv rx (wt_chans w) in
      match received with
      | RecvOk event => set_watcher (Streaming rx synced []) chans (report synced event w) w
      | RecvEmpty => set_watcher (Streaming rx synced []) chans [] w
      | RecvClosed => set_watcher (Ended None) chans [] w
      | RecvLagged skipped => set_watcher (fell_behind (DrainLagged skipped)) chans [] w
      end
  | _ => w
  end.
Definition watch_act (a : WatchAction) (w : Watched) : Watched :=
  match a, wt_watcher w with
  | Watch, Unwatched =>
      let '(chans, rx) := bc_subscribe (wt_sender w) (wt_chans w) in
      MkWatched (wt_cells w) (wt_registry w) (wt_locked w) (wt_unannounced w) (wt_sender w) chans
        (Subscribed rx) (wt_out w) (wt_sent w) (length (wt_sent w)) (wt_snapshot w)
  | Begin handles, Subscribed rx =>
      if bool_decide (handles ≡ₚ (map_to_list (wt_registry w)).*2) then
        MkWatched (wt_cells w) (wt_registry w) (wt_locked w) (wt_unannounced w) (wt_sender w)
          (wt_chans w) (Syncing rx true handles ∅ []) (wt_out w) (wt_sent w) (wt_mark w)
          (cell_id (wt_cells w) <$> handles)
      else w
  | Turn, _ => watch_turn w
  | _, _ => w
  end.

Definition step_of (a : RuntimeAction + WatchAction) (w : Watched) : Watched :=
  match a with inl a => runtime_act a w | inr a => watch_act a w end.
Definition run_watch (acts : list (RuntimeAction + WatchAction)) (w : Watched) : Watched :=
  foldl (flip step_of) w acts.
(** A runtime that has just started. *)
Definition watch_start (sender : Sender) (chans : Channels) : Watched :=
  MkWatched [] ∅ ∅ [] sender chans Unwatched [] [] 0 [].
End watch.

(** ** What a watcher is told *)
Section story.
Context `{HB : Broadcast LifecycleEvent, HL : !BroadcastLaws}.

Definition reported (out : list Report) : list LifecycleEvent :=
  (λ r, MkLifecycleEvent (rp_kind r) (rp_session_id r)) <$> out.
Definition created (ids : list string) : list LifecycleEvent := MkLifecycleEvent EventCreated <$> ids.
(** The events that tell something new to who was told of [known]. *)
Definition is_news (known : gset string) (e : LifecycleEvent) : bool :=
  negb ((le_kind e == EventCreated) && bool_decide (le_session_id e ∈ known)).
Definition news (known : gset string) (l : list LifecycleEvent) : list LifecycleEvent :=
  List.filter (is_news known) l.
(** Everything there is to tell: the sessions of the snapshot, then what the bus
    carried since the subscription. *)
Definition story (w : Watched) : list LifecycleEvent :=
  created (wt_snapshot w) ++ news (list_to_set (wt_snapshot w)) (drop (wt_mark w) (wt_sent w)).

Lemma report_news synced e w :
  reported (report synced e w) = news synced [e].
Proof.
  unfold report, news, is_news. cbn. destruct (_ && _); [done|]. by destruct e.
Qed.
Lemma reported_app l1 l2 : reported (l1 ++ l2) = reported l1 ++ reported l2.
Proof. apply fmap_app. Qed.
Lemma news_app known l1 l2 : news known (l1 ++ l2) = news known l1 ++ news known l2.
Proof. apply List.filter_app. Qed.

(** *** The cells keep their ids *)
Definition registry_ok (w : Watched) : Prop :=
  ∀ id ptr, wt_registry w !! id = Some ptr →
    ∃ s, wt_cells w !! ptr = Some s ∧ ss_session_id s = id.
Definition cells_kept (w w' : Watched) : Prop :=
  ∀ ptr s, wt_cells w !! ptr = Some s →
    ∃ s', wt_cells w' !! ptr = Some s' ∧ ss_session_id s' = ss_session_id s.

Lemma runtime_cells a w : registry_ok w → registry_ok (runtime_act a w) ∧ cells_kept w (runtime_act a w).
Proof.
  unfold registry_ok, cells_kept. intros Hok.
  assert (∀ ptr s, wt_cells w !! ptr = Some s →
    ∃ s', wt_cells w !! ptr = Some s' ∧ ss_session_id s' = ss_session_id s) as Hsame
    by (intros ptr s ?; by exists s).
  destruct a as [s|id|id|id|s kind|id]; cbn.
  - case_bool_decide; cbn; [done|]. split.
    + intros id ptr [[<- <-]|[_ Hid]]%lookup_insert_Some.
      * exists s. split; [|done]. by rewrite list_lookup_middle.
      * destruct (Hok id ptr Hid) as (s' & Hs' & ?). exists s'. split; [|done].
        by apply lookup_app_l_Some.
    + intros ptr s' Hs'. exists s'. split; [|done]. by apply lookup_app_l_Some.
  - destruct (wt_registry w !! id) as [ptr|]; [|done]. case_bool_decide; cbn; [|done].
    assert (∀ p s, wt_cells w !! p = Some s →
      ∃ s', alter (set_state Expired) ptr (wt_cells w) !! p = Some s' ∧ ss_session_id s' = ss_session_id s)
      as Hk.
    { intros p s Hs. destruct (decide (p = ptr)) as [->|Hne].
      - exists (set_state Expired s). by rewrite list_lookup_alter_eq, Hs.
      - exists s. by rewrite list_lookup_alter_ne. }
    split; [|exact Hk]. intros id' p [_ Hp]%lookup_delete_Some.
    destruct (Hok id' p Hp) as (s & Hs & <-). by apply Hk.
  - destruct (wt_registry w !! id) as [ptr|]; [|done]. case_bool_decide; by cbn.
  - case_bool_decide; by cbn.
  - destruct (wt_registry w !! ss_session_id s) as [ptr|] eqn:Er; [|done]. destruct (_ || _); cbn; [done|].
    destruct (Hok _ _ Er) as (s0 & Hs0 & Hid). apply lookup_lt_Some in Hs0 as Hlt.
    assert (∀ p s1, wt_cells w !! p = Some s1 →
      ∃ s', <[ptr := s]> (wt_cells w) !! p = Some s' ∧ ss_session_id s' = ss_session_id s1) as Hk.
    { intros p s1 Hs1. destruct (decide (p = ptr)) as [->|Hne].
      - exists s. rewrite list_lookup_insert_eq by done. split; [done|congruence].
      - exists s1. by rewrite list_lookup_insert_ne. }
    split; [|exact Hk]. intros id' p Hp. destruct (Hok id' p Hp) as (s1 & Hs1 & <-). by apply Hk.
  - destruct (wt_registry w !! id) as [ptr|]; [|done]. case_bool_decide; cbn; [done|].
    split; [|done]. intros id' p [_ Hp]%lookup_delete_Some. by apply Hok.
Qed.

(** *** What the runtime's actions leave of the rest *)
Definition same_watcher (w w' : Watched) : Prop :=
  wt_sender w' = wt_sender w ∧ wt_watcher w' = wt_watcher w ∧ wt_out w' = wt_out w ∧
  wt_mark w' = wt_mark w ∧ wt_snapshot w' = wt_snapshot w.
Lemma runtime_bus a w :
  same_watcher w (runtime_act a w) ∧
  (wt_chans (runtime_act a w) = wt_chans w ∧ wt_sent (runtime_act a w) = wt_sent w ∨
   ∃ e, wt_chans (runtime_act a w) = bc_send (wt_sender w) e (wt_chans w) ∧
     wt_sent (runtime_act a w) = wt_sent w ++ [e]).
Proof.
  unfold same_watcher.
  destruct a as [s|id|id|id|s kind|id]; cbn; try destruct (wt_registry w !! _) as [ptr|];
    try case_bool_decide; cbn; try destruct (kind == EventCreated); cbn;
    (split; [by split_and!|]); eauto.
Qed.

(** A receiver of the lifecycle bus that has [q] to read. *)
Definition reads (w : Watched) (rx : Receiver) (q : list LifecycleEvent) : Prop :=
  ∃ n, inbox rx (wt_chans w) = Some (MkInbox (wt_sender w) n q).
Definition watcher_inv (w : Watched) : Prop :=
  let since := drop (wt_mark w) (wt_sent w) in
  match wt_watcher w with
  | Unwatched => wt_out w = [] ∧ wt_snapshot w = []
  | Subscribed rx => wt_out w = [] ∧ wt_snapshot w = [] ∧ reads w rx since
  | Syncing rx _ handles synced pending =>
      ∃ told unread, reads w rx unread ∧ since = pending ++ unread ∧ len pending ≤ PENDING_EVENT_LIMIT ∧
        wt_snapshot w = told ++ (cell_id (wt_cells w) <$> handles) ∧
        Forall (λ ptr, is_Some (wt_cells w !! ptr)) handles ∧
        synced = list_to_set told ∧ reported (wt_out w) = created told
  | Streaming rx synced pending =>
      ∃ handled unread, reads w rx unread ∧ since = handled ++ pending ++ unread ∧
        len pending ≤ PENDING_EVENT_LIMIT ∧ synced = list_to_set (wt_snapshot w) ∧
        reported (wt_out w) = created (wt_snapshot w) ++ news synced handled
  | Ended _ => reported (wt_out w) `prefix_of` story w
  end.
Record watch_inv (w : Watched) : Prop := {
  wi_registry : registry_ok w;
  wi_sender : is_Some (sender_capacity (wt_sender w) (wt_chans w));
  wi_mark : (wt_mark w ≤ length (wt_sent w))%nat;
  wi_watcher : watcher_inv w;
}.

Lemma handles_kept w w' handles :
  cells_kept w w' → Forall (λ ptr, is_Some (wt_cells w !! ptr)) handles →
  Forall (λ ptr, is_Some (wt_cells w' !! ptr)) handles ∧
  cell_id (wt_cells w') <$> handles = cell_id (wt_cells w) <$> handles.
Proof.
  intros Hk Hf. split.
  - eapply Forall_impl; [exact Hf|]. intros ptr [s Hs]. destruct (Hk _ _ Hs) as (s' & -> & _). by eexists.
  - apply list_fmap_ext. intros i ptr Hi. eapply Forall_lookup_1 in Hf as [s Hs]; [|done].
    unfold cell_id. destruct (Hk _ _ Hs) as (s' & -> & E). by rewrite Hs.
Qed.

(** The bus may carry one more event. *)
Lemma watcher_runtime w w' new :
  same_watcher w w' → cells_kept w w' → wt_sent w' = wt_sent w ++ new →
  (wt_mark w ≤ length (wt_sent w))%nat →
  (∀ rx q, reads w rx q → reads w' rx (q ++ new)) → watcher_inv w → watcher_inv w'.
Proof.
  intros (_ & Ew & Eo & Em & Esn) Hk Es Hm Hr. unfold watcher_inv, story.
  rewrite Ew, Eo, Em, Esn, Es, drop_app_le by done.
  destruct (wt_watcher w) as [|rx|rx d handles synced pending|rx synced pending|error]; [done| | | |].
  - intros (? & ? & Hrx%Hr). by split_and!.
  - intros (told & unread & Hrx%Hr & E & Hl & Hsn & Hf & Hsy & Hout).
    destruct (handles_kept _ _ _ Hk Hf) as [Hf' Eid]. exists told, (unread ++ new).
    rewrite E, Eid, app_assoc. by split_and!.
  - intros (handled & unread & Hrx%Hr & E & Hl & Hsy & Hout). exists handled, (unread ++ new).
    rewrite E, !app_assoc. by split_and!.
  - intros Hp. rewrite news_app, app_assoc. by apply prefix_app_r.
Qed.

Lemma runtime_inv a w : watch_inv w → watch_inv (runtime_act a w).
Proof.
  intros [Hreg Hs Hm Hw]. destruct (runtime_cells a w Hreg) as [Hreg' Hk].
  destruct (runtime_bus a w) as [Hsame Hbus]. pose proof Hsame as (Ese & _ & _ & Em & _).
  destruct Hbus as [[Ec Et]|(e & Ec & Et)].
  - split; [done|by rewrite Ec, Ese|by rewrite Em, Et|].
    eapply (watcher_runtime w _ []); try done; [by rewrite app_nil_r|].
    intros rx q [n Hn]. exists n. by rewrite Ec, Ese, app_nil_r.
  - destruct (send_law (wt_sender w) e (wt_chans w)) as [Hcap Hin]. split; [done| | |].
    + by rewrite Ec, Ese, Hcap.
    + rewrite Em, Et, length_app. cbn. lia.
    + eapply (watcher_runtime w _ [e]); try done. intros rx q [n Hn]. exists n.
      rewrite Ec, Ese, Hin, Hn. cbn. by rewrite decide_True by done.
Qed.

(** *** The watcher's actions *)
Lemma subscribe_inv w : watch_inv w → watch_inv (watch_act Watch w).
Proof.
  intros [Hreg [n Hs] Hm Hw]. cbn. destruct (wt_watcher w) eqn:Ew; try (split; by eauto).
  destruct (bc_subscribe _ _) as [chans rx] eqn:Es.
  destruct (subscribe_law _ _ _ _ _ Hs Es) as (_ & Hcap & Hin). unfold watcher_inv in Hw. rewrite Ew in Hw.
  split; cbn; [done|by rewrite Hcap; eexists|done|]. unfold watcher_inv. cbn.
  split_and!; [apply Hw..|]. rewrite drop_all. exists n. cbn. rewrite Hin. by rewrite decide_True.
Qed.
Lemma begin_inv handles w : watch_inv w → watch_inv (watch_act (Begin handles) w).
Proof.
  intros [Hreg Hs Hm Hw]. cbn. destruct (wt_watcher w) as [|rx| | |] eqn:Ew; try (split; by eauto).
  case_bool_decide as Hp; [|split; by eauto]. unfold watcher_inv in Hw. rewrite Ew in Hw.
  destruct Hw as (Eo & _ & Hr). split; cbn; [done..|]. exists [], (drop (wt_mark w) (wt_sent w)).
  split_and!; [done|done|done|done| |done|by rewrite Eo].
  rewrite Hp. apply Forall_fmap, Forall_forall. intros [id ptr] Hin%elem_of_map_to_list.
  destruct (Hreg _ _ Hin) as (s & Hs' & _). by eexists.
Qed.

(** One read of the bus by the watcher: the oldest unread event, or none of
    them is taken, or the watcher is told how many it lost. *)
Lemma watcher_recv w rx q chans received :
  reads w rx q → bc_try_recv rx (wt_chans w) = (chans, received) →
  (∀ s, sender_capacity s chans = sender_capacity s (wt_chans w)) ∧
  match received with
  | RecvOk e => ∃ q', q = e :: q' ∧ ∃ n, inbox rx chans = Some (MkInbox (wt_sender w) n q')
  | RecvEmpty | RecvClosed => q = [] ∧ ∃ n, inbox rx chans = Some (MkInbox (wt_sender w) n [])
  | RecvLagged _ => True
  end.
Proof.
  intros [n Hn] Hr. destruct (recv_law _ _ _ _ _ Hn Hr) as (Hcap & _ & Hout). split; [done|].
  cbn in Hout. case_decide; [by destruct Hout as [-> _]|].
  destruct q as [|e q]; destruct Hout as [-> Hi]; [|by eauto].
  destruct (sender_capacity _ _); by eauto.
Qed.

Lemma prefix_story w handled rest :
  drop (wt_mark w) (wt_sent w) = handled ++ rest →
  created (wt_snapshot w) ++ news (list_to_set (wt_snapshot w)) handled `prefix_of` story w.
Proof. intros E. unfold story. rewrite E, news_app, app_assoc. by eexists. Qed.

Lemma drain_turn_inv rx handles synced pending w :
  wt_watcher w = Syncing rx true handles synced pending → watch_inv w → watch_inv (watch_turn w).
Proof.
  intros Ew [Hreg Hs Hm Hw]. unfold watch_turn, watcher_inv in *. rewrite Ew in *.
  destruct Hw as (told & unread & Hr & E & Hl & Hsn & Hf & Hsy & Hout).
  destruct (bc_try_recv rx (wt_chans w)) as [chans received] eqn:Erecv.
  destruct (watcher_recv _ _ _ _ _ Hr Erecv) as [Hcap Hq].
  assert (reported (wt_out w ++ []) `prefix_of` story w) as Hpre.
  { rewrite app_nil_r, Hout. unfold story, created. rewrite Hsn, fmap_app, <- app_assoc. by eexists. }
  split; cbn; [done|by rewrite Hcap|done|]. unfold watcher_inv. cbn. unfold drain_step.
  destruct received as [e| | |n]; cbn.
  - destruct Hq as (q' & -> & n & Hi). destruct (len pending >=? PENDING_EVENT_LIMIT) eqn:El; cbn.
    + exact Hpre.
    + exists told, q'. rewrite app_nil_r, <- app_assoc. split_and!; try done; [by exists n|].
      rewrite len_app. change (len [e]) with 1. lia.
  - destruct Hq as [-> [n Hi]]. exists told, []. rewrite !app_nil_r in *. split_and!; try done. by exists n.
  - destruct Hq as [-> [n Hi]]. exists told, []. rewrite !app_nil_r in *. split_and!; try done. by exists n.
  - exact Hpre.
Qed.

Lemma sync_turn_inv rx handles synced pending w :
  wt_watcher w = Syncing rx false handles synced pending → watch_inv w → watch_inv (watch_turn w).
Proof.
  intros Ew Hinv. pose proof Hinv as [Hreg Hs Hm Hw]. unfold watch_turn, watcher_inv in *.
  rewrite Ew in *. destruct Hw as (told & unread & Hr & E & Hl & Hsn & Hf & Hsy & Hout).
  destruct handles as [|ptr handles].
  { cbn in Hsn. rewrite app_nil_r in Hsn. split; cbn; [done..|]. unfold watcher_inv. cbn.
    exists [], unread. rewrite app_nil_r. cbn. rewrite Hsn, app_nil_r. by split_and!. }
  case_bool_decide; [done|]. apply Forall_cons in Hf as [[s Hc] Hf]. rewrite Hc.
  split; cbn; [done..|]. unfold watcher_inv. cbn.
  assert (cell_id (wt_cells w) ptr = ss_session_id s) as Eid by (unfold cell_id; by rewrite Hc).
  exists (told ++ [ss_session_id s]), unread. rewrite reported_app, Hout. unfold created.
  rewrite fmap_app, <- app_assoc. cbn in Hsn. rewrite Eid in Hsn. split_and!; try done. set_solver.
Qed.

Lemma stream_turn_inv rx synced pending w :
  wt_watcher w = Streaming rx synced pending → watch_inv w → watch_inv (watch_turn w).
Proof.
  intros Ew [Hreg Hs Hm Hw]. unfold watch_turn, watcher_inv in *. rewrite Ew in *.
  destruct Hw as (handled & unread & Hr & E & Hl & -> & Hout).
  assert (∀ e out rest, drop (wt_mark w) (wt_sent w) = handled ++ e :: rest →
    reported out = news (list_to_set (wt_snapshot w)) [e] →
    reported (wt_out w ++ out)
      = created (wt_snapshot w) ++ news (list_to_set (wt_snapshot w)) (handled ++ [e])) as Htell.
  { intros e out rest _ Eo. by rewrite reported_app, Eo, Hout, news_app, app_assoc. }
  destruct pending as [|event pending].
  - destruct (bc_try_recv rx (wt_chans w)) as [chans received] eqn:Erecv.
    destruct (watcher_recv _ _ _ _ _ Hr Erecv) as [Hcap Hq]. cbn in E.
    destruct received as [e| | |n]; (split; cbn; [done|by rewrite Hcap|done|]); unfold watcher_inv; cbn.
    + destruct Hq as (q' & -> & n & Hi). exists (handled ++ [e]), q'. rewrite <- app_assoc.
      split_and!; try done; [by exists n|]. eapply Htell; [exact E|apply report_news].
    + destruct Hq as [-> [n Hi]]. exists handled, []. rewrite !app_nil_r in *. split_and!; try done. by exists n.
    + change (reported (wt_out w ++ []) `prefix_of` story w). rewrite app_nil_r, Hout. by eapply prefix_story.
    + change (reported (wt_out w ++ []) `prefix_of` story w). rewrite app_nil_r, Hout. by eapply prefix_story.
  - split; cbn; [done..|]. unfold watcher_inv. cbn. exists (handled ++ [event]), unread.
    rewrite <- app_assoc. split_and!; try done.
    + rewrite len_cons in Hl. lia.
    + eapply Htell; [exact E|apply report_news].
Qed.

Lemma watch_act_inv a w : watch_inv w → watch_inv (watch_act a w).
Proof.
  intros Hinv. destruct a as [|handles|]; [by apply subscribe_inv|by apply begin_inv|].
  cbn. destruct (wt_watcher w) as [|rx|rx [] handles synced pending|rx synced pending|error] eqn:Ew;
    [| |by eapply drain_turn_inv|by eapply sync_turn_inv|by eapply stream_turn_inv|];
    unfold watch_turn; by rewrite Ew.
Qed.
Lemma run_watch_inv acts w : watch_inv w → watch_inv (run_watch acts w).
Proof.
  revert w. induction acts as [|[a|a] acts IH]; intros w Hw; [done|..]; apply IH;
    [by apply runtime_inv|by apply watch_act_inv].
Qed.
Lemma watch_start_inv sender chans :
  is_Some (sender_capacity sender chans) → watch_inv (watch_start sender chans).
Proof.
  intros Hs. split; [|done|done|done].
  intros id ptr Hid. cbn in Hid. by apply lookup_empty_Some in Hid.
Qed.

(** C17. A watcher is told everything once and in order. However the watcher's
    steps interleave with the starts, roll-backs, changes and evictions of
    sessions, what it has been told is at every moment an initial part of the
    story: Created for each session of the snapshot, and then every event sent
    since it subscribed, in the order of the bus, but for the Created of a
    session the snapshot already told of. Once the snapshot is through and
    nothing waits in the buffer or on the bus, it has been told all of it. The
    buffer never holds more than its limit. *)
Theorem watcher_told_everything acts sender chans :
  is_Some (sender_capacity sender chans) →
  let w := run_watch acts (watch_start sender chans) in
  reported (wt_out w) `prefix_of` story w ∧
  match wt_watcher w with
  | Syncing _ _ _ _ pending => len pending ≤ PENDING_EVENT_LIMIT
  | Streaming rx _ pending => len pending ≤ PENDING_EVENT_LIMIT ∧
      (pending = [] → reads w rx [] → reported (wt_out w) = story w)
  | _ => True
  end.
Proof.
  intros Hs w. assert (watch_inv w) as [_ _ _ Hw] by by apply run_watch_inv, watch_start_inv.
  unfold watcher_inv in Hw. destruct (wt_watcher w) as [|rx|rx d handles synced pending|rx synced pending|error].
  - destruct Hw as [-> _]. split; [apply prefix_nil|done].
  - destruct Hw as [-> _]. split; [apply prefix_nil|done].
  - destruct Hw as (told & unread & _ & _ & Hl & Hsn & _ & _ & Hout). split; [|done].
    rewrite Hout. unfold story, created. rewrite Hsn, fmap_app, <- app_assoc. by eexists.
  - destruct Hw as (handled & unread & [n Hn] & E & Hl & -> & Hout). rewrite Hout. split_and!; [|done|].
    + by eapply prefix_story.
    + intros -> [n' Hn']. rewrite Hn in Hn'. injection Hn' as _ ->. unfold story.
      by rewrite E, !app_nil_r.
  - by split.
Qed.
End story.

Module Demo.
#[local] Existing Instance ListChannels.channels.
#[local] Existing Instance ListChannels.channels_laws.

Definition chans : ListChannels.Chans LifecycleEvent :=
  (bc_channel LIFECYCLE_BUS_CAPACITY (ListChannels.MkChans [] [])).1.1.
Definition tx : @Sender LifecycleEvent ListChannels.channels := O.
Definition start : Watched := watch_start tx chans.
Definition a : Session := session_builder "a" "m" "alice".
Definition event (kind : EventKind) : LifecycleEvent := MkLifecycleEvent kind "a".

(** A watcher whose snapshot holds a start in flight waits for it; the start
    announces itself later, and is resolved: the watcher is told once. *)
Definition acts : list (RuntimeAction + WatchAction) :=
  [inl (Reserve a); inr Watch; inr (Begin [O]); inr Turn; inr Turn; inl (Commit "a"); inr Turn;
   inl (Announce "a"); inl (Change (set_state Resolved a) EventResolved);
   inr Turn; inr Turn; inr Turn; inr Turn; inr Turn; inr Turn; inr Turn].
Lemma acts_told :
  reported (wt_out (run_watch acts start)) = [event EventCreated; event EventResolved].
Proof. vm_compute. reflexivity. Qed.
Lemma watcher_told_everything_witness :
  is_Some (sender_capacity tx chans) ∧
  [event EventCreated; event EventResolved] `prefix_of` story (run_watch acts start).
Proof.
  assert (is_Some (sender_capacity tx chans)) as Hs by by eexists.
  pose proof (watcher_told_everything acts tx chans Hs) as Hw. cbv zeta in Hw.
  fold start in Hw. rewrite acts_told in Hw. destruct Hw as [Hw _]. split; [exact Hs|exact Hw].
Defined.

(** A start that is rolled back, and one under the same id that succeeds. *)
Definition phantom : list (RuntimeAction + WatchAction) :=
  [inl (Reserve a); inr Watch; inr (Begin [O]); inr Turn; inl (RollBack "a"); inr Turn].
Definition retried : list (RuntimeAction + WatchAction) :=
  [inl (Reserve a); inl (Commit "a"); inl (Announce "a"); inr Turn; inr Turn; inr Turn; inr Turn].

(** The watcher is told that a session was created whose start failed; and when
    the client tries again, it is not told of the session that there is. *)
Example rolled_back_start_is_reported :
  let w := run_watch phantom start in
  wt_out w = [MkReport EventCreated "a" (Some (set_state Expired a))] ∧
  wt_sent w = [] ∧ registered "a" w = None ∧
  let w := run_watch retried w in
  wt_sent w = [event EventCreated] ∧ registered "a" w = Some a ∧
  wt_out w = [MkReport EventCreated "a" (Some (set_state Expired a))].
Proof. vm_compute. split_and!; reflexivity. Qed.

(** The Created of a start is sent after the session's lock is released, so a
    change made in between is reported before it. *)
Example cancelled_before_created :
  reported (wt_out (run_watch
    [inr Watch; inr (Begin []); inr Turn; inr Turn; inl (Reserve a); inl (Commit "a");
     inl (Change (set_state Cancelled a) EventCancelled); inl (Announce "a"); inr Turn; inr Turn] start))
  = [event EventCancelled; event EventCreated].
Proof. vm_compute. reflexivity. Qed.
End Demo.
