(* ===== verification/Responses.v ===== *)
(** * Answers of the service (src/server.rs)

    The handlers that describe the runtime to a client ([initialize],
    [get_manifest]), and the wire form of a what-if replay ([what_if::response]). *)

From stdpp Require Import prelude gmap strings.
From S2P Require Import Prelude RustStr Floats Extern PolicyKeys Error Policy Wire SessionData.
From S2P Require Import Session CommitmentHash ModeApi Log LogReplay Runtime PolicyRegistry Recovery.
From S2P Require Import ModeRegistry WhatIf WhatIfLog Auth RateLimit Base64 Pagination Json.
From S2P Require Import ReceiptKeys Receipt ReceiptIssue Stream Service.
Open Scope Z_scope.

(** ** Discovery *)
Record Capabilities := MkCapabilities {
  cap_sessions_stream : bool; cap_list_sessions : bool; cap_watch_sessions : bool;
  cap_cancel_session : bool;
  cap_progress : bool;
  cap_get_manifest : bool;
  cap_list_modes : bool; cap_modes_list_changed : bool;
  cap_list_roots : bool; cap_roots_list_changed : bool;
  cap_what_if_replay : bool; cap_register_policy : bool; cap_list_policies : bool;
  cap_policies_list_changed : bool; cap_rule_extensions : list string;
  cap_get_decision_receipt : bool; cap_signed : bool;
  cap_experimental : list (string * string);
}.
(** [runtime_info] and [instructions] are constant texts. *)
Record InitializeResponse := MkInitializeResponse {
  in_selected_protocol_version : string;
  in_capabilities : Capabilities;
  in_supported_modes : list string;
}.
Definition initialize `{Ed25519} (modes : ModeRegistry) (policies : PolicyRegistry) (config : ReceiptConfig)
    (policies_read_only : bool) (supported_protocol_versions : list string)
    : result Status InitializeResponse :=
  if is_empty supported_protocol_versions then
    Err (InvalidRequest,
         [Lit "INVALID_REQUEST: supported_protocol_versions must not be empty"])
  else if negb (existsb (λ v, v == MACP_VERSION) supported_protocol_versions) then
    Err (InvalidMacpVersion,
         [Lit "UNSUPPORTED_PROTOCOL_VERSION: no mutually supported protocol version"])
  else Ok {|
    in_selected_protocol_version := MACP_VERSION;
    in_capabilities := {|
      cap_sessions_stream := true; cap_list_sessions := true; cap_watch_sessions := true;
      cap_cancel_session := true;
      cap_progress := true;
      cap_get_manifest := true;
      cap_list_modes := true; cap_modes_list_changed := true;
      cap_list_roots := true; cap_roots_list_changed := false;
      cap_what_if_replay := true; cap_register_policy := negb policies_read_only;
      cap_list_policies := true; cap_policies_list_changed := true;
      cap_rule_extensions := rule_extension_names policies;
      cap_get_decision_receipt := true; cap_signed := bool_decide (is_Some (rc_signer config));
      cap_experimental := [("ext_mode_lifecycle", "true")] |};
    in_supported_modes := all_mode_names modes |}.

Record TransportEndpoint := MkTransportEndpoint {
  te_transport : string; te_uri : string; te_content_types : list string;
}.
Definition transport_endpoints (http_endpoint : option string) : list TransportEndpoint :=
  (λ base, MkTransportEndpoint "macp.transport.http.v1" base ["application/json"])
  <$> option_list http_endpoint.
Record AgentManifest := MkAgentManifest {
  am_agent_id : string;
  am_supported_modes : list string;
  am_content_types : list string;
  am_transport_endpoints : list TransportEndpoint;
}.
Definition get_manifest (modes : ModeRegistry) (http_endpoint : option string) (agent_id : string)
    : result Status AgentManifest :=
  if negb (str_is_empty agent_id) && (agent_id != "macp-runtime") then
    Err (AgentNotFound, [Lit ("Agent '" +:+ agent_id +:+ "' not found")])
  else Ok (MkAgentManifest "macp-runtime" (all_mode_names modes) ["application/macp-envelope+proto"]
             (transport_endpoints http_endpoint)).

(** ** A what-if replay on the wire *)
Inductive OutcomeKind := KindUnspecified | KindApplied | KindNotOpen | KindRefused | KindNoSession.
Record WhatIfEntryOutcome := MkWhatIfEntryOutcome {
  weo_kind : OutcomeKind;
  weo_state : PbSessionState;
  weo_error_code : string;
  weo_details : list DenyReason;
}.
#[export] Instance outcome_kind_eq_dec : EqDecision OutcomeKind.
Proof. solve_decision. Defined.
#[export] Instance pb_state_eq_dec : EqDecision PbSessionState.
Proof. solve_decision. Defined.
#[export] Instance entry_outcome_eq_dec : EqDecision WhatIfEntryOutcome.
Proof. solve_decision. Defined.
Record WhatIfEntry := MkWhatIfEntry {
  we_history_index : Z;
  we_message_id : string;
  we_message_type : string;
  we_recorded : WhatIfEntryOutcome;
  we_candidate : WhatIfEntryOutcome;
}.
Record WhatIfDenial := MkWhatIfDenial {
  wd_history_index : Z;
  wd_message_id : string;
  wd_details : list DenyReason;
}.
Record WhatIfOutcome := MkWhatIfOutcome {
  wo_state : PbSessionState;
  wo_resolution : bytes;
  wo_resolved_by_history_index : Z;
  wo_resolved_by_message_id : string;
  wo_resolved_by_message_type : string;
}.
Record WhatIfReplayResponse := MkWhatIfReplayResponse {
  wp_candidate_policy_id : string;
  wp_recorded_policy_id : string;
  wp_recorded : WhatIfOutcome;
  wp_candidate : WhatIfOutcome;
  wp_first_divergence : option Z;
  wp_denials : list WhatIfDenial;
  wp_entries : list WhatIfEntry;
}.

(** The reasons, as [error_details_bytes] serializes them. *)
Definition details (reasons : list DenyReason) : list DenyReason := error_details (PolicyDenied reasons).
Definition entry_outcome (o : EntryOutcome) : WhatIfEntryOutcome :=
  match o with
  | Applied state => MkWhatIfEntryOutcome KindApplied (session_state_to_pb state) "" []
  | NotOpen => MkWhatIfEntryOutcome KindNotOpen PbUnspecified "" []
  | WhatIf.Refused code reasons => MkWhatIfEntryOutcome KindRefused PbUnspecified code (details reasons)
  | NoSession => MkWhatIfEntryOutcome KindNoSession PbUnspecified "" []
  end.

Section response.
Context (history_index : list (option Z)).
(** The closure [index]: the accepted ordinal of a point, if it has one. *)
Definition index (at_ : HistoryPoint) : option Z :=
  match at_ with
  | HSessionStart => Some 0
  | HEvent i => mjoin (history_index !! Z.to_nat i)
  end.

Definition outcome (o : Outcome) : WhatIfOutcome := {|
  wo_state := default PbUnspecified (session_state_to_pb <$> oc_state o);
  wo_resolution := default [] (oc_resolution o);
  wo_resolved_by_history_index := default 0 (oc_resolved_by o ≫= λ b, index (rb_at b));
  wo_resolved_by_message_id := default "" (rb_message_id <$> oc_resolved_by o);
  wo_resolved_by_message_type := default "" (rb_message_type <$> oc_resolved_by o) |}.

(** The loop over the report's entries. *)
Fixpoint entries_loop (l : list EntryDiff) (first_divergence : option Z) (entries : list WhatIfEntry)
    : option Z * list WhatIfEntry :=
  match l with
  | [] => (first_divergence, entries)
  | e :: l =>
      match index (ed_at e) with
      | None => entries_loop l first_divergence entries
      | Some i =>
          entries_loop l
            (if negb (bool_decide (is_Some first_divergence)) && diverges e then Some i
             else first_divergence)
            (entries ++ [MkWhatIfEntry i (default "" (ed_message_id e)) (default "" (ed_message_type e))
                           (entry_outcome (ed_recorded e)) (entry_outcome (ed_candidate e))])
      end
  end.
End response.

Definition response (run : WhatIfRun) : WhatIfReplayResponse :=
  let report := wf_report run in
  let index := index (wf_history_index run) in
  let '(first_divergence, entries) :=
    entries_loop (wf_history_index run) (wr_entries report) None [] in
  {| wp_candidate_policy_id := wr_candidate_policy_id report;
     wp_recorded_policy_id := default DEFAULT_POLICY_ID (wr_recorded_policy_id report);
     wp_recorded := outcome (wf_history_index run) (wr_recorded report);
     wp_candidate := outcome (wf_history_index run) (wr_candidate report);
     wp_first_divergence := first_divergence;
     wp_denials := omap (λ d, (λ i, MkWhatIfDenial i (default "" (dn_message_id d)) (details (dn_reasons d)))
                              <$> index (dn_at d)) (wr_denials report);
     wp_entries := entries |}.

(** ** What the client can read off it *)
Lemma entry_outcome_inj o1 o2 : entry_outcome o1 = entry_outcome o2 → o1 = o2.
Proof.
  destruct o1 as [s1| |c1 r1|], o2 as [s2| |c2 r2|]; cbn; try discriminate; try done; intros [= E];
    [by destruct s1, s2|by subst].
Qed.

(** The wire entry of a report entry, if it has an ordinal. *)
Definition wire_entry (history_index : list (option Z)) (e : EntryDiff) : option WhatIfEntry :=
  (λ i, MkWhatIfEntry i (default "" (ed_message_id e)) (default "" (ed_message_type e))
          (entry_outcome (ed_recorded e)) (entry_outcome (ed_candidate e)))
  <$> index history_index (ed_at e).
Definition differs (e : WhatIfEntry) : bool := we_recorded e != we_candidate e.

Lemma differs_diverges h e w : wire_entry h e = Some w → differs w = diverges e.
Proof.
  unfold wire_entry. destruct (index h (ed_at e)); [|done]. intros [= <-]. unfold differs, diverges. cbn.
  f_equal. apply bool_decide_ext. split; [apply entry_outcome_inj|by intros ->].
Qed.
Lemma entries_loop_spec h l : ∀ first entries,
  first = we_history_index <$> List.find differs entries →
  let '(first', entries') := entries_loop h l first entries in
  entries' = entries ++ omap (wire_entry h) l ∧
  first' = we_history_index <$> List.find differs entries'.
Proof.
  induction l as [|e l IH]; intros first entries Hf; cbn; [by rewrite app_nil_r|].
  destruct (index h (ed_at e)) as [i|] eqn:Ei.
  - assert (wire_entry h e = Some (MkWhatIfEntry i (default "" (ed_message_id e))
      (default "" (ed_message_type e)) (entry_outcome (ed_recorded e)) (entry_outcome (ed_candidate e))))
      as Hw by (unfold wire_entry; by rewrite Ei).
    rewrite Hw. set (w := MkWhatIfEntry _ _ _ _ _) in *.
    specialize (IH (if negb (bool_decide (is_Some first)) && diverges e then Some i else first)
      (entries ++ [w])). destruct (entries_loop _ _ _ _) as [first' entries'].
    rewrite <- app_assoc in IH. apply IH. rewrite <- (differs_diverges _ _ _ Hw), Hf. clear.
    induction entries as [|x entries IH]; cbn; [by destruct (differs w)|].
    destruct (differs x); cbn; [done|]. by rewrite <- IH.
  - assert (wire_entry h e = None) as -> by (unfold wire_entry; by rewrite Ei). by apply IH.
Qed.

(** What a what-if replay reports can be read off its answer. The entries
    sent are those of accepted history, in order, under their ordinals; the
    first divergence is the ordinal of the first of them whose recorded and
    candidate outcomes differ as the client sees them, and there is none exactly
    when they all agree; no two different outcomes have the same wire form, up to
    the serialization of their reasons. *)
Theorem what_if_answer_faithful run :
  let answer := response run in
  wp_entries answer = omap (wire_entry (wf_history_index run)) (wr_entries (wf_report run)) ∧
  wp_first_divergence answer = we_history_index <$> List.find differs (wp_entries answer) ∧
  (∀ o1 o2, entry_outcome o1 = entry_outcome o2 → o1 = o2).
Proof.
  unfold response. pose proof (entries_loop_spec (wf_history_index run) (wr_entries (wf_report run)) None []
    eq_refl) as Hl.
  destruct (entries_loop _ _ _ _) as [first entries]. cbn. destruct Hl as [-> ->].
  split_and!; [done|done|apply entry_outcome_inj].
Qed.

(** The modes a client is offered are those a session can be started in. *)
Theorem offered_modes_exist `{Ed25519} modes policies config read_only versions answer mode :
  initialize modes policies config read_only versions = Ok answer →
  mode ∈ in_supported_modes answer ↔ is_Some (lookup_mode modes mode).
Proof.
  unfold initialize. destruct (is_empty versions); [done|]. destruct (negb _); [done|].
  intros [= <-]. cbn. unfold all_mode_names, lookup_mode. rewrite elem_of_bt_keys.
  by rewrite fmap_is_Some.
Qed.
