(* ===== verification/Files.v ===== *)
(** * Files that a crash can catch halfway (std::fs, tokio::fs)

    The calls of the standard library that the file backend makes. What was
    written to a file is durable up to its last [sync_data], and a power loss
    keeps that and some part of what was written after it. A change of a
    directory is recorded, and a power loss may take back the last of the
    changes that were not made durable. What makes them so is [sync_data] on the
    directory; on a journalled file system any sync does, of whatever file,
    since it commits the journal. Every call may be refused, and the process may end in any of them: a write then leaves a part
    of its bytes, the removal of a directory some of its files, and any other
    call happened or did not. What the calls meet is a stream of such fates, one
    per call. The writes of tokio::fs run in the background; a failure of one is
    taken to be reported by the call that made it. *)

From stdpp Require Import prelude gmap strings.
From S2P Require Import Prelude RustStr Floats Extern.
Open Scope Z_scope.

(** ** The disk *)

(** [io::ErrorKind]. *)
Inductive IoKind := IoNotFound | IoAlreadyExists | IoInvalidInput | IoInvalidData | IoUnsupported | IoOther.
#[export] Instance io_kind_eq_dec : EqDecision IoKind.
Proof. solve_decision. Defined.

(** The bytes of a file, and how many of them are known to be durable. *)
Record Inode := MkInode { ino_data : bytes; ino_durable : nat }.
(** A file is named by its session directory and its name in it. *)
Abbreviation path := (string * string)%type.
(** What takes back a change of a directory: what the name stood for, and whether
    the session directory was there. *)
Inductive Undo :=
| Entry (p : path) (old : option Inode)
| Directory (dir : string) (there : bool).
(** The directories and files, and the changes of directories that are not
    durable yet, the last one first. *)
Record Disk := MkDisk {
  dk_dirs : gset string;
  dk_files : gmap path Inode;
  dk_journal : list Undo;
}.
Definition upd_files (f : gmap path Inode → gmap path Inode) (d : Disk) : Disk :=
  MkDisk (dk_dirs d) (f (dk_files d)) (dk_journal d).
(** The name [p] now stands for [o]. *)
Definition enter (p : path) (o : option Inode) (d : Disk) : Disk :=
  MkDisk (dk_dirs d) (partial_alter (λ _, o) p (dk_files d)) (Entry p (dk_files d !! p) :: dk_journal d).
(** The files of a directory that [gone] names are removed. *)
Definition goes_with (dir : string) (gone : string → bool) (p : path) : bool := (p.1 == dir) && gone p.2.
Definition without_files (dir : string) (gone : string → bool) (d : Disk) : Disk :=
  let leaving := filter (λ pi, goes_with dir gone pi.1 = true) (dk_files d) in
  MkDisk (dk_dirs d) (filter (λ pi, goes_with dir gone pi.1 = false) (dk_files d))
    (((λ pi, Entry pi.1 (Some pi.2)) <$> map_to_list leaving) ++ dk_journal d).
Definition without_dir (dir : string) (d : Disk) : Disk :=
  let d := without_files dir (λ _, true) d in
  MkDisk (dk_dirs d ∖ {[dir]}) (dk_files d) (Directory dir true :: dk_journal d).

(** ** Power loss *)
Definition undo (d : Disk) (u : Undo) : Disk :=
  match u with
  | Entry p old =>
      if bool_decide (p.1 ∈ dk_dirs d) then upd_files (partial_alter (λ _, old) p) d else d
  | Directory dir true => MkDisk ({[dir]} ∪ dk_dirs d) (dk_files d) (dk_journal d)
  | Directory dir false => without_dir dir d
  end.
(** The last [n] of the changes that are not durable are taken back. *)
Definition undo_last (n : nat) (d : Disk) : Disk := foldl undo d (take n (dk_journal d)).
(** What is left of the files, with the number of bytes that survive in each, and
    with the directories durable. *)
Definition truncate (survive : path → nat) (d : Disk) : Disk :=
  MkDisk (dk_dirs d) (map_imap (λ p i,
    let data := take (ino_durable i `max` survive p) (ino_data i) in
    Some (MkInode data (length data))) (dk_files d)) [].
Definition lose (n : nat) (survive : path → nat) (d : Disk) : Disk := truncate survive (undo_last n d).

(** ** Calls *)

(** What a call meets: it goes through, or it stops after some progress, refused
    by the device or with the end of the process. *)
Inductive Fate :=
| Goes
| Stops (halted : bool) (progress : nat) (chosen : string → bool).
Record Fs := MkFs { fs_disk : Disk; fs_fates : nat → Fate }.
Inductive Stop := Halted | Failed (kind : IoKind).
Abbreviation io A := (stm Fs Stop A).

Definition stop_of (halted : bool) : Stop := if halted then Halted else Failed IoOther.
Definition lift_kind {A} (r : result IoKind A) : result Stop A :=
  match r with Ok a => Ok a | Err kind => Err (Failed kind) end.
(** A call that does [full], or [partly] when it stops. *)
Definition call {A} (full : Disk → Disk * result IoKind A)
    (partly : bool → nat → (string → bool) → Disk → Disk) : io A := λ fs,
  let fates := λ n, fs_fates fs (S n) in
  match fs_fates fs O with
  | Goes => let '(d, r) := full (fs_disk fs) in (MkFs d fates, lift_kind r)
  | Stops halted progress chosen =>
      (MkFs (partly halted progress chosen (fs_disk fs)) fates, Err (stop_of halted))
  end.
(** One that happens or does not, and does not when it is refused. *)
Definition atomically {A} (full : Disk → Disk * result IoKind A) : io A :=
  call full (λ halted progress _ d,
    match halted, progress with true, S _ => (full d).1 | _, _ => d end).

Definition in_dir {A} (p : path) (d : Disk) (f : Disk * result IoKind A) : Disk * result IoKind A :=
  if bool_decide (p.1 ∈ dk_dirs d) then f else (d, Err IoNotFound).
(** [create_dir_all]. *)
Definition with_dir (dir : string) (d : Disk) : Disk :=
  if bool_decide (dir ∈ dk_dirs d) then d
  else MkDisk ({[dir]} ∪ dk_dirs d) (dk_files d) (Directory dir false :: dk_journal d).
Definition create_dir_all (dir : string) : io unit := atomically (λ d, (with_dir dir d, Ok ())).
(** [File::create]. *)
Definition file_create (p : path) : io unit :=
  atomically (λ d, in_dir p d (enter p (Some (MkInode [] 0)) d, Ok ())).
(** [OpenOptions::new().create(true).append(true).open]. *)
Definition open_append (p : path) : io unit :=
  atomically (λ d, in_dir p d
    (match dk_files d !! p with Some _ => d | None => enter p (Some (MkInode [] 0)) d end, Ok ())).
(** [write_all] at the end of the file. *)
Definition extend (data : bytes) (i : Inode) : Inode := MkInode (ino_data i ++ data) (ino_durable i).
Definition write_all (p : path) (data : bytes) : io unit :=
  call (λ d, (upd_files (alter (extend data) p) d, Ok ()))
    (λ _ progress _ d, upd_files (alter (extend (take progress data)) p) d).
Definition flush (i : Inode) : Inode := MkInode (ino_data i) (length (ino_data i)).
(** The changes that [settles] names are durable. *)
Definition settle (settles : Undo → bool) (d : Disk) : Disk :=
  MkDisk (dk_dirs d) (dk_files d) (List.filter (λ u, negb (settles u)) (dk_journal d)).
Section syncs.
(** Whether the file system is journalled. *)
Context (journalled : bool).
Definition sync_data (p : path) : io unit :=
  atomically (λ d, (settle (λ _, journalled) (upd_files (alter flush p) d), Ok ())).
(** [sync_data] on a directory: it is about the names in it, not about its own. *)
Definition sync_dir (dir : string) : io unit :=
  atomically (λ d, (settle (λ u, journalled || match u with Entry p _ => p.1 == dir | Directory _ _ => false end) d,
    Ok ())).
End syncs.
Definition rename (from to : path) : io unit :=
  atomically (λ d,
    match dk_files d !! from with
    | Some i => (enter from None (enter to (Some i) d), Ok ())
    | None => (d, Err IoNotFound)
    end).
(** The two names of a linked file: neither is written to again. *)
Definition hard_link (from to : path) : io unit :=
  atomically (λ d,
    match dk_files d !! from, dk_files d !! to with
    | None, _ => (d, Err IoNotFound)
    | Some _, Some _ => (d, Err IoAlreadyExists)
    | Some i, None => (enter to (Some i) d, Ok ())
    end).
Definition remove_file (p : path) : io unit :=
  atomically (λ d,
    match dk_files d !! p with
    | Some _ => (enter p None d, Ok ())
    | None => (d, Err IoNotFound)
    end).
Definition metadata_file (p : path) : io unit :=
  atomically (λ d, (d, if dk_files d !! p then Ok () else Err IoNotFound)).
Definition metadata_dir (dir : string) : io unit :=
  atomically (λ d, (d, if bool_decide (dir ∈ dk_dirs d) then Ok () else Err IoNotFound)).
Definition read (p : path) : io bytes :=
  atomically (λ d, (d, match dk_files d !! p with Some i => Ok (ino_data i) | None => Err IoNotFound end)).
Definition read_dirs : io (list string) := atomically (λ d, (d, Ok (elements (dk_dirs d)))).
Definition remove_dir_all (dir : string) : io unit :=
  call (λ d, (without_dir dir d, Ok ()))
    (λ halted progress chosen d,
       match halted, progress with true, S _ => without_dir dir d | _, _ => without_files dir chosen d end).

(** ** Errors that are looked at *)

(** The answer of [m], as a value; the end of the process is not one. *)
Definition outcome_of {A} (m : io A) : io (result IoKind A) := λ fs,
  match m fs with
  | (fs, Ok a) => (fs, Ok (Ok a))
  | (fs, Err (Failed kind)) => (fs, Ok (Err kind))
  | (fs, Err Halted) => (fs, Err Halted)
  end.
(** [let _ = m]. *)
Definition ignore {A} (m : io A) : io unit := (do! outcome_of m; st_ret ())%stm.
Definition throw {A} (r : result IoKind A) : io A := λ fs, (fs, lift_kind r).

(** ** Reasoning about calls *)

(** What holds after [m]. *)
Definition after {A} (m : io A) (Q : Fs → result Stop A → Prop) (fs : Fs) : Prop :=
  Q (m fs).1 (m fs).2.
(** No call from here on is stopped. *)
Definition calm (fs : Fs) : Prop := ∀ n, fs_fates fs n = Goes.

Lemma calm_next d fs : calm fs → calm (MkFs d (λ n, fs_fates fs (S n))).
Proof. intros Hc n. apply Hc. Qed.
Lemma after_ret {A} (a : A) Q fs : Q fs (Ok a) → after (st_ret a) Q fs.
Proof. done. Qed.
Lemma after_mono {A} (m : io A) (Q R : Fs → result Stop A → Prop) fs :
  after m Q fs → (∀ fs' r, Q fs' r → R fs' r) → after m R fs.
Proof. intros HQ HR. by apply HR. Qed.
Lemma after_bind {A B} (m : io A) (f : A → io B) Q fs :
  after m (λ fs' r, match r with Ok a => after (f a) Q fs' | Err e => Q fs' (Err e) end) fs →
  after (st_bind m f) Q fs.
Proof. unfold after, st_bind. by destruct (m fs) as [fs' [a|e]]. Qed.
Lemma after_throw {A} (r : result IoKind A) Q fs : Q fs (lift_kind r) → after (throw r) Q fs.
Proof. done. Qed.
Lemma after_outcome {A} (m : io A) Q fs :
  after m (λ fs' r, Q fs' match r with
                          | Ok a => Ok (Ok a)
                          | Err (Failed kind) => Ok (Err kind)
                          | Err Halted => Err Halted
                          end) fs →
  after (outcome_of m) Q fs.
Proof. unfold after, outcome_of. by destruct (m fs) as [fs' [a|[|kind]]]. Qed.
Lemma after_ignore {A} (m : io A) Q fs :
  after m (λ fs' r, Q fs' match r with Err Halted => Err Halted | _ => Ok () end) fs →
  after (ignore m) Q fs.
Proof.
  intros Hm. apply after_bind, after_outcome. apply (after_mono _ _ _ _ Hm).
  by intros fs' [a|[|kind]] HQ.
Qed.

(** A call goes through, or stops, which a calm disk rules out. *)
Lemma after_call {A} (full : Disk → Disk * result IoKind A) partly Q fs :
  (∀ fates, (calm fs → calm (MkFs (full (fs_disk fs)).1 fates)) →
     Q (MkFs (full (fs_disk fs)).1 fates) (lift_kind (full (fs_disk fs)).2)) →
  (∀ fates halted progress chosen, ¬ calm fs →
     Q (MkFs (partly halted progress chosen (fs_disk fs)) fates) (Err (stop_of halted))) →
  after (call full partly) Q fs.
Proof.
  intros Hgoes Hstops. unfold after, call. destruct (fs_fates fs 0) as [|halted n chosen] eqn:E.
  - destruct (full (fs_disk fs)) as [d r]. apply Hgoes, calm_next.
  - apply Hstops. intros Hc. by rewrite Hc in E.
Qed.
Lemma after_atomically {A} (full : Disk → Disk * result IoKind A) Q fs :
  (∀ fates, (calm fs → calm (MkFs (full (fs_disk fs)).1 fates)) →
     Q (MkFs (full (fs_disk fs)).1 fates) (lift_kind (full (fs_disk fs)).2)) →
  (∀ fates halted, ¬ calm fs → Q (MkFs (fs_disk fs) fates) (Err (stop_of halted))) →
  (∀ fates, ¬ calm fs → Q (MkFs (full (fs_disk fs)).1 fates) (Err Halted)) →
  after (atomically full) Q fs.
Proof.
  intros Hgoes Hnone Hdone. apply after_call; [done|].
  intros fates [] [|n] chosen Hc; [apply (Hnone fates true Hc)|by apply Hdone|..];
    apply (Hnone fates false Hc).
Qed.

(** ** Changes of few files *)

(** The journal [js] was settled or not, and changes that [Q] takes back came on
    top. *)
Definition grown (Q : Undo → Prop) (js js' : list Undo) : Prop :=
  ∃ new old, js' = new ++ old ∧ (old = js ∨ old = []) ∧ Forall Q new.
Lemma grown_refl Q js : grown Q js js.
Proof. exists [], js. split_and!; [done|by left|constructor]. Qed.
Lemma grown_empty Q js : grown Q js [].
Proof. exists [], []. split_and!; [done|by right|constructor]. Qed.
Lemma grown_cons (Q : Undo → Prop) u js js' : Q u → grown Q js js' → grown Q js (u :: js').
Proof. intros Hu (new & old & -> & Ho & Hn). exists (u :: new), old. split_and!; [done|done|by constructor]. Qed.
Lemma grown_app (Q : Undo → Prop) us js js' : Forall Q us → grown Q js js' → grown Q js (us ++ js').
Proof. induction 1; cbn; [done|]. intros Hg. apply grown_cons; auto. Qed.
Lemma grown_mono (Q R : Undo → Prop) js js' : grown Q js js' → (∀ u, Q u → R u) → grown R js js'.
Proof.
  intros (new & old & -> & Ho & Hn) HR. exists new, old. split_and!; [done|done|]. by eapply Forall_impl.
Qed.
Lemma grown_trans Q js1 js2 js3 : grown Q js1 js2 → grown Q js2 js3 → grown Q js1 js3.
Proof.
  intros Hg (new & old & -> & [->| ->] & Hn); apply grown_app; [done|done|done|apply grown_empty].
Qed.

(** Taken back, [u] leaves [ps] as in [d], and changes nothing else but [ts]. *)
Definition undoes_to (d : Disk) (ps ts : list path) (u : Undo) : Prop :=
  match u with
  | Entry p old => p ∈ ts ∨ p ∈ ps ∧ old = dk_files d !! p
  | Directory _ _ => False
  end.
(** [d'] is [d] but for the files [ps], and [ts], which are of no account. *)
Definition beside (ps ts : list path) (d d' : Disk) : Prop :=
  dk_dirs d' = dk_dirs d ∧ (∀ q, q ∉ ps ++ ts → dk_files d' !! q = dk_files d !! q) ∧
  grown (undoes_to d ps ts) (dk_journal d) (dk_journal d').
Lemma beside_refl ps ts d : beside ps ts d d.
Proof. split_and!; [done|done|apply grown_refl]. Qed.
Lemma beside_weaken ps ts qs us d d' : beside ps ts d d' → ps ⊆ qs → ts ⊆ us → beside qs us d d'.
Proof.
  intros (Hd & Hf & Hg) Hp Ht. split_and!; [done| |].
  - intros q Hq. apply Hf. set_solver.
  - eapply grown_mono; [done|]. intros [p o|dir b]; [|done]. cbn. set_solver.
Qed.
Lemma beside_trans ps ts qs d1 d2 d3 :
  beside qs ts d1 d2 → beside ps ts d2 d3 → qs ⊆ ps →
  (∀ p, p ∈ ps → p ∉ ts → dk_files d2 !! p = dk_files d1 !! p) → beside ps ts d1 d3.
Proof.
  intros (Hd1 & Hf1 & Hg1) (Hd2 & Hf2 & Hg2) Hsub Hsame. split_and!; [congruence| |].
  - intros q Hq. rewrite Hf2, Hf1; set_solver.
  - eapply grown_trans; (eapply grown_mono; [eassumption|]); intros [p o|dir b]; try done; cbn.
    + set_solver.
    + intros [?|[Hp ->]]; [by left|]. destruct (decide (p ∈ ts)); [by left|]. right. auto.
Qed.
(** Changes of no account on top. *)
Lemma beside_trans_scratch ps ts d1 d2 d3 : beside ps ts d1 d2 → beside [] ts d2 d3 → beside ps ts d1 d3.
Proof.
  intros (Hd1 & Hf1 & Hg1) (Hd2 & Hf2 & Hg2). split_and!; [congruence| |].
  - intros q Hq. rewrite Hf2, Hf1; set_solver.
  - eapply grown_trans; [done|]. eapply grown_mono; [done|]. intros [p o|dir there]; [|done]. cbn. set_solver.
Qed.
(** What is done to a file of [ps] or [ts] on top. *)
Lemma beside_enter ps ts p o d d' :
  beside ps ts d d' → p ∈ ts ∨ p ∈ ps ∧ dk_files d' !! p = dk_files d !! p →
  beside ps ts d (enter p o d').
Proof.
  intros (Hd & Hf & Hg) Hp. split_and!; [done| |].
  - intros q Hq. cbn. rewrite lookup_partial_alter_ne; [by apply Hf|]. intros ->. set_solver.
  - cbn. apply grown_cons; [|done]. cbn. tauto.
Qed.
Lemma beside_alter ps ts f p d d' :
  beside ps ts d d' → p ∈ ps ++ ts → beside ps ts d (upd_files (alter f p) d').
Proof.
  intros (Hd & Hf & Hg) Hp. split_and!; [done| |done]. intros q Hq. cbn. rewrite lookup_alter_ne; [auto|]. set_solver.
Qed.
Lemma settle_all d : dk_journal (settle (λ _, true) d) = [].
Proof. cbn. by induction (dk_journal d). Qed.
Lemma beside_settle ps ts d d' : beside ps ts d d' → beside ps ts d (settle (λ _, true) d').
Proof.
  intros (Hd & Hf & Hg). split_and!; [done|done|]. rewrite settle_all. apply grown_empty.
Qed.
Lemma enter_lookup p o d : dk_files (enter p o d) !! p = o.
Proof. apply lookup_partial_alter_eq. Qed.
Lemma enter_lookup_ne p q o d : p ≠ q → dk_files (enter p o d) !! q = dk_files d !! q.
Proof. apply lookup_partial_alter_ne. Qed.

Create HintDb files.
#[export] Hint Resolve beside_refl beside_enter beside_alter beside_settle : files.

Lemma truncate_lookup survive d p :
  dk_files (truncate survive d) !! p =
  (λ i, let data := take (ino_durable i `max` survive p) (ino_data i) in MkInode data (length data))
  <$> dk_files d !! p.
Proof. cbn. rewrite map_lookup_imap. by destruct (dk_files d !! p). Qed.
