(* ===== verification/FileStore.v ===== *)
(** * The file backend (crates/macp-storage/src/storage/file.rs, recovery.rs)

    [FileBackend], call by call, over files that a refusal, the end of the process
    or a power loss can catch halfway. Its contract with one session is an
    abstract store, and on a journalled file system every run of the backend is a
    run of the contract: log entries that were acknowledged stay, snapshots and
    receipts are whole, a stored receipt is never replaced. The contract also says
    where that ends: an append that was not acknowledged can leave a torn line,
    which takes the next entry with it; a compacted log is not durable until the
    next append; and a power loss may take back the last changes of directories
    that nothing has settled. *)

From Stdlib Require Import Ascii.
From stdpp Require Import prelude gmap strings.
From S2P Require Import Prelude RustStr Floats Extern Error Policy Wire SessionData.
From S2P Require Import CommitmentHash Concrete Log Base64 Auth Pagination Files.
Open Scope Z_scope.

(** ** Text *)

(** [str::lines]. *)
Definition LF : ascii := ascii_of_N 10.
Definition CR : ascii := ascii_of_N 13.
Fixpoint str_lines (s : string) : list string :=
  match s with
  | "" => []
  | String c s' =>
      if c == LF then "" :: str_lines s'
      else if (c == CR) && (match s' with String d _ => d == LF | "" => false end)
      then str_lines s'
      else match str_lines s' with
           | line :: lines => String c line :: lines
           | [] => [String c ""]
           end
  end.

(** [serde_json] on log entries, to and from one line. *)
Class LineCodec := { to_line : LogEntry → string; of_line : string → option LogEntry }.
(** A line reads back as its entry. It is one JSON object: it is UTF-8, not
    blank, has no control character, and no proper part of it from the front is
    a JSON text. *)
Class LineCodecLaws `{LineCodec} : Prop := {
  of_line_to_line e : of_line (to_line e) = Some e;
  to_line_utf8 e : is_utf8 (to_line e) = true;
  to_line_not_blank e : blank (to_line e) = false;
  to_line_printable e : str_all (λ c, 32 <=? byte_of c) (to_line e) = true;
  of_line_unfinished e p c q : to_line e = p +:+ String c q → of_line p = None;
}.
(** [serde_json::to_vec_pretty] on snapshots, and [from_slice]. *)
Class SnapshotBytes := {
  to_vec_pretty : PersistedSession → bytes;
  of_snapshot : bytes → option PersistedSession;
}.
(** What a snapshot reads back as. *)
Definition reread `{SnapshotBytes} (p : PersistedSession) : option PersistedSession :=
  of_snapshot (to_vec_pretty p).

(** ** [FileBackend] *)
Inductive ReceiptWritten := ReceiptStored | ReceiptExisting (b : bytes).

Section backend.
Context `{LineCodec} `{SnapshotBytes}.
(** What the probe found when the backend was opened, and the file system. *)
Context (hard_links journalled : bool).

Definition single_component (session_id : string) : bool :=
  negb (str_is_empty session_id) && (session_id != ".") && (session_id != "..")
  && str_all (λ c, negb ((byte_of c =? 47) || (byte_of c =? 0))) session_id.
Definition check (session_id : string) : io unit :=
  if single_component session_id then st_ret () else st_fail (Failed IoInvalidInput).

Definition session_file (id : string) : path := (id, "session.json").
Definition log_file (id : string) : path := (id, "log.jsonl").
Definition receipt_file (id : string) : path := (id, "receipt.json").
Definition anchor_file (id : string) : path := (id, "anchor.json").
(** [with_extension("json.tmp")] and [with_extension("jsonl.tmp")]. *)
Definition tmp_of (p : path) : path := (p.1, p.2 +:+ ".tmp").

(** [tfs::write], and a new file with its data synced. *)
Definition write_file (p : path) (data : bytes) : io unit :=
  (do! file_create p; write_all p data)%stm.
Definition write_synced (p : path) (data : bytes) : io unit :=
  (do! write_file p data; sync_data journalled p)%stm.
Definition atomic_write (p : path) (data : bytes) : io unit :=
  (do! write_synced (tmp_of p) data;
   do! rename (tmp_of p) p;
   ignore (sync_dir journalled p.1))%stm.

Definition file_create_session_storage (id : string) : io unit :=
  (do! check id; create_dir_all id)%stm.
Definition file_save_session (s : Session) : io unit :=
  (do! check (ss_session_id s);
   atomic_write (session_file (ss_session_id s)) (to_vec_pretty (persist s)))%stm.
Definition file_load_session (id : string) : io (option Session) :=
  (do! check id;
   let! there := outcome_of (metadata_file (session_file id)) in
   match there with
   | Err _ => st_ret None
   | Ok _ =>
       let! b := read (session_file id) in
       throw match of_snapshot b with Some p => Ok (Some (unpersist p)) | None => Err IoInvalidData end
   end)%stm.

(** A file that may be missing. *)
Definition read_optional (p : path) : io (option bytes) :=
  (let! r := outcome_of (read p) in
   throw match r with
         | Ok b => Ok (Some b)
         | Err IoNotFound => Ok None
         | Err kind => Err kind
         end)%stm.
Definition file_load_receipt (id : string) : io (option bytes) :=
  (do! check id; read_optional (receipt_file id))%stm.
(** [nonce] is the fresh UUID in the name of the temporary file. *)
Definition receipt_tmp (id nonce : string) : path := (id, "receipt.json." +:+ nonce +:+ ".tmp").
Definition receipt_answer (id : string) (tmp : path) (linked : result IoKind unit) : io ReceiptWritten :=
  (do! ignore (remove_file tmp);
   match linked with
   | Ok _ => do! ignore (sync_dir journalled id); st_ret ReceiptStored
   | Err IoAlreadyExists => let! b := read (receipt_file id) in st_ret (ReceiptExisting b)
   | Err kind => st_fail (Failed kind)
   end)%stm.
Definition file_store_receipt_if_absent (id nonce : string) (receipt : bytes) : io ReceiptWritten :=
  (do! check id;
   if negb hard_links then st_fail (Failed IoUnsupported)
   else
     let tmp := receipt_tmp id nonce in
     let! written := outcome_of (write_synced tmp receipt) in
     let! linked := match written with
                    | Ok _ => outcome_of (hard_link tmp (receipt_file id))
                    | Err kind => st_ret (Err kind)
                    end in
     receipt_answer id tmp linked)%stm.
Definition file_store_trace_anchor (id : string) (anchor : bytes) : io unit :=
  (do! check id; atomic_write (anchor_file id) anchor)%stm.
Definition file_load_trace_anchor (id : string) : io (option bytes) :=
  (do! check id; read_optional (anchor_file id))%stm.

Definition file_delete_session (id : string) : io unit :=
  (do! check id;
   let! there := outcome_of (metadata_dir id) in
   match there with Ok _ => remove_dir_all id | Err _ => st_ret () end)%stm.
Definition file_list_session_ids : io (list string) := read_dirs.

Definition line (e : LogEntry) : bytes := bytes_of (to_line e +:+ String LF "").
Definition file_append_log_entry (id : string) (e : LogEntry) : io unit :=
  (do! check id;
   do! open_append (log_file id);
   do! write_all (log_file id) (line e);
   sync_data journalled (log_file id))%stm.
(** Blank lines and lines that are not entries are skipped. *)
Definition parse_log (content : string) : list LogEntry :=
  omap (λ l, if blank l then None else of_line l) (str_lines content).
Definition file_load_log (id : string) : io (list LogEntry) :=
  (do! check id;
   let! there := outcome_of (metadata_file (log_file id)) in
   match there with
   | Err _ => st_ret []
   | Ok _ =>
       let! b := read (log_file id) in
       throw match from_utf8 b with Some content => Ok (parse_log content) | None => Err IoInvalidData end
   end)%stm.
(** The new log is not synced. *)
Definition file_replace_log (id : string) (entries : list LogEntry) : io unit :=
  (do! check id;
   do! write_file (tmp_of (log_file id)) (mjoin (line <$> entries));
   rename (tmp_of (log_file id)) (log_file id))%stm.

(** [cleanup_temp_files] (recovery.rs). *)
Definition is_temp (name : string) : bool := ends_with ".tmp" name && (name != ".tmp").
Definition temp_files (d : Disk) : list path :=
  List.filter (λ p, bool_decide (p.1 ∈ dk_dirs d) && is_temp p.2) (map_to_list (dk_files d)).*1.
Definition cleanup_temp_files : io unit := λ fs,
  foldr (λ p m, (do! ignore (remove_file p); m)%stm) (st_ret ()) (temp_files (fs_disk fs)) fs.
End backend.

(** ** Reading a log back *)
Section parsing.
Context `{LineCodecLaws}.

Lemma str_lines_line l rest :
  str_all (λ c, 32 <=? byte_of c) l = true → str_lines (l +:+ String LF rest) = l :: str_lines rest.
Proof.
  induction l as [|c l IH]; intros Hl; [done|]. rewrite str_app_cons. cbn [str_all] in Hl.
  apply andb_prop in Hl as [Hc Hl]. apply Z.leb_le in Hc. cbn [str_lines].
  rewrite (bool_decide_eq_false_2 (c = LF)) by (intros ->; by compute in Hc).
  rewrite (bool_decide_eq_false_2 (c = CR)) by (intros ->; by compute in Hc). cbn [andb].
  by rewrite IH.
Qed.
Lemma str_lines_unended l :
  str_all (λ c, 32 <=? byte_of c) l = true → str_lines l = if str_is_empty l then [] else [l].
Proof.
  induction l as [|c l IH]; intros Hl; [done|]. cbn [str_all] in Hl.
  apply andb_prop in Hl as [Hc Hl]. apply Z.leb_le in Hc. cbn [str_lines].
  rewrite (bool_decide_eq_false_2 (c = LF)) by (intros ->; by compute in Hc).
  rewrite (bool_decide_eq_false_2 (c = CR)) by (intros ->; by compute in Hc). cbn [andb].
  rewrite (IH Hl). by destruct l.
Qed.

Lemma str_app_empty s : s +:+ "" = s.
Proof. induction s as [|c s IH]; [done|]. by rewrite str_app_cons, IH. Qed.

(** The text of a log of whole lines. *)
Definition log_text (es : list LogEntry) : string :=
  foldr (λ e s, to_line e +:+ String LF s) "" es.
Lemma log_text_bytes es : mjoin (line <$> es) = bytes_of (log_text es).
Proof.
  induction es as [|e es IH]; [done|]. change (line e ++ mjoin (line <$> es) =
    bytes_of (to_line e +:+ String LF (log_text es))).
  rewrite IH. unfold line. rewrite !bytes_of_app, <- app_assoc. f_equal.
Qed.
Lemma parse_log_text es s : parse_log (log_text es +:+ s) = es ++ parse_log s.
Proof.
  induction es as [|e es IH]; [done|]. unfold parse_log in *. cbn [log_text foldr].
  change (foldr _ "" es) with (log_text es).
  rewrite str_app_assoc, str_app_cons, str_lines_line by apply to_line_printable.
  cbn [omap list_omap]. by rewrite to_line_not_blank, of_line_to_line, IH.
Qed.

(** A part of a line from the front holds its entry or nothing. *)
Lemma str_all_prefix f p q : str_all f (p +:+ q) = true → str_all f p = true.
Proof.
  induction p as [|c p IH]; [done|]. rewrite str_app_cons. cbn [str_all].
  intros [Hc Hp]%andb_prop. by rewrite Hc, IH.
Qed.
Lemma parse_part e p q : to_line e +:+ String LF "" = p +:+ q → parse_log p = [] ∨ parse_log p = [e].
Proof.
  intros Hpq. assert ((∃ q', to_line e = p +:+ q') ∨ p = to_line e +:+ String LF "") as [[q' Hq]| ->].
  { revert p Hpq. induction (to_line e) as [|c s IH]; intros [|d p]; rewrite ?str_app_cons, ?str_app_nil.
    - by left; exists "".
    - intros [= <- Hp]. right. by destruct p.
    - intros _. left. by exists (String c s).
    - intros [= <- Hp]. destruct (IH p Hp) as [[q' ->]| ->]; [left|by right]. by exists q'. }
  - pose proof (to_line_printable e) as Hprint. rewrite Hq in Hprint.
    apply str_all_prefix in Hprint. unfold parse_log. rewrite str_lines_unended by done.
    destruct (str_is_empty p); [by left|]. cbn [omap list_omap].
    destruct (blank p); [by left|]. destruct q' as [|c q'].
    + rewrite str_app_empty in Hq. right. by rewrite <- Hq, of_line_to_line.
    + left. by rewrite (of_line_unfinished e p c q').
  - right. change (to_line e +:+ String LF "") with (log_text [e]). rewrite <- (str_app_empty (log_text [e])).
    apply parse_log_text.
Qed.
End parsing.

(** Bytes and text. *)
Lemma take_bytes n s : ∃ p q, s = p +:+ q ∧ take n (bytes_of s) = bytes_of p.
Proof.
  revert n. induction s as [|c s IH]; intros n; [exists "", ""; by destruct n|].
  destruct n as [|n]; [by exists "", (String c s)|].
  destruct (IH n) as (p & q & -> & Hp). exists (String c p), q. split; [done|].
  change (bytes_of (String c ?x)) with (byte_of_ascii c :: bytes_of x). cbn [take]. by rewrite Hp.
Qed.
Lemma utf8_valid_app l1 l2 : utf8_valid l1 = true → utf8_valid (l1 ++ l2) = utf8_valid l2.
Proof.
  revert l1. fix IH 1. intros [|b l1]; [done|]. cbn [app utf8_valid].
  destruct (b <? 0x80); [apply IH|].
  destruct (between 0xC2 0xDF b).
  { destruct l1 as [|c1 l1]; [done|]. cbn [app]. intros [-> Hl]%andb_prop. by apply IH. }
  destruct (between 0xE0 0xEF b).
  { destruct l1 as [|c1 [|c2 l1]]; [done..|]. cbn [app]. intros [-> Hl]%andb_prop. by apply IH. }
  destruct (between 0xF0 0xF4 b); [|done].
  destruct l1 as [|c1 [|c2 [|c3 l1]]]; [done..|]. cbn [app]. intros [-> Hl]%andb_prop. by apply IH.
Qed.

(** ** The contract with one session *)

(** How a log ends: with its last line; with an append that was not
    acknowledged, of which any part may be there; or with something an append
    after that has added to. *)
Inductive Tail := Clean | Torn (e : LogEntry) | Muddled.
(** What is kept for a session: its directory, its log, whether a power loss
    leaves the log, its snapshot and its receipt. *)
Record Kept := MkKept {
  k_dir : bool;
  k_log : list LogEntry;
  k_tail : Tail;
  k_flushed : bool;
  k_snapshot : option PersistedSession;
  k_receipt : option bytes;
}.
Definition nothing : Kept := MkKept false [] Clean true None None.
Definition present (k : Kept) : Kept :=
  MkKept true (k_log k) (k_tail k) (k_flushed k) (k_snapshot k) (k_receipt k).
Definition set_k_log (log : list LogEntry) (tail : Tail) (flushed : bool) (k : Kept) : Kept :=
  MkKept (k_dir k) log tail flushed (k_snapshot k) (k_receipt k).
Definition saved (p : PersistedSession) (k : Kept) : Kept :=
  MkKept (k_dir k) (k_log k) (k_tail k) (k_flushed k) (Some p) (k_receipt k).
Definition stored (b : bytes) (k : Kept) : Kept :=
  MkKept (k_dir k) (k_log k) (k_tail k) (k_flushed k) (k_snapshot k) (Some b).
(** An append that was acknowledged, and one that was not. *)
Definition acked (e : LogEntry) (k : Kept) : Kept :=
  match k_tail k with
  | Clean => set_k_log (k_log k ++ [e]) Clean true k
  | _ => set_k_log (k_log k) Muddled true k
  end.
Definition unacked (e : LogEntry) (k : Kept) : Kept :=
  set_k_log (k_log k) match k_tail k with Clean => Torn e | _ => Muddled end (k_flushed k) k.
(** What may be left when a removal was cut short. *)
Definition thinned (k k' : Kept) : Prop :=
  k_dir k' = k_dir k ∧ k_flushed k' = k_flushed k ∧
  (k_log k' = k_log k ∧ k_tail k' = k_tail k ∨ k_log k' = [] ∧ k_tail k' = Clean) ∧
  (k_snapshot k' = k_snapshot k ∨ k_snapshot k' = None) ∧
  (k_receipt k' = k_receipt k ∨ k_receipt k' = None).
(** What reading the log can give. *)
Definition log_reads (k : Kept) (es : list LogEntry) : Prop :=
  match k_tail k with
  | Clean => es = k_log k
  | Torn e => es = k_log k ∨ es = k_log k ++ [e]
  | Muddled => k_log k `prefix_of` es
  end.

Inductive Call :=
| CCreate (id : string) | CAppend (id : string) (e : LogEntry) | CLoadLog (id : string)
| CReplaceLog (id : string) (es : list LogEntry) | CSave (s : Session) | CLoadSession (id : string)
| CStoreReceipt (id nonce : string) (b : bytes) | CLoadReceipt (id : string)
| CStoreAnchor (id : string) (b : bytes) | CLoadAnchor (id : string)
| CDelete (id : string) | CList | CCleanup.
Inductive Answer :=
| ADone | ALog (es : list LogEntry) | ASession (o : option Session) | ABytes (o : option bytes)
| AWritten (w : ReceiptWritten) | AIds (ids : list string).
(** The session a call is about. *)
Definition about (c : Call) : option string :=
  match c with
  | CCreate id | CAppend id _ | CLoadLog id | CReplaceLog id _ | CLoadSession id
  | CStoreReceipt id _ _ | CLoadReceipt id | CStoreAnchor id _ | CLoadAnchor id | CDelete id => Some id
  | CSave s => Some (ss_session_id s)
  | CList | CCleanup => None
  end.

(** What a call about the session [me] may do, by its answer. *)
Definition promised `{SnapshotBytes} (me : string) (c : Call) (r : result Stop Answer) (k k' : Kept) : Prop :=
  (** a change in a directory that is there: done if acknowledged, else done or not *)
  let written k1 := k_dir k = true ∧ k' = k1 ∨ (∃ stop, r = Err stop) ∧ k' = k in
  match c, r with
  | CCreate _, _ => k' = present k ∨ (∃ stop, r = Err stop) ∧ k' = k
  | CAppend _ e, Ok _ => k_dir k = true ∧ k' = acked e k
  | CAppend _ e, Err _ => k' = k ∨ k_dir k = true ∧ k' = unacked e k
  | CReplaceLog _ es, _ => written (set_k_log es Clean false k)
  | CSave s, _ => written (saved (persist s) k)
  | CStoreReceipt _ _ b, Ok (AWritten (ReceiptExisting b')) => k' = k ∧ k_receipt k = Some b'
  | CStoreReceipt _ _ b, _ => k_receipt k = None ∧ written (stored b k) ∨ (∃ stop, r = Err stop) ∧ k' = k
  | CDelete _, Ok _ => k' = nothing ∨ k' = k
  | CDelete _, Err _ => k' = nothing ∨ thinned k k'
  | CLoadLog _, Ok (ALog es) => k' = k ∧ (log_reads k es ∨ es = [])
  | CLoadSession _, Ok (ASession o) => k' = k ∧ (o = unpersist <$> (k_snapshot k ≫= reread) ∨ o = None)
  | CLoadReceipt _, Ok (ABytes o) => k' = k ∧ o = k_receipt k
  | CList, Ok (AIds ids) => k' = k ∧ (me ∈ ids ↔ k_dir k = true)
  | (CLoadLog _ | CLoadSession _ | CLoadReceipt _ | CList), Ok _ => False
  | _, _ => k' = k
  end.

(** What it answers when no call to the disk is stopped. *)
Definition calm_reply `{SnapshotBytes} (hard_links : bool) (c : Call) (k : Kept) : option (result IoKind Answer) :=
  let in_directory a := if k_dir k then a else Err IoNotFound in
  match c with
  | CCreate _ | CDelete _ | CCleanup => Some (Ok ADone)
  | CAppend _ _ | CReplaceLog _ _ | CSave _ | CStoreAnchor _ _ => Some (in_directory (Ok ADone))
  | CLoadLog _ => match k_tail k with Clean => Some (Ok (ALog (k_log k))) | _ => None end
  | CLoadSession _ =>
      Some match k_snapshot k with
           | None => Ok (ASession None)
           | Some p => match reread p with
                       | Some p => Ok (ASession (Some (unpersist p)))
                       | None => Err IoInvalidData
                       end
           end
  | CLoadReceipt _ => Some (Ok (ABytes (k_receipt k)))
  | CStoreReceipt _ _ _ =>
      Some (if hard_links
            then in_directory (Ok (AWritten match k_receipt k with
                                            | Some b => ReceiptExisting b
                                            | None => ReceiptStored
                                            end))
            else Err IoUnsupported)
  | CLoadAnchor _ | CList => None
  end.
Definition calm_answer `{SnapshotBytes} (hard_links : bool) (c : Call) (k : Kept) : option (result IoKind Answer) :=
  if from_option single_component true (about c) then calm_reply hard_links c k
  else Some (Err IoInvalidInput).

(** A power loss may cut what was not synced of the log: it is cut short if it was
    compacted, and not appended to since. *)
Definition cut (k k' : Kept) : Prop :=
  k' = k ∨ k_flushed k = false ∧
    ∃ i e, k_log k !! i = Some e ∧ k' = set_k_log (take i (k_log k)) (Torn e) true k.

(** What a change of a directory is about, and taking it back to [k]. *)
Inductive Part := PDir | PLog | PSnapshot | PReceipt.
#[export] Instance part_eq_dec : EqDecision Part.
Proof. solve_decision. Defined.
Definition restore (part : Part) (k v : Kept) : Kept :=
  match part with
  | PDir => if k_dir k then present v else nothing
  | PLog => if k_dir v then set_k_log (k_log k) (k_tail k) (k_flushed k) v else v
  | PSnapshot =>
      if k_dir v then MkKept true (k_log v) (k_tail v) (k_flushed v) (k_snapshot k) (k_receipt v) else v
  | PReceipt =>
      if k_dir v then MkKept true (k_log v) (k_tail v) (k_flushed v) (k_snapshot v) (k_receipt k) else v
  end.
(** What is kept, and what a power loss may take back, the last change first. *)
Record Store := MkStore { st_now : Kept; st_undo : list (Part * Kept) }.
Definition undone (n : nat) (st : Store) : Kept :=
  foldl (λ v u, restore u.1 u.2 v) (st_now st) (take n (st_undo st)).
(** A power loss takes back the last [n] changes of the directories that were not
    durable, and leaves the others durable. *)
Definition lost (st st' : Store) : Prop := ∃ n, cut (undone n st) (st_now st') ∧ st_undo st' = [].

(** The changes of directories that a call may leave open to that. *)
Definition changes (c : Call) : list Part :=
  match c with
  | CCreate _ => [PDir]
  | CAppend _ _ | CReplaceLog _ _ => [PLog]
  | CSave _ => [PSnapshot]
  | CStoreReceipt _ _ _ => [PReceipt]
  | CDelete _ => [PDir; PLog; PSnapshot; PReceipt]
  | _ => []
  end.
(** An acknowledged append leaves nothing open. Nor do a snapshot and a receipt
    that are acknowledged, if no call to the disk was stopped. *)
Definition settles (c : Call) (r : result Stop Answer) (calm : Prop) : Prop :=
  match c, r with
  | CAppend _ _, Ok _ => True
  | CSave _, Ok _ | CStoreReceipt _ _ _, Ok (AWritten ReceiptStored) => calm
  | _, _ => False
  end.
Definition leaves_open (parts : list Part) (k : Kept) (us us' : list (Part * Kept)) : Prop :=
  ∃ new old, us' = new ++ old ∧ (old = us ∨ old = []) ∧ Forall (λ u, u.1 ∈ parts ∧ u.2 = k) new.

(** ** The disk under the contract *)
Section refinement.
Context `{LineCodecLaws} `{SnapshotBytes} (hard_links journalled : bool).

Definition serve_call (c : Call) : io Answer :=
  let done (m : io unit) := (do! m; st_ret ADone)%stm in
  match c with
  | CCreate id => done (file_create_session_storage id)
  | CAppend id e => done (file_append_log_entry journalled id e)
  | CLoadLog id => (let! es := file_load_log id in st_ret (ALog es))%stm
  | CReplaceLog id es => done (file_replace_log id es)
  | CSave s => done (file_save_session journalled s)
  | CLoadSession id => (let! o := file_load_session id in st_ret (ASession o))%stm
  | CStoreReceipt id nonce b =>
      (let! w := file_store_receipt_if_absent hard_links journalled id nonce b in st_ret (AWritten w))%stm
  | CLoadReceipt id => (let! o := file_load_receipt id in st_ret (ABytes o))%stm
  | CStoreAnchor id b => done (file_store_trace_anchor journalled id b)
  | CLoadAnchor id => (let! o := file_load_trace_anchor id in st_ret (ABytes o))%stm
  | CDelete id => done (file_delete_session id)
  | CList => (let! ids := file_list_session_ids in st_ret (AIds ids))%stm
  | CCleanup => done cleanup_temp_files
  end.

Definition log_kept (o : option Inode) (k : Kept) : Prop :=
  match o with
  | None => k_log k = [] ∧ k_tail k = Clean
  | Some i =>
      ∃ t, ino_data i = mjoin (line <$> k_log k) ++ t ∧
        match k_tail k with
        | Clean => t = []
        | Torn e => ∃ n, t = take n (line e)
        | Muddled => True
        end ∧
        (k_flushed k = true → (length (mjoin (line <$> k_log k)) ≤ ino_durable i)%nat)
  end.
Definition whole (b : bytes) : Inode := MkInode b (length b).
Record holds (me : string) (d : Disk) (k : Kept) : Prop := {
  holds_dir : me ∈ dk_dirs d ↔ k_dir k = true;
  holds_log : log_kept (dk_files d !! log_file me) k;
  holds_snapshot : dk_files d !! session_file me = whole ∘ to_vec_pretty <$> k_snapshot k;
  holds_receipt : dk_files d !! receipt_file me = whole <$> k_receipt k;
  holds_nothing : k_dir k = false → k = nothing;
}.

(** The contract sees these three files only. *)
Lemma holds_beside me d d' k ps ts :
  holds me d k → beside ps ts d d' →
  log_file me ∉ ps ++ ts → session_file me ∉ ps ++ ts → receipt_file me ∉ ps ++ ts → holds me d' k.
Proof.
  intros [Hd Hl Hs Hr Hn] (Hdirs & Hf & _) Hn1 Hn2 Hn3. split; rewrite ?Hdirs, ?Hf; done.
Qed.

(** ** Changes of directories under the contract *)

(** Taking back [u] takes back [o], or is of no account. *)
Definition undo_holds (me : string) (u : Undo) (o : option (Part * Kept)) : Prop :=
  ∀ d v, holds me d v → holds me (undo d u) (from_option (λ r, restore r.1 r.2 v) v o).
Inductive undoes (me : string) : list Undo → list (Part * Kept) → Prop :=
| undoes_nil : undoes me [] []
| undoes_cons u o js us :
    undo_holds me u o → undoes me js us → undoes me (u :: js) (option_list o ++ us).
(** The disk holds what is kept, also once changes are taken back. *)
Definition keeps (me : string) (d : Disk) (st : Store) : Prop :=
  holds me d (st_now st) ∧ undoes me (dk_journal d) (st_undo st).

Lemma undoes_last me n d st : keeps me d st → ∃ m, holds me (undo_last n d) (undone m st).
Proof.
  destruct st as [v us]. intros [Hh Hu]. unfold undo_last, undone. cbn [st_now st_undo] in *.
  remember (dk_journal d) as js eqn:Ej. clear Ej. revert v n d Hh.
  induction Hu as [|u o js us Ho Hu IH]; intros v n d Hh.
  { exists 0%nat. by rewrite take_nil. }
  destruct n as [|n]; [by exists 0%nat|]. cbn [take foldl].
  specialize (Ho _ _ Hh). destruct (IH _ n _ Ho) as [m Hm]. destruct o as [[part k]|]; cbn in *.
  - by exists (S m).
  - by exists m.
Qed.

(** A journal that has grown. *)
Lemma grown_undoes me parts k Q js js' us :
  grown Q js js' →
  (∀ u, Q u → undo_holds me u None ∨ ∃ part, part ∈ parts ∧ undo_holds me u (Some (part, k))) →
  undoes me js us → ∃ us', undoes me js' us' ∧ leaves_open parts k us us'.
Proof.
  intros (new & old & -> & Ho & Hn) HQ Hu.
  assert (∃ us0, undoes me old us0 ∧ (us0 = us ∨ us0 = [])) as (us0 & Hu0 & Hus0).
  { destruct Ho as [-> | ->]; [eauto|]. exists []. split; [constructor|by right]. }
  induction Hn as [|u new Hq _ IH].
  { exists us0. split; [done|]. exists [], us0. by split_and!; [|..|constructor]. }
  destruct IH as (us' & Hu' & new' & old' & -> & Ho' & Hn').
  destruct (HQ u Hq) as [Hnone|(part & Hpart & Hsome)]; cbn.
  - exists (new' ++ old'). split; [|by exists new', old']. by apply (undoes_cons me u None).
  - exists ((part, k) :: new' ++ old'). split; [by apply (undoes_cons me u (Some (part, k)))|].
    exists ((part, k) :: new'), old'. split_and!; [done|done|by constructor].
Qed.
Lemma undoes_empty me us : undoes me [] us → us = [].
Proof. by inversion 1. Qed.
End refinement.

(** ** Files that are written and then put in place *)

(** A new file after [m]: whole if [m] answers, and nothing else has changed. *)
Definition prepared (tmp : path) (i : Inode) (fs fs' : Fs) (r : result Stop unit) : Prop :=
  let d := fs_disk fs in let d' := fs_disk fs' in
  beside [] [tmp] d d' ∧
  match r with
  | Ok _ => dk_files d' !! tmp = Some i ∧ tmp.1 ∈ dk_dirs d ∧ (calm fs → calm fs')
  | Err stop => calm fs → tmp.1 ∉ dk_dirs d ∧ stop = Failed IoNotFound ∧ calm fs'
  end.
Lemma file_create_run p fs : after (file_create p) (prepared p (MkInode [] 0) fs) fs.
Proof.
  unfold prepared. assert (beside [] [p] (fs_disk fs) (enter p (Some (MkInode [] 0)) (fs_disk fs))) as Hb
    by (apply beside_enter; [auto with files|left; set_solver]).
  destruct (decide (p.1 ∈ dk_dirs (fs_disk fs))) as [Hdir|Hdir];
    apply after_atomically; unfold in_dir; rewrite ?bool_decide_eq_true_2, ?bool_decide_eq_false_2 by done;
    cbn [fst snd lift_kind fs_disk]; [intros fates Hc|intros fates stop Hc|intros fates Hc| |..].
  - split; [done|]. by rewrite enter_lookup.
  - split; [auto with files|done].
  - by split.
  - intros fates Hc. split; [auto with files|]. auto.
  - intros fates stop Hc. split; [auto with files|done].
  - intros fates Hc. split; [auto with files|done].
Qed.
Lemma write_file_run p data fs : after (write_file p data) (prepared p (MkInode data 0) fs) fs.
Proof.
  unfold write_file. apply after_bind. apply (after_mono _ _ _ _ (file_create_run p fs)).
  intros fs1 [[]|stop] [Hb Hr]; [|by split]. destruct Hr as (Hp & Hdir & Hc).
  unfold write_all. apply after_call; cbn [fst snd lift_kind]; unfold prepared; cbn [fs_disk].
  - intros fates Hc1. split; [apply beside_alter; [done|set_solver]|].
    cbn. rewrite lookup_alter_eq, Hp. split_and!; [done|done|auto].
  - intros fates halted n chosen Hc1. split; [apply beside_alter; [done|set_solver]|].
    intros Hx. destruct (Hc1 (Hc Hx)).
Qed.
Lemma write_synced_run p data fs : after (write_synced true p data) (prepared p (whole data) fs) fs.
Proof.
  unfold write_synced. apply after_bind. apply (after_mono _ _ _ _ (write_file_run p data fs)).
  intros fs1 [[]|stop] [Hb Hr]; [|by split]. destruct Hr as (Hp & Hdir & Hc).
  assert (beside [] [p] (fs_disk fs) (settle (λ _, true) (upd_files (alter flush p) (fs_disk fs1)))) as Hbs
    by (apply beside_settle, beside_alter; [done|set_solver]).
  unfold prepared. apply after_atomically; cbn [fst snd lift_kind fs_disk].
  - intros fates Hc1. split; [auto|]. cbn. rewrite lookup_alter_eq, Hp. auto.
  - intros fates stop Hc1. split; [auto|]. intros Hx. destruct (Hc1 (Hc Hx)).
  - intros fates Hc1. split; [auto|]. intros Hx. destruct (Hc1 (Hc Hx)).
Qed.

(** A file that was put in place: the target is what it was, or the new file, for
    good if [synced]. *)
Definition placed (synced : bool) (p tmp : path) (i : Inode) (fs fs' : Fs) (r : result Stop unit) : Prop :=
  let d := fs_disk fs in let d' := fs_disk fs' in
  beside [p] [tmp] d d' ∧
  (dk_files d' !! p = dk_files d !! p ∧ (∃ stop, r = Err stop) ∨
   dk_files d' !! p = Some i ∧ tmp.1 ∈ dk_dirs d) ∧
  (calm fs → r = if bool_decide (tmp.1 ∈ dk_dirs d) then Ok () else Err (Failed IoNotFound)) ∧
  (calm fs → synced = true → is_ok r = true → dk_journal d' = []).
Lemma tmp_ne p : tmp_of p ≠ p.
Proof.
  destruct p as [dir name]. unfold tmp_of. cbn. intros [= E]. apply (f_equal str_len) in E.
  rewrite str_len_app in E. change (str_len ".tmp") with 4 in E. lia.
Qed.
(** The file is prepared, renamed, and [last] settles the directories or changes
    nothing. *)
Definition settling (synced : bool) (last : io unit) : Prop :=
  ∀ fs Q,
    (∀ d fates, (calm fs → calm (MkFs d fates)) →
       (d = fs_disk fs ∧ (calm fs → synced = false) ∨ d = settle (λ _, true) (fs_disk fs)) →
       Q (MkFs d fates) (Ok ())) →
    (∀ d fates, ¬ calm fs → d = fs_disk fs ∨ d = settle (λ _, true) (fs_disk fs) → Q (MkFs d fates) (Err Halted)) →
    after last Q fs.
Lemma placed_run synced p (m last : io unit) i fs :
  after m (prepared (tmp_of p) i fs) fs → settling synced last →
  after (do! m; do! rename (tmp_of p) p; last)%stm (placed synced p (tmp_of p) i fs) fs.
Proof.
  intros Hm Hlast. pose proof (tmp_ne p) as Hne. apply after_bind. apply (after_mono _ _ _ _ Hm).
  intros fs1 [[]|stop] [Hb Hr]; pose proof (beside_weaken _ _ [p] [tmp_of p] _ _ Hb ltac:(set_solver) ltac:(set_solver)) as Hb'.
  2:{ split_and!; [done|left| |done].
      - split; [|by eexists]. apply Hb. set_solver.
      - intros (Hd & -> & _)%Hr. by rewrite bool_decide_eq_false_2. }
  destruct Hr as (Htmp & Hdir & Hc).
  assert (dk_files (fs_disk fs1) !! p = dk_files (fs_disk fs) !! p) as Hp by (apply Hb; set_solver).
  set (d2 := enter (tmp_of p) None (enter p (Some i) (fs_disk fs1))).
  assert (beside [p] [tmp_of p] (fs_disk fs) d2) as Hb2.
  { apply beside_enter; [apply beside_enter; [done|]|]; [right|left]; set_solver. }
  assert (dk_files d2 !! p = Some i) as Hp2 by (unfold d2; by rewrite enter_lookup_ne, enter_lookup).
  apply after_bind, after_atomically; cbn beta; rewrite ?Htmp; cbn [fst snd lift_kind fs_disk]; fold d2.
  - intros fates Hc1. apply Hlast; cbn [fs_disk].
    + intros d fates2 Hc2 Hd. split_and!; cbn [fs_disk].
      * destruct Hd as [[-> _]| ->]; auto with files.
      * right. destruct Hd as [[-> _]| ->]; done.
      * intros _. by rewrite bool_decide_eq_true_2.
      * intros Hx Hs _. destruct Hd as [[_ Hd]| ->]; [|apply settle_all].
        assert (synced = false) by auto. congruence.
    + intros d fates2 Hc2 Hd. split_and!; cbn [fs_disk].
      * destruct Hd as [-> | ->]; auto with files.
      * right. destruct Hd as [-> | ->]; done.
      * intros Hx. destruct Hc2. auto.
      * intros Hx. destruct Hc2. auto.
  - intros fates stop Hc1. split_and!; [done|left; eauto| |]; intros Hx; destruct (Hc1 (Hc Hx)).
  - intros fates Hc1. split_and!; [done|by right| |]; intros Hx; destruct (Hc1 (Hc Hx)).
Qed.
Lemma sync_dir_settles dir : settling true (ignore (sync_dir true dir)).
Proof.
  intros fs Q Hok Hhalt. apply after_ignore, after_atomically; cbn; [auto| |auto].
  intros fates [] Hc; [auto|]. apply Hok; [by intros ?|]. left. by split.
Qed.
Lemma atomic_write_run p data fs :
  after (atomic_write true p data) (placed true p (tmp_of p) (whole data) fs) fs.
Proof. apply placed_run; [apply write_synced_run|apply sync_dir_settles]. Qed.

(** Two files of a session with different names. *)
Ltac other_file :=
  let Hin := fresh in
  intros Hin; repeat (apply elem_of_cons in Hin as [[=]|Hin]); by apply not_elem_of_nil in Hin.

(** ** The calls keep the contract *)
Section calls.
Context `{LineCodecLaws} `{SnapshotBytes} (hard_links : bool).

(** Only what belongs to the session [id] has changed. *)
Definition within (id : string) (u : Undo) : Prop :=
  match u with Entry p _ => p.1 = id | Directory dir _ => dir = id end.
Definition elsewhere (id : string) (d d' : Disk) : Prop :=
  (∀ me, me ≠ id → me ∈ dk_dirs d' ↔ me ∈ dk_dirs d) ∧
  (∀ q, q.1 ≠ id → dk_files d' !! q = dk_files d !! q) ∧
  grown (within id) (dk_journal d) (dk_journal d').
Lemma elsewhere_refl id d : elsewhere id d d.
Proof. split_and!; [done|done|apply grown_refl]. Qed.
Lemma beside_elsewhere id ps ts d d' :
  beside ps ts d d' → Forall (λ p, p.1 = id) (ps ++ ts) → elsewhere id d d'.
Proof.
  intros (Hd & Hf & Hg) Hps. rewrite Forall_forall in Hps. split_and!.
  - intros me _. by rewrite Hd.
  - intros q Hq. apply Hf. intros Hin. by apply Hps in Hin.
  - eapply grown_mono; [done|]. intros [p o|dir there]; [|done]. cbn. set_solver.
Qed.

(** Taking back what changed elsewhere. *)
Lemma without_files_lookup dir gone d q :
  dk_files (without_files dir gone d) !! q =
  if goes_with dir gone q then None else dk_files d !! q.
Proof.
  cbn. rewrite map_lookup_filter. destruct (dk_files d !! q) as [i|]; cbn; [|by destruct (goes_with _ _ _)].
  by destruct (goes_with dir gone q).
Qed.
Lemma holds_elsewhere id me d d' k :
  (me ∈ dk_dirs d' ↔ me ∈ dk_dirs d) → (∀ q, q.1 ≠ id → dk_files d' !! q = dk_files d !! q) → me ≠ id →
  holds me d k → holds me d' k.
Proof. intros Hd Hf Hme [Hd0 Hl0 Hs0 Hr0 Hn0]. split; rewrite ?Hf by done; try done. by rewrite Hd. Qed.
Lemma within_undo id me u : within id u → me ≠ id → undo_holds me u None.
Proof.
  intros Hu Hme d v Hv. cbn [from_option]. destruct u as [p o|dir []]; cbn in Hu |- *; subst.
  - case_bool_decide; [|done]. apply (holds_elsewhere p.1 me d); [done| |done|done].
    intros q Hq. cbn. rewrite lookup_partial_alter_ne; [done|]. congruence.
  - apply (holds_elsewhere id me d); [cbn; set_solver|done|done|done].
  - apply (holds_elsewhere id me d); [cbn; set_solver| |done|done].
    intros q Hq. change (dk_files (without_files id (λ _, true) d) !! q = dk_files d !! q).
    rewrite without_files_lookup. unfold goes_with. by rewrite bool_decide_eq_false_2.
Qed.
Lemma elsewhere_keeps id me d d' st :
  elsewhere id d d' → me ≠ id → keeps me d st →
  ∃ us, keeps me d' (MkStore (st_now st) us) ∧ (us = st_undo st ∨ us = []).
Proof.
  intros (Hd & Hf & Hg) Hme [Hh Hu].
  destruct (grown_undoes me [] (st_now st) _ _ _ (st_undo st) Hg)
    as (us & Hus & new & old & -> & Ho & Hn); [|done|].
  - intros u Hw. left. by eapply within_undo.
  - assert (new = []) as ->. { destruct Hn as [|u new [Hin _] _]; [done|]. set_solver. }
    exists old. split; [|done]. split; [|done]. apply (holds_elsewhere id me d); auto.
Qed.

(** Taking back what a call changed of the session it is about. *)
Definition undone_by (c : Call) (id : string) (k : Kept) (u : Undo) : Prop :=
  undo_holds id u None ∨ ∃ part, part ∈ changes c ∧ undo_holds id u (Some (part, k)).
Lemma undo_other id p o :
  p ≠ log_file id → p ≠ session_file id → p ≠ receipt_file id → undo_holds id (Entry p o) None.
Proof.
  intros H1' H2' H3' d v [Hd Hl Hs Hr Hn]. cbn. case_bool_decide; [|by split].
  split; cbn; rewrite ?lookup_partial_alter_ne by done; done.
Qed.
Lemma undo_entry id p part d k :
  (p = log_file id ∧ part = PLog ∨ p = session_file id ∧ part = PSnapshot ∨ p = receipt_file id ∧ part = PReceipt) →
  holds id d k → undo_holds id (Entry p (dk_files d !! p)) (Some (part, k)).
Proof.
  intros Hp [_ Hl _Hs Hr _] d' v Hv. pose proof Hv as [Hd' Hl' Hs' Hr' Hn'].
  assert (p.1 = id) as Hid by (by destruct Hp as [[-> _]|[[-> _]|[-> _]]]).
  cbn [from_option undo fst snd]. rewrite Hid. destruct (k_dir v) eqn:Ek.
  2:{ rewrite bool_decide_eq_false_2 by by rewrite Hd'. by destruct part; cbn; rewrite ?Ek;
        destruct Hp as [[_ ?]|[[_ ?]|[_ ?]]]. }
  rewrite bool_decide_eq_true_2 by by rewrite Hd'.
  destruct Hp as [[-> ->]|[[-> ->]|[-> ->]]]; cbn [restore]; rewrite Ek; split; cbn;
    rewrite ?lookup_partial_alter_eq, ?lookup_partial_alter_ne by done; by rewrite ?Ek.
Qed.
(** The file that [part] is kept in. *)
Definition part_file (id : string) (p : path) (part : Part) : Prop :=
  p = log_file id ∧ part = PLog ∨ p = session_file id ∧ part = PSnapshot ∨ p = receipt_file id ∧ part = PReceipt.
Definition no_part (id : string) (p : path) : Prop :=
  p ≠ log_file id ∧ p ≠ session_file id ∧ p ≠ receipt_file id.
Lemma beside_undone c id ps ts d d' k :
  beside ps ts d d' → holds id d k → Forall (no_part id) ts →
  Forall (λ p, no_part id p ∨ ∃ part, part_file id p part ∧ part ∈ changes c) ps →
  grown (undone_by c id k) (dk_journal d) (dk_journal d').
Proof.
  intros (_ & _ & Hg) Hk Hts Hps. rewrite Forall_forall in Hts, Hps.
  eapply grown_mono; [done|]. intros [p o|dir there]; [|done]. intros [Hp|[Hp ->]].
  - left. destruct (Hts p Hp) as (? & ? & ?). by apply undo_other.
  - destruct (Hps p Hp) as [(? & ? & ?)|(part & Hf & Hc)]; [left; by apply undo_other|].
    right. exists part. split; [done|]. by apply undo_entry.
Qed.

(** The contract for the session a call is about. *)
Definition obeys (c : Call) (id : string) (fs fs' : Fs) (r : result Stop Answer) : Prop :=
  let d := fs_disk fs in let d' := fs_disk fs' in
  elsewhere id d d' ∧
  (∀ k, holds id d k → ∃ k', holds id d' k' ∧ promised id c r k k' ∧
    (calm fs →
       (∀ a, calm_answer hard_links c k = Some a → r = lift_kind a) ∧
       (∀ i, c = CDelete i → single_component i = true → k' = nothing))) ∧
  (∀ k, holds id d k → grown (undone_by c id k) (dk_journal d) (dk_journal d')) ∧
  (settles c r (calm fs) → dk_journal d' = []).

(** A call that changes the files [ps], and [ts]. *)
Lemma obeys_beside c id ps ts fs fs' r :
  beside ps ts (fs_disk fs) (fs_disk fs') → Forall (λ p, p.1 = id) (ps ++ ts) → Forall (no_part id) ts →
  Forall (λ p, no_part id p ∨ ∃ part, part_file id p part ∧ part ∈ changes c) ps →
  (settles c r (calm fs) → dk_journal (fs_disk fs') = []) →
  (∀ k, holds id (fs_disk fs) k → ∃ k', holds id (fs_disk fs') k' ∧ promised id c r k k' ∧
    (calm fs →
       (∀ a, calm_answer hard_links c k = Some a → r = lift_kind a) ∧
       (∀ i, c = CDelete i → single_component i = true → k' = nothing))) →
  obeys c id fs fs' r.
Proof.
  intros Hb Hid Hts Hps Hs Hv. split_and!; [by eapply beside_elsewhere|done| |done].
  intros k Hk. by eapply beside_undone.
Qed.

Lemma promised_refused me c stop k : promised me c (Err stop) k k.
Proof.
  destruct c; cbn; eauto 6. right. unfold thinned. tauto.
Qed.
(** The calls that write answer [ADone]. *)
Lemma after_done (m : io unit) (Q : Fs → result Stop Answer → Prop) fs :
  after m (λ fs' r, Q fs' match r with Ok _ => Ok ADone | Err stop => Err stop end) fs →
  after (do! m; st_ret ADone)%stm Q fs.
Proof. intros Hm. apply after_bind. apply (after_mono _ _ _ _ Hm). by intros fs' [[]|stop] HQ. Qed.
Lemma after_answer {A} (f : A → Answer) (m : io A) (Q : Fs → result Stop Answer → Prop) fs :
  after m (λ fs' r, Q fs' match r with Ok a => Ok (f a) | Err stop => Err stop end) fs →
  after (let! a := m in st_ret (f a))%stm Q fs.
Proof. intros Hm. apply after_bind. apply (after_mono _ _ _ _ Hm). by intros fs' [a|stop] HQ. Qed.
Lemma after_checked {A} id (m : io A) Q fs :
  (single_component id = true → after m Q fs) →
  (single_component id = false → Q fs (Err (Failed IoInvalidInput))) →
  after (do! check id; m)%stm Q fs.
Proof. intros Hm Hbad. unfold check. destruct (single_component id); [by apply Hm|by apply Hbad]. Qed.
Lemma obeys_bad_id c id fs :
  about c = Some id → single_component id = false → obeys c id fs fs (Err (Failed IoInvalidInput)).
Proof.
  intros Hc Hid. apply (obeys_beside c id [] []); [apply beside_refl|by constructor..|by destruct c|].
  intros k Hk. exists k. split_and!; [done|apply promised_refused|].
  intros _. unfold calm_answer. rewrite Hc. cbn [from_option]. rewrite Hid. split; [by intros a [= <-]|].
  intros i -> Hi. cbn in Hc. congruence.
Qed.
(** Answers that are no deletions. *)
Lemma calm_ok c id k (r : result Stop Answer) k' :
  about c = Some id → single_component id = true → (∀ i, c ≠ CDelete i) →
  (∀ a, calm_reply hard_links c k = Some a → r = lift_kind a) →
  (∀ a, calm_answer hard_links c k = Some a → r = lift_kind a) ∧
  (∀ i, c = CDelete i → single_component i = true → k' = nothing).
Proof.
  intros Hc Hid Hn Hr. unfold calm_answer. rewrite Hc. cbn [from_option]. rewrite Hid. split; [done|].
  intros i ->. by destruct (Hn i).
Qed.

Lemma without_dir_elsewhere id d :
  (∀ me, me ≠ id → me ∈ dk_dirs (without_dir id d) ↔ me ∈ dk_dirs d) ∧
  (∀ q, q.1 ≠ id → dk_files (without_dir id d) !! q = dk_files d !! q).
Proof.
  split; [cbn; set_solver|]. intros q Hq. change (dk_files (without_files id (λ _, true) d) !! q = dk_files d !! q).
  rewrite without_files_lookup. unfold goes_with. by rewrite bool_decide_eq_false_2.
Qed.
Lemma removed_holds id d : holds id (without_dir id d) nothing.
Proof.
  assert (∀ name, dk_files (without_dir id d) !! (id, name) = None) as Hf.
  { intros name. change (dk_files (without_files id (λ _, true) d) !! (id, name) = None).
    rewrite without_files_lookup. unfold goes_with. cbn [fst snd]. by rewrite bool_decide_eq_true_2. }
  split; [cbn; set_solver|unfold log_file; by rewrite Hf|unfold session_file; by rewrite Hf
    |unfold receipt_file; by rewrite Hf|done].
Qed.
Lemma undo_dir id d k : id ∉ dk_dirs d → holds id d k → undo_holds id (Directory id false) (Some (PDir, k)).
Proof.
  intros Hd Hk d' v Hv. assert (k_dir k = false) as Ek.
  { destruct (k_dir k) eqn:Ek; [|done]. by apply (holds_dir _ _ _ Hk) in Ek. }
  cbn [from_option restore fst snd]. rewrite Ek. apply removed_holds.
Qed.
Lemma create_obeys id fs : after (serve_call hard_links true (CCreate id)) (obeys (CCreate id) id fs) fs.
Proof.
  apply after_done, after_checked; intros Hid; [|by apply obeys_bad_id].
  set (d' := with_dir id (fs_disk fs)).
  assert (∀ fates r, (calm fs → r = Ok ADone) →
    obeys (CCreate id) id fs (MkFs d' fates) r) as Hdone.
  { intros fates r Hr. unfold d', with_dir. case_bool_decide as Hdir.
    - apply (obeys_beside _ id [] []); [apply beside_refl|constructor..|done|]. intros k Hk. exists k.
      assert (present k = k) as Hp by (apply (holds_dir _ _ _ Hk) in Hdir; destruct k; cbn in *; by rewrite Hdir).
      split_and!; [done|by left|]. intros Hx. apply (calm_ok _ id); [done..|]. intros a [= <-]. auto.
    - split_and!; cbn [fs_disk dk_dirs dk_files dk_journal].
      + split_and!; [set_solver|done|]. by apply grown_cons, grown_refl.
      + intros k Hk. exists (present k). pose proof Hk as [Hd0 Hl0 Hs0 Hr0 Hn0]. split_and!.
        * split; cbn; try done. set_solver.
        * by left.
        * intros Hx. apply (calm_ok _ id); [done..|]. intros a [= <-]. auto.
      + intros k Hk. apply grown_cons, grown_refl. right. exists PDir. split; [set_solver|].
        by eapply undo_dir.
      + done. }
  apply after_atomically; cbn [fst snd lift_kind]; fold d'.
  - intros fates Hc. by apply Hdone.
  - intros fates stop Hc. apply (obeys_beside _ id [] []); [apply beside_refl|constructor..|done|].
    intros k Hh. exists k. split_and!; [done|apply promised_refused|done].
  - intros fates Hc. apply Hdone. by intros ?.
Qed.

(** Appending to the log file. *)
Lemma log_opened o k : log_kept o k → log_kept (Some (default (MkInode [] 0) o)) k.
Proof.
  destruct o as [i|]; [done|]. intros [Hl Ht]. exists []. rewrite Hl, Ht. by split_and!; cbn; [..|lia].
Qed.
Lemma log_extended i k e n :
  log_kept (Some i) k → log_kept (Some (extend (take n (line e)) i)) (unacked e k).
Proof.
  intros (t & Hd & Ht & Hf). exists (t ++ take n (line e)). cbn. rewrite Hd, app_assoc.
  split_and!; [done| |done]. destruct (k_tail k); [|done..]. subst t. by exists n.
Qed.
Lemma log_flushed i k : log_kept (Some i) k → log_kept (Some (flush i)) k.
Proof.
  intros (t & Hd & Ht & Hf). exists t. split_and!; [done|done|]. intros _. cbn. rewrite Hd, app_length. lia.
Qed.
Lemma log_acked i k e : log_kept (Some i) k → log_kept (Some (flush (extend (line e) i))) (acked e k).
Proof.
  intros (t & Hd & Ht & Hf). unfold acked. destruct (k_tail k) eqn:Etail.
  1:{ subst t. exists []. cbn. rewrite Hd, fmap_app, join_app. cbn. rewrite !app_nil_r.
      split_and!; [done|done|]. intros _. by rewrite !app_length. }
  all: exists (t ++ line e); cbn; rewrite Hd, app_assoc; split_and!; [done|done|].
  all: intros _; rewrite !app_length; lia.
Qed.
Lemma log_holds_again id d d' k k' :
  holds id d k → beside [log_file id] [] d d' → k_dir k = true →
  log_kept (dk_files d' !! log_file id) k' → k' = set_k_log (k_log k') (k_tail k') (k_flushed k') k →
  holds id d' k'.
Proof.
  intros [Hd0 Hl0 Hs0 Hr0 Hn0] (Hdirs & Hf & _) Hdir Hl Hk. split.
  - rewrite Hdirs, Hk. done.
  - done.
  - rewrite Hf by other_file. by rewrite Hk.
  - rewrite Hf by other_file. by rewrite Hk.
  - rewrite Hk. cbn. by rewrite Hdir.
Qed.
Lemma holds_same_log id d d' k :
  holds id d k → beside [log_file id] [] d d' →
  dk_files d' !! log_file id = dk_files d !! log_file id → holds id d' k.
Proof.
  intros [Hd0 Hl0 Hs0 Hr0 Hn0] (Hdirs & Hf & _) Hl. split; rewrite ?Hdirs, ?Hl; try done.
  - by rewrite Hf by other_file.
  - by rewrite Hf by other_file.
Qed.
Lemma acked_same e k : acked e k = set_k_log (k_log (acked e k)) (k_tail (acked e k)) (k_flushed (acked e k)) k.
Proof. unfold acked. by destruct (k_tail k). Qed.

(** The file is there to append to, or nothing has changed. *)
Definition opened_log (id : string) (fs fs' : Fs) (r : result Stop unit) : Prop :=
  let d := fs_disk fs in let d' := fs_disk fs' in
  beside [log_file id] [] d d' ∧
  match r with
  | Ok _ => id ∈ dk_dirs d ∧ (calm fs → calm fs') ∧
      dk_files d' !! log_file id = Some (default (MkInode [] 0) (dk_files d !! log_file id))
  | Err stop =>
      (dk_files d' !! log_file id = dk_files d !! log_file id ∨
       id ∈ dk_dirs d ∧
       dk_files d' !! log_file id = Some (default (MkInode [] 0) (dk_files d !! log_file id))) ∧
      (calm fs → id ∉ dk_dirs d ∧ stop = Failed IoNotFound)
  end.
Lemma open_append_run id fs : after (open_append (log_file id)) (opened_log id fs) fs.
Proof.
  set (d' := match dk_files (fs_disk fs) !! log_file id with
             | Some _ => fs_disk fs
             | None => enter (log_file id) (Some (MkInode [] 0)) (fs_disk fs)
             end).
  assert (beside [log_file id] [] (fs_disk fs) d' ∧
    dk_files d' !! log_file id = Some (default (MkInode [] 0) (dk_files (fs_disk fs) !! log_file id)))
    as [Hb Hl].
  { unfold d'. destruct (dk_files (fs_disk fs) !! log_file id) as [i|] eqn:E; cbn [default].
    - split; [auto with files|done].
    - split; [|apply enter_lookup]. apply beside_enter; [auto with files|]. right. set_solver. }
  unfold opened_log. destruct (decide (id ∈ dk_dirs (fs_disk fs))) as [Hdir|Hdir];
    apply after_atomically; unfold in_dir; cbn [log_file fst];
    rewrite ?bool_decide_eq_true_2, ?bool_decide_eq_false_2 by done; fold (log_file id); fold d';
    cbn [fst snd lift_kind fs_disk]; try (intros fates stop Hc || intros fates Hc); split; auto with files.
  all: split; [by auto|by intros Hx%Hc].
Qed.
Lemma append_beside id e fs fs' r :
  beside [log_file id] [] (fs_disk fs) (fs_disk fs') → (is_ok r = true → dk_journal (fs_disk fs') = []) →
  (∀ k, holds id (fs_disk fs) k → ∃ k', holds id (fs_disk fs') k' ∧ promised id (CAppend id e) r k k' ∧
    (calm fs →
       (∀ a, calm_answer hard_links (CAppend id e) k = Some a → r = lift_kind a) ∧
       (∀ i, CAppend id e = CDelete i → single_component i = true → k' = nothing))) →
  obeys (CAppend id e) id fs fs' r.
Proof.
  intros Hb Hj Hv. apply (obeys_beside _ id [log_file id] []);
    [done|by repeat constructor|constructor| |by destruct r; [intros _; apply Hj|]|done].
  apply Forall_singleton. right. exists PLog. split; [by left|set_solver].
Qed.
(** The log file of [fs'] holds what an append made of it, cut short or not. *)
Lemma append_cut id e i stop fs fs' :
  ¬ calm fs → id ∈ dk_dirs (fs_disk fs) → beside [log_file id] [] (fs_disk fs) (fs_disk fs') →
  dk_files (fs_disk fs') !! log_file id = Some i →
  (∀ k, holds id (fs_disk fs) k → log_kept (Some i) (unacked e k)) →
  obeys (CAppend id e) id fs fs' (Err stop).
Proof.
  intros Hn Hdir Hb Hi Hk'. apply (append_beside _ _ _ _ _ Hb); [done|].
  intros k Hk. apply (holds_dir _ _ _ Hk) in Hdir. exists (unacked e k). split_and!; [|by right|done].
  eapply log_holds_again; [done|done|done| |done]. rewrite Hi. by apply Hk'.
Qed.
Lemma append_acknowledged id e i fs fs' :
  single_component id = true → id ∈ dk_dirs (fs_disk fs) →
  beside [log_file id] [] (fs_disk fs) (fs_disk fs') →
  dk_files (fs_disk fs') !! log_file id = Some (flush (extend (line e) i)) →
  dk_journal (fs_disk fs') = [] →
  (∀ k, holds id (fs_disk fs) k → log_kept (Some i) k) →
  obeys (CAppend id e) id fs fs' (Ok ADone).
Proof.
  intros Hid Hdir Hb Hi Hj Hk'. apply (append_beside _ _ _ _ _ Hb); [done|].
  intros k Hk. apply (holds_dir _ _ _ Hk) in Hdir. exists (acked e k). split_and!; [|by split|].
  - eapply log_holds_again; [done|done|done| |apply acked_same]. rewrite Hi. by apply log_acked, Hk'.
  - intros _. apply (calm_ok _ id); [done..|]. intros a [= <-]. by rewrite Hdir.
Qed.
Lemma append_obeys id e fs :
  after (serve_call hard_links true (CAppend id e)) (obeys (CAppend id e) id fs) fs.
Proof.
  apply after_done, after_checked; intros Hid; [|by apply obeys_bad_id].
  apply after_bind. apply (after_mono _ _ _ _ (open_append_run id fs)).
  intros fs1 [[]|stop] [Hb Hr].
  2:{ destruct Hr as [Hl Hc]. apply append_beside; [done|done|].
      intros k Hk. exists k. split_and!; [|by left|].
      - destruct Hl as [Hl|[Hdir Hl]]; [by eapply holds_same_log|].
        eapply (log_holds_again id (fs_disk fs)); [done|done| | |by destruct k].
        + by apply (holds_dir _ _ _ Hk).
        + rewrite Hl. apply log_opened, Hk.
      - intros [Hdir ->]%Hc. apply (calm_ok _ id); [done..|]. intros a [= <-].
        destruct (k_dir k) eqn:Ek; [|done]. by apply (holds_dir _ _ _ Hk) in Ek. }
  destruct Hr as (Hdir & Hc & Hl). set (i := default _ _) in Hl.
  assert (∀ k, holds id (fs_disk fs) k → log_kept (Some i) k) as Hi by (intros k Hk; apply log_opened, Hk).
  assert (∀ k, holds id (fs_disk fs) k → log_kept (Some (extend (line e) i)) (unacked e k)) as Hfull.
  { intros k Hk. rewrite <- (firstn_all (line e)). by apply log_extended, Hi. }
  assert (∀ f, beside [log_file id] [] (fs_disk fs) (upd_files (alter f (log_file id)) (fs_disk fs1))) as Hb1
    by (intros f; apply beside_alter; [exact Hb|set_solver]).
  assert (∀ f g, beside [log_file id] [] (fs_disk fs) (settle (λ _, true)
    (upd_files (alter f (log_file id)) (upd_files (alter g (log_file id)) (fs_disk fs1))))) as Hb2
    by (intros f g; apply beside_settle, beside_alter; [apply Hb1|set_solver]).
  apply after_bind, after_call; cbn [fst snd lift_kind].
  - intros fates Hc1. apply after_atomically; cbn [fst snd lift_kind fs_disk].
    + intros fates2 Hc2. apply (append_acknowledged id e i); [done|done|apply Hb2| |apply settle_all|done].
      cbn. by rewrite !lookup_alter_eq, Hl.
    + intros fates2 halted Hc2. eapply append_cut; [by auto|done|apply Hb1| |exact Hfull].
      cbn. by rewrite lookup_alter_eq, Hl.
    + intros fates2 Hc2. eapply append_cut; [by auto|done|apply Hb2| |].
      * cbn. by rewrite !lookup_alter_eq, Hl.
      * intros k Hk. by apply log_flushed, Hfull.
  - intros fates halted n chosen Hc1. eapply append_cut; [by auto|done|apply Hb1| |].
    + cbn. by rewrite lookup_alter_eq, Hl.
    + intros k Hk. by apply log_extended, Hi.
Qed.

(** Calls that read. *)
Lemma after_reading {A} (f : Disk → result IoKind A) Q fs :
  (∀ fates, (calm fs → calm (MkFs (fs_disk fs) fates)) →
     Q (MkFs (fs_disk fs) fates) (lift_kind (f (fs_disk fs)))) →
  (∀ fates halted, ¬ calm fs → Q (MkFs (fs_disk fs) fates) (Err (stop_of halted))) →
  after (atomically (λ d, (d, f d))) Q fs.
Proof.
  intros Hgoes Hstops. apply after_atomically; [done|done|]. intros fates Hc. apply (Hstops fates true Hc).
Qed.
Lemma obeys_read c id fs fates r :
  about c = Some id → single_component id = true → (∀ i, c ≠ CDelete i) →
  settles c r (calm fs) = False →
  (∀ k, holds id (fs_disk fs) k → promised id c r k k ∧
     (calm fs → ∀ a, calm_reply hard_links c k = Some a → r = lift_kind a)) →
  obeys c id fs (MkFs (fs_disk fs) fates) r.
Proof.
  intros Hc Hid Hn Hs Hk. apply (obeys_beside c id [] []); [apply beside_refl|by constructor| | | |];
    [constructor..| |].
  { intros Hx. by rewrite Hs in Hx. }
  intros k Hh. destruct (Hk k Hh) as [Hp Ha]. exists k.
  split_and!; [done|done|]. intros Hx. apply (calm_ok _ id); auto.
Qed.
Lemma obeys_unread c id fs fates stop :
  about c = Some id → single_component id = true → (∀ i, c ≠ CDelete i) → ¬ calm fs →
  obeys c id fs (MkFs (fs_disk fs) fates) (Err stop).
Proof.
  intros Hc Hid Hn Hx. apply obeys_read; [done..|by destruct c|]. intros k _. split; [apply promised_refused|done].
Qed.

(** What the bytes of a log file read as. *)
Lemma log_file_reads i k content :
  log_kept (Some i) k → from_utf8 (ino_data i) = Some content → log_reads k (parse_log content).
Proof.
  intros (t & Hd & Ht & _) Hc. unfold from_utf8 in Hc. destruct (utf8_valid _); [|done].
  injection Hc as <-. rewrite Hd, log_text_bytes. unfold log_reads.
  assert (∃ s, t = bytes_of s ∧ String.string_of_list_byte (bytes_of (log_text (k_log k)) ++ t) =
    log_text (k_log k) +:+ s) as (s & Hs & ->).
  { exists (String.string_of_list_byte t). unfold bytes_of. split.
    - by rewrite String.list_byte_of_string_of_list_byte.
    - rewrite <- (String.list_byte_of_string_of_list_byte t) at 1.
      change (String.list_byte_of_string ?x) with (bytes_of x). rewrite <- bytes_of_app.
      unfold bytes_of. by rewrite String.string_of_list_byte_of_string. }
  rewrite parse_log_text. destruct (k_tail k) as [|e|].
  - destruct s; [by rewrite app_nil_r|]. by subst t.
  - destruct Ht as [n Ht]. destruct (take_bytes n (to_line e +:+ String LF "")) as (p & q & Hpq & Hp).
    assert (s = p) as -> by (apply bytes_of_inj; by rewrite <- Hs, Ht, <- Hp).
    destruct (parse_part e p q Hpq) as [-> | ->]; [left; by rewrite app_nil_r|by right].
  - by eexists.
Qed.
Lemma log_text_utf8 es : utf8_valid (byte_val <$> bytes_of (log_text es)) = true.
Proof.
  induction es as [|e es IH]; [done|]. cbn [log_text foldr].
  change (foldr _ "" es) with (log_text es). rewrite bytes_of_app, fmap_app, utf8_valid_app.
  - exact IH.
  - apply to_line_utf8.
Qed.
Lemma clean_log_utf8 i k :
  log_kept (Some i) k → k_tail k = Clean → from_utf8 (ino_data i) = Some (log_text (k_log k)).
Proof.
  intros (t & Hd & Ht & _) Hk. rewrite Hk in Ht. subst t. rewrite Hd, app_nil_r, log_text_bytes.
  unfold from_utf8. rewrite log_text_utf8. unfold bytes_of. by rewrite String.string_of_list_byte_of_string.
Qed.
Lemma load_log_obeys id fs : after (serve_call hard_links true (CLoadLog id)) (obeys (CLoadLog id) id fs) fs.
Proof.
  apply after_answer, after_checked; intros Hid; [|by apply obeys_bad_id].
  apply after_bind, after_outcome, after_reading.
  - intros fates Hc. destruct (dk_files (fs_disk fs) !! log_file id) as [i|] eqn:Hl; cbn [lift_kind].
    + apply after_bind, after_reading; cbn [fs_disk]; rewrite ?Hl; cbn [lift_kind].
      * intros fates2 Hc2. apply after_throw, obeys_read; [done..|]. intros k Hk.
        pose proof (holds_log _ _ _ Hk) as Hkl. rewrite Hl in Hkl.
        destruct (from_utf8 (ino_data i)) as [content|] eqn:Hu; cbn [lift_kind]; split.
        -- split; [done|left]. by eapply log_file_reads.
        -- intros _ a. cbn. destruct (k_tail k) eqn:Ek; [|done..]. intros [= <-].
           rewrite (clean_log_utf8 i k Hkl Ek) in Hu. injection Hu as <-.
           rewrite <- (str_app_empty (log_text _)), parse_log_text. by rewrite app_nil_r.
        -- apply promised_refused.
        -- intros _ a. cbn. destruct (k_tail k) eqn:Ek; [|done..].
           by rewrite (clean_log_utf8 i k Hkl Ek) in Hu.
      * intros fates2 stop Hc2. apply (obeys_unread _ id); [done..|]. intros Hx. by apply Hc2, Hc.
    + apply obeys_read; [done..|]. intros k Hk. pose proof (holds_log _ _ _ Hk) as Hkl.
      rewrite Hl in Hkl. destruct Hkl as [Hlog Htail]. split; [by split; [|right]|].
      intros _ a. cbn. rewrite Htail, Hlog. by intros [= <-].
  - intros fates [] Hc; [by apply (obeys_unread _ id)|]. apply obeys_read; [done..|].
    intros k Hk. split; [by split; [|right]|done].
Qed.

Lemma load_session_obeys id fs :
  after (serve_call hard_links true (CLoadSession id)) (obeys (CLoadSession id) id fs) fs.
Proof.
  apply after_answer, after_checked; intros Hid; [|by apply obeys_bad_id].
  apply after_bind, after_outcome, after_reading.
  - intros fates Hc. destruct (dk_files (fs_disk fs) !! session_file id) as [i|] eqn:Hs; cbn [lift_kind].
    + apply after_bind, after_reading; cbn [fs_disk]; rewrite ?Hs; cbn [lift_kind].
      * intros fates2 Hc2. apply after_throw, obeys_read; [done..|]. intros k Hk.
        pose proof (holds_snapshot _ _ _ Hk) as Hks. rewrite Hs in Hks.
        destruct (k_snapshot k) as [p|] eqn:Ek; [|done]. injection Hks as ->. cbn [whole ino_data].
        change (of_snapshot (to_vec_pretty p)) with (reread p). cbn. rewrite Ek. cbn.
        destruct (reread p); cbn; (split; [by auto|by intros _ a [= <-]]).
      * intros fates2 stop Hc2. apply (obeys_unread _ id); [done..|]. intros Hx. by apply Hc2, Hc.
    + apply obeys_read; [done..|]. intros k Hk. pose proof (holds_snapshot _ _ _ Hk) as Hks.
      rewrite Hs in Hks. destruct (k_snapshot k) eqn:Ek; [done|]. cbn. rewrite Ek.
      split; [by split; [|right]|]. by intros _ a [= <-].
  - intros fates [] Hc; [by apply (obeys_unread _ id)|]. apply obeys_read; [done..|].
    intros k Hk. split; [by split; [|right]|done].
Qed.
Lemma load_receipt_obeys id fs :
  after (serve_call hard_links true (CLoadReceipt id)) (obeys (CLoadReceipt id) id fs) fs.
Proof.
  apply after_answer, after_checked; intros Hid; [|by apply obeys_bad_id].
  apply after_bind, after_outcome, after_reading.
  - intros fates Hc. destruct (dk_files (fs_disk fs) !! receipt_file id) as [i|] eqn:Hr; cbn [lift_kind].
    all: apply after_throw, obeys_read; [done..|]; intros k Hk.
    all: pose proof (holds_receipt _ _ _ Hk) as Hkr; rewrite Hr in Hkr.
    all: destruct (k_receipt k) as [b|] eqn:Ek; try done; cbn; rewrite Ek.
    + injection Hkr as ->. split; [done|]. by intros _ a [= <-].
    + split; [done|]. by intros _ a [= <-].
  - intros fates [] Hc; by apply (obeys_unread _ id).
Qed.

(** Calls that put a file in place. *)
(** A call that writes one file: [k1] is what the session keeps with the new file. *)
Lemma placed_obeys synced c id p i (k1 : Kept → Kept) fs fs' r :
  about c = Some id → single_component id = true → (∀ j, c ≠ CDelete j) → p.1 = id →
  no_part id (tmp_of p) → (no_part id p ∨ ∃ part, part_file id p part ∧ part ∈ changes c) →
  (∀ r, settles c r (calm fs) → calm fs ∧ synced = true ∧ is_ok r = true) →
  placed synced p (tmp_of p) i fs fs' r →
  (∀ k, calm_reply hard_links c k = Some (if k_dir k then Ok ADone else Err IoNotFound)) →
  (∀ k r, k_dir k = true → promised id c r k (k1 k)) →
  (∀ k d', holds id (fs_disk fs) k → beside [p] [tmp_of p] (fs_disk fs) d' →
     (dk_files d' !! p = dk_files (fs_disk fs) !! p → holds id d' k) ∧
     (k_dir k = true → dk_files d' !! p = Some i → holds id d' (k1 k))) →
  obeys c id fs fs' match r with Ok _ => Ok ADone | Err stop => Err stop end.
Proof.
  intros Habout Hid Hn Hp Htmp Hpart Hset Hpl Hreply Hprom Hh. destruct Hpl as (Hb & Hf & Hcalm & Hj).
  apply (obeys_beside c id [p] [tmp_of p]); [done|by repeat constructor|by constructor|by constructor| |].
  { intros (Hx & Hs & Hr)%Hset. apply Hj; [done..|]. by destruct r. }
  intros k Hk. cbn [tmp_of fst] in *. rewrite Hp in *.
  assert (calm fs → ∀ k', (∀ a, calm_answer hard_links c k = Some a →
    match r with Ok _ => Ok ADone | Err stop => Err stop end = lift_kind a) ∧
    (∀ j, c = CDelete j → single_component j = true → k' = nothing)) as Hans.
  { intros Hx k'. apply (calm_ok _ id); [done..|]. intros a. rewrite Hreply. intros [= <-].
    rewrite (Hcalm Hx). destruct (k_dir k) eqn:Ek.
    - by rewrite bool_decide_eq_true_2 by by apply (holds_dir _ _ _ Hk).
    - rewrite bool_decide_eq_false_2; [done|]. intros Hin. by apply (holds_dir _ _ _ Hk) in Hin; rewrite Hin in Ek. }
  destruct (Hh k (fs_disk fs') Hk Hb) as [Hsame Hnew]. destruct Hf as [[Hf [stop ->]]|[Hf Hin]].
  - exists k. split_and!; [auto|apply promised_refused|auto].
  - apply (holds_dir _ _ _ Hk) in Hin. exists (k1 k). split_and!; [auto|auto|auto].
Qed.
Lemma save_obeys s fs : after (serve_call hard_links true (CSave s)) (obeys (CSave s) (ss_session_id s) fs) fs.
Proof.
  apply after_done, after_checked; intros Hid; [|by apply obeys_bad_id].
  apply (after_mono _ _ _ _ (atomic_write_run _ _ fs)). intros fs' r Hpl.
  apply (placed_obeys true (CSave s) _ _ _ (saved (persist s)) _ _ _ eq_refl Hid) in Hpl; try done.
  - right. exists PSnapshot. split; [right; by left|set_solver].
  - by intros [a|stop].
  - intros k r' Hk. by left.
  - intros k d' [Hd0 Hl0 Hs0 Hr0 Hn0] (Hdirs & Hf & _). split.
    + intros Hs. split; rewrite ?Hdirs, ?Hs; try done; rewrite Hf; try done; other_file.
    + intros Hk Hs. split; rewrite ?Hdirs, ?Hs; try done.
      * rewrite Hf; [done|]. other_file.
      * rewrite Hf; [done|]. other_file.
      * cbn. by rewrite Hk.
Qed.
Lemma replace_obeys id es fs :
  after (serve_call hard_links true (CReplaceLog id es)) (obeys (CReplaceLog id es) id fs) fs.
Proof.
  apply after_done, after_checked; intros Hid; [|by apply obeys_bad_id].
  assert (after (do! write_file (tmp_of (log_file id)) (mjoin (line <$> es));
    rename (tmp_of (log_file id)) (log_file id))%stm
    (placed false (log_file id) (tmp_of (log_file id)) (MkInode (mjoin (line <$> es)) 0) fs) fs) as Hrun.
  { pose proof (placed_run false (log_file id) _ (st_ret ()) _ fs (write_file_run _ (mjoin (line <$> es)) fs)) as Hp.
    specialize (Hp ltac:(intros [d f] Q Hok _; apply (Hok d f); [done|by left])).
    unfold after, st_bind in *. destruct (write_file _ _ fs) as [fs1 [[]|stop]]; [|exact Hp].
    by destruct (rename _ _ fs1) as [fs2 [[]|stop]]. }
  apply (after_mono _ _ _ _ Hrun). intros fs' r Hpl.
  apply (placed_obeys false (CReplaceLog id es) _ _ _ (set_k_log es Clean false) _ _ _ eq_refl Hid) in Hpl; try done.
  - right. exists PLog. split; [by left|set_solver].
  - intros k r' Hk. by left.
  - intros k d' [Hd0 Hl0 Hs0 Hr0 Hn0] (Hdirs & Hf & _). split.
    + intros Hl. split; rewrite ?Hdirs, ?Hl; try done; rewrite Hf; try done; other_file.
    + intros Hk Hl. split; rewrite ?Hdirs, ?Hl; try done.
      * exists []. cbn. by rewrite app_nil_r.
      * rewrite Hf; [done|]. other_file.
      * rewrite Hf; [done|]. other_file.
      * cbn. by rewrite Hk.
Qed.
Lemma anchor_obeys id b fs :
  after (serve_call hard_links true (CStoreAnchor id b)) (obeys (CStoreAnchor id b) id fs) fs.
Proof.
  apply after_done, after_checked; intros Hid; [|by apply obeys_bad_id].
  apply (after_mono _ _ _ _ (atomic_write_run _ _ fs)). intros fs' r Hpl.
  apply (placed_obeys true (CStoreAnchor id b) _ _ _ (λ k, k) _ _ _ eq_refl Hid) in Hpl; try done; [by left|].
  intros k d' Hk Hb. split; intros; (eapply holds_beside; [done|exact Hb|..]); other_file.
Qed.
Lemma load_anchor_obeys id fs :
  after (serve_call hard_links true (CLoadAnchor id)) (obeys (CLoadAnchor id) id fs) fs.
Proof.
  apply after_answer, after_checked; intros Hid; [|by apply obeys_bad_id].
  apply after_bind, after_outcome, after_reading.
  - intros fates Hc. destruct (dk_files (fs_disk fs) !! anchor_file id); by apply after_throw, obeys_read.
  - intros fates [] Hc; by apply (obeys_unread _ id).
Qed.

(** Deleting a session. *)
Lemma thinned_holds id d k gone :
  holds id d k → k_dir k = true → ∃ k', holds id (without_files id gone d) k' ∧ thinned k k'.
Proof.
  intros [Hd0 Hl0 Hs0 Hr0 Hn0] Hk.
  exists (MkKept true (if gone "log.jsonl" then [] else k_log k) (if gone "log.jsonl" then Clean else k_tail k)
    (k_flushed k) (if gone "session.json" then None else k_snapshot k)
    (if gone "receipt.json" then None else k_receipt k)).
  split.
  - split; [by cbn; rewrite Hd0, Hk| | | |done]; rewrite without_files_lookup; unfold goes_with; cbn;
      rewrite bool_decide_eq_true_2 by done; cbn [andb].
    + by destruct (gone "log.jsonl").
    + by destruct (gone "session.json").
    + by destruct (gone "receipt.json").
  - unfold thinned. cbn. rewrite Hk. split_and!; [done|done|..].
    + destruct (gone "log.jsonl"); tauto.
    + destruct (gone "session.json"); tauto.
    + destruct (gone "receipt.json"); tauto.
Qed.
(** Taking back removals. *)
Lemma leaving_entry id gone d u :
  u ∈ (λ pi, Entry pi.1 (Some pi.2)) <$> map_to_list (filter (λ pi, goes_with id gone pi.1 = true) (dk_files d)) →
  ∃ p, u = Entry p (dk_files d !! p) ∧ p.1 = id.
Proof.
  intros ([p i] & -> & Hp)%list_elem_of_fmap. exists p.
  apply elem_of_map_to_list, map_lookup_filter_Some in Hp as [Hp Hg]. cbn [fst snd] in *. rewrite Hp.
  unfold goes_with in Hg. by apply andb_prop in Hg as [Hid%bool_decide_eq_true _].
Qed.
Lemma entry_undone id p d k : holds id d k → undone_by (CDelete id) id k (Entry p (dk_files d !! p)).
Proof.
  intros Hk. destruct (decide (p = log_file id)) as [->|].
  { right. exists PLog. split; [cbn; set_solver|]. apply undo_entry; [tauto|done]. }
  destruct (decide (p = session_file id)) as [->|].
  { right. exists PSnapshot. split; [cbn; set_solver|]. apply undo_entry; [tauto|done]. }
  destruct (decide (p = receipt_file id)) as [->|].
  { right. exists PReceipt. split; [cbn; set_solver|]. apply undo_entry; [tauto|done]. }
  left. by apply undo_other.
Qed.
Lemma without_files_grown id gone d (Q : Undo → Prop) :
  (∀ p, p.1 = id → Q (Entry p (dk_files d !! p))) →
  grown Q (dk_journal d) (dk_journal (without_files id gone d)).
Proof.
  intros HQ. apply grown_app; [|apply grown_refl]. apply Forall_forall.
  intros u (p & -> & Hp)%leaving_entry. auto.
Qed.
Lemma undo_removed id k : k_dir k = true → undo_holds id (Directory id true) (Some (PDir, k)).
Proof.
  intros Hk d v [Hd Hl Hs Hr Hn]. cbn [from_option restore fst snd]. rewrite Hk. split; cbn; try done. set_solver.
Qed.
(** The directory is removed, or the removal stopped. *)
Lemma delete_gone id fs fates r :
  id ∈ dk_dirs (fs_disk fs) → single_component id = true → (calm fs → r = Ok ADone) →
  obeys (CDelete id) id fs (MkFs (without_dir id (fs_disk fs)) fates) r.
Proof.
  intros Hdir Hid Hr. destruct (without_dir_elsewhere id (fs_disk fs)) as [Hd Hf].
  split_and!; cbn [fs_disk].
  - split_and!; [done|done|]. apply grown_cons; [done|]. by apply without_files_grown.
  - intros k Hk. exists nothing. split_and!; [apply removed_holds|by destruct r; left|]. intros Hx.
    unfold calm_answer. cbn [about from_option]. rewrite Hid. split; [|done]. intros a [= <-]. auto.
  - intros k Hk. apply grown_cons; [|apply without_files_grown; intros p _; by apply entry_undone].
    right. exists PDir. split; [cbn; set_solver|]. by apply undo_removed, (holds_dir _ _ _ Hk).
  - done.
Qed.
Lemma delete_cut id fs fates gone stop :
  id ∈ dk_dirs (fs_disk fs) → ¬ calm fs →
  obeys (CDelete id) id fs (MkFs (without_files id gone (fs_disk fs)) fates) (Err stop).
Proof.
  intros Hdir Hx. split_and!; cbn [fs_disk].
  - split_and!; [done| |by apply without_files_grown].
    intros q Hq. rewrite without_files_lookup. unfold goes_with. by rewrite bool_decide_eq_false_2.
  - intros k Hk. destruct (thinned_holds id (fs_disk fs) k gone Hk) as (k' & Hk' & Ht);
      [by apply (holds_dir _ _ _ Hk)|]. exists k'. split_and!; [done|by right|done].
  - intros k Hk. apply without_files_grown. intros p _. by apply entry_undone.
  - done.
Qed.
Lemma delete_obeys id fs : after (serve_call hard_links true (CDelete id)) (obeys (CDelete id) id fs) fs.
Proof.
  apply after_done, after_checked; intros Hid; [|by apply obeys_bad_id].
  assert (∀ fates r, (∀ k, holds id (fs_disk fs) k → promised id (CDelete id) r k k) →
    (calm fs → r = Ok ADone ∧ id ∉ dk_dirs (fs_disk fs)) → obeys (CDelete id) id fs (MkFs (fs_disk fs) fates) r) as Hsame.
  { intros fates r Hp Hr. apply (obeys_beside _ id [] []); [apply beside_refl|constructor..|done|].
    intros k Hk. exists k. split_and!; [done|auto|]. intros [-> Hd]%Hr.
    unfold calm_answer. cbn [about from_option]. rewrite Hid. split; [by intros a [= <-]|].
    intros _ _ _. apply (holds_nothing _ _ _ Hk). destruct (k_dir k) eqn:Ek; [|done].
    by apply (holds_dir _ _ _ Hk) in Ek. }
  apply after_bind, after_outcome, after_reading.
  - intros fates Hc. case_bool_decide as Hdir; cbn [lift_kind].
    + apply after_call; cbn [fst snd lift_kind fs_disk].
      * intros fates2 Hc2. by apply delete_gone.
      * intros fates2 halted n chosen Hc2. assert (¬ calm fs) as Hx by (intros Hx; by apply Hc2, Hc).
        destruct halted; [destruct n|]; [by apply delete_cut|by apply delete_gone|by apply delete_cut].
    + apply Hsame; [|done]. intros k Hk. by right.
  - intros fates [] Hc; apply Hsame; try done; intros k Hk; [apply promised_refused|by right].
Qed.

(** Storing a receipt. *)
Definition receipt_linked (id : string) (tmp : path) (b : bytes) (fs fs' : Fs) (r : result Stop ReceiptWritten)
    : Prop :=
  let d := fs_disk fs in let d' := fs_disk fs' in
  let before := dk_files d !! receipt_file id in
  beside [receipt_file id] [tmp] d d' ∧
  (calm fs → r = Ok ReceiptStored → dk_journal d' = []) ∧
  match r with
  | Ok (ReceiptExisting b') => dk_files d' !! receipt_file id = before ∧ ino_data <$> before = Some b'
  | _ =>
      dk_files d' !! receipt_file id = before ∧ (∃ stop, r = Err stop) ∨
      before = None ∧ dk_files d' !! receipt_file id = Some (whole b) ∧ id ∈ dk_dirs d
  end ∧
  (calm fs → r = if bool_decide (id ∈ dk_dirs d)
                 then Ok match before with Some i => ReceiptExisting (ino_data i) | None => ReceiptStored end
                 else Err (Failed IoNotFound)).
Lemma remove_ignored p fs :
  after (ignore (remove_file p)) (λ fs' r, beside [] [p] (fs_disk fs) (fs_disk fs') ∧
    match r with Ok _ => calm fs → calm fs' | Err stop => stop = Halted ∧ ¬ calm fs end) fs.
Proof.
  apply after_ignore. unfold remove_file.
  destruct (dk_files (fs_disk fs) !! p) as [i|] eqn:E; 
    (apply after_atomically; rewrite ?E; cbn [fst snd lift_kind];
     [intros fates Hc|intros fates [] Hc|intros fates Hc]);
    split; try done; try (intros Hx; destruct (Hc Hx)); auto with files.
  all: apply beside_enter; [auto with files|left; set_solver].
Qed.
(** Nothing was linked, or the receipt was there, or this one is now. *)
Lemma receipt_unlinked id tmp b fs fs' stop :
  beside [receipt_file id] [tmp] (fs_disk fs) (fs_disk fs') →
  dk_files (fs_disk fs') !! receipt_file id = dk_files (fs_disk fs) !! receipt_file id →
  (calm fs → id ∉ dk_dirs (fs_disk fs) ∧ stop = Failed IoNotFound) →
  receipt_linked id tmp b fs fs' (Err stop).
Proof.
  intros Hb Hr Hc. split_and!; [done|done|left; eauto|]. intros [Hd ->]%Hc. by rewrite bool_decide_eq_false_2.
Qed.
Lemma receipt_found id tmp b i fs fs' (r : result Stop ReceiptWritten) :
  beside [receipt_file id] [tmp] (fs_disk fs) (fs_disk fs') →
  dk_files (fs_disk fs) !! receipt_file id = Some i →
  dk_files (fs_disk fs') !! receipt_file id = Some i →
  r = Ok (ReceiptExisting (ino_data i)) ∨ (∃ stop, r = Err stop) →
  (calm fs → id ∈ dk_dirs (fs_disk fs) ∧ r = Ok (ReceiptExisting (ino_data i))) →
  receipt_linked id tmp b fs fs' r.
Proof.
  intros Hb Hi Hi' Hr Hc. unfold receipt_linked. rewrite Hi, Hi'. split_and!; [done| | |].
  - by intros [_ ->]%Hc.
  - destruct Hr as [->|[stop ->]]; [done|left; eauto].
  - intros [Hd ->]%Hc. by rewrite bool_decide_eq_true_2.
Qed.
Lemma receipt_new id tmp b fs fs' (r : result Stop ReceiptWritten) :
  beside [receipt_file id] [tmp] (fs_disk fs) (fs_disk fs') →
  dk_files (fs_disk fs) !! receipt_file id = None →
  dk_files (fs_disk fs') !! receipt_file id = Some (whole b) → id ∈ dk_dirs (fs_disk fs) →
  r = Ok ReceiptStored ∨ (∃ stop, r = Err stop) →
  (calm fs → r = Ok ReceiptStored ∧ dk_journal (fs_disk fs') = []) →
  receipt_linked id tmp b fs fs' r.
Proof.
  intros Hb Hi Hi' Hd Hr Hc. unfold receipt_linked. rewrite Hi, Hi'. split_and!; [done| | |].
  - by intros [_ Hj]%Hc.
  - destruct Hr as [->|[stop ->]]; by right.
  - intros [-> _]%Hc. by rewrite bool_decide_eq_true_2.
Qed.
(** The answer, once the link was tried. *)
Definition receipt_expected (linked : result IoKind unit) (there : option Inode) : result Stop ReceiptWritten :=
  match linked, there with
  | Ok _, _ => Ok ReceiptStored
  | Err IoAlreadyExists, Some i => Ok (ReceiptExisting (ino_data i))
  | Err IoAlreadyExists, None => Err (Failed IoNotFound)
  | Err kind, _ => Err (Failed kind)
  end.
Lemma receipt_answer_run id tmp linked fs :
  tmp ≠ receipt_file id →
  after (receipt_answer true id tmp linked) (λ fs' r,
    let expected := receipt_expected linked (dk_files (fs_disk fs) !! receipt_file id) in
    beside [] [tmp] (fs_disk fs) (fs_disk fs') ∧ (r = expected ∨ ∃ stop, r = Err stop) ∧
    (calm fs → r = expected ∧ (linked = Ok () → dk_journal (fs_disk fs') = []))) fs.
Proof.
  intros Hne. apply after_bind. apply (after_mono _ _ _ _ (remove_ignored tmp fs)).
  intros fs1 [[]|stop] [Hb Hc].
  2:{ split_and!; [done|by right; eexists|]. by destruct Hc as [_ Hc]. }
  assert (dk_files (fs_disk fs1) !! receipt_file id = dk_files (fs_disk fs) !! receipt_file id) as Hrec
    by (apply Hb; set_solver).
  destruct linked as [[]|kind].
  - apply after_bind, sync_dir_settles.
    + intros d fates Hc1 Hd. apply after_ret. cbn [fs_disk].
      split_and!; [destruct Hd as [[-> _]| ->]; auto with files|by left|].
      intros Hx. split; [done|]. intros _. destruct Hd as [[_ Hd]| ->]; [|apply settle_all].
      by specialize (Hd (Hc Hx)).
    + intros d fates Hc1 Hd. cbn [fs_disk].
      split_and!; [destruct Hd as [-> | ->]; auto with files|by right; eexists|]. intros Hx. by destruct (Hc1 (Hc Hx)).
  - destruct kind; try (by split_and!; [|left|]).
    apply after_bind, after_reading; rewrite ?Hrec; cbn [receipt_expected].
    + intros fates Hc1. destruct (dk_files (fs_disk fs) !! receipt_file id); by split_and!; [|left|].
    + intros fates halted Hc1. split_and!; [done|by right; eexists|]. intros Hx. by destruct (Hc1 (Hc Hx)).
Qed.
(** The answer over a disk [fs2] where [linked] was tried. *)
Lemma receipt_answer_linked id tmp b linked fs fs2 :
  tmp ≠ receipt_file id →
  beside [receipt_file id] [tmp] (fs_disk fs) (fs_disk fs2) →
  (∀ fs' r expected, beside [receipt_file id] [tmp] (fs_disk fs) (fs_disk fs') →
     dk_files (fs_disk fs') !! receipt_file id = dk_files (fs_disk fs2) !! receipt_file id →
     expected = receipt_expected linked (dk_files (fs_disk fs2) !! receipt_file id) →
     r = expected ∨ (∃ stop, r = Err stop) →
     (calm fs2 → r = expected ∧ (linked = Ok () → dk_journal (fs_disk fs') = [])) →
     receipt_linked id tmp b fs fs' r) →
  after (receipt_answer true id tmp linked) (receipt_linked id tmp b fs) fs2.
Proof.
  intros Hne Hb HQ. eapply after_mono; [by apply receipt_answer_run|].
  intros fs' r (Hb' & Hr & Hc). eapply HQ; [| |done|done|done].
  - apply (beside_trans_scratch _ _ _ _ _ Hb Hb').
  - apply Hb'. set_solver.
Qed.
Lemma link_run id tmp b fs fs1 :
  tmp ≠ receipt_file id →
  beside [receipt_file id] [tmp] (fs_disk fs) (fs_disk fs1) →
  dk_files (fs_disk fs1) !! receipt_file id = dk_files (fs_disk fs) !! receipt_file id →
  dk_files (fs_disk fs1) !! tmp = Some (whole b) → id ∈ dk_dirs (fs_disk fs) → (calm fs → calm fs1) →
  after (let! linked := outcome_of (hard_link tmp (receipt_file id)) in receipt_answer true id tmp linked)%stm
    (receipt_linked id tmp b fs) fs1.
Proof.
  intros Hne Hb Hrec Htmp Hdir Hc.
  assert (beside [receipt_file id] [tmp] (fs_disk fs) (enter (receipt_file id) (Some (whole b)) (fs_disk fs1)))
    as Hb2 by (apply beside_enter; [done|right; set_solver]).
  apply after_bind, after_outcome, after_atomically; rewrite ?Htmp, ?Hrec;
    destruct (dk_files (fs_disk fs) !! receipt_file id) as [i|] eqn:Ei; cbn [fst snd lift_kind].
  - intros fates Hc1. apply receipt_answer_linked; [done|done|]. cbn [fs_disk]. rewrite Hrec.
    intros fs' r expected Hb' Hi' -> Hr Hx. apply (receipt_found _ _ _ i); auto.
    intros Hcalm. destruct (Hx (Hc1 (Hc Hcalm))) as [-> _]. done.
  - intros fates Hc1. apply receipt_answer_linked; [done|done|]. cbn [fs_disk].
    rewrite enter_lookup. intros fs' r expected Hb' Hi' -> Hr Hx. apply receipt_new; auto.
    intros Hcalm. destruct (Hx (Hc1 (Hc Hcalm))) as [-> Hj]. auto.
  - intros fates halted Hc1. assert (¬ calm fs) as Hn by auto. destruct halted; cbn [stop_of].
    + apply receipt_unlinked; [done|cbn; congruence|done].
    + apply receipt_answer_linked; [done|done|]. cbn [fs_disk]. rewrite Hrec.
      intros fs' r expected Hb' Hi' -> [->|[stop ->]] Hx; (apply receipt_unlinked; [done|congruence|done]).
  - intros fates halted Hc1. assert (¬ calm fs) as Hn by auto. destruct halted; cbn [stop_of].
    + apply receipt_unlinked; [done|cbn; congruence|done].
    + apply receipt_answer_linked; [done|done|]. cbn [fs_disk]. rewrite Hrec.
      intros fs' r expected Hb' Hi' -> [->|[stop ->]] Hx; (apply receipt_unlinked; [done|congruence|done]).
  - intros fates Hc1. assert (¬ calm fs) as Hn by auto. apply receipt_unlinked; [done|cbn; congruence|done].
  - intros fates Hc1. assert (¬ calm fs) as Hn by auto. apply receipt_new; [done|done|apply enter_lookup|done|eauto|done].
Qed.
Lemma store_receipt_run id nonce b fs :
  single_component id = true → hard_links = true →
  after (file_store_receipt_if_absent hard_links true id nonce b)
    (receipt_linked id (receipt_tmp id nonce) b fs) fs.
Proof.
  intros Hid ->. apply after_checked; [intros _|congruence]. cbn [negb].
  assert (receipt_tmp id nonce ≠ receipt_file id) as Hne by (intros [=]).
  assert ((receipt_tmp id nonce).1 = id) as Htmp1 by done. set (tmp := receipt_tmp id nonce) in *.
  apply after_bind, after_outcome. apply (after_mono _ _ _ _ (write_synced_run tmp b fs)).
  intros fs1 r1 [Hb Hr1].
  pose proof (beside_weaken _ _ [receipt_file id] [tmp] _ _ Hb ltac:(set_solver) ltac:(set_solver)) as Hb1.
  assert (dk_files (fs_disk fs1) !! receipt_file id = dk_files (fs_disk fs) !! receipt_file id) as Hrec
    by (apply Hb; set_solver).
  destruct r1 as [[]|[|kind]]; rewrite Htmp1 in Hr1.
  - destruct Hr1 as (Htmp & Hdir & Hc).
    by apply link_run.
  - apply receipt_unlinked; [done|done|]. by intros (_ & ? & _)%Hr1.
  - apply receipt_answer_linked; [done|done|]. intros fs' r expected Hb' Hrec' -> Hr Hc. rewrite Hrec in *.
    assert (calm fs → r = Err (Failed IoNotFound) ∧ id ∉ dk_dirs (fs_disk fs)) as Hx.
    { intros (Hd & [= ->] & Hc1)%Hr1. split; [|done]. rewrite (proj1 (Hc Hc1)).
      by destruct (dk_files (fs_disk fs) !! receipt_file id). }
    assert (∀ stop, r = Err stop → receipt_linked id tmp b fs fs' r) as Hun.
    { intros stop ->. apply receipt_unlinked; [done|done|]. by intros [[= ->] Hd]%Hx. }
    destruct Hr as [Hr|[stop Hr]]; [|by eapply Hun].
    destruct (dk_files (fs_disk fs) !! receipt_file id) as [i|] eqn:Ei, kind; try by eapply Hun.
    apply (receipt_found _ _ _ i); [done|done|done|by left|]. intros [Hq _]%Hx. by rewrite Hr in Hq.
Qed.
Lemma receipt_same id d d' ps ts k :
  holds id d k → beside ps ts d d' → log_file id ∉ ps ++ ts → session_file id ∉ ps ++ ts →
  dk_files d' !! receipt_file id = dk_files d !! receipt_file id → holds id d' k.
Proof.
  intros [Hd0 Hl0 Hs0 Hr0 Hn0] (Hdirs & Hf & _) Hn1 Hn2 Heq.
  split; rewrite ?Hdirs, ?Heq, ?(Hf _ Hn1), ?(Hf _ Hn2); done.
Qed.
Lemma receipt_stored id d d' ps ts k b :
  holds id d k → beside ps ts d d' → log_file id ∉ ps ++ ts → session_file id ∉ ps ++ ts →
  dk_files d !! receipt_file id = None ∧ dk_files d' !! receipt_file id = Some (whole b) ∧ id ∈ dk_dirs d →
  holds id d' (stored b k) ∧ k_receipt k = None ∧ k_dir k = true.
Proof.
  intros [Hd0 Hl0 Hs0 Hr0 Hn0] (Hdirs & Hf & _) Hn1 Hn2 (Hnone & Heq & Hd).
  rewrite Hnone in Hr0. destruct (k_receipt k) eqn:Ek; [done|]. apply Hd0 in Hd as Hdir. split; [|done].
  split; cbn [stored k_dir k_snapshot k_receipt]; rewrite ?Hdirs, ?Heq, ?(Hf _ Hn1), ?(Hf _ Hn2);
    try done; congruence.
Qed.
Lemma store_receipt_obeys id nonce b fs :
  after (serve_call hard_links true (CStoreReceipt id nonce b)) (obeys (CStoreReceipt id nonce b) id fs) fs.
Proof.
  apply after_answer. destruct (single_component id) eqn:Hid.
  2:{ apply after_checked; rewrite Hid; [done|]. intros _. by apply obeys_bad_id. }
  destruct (decide (hard_links = true)) as [Hhl|Hhl].
  2:{ apply not_true_is_false in Hhl. apply after_checked; rewrite Hid; [intros _|done]. rewrite Hhl. cbn [negb].
      destruct fs as [d fates]. apply (obeys_read _ id (MkFs d fates)); [done..|]. intros k Hk.
      split; [apply promised_refused|]. intros _ a. cbn. rewrite Hhl. by intros [= <-]. }
  apply (after_mono _ _ _ _ (store_receipt_run id nonce b fs Hid Hhl)). intros fs' r (Hb & Hj & Hr & Hc).
  apply (obeys_beside _ id [receipt_file id] [receipt_tmp id nonce]);
    [done|by repeat constructor|by repeat constructor| | |].
  { apply Forall_singleton. right. exists PReceipt. split; [right; by right|set_solver]. }
  { intros Hs. destruct r as [[|b']|stop]; by try apply Hj. }
  intros k Hk.
  pose proof (holds_receipt _ _ _ Hk) as Hkr. pose proof (holds_dir _ _ _ Hk) as Hkd.
  assert (calm fs → ∀ k', (∀ a, calm_answer hard_links (CStoreReceipt id nonce b) k = Some a →
    match r with Ok w => Ok (AWritten w) | Err stop => Err stop end = lift_kind a) ∧
    (∀ j, CStoreReceipt id nonce b = CDelete j → single_component j = true → k' = nothing)) as Hans.
  { intros Hx k'. apply (calm_ok _ id); [done..|]. intros a. cbn. rewrite Hhl. intros [= <-].
    rewrite (Hc Hx), Hkr. destruct (k_dir k).
    - rewrite bool_decide_eq_true_2 by by apply Hkd. by destruct (k_receipt k).
    - rewrite bool_decide_eq_false_2; [done|]. by intros ?%Hkd. }
  assert (log_file id ∉ [receipt_file id] ++ [receipt_tmp id nonce]) as Hn1 by other_file.
  assert (session_file id ∉ [receipt_file id] ++ [receipt_tmp id nonce]) as Hn2 by other_file.
  pose proof (receipt_same _ _ _ _ _ _ Hk Hb Hn1 Hn2) as Hsame.
  pose proof (receipt_stored _ _ _ _ _ _ b Hk Hb Hn1 Hn2) as Hnew.
  destruct r as [[|b']|stop].
  - destruct Hr as [[_ [stop Hr]]|Hr]; [done|]. destruct (Hnew Hr) as (Hq & Hn & Hd).
    exists (stored b k). split_and!; [done| |auto]. left. split; [done|]. by left.
  - destruct Hr as [Hr Hi]. exists k. split_and!; [auto| |auto]. split; [done|]. rewrite Hkr in Hi.
    destruct (k_receipt k); [|done]. by injection Hi as ->.
  - destruct Hr as [[Hr _]|Hr].
    + exists k. split_and!; [auto|apply promised_refused|auto].
    + destruct (Hnew Hr) as (Hq & Hn & Hd). exists (stored b k).
      split_and!; [done| |auto]. left. split; [done|]. by left.
Qed.

(** Calls about no session in particular. *)
Lemma cleanup_run ps fs :
  after (foldr (λ p m, (do! ignore (remove_file p); m)%stm) (st_ret ()) ps)
    (λ fs' _, beside [] ps (fs_disk fs) (fs_disk fs')) fs.
Proof.
  revert fs. induction ps as [|p ps IH]; intros fs; [apply beside_refl|]. cbn [foldr].
  apply after_bind. apply (after_mono _ _ _ _ (remove_ignored p fs)). intros fs1 [[]|stop] [Hb _].
  - apply (after_mono _ _ _ _ (IH fs1)). intros fs2 _ Hb2.
    eapply beside_trans_scratch; (eapply beside_weaken; [eassumption|done|set_solver]).
  - eapply beside_weaken; [exact Hb|done|set_solver].
Qed.
Lemma not_temp d me name : is_temp name = false → (me, name) ∉ temp_files d.
Proof.
  intros Hn Hin. unfold temp_files in Hin. apply list_elem_of_In, filter_In in Hin as [_ Hin].
  apply andb_prop in Hin as [_ Hin]. cbn in Hin. congruence.
Qed.
Definition contract_step (me : string) (c : Call) (fates : nat → Fate) (r : result Stop Answer) (st st' : Store)
    : Prop :=
  let k := st_now st in let k' := st_now st' in let calm := ∀ n, fates n = Goes in
  (if bool_decide (about c = Some me ∨ about c = None) then promised me c r k k' else k' = k) ∧
  leaves_open (if bool_decide (about c = Some me) then changes c else []) k (st_undo st) (st_undo st') ∧
  (about c = Some me → settles c r calm → st_undo st' = []) ∧
  (calm → about c = Some me →
     (∀ a, calm_answer hard_links c k = Some a → r = lift_kind a) ∧
     (∀ i, c = CDelete i → single_component i = true → k' = nothing)).
Lemma obeys_contract me c fs fs' r st :
  about c = Some me → obeys c me fs fs' r → keeps me (fs_disk fs) st →
  ∃ st', contract_step me c (fs_fates fs) r st st' ∧ keeps me (fs_disk fs') st'.
Proof.
  intros Hc (_ & Hv & Hg & Hs) [Hk Hu]. destruct (Hv _ Hk) as (k' & Hk' & Hp & Ha).
  destruct (grown_undoes me (changes c) (st_now st) _ _ _ _ (Hg _ Hk) (λ u Hq, Hq) Hu) as (us & Hus & Ho).
  exists (MkStore k' us). split; [|by split]. unfold contract_step. cbn [st_now st_undo].
  rewrite !bool_decide_eq_true_2 by auto. split_and!; [done|done| |by intros Hx _; apply Ha].
  intros _ Hset. rewrite (Hs Hset) in Hus. by eapply undoes_empty.
Qed.
Lemma other_contract me id c fs fs' r st :
  about c = Some id → id ≠ me → elsewhere id (fs_disk fs) (fs_disk fs') → keeps me (fs_disk fs) st →
  ∃ st', contract_step me c (fs_fates fs) r st st' ∧ keeps me (fs_disk fs') st'.
Proof.
  intros Hc Hne He Hk. destruct (elsewhere_keeps id me _ _ st He) as (us & Hk' & Hus); [done|done|].
  eexists. split; [|exact Hk']. unfold contract_step. rewrite Hc.
  rewrite !bool_decide_eq_false_2 by naive_solver congruence. cbn [st_now st_undo].
  split_and!; [done| |congruence|congruence]. exists [], us. by split_and!; [|..|constructor].
Qed.
Lemma call_keeps_contract me c fs st :
  keeps me (fs_disk fs) st →
  after (serve_call hard_links true c)
    (λ fs' r, ∃ st', contract_step me c (fs_fates fs) r st st' ∧ keeps me (fs_disk fs') st') fs.
Proof.
  intros Hk. destruct (about c) as [id|] eqn:Hc.
  - assert (after (serve_call hard_links true c) (obeys c id fs) fs) as Hobeys.
    { destruct c; cbn in Hc; try done; injection Hc as <-;
        auto using create_obeys, append_obeys, load_log_obeys, replace_obeys, save_obeys, load_session_obeys,
          store_receipt_obeys, load_receipt_obeys, anchor_obeys, load_anchor_obeys, delete_obeys. }
    apply (after_mono _ _ _ _ Hobeys). intros fs' r Ho. destruct (decide (id = me)) as [->|Hne].
    + by apply obeys_contract.
    + eapply other_contract; [done|done|apply Ho|done].
  - assert (∀ r, promised me c r (st_now st) (st_now st) → ∀ fs', beside [] (temp_files (fs_disk fs)) (fs_disk fs) (fs_disk fs') →
      ∃ st', contract_step me c (fs_fates fs) r st st' ∧ keeps me (fs_disk fs') st') as Hsame.
    { intros r Hp fs' Hb. destruct Hk as [Hh Hu].
      assert (Forall (no_part me) (temp_files (fs_disk fs))) as Hts.
      { apply Forall_forall. intros p Hp'. split_and!; intros ->; revert Hp'; by apply not_temp. }
      pose proof (beside_undone c me [] _ _ _ _ Hb Hh Hts (Forall_nil_2 _)) as Hg.
      destruct (grown_undoes me [] (st_now st) _ _ _ (st_undo st) Hg) as (us & Hus & Ho).
      { intros u [?|(part & Hpart & _)]; [by left|]. by destruct c; try done; apply not_elem_of_nil in Hpart. }
      { done. }
      exists (MkStore (st_now st) us). split.
      - unfold contract_step. cbn [st_now st_undo]. rewrite Hc. rewrite bool_decide_eq_true_2 by auto.
        rewrite bool_decide_eq_false_2 by done. by split_and!.
      - split; [|done]. eapply holds_beside; [done|exact Hb|by apply not_temp..]. }
    destruct c; try done.
    + apply after_answer, after_reading.
      * intros fates Hx. apply Hsame; [|apply beside_refl]. split; [done|]. cbn.
        rewrite elem_of_elements. apply Hk.
      * intros fates halted Hx. apply Hsame; [done|apply beside_refl].
    + assert (after cleanup_temp_files (λ fs' _, beside [] (temp_files (fs_disk fs)) (fs_disk fs) (fs_disk fs')) fs)
        as Hrun by exact (cleanup_run (temp_files (fs_disk fs)) fs).
      apply after_done, (after_mono _ _ _ _ Hrun). intros fs' r Hb. apply Hsame; [by destruct r|done].
Qed.

(** A power loss. *)
Lemma take_lines es m :
  (m < length (mjoin (line <$> es)))%nat → ∃ i e j, es !! i = Some e ∧
    take m (mjoin (line <$> es)) = mjoin (line <$> take i es) ++ take j (line e).
Proof.
  revert m. induction es as [|e es IH]; intros m Hm; [cbn in Hm; lia|].
  change (mjoin (line <$> e :: es)) with (line e ++ mjoin (line <$> es)) in *. rewrite app_length in Hm.
  destruct (decide (m ≤ length (line e))%nat) as [Hle|Hgt].
  - exists 0%nat, e, m. split; [done|]. by rewrite take_app_le.
  - destruct (IH (m - length (line e))%nat) as (i & e' & j & Hi & Ht); [lia|].
    exists (S i), e', j. split; [done|]. cbn [take].
    change (mjoin (line <$> e :: ?l)) with (line e ++ mjoin (line <$> l)).
    rewrite take_app_ge, Ht by lia. by rewrite app_assoc.
Qed.
Lemma log_lost me survive d k :
  log_kept (dk_files d !! log_file me) k →
  ∃ k', cut k k' ∧ log_kept (dk_files (truncate survive d) !! log_file me) k'.
Proof.
  intros Hl. rewrite truncate_lookup. destruct (dk_files d !! log_file me) as [i|]; cbn [fmap option_fmap option_map].
  2:{ exists k. split; [by left|done]. }
  destruct Hl as (t & Hd & Ht & Hf). set (m := (ino_durable i `max` survive (log_file me))%nat).
  assert (ino_durable i ≤ m)%nat as Hm by lia.
  destruct (decide (m < length (mjoin (line <$> k_log k)))%nat) as [Hlt|Hge].
  - destruct (take_lines _ _ Hlt) as (j & e & n & Hj & Htake).
    exists (set_k_log (take j (k_log k)) (Torn e) true k). split.
    + right. split; [|by exists j, e]. destruct (k_flushed k); [|done]. specialize (Hf eq_refl). lia.
    + exists (take n (line e)). cbn [ino_data ino_durable set_k_log k_log k_tail k_flushed].
      rewrite Hd, take_app_le, Htake by lia.
      split_and!; [done|by exists n|]. intros _. rewrite app_length. lia.
  - exists k. split; [by left|]. exists (take (m - length (mjoin (line <$> k_log k))) t).
    cbn [ino_data ino_durable]. rewrite Hd, take_app_ge by lia. split_and!; [done| |].
    + destruct (k_tail k); [by subst; rewrite take_nil| |done].
      destruct Ht as [n ->]. rewrite take_take. by eexists.
    + intros _. rewrite app_length. lia.
Qed.
Lemma truncate_holds me survive d k : holds me d k → ∃ k', cut k k' ∧ holds me (truncate survive d) k'.
Proof.
  intros [Hd0 Hl0 Hs0 Hr0 Hn0].
  assert (∀ p (o : option bytes), dk_files d !! p = whole <$> o → dk_files (truncate survive d) !! p = whole <$> o)
    as Hwhole.
  { intros p o Hp. rewrite truncate_lookup, Hp. destruct o as [b|]; [|done]. cbn. do 2 f_equal.
    rewrite take_ge by lia. done. }
  assert (∀ k', k' = set_k_log (k_log k') (k_tail k') (k_flushed k') k →
    (k_dir k = false → k' = nothing) → log_kept (dk_files (truncate survive d) !! log_file me) k' →
    holds me (truncate survive d) k') as Hagain.
  { intros k' Hk' Hn' Hl'. split; [by rewrite Hk'|done| | |]; rewrite Hk'; cbn [set_k_log k_snapshot k_receipt k_dir].
    - rewrite option_fmap_compose. apply Hwhole. by rewrite <- option_fmap_compose.
    - by apply Hwhole.
    - intros Hk. rewrite <- Hk'. auto. }
  destruct (log_lost me survive d k Hl0) as (k' & Hlost & Hk').
  exists k'. split; [done|]. destruct Hlost as [->|(Hf & j & e & Hj & ->)].
  - apply Hagain; [by destruct k|done|done].
  - apply Hagain; [done| |done]. intros ->%Hn0. done.
Qed.
Lemma loss_keeps_contract me n survive d st :
  keeps me d st → ∃ st', lost st st' ∧ keeps me (lose n survive d) st'.
Proof.
  intros Hk. destruct (undoes_last me n d st Hk) as [m Hm].
  destruct (truncate_holds me survive _ _ Hm) as (k' & Hcut & Hk').
  exists (MkStore k' []). split; [by exists m|]. split; [done|constructor].
Qed.

(** ** Runs *)
Inductive FsEvent :=
| Called (c : Call) (fates : nat → Fate)
| PowerLoss (taken_back : nat) (survive : path → nat).
Definition event_step (journalled : bool) (ev : FsEvent) (d : Disk) : Disk * option (result Stop Answer) :=
  match ev with
  | Called c fates => let '(fs, r) := serve_call hard_links journalled c (MkFs d fates) in (fs_disk fs, Some r)
  | PowerLoss taken_back survive => (lose taken_back survive d, None)
  end.
Fixpoint run_events (journalled : bool) (evs : list FsEvent) (d : Disk) : Disk * list (FsEvent * option (result Stop Answer)) :=
  match evs with
  | [] => (d, [])
  | ev :: evs =>
      let '(d, answer) := event_step journalled ev d in
      let '(d, trace) := run_events journalled evs d in (d, (ev, answer) :: trace)
  end.
Definition new_disk : Disk := MkDisk ∅ ∅ [].
Definition new_store : Store := MkStore nothing [].

(** The contract over a run. *)
Inductive contract (me : string) : list (FsEvent * option (result Stop Answer)) → Store → Store → Prop :=
| contract_nil st : contract me [] st st
| contract_call c fates r trace st st' st'' :
    contract_step me c fates r st st' → contract me trace st' st'' →
    contract me ((Called c fates, Some r) :: trace) st st''
| contract_loss taken_back survive trace st st' st'' :
    lost st st' → contract me trace st' st'' →
    contract me ((PowerLoss taken_back survive, None) :: trace) st st''.

Lemma run_contract me evs d st :
  keeps me d st →
  ∃ st', contract me (run_events true evs d).2 st st' ∧ keeps me (run_events true evs d).1 st'.
Proof.
  revert d st. induction evs as [|[c fates|n survive] evs IH]; intros d st Hk; cbn.
  - exists st. split; [constructor|done].
  - destruct (call_keeps_contract me c (MkFs d fates) st Hk) as (st1 & Hs & Hk1).
    destruct (serve_call hard_links true c (MkFs d fates)) as [fs r]. cbn [fst snd] in *.
    destruct (IH (fs_disk fs) st1 Hk1) as (st2 & Hc & Hk2).
    destruct (run_events true evs (fs_disk fs)) as [d' trace]. exists st2. split; [|done]. by econstructor.
  - destruct (loss_keeps_contract me n survive d st Hk) as (st1 & Hs & Hk1).
    destruct (IH _ st1 Hk1) as (st2 & Hc & Hk2).
    destruct (run_events true evs (lose n survive d)) as [d' trace]. exists st2. split; [|done]. by econstructor.
Qed.
Lemma new_disk_keeps me : keeps me new_disk new_store.
Proof. split; [by split|constructor]. Qed.


(** ** Acknowledged entries *)

(** The appends to [me] in a run, and whether they were acknowledged. *)
Definition append_of (me : string) (ev : FsEvent * option (result Stop Answer)) : option (LogEntry * bool) :=
  match ev with
  | (Called (CAppend id e) _, Some r) => if id == me then Some (e, is_ok r) else None
  | _ => None
  end.
Definition appends (me : string) (trace : list (FsEvent * option (result Stop Answer)))
    : list (LogEntry * bool) := omap (append_of me) trace.
(** The log of [me] is compacted or deleted. *)
Definition rewrites (me : string) (ev : FsEvent * option (result Stop Answer)) : bool :=
  match ev.1 with
  | Called (CReplaceLog id _) _ | Called (CDelete id) _ => id == me
  | _ => false
  end.

(** A call that appends nothing to the log and does not rewrite it. *)
Lemma contract_same_log me c fates r st st' :
  contract_step me c fates r st st' → append_of me (Called c fates, Some r) = None →
  rewrites me (Called c fates, Some r) = false →
  let k := st_now st in let k' := st_now st' in
  k_log k' = k_log k ∧ k_tail k' = k_tail k ∧ k_flushed k' = k_flushed k ∧ (k_dir k' = false → k_dir k = false).
Proof.
  destruct st as [k us], st' as [k' us']. intros [Hp _] Ha Hr. cbn [st_now] in *.
  case_bool_decide as Hmine; [|by subst].
  unfold append_of, rewrites in *. cbn in Hr.
  destruct c; cbn in Hp, Hmine; try (destruct Hmine as [[= ->]|[=]]);
    rewrite ?bool_decide_eq_true_2 in * by done; try done.
  all: repeat case_match; naive_solver.
Qed.

(** The log is [es], with at most the part of an append of [last] after it, also
    once changes of the directories are taken back. *)
Definition tail_ok (last : option LogEntry) (t : Tail) : Prop := t = Clean ∨ ∃ e, last = Some e ∧ t = Torn e.
Definition view_logged (last : option LogEntry) (es : list LogEntry) (k : Kept) : Prop :=
  k_log k = es ∧ k_flushed k = true ∧ tail_ok last (k_tail k) ∧ (k_dir k = false → es = []).
Definition logged (last : option LogEntry) (es : list LogEntry) (st : Store) : Prop :=
  view_logged last es (st_now st) ∧ Forall (λ u, view_logged last es u.2) (st_undo st).
Lemma restore_logged last es part k v :
  view_logged last es k → view_logged last es v → view_logged last es (restore part k v).
Proof.
  intros (Hl & Hf & Ht & Hd) (Hl' & Hf' & Ht' & Hd').
  destruct part; cbn [restore]; [destruct (k_dir k) eqn:Ek|destruct (k_dir v) eqn:Ev..];
    try (split_and!; cbn; solve [done|congruence|auto]).
  specialize (Hd eq_refl) as ->. split_and!; [done|done|by left|done].
Qed.
Lemma lost_logged last es st st' : lost st st' → logged last es st → logged last es st'.
Proof.
  intros (n & Hcut & Hu) [Hnow Hall]. rewrite <- (take_drop n) in Hall. apply Forall_app in Hall as [Hall _].
  assert (view_logged last es (undone n st)) as Hv.
  { unfold undone. revert Hnow. generalize (st_now st). induction Hall as [|u us Hv _ IH]; intros v Hnow; [done|].
    cbn. by apply IH, restore_logged. }
  split; [|by rewrite Hu]. destruct Hcut as [->|[Hf _]]; [done|]. destruct Hv as (_ & Hf' & _). congruence.
Qed.
Lemma left_logged last last' es parts st us' :
  logged last es st → leaves_open parts (st_now st) (st_undo st) us' →
  (∀ t, tail_ok last t → tail_ok last' t) → Forall (λ u, view_logged last' es u.2) us'.
Proof.
  intros [Hnow Hall] (new & old & -> & Ho & Hn) Ht.
  assert (∀ k, view_logged last es k → view_logged last' es k) as Hweak by (unfold view_logged; naive_solver).
  apply Forall_app. split.
  - eapply Forall_impl; [exact Hn|]. intros u [_ ->]. auto.
  - destruct Ho as [-> | ->]; [|constructor]. eapply Forall_impl; [exact Hall|]. auto.
Qed.
Lemma contract_quiet me last trace es st st' :
  contract me trace st st' → forallb (λ ev, negb (rewrites me ev)) trace = true →
  appends me trace = [] → logged last es st → logged last es st'.
Proof.
  induction 1 as [st|c fates r trace st st1 st2 Hs _ IH|n survive trace st st1 st2 Hl _ IH]; intros Hw Ha Hlog.
  - done.
  - cbn [forallb] in Hw. apply andb_prop in Hw as [Hw1 Hw]. apply negb_true_iff in Hw1.
    unfold appends in Ha. cbn [omap list_omap] in Ha.
    destruct (append_of me (Called c fates, Some r)) eqn:Ea; [done|]. apply IH; [done|done|].
    destruct (contract_same_log _ _ _ _ _ _ Hs Ea Hw1) as (El & Et & Ef & Ed).
    destruct Hs as (_ & Ho & _). split; [|by eapply left_logged].
    destruct Hlog as [(? & ? & ? & ?) _]. split_and!; [congruence|congruence|congruence|auto].
  - apply IH; [done|done|]. by eapply lost_logged.
Qed.
Lemma contract_append me id e fates r es st st' :
  contract_step me (CAppend id e) fates r st st' → id = me → logged None es st →
  if is_ok r then logged None (es ++ [e]) st' else logged (Some e) es st'.
Proof.
  intros (Hp & Ho & Hs & _) -> Hlog. pose proof Hlog as [(Hl & Hf & [Ht|(e' & [=] & _)] & Hd) _].
  rewrite !bool_decide_eq_true_2 in * by auto. destruct r as [a|stop]; cbn [is_ok].
  - destruct Hp as [Hdir Hk']. split; [|by rewrite Hs]. rewrite Hk'. unfold acked. rewrite Ht.
    split_and!; cbn; [by rewrite Hl|done|by left|congruence].
  - split.
    2:{ eapply left_logged; [done|exact Ho|]. intros t [->|(e' & [=] & _)]. by left. }
    destruct Hp as [->|[Hdir ->]].
    + split_and!; [done|done|by left|done].
    + split_and!; cbn; [done|done| |congruence]. rewrite Ht. right. by eexists.
Qed.
Lemma contract_appends me trace es0 es rest st st' :
  contract me trace st st' → forallb (λ ev, negb (rewrites me ev)) trace = true → logged None es0 st →
  appends me trace = ((λ e, (e, true)) <$> es) ++ rest →
  rest = [] ∨ (∃ e, rest = [(e, false)]) →
  logged (fst <$> head rest) (es0 ++ es) st'.
Proof.
  intros Hc. revert es0 es.
  induction Hc as [st|c fates r trace st st1 st2 Hs Hc IH|n survive trace st st1 st2 Hl _ IH];
    intros es0 es Hw Hlog Ha Hrest.
  - destruct es as [|e es]; [|done]. destruct rest; [|done]. by rewrite app_nil_r.
  - cbn [forallb] in Hw. apply andb_prop in Hw as [Hw1 Hw]. apply negb_true_iff in Hw1.
    unfold appends in Ha. cbn [omap list_omap] in Ha.
    destruct (append_of me (Called c fates, Some r)) as [[e ok]|] eqn:Ea.
    2:{ apply IH; [done| |exact Ha|done]. apply (contract_quiet me None [(Called c fates, Some r)] es0 st st1); [|..|done].
        - econstructor; [done|constructor].
        - cbn [forallb]. by rewrite Hw1.
        - unfold appends. cbn [omap list_omap]. by rewrite Ea. }
    destruct c as [|id e'| | | | | | | | | | |]; try done. cbn in Ea. case_bool_decide as Hid; [|done].
    injection Ea as -> <-. pose proof (contract_append _ _ _ _ _ _ _ _ Hs Hid Hlog) as Hr.
    destruct es as [|e1 es]; cbn [fmap list_fmap app] in Ha.
    + destruct Hrest as [->|[e1 ->]]; [done|]. injection Ha as -> Hr1 Ha. rewrite Hr1 in Hr.
      rewrite app_nil_r. cbn. by eapply contract_quiet.
    + injection Ha as -> Hr1 Ha. rewrite Hr1 in Hr.
      specialize (IH (es0 ++ [e1]) es Hw Hr Ha Hrest). by rewrite <- app_assoc in IH.
  - apply IH; [done| |done|done]. by eapply lost_logged.
Qed.

(** The log of a session as an undisturbed [load_log] reads it. *)
Definition read_log (me : string) (d : Disk) : result Stop (list LogEntry) :=
  (file_load_log me (MkFs d (λ _, Goes))).2.
Lemma read_log_file me d :
  single_component me = true →
  read_log me d =
  match dk_files d !! log_file me with
  | None => Ok []
  | Some i => lift_kind (ok_or (parse_log <$> from_utf8 (ino_data i)) IoInvalidData)
  end.
Proof.
  intros Hme. unfold read_log, file_load_log, check. rewrite Hme.
  unfold st_bind, st_ret, outcome_of, metadata_file, read, atomically, call, throw. cbn [fs_fates fs_disk].
  destruct (dk_files d !! log_file me) as [i|] eqn:Hi; cbn; [|done]. rewrite Hi. cbn.
  by destruct (from_utf8 (ino_data i)).
Qed.
Lemma read_log_kept me d k :
  single_component me = true → holds me d k →
  match k_tail k with
  | Clean => read_log me d = Ok (k_log k)
  | Torn e => read_log me d = Ok (k_log k) ∨ read_log me d = Ok (k_log k ++ [e]) ∨
              read_log me d = Err (Failed IoInvalidData)
  | Muddled => True
  end.
Proof.
  intros Hme Hk. pose proof (holds_log _ _ _ Hk) as Hl. rewrite (read_log_file me d Hme).
  destruct (dk_files d !! log_file me) as [i|]; [|destruct Hl as [-> ->]; done].
  destruct (k_tail k) as [|e|] eqn:Et; [| |done].
  - rewrite (clean_log_utf8 i k Hl Et). cbn.
    by rewrite <- (str_app_empty (log_text _)), parse_log_text, app_nil_r.
  - destruct (from_utf8 (ino_data i)) as [content|] eqn:Hu; cbn; [|by auto].
    pose proof (log_file_reads i k content Hl Hu) as Hr. unfold log_reads in Hr. rewrite Et in Hr.
    destruct Hr as [-> | ->]; auto.
Qed.

End calls.

(** ** Runs on a disk *)
Module Demo.
(** A codec that satisfies the laws: the entry's number in binary, between a
    brace and a character of two bytes with a brace. *)
Definition closing : string := String (ascii_of_N 195) (String (ascii_of_N 169) "}").
Fixpoint pos_text (n : positive) : string :=
  match n with
  | xO n => String "0" (pos_text n)
  | xI n => String "1" (pos_text n)
  | xH => String "2" closing
  end.
Fixpoint text_pos (s : string) : option positive :=
  match s with
  | "" => None
  | String c s =>
      if c == "0"%char then xO <$> text_pos s
      else if c == "1"%char then xI <$> text_pos s
      else if (c == "2"%char) && (s == closing) then Some xH else None
  end.
Lemma text_pos_text n : text_pos (pos_text n) = Some n.
Proof. induction n as [n IH|n IH|]; cbn; rewrite ?IH; done. Qed.
Lemma text_pos_unfinished n p c q : pos_text n = p +:+ String c q → text_pos p = None.
Proof.
  revert p. induction n as [n IH|n IH|]; intros [|d p]; rewrite ?str_app_cons; try done; cbn [pos_text];
    intros [= <- Hp]; cbn [text_pos].
  - by rewrite bool_decide_eq_false_2, bool_decide_eq_true_2, (IH p) by done.
  - by rewrite bool_decide_eq_true_2, (IH p) by done.
  - do 2 rewrite bool_decide_eq_false_2 by done. rewrite bool_decide_eq_true_2 by done. cbn [andb].
    rewrite bool_decide_eq_false_2; [done|]. intros ->. apply (f_equal str_len) in Hp.
    rewrite str_len_app in Hp. unfold str_len in Hp. cbn in Hp. lia.
Qed.

#[local] Instance entry_kind_countable : Countable EntryKind.
Proof.
  refine (inj_countable' (λ k, match k with Incoming => 0 | Internal => 1 | Checkpoint => 2 end)
    (λ n, match n with 0 => Incoming | 1 => Internal | _ => Checkpoint end) _). by intros [].
Defined.
Definition entry_code (e : LogEntry) : positive :=
  encode [encode (le_message_id e); encode (le_received_at_ms e); encode (le_sender e);
    encode (le_message_type e); encode (le_raw_payload e); encode (le_entry_kind e);
    encode (le_session_id e); encode (le_mode e); encode (le_macp_version e);
    encode (le_timestamp_unix_ms e); encode (le_bound_mode_version e); encode (le_semantics_rev e);
    encode (le_bound_max_suspend_ms e); encode (le_compacted_incoming_ordinals e)].
Definition code_entry (n : positive) : option LogEntry :=
  l ← countable.decode n;
  match l : list positive with
  | [n1; n2; n3; n4; n5; n6; n7; n8; n9; n10; n11; n12; n13; n14] =>
      e1 ← countable.decode n1; e2 ← countable.decode n2; e3 ← countable.decode n3;
      e4 ← countable.decode n4; e5 ← countable.decode n5; e6 ← countable.decode n6;
      e7 ← countable.decode n7; e8 ← countable.decode n8; e9 ← countable.decode n9;
      e10 ← countable.decode n10; e11 ← countable.decode n11; e12 ← countable.decode n12;
      e13 ← countable.decode n13; e14 ← countable.decode n14;
      Some (MkLogEntry e1 e2 e3 e4 e5 e6 e7 e8 e9 e10 e11 e12 e13 e14)
  | _ => None
  end.
Lemma code_entry_code e : code_entry (entry_code e) = Some e.
Proof.
  unfold code_entry, entry_code. rewrite countable.decode_encode. cbn [mbind option_bind].
  rewrite !countable.decode_encode. by destruct e.
Qed.
#[local] Instance lines : LineCodec := {|
  to_line e := String "{" (pos_text (entry_code e));
  of_line s := match s with String c s => if c == "{"%char then text_pos s ≫= code_entry else None | "" => None end |}.

(** Text that starts with a brace is not blank. *)
Lemma rev_app_spec s t : String.rev_app s t = String.rev s +:+ t.
Proof.
  unfold String.rev. revert t. induction s as [|c s IH]; intros t; [done|]. cbn.
  rewrite IH, (IH (String c "")), str_app_assoc. done.
Qed.
Lemma drop_ws_end t2 t3 b : ws1 b = false → (∀ x, t2 x b = false) → (∀ x y, t3 x y b = false) →
  ∀ u, drop_ws t2 t3 (u +:+ String b "") ≠ "".
Proof.
  intros H1 H2 H3. fix IH 1. intros [|c1 u1]; [rewrite str_app_nil; cbn [drop_ws]; by rewrite H1|]. pose proof (IH u1) as IH1.
  rewrite str_app_cons. cbn [drop_ws]. destruct (ws1 c1); [done|]. clear IH1.
  destruct u1 as [|c2 u2]; [rewrite str_app_nil, H2; done|]. pose proof (IH u2) as IH2.
  rewrite str_app_cons. destruct (t2 c1 c2); [done|]. clear IH2.
  destruct u2 as [|c3 u3]; [rewrite str_app_nil, H3; done|]. rewrite str_app_cons.
  destruct (t3 c1 c2 c3); [apply IH|done].
Qed.
Lemma brace_not_blank s : blank (String "{" s) = false.
Proof.
  unfold blank, trim. assert (trim_start (String "{" s) = String "{" s) as ->.
  { unfold trim_start. by destruct s as [|c2 [|c3 s]]. }
  unfold trim_end. change (String.rev (String "{" s)) with (String.rev_app s (String "{" "")).
  rewrite rev_app_spec. set (t := drop_ws _ _ _).
  assert (t ≠ "") as Ht by (apply drop_ws_end; [done|intros x; done|intros x y; done]).
  destruct t as [|c t]; [done|]. unfold String.rev. cbn. rewrite rev_app_spec.
  unfold str_is_empty. apply bool_decide_eq_false_2. by destruct (String.rev t).
Qed.
Lemma pos_text_utf8 n : utf8_valid (byte_val <$> bytes_of (pos_text n)) = true.
Proof. induction n as [n IH|n IH|]; [exact IH..|done]. Qed.
Lemma pos_text_printable n : str_all (λ c, 32 <=? byte_of c) (pos_text n) = true.
Proof. induction n as [n IH|n IH|]; [exact IH..|done]. Qed.
#[local] Instance lines_laws : LineCodecLaws.
Proof.
  split; intros e.
  - cbn. by rewrite text_pos_text; cbn; rewrite code_entry_code.
  - apply pos_text_utf8.
  - apply brace_not_blank.
  - apply pos_text_printable.
  - intros [|d p] c q; [done|]. cbn [to_line lines]. rewrite str_app_cons. intros [= <- Hp]. cbn.
    by rewrite (text_pos_unfinished _ _ _ _ Hp).
Qed.
(** Snapshots, by their session id. *)
#[local] Instance snapshot_bytes : SnapshotBytes := {|
  to_vec_pretty p := bytes_of (ps_session_id p); of_snapshot _ := None |}.

Definition entry (id : string) : LogEntry :=
  MkLogEntry id 0 "" "" [] Incoming "" "" "" 0 None 0 None 0.
Definition goes : nat → Fate := λ _, Goes.
(** The write, the second call to the disk, is cut after [n] bytes. *)
Definition cut_write (n : nat) : nat → Fate :=
  λ m, if bool_decide (m = 1%nat) then Stops true n (λ _, false) else Goes.
Definition start : list FsEvent := [Called (CCreate "s") goes; Called (CAppend "s" (entry "a")) goes].
Definition reads (evs : list FsEvent) : result Stop (list LogEntry) :=
  read_log "s" (run_events true true evs new_disk).1.


(** ** Where the promises end *)

(** The process ends while it appends [b]; the append of [c] that follows is
    acknowledged, and its entry is not in the log. *)
Definition torn : list FsEvent :=
  start ++ [Called (CAppend "s" (entry "b")) (cut_write 3); Called CCleanup goes;
            Called (CAppend "s" (entry "c")) goes].
Example torn_line_takes_next :
  appends "s" (run_events true true torn new_disk).2 =
    [(entry "a", true); (entry "b", false); (entry "c", true)] ∧
  reads torn = Ok [entry "a"].
Proof. split; vm_compute; reflexivity. Qed.
(** A power loss after a compaction takes the log. *)
Example compacted_log_is_lost :
  reads (start ++ [Called (CReplaceLog "s" [entry "k"]) goes]) = Ok [entry "k"] ∧
  reads (start ++ [Called (CReplaceLog "s" [entry "k"]) goes; PowerLoss 0 (λ _, 0%nat)]) = Ok [].
Proof. split; vm_compute; reflexivity. Qed.
(** ... or brings back the log that was compacted. *)
Example compaction_taken_back :
  reads (start ++ [Called (CReplaceLog "s" [entry "k"]) goes; PowerLoss 2 (λ _, 0%nat)]) = Ok [entry "a"].
Proof. vm_compute. reflexivity. Qed.
(** What is read of the snapshot, as bytes, and of the session directories. *)
Definition snapshot_left (journalled : bool) (evs : list FsEvent) : option bytes :=
  ino_data <$> dk_files (run_events true journalled evs new_disk).1 !! session_file "s".
Definition dirs_left (journalled : bool) (evs : list FsEvent) : list string :=
  elements (dk_dirs (run_events true journalled evs new_disk).1).
Definition session : Session := session_builder "s" "m" "alice".
(** A snapshot is acknowledged when the sync of its directory, the fifth call to
    the disk, is refused, and a power loss takes it back. *)
Definition refused_dir_sync : nat → Fate :=
  λ n, if bool_decide (n = 4%nat) then Stops false 0 (λ _, false) else Goes.
Example unsynced_snapshot_is_lost :
  let evs := start ++ [Called (CSave session) refused_dir_sync] in
  (run_events true true evs new_disk).2.*2 = [Some (Ok ADone); Some (Ok ADone); Some (Ok ADone)] ∧
  snapshot_left true evs = Some (bytes_of "s") ∧
  snapshot_left true (evs ++ [PowerLoss 2 (λ _, 0%nat)]) = None ∧
  snapshot_left true (start ++ [Called (CSave session) goes; PowerLoss 2 (λ _, 0%nat)]) = Some (bytes_of "s").
Proof. split_and!; vm_compute; reflexivity. Qed.
(** Without a journal nothing syncs the directory the session directories are in:
    a power loss takes the session, with all that was acknowledged. *)
Example unjournalled_session_is_lost :
  let evs := start ++ [Called (CSave session) goes] in
  dirs_left false evs = ["s"] ∧ dirs_left false (evs ++ [PowerLoss 1 (λ _, 0%nat)]) = [] ∧
  dirs_left true (evs ++ [PowerLoss 1 (λ _, 0%nat)]) = ["s"].
Proof. split_and!; vm_compute; reflexivity. Qed.
(** A tear inside a character hides the whole log. *)
Example torn_character_hides_log :
  reads (start ++ [Called (CAppend "s" (entry "b")) (cut_write (length (line (entry "b")) - 3))]) =
    Err (Failed IoInvalidData).
Proof. vm_compute. reflexivity. Qed.
(** The entry of an append that was refused, because the sync failed, is in the log. *)
Example refused_append_is_read :
  let refused_sync := λ n, if bool_decide (n = 2%nat) then Stops false 0 (λ _, false) else Goes in
  let evs := start ++ [Called (CAppend "s" (entry "b")) refused_sync] in
  appends "s" (run_events true true evs new_disk).2 = [(entry "a", true); (entry "b", false)] ∧
  reads evs = Ok [entry "a"; entry "b"].
Proof. split; vm_compute; reflexivity. Qed.
(** A log whose metadata cannot be read is taken for an empty one. *)
Example unreadable_log_is_empty :
  let refused := λ n : nat, Stops false 0 (λ _, false) in
  (file_load_log "s" (MkFs (run_events true true start new_disk).1 refused)).2 = Ok [].
Proof. vm_compute. reflexivity. Qed.
End Demo.
