(* ===== verification/Sse.v ===== *)
(** * Server-sent events (src/http/sse.rs)

    The subscribe stream of the HTTP binding, interleaved with the runtime: where
    a client's [Last-Event-ID] puts it, how its subscription is opened, the loop
    that turns the session's envelopes into events, and how the stream ends. The
    session, its bus and the cursor are those of Stream; the client may lose its
    connection at any time and come back with the last id it holds. *)

From Stdlib Require Import DecimalString.
From Stdlib Require DecimalPos.
From stdpp Require Import prelude gmap strings.
From S2P Require Import Prelude RustStr Floats Extern Error Policy Wire SessionData Auth Jcs.
From S2P Require Import StreamFrames WatchSessions Log Stream.
Open Scope Z_scope.

(** ** Errors and events *)
Record RequestError := MkRequestError {
  re_code : string;
  re_message : text;
  re_session_id : string;
  re_details : bytes;
}.
Definition request_error (code : string) (message : text) : RequestError :=
  MkRequestError code message "" [].
Definition with_session (session_id : string) (e : RequestError) : RequestError :=
  MkRequestError (re_code e) (re_message e) session_id (re_details e).

(** What the response body carries: [data_event], [error_event], [KEEPALIVE]. *)
Inductive SseEvent :=
| DataEvent (json : bytes) (ordinal : option Z)
| ErrorEvent (err : RequestError)
| KeepaliveEvent.

(** Where a subscription starts: the [Last-Event-ID] headers and the request's
    [after_sequence]. *)
Definition after_sequence (last_event_id : list string) (body_after : Z) : result text Z :=
  match last_event_id with
  | [] => Ok body_after
  | _ :: _ :: _ => Err [Lit "more than one Last-Event-ID header"]
  | [value] =>
      if str_is_empty value || negb (str_all is_ascii_digit value) then
        Err [Lit "Last-Event-ID "; FDebug value; Lit " is not a non-negative decimal integer"]
      else
        match parse_usize value with
        | None => Err [Lit "Last-Event-ID "; Lit value; Lit " is out of range"]
        | Some n =>
            if negb (body_after =? 0) && negb (body_after =? n) then
              Err [Lit "Last-Event-ID "; FInt n; Lit " conflicts with after_sequence "; FInt body_after]
            else Ok n
        end
  end.

(** How far the session is from ending, as last observed. *)
Inductive Ending := EOpen | EResolved (last_ordinal : Z) | EFatal (err : RequestError).
Definition merge (self newer : Ending) : Ending :=
  match self with EOpen => newer | terminal => terminal end.

(** The branch by which a stream ended, or by which none was opened. *)
Inductive End :=
| EndResolved
| EndFatal (err : RequestError)
| EndLagged (lagged : StreamLagged)
| EndUnframed (err : RequestError)
| EndClosed
| EndShutdown
| EndLost
| EndInvalid (err : RequestError)
| EndRefused (err : SubscribeError).

(** The variables of [subscribe_events]. *)
Record Conn := MkConn {
  cn_ending : Ending;
  cn_delivered : Z;
  cn_lifecycle_open : bool;
}.
(** Where a request stands: to be authorized at a position, authorized, on the
    bus, observing the session (and having seen it resolved), in the loop. *)
Inductive Phase :=
| Offline (how : option End)
| Asking (after position : Z)
| Authorized (after position : Z)
| Attached (after position : Z)
| Observing (cn : Conn) (resolved : bool)
| Streaming (cn : Conn).

(** What [select!] finds ready. *)
Inductive Ready :=
| ReadyShutdown
| ReadyLifecycle (received : TryRecv LifecycleEvent)
| ReadyItem
| ReadyIdle.

Section stream.
Context `{HB : Broadcast Envelope, HL : !BroadcastLaws}.
Context (id : string).
(** The JSON of an envelope's frame ([to_dynamic] and [encode_response]). *)
Context (frame_json : Envelope → result RequestError bytes).

(** The runtime and one client: where it first subscribed, and what it has
    received since, over all its connections. *)
Record Sse := MkSse {
  se_hub : Hub;
  se_state : SessionState;
  se_evicted : bool;
  se_phase : Phase;
  se_base : Z;
  se_received : list (Z * Envelope);
  se_events : list SseEvent;
}.
Definition set_hub (h : Hub) (s : Sse) : Sse :=
  MkSse h (se_state s) (se_evicted s) (se_phase s) (se_base s) (se_received s) (se_events s).
Definition set_phase (ph : Phase) (s : Sse) : Sse :=
  MkSse (se_hub s) (se_state s) (se_evicted s) ph (se_base s) (se_received s) (se_events s).
Definition set_session (st : SessionState) (evicted : bool) (s : Sse) : Sse :=
  MkSse (se_hub s) st evicted (se_phase s) (se_base s) (se_received s) (se_events s).
Definition set_client (base : Z) (received : list (Z * Envelope)) (s : Sse) : Sse :=
  MkSse (se_hub s) (se_state s) (se_evicted s) (se_phase s) base received (se_events s).
Definition emit (evs : list SseEvent) (s : Sse) : Sse :=
  MkSse (se_hub s) (se_state s) (se_evicted s) (se_phase s) (se_base s) (se_received s)
    (se_events s ++ evs).
(** The highest ordinal the client holds. *)
Definition held (s : Sse) : Z := se_base s + len (se_received s).

Inductive SseAction :=
| Work (a : Action)
| Becomes (st : SessionState)
| EvictSession
| Connect (last_event_id : list string) (req : StreamSessionRequest)
| Reconnect
| Authorize (refusal : option SubscribeError)
| SubscribeBus
| LoadSnapshot
| ObserveState (stored : option SessionState)
| ObserveHighWater
| Turn (ready : Ready)
| HangUp (kept : nat).

(** *** The runtime *)

(** Only an open session accepts, and only the log of a terminal one is
    compacted; the subscriber's own steps are below. *)
Definition may_work (a : Action) (s : Sse) : bool :=
  match a with
  | Accept _ _ _ => se_state s == Open
  | Compact _ _ _ => is_terminal (se_state s)
  | Subscribe | Snapshot _ | Poll | RemoveLog => false
  | _ => true
  end.
(** Under the session's mutex an envelope is appended, committed and published,
    so every other change finds none on its way; the envelope that resolves the
    session does so before it is published. *)
Definition may_become (st : SessionState) (s : Sse) : bool :=
  let free := bool_decide (hub_pending (se_hub s) = None) in
  match st with
  | Resolved => (se_state s == Open) && negb free
  | Cancelled | Expired => negb (is_terminal (se_state s)) && free
  | Suspended => (se_state s == Open) && free
  | Open => (se_state s == Suspended) && free
  end.
(** [evict_stale_sessions] forgets the log of a terminal session. *)
Definition evict_session (s : Sse) : Sse :=
  if is_terminal (se_state s) && bool_decide (hub_pending (se_hub s) = None) then
    let h := act id (RemoveChannel id) (act id RemoveLog (se_hub s)) in
    set_session (se_state s) true (set_hub h s)
  else s.

(** *** Opening *)

(** The cursor and its receiver are dropped. *)
Definition leave (c : SubscriptionCursor) (h : Hub) : Hub :=
  with_reader Away
    match sc_receiver c with
    | Some r => with_bus (bus_leave r (hub_bus h)) h
    | None => h
    end.
Definition finish (c : SubscriptionCursor) (how : End) (evs : list SseEvent) (s : Sse) : Sse :=
  set_phase (Offline (Some how)) (emit evs (set_hub (leave c (se_hub s)) s)).
Definition refuse (how : End) (s : Sse) : Sse := set_phase (Offline (Some how)) s.

(** [subscribe]: the checks of the request, then the first read of [open]. A
    request about another session is another client's. *)
Definition ask (after : Z) (s : Sse) : Sse :=
  set_phase (Asking after match subscribe_snapshot id u64_max (hub_log (se_hub s)) with
                          | Ok (_, high_water) => Z.min after high_water
                          | Err _ => after
                          end) s.
Definition connect (last_event_id : list string) (req : StreamSessionRequest) (s : Sse) : Sse :=
  let invalid message := refuse (EndInvalid (with_session (sr_subscribe_session_id req)
                                               (request_error "INVALID_REQUEST" message))) s in
  if bool_decide (is_Some (sr_envelope req)) then
    invalid [Lit "a StreamSession request must not carry an envelope: this binding has no bidirectional stream; submit Envelopes with Send"]
  else if str_is_empty (sr_subscribe_session_id req) then
    invalid [Lit "subscribe_session_id must not be empty"]
  else if sr_subscribe_session_id req != id then s
  else match after_sequence last_event_id (sr_after_sequence req) with
       | Err message => invalid message
       | Ok after => ask after (set_client after [] s)
       end.
(** The client comes back with the last id it holds. *)
Definition reconnect (s : Sse) : Sse :=
  match after_sequence [z_to_string (held s)] 0 with
  | Err message => refuse (EndInvalid (with_session id (request_error "INVALID_REQUEST" message))) s
  | Ok after => ask after s
  end.
(** [authorize_subscription] reads the session under its mutex; its verdict on
    the caller is given. *)
Definition authorize (after position : Z) (refusal : option SubscribeError) (s : Sse) : Sse :=
  if negb (bool_decide (hub_pending (se_hub s) = None)) then s
  else if se_evicted s then refuse (EndRefused (SubUnknownSession id)) s
  else match refusal with
       | Some e => refuse (EndRefused e) s
       | None => set_phase (Authorized after position) s
       end.
Definition subscribe_bus (after position : Z) (s : Sse) : Sse :=
  set_phase (Attached after position) (set_hub (act id Subscribe (se_hub s)) s).
(** The snapshot; below a compaction made in between, [open] tries the client's
    own position once. *)
Definition load (after position : Z) (s : Sse) : Sse :=
  match hub_reader (se_hub s) with
  | Subscribed p c =>
      match load_snapshot id position (hub_log (se_hub s)) c with
      | Ok c => set_phase (Observing (MkConn EOpen after true) false)
                  (set_hub (with_reader (Reading p (Z.min position p) c []) (se_hub s)) s)
      | Err base =>
          let s := set_hub (leave c (se_hub s)) s in
          if (position <? after) && (base <=? after) then set_phase (Asking after after) s
          else refuse (EndRefused (SubHistoryUnavailable base)) s
      end
  | _ => s
  end.

(** *** The loop ([subscribe_events]) *)
Definition not_open (message : string) : RequestError :=
  with_session id (request_error "SESSION_NOT_OPEN" [Lit message]).
Definition lagged (l : StreamLagged) : RequestError :=
  with_session id (request_error "STREAM_LAGGED"
    [Lit "subscriber fell behind by "; FInt (sl_skipped l); Lit " envelopes; events were dropped"]).
Definition concerns (event : LifecycleEvent) : bool :=
  match WatchSessions.le_kind event with
  | EventResolved | EventCancelled | EventExpired => WatchSessions.le_session_id event == id
  | _ => false
  end.

(** [observe]: the session's state, under its mutex; from storage once it is
    evicted. A resolved session's high water is read in a second step. *)
Definition observed (ending : Ending) (cn : Conn) (s : Sse) : Sse :=
  set_phase (Streaming (MkConn (merge (cn_ending cn) ending) (cn_delivered cn) (cn_lifecycle_open cn))) s.
Definition observe_state (cn : Conn) (stored : option SessionState) (s : Sse) : Sse :=
  if negb (bool_decide (hub_pending (se_hub s) = None)) then s
  else match (if se_evicted s then stored else Some (se_state s)) with
       | None => observed (EFatal (with_session id
                   (request_error "SESSION_NOT_FOUND" [Lit "the session no longer exists"]))) cn s
       | Some Resolved => set_phase (Observing cn true) s
       | Some Cancelled => observed (EFatal (not_open
           "session was cancelled; it delivers no further envelopes and has no terminal envelope")) cn s
       | Some Expired => observed (EFatal (not_open
           "session expired (TTL); it delivers no further envelopes and has no terminal envelope")) cn s
       | Some (Open | Suspended) => observed EOpen cn s
       end.
Definition observe_high_water (cn : Conn) (s : Sse) : Sse :=
  observed (EResolved match subscribe_snapshot id u64_max (hub_log (se_hub s)) with
                      | Ok (_, high_water) => high_water
                      | Err _ => 0
                      end) cn s.

(** An item of the cursor: an event, unless the client holds it. *)
Definition deliver (ordinal : Z) (envelope : Envelope) (c : SubscriptionCursor) (cn : Conn) (s : Sse) : Sse :=
  if ordinal >? cn_delivered cn then
    match frame_json envelope with
    | Ok json =>
        set_phase (Streaming (MkConn (cn_ending cn) ordinal (cn_lifecycle_open cn)))
          (set_client (se_base s) (se_received s ++ [(ordinal, envelope)])
             (emit [DataEvent json (Some ordinal)] s))
    | Err err => finish c (EndUnframed err) [ErrorEvent err] s
    end
  else s.
(** The cursor after a read that gave [items]. *)
Definition after_read (p from : Z) (c : SubscriptionCursor) (w : Channels) (D : list (Z * Envelope))
    (s : Sse) : Sse :=
  set_hub (with_reader (Reading p from c D) (with_bus (set_chans w (hub_bus (se_hub s))) (se_hub s))) s.

(** A turn of the loop that drains the receiver before a fatal error. *)
Definition drain_turn (err : RequestError) (cn : Conn) (s : Sse) : Sse :=
  match hub_reader (se_hub s) with
  | Reading p from c D =>
      match try_next c (bus_chans (hub_bus (se_hub s))) with
      | Some (c, w, Ok (Some (ordinal, envelope))) =>
          deliver ordinal envelope c cn (after_read p from c w (D ++ [(ordinal, envelope)]) s)
      | Some (c, w, Ok None) => finish c (EndFatal err) [ErrorEvent err] (after_read p from c w D s)
      | Some (c, w, Err l) =>
          finish c (EndLagged l) [ErrorEvent (lagged l)] (after_read p from c w D s)
      | None => s
      end
  | _ => s
  end.
Definition item_turn (cn : Conn) (s : Sse) : Sse :=
  match hub_reader (se_hub s) with
  | Reading p from c D =>
      match poll c (bus_chans (hub_bus (se_hub s))) with
      | Some (c, w, Ok (NextItem ordinal envelope)) =>
          deliver ordinal envelope c cn (after_read p from c w (D ++ [(ordinal, envelope)]) s)
      | Some (c, w, Ok NextEmpty) => after_read p from c w D s
      | Some (c, w, Ok NextClosed) =>
          finish c EndClosed [ErrorEvent (with_session id
            (request_error "INTERNAL_ERROR" [Lit "the session stream closed"]))] (after_read p from c w D s)
      | Some (c, w, Err l) =>
          finish c (EndLagged l) [ErrorEvent (lagged l)] (after_read p from c w D s)
      | None => s
      end
  | _ => s
  end.
(** The stream ends of its own accord, or the client goes away. *)
Definition close (how : End) (s : Sse) : Sse :=
  match hub_reader (se_hub s) with
  | Subscribed _ c | Reading _ _ c _ => finish c how [] s
  | _ => set_phase (Offline (Some how)) s
  end.
Definition select_turn (ready : Ready) (cn : Conn) (s : Sse) : Sse :=
  match ready with
  | ReadyShutdown => close EndShutdown s
  | ReadyLifecycle received =>
      if negb (cn_lifecycle_open cn) then s
      else match received with
           | RecvOk event => if concerns event then set_phase (Observing cn false) s else s
           | RecvLagged _ => set_phase (Observing cn false) s
           | RecvClosed => set_phase (Streaming (MkConn (cn_ending cn) (cn_delivered cn) false)) s
           | RecvEmpty => s
           end
  | ReadyItem => item_turn cn s
  | ReadyIdle => emit [KeepaliveEvent] s
  end.
Definition turn (ready : Ready) (cn : Conn) (s : Sse) : Sse :=
  match cn_ending cn with
  | EFatal err => drain_turn err cn s
  | EResolved last_ordinal =>
      if cn_delivered cn >=? last_ordinal then close EndResolved s else select_turn ready cn s
  | EOpen => select_turn ready cn s
  end.

(** *** One step *)
Definition sse_act (a : SseAction) (s : Sse) : Sse :=
  match a, se_phase s with
  | Work a, _ => if may_work a s then set_hub (act id a (se_hub s)) s else s
  | Becomes st, _ => if may_become st s then set_session st (se_evicted s) s else s
  | EvictSession, _ => evict_session s
  | Connect last_event_id req, Offline _ =>
      if (0 <=? sr_after_sequence req) && (sr_after_sequence req <=? u64_max)
      then connect last_event_id req s else s
  | Reconnect, Offline _ => reconnect s
  | Authorize refusal, Asking after position => authorize after position refusal s
  | SubscribeBus, Authorized after position => subscribe_bus after position s
  | LoadSnapshot, Attached after position => load after position s
  | ObserveState stored, Observing cn false => observe_state cn stored s
  | ObserveHighWater, Observing cn true => observe_high_water cn s
  | Turn ready, Streaming cn => turn ready cn s
  (** the connection is lost, with what was still on its way *)
  | HangUp kept, Offline _ => s
  | HangUp kept, _ => close EndLost (set_client (se_base s) (take kept (se_received s)) s)
  | _, _ => s
  end.
Definition sse_run : list SseAction → Sse → Sse := flip (foldl (flip sse_act)).
(** A process that found the session in state [st], with the log of what earlier
    processes accepted. *)
Definition sse_start (logs : LogStore) (earlier : list Envelope) (st : SessionState)
    (w : Channels) : Sse :=
  MkSse (hub_resumed logs earlier w) st false (Offline None) 0 [] [].
End stream.
Arguments Sse {_}.

(** ** What a position reads *)

(** The decimal of an ordinal reads back as the ordinal. *)
Lemma parse_digits_uint d : ∀ acc,
  Z.pos (Pos.of_uint_acc d acc) ≤ u64_max →
  parse_digits (Z.pos acc) (NilEmpty.string_of_uint d) = Some (Z.pos (Pos.of_uint_acc d acc)).
Proof.
  assert (∀ d acc, Z.pos acc ≤ Z.pos (Pos.of_uint_acc d acc)) as Hmono.
  { clear. intros d. induction d; intros acc; cbn [Pos.of_uint_acc]; [lia|..];
      (etransitivity; [|apply IHd]); lia. }
  induction d as [|d IH|d IH|d IH|d IH|d IH|d IH|d IH|d IH|d IH|d IH]; intros acc Hle; [done|..];
    cbn [Pos.of_uint_acc NilEmpty.string_of_uint parse_digits] in *;
    match type of Hle with Z.pos (Pos.of_uint_acc _ ?a) ≤ _ =>
      pose proof (Hmono d a) as Hm; rewrite <- (IH a Hle);
      change (is_ascii_digit _) with true; cbv iota;
      match goal with |- context [if ?x <=? _ then _ else _] =>
        replace x with (Z.pos a) by (unfold byte_of; cbn; lia) end;
      rewrite (proj2 (Z.leb_le _ _)) by lia; done
    end.
Qed.
Lemma parse_digits_shown d :
  Z.of_N (Pos.of_uint d) ≤ u64_max →
  parse_digits 0 (NilEmpty.string_of_uint d) = Some (Z.of_N (Pos.of_uint d)).
Proof.
  induction d as [|d IH|d IH|d IH|d IH|d IH|d IH|d IH|d IH|d IH|d IH]; [done|by apply IH|..];
    cbn [Pos.of_uint Z.of_N]; apply parse_digits_uint.
Qed.
Lemma digits_all d : str_all is_ascii_digit (NilEmpty.string_of_uint d) = true.
Proof. by induction d. Qed.
Lemma after_sequence_shown n : 0 ≤ n ≤ u64_max → after_sequence [z_to_string n] 0 = Ok n.
Proof.
  intros Hn. destruct n as [|p|p]; [done| |lia]. unfold z_to_string, after_sequence. cbn [Z.to_int NilZero.string_of_int].
  pose proof (DecimalPos.Unsigned.to_uint_nonnil p) as Hp.
  rewrite unsigned_digits, digits_all by done. pose proof (parse_digits_shown (Pos.to_uint p)) as Hd.
  rewrite DecimalPos.Unsigned.of_to in Hd. specialize (Hd (proj2 Hn)).
  destruct (Pos.to_uint p) as [|d|d|d|d|d|d|d|d|d|d]; [done|..];
    cbn [NilEmpty.string_of_uint str_is_empty orb negb] in *; unfold parse_usize;
    cbv [Ascii.eqb Bool.eqb]; by rewrite Hd.
Qed.

(** ** The promise *)
Section promise.
Context `{HB : Broadcast Envelope, HL : !BroadcastLaws}.
Context (id : string) (frame_json : Envelope → result RequestError bytes).

Lemma len_snoc {A} (l : list A) x : len (l ++ [x]) = len l + 1.
Proof. unfold len. rewrite length_app. cbn. lia. Qed.
Lemma in_order_take base accepted items n : in_order base accepted items → in_order base accepted (take n items).
Proof. intros Ho. rewrite <- (take_drop n items) in Ho. by eapply in_order_prefix. Qed.
Lemma in_order_len base accepted items :
  0 ≤ base → in_order base accepted items → items ≠ [] → base + len items ≤ len accepted.
Proof.
  intros Hb Ho Hne. destruct items as [|x items] using rev_ind; [done|]. clear IHitems.
  destruct x as [o e]. destruct (Ho (length items) o e) as (_ & e0 & He0 & _);
    [by apply list_lookup_middle|]. apply lookup_lt_Some in He0. rewrite len_app, len_cons, len_nil.
  unfold len. lia.
Qed.

(** The base of the session's log. *)
Definition base_of (h : Hub) : Z := compaction_base (default [] (hub_log h !! id)).
Definition ended_otherwise (st : SessionState) : bool := (st == Cancelled) || (st == Expired).

(** The cursor of an open stream: the client holds what the cursor gave. *)
Definition stream_inv (s : Sse) (cn : Conn) : Prop :=
  cn_delivered cn = held s ∧
  (∃ p from c D, hub_reader (se_hub s) = Reading p from c D ∧ 0 ≤ from ≤ p ∧ from + len D ≤ held s) ∧
  match cn_ending cn with
  | EOpen => True
  | EResolved last => se_state s = Resolved ∧ hub_pending (se_hub s) = None ∧ last = len (hub_accepted (se_hub s))
  | EFatal _ => ended_otherwise (se_state s) = true
  end.
(** Nothing is accepted any more, and the client is past it all. *)
Definition settled (position : Z) (s : Sse) : Prop :=
  is_terminal (se_state s) = true ∧ len (hub_accepted (se_hub s)) ≤ position.
(** What a stream that ended by this branch has done. *)
Definition end_promise (how : End) (s : Sse) : Prop :=
  match how with
  | EndResolved => se_state s = Resolved ∧ len (hub_accepted (se_hub s)) ≤ held s
  | EndFatal _ => ended_otherwise (se_state s) = true ∧ len (hub_accepted (se_hub s)) ≤ held s
  | EndClosed => False
  | _ => True
  end.
Definition phase_inv (s : Sse) : Prop :=
  let h := se_hub s in
  match se_phase s with
  | Offline how =>
      hub_reader h = Away ∧ match how with Some how => end_promise how s | None => True end
  | Asking after position =>
      hub_reader h = Away ∧ after = held s ∧ 0 ≤ position ≤ after ∧
      (position ≤ len (hub_accepted h) ∨ settled position s)
  | Authorized after position =>
      hub_reader h = Away ∧ after = held s ∧ 0 ≤ position ≤ after ∧
      (position ≤ len (hub_published h) ∨ settled position s ∧ hub_pending h = None)
  | Attached after position =>
      after = held s ∧ 0 ≤ position ≤ after ∧
      ∃ p c, hub_reader h = Subscribed p c ∧
        (position ≤ p ∨ settled position s ∧ hub_pending h = None ∧ p = len (hub_published h))
  | Observing cn resolved =>
      stream_inv s cn ∧ (resolved = true → se_state s = Resolved ∧ hub_pending h = None)
  | Streaming cn => stream_inv s cn
  end.
Record core_inv (s : Sse) : Prop := {
  si_hub : hub_inv id (se_hub s);
  si_logged : logged id (se_hub s) = true;
  si_quiet : ended_otherwise (se_state s) = true → hub_pending (se_hub s) = None;
  si_base : base_of (se_hub s) = 0 ∨
    is_terminal (se_state s) = true ∧ base_of (se_hub s) = len (hub_accepted (se_hub s));
  si_client : 0 ≤ se_base s ≤ u64_max ∧ in_order (se_base s) (hub_accepted (se_hub s)) (se_received s);
}.
Definition sse_inv (s : Sse) : Prop := core_inv s ∧ phase_inv s.

(** *** The runtime works *)
Definition reader_action (a : Action) : bool :=
  match a with Subscribe | Snapshot _ | Poll | RemoveLog => true | _ => false end.
Lemma work_facts a (h : Hub) :
  reader_action a = false →
  hub_reader (act id a h) = hub_reader h ∧
  ∃ new more, hub_accepted (act id a h) = hub_accepted h ++ new ∧
    hub_published (act id a h) = hub_published h ++ more ∧
    (hub_pending h = None → (∀ e t start, a ≠ Accept e t start) → hub_pending (act id a h) = None ∧ more = []) ∧
    ((∀ e t start, a ≠ Accept e t start) → new = []).
Proof.
  intros Ha.
  assert (∀ h' : Hub, hub_reader h' = hub_reader h → hub_published h' = hub_published h →
    hub_pending h' = hub_pending h →
    hub_reader h' = hub_reader h ∧ ∃ new more, hub_accepted h' = hub_accepted h ++ new ∧
    hub_published h' = hub_published h ++ more ∧
    (hub_pending h = None → (∀ e t start, a ≠ Accept e t start) → hub_pending h' = None ∧ more = []) ∧
    ((∀ e t start, a ≠ Accept e t start) → new = [])) as Hsame.
  { intros h' Hr Hpub Hpend. split; [done|]. exists [], []. unfold hub_accepted. rewrite Hpub, Hpend, !app_nil_r. done. }
  destruct a; cbn [act reader_action] in *; try done; try (by apply Hsame).
  - destruct (may_accept id e h) eqn:E; [|by apply Hsame]. split; [done|]. exists [e], [].
    unfold may_accept in E.
    apply andb_prop in E as [[[_ Hp%bool_decide_eq_true]%andb_prop _]%andb_prop _].
    unfold hub_accepted. cbn. rewrite Hp, !app_nil_r. split_and!; [done..|intros _ Hn|intros Hn]; by destruct (Hn _ _ _ eq_refl).
  - destruct (hub_pending h) as [e|] eqn:E; [|apply Hsame; [done|done|by rewrite E]].
    split; [done|]. exists [], [e]. unfold hub_accepted. cbn. rewrite E, !app_nil_r. by split_and!.
  - destruct (logged id h); by apply Hsame.
  - destruct (logged id h); by apply Hsame.
  - destruct (logged id h); by apply Hsame.
  - case_bool_decide; by apply Hsame.
  - destruct (_ || _); by apply Hsame.
  - case_bool_decide; by apply Hsame.
Qed.

(** The log stays where it is. *)
Lemma work_logged a (h : Hub) :
  reader_action a = false → logged id h = true → logged id (act id a h) = true.
Proof.
  intros Ha Hl. assert (∀ e, logged id (with_log (log_append id e) h) = true) as Happ.
  { intros e. unfold logged, log_append. cbn. rewrite lookup_insert_eq. by apply bool_decide_eq_true. }
  destruct a; cbn [act reader_action] in *; try done; rewrite ?Hl; try apply Happ.
  - destruct (may_accept id e h); [apply Happ|done].
  - by destruct (hub_pending h).
  - unfold logged, replace_session_log. cbn. rewrite lookup_insert_eq. by apply bool_decide_eq_true.
  - by case_bool_decide.
  - by destruct (_ || _).
  - by case_bool_decide.
Qed.

Lemma ended_terminal st : ended_otherwise st = true → is_terminal st = true.
Proof. by destruct st. Qed.

(** What the runtime does leaves the stream where it stands. *)
Lemma phase_evolves s s' new more :
  se_phase s' = se_phase s → held s' = held s →
  hub_reader (se_hub s') = hub_reader (se_hub s) →
  hub_accepted (se_hub s') = hub_accepted (se_hub s) ++ new →
  hub_published (se_hub s') = hub_published (se_hub s) ++ more →
  (is_terminal (se_state s) = true → se_state s' = se_state s ∧ new = [] ∧
     (hub_pending (se_hub s) = None → hub_pending (se_hub s') = None ∧ more = [])) →
  phase_inv s → phase_inv s'.
Proof.
  intros Hph Hheld Hr Hacc Hpub Hterm. pose proof (len_nonneg new). pose proof (len_nonneg more).
  assert (∀ position, settled position s → settled position s') as Hset.
  { intros position [Ht Hl]. destruct (Hterm Ht) as (Hst & Hn & _). subst.
    split; [by rewrite Hst|]. by rewrite Hacc, app_nil_r. }
  assert (∀ position, settled position s → hub_pending (se_hub s) = None →
    hub_pending (se_hub s') = None ∧ hub_published (se_hub s') = hub_published (se_hub s)) as Hfree.
  { intros position [Ht _] Hp. destruct (Hterm Ht) as (_ & _ & Hm). destruct (Hm Hp) as [Hp' ->].
    by rewrite Hpub, app_nil_r. }
  assert (∀ cn, stream_inv s cn → stream_inv s' cn) as Hstream.
  { intros cn (Hd & Hread & He). unfold stream_inv. rewrite Hheld, Hr. split_and!; [done|done|].
    destruct (cn_ending cn) as [|last|err]; [done| |].
    - destruct He as (Hst & Hp & ->). destruct Hterm as (Hst' & -> & Hm); [by rewrite Hst|].
      destruct (Hm Hp) as [Hp' _]. rewrite Hst', Hacc, app_nil_r. done.
    - destruct (Hterm (ended_terminal _ He)) as (-> & _). done. }
  unfold phase_inv. rewrite Hph, Hr, Hheld.
  destruct (se_phase s) as [how|after position|after position|after position|cn resolved|cn]; cbn.
  - intros [Ha Hhow]. split; [done|].
    destruct how as [[]|]; unfold end_promise; rewrite ?Hheld; try done; destruct Hhow as [Hst Hl];
      (destruct Hterm as (Hst' & -> & _); [|by rewrite Hst', Hacc, app_nil_r]);
      [by rewrite Hst|by apply ended_terminal].
  - intros (Ha & -> & Hpos & Hor). split_and!; [done..|lia|lia|].
    destruct Hor as [Hle|Hs]; [left; rewrite Hacc, len_app; lia|right; by apply Hset].
  - intros (Ha & -> & Hpos & Hor). split_and!; [done..|lia|lia|].
    destruct Hor as [Hle|[Hs Hp]]; [left; rewrite Hpub, len_app; lia|right].
    split; [by apply Hset|by eapply Hfree].
  - intros (-> & Hpos & p & c & Hc & Hor). split_and!; [done|lia|lia|]. exists p, c. split; [done|].
    destruct Hor as [Hle|(Hs & Hp & ->)]; [by left|right]. destruct (Hfree _ Hs Hp) as [Hp' ->].
    split_and!; [by apply Hset|done|done].
  - intros [Hs Hres]. split; [by apply Hstream|]. intros [Hst Hp]%Hres.
    destruct Hterm as (Hst' & _ & Hm); [by rewrite Hst|]. destruct (Hm Hp) as [Hp' _].
    by rewrite Hst'.
  - apply Hstream.
Qed.

(** Only compaction moves the base of the log, to all that was accepted. *)
Lemma compaction_base_none l entry :
  le_compacted_incoming_ordinals entry = 0 → compaction_base (l ++ [entry]) = compaction_base l.
Proof.
  intros H0. unfold compaction_base. rewrite List.filter_app, fmap_app, foldr_app. cbn.
  destruct (is_kind Checkpoint entry); cbn; by rewrite ?H0.
Qed.
Lemma work_base a (h : Hub) :
  hub_inv id h → logged id h = true → reader_action a = false →
  match a with
  | Compact _ _ _ => base_of (act id a h) = len (hub_accepted h)
  | _ => base_of (act id a h) = base_of h
  end.
Proof.
  intros Hinv Hlog Ha. destruct (hi_log _ _ Hinv Hlog) as (l & Hl & Hhw & _).
  assert (∀ entry, le_compacted_incoming_ordinals entry = 0 →
    base_of (with_log (log_append id entry) h) = base_of h) as Happ.
  { intros entry H0. unfold base_of, log_append. cbn. rewrite lookup_insert_eq, Hl. cbn.
    by apply compaction_base_none. }
  destruct a as [e t start| |mt payload mode now|payload mode now|payload mode now|e|sid|r|r| |sid| |after|];
    cbn [act]; try done; rewrite ?Hlog; try (by apply Happ).
  - destruct (may_accept id e h); [|done].
    transitivity (base_of (with_log (log_append id (accepted_entry e t start)) h)); [done|].
    apply Happ. by destruct start as [[[??]?]|].
  - by destruct (hub_pending h).
  - unfold base_of, replace_session_log. cbn. rewrite Hl, lookup_insert_eq.
    change (default [] (Some l)) with l. pose proof (len_nonneg (hub_accepted h)) as Hn. rewrite <- Hhw in *.
    generalize dependent (high_water l). intros n _ Hn. unfold compaction_base. simpl. lia.
  - by case_bool_decide.
  - by destruct (_ || _).
  - by case_bool_decide.
Qed.

Lemma work_keeps a s : id ≠ "" → may_work a s = true → sse_inv s → sse_inv (set_hub (act id a (se_hub s)) s).
Proof.
  intros Hne Hmay [[Hhub Hlog Hquiet Hbase [Hb Hrec]] Hph].
  assert (reader_action a = false) as Hra by by destruct a.
  assert (is_terminal (se_state s) = true → ∀ e t start, a ≠ Accept e t start) as Hacc.
  { intros Ht e t start ->. apply bool_decide_eq_true in Hmay. by rewrite Hmay in Ht. }
  destruct (work_facts a (se_hub s) Hra) as (Hr & new & more & Ha & Hpub & Hpend & Hnew).
  split; [split; cbn [set_hub se_hub se_state se_base se_received]|].
  - by apply act_inv.
  - by apply work_logged.
  - intros He. apply Hpend; [by apply Hquiet|]. by apply Hacc, ended_terminal.
  - assert (is_terminal (se_state s) = true →
      len (hub_accepted (act id a (se_hub s))) = len (hub_accepted (se_hub s))) as Hlen.
    { intros Ht. by rewrite Ha, Hnew, app_nil_r by by apply Hacc. }
    pose proof (work_base a _ Hhub Hlog Hra) as Hw. destruct a; cbn in Hmay; try done;
      try (rewrite Hw; destruct Hbase as [Hz|[Ht Hz]]; [by left|right; by rewrite Hlen]).
    right. by rewrite Hlen.
  - split; [done|]. rewrite Ha. by apply in_order_more.
  - apply (phase_evolves s _ new more); try done. cbn. intros Ht.
    split_and!; [done|by apply Hnew, Hacc|]. intros Hp. by apply Hpend, Hacc.
Qed.

Lemma becomes_keeps st s : may_become st s = true → sse_inv s → sse_inv (set_session st (se_evicted s) s).
Proof.
  intros Hmay [[Hhub Hlogged Hquiet Hbase Hcl] Hph].
  assert (is_terminal (se_state s) = false) as Hlive.
  { unfold may_become in Hmay. destruct (se_state s), st, (hub_pending (se_hub s)); done. }
  split; [split; cbn [set_session se_hub se_state se_base se_received]; try done|].
  - unfold may_become in Hmay. destruct st; try done; intros _;
      apply andb_prop in Hmay as [_ Hp]; by apply bool_decide_eq_true in Hp.
  - left. destruct Hbase as [?|[Ht _]]; [done|]. by rewrite Hlive in Ht.
  - apply (phase_evolves s _ [] []); rewrite ?app_nil_r; try done. intros Ht. by rewrite Hlive in Ht.
Qed.

(** *** The subscriber's steps *)

Lemma core_keeps s s' :
  core_inv s → hub_inv id (se_hub s') →
  se_state s' = se_state s → hub_accepted (se_hub s') = hub_accepted (se_hub s) →
  hub_pending (se_hub s') = hub_pending (se_hub s) → hub_log (se_hub s') = hub_log (se_hub s) →
  se_base s' = se_base s → (∃ n, se_received s' = take n (se_received s)) → core_inv s'.
Proof.
  intros [Hhub Hlogged Hquiet Hbase [Hb' Ho]] Hhub' Hst Hacc Hpend Hlog Hb [n Hrec].
  split; rewrite ?Hst, ?Hacc, ?Hpend, ?Hb; try done.
  - unfold logged in *. by rewrite Hlog.
  - unfold base_of in *. by rewrite Hlog.
  - split; [done|]. rewrite Hrec. by apply in_order_take.
Qed.
Lemma take_same {A} (l : list A) : ∃ n, l = take n l.
Proof. exists (length l). by rewrite firstn_all. Qed.
Hint Resolve take_same : core.

Lemma leave_inv c h : hub_inv id h → hub_inv id (leave c h).
Proof.
  intros [Hwf Hcap Hids Hsess Hlog _]. unfold leave.
  destruct (sc_receiver c) as [r|]; [|by split].
  destruct (bus_leave_spec r _ Hwf) as (Hwf' & Hmap & _). by split.
Qed.
Lemma leave_facts c (h : Hub) :
  hub_accepted (leave c h) = hub_accepted h ∧ hub_pending (leave c h) = hub_pending h ∧
  hub_log (leave c h) = hub_log h ∧ hub_reader (leave c h) = Away.
Proof. unfold leave. by destruct (sc_receiver c). Qed.
Lemma core_leave c s : core_inv s → core_inv (set_hub (leave c (se_hub s)) s).
Proof.
  intros Hc. destruct (leave_facts c (se_hub s)) as (Ha & Hp & Hl & _).
  apply (core_keeps s); cbn; auto. apply leave_inv, Hc.
Qed.

Lemma finish_keeps c how evs s : core_inv s → end_promise how s → sse_inv (finish c how evs s).
Proof.
  intros Hc Hp. split.
  - apply (core_keeps (set_hub (leave c (se_hub s)) s)); cbn; auto; [by apply core_leave|].
    apply leave_inv, Hc.
  - destruct (leave_facts c (se_hub s)) as (Ha & _ & _ & Hr). split; [done|].
    destruct how; try done; unfold end_promise in *;
      change (se_hub (finish c _ evs s)) with (leave c (se_hub s)); by rewrite Ha.
Qed.
Lemma refuse_keeps how s :
  end_promise how s → sse_inv s → hub_reader (se_hub s) = Away → sse_inv (refuse how s).
Proof. intros Hp [Hc _] Ha. split; [|done]. apply (core_keeps s); cbn; auto. apply Hc. Qed.

(** The high water of the log is the number of accepted envelopes. *)
Lemma high_water_read s :
  core_inv s → len (hub_accepted (se_hub s)) ≤ u64_max →
  ∃ replay, subscribe_snapshot id u64_max (hub_log (se_hub s)) = Ok (replay, len (hub_accepted (se_hub s))).
Proof.
  intros [Hhub Hlog _ _ _] Hle. destruct (hi_log _ _ Hhub Hlog) as (l & Hl & Hhw & _).
  unfold subscribe_snapshot, get_incoming_after_with_high_water. rewrite Hl.
  assert (compaction_base l ≤ u64_max) as Hb.
  { unfold high_water in Hhw. pose proof (len_nonneg (incoming l)). lia. }
  rewrite (proj2 (Z.ltb_ge _ _)), number_after_drop by done. unfold high_water in Hhw. rewrite Hhw. eauto.
Qed.
Lemma ask_keeps s :
  core_inv s → hub_reader (se_hub s) = Away → len (hub_accepted (se_hub s)) ≤ u64_max →
  sse_inv (ask id (held s) s).
Proof.
  intros Hc Ha Hle.
  split; [apply (core_keeps s); cbn; auto; apply Hc|]. unfold phase_inv. cbn.
  destruct (high_water_read s Hc Hle) as [replay ->]. pose proof (len_nonneg (se_received s)).
  pose proof (len_nonneg (hub_accepted (se_hub s))). destruct Hc as [_ _ _ _ [Hb _]]. unfold held in *. cbn.
  split_and!; [done|done|lia|lia|]. left. lia.
Qed.
Lemma held_bound s : core_inv s → len (hub_accepted (se_hub s)) ≤ u64_max → 0 ≤ held s ≤ u64_max.
Proof.
  intros [_ _ _ _ [Hb Ho]] Hle. unfold held.
  pose proof (in_order_len _ _ _ (proj1 Hb) Ho) as Hl. pose proof (len_nonneg (se_received s)).
  destruct (se_received s) as [|x l]; [unfold len; cbn; lia|]. specialize (Hl ltac:(done)). lia.
Qed.
Lemma after_sequence_bound last_event_id body_after after :
  0 ≤ body_after ≤ u64_max → after_sequence last_event_id body_after = Ok after → 0 ≤ after ≤ u64_max.
Proof.
  assert (∀ s acc n, 0 ≤ acc ≤ u64_max → parse_digits acc s = Some n → 0 ≤ n ≤ u64_max) as Hd.
  { clear. induction s as [|c s IH]; intros acc n Hacc; cbn; [by intros [= <-]|].
    destruct (is_ascii_digit c) eqn:Ec; [|done]. destruct (_ <=? u64_max) eqn:El; [|done].
    apply IH. apply Z.leb_le in El. split; [|done]. unfold is_ascii_digit in Ec.
    apply andb_prop in Ec as [Ec _]. apply Z.leb_le in Ec. lia. }
  intros Hb. destruct last_event_id as [|value [|]]; cbn; [by intros [= <-]| |done].
  destruct (_ || _); [done|]. destruct (parse_usize value) as [n|] eqn:E; [|done].
  destruct (_ && _); [done|]. intros [= <-]. unfold parse_usize in E. destruct value as [|c rest]; [done|].
  destruct (Ascii.eqb c _); [destruct (str_is_empty rest); [done|]|];
    (apply Hd in E; [done|unfold u64_max; lia]).
Qed.

(** *** Opening a stream *)
Lemma connect_keeps last_event_id req s how :
  0 ≤ sr_after_sequence req ≤ u64_max →
  sse_inv s → se_phase s = Offline how → len (hub_accepted (se_hub s)) ≤ u64_max →
  sse_inv (connect id last_event_id req s).
Proof.
  intros Hbody Hs Eph Hle. unfold connect. assert (hub_reader (se_hub s) = Away) as Ha.
  { destruct Hs as [_ Hph]. unfold phase_inv in Hph. rewrite Eph in Hph. by destruct Hph. }
  case_bool_decide; [by apply refuse_keeps|].
  destruct (str_is_empty _); [by apply refuse_keeps|]. case_bool_decide; cbn [negb]; [|done].
  destruct (after_sequence _ _) as [after|message] eqn:E; [|by apply refuse_keeps].
  apply after_sequence_bound in E; [|done].
  assert (held (set_client after [] s) = after) as Eh by (unfold held; cbn; unfold len; cbn; lia).
  rewrite <- Eh at 1. apply ask_keeps; [|done|done]. destruct Hs as [[Hhub Hlogged Hquiet Hbase _] _].
  by split.
Qed.
Lemma reconnect_keeps s how :
  sse_inv s → se_phase s = Offline how → len (hub_accepted (se_hub s)) ≤ u64_max →
  sse_inv (reconnect id s).
Proof.
  intros [Hc Hph] Eph Hle. unfold phase_inv in Hph. rewrite Eph in Hph. destruct Hph as [Ha _].
  unfold reconnect. rewrite after_sequence_shown by by apply held_bound. by apply ask_keeps.
Qed.
Lemma authorize_keeps after position refusal s :
  sse_inv s → se_evicted s = false → se_phase s = Asking after position →
  sse_inv (authorize id after position refusal s).
Proof.
  intros [Hc Hph] Hev Eph. unfold phase_inv in Hph. rewrite Eph in Hph.
  destruct Hph as (Ha & Hafter & Hpos & Hor). unfold authorize. rewrite Hev.
  assert (sse_inv s) as Hs by (split; [done|]; unfold phase_inv; by rewrite Eph).
  case_bool_decide as Hp; cbn [negb]; [|done].
  destruct refusal as [e|]; [by apply refuse_keeps|].
  split; [apply (core_keeps s); cbn; auto; apply Hc|]. unfold phase_inv. cbn.
  split_and!; [done..|lia|lia|]. destruct Hor as [Hle|Hset]; [left|by right].
  unfold hub_accepted in Hle. rewrite Hp in Hle. cbn in Hle. by rewrite app_nil_r in Hle.
Qed.
Lemma subscribe_keeps after position s :
  id ≠ "" → sse_inv s → se_phase s = Authorized after position →
  sse_inv (subscribe_bus id after position s).
Proof.
  intros Hne [Hc Hph] Eph. unfold phase_inv in Hph. rewrite Eph in Hph.
  destruct Hph as (Ha & Hafter & Hpos & Hor). unfold subscribe_bus.
  pose proof (act_inv id Subscribe (se_hub s) Hne (si_hub _ Hc)) as Hinv.
  cbn [act] in *. rewrite Ha in *. destruct (bus_subscribe id (hub_bus (se_hub s))) as [b r] eqn:Eb.
  split; [apply (core_keeps s); cbn; auto|]. unfold phase_inv. cbn.
  split_and!; [done|lia|lia|]. eexists _, _. split; [done|].
  destruct Hor as [Hle|[Hset Hp]]; [by left|by right].
Qed.

(** A position past everything accepted reads as the last one. *)
Lemma snapshot_beyond position h c :
  hub_inv id h → logged id h = true → len (hub_accepted h) ≤ position →
  load_snapshot id position (hub_log h) c = load_snapshot id (len (hub_accepted h)) (hub_log h) c.
Proof.
  intros Hinv Hlog Hle. destruct (hi_log _ _ Hinv Hlog) as (l & Hl & Hhw & _). unfold high_water in Hhw.
  pose proof (len_nonneg (incoming l)). unfold load_snapshot, subscribe_snapshot, get_incoming_after_with_high_water.
  rewrite Hl, !(proj2 (Z.ltb_ge _ _)), !number_after_drop, !drop_ge by (unfold len in *; lia). done.
Qed.
Lemma load_err position h c base :
  hub_inv id h → logged id h = true → load_snapshot id position (hub_log h) c = Err base →
  base = base_of h ∧ position < base.
Proof.
  intros Hinv Hlog. destruct (hi_log _ _ Hinv Hlog) as (l & Hl & _). unfold base_of.
  unfold load_snapshot, subscribe_snapshot, get_incoming_after_with_high_water. rewrite Hl. cbn [default].
  destruct (position <? compaction_base l) eqn:E; [|by destruct (number_after _ _ _)].
  intros [= <-]. by apply Z.ltb_lt in E.
Qed.
Lemma snapshot_keeps after position s :
  sse_inv s → se_phase s = Attached after position → sse_inv (load id after position s).
Proof.
  intros [Hc Hph] Eph. unfold phase_inv in Hph. rewrite Eph in Hph.
  destruct Hph as (Hafter & Hpos & p & c & Hr & Hor). unfold load. rewrite Hr.
  destruct (load_snapshot id position (hub_log (se_hub s)) c) as [c'|base] eqn:El.
  - assert (0 ≤ p ∧ hub_inv id (with_reader (Reading p (Z.min position p) c' []) (se_hub s))) as [Hp0 Hinv].
    { pose proof (hi_reader _ _ (si_hub _ Hc)) as Hread. unfold reader_inv in Hread. rewrite Hr in Hread.
      split; [lia|]. destruct Hor as [Hle|([Ht Hacc] & Hp & ->)].
      - rewrite Z.min_l by done. eapply snapshot_step; [apply Hc|apply Hc|done|done].
      - rewrite (snapshot_beyond _ _ _ (si_hub _ Hc) (si_logged _ Hc) Hacc) in El.
        assert (hub_accepted (se_hub s) = hub_published (se_hub s)) as E.
        { unfold hub_accepted. rewrite Hp. cbn. by rewrite app_nil_r. }
        rewrite E in *. rewrite Z.min_r by done. eapply snapshot_step; [apply Hc|apply Hc|done|done]. }
    split; [apply (core_keeps s); cbn; auto|]. unfold phase_inv. cbn. split; [|done].
    split_and!; [done| |done]. eexists _, _, _, _. split; [done|]. subst. unfold held in *.
    unfold len at 1. cbn. lia.
  - destruct (load_err _ _ _ _ (si_hub _ Hc) (si_logged _ Hc) El) as [-> Hlt].
    destruct (leave_facts c (se_hub s)) as (Ha & Hp & Hl & Hrd). pose proof (core_leave c s Hc) as Hc'.
    destruct ((position <? after) && (_ <=? after)) eqn:Eb.
    + apply andb_prop in Eb as [_ Hle%Z.leb_le]. split; [apply (core_keeps _ _ Hc'); cbn; auto; apply Hc'|].
      unfold phase_inv. cbn. split_and!; [done|done|lia|lia|]. right.
      destruct (si_base _ Hc) as [Hz|[Ht Hz]]; [lia|]. split; [done|].
      change (len (hub_accepted (leave c (se_hub s))) ≤ after). by rewrite Ha, <- Hz.
    + split; [apply (core_keeps _ _ Hc'); cbn; auto; apply Hc'|]. by unfold phase_inv.
Qed.

(** *** Observing *)
Lemma observed_keeps ending cn resolved s :
  sse_inv s → se_phase s = Observing cn resolved →
  match ending with
  | EOpen => True
  | EResolved last => se_state s = Resolved ∧ hub_pending (se_hub s) = None ∧ last = len (hub_accepted (se_hub s))
  | EFatal _ => ended_otherwise (se_state s) = true
  end → sse_inv (observed ending cn s).
Proof.
  intros [Hc Hph] Eph He. unfold phase_inv in Hph. rewrite Eph in Hph. destruct Hph as [(Hd & Hr & He0) _].
  split; [apply (core_keeps s); cbn; auto; apply Hc|]. unfold phase_inv. cbn.
  split_and!; [done|done|]. cbn. by destruct (cn_ending cn).
Qed.
Lemma observe_state_keeps cn stored s :
  sse_inv s → se_evicted s = false → se_phase s = Observing cn false → sse_inv (observe_state id cn stored s).
Proof.
  intros Hs Hev Eph. unfold observe_state. case_bool_decide as Hp; cbn [negb]; [|done]. rewrite Hev.
  destruct (se_state s) eqn:Est; try (eapply observed_keeps; [done|done|by rewrite ?Est]).
  destruct Hs as [Hc Hph]. unfold phase_inv in Hph. rewrite Eph in Hph. destruct Hph as [Hst _].
  split; [apply (core_keeps s); cbn; auto; apply Hc|]. by split.
Qed.
Lemma observe_high_water_keeps cn s :
  sse_inv s → len (hub_accepted (se_hub s)) ≤ u64_max → se_phase s = Observing cn true →
  sse_inv (observe_high_water id cn s).
Proof.
  intros Hs Hle Eph. pose proof Hs as [Hc Hph]. unfold phase_inv in Hph. rewrite Eph in Hph.
  destruct Hph as [_ Hres]. destruct (Hres eq_refl) as [Hst Hp]. unfold observe_high_water.
  destruct (high_water_read s Hc Hle) as [replay ->]. by eapply observed_keeps.
Qed.

(** *** Reading *)
Lemma read_ok s p from c D :
  core_inv s → hub_reader (se_hub s) = Reading p from c D → 0 ≤ from ≤ p →
  ∃ c' w out, poll c (bus_chans (hub_bus (se_hub s))) = Some (c', w, out) ∧
  match out with
  | Ok (NextItem o e) =>
      o = from + len D + 1 ∧
      (∃ e0, hub_accepted (se_hub s) !! Z.to_nat (from + len D) = Some e0 ∧ delivers e0 e) ∧
      core_inv (after_read p from c' w (D ++ [(o, e)]) s)
  | Ok NextEmpty => len (hub_published (se_hub s)) ≤ from + len D ∧ core_inv (after_read p from c' w D s)
  | Ok NextClosed => False
  | Err l =>
      sse_inv (finish c' (EndLagged l) [ErrorEvent (lagged id l)] (after_read p from c' w D s)) ∧
      sl_skipped l ≤ len (hub_published (se_hub s)) - p - DEFAULT_SESSION_STREAM_CAPACITY ∧ 0 < sl_skipped l
  end.
Proof.
  intros Hc Hr Hfrom. pose proof (si_hub _ Hc) as Hinv. pose proof Hinv as [Hwf Hcap Hids _ _ Hread].
  unfold reader_inv in Hread. rewrite Hr in Hread. destruct (proj2 Hread Hfrom) as (pos & hw & Hp & Hci).
  destruct (poll_spec _ _ _ _ _ _ _ _ _ _ Hids (proj1 Hfrom) Hwf Hci Hp) as (c' & w & out & E & _ & Hout).
  pose proof (poll_step id _ _ _ _ _ _ _ _ Hinv Hr E) as Hstep. exists c', w, out. split; [done|].
  destruct out as [[o e| |]|l]; [| |done|].
  - destruct Hout as (pos' & hw' & _ & Hci').
    destruct (ci_order _ _ _ _ _ _ _ _ _ Hci' (length D) o e) as (-> & e0 & He0 & Hd).
    { rewrite <- app_assoc. by apply list_lookup_middle. }
    split_and!; [unfold len; lia| |by apply (core_keeps s); cbn; auto].
    exists e0. split; [|done]. rewrite <- He0. f_equal. unfold len. lia.
  - destruct Hout as [Hlen _]. split; [done|]. by apply (core_keeps s); cbn; auto.
  - rewrite Hcap in Hout. split; [|lia].
    set (s1 := set_hub (with_reader (Lost (sl_skipped l)) (with_bus (set_chans w (hub_bus (se_hub s))) (se_hub s))) s).
    assert (core_inv s1) as Hc1 by (by apply (core_keeps s); cbn; auto).
    pose proof (finish_keeps c' (EndLagged l) [ErrorEvent (lagged id l)] s1 Hc1 I) as Hf.
    unfold finish, leave in *. by destruct (sc_receiver c').
Qed.

(** The next item of the cursor, where the client stands. *)
Lemma deliver_keeps p from c D w e s cn :
  let o := from + len D + 1 in
  core_inv (after_read p from c w (D ++ [(o, e)]) s) → 0 ≤ from ≤ p → from + len D ≤ held s →
  (∃ e0, hub_accepted (se_hub s) !! Z.to_nat (from + len D) = Some e0 ∧ delivers e0 e) →
  stream_inv s cn → se_phase s = Streaming cn →
  sse_inv (deliver frame_json o e c cn (after_read p from c w (D ++ [(o, e)]) s)).
Proof.
  intros o Hc Hfrom Hle (e0 & He0 & Hdel) (Hd & _ & He) Eph. unfold deliver. rewrite Hd.
  destruct (Z.gtb_spec o (held s)) as [Hgt|Hno].
  - destruct (frame_json e) as [json|err]; [|by apply finish_keeps].
    assert (held s = from + len D) as Eh by lia. destruct Hc as [Hhub Hlogged Hquiet Hbase [Hb Ho]]. split.
    + split; cbn; try done. split; [done|]. eapply in_order_snoc; [done|unfold held in *; lia| |done].
      cbn in Hb. rewrite <- He0. f_equal. unfold held, len in *. lia.
    + unfold phase_inv. cbn. assert (o = held s + 1) as -> by lia. unfold stream_inv, held in *. cbn.
      rewrite !len_snoc. split_and!; [lia| |done]. eexists _, _, _, _. split; [done|]. rewrite len_snoc. lia.
  - split; [done|]. unfold phase_inv. cbn. rewrite Eph. split_and!; [done| |done].
    eexists _, _, _, _. split; [done|]. split; [done|]. rewrite len_snoc. unfold held in *. cbn. lia.
Qed.

(** *** A turn of the loop *)
Lemma close_keeps how s :
  core_inv s → end_promise how s →
  match hub_reader (se_hub s) with Refused _ | Lost _ | Unlogged _ _ => False | _ => True end →
  sse_inv (close how s).
Proof.
  intros Hc Hp Hr. unfold close. destruct (hub_reader (se_hub s)) eqn:Er; try done; try by apply finish_keeps.
  split; [apply (core_keeps s); cbn; auto; apply Hc|]. by split.
Qed.
Lemma drain_turn_keeps err cn s :
  sse_inv s → se_phase s = Streaming cn → cn_ending cn = EFatal err →
  sse_inv (drain_turn id frame_json err cn s).
Proof.
  intros [Hc Hph] Eph Hend. unfold phase_inv in Hph. rewrite Eph in Hph. pose proof Hph as (Hd & Hread & He).
  destruct Hread as (p & from & c & D & Hr & Hfrom & Hle). rewrite Hend in He.
  unfold drain_turn. rewrite Hr. destruct (read_ok s p from c D Hc Hr Hfrom) as (c' & w & out & E & Hout).
  unfold try_next. rewrite E. destruct out as [[o e| |]|l]; cbn [next_option].
  - destruct Hout as (-> & He0 & Hc'). by apply deliver_keeps.
  - destruct Hout as [Hlen Hc']. apply finish_keeps; [done|]. split; [done|].
    pose proof (si_quiet _ Hc He) as Hp. change (len (hub_accepted (se_hub s)) ≤ held s).
    unfold hub_accepted. rewrite Hp. cbn. rewrite app_nil_r. lia.
  - done.
  - apply Hout.
Qed.
Lemma item_turn_keeps cn s : sse_inv s → se_phase s = Streaming cn → sse_inv (item_turn id frame_json cn s).
Proof.
  intros [Hc Hph] Eph. unfold phase_inv in Hph. rewrite Eph in Hph. pose proof Hph as (Hd & Hread & He).
  destruct Hread as (p & from & c & D & Hr & Hfrom & Hle).
  unfold item_turn. rewrite Hr. destruct (read_ok s p from c D Hc Hr Hfrom) as (c' & w & out & E & Hout).
  rewrite E. destruct out as [[o e| |]|l].
  - destruct Hout as (-> & He0 & Hc'). by apply deliver_keeps.
  - destruct Hout as [Hlen Hc']. split; [done|]. unfold phase_inv. cbn. rewrite Eph.
    split_and!; [done| |done]. eexists _, _, _, _. by split.
  - done.
  - apply Hout.
Qed.
Lemma turn_keeps ready cn s :
  sse_inv s → se_phase s = Streaming cn → sse_inv (turn id frame_json ready cn s).
Proof.
  intros Hs Eph. pose proof Hs as [Hc Hph]. unfold phase_inv in Hph. rewrite Eph in Hph.
  pose proof Hph as (Hd & (p & from & c & D & Hr & Hfrom & Hle) & He).
  assert (sse_inv (select_turn id frame_json ready cn s)) as Hsel.
  { assert (∀ cn' : Conn, cn_ending cn' = cn_ending cn → cn_delivered cn' = cn_delivered cn → stream_inv s cn') as Hcn.
    { intros cn' E1 E2. unfold stream_inv. rewrite E1, E2. done. }
    destruct ready as [|received| |]; cbn [select_turn].
    - apply close_keeps; [done|done|by rewrite Hr].
    - destruct (cn_lifecycle_open cn); cbn [negb]; [|done].
      destruct received as [event| | |n]; [destruct (concerns id event); [|done]|done|..];
        (split; [apply (core_keeps s); cbn; auto; apply Hc|]); unfold phase_inv; cbn; try by split.
      by apply Hcn.
    - by apply item_turn_keeps.
    - split; [apply (core_keeps s); cbn; auto; apply Hc|]. unfold phase_inv. cbn. by rewrite Eph. }
  unfold turn. destruct (cn_ending cn) as [|last|err] eqn:Ee; [done| |by apply drain_turn_keeps].
  destruct (Z.geb_spec (cn_delivered cn) last) as [Hge|_]; [|done].
  destruct He as (Hst & Hp & ->). apply close_keeps; [done| |by rewrite Hr].
  split; [done|]. by rewrite <- Hd.
Qed.

(** *** Every step *)
Definition sse_promise (s : Sse) : Prop :=
  se_evicted s = false → len (hub_accepted (se_hub s)) ≤ u64_max → sse_inv s.
Lemma sse_act_mono a s :
  (se_evicted (sse_act id frame_json a s) = false → se_evicted s = false) ∧
  len (hub_accepted (se_hub s)) ≤ len (hub_accepted (se_hub (sse_act id frame_json a s))).
Proof.
  assert (∀ c h, hub_accepted (leave c h) = hub_accepted h) as Hleave by (intros; apply leave_facts).
  destruct a as [a|st| |l req| |refusal| | |stored| |ready|kept]; cbn [sse_act].
  - destruct (may_work a s) eqn:E; [|done]. split; [done|]. cbn [set_hub se_hub].
    destruct (work_facts a (se_hub s)) as (_ & new & more & -> & _); [by destruct a|].
    rewrite len_app. pose proof (len_nonneg new). lia.
  - by destruct (may_become st s).
  - unfold evict_session. destruct (_ && _); [|done]. split; [done|].
    cbn [set_session set_hub se_hub act]. case_bool_decide; done.
  - destruct (se_phase s); try done. destruct (_ && _); [|done].
    unfold connect. repeat case_match; (split; [cbn; congruence|done]).
  - destruct (se_phase s); try done. unfold reconnect. by case_match.
  - destruct (se_phase s); try done. unfold authorize. repeat case_match; (split; [cbn; congruence|done]).
  - destruct (se_phase s); try done. split; [done|]. unfold subscribe_bus.
    cbn [set_phase set_hub se_hub act]. destruct (hub_reader _); try done. by destruct (bus_subscribe _ _).
  - destruct (se_phase s); try done. unfold load. repeat case_match; cbn [set_hub se_hub set_phase refuse]; by rewrite ?Hleave.
  - destruct (se_phase s) as [| | | |cn []|]; try done. unfold observe_state. repeat case_match; (split; [cbn; congruence|done]).
  - destruct (se_phase s) as [| | | |cn []|]; try done.
  - destruct (se_phase s); try done. unfold turn, drain_turn, select_turn, item_turn, close, deliver, finish, after_read.
    repeat case_match; try done; cbn [set_hub se_hub set_phase emit se_evicted]; by rewrite ?Hleave.
  - destruct (se_phase s); try done; unfold close, finish; repeat case_match; cbn [set_hub se_hub set_phase emit se_evicted set_client]; by rewrite ?Hleave.
Qed.

Lemma sse_act_keeps a s : id ≠ "" → sse_promise s → sse_promise (sse_act id frame_json a s).
Proof.
  intros Hne Hs Hev Hle. destruct (sse_act_mono a s) as [Hmev Hmle].
  assert (se_evicted s = false) as Hev0 by by apply Hmev.
  assert (len (hub_accepted (se_hub s)) ≤ u64_max) as Hle0 by lia.
  specialize (Hs Hev0 Hle0). clear Hmev Hmle Hle.
  destruct a as [a|st| |l req| |refusal| | |stored| |ready|kept]; cbn [sse_act] in *.
  - destruct (may_work a s) eqn:E; [by apply work_keeps|done].
  - destruct (may_become st s) eqn:E; [by apply becomes_keeps|done].
  - unfold evict_session in *. by destruct (_ && _).
  - destruct (se_phase s) eqn:Eph; try done. destruct (_ && _) eqn:Eb; [|done].
    apply andb_prop in Eb as [H1%Z.leb_le H2%Z.leb_le]. by eapply connect_keeps.
  - destruct (se_phase s) eqn:Eph; try done. by eapply reconnect_keeps.
  - destruct (se_phase s) eqn:Eph; try done. by apply authorize_keeps.
  - destruct (se_phase s) eqn:Eph; try done. by apply subscribe_keeps.
  - destruct (se_phase s) eqn:Eph; try done. by apply snapshot_keeps.
  - destruct (se_phase s) as [| | | |cn []|] eqn:Eph; try done. by apply observe_state_keeps.
  - destruct (se_phase s) as [| | | |cn []|] eqn:Eph; try done. by apply observe_high_water_keeps.
  - destruct (se_phase s) eqn:Eph; try done. by apply turn_keeps.
  - set (s1 := set_client (se_base s) (take kept (se_received s)) s) in *.
    pose proof Hs as [Hc Hph]. assert (core_inv s1) as Hc1 by (apply (core_keeps s); cbn; eauto; apply Hc).
    unfold phase_inv in Hph. destruct (se_phase s) eqn:Eph; [done|..]; (apply close_keeps; [done|done|]); cbn.
    + by destruct Hph as [-> _].
    + by destruct Hph as [-> _].
    + by destruct Hph as (_ & _ & p & c & -> & _).
    + by destruct Hph as [(_ & (p & from & c & D & -> & _) & _) _].
    + by destruct Hph as (_ & (p & from & c & D & -> & _) & _).
Qed.
(** What a process finds of a session: the log of a terminal one may have been
    compacted, and then all of it. *)
Record sse_resumable (logs : LogStore) (earlier : list Envelope) (st : SessionState) : Prop := {
  sr_resumable : resumable id logs earlier;
  sr_base : compaction_base (default [] (logs !! id)) = 0 ∨
    is_terminal st = true ∧ compaction_base (default [] (logs !! id)) = len earlier;
}.
Lemma sse_start_inv logs earlier st w :
  sse_resumable logs earlier st → sse_inv (sse_start logs earlier st w).
Proof.
  intros [Hr Hb]. split; [|done]. split; try done.
  - by apply hub_resumed_inv.
  - destruct Hr as [(l & Hl & _) _ _]. apply bool_decide_eq_true. cbn. by rewrite Hl.
  - unfold hub_accepted. cbn. by rewrite app_nil_r.
Qed.
Lemma sse_run_promise acts s :
  id ≠ "" → sse_inv s → sse_promise (sse_run id frame_json acts s).
Proof.
  intros Hne Hs0. assert (sse_promise s) as Hs by (by intros _ _). clear Hs0. unfold sse_run, flip.
  revert s Hs. induction acts as [|a acts IH]; intros s Hs; [done|].
  cbn. apply IH. by apply sse_act_keeps.
Qed.


(** *** A resolved session's stream ends *)
Section completes.
Context (framed : ∀ e, ∃ json, frame_json e = Ok json).

(** A stream that waits for the end of a resolved session and has not fallen
    behind. *)
Definition waiting (s : Sse) (cn : Conn) (last p from : Z) (c : SubscriptionCursor) (D : list (Z * Envelope)) : Prop :=
  sse_inv s ∧ se_phase s = Streaming cn ∧ cn_ending cn = EResolved last ∧
  hub_reader (se_hub s) = Reading p from c D ∧ 0 ≤ from ≤ p ∧
  len (hub_published (se_hub s)) - p ≤ DEFAULT_SESSION_STREAM_CAPACITY.
Lemma turn_advances s cn last p from c D :
  waiting s cn last p from c D →
  let s' := sse_act id frame_json (Turn ReadyItem) s in
  se_phase s' = Offline (Some EndResolved) ∨
  from + len D < last ∧ ∃ cn' c' x, waiting s' cn' last p from c' (D ++ [x]).
Proof.
  intros (Hs & Eph & Hend & Hr & Hfrom & Hlag) s'. pose proof Hs as [Hc Hph]. unfold phase_inv in Hph.
  rewrite Eph in Hph. destruct Hph as (Hd & (p' & from' & c0 & D' & Hr' & _ & Hle) & He). rewrite Hr in Hr'.
  injection Hr' as <- <- <- <-. rewrite Hend in He. destruct He as (Hst & Hp & Hlast).
  pose proof (turn_keeps ReadyItem cn s Hs Eph) as Hs'.
  assert (s' = turn id frame_json ReadyItem cn s) as -> by (unfold s'; cbn; by rewrite Eph).
  revert Hs'. unfold turn. rewrite Hend. cbn [select_turn].
  destruct (Z.geb_spec (cn_delivered cn) last) as [Hge|Hlt]; [left; unfold close; by rewrite Hr|].
  right. split; [lia|]. revert Hs'. unfold item_turn. rewrite Hr.
  destruct (read_ok s p from c D Hc Hr Hfrom) as (c' & w & out & E & Hout). rewrite E.
  assert (hub_accepted (se_hub s) = hub_published (se_hub s)) as Eacc.
  { unfold hub_accepted. rewrite Hp. cbn. by rewrite app_nil_r. }
  destruct out as [[o e| |]|l]; [|destruct Hout as [Hempty _]; rewrite Eacc in Hlast; lia|done|lia].
  unfold deliver. destruct (framed e) as [json ->]. intros Hs'.
  destruct (o >? cn_delivered cn); [eexists _, c', (o, e)|exists cn, c', (o, e)]; split_and!; done || lia.
Qed.
(** A turn leaves what was accepted and where the client began. *)
Lemma turn_frame ready s :
  let s' := sse_act id frame_json (Turn ready) s in
  se_base s' = se_base s ∧ hub_accepted (se_hub s') = hub_accepted (se_hub s).
Proof.
  assert (∀ c h, hub_accepted (leave c h) = hub_accepted h) as Hleave by (intros; apply leave_facts).
  cbn [sse_act]. destruct (se_phase s); try done.
  unfold turn, drain_turn, select_turn, item_turn, close, deliver, finish, after_read.
  repeat case_match; try done; cbn [set_hub se_hub set_phase emit se_base]; by rewrite ?Hleave.
Qed.
(** The stream has ended, with all that was accepted delivered. *)
Definition completed (accepted : list Envelope) (base : Z) (s : Sse) : Prop :=
  se_phase s = Offline (Some EndResolved) ∧ in_order base accepted (se_received s) ∧
  len accepted ≤ base + len (se_received s).
Lemma ended_completed s :
  sse_inv s → se_phase s = Offline (Some EndResolved) →
  completed (hub_accepted (se_hub s)) (se_base s) s.
Proof.
  intros [Hc Hph] E. unfold phase_inv in Hph. rewrite E in Hph. destruct Hph as (_ & _ & Hl).
  split_and!; [done|apply Hc|done].
Qed.
Lemma waiting_ends k : ∀ s cn last p from c D,
  waiting s cn last p from c D → last - (from + len D) < Z.of_nat k →
  ∃ n, completed (hub_accepted (se_hub s)) (se_base s)
         (sse_run id frame_json (replicate n (Turn ReadyItem)) s).
Proof.
  induction k as [|k IH]; intros s cn last p from c D Hw Hk;
    destruct (turn_frame ReadyItem s) as [Eb Ea];
    (assert (sse_inv (sse_act id frame_json (Turn ReadyItem) s)) as Hs'
      by (destruct Hw as (Hs & Eph & _); cbn [sse_act]; rewrite Eph; by apply turn_keeps));
    (destruct (turn_advances _ _ _ _ _ _ _ Hw) as [Hdone|(Hlt & cn' & c' & x & Hw')];
     [exists 1%nat; rewrite <- Eb, <- Ea; by apply ended_completed|]); [lia|].
  destruct (IH _ _ _ _ _ _ _ Hw') as [n Hn]; [rewrite len_snoc; lia|]. exists (S n).
  by rewrite <- Eb, <- Ea.
Qed.
End completes.

End promise.

(** ** Runs *)
Module Demo.
Import ListChannels.
#[local] Existing Instance channels.
#[local] Existing Instance channels_laws.

Definition frame : Envelope → result RequestError bytes := λ _, Ok [].
Definition request (after : Z) : StreamSessionRequest := MkStreamSessionRequest "s" after None.
Definition opened : list SseAction := [Authorize None; SubscribeBus; LoadSnapshot; ObserveState None].
(** A process that found one envelope in the session's log. *)
Definition start : Sse := sse_start found [envelope "a"] Open (MkChans [] []).
Definition run (acts : list SseAction) : Sse := sse_run "s" frame acts start.
Lemma found_sse : sse_resumable "s" found [envelope "a"] Open.
Proof. split; [apply found_resumable|by left]. Qed.
Definition observed_open : list SseAction :=
  [Connect [] (request 0)] ++ opened ++ [Turn ReadyItem].
(** The session is resolved while the client is away. *)
Definition resumed : list SseAction :=
  observed_open ++
  [HangUp 1; Work (Accept (envelope "b") 2 None); Becomes Resolved; Work Publish; Reconnect] ++
  opened ++ [ObserveHighWater].


(** A client that guesses a position: what it is given later has its own id. *)
Example guessed_position_keeps_ids :
  let publish m t := [Work (Accept (envelope m) t None); Work Publish] in
  let s := run ([Connect ["2"] (request 0)] ++ opened ++ publish "b" 2 ++ publish "c" 3 ++
                [Turn ReadyItem; Turn ReadyItem]) in
  se_received s = [(3, envelope "c")].
Proof. vm_compute. reflexivity. Qed.

(** A session that resolves and is evicted before its stream comes to it: the
    stream ends normally, without the envelope that resolved the session. *)
Example evicted_stream_ends_early :
  let s := run (observed_open ++
    [Work (Accept (envelope "b") 2 None); Becomes Resolved; Work Publish; EvictSession;
     Turn (ReadyLifecycle (RecvOk (MkLifecycleEvent EventResolved "s"))); ObserveState (Some Resolved);
     ObserveHighWater; Turn ReadyItem]) in
  se_phase s = Offline (Some EndResolved) ∧ se_received s = [(1, envelope "a")] ∧
  hub_published (se_hub s) = [envelope "a"; envelope "b"].
Proof. vm_compute. done. Qed.
End Demo.
